(* ===== verification/_CoqProject ===== *)
-Q . S2P
Prelude.v
Bytes.v
Engine.v
Memory.v
MvccKey.v
Mvcc.v
MvccSpec.v
MvccRefine.v
MvccOps.v
MvccReads.v
Snapshot.v
MvccSystem.v
MvccProps.v
Types.v
Floats.v
Lexer.v
LexerProps.v
Ast.v
Parser.v
ParserProps.v
ParserRoundtrip.v
ParserShape.v
FrontendProps.v
Schema.v
Planner.v
Sort.v
Expr.v
Transaction.v
Executor.v
RowsSpec.v
OrderSpec.v
Predicates.v
InsertSpec.v
Keys.v
Json.v
Relation.v
ExecutorSafe.v
ExecutorWrites.v
Effects.v
Statements.v
Kv.v
KvRefine.v
KvMvcc.v
Session.v
Execute.v
Recorded.v
Rebase.v
Concurrent.v
Sessions.v
ConcurrentProps.v
Result.v
Server.v
Replies.v
Connections.v
Shutdown.v
ConnectionProps.v
Scripts.v
Samples.v
SessionProps.v
QueryProps.v
WriteProps.v
Btree.v
Os.v
Disk.v
DiskLog.v
DiskRefine.v
DiskOpen.v
DiskLaws.v
DiskCompact.v
DiskSamples.v
Durability.v
ServerProcess.v
DurabilityProps.v
DiskProps.v
ServerProps.v
Tokens.v
Client.v
Findings.v
