(* ===== verification/Prelude.v ===== *)
(** * SpaceDB: a verification development

    SpaceDB is a small SQL database in Go.  A client sends lines of SQL over
    TCP; the server hands each to a session, which parses it, plans it, builds
    an executor and runs it in a transaction of the SQL engine.  The engine
    keeps tables and rows as records of a key-value store with multi-version
    concurrency control, and that store keeps its own records in a storage
    engine, in memory or in an append-only log on disk.  This library models
    the Go code of every layer and proves what the layers promise to each other
    and to the client.

    ** The files and the code they model

    - [Prelude], [Bytes]: outcomes and errors of Go functions, the monads
      [result] and [ST], byte strings and their order, big-endian numbers.
    - [Engine] ([storage/engine.go]): the interface of a storage engine as the
      class [Engine]; its contract is the class [EngineLaws].  [Memory]
      ([storage/memory.go]) is one instance.
    - [Btree], [Os]: the ordered index of google/btree and the lock files of
      gofrs/flock, as classes with laws; files, and calls that may fail.
      [Disk] ([storage/disk_log.go], [storage/disk.go]) is the disk engine;
      [DiskLog] its records, [DiskRefine] that it is a map, [DiskOpen] what a
      log opened again holds, [DiskCompact] that compaction is safe, [DiskLaws]
      that it is an instance of [EngineLaws].
    - [MvccKey], [Mvcc] ([storage/mvcc_key.go], [storage/storage.go]): keys and
      transactions.  [MvccSpec] and [Snapshot] are their specification, an
      abstract state and a snapshot-isolation machine; [MvccRefine], [MvccOps],
      [MvccReads] and [MvccSystem] prove that every interleaving of the code is
      a run of it.
    - [Types], [Floats] ([types/]): values with their comparison; binary64 as
      [spec_float].  [Schema] ([schema/]): tables and their validation.
    - [Lexer], [Parser], [Ast] ([lexer/], [parser/]), with [LexerProps],
      [ParserProps], [ParserRoundtrip] and [ParserShape].
    - [Planner] ([planner/]); [Sort], [Expr], [Transaction], [Executor]
      ([executor/]); [Result] ([executor/result.go]) the text of a result.
      [RowsSpec], [OrderSpec] and [InsertSpec] describe the operators on rows;
      [Predicates] gives expressions a meaning without the evaluator.
    - [Keys], [Json], [Kv] ([engine/kv.go]): keys of tables and rows, the codec
      as a class with laws, SQL transactions over the class [MVCCTransaction].
      [Relation] is what a transaction promises to the executor, the class
      [Relational] over an abstract database; [KvRefine] proves that [Kv] keeps
      it on every store that is a map of byte strings ([KvLaws]), and [KvMvcc]
      that [Mvcc] is such a store.
    - [Session] ([engine/engine.go]); [ExecutorSafe], [ExecutorWrites],
      [Effects], [Statements] and [Execute] prove, against [Relational] only,
      what a statement does; [Scripts] runs many of them.
    - [Recorded], [Rebase], [Concurrent], [Sessions]: sessions that run at the
      same time.  A recording of a transaction's calls is another store of
      [KvLaws], so that what a statement did in an interleaved run is what it
      does alone on its snapshot; [Concurrent] is the machine of statements
      this gives, and [Sessions] runs the code of many sessions call by call.
      [Connections] does the same for the handlers of the server: a handler is
      run on the recording of its calls so far, which tells the next one.
      [Shutdown] proves that no reachable state of the server is stuck.
    - [Durability]: processes that open a log, run a script and may die.
    - [Server], [Replies] ([handleConnection] in [cmd/spacedb-server]): one
      connection; [Connections] ([Serve]): the accept loop and its handlers;
      [ServerProcess] ([run]): the process that opens the log, serves and closes
      it.  [Client] ([cmd/spacedb-client]).  [Tokens] ([lexer/token.go]): tokens
      in error texts.
    - the files named [...Props] hold the properties, [Samples] and
      [DiskSamples] the data their witnesses use, [Findings] small programs on
      which the code does something else than it means to.

    Go names are kept.  Where Go has methods of several types with one name,
    the type is in front ([Session_Execute]); [Set] is [Set_].

    ** How the code is rendered

    - A function that may fail is a function into [result]: a value, an error
      or a panic.  A method of a shared object is a function from the object's
      state to its new state and a [result] ([ST]).  Theorems exclude panics:
      reading past the tokens, a failed type assertion, an index out of range.
      An error is its chain of format strings; arguments are left out, and
      [Server] takes the text of an error as a parameter.
    - Integers are [Z] with their 64 bits written out where they can overflow;
      floats are [spec_float] with the operations of binary64.
    - A loop over a list or string is structural recursion.  The others have
      fuel: one unit per byte of input and one more for the lexer and the
      scanner of lines, one per token for the loops of the parser, one per byte
      of the log to rebuild the index, 17 digits for the shortest text of a
      float.  Running out is the panic [Diverges], which the theorems exclude,
      or is shown impossible in the file.
    - Every method of a store or of the disk engine holds its lock from the
      first to the last line, so it is one atomic step; a scan of the disk
      engine, which holds it only for its snapshot and for each record, is
      several.  Transactions that overlap are sequences of such steps.
    - Go iterates over a map in any order: [MapOrder] is that order, and the
      theorems hold for each.  A list has one stable sort; here it is computed
      by insertion.
    - A call to the system that fails leaves the files as it found them, a
      write after a proper part of its bytes.  A process that dies in a call is
      one whose later calls all fail.  The loss of written bytes in a power
      failure is not modelled, nor are reads that fail.

    ** Parameters

    Third-party code is a class with documented laws: the JSON codec ([Json],
    [JsonLaws]; it gives back what it was given where that is finite and
    UTF-8), the B-tree ([BTree], [BTreeLaws]), the lock files ([Flock], no
    law), the names of temporary files.  Every theorem about them has a witness
    at a concrete instance: [bit_codec], a sorted list, a free lock.

    ** What the theorems show

    - Whole programs: [database_outlives_processes] (scripts in processes that
      may die), [session_transactional], [concurrent_sessions] (statements that
      overlap), [server_serves] (connections that overlap),
      [server_process_durable] (servers on a log, one after the other, each run
      from start to end or killed at any moment), [server_stops] (no handler is stuck or runs for ever, and
      the server stops when it is asked to), [connection_serves].
    - Transactions: [snapshot_isolation] and what it means for clients:
      [repeatable_read], [first_updater_wins], [commit_publishes],
      [rollback_undoes], [read_your_own_writes], [scan_agrees_with_get], and
      [crash_locks_keys], which is a defect.
    - The disk engine: [disk_engine_is_a_map], [writes_are_durable],
      [compaction_keeps_data], [scan_is_a_snapshot].
    - Statements: [query_denotes] gives a query its value on the abstract
      database; [insert_effect], [update_effect] and [delete_effect] what the
      others change; [kv_transaction_refines] that the SQL engine implements
      that database; [plans_are_runnable] that parsing and planning never
      panic and every plan has an executor these theorems apply to.
    - Operators: [join_combines], [order_by_stable_sort],
      [group_by_partitions], [aggregates_of_column], [projection_values],
      [filter_keeps_satisfying], [comparison_three_valued],
      [compare_total_preorder], [valid_tables].
    - Text and keys: [lexer_total], [lexer_inverts_spelling], [parser_sound],
      [parser_inverts_printing], [mvcc_keys_roundtrip], [primary_key_order],
      [stored_keys_distinct].

    ** Not modelled

    The log output of the server, the command lines, signals and the creation
    of the log's directory; that these fail is a premise where the code acts on
    it.  The network: a connection is the bytes its peer sends, how they end, and
    which writes fail.  A call of a statement to the store is one step: two
    statements never interleave inside one, as it holds a mutex.  A process may
    be killed inside one; but while statements overlap no call to the system
    fails in a process that lives on, as on a full disk.
    Error texts are formats without their arguments, so [Tokens] is not
    connected to the parser.
*)

From stdpp Require Export base tactics decidable option list gmap strings sorting fin_maps.
From Stdlib Require Export ZArith Lia.

#[global] Open Scope Z_scope.

(** ** Go errors and outcomes

    A Go function that returns [(T, error)] is a function into [result T].
    [Errorf] keeps the format string of the error the code builds, without
    the formatted arguments; [Wrapf] is [fmt.Errorf] with [%w]; [Joined] is
    [errors.Join].  The third outcome, [Panic], is a run-time panic of the Go
    program (or, for [Diverges], a loop that exhausted its fuel): no theorem
    about success or failure holds of it by accident. *)

Inductive error :=
  | Errorf (msg : string)
  | Wrapf (msg : string) (cause : error)
  | Joined (first second : error).

Inductive panic :=
  | IndexOutOfRange
  | TypeAssertion
  | NilDereference
  | InvalidKind
  | Diverges.

Inductive result (A : Type) :=
  | Ok (val : A)
  | Err (err : error)
  | Panic (why : panic).
Arguments Ok {A} val.
Arguments Err {A} err.
Arguments Panic {A} why.

#[export] Instance error_eq_dec : EqDecision error.
Proof. solve_decision. Defined.
#[export] Instance panic_eq_dec : EqDecision panic.
Proof. solve_decision. Defined.
#[export] Instance result_eq_dec {A} `{EqDecision A} : EqDecision (result A).
Proof. solve_decision. Defined.

#[export] Instance Ok_inj A : Inj (=) (=) (@Ok A).
Proof. by intros x y [= ->]. Qed.

(** [errors.Is err target] *)
Fixpoint errors_is (target err : error) : bool :=
  bool_decide (err = target) ||
  match err with
  | Errorf _ => false
  | Wrapf _ cause => errors_is target cause
  | Joined e1 e2 => errors_is target e1 || errors_is target e2
  end.

Definition no_panic {A} (r : result A) : Prop :=
  match r with Panic _ => False | _ => True end.

Definition rbind {A B} (r : result A) (f : A → result B) : result B :=
  match r with
  | Ok a => f a
  | Err e => Err e
  | Panic p => Panic p
  end.

(** [if err != nil { return ..., fmt.Errorf("msg: %w", err) }] *)
Definition rwrap {A} (msg : string) (r : result A) : result A :=
  match r with
  | Ok a => Ok a
  | Err e => Err (Wrapf msg e)
  | Panic p => Panic p
  end.

(** [xs[i]]: a panic out of range *)
Definition rindex {A} (l : list A) (i : nat) : result A :=
  match l !! i with Some a => Ok a | None => Panic IndexOutOfRange end.

(** [*p] *)
Definition rderef {A} (p : option A) : result A :=
  match p with Some a => Ok a | None => Panic NilDereference end.

(** a [for ... range l] loop whose body may return early *)
Fixpoint rfoldl {A B} (f : B → A → result B) (b : B) (l : list A) : result B :=
  match l with
  | [] => Ok b
  | a :: l => rbind (f b a) (λ b', rfoldl f b' l)
  end.

(** a [for ... range l] loop that appends one element per iteration *)
Fixpoint rmapM {A B} (f : A → result B) (l : list A) : result (list B) :=
  match l with
  | [] => Ok []
  | a :: l => rbind (f a) (λ b, rbind (rmapM f l) (λ bs, Ok (b :: bs)))
  end.

(** ** Stateful Go code

    [ST S A] is code that works on a shared object of type [S].  The state is
    returned on every outcome: what the code changed before an error stays
    changed. *)

Definition ST (S A : Type) := S → S * result A.

Definition sret {S A} (a : A) : ST S A := λ s, (s, Ok a).
Definition sthrow {S A} (e : error) : ST S A := λ s, (s, Err e).
Definition sbind {S A B} (m : ST S A) (f : A → ST S B) : ST S B := λ s,
  match m s with
  | (s', Ok a) => f a s'
  | (s', Err e) => (s', Err e)
  | (s', Panic p) => (s', Panic p)
  end.
Definition slift {S A} (r : result A) : ST S A := λ s, (s, r).
Definition sread {S A} (f : S → result A) : ST S A := λ s, (s, f s).
Definition swrap {S A} (msg : string) (m : ST S A) : ST S A := λ s,
  let '(s', r) := m s in (s', rwrap msg r).

(** the outcome of code whose error the caller inspects *)
Definition sattempt {S A} (m : ST S A) : ST S (result A) := λ s,
  match m s with
  | (s, Panic p) => (s, Panic p)
  | (s, r) => (s, Ok r)
  end.

Fixpoint sfoldl {S A B} (f : B → A → ST S B) (b : B) (l : list A) : ST S B :=
  match l with
  | [] => sret b
  | a :: l => sbind (f b a) (λ b', sfoldl f b' l)
  end.

Fixpoint siter {S A} (f : A → ST S unit) (l : list A) : ST S unit :=
  match l with
  | [] => sret ()
  | a :: l => sbind (f a) (λ _, siter f l)
  end.

Declare Scope go_scope.
Delimit Scope go_scope with go.
Notation "'let?' x ':=' m 'in' k" := (rbind m (λ x, k))
  (at level 10, x pattern, m at level 100, k at level 200) : go_scope.
Notation "'let!' x ':=' m 'in' k" := (sbind m (λ x, k))
  (at level 10, x pattern, m at level 100, k at level 200) : go_scope.
Notation "m ';;!' k" := (sbind m (λ _, k))
  (at level 199, k at level 200, right associativity) : go_scope.
#[global] Open Scope go_scope.

(** ** Equations and inversion lemmas of the two monads *)

Lemma rbind_Ok {A B} (r : result A) (f : A → result B) b :
  rbind r f = Ok b ↔ ∃ a, r = Ok a ∧ f a = Ok b.
Proof. destruct r; naive_solver. Qed.

Lemma rbind_assoc {A B C} (r : result A) (f : A → result B) (g : B → result C) :
  rbind (rbind r f) g = rbind r (λ a, rbind (f a) g).
Proof. by destruct r. Qed.

Lemma rwrap_Ok {A} msg (r : result A) a : rwrap msg r = Ok a ↔ r = Ok a.
Proof. destruct r; naive_solver. Qed.

Lemma rindex_Ok {A} (l : list A) i a : rindex l i = Ok a ↔ l !! i = Some a.
Proof. unfold rindex. destruct (l !! i); naive_solver. Qed.

Lemma rderef_Ok {A} (p : option A) a : rderef p = Ok a ↔ p = Some a.
Proof. destruct p; naive_solver. Qed.

Lemma sbind_Ok {S A B} (m : ST S A) (f : A → ST S B) s s' b :
  sbind m f s = (s', Ok b) ↔ ∃ s1 a, m s = (s1, Ok a) ∧ f a s1 = (s', Ok b).
Proof. unfold sbind. destruct (m s) as [s1 []]; naive_solver. Qed.

Lemma sbind_eq {S A B} (m : ST S A) (f : A → ST S B) s s1 a :
  m s = (s1, Ok a) → sbind m f s = f a s1.
Proof. unfold sbind. by intros ->. Qed.

Lemma sbind_assoc {S A B C} (m : ST S A) (f : A → ST S B) (g : B → ST S C) s :
  sbind (sbind m f) g s = sbind m (λ a, sbind (f a) g) s.
Proof. unfold sbind. by destruct (m s) as [s' []]. Qed.

Lemma swrap_Ok {S A} msg (m : ST S A) s s' a :
  swrap msg m s = (s', Ok a) ↔ m s = (s', Ok a).
Proof. unfold swrap. destruct (m s) as [? []]; naive_solver. Qed.

Lemma no_panic_bind {A B} (r : result A) (f : A → result B) :
  no_panic r → (∀ a, r = Ok a → no_panic (f a)) → no_panic (rbind r f).
Proof. destruct r; naive_solver. Qed.

Lemma no_panic_wrap {A} msg (r : result A) : no_panic r → no_panic (rwrap msg r).
Proof. by destruct r. Qed.

Lemma no_panic_rindex {A} (l : list A) i : (i < length l)%nat → no_panic (rindex l i).
Proof. unfold rindex. intros [? ->]%lookup_lt_is_Some. done. Qed.

Lemma rmapM_Ok {A B} (f : A → result B) l bs :
  rmapM f l = Ok bs ↔ Forall2 (λ a b, f a = Ok b) l bs.
Proof.
  revert bs. induction l as [|a l IH]; intros bs; simpl.
  - split; [intros [= <-]; constructor | by inversion 1].
  - rewrite rbind_Ok. setoid_rewrite rbind_Ok. setoid_rewrite IH. split.
    + intros (b & Hb & bs' & Hbs & [= <-]). by constructor.
    + inversion 1; naive_solver.
Qed.

Lemma rmapM_no_panic {A B} (f : A → result B) l :
  Forall (λ a, no_panic (f a)) l → no_panic (rmapM f l).
Proof.
  induction 1; [done|]. simpl. apply no_panic_bind; [done|].
  intros b _. by apply no_panic_bind.
Qed.

Lemma rbind_Err {A B} (r : result A) (f : A → result B) err :
  rbind r f = Err err → r = Err err ∨ ∃ a, r = Ok a ∧ f a = Err err.
Proof. destruct r; cbn; intros H; simplify_eq; eauto. Qed.

Lemma rmapM_Err {A B} (f : A → result B) l err : rmapM f l = Err err → ∃ a, a ∈ l ∧ f a = Err err.
Proof.
  induction l as [|a l IH]; simpl; [done|]. destruct (f a) eqn:Ha; simpl; [|intros [= ->]|done].
  - destruct (rmapM f l) as [|e|] eqn:Hl; simpl; [done| |done]. intros [= ->].
    destruct IH as (a' & ? & ?); [done|]. exists a'. split; [by right|done].
  - exists a. split; [by left|done].
Qed.

Lemma rfoldl_app {A B} (f : B → A → result B) b l k :
  rfoldl f b (l ++ k) = rbind (rfoldl f b l) (λ b', rfoldl f b' k).
Proof.
  revert b. induction l as [|a l IH]; intros b; simpl; [done|].
  rewrite rbind_assoc. destruct (f b a); simpl; auto.
Qed.

Lemma rfoldl_Err {A B} (f : B → A → result B) b l err :
  rfoldl f b l = Err err → ∃ b' a, a ∈ l ∧ f b' a = Err err.
Proof.
  revert b. induction l as [|a l IH]; intros b; simpl; [done|].
  destruct (f b a) eqn:Ha; simpl; [|intros [= ->]|done].
  - intros (b' & a' & ? & ?)%IH. exists b', a'. split; [by right|done].
  - exists b, a. split; [by left|done].
Qed.

(** an invariant of a [range] loop *)
Lemma rfoldl_inv {A B} (P : B → Prop) (f : B → A → result B) l b b' :
  P b → (∀ b a b', a ∈ l → P b → f b a = Ok b' → P b') → rfoldl f b l = Ok b' → P b'.
Proof.
  revert b. induction l as [|a l IH]; intros b Hb Hf; simpl; [by intros [= <-]|].
  rewrite rbind_Ok. intros (b1 & Hb1 & Hl).
  apply (IH b1); [|set_solver|done]. eapply Hf; [|done..]. set_solver.
Qed.

Lemma rfoldl_no_panic {A B} (P : B → Prop) (f : B → A → result B) l b :
  P b → (∀ b a, a ∈ l → P b → no_panic (f b a) ∧ ∀ b', f b a = Ok b' → P b') →
  no_panic (rfoldl f b l).
Proof.
  revert b. induction l as [|a l IH]; intros b Hb Hf; cbn [rfoldl]; [done|].
  destruct (Hf b a) as [Hn HP]; [set_solver|done|]. apply no_panic_bind; [done|].
  intros b' Hb'. apply IH; [by apply HP|]. set_solver.
Qed.

(** ** Automation *)

Create HintDb go discriminated.
#[export] Hint Resolve no_panic_wrap no_panic_rindex : go.
Create Rewrite HintDb gosimp.
#[export] Hint Rewrite @rbind_Ok @rwrap_Ok @rindex_Ok @rderef_Ok @sbind_Ok @swrap_Ok @rmapM_Ok : gosimp.

(** Invert hypotheses that say that monadic code returned a value. *)
Ltac inv_ok :=
  repeat match goal with
  | H : rbind _ _ = Ok _ |- _ => apply rbind_Ok in H as (?&?&?)
  | H : rwrap _ _ = Ok _ |- _ => apply rwrap_Ok in H
  | H : rindex _ _ = Ok _ |- _ => apply rindex_Ok in H
  | H : rderef _ = Ok _ |- _ => apply rderef_Ok in H
  | H : sbind _ _ _ = (_, Ok _) |- _ => apply sbind_Ok in H as (?&?&?&?)
  | H : swrap _ _ _ = (_, Ok _) |- _ => apply swrap_Ok in H
  | H : sret _ _ = _ |- _ => unfold sret in H
  | H : slift _ _ = _ |- _ => unfold slift in H
  | H : sread _ _ = _ |- _ => unfold sread in H
  | H : Ok _ = Ok _ |- _ => injection H as H
  | H : (_, _) = (_, _) |- _ => injection H as ? ?
  | H : Err _ = Ok _ |- _ => discriminate H
  | H : Panic _ = Ok _ |- _ => discriminate H
  | H : Ok _ = Err _ |- _ => discriminate H
  | H : sthrow _ _ = (_, Ok _) |- _ => discriminate H
  end; subst.

(** Case analysis on the scrutinee of a [match] or [if] of a hypothesis. *)
Ltac case_in H :=
  match type of H with
  | context [match ?x with _ => _ end] => destruct x eqn:?
  end.
