(* ===== verification/Bytes.v ===== *)
(** * Byte strings

    Go strings and byte slices are sequences of bytes.  This file holds the
    type [bytes], the comparison [bytes.Compare] with its order theory, and the
    big-endian codec of [encoding/binary]. *)

From stdpp Require Import countable list.
From Stdlib Require Export Strings.Byte.
From S2P Require Import Prelude.

Abbreviation byte := Init.Byte.byte.
Abbreviation bytes := (list Init.Byte.byte).

(** a byte string written as a Rocq string literal *)
Definition str (s : string) : bytes := String.list_byte_of_string s.

#[export] Instance byte_eq_dec : EqDecision byte.
Proof.
  refine (λ x y, match Byte.eqb x y as b return Byte.eqb x y = b → _ with
                 | true => λ H, left (Byte.byte_dec_bl x y H)
                 | false => λ H, right _
                 end eq_refl).
  intros ->. by rewrite (Byte.byte_dec_lb (eq_refl y)) in H.
Defined.

#[export] Instance byte_countable : Countable byte.
Proof. exact (inj_countable Byte.to_N Byte.of_N Byte.of_to_N). Defined.

(** ** Bytes as numbers *)

Definition byte_Z (b : byte) : Z := Z.of_N (Byte.to_N b).

(** [byte(z)]: the low eight bits *)
Definition Z_byte (z : Z) : byte :=
  match Byte.of_N (Z.to_N (z mod 256)) with Some b => b | None => x00 end.

Lemma byte_Z_range b : 0 ≤ byte_Z b < 256.
Proof. unfold byte_Z. pose proof (Byte.to_N_bounded b). lia. Qed.

Lemma byte_Z_inj x y : byte_Z x = byte_Z y → x = y.
Proof.
  unfold byte_Z. intros H%N2Z.inj.
  pose proof (Byte.of_to_N x). pose proof (Byte.of_to_N y). congruence.
Qed.

Lemma byte_Z_byte z : byte_Z (Z_byte z) = z mod 256.
Proof.
  unfold Z_byte, byte_Z. pose proof (Z.mod_pos_bound z 256 eq_refl).
  destruct (Byte.of_N (Z.to_N (z mod 256))) as [b|] eqn:E.
  - apply Byte.to_of_N in E. rewrite E. lia.
  - apply Byte.of_N_None_iff in E. lia.
Qed.

Lemma Z_byte_Z b : Z_byte (byte_Z b) = b.
Proof.
  apply byte_Z_inj. rewrite byte_Z_byte.
  apply Z.mod_small, byte_Z_range.
Qed.

Lemma Z_byte_mod z : Z_byte (z mod 256) = Z_byte z.
Proof. apply byte_Z_inj. rewrite !byte_Z_byte. by rewrite Zmod_mod. Qed.

(** ** [bytes.Compare] and [strings.Compare] *)

Fixpoint bytes_compare (a b : bytes) : comparison :=
  match a, b with
  | [], [] => Eq
  | [], _ :: _ => Lt
  | _ :: _, [] => Gt
  | x :: a, y :: b =>
      match byte_Z x ?= byte_Z y with
      | Eq => bytes_compare a b
      | c => c
      end
  end.

Definition blt (a b : bytes) : Prop := bytes_compare a b = Lt.
Definition ble (a b : bytes) : Prop := bytes_compare a b ≠ Gt.
#[export] Instance blt_dec a b : Decision (blt a b).
Proof. unfold blt. solve_decision. Defined.
#[export] Instance ble_dec a b : Decision (ble a b).
Proof. unfold ble. solve_decision. Defined.

Lemma bytes_compare_refl a : bytes_compare a a = Eq.
Proof. induction a; simpl; [done|]. by rewrite Z.compare_refl. Qed.

Lemma bytes_compare_eq a b : bytes_compare a b = Eq ↔ a = b.
Proof.
  split; [|intros ->; apply bytes_compare_refl].
  revert b. induction a as [|x a IH]; intros [|y b]; simpl; try done.
  destruct (Z.compare_spec (byte_Z x) (byte_Z y)) as [E| |]; try done.
  intros ->%IH. by apply byte_Z_inj in E as ->.
Qed.

Lemma bytes_compare_antisym a b : bytes_compare b a = CompOpp (bytes_compare a b).
Proof.
  revert b. induction a as [|x a IH]; intros [|y b]; simpl; try done.
  rewrite (Z.compare_antisym (byte_Z x) (byte_Z y)).
  destruct (byte_Z x ?= byte_Z y); simpl; auto.
Qed.

Lemma bytes_compare_app_l p a b : bytes_compare (p ++ a) (p ++ b) = bytes_compare a b.
Proof. induction p; simpl; [done|]. by rewrite Z.compare_refl. Qed.

Lemma blt_trans a b c : blt a b → blt b c → blt a c.
Proof.
  unfold blt. revert b c.
  induction a as [|x a IH]; intros [|y b] [|z c]; simpl; try done.
  destruct (Z.compare_spec (byte_Z x) (byte_Z y)), (Z.compare_spec (byte_Z y) (byte_Z z)),
    (Z.compare_spec (byte_Z x) (byte_Z z)); try done; try lia. by apply IH.
Qed.

Lemma blt_irrefl a : ¬ blt a a.
Proof. unfold blt. by rewrite bytes_compare_refl. Qed.

#[export] Instance blt_strict : StrictOrder blt.
Proof.
  split; [intros a; apply blt_irrefl | intros a b c; apply blt_trans].
Qed.

Lemma blt_total a b : blt a b ∨ a = b ∨ blt b a.
Proof.
  unfold blt. rewrite (bytes_compare_antisym a b).
  destruct (bytes_compare a b) eqn:E; simpl; [|tauto|tauto].
  apply bytes_compare_eq in E. tauto.
Qed.

Lemma ble_lteq a b : ble a b ↔ blt a b ∨ a = b.
Proof.
  unfold ble, blt. rewrite <-bytes_compare_eq.
  destruct (bytes_compare a b); naive_solver.
Qed.

Lemma not_blt a b : ¬ blt a b ↔ ble b a.
Proof.
  unfold ble, blt. rewrite (bytes_compare_antisym a b).
  destruct (bytes_compare a b); naive_solver.
Qed.

Lemma not_ble a b : ¬ ble a b ↔ blt b a.
Proof.
  unfold ble, blt. rewrite (bytes_compare_antisym a b).
  destruct (bytes_compare a b); naive_solver.
Qed.

Lemma ble_blt_trans a b c : ble a b → blt b c → blt a c.
Proof. rewrite ble_lteq. intros [?| ->] ?; [by eapply blt_trans|done]. Qed.

Lemma blt_ble_trans a b c : blt a b → ble b c → blt a c.
Proof. rewrite ble_lteq. intros ? [?| <-]; [by eapply blt_trans|done]. Qed.

Lemma blt_ble a b : blt a b → ble a b.
Proof. rewrite ble_lteq. auto. Qed.

Lemma ble_refl a : ble a a.
Proof. rewrite ble_lteq. auto. Qed.

#[export] Instance ble_preorder : PreOrder ble.
Proof.
  split; [intros a; apply ble_refl|]. intros a b c.
  rewrite !ble_lteq. intros [?| ->] [?| ->]; eauto using blt_trans.
Qed.

#[export] Instance ble_antisymm : AntiSymm (=) ble.
Proof.
  intros a b. rewrite !ble_lteq. intros [H1|] [H2|]; try done.
  destruct (blt_irrefl a). by eapply blt_trans.
Qed.

#[export] Instance ble_total : Total ble.
Proof. intros a b. rewrite !ble_lteq. destruct (blt_total a b); naive_solver. Qed.

Lemma blt_app_l p a b : blt (p ++ a) (p ++ b) ↔ blt a b.
Proof. unfold blt. by rewrite bytes_compare_app_l. Qed.

Lemma ble_app_l p a b : ble (p ++ a) (p ++ b) ↔ ble a b.
Proof. unfold ble. by rewrite bytes_compare_app_l. Qed.

Lemma ble_nil a : ble [] a.
Proof. by destruct a. Qed.

Lemma blt_nil_r a : ¬ blt a [].
Proof. by destruct a. Qed.

Lemma ble_prefix p k : p `prefix_of` k → ble p k.
Proof. intros [q ->]. rewrite <-(app_nil_r p) at 1. rewrite ble_app_l. apply ble_nil. Qed.

Lemma blt_app_nonempty a x b : blt a (a ++ x :: b).
Proof. rewrite <-(app_nil_r a) at 1. by rewrite blt_app_l. Qed.

(** A comparison decided inside two strings of one length is not changed by
    what follows them. *)
Lemma bytes_compare_app_len a b c d :
  length a = length b →
  bytes_compare (a ++ c) (b ++ d) =
    match bytes_compare a b with Eq => bytes_compare c d | r => r end.
Proof.
  revert b. induction a as [|x a IH]; intros [|y b] Hl; simpl in *; try done.
  destruct (byte_Z x ?= byte_Z y); [|done..]. apply IH. lia.
Qed.

(** A key between two extensions of [p] is an extension of [p]. *)
Lemma prefix_sandwich p a b k : ble (p ++ a) k → blt k (p ++ b) → p `prefix_of` k.
Proof.
  unfold ble, blt. revert k. induction p as [|x p IH]; intros k H1 H2; simpl in *.
  - apply prefix_nil.
  - destruct k as [|y k]; [done|]. simpl in *.
    destruct (Z.compare_spec (byte_Z x) (byte_Z y)) as [E| |]; try done.
    + apply byte_Z_inj in E as ->. rewrite Z.compare_refl in H2.
      by apply prefix_cons, IH.
    + destruct (Z.compare_spec (byte_Z y) (byte_Z x)); try done; lia.
Qed.

(** ** Big-endian integers: [binary.BigEndian] *)

Fixpoint be_put (n : nat) (z : Z) : bytes :=
  match n with
  | O => []
  | S n => Z_byte (z / 256 ^ Z.of_nat n) :: be_put n z
  end.

Definition be_get (bs : bytes) : Z := foldl (λ acc b, acc * 256 + byte_Z b) 0 bs.

Lemma length_be_put n z : length (be_put n z) = n.
Proof. induction n; simpl; auto. Qed.

Lemma pow256_pos n : 0 < 256 ^ Z.of_nat n.
Proof. apply Z.pow_pos_nonneg; lia. Qed.

Lemma pow256_S n : 256 ^ Z.of_nat (S n) = 256 * 256 ^ Z.of_nat n.
Proof. rewrite Nat2Z.inj_succ. apply Z.pow_succ_r. lia. Qed.

Lemma be_put_mod n m z : (n ≤ m)%nat → be_put n (z mod 256 ^ Z.of_nat m) = be_put n z.
Proof.
  induction n as [|n IH]; intros Hle; simpl; [done|].
  f_equal; [|apply IH; lia].
  apply byte_Z_inj. rewrite !byte_Z_byte.
  replace (Z.of_nat m) with (Z.of_nat n + Z.of_nat (m - n)) by lia.
  rewrite Z.pow_add_r by lia. pose proof (pow256_pos n). pose proof (pow256_pos (m - n)).
  rewrite Z.rem_mul_r by lia.
  rewrite (Z.mul_comm (256 ^ Z.of_nat n)), Z.div_add by lia.
  rewrite Z.div_small by (apply Z.mod_pos_bound; lia). rewrite Z.add_0_l.
  destruct (m - n)%nat as [|k] eqn:E; [lia|]. rewrite pow256_S.
  rewrite Z.rem_mul_r by (try pose proof (pow256_pos k); lia).
  rewrite Z.mul_comm, Z_mod_plus_full. apply Zmod_mod.
Qed.

Lemma foldl_be a bs :
  foldl (λ acc b, acc * 256 + byte_Z b) a bs = a * 256 ^ Z.of_nat (length bs) + be_get bs.
Proof.
  unfold be_get. revert a. induction bs as [|b bs IH]; intros a; cbn [foldl length]; [lia|].
  rewrite IH, (IH (0 * 256 + byte_Z b)), pow256_S. lia.
Qed.

Lemma be_get_cons b bs : be_get (b :: bs) = byte_Z b * 256 ^ Z.of_nat (length bs) + be_get bs.
Proof. unfold be_get at 1. cbn [foldl]. rewrite foldl_be. lia. Qed.

Lemma be_get_range bs : 0 ≤ be_get bs < 256 ^ Z.of_nat (length bs).
Proof.
  induction bs as [|b bs IH]; [done|].
  rewrite be_get_cons. cbn [length]. rewrite pow256_S.
  pose proof (byte_Z_range b). pose proof (pow256_pos (length bs)). nia.
Qed.

Lemma be_get_put n z : be_get (be_put n z) = z mod 256 ^ Z.of_nat n.
Proof.
  induction n as [|n IH]; [simpl; by rewrite Z.mod_1_r|].
  cbn [be_put]. rewrite be_get_cons, length_be_put, IH, byte_Z_byte, pow256_S.
  rewrite (Z.mul_comm 256). rewrite Z.rem_mul_r; [lia| |lia].
  pose proof (pow256_pos n). lia.
Qed.

Lemma be_put_get n bs : length bs = n → be_put n (be_get bs) = bs.
Proof.
  revert n. induction bs as [|b bs IH]; intros [|n] Hl; simpl in Hl; try done.
  injection Hl as Hl. cbn [be_put]. rewrite be_get_cons, Hl.
  pose proof (be_get_range bs) as Hr. rewrite Hl in Hr. pose proof (pow256_pos n). f_equal.
  - rewrite Z.add_comm, Z.div_add by lia. rewrite Z.div_small by done. apply Z_byte_Z.
  - rewrite <-(be_put_mod n n) by done.
    rewrite Z.add_comm, Z_mod_plus_full, be_put_mod by done. by apply IH.
Qed.

Lemma be_get_inj a b : length a = length b → be_get a = be_get b → a = b.
Proof.
  intros Hl H. rewrite <-(be_put_get _ a eq_refl), <-(be_put_get _ b eq_refl). by rewrite Hl, H.
Qed.

Lemma be_put_inj n y z :
  0 ≤ y < 256 ^ Z.of_nat n → 0 ≤ z < 256 ^ Z.of_nat n → be_put n y = be_put n z → y = z.
Proof.
  intros Hy Hz H%(f_equal be_get). rewrite !be_get_put in H.
  rewrite !Z.mod_small in H; done.
Qed.

(** Big-endian encodings of one width compare like the numbers. *)
Lemma be_get_compare a b :
  length a = length b → bytes_compare a b = (be_get a ?= be_get b).
Proof.
  revert b. induction a as [|x a IH]; intros [|y b] Hl; try done.
  injection Hl as Hl. rewrite !be_get_cons, <-Hl. cbn [bytes_compare].
  pose proof (be_get_range a) as Ha. pose proof (be_get_range b) as Hb. rewrite <-Hl in Hb.
  pose proof (pow256_pos (length a)).
  destruct (Z.compare_spec (byte_Z x) (byte_Z y)) as [E|E|E]; symmetry.
  - rewrite E, IH by done. apply Z.add_compare_mono_l.
  - apply Z.compare_lt_iff. nia.
  - apply Z.compare_gt_iff. nia.
Qed.

Lemma be_put_compare n y z :
  0 ≤ y < 256 ^ Z.of_nat n → 0 ≤ z < 256 ^ Z.of_nat n →
  bytes_compare (be_put n y) (be_put n z) = (y ?= z).
Proof.
  intros Hy Hz. rewrite be_get_compare by (by rewrite !length_be_put).
  rewrite !be_get_put, !Z.mod_small; done.
Qed.

#[export] Hint Resolve blt_ble ble_refl ble_nil length_be_put byte_Z_range be_get_range : go.

#[global] Arguments be_put : simpl never.
#[global] Arguments be_get : simpl never.
#[global] Arguments byte_Z : simpl never.
#[global] Arguments Z_byte : simpl never.
