(* ===== verification/Engine.v ===== *)
(** * The storage engine interface ([storage/engine.go])

    [Engine] is the Go interface; [EngineLaws] is what every implementation
    promises to the MVCC layer: a finite map from byte strings to byte strings
    whose scans are sorted.  [MemoryEngine] and [DiskEngine] are its instances;
    [Mvcc.v] is proved against the class only. *)

From stdpp Require Import sorting.
From S2P Require Import Prelude Bytes.

(** A Go [[]byte] where nil matters: [None] is nil. *)
Abbreviation slice := (option (list Init.Byte.byte)).

(** the bytes of a slice; nil has none *)
Definition sbytes (s : slice) : bytes := default [] s.

(** [Entry]: a record returned by a scan.  No caller tells a nil key from an
    empty one, so the key is a plain byte string. *)
Record Entry := mkEntry { Key : bytes; Value : slice }.

#[export] Instance entry_eq_dec : EqDecision Entry.
Proof. solve_decision. Defined.

(** [iter.Seq2[Entry, error]]: the items the iterator yields, in order. *)
Abbreviation Seq2 := (list (result Entry)).

Class Engine (E : Type) := {
  engSet : bytes → slice → ST E unit;
  engGet : bytes → E → result slice;
  engDelete : bytes → ST E unit;
  engScan : slice → slice → E → Seq2;
  engScanReverse : slice → slice → E → Seq2;
  engScanPrefix : bytes → E → Seq2;
  engScanPrefixReverse : bytes → E → Seq2;
}.

(** [prefixEnd]: the exclusive upper bound of the keys that extend [prefix].
    The loop runs from the last byte down: it drops trailing [0xff] bytes and
    increments the first byte that is not [0xff]; [nil] if there is none. *)
Fixpoint prefixEnd_loop (rev_end : bytes) : slice :=
  match rev_end with
  | [] => None
  | b :: rest =>
      if decide (b = xff) then prefixEnd_loop rest
      else Some (rev (Z_byte (byte_Z b + 1) :: rest))
  end.

Definition prefixEnd (prefix : bytes) : slice := prefixEnd_loop (rev prefix).

(** ** Sorted views of a finite map *)

Definition key_le {A} (p q : bytes * A) : Prop := ble p.1 q.1.
Definition key_lt {A} (p q : bytes * A) : Prop := blt p.1 q.1.
#[export] Instance key_le_dec {A} (p q : bytes * A) : Decision (key_le p q).
Proof. unfold key_le. apply _. Defined.
#[export] Instance key_le_total {A} : Total (key_le (A := A)).
Proof. intros p q. apply (total ble). Qed.
#[export] Instance key_le_trans {A} : Transitive (key_le (A := A)).
Proof. intros p q r. unfold key_le. apply (transitivity (R := ble)). Qed.

(** the records of a map in key order *)
Definition sorted_entries {A} (m : gmap bytes A) : list (bytes * A) :=
  merge_sort key_le (map_to_list m).

(** [start <= key < end], where nil is no bound *)
Definition in_range (start end_ : slice) (k : bytes) : bool :=
  match start with None => true | Some s => bool_decide (ble s k) end &&
  match end_ with None => true | Some e => bool_decide (blt k e) end.

Definition range (start end_ : slice) (m : gmap bytes bytes) : list (bytes * bytes) :=
  filter (λ p, in_range start end_ p.1) (sorted_entries m).

Definition prefixed (p : bytes) (m : gmap bytes bytes) : list (bytes * bytes) :=
  filter (λ q, p `prefix_of` q.1) (sorted_entries m).

Definition entry_pair (en : Entry) : bytes * bytes := (Key en, sbytes (Value en)).

(** The items of a scan that meets no error and yields the records [l]. *)
Definition yields (items : Seq2) (l : list (bytes * bytes)) : Prop :=
  ∃ es, items = map Ok es ∧ map entry_pair es = l.

(** ** What an engine promises

    [usable] is the invariant of the operations, [fits] the size limit of a
    record; an engine is [steady] if nothing but that limit makes its writes
    fail.  A write that fails leaves the contents as they were, and no read
    fails. *)
Class EngineLaws (E : Type) `{Engine E} := {
  contents : E → gmap bytes bytes;
  usable : E → Prop;
  steady : E → Prop;
  fits : bytes → slice → Prop;
  fits_dec k v :: Decision (fits k v);
  fits_small k v : (length k + length (sbytes v) ≤ 4096)%nat → fits k v;
  fits_le k v k' v' :
    fits k v → (length k' ≤ length k)%nat →
    (length (sbytes v') ≤ length (sbytes v))%nat → fits k' v';
  fits_contents e k v : usable e → contents e !! k = Some v → fits k None;
  engSet_law e k v :
    usable e → (steady e → steady (engSet k v e).1) ∧
    match engSet k v e with
    | (e', Ok _) => usable e' ∧ contents e' = <[k := sbytes v]> (contents e) ∧ fits k v
    | (e', Err _) => usable e' ∧ contents e' = contents e ∧ ¬ (steady e ∧ fits k v)
    | (_, Panic _) => False
    end;
  engDelete_law e k :
    usable e → (steady e → steady (engDelete k e).1) ∧
    match engDelete k e with
    | (e', Ok _) => usable e' ∧ contents e' = delete k (contents e) ∧ fits k None
    | (e', Err _) => usable e' ∧ contents e' = contents e ∧ ¬ (steady e ∧ fits k None)
    | (_, Panic _) => False
    end;
  engGet_none e k :
    usable e → contents e !! k = None → engGet k e = Ok None;
  engGet_some e k v :
    usable e → contents e !! k = Some v → v ≠ [] → engGet k e = Ok (Some v);
  engScan_ok e s t : usable e → yields (engScan s t e) (range s t (contents e));
  engScanReverse_ok e s t :
    usable e → yields (engScanReverse s t e) (rev (range s t (contents e)));
  engScanPrefix_ok e p : usable e → yields (engScanPrefix p e) (prefixed p (contents e));
  engScanPrefixReverse_ok e p :
    usable e → yields (engScanPrefixReverse p e) (rev (prefixed p (contents e)));
}.

(** ** Lemmas on sorted views *)

Lemma elem_of_sorted_entries {A} (m : gmap bytes A) k v : (k, v) ∈ sorted_entries m ↔ m !! k = Some v.
Proof. unfold sorted_entries. by rewrite merge_sort_Permutation, elem_of_map_to_list. Qed.

Lemma NoDup_sorted_keys {A} (m : gmap bytes A) : NoDup (sorted_entries m).*1.
Proof. unfold sorted_entries. rewrite merge_sort_Permutation. apply NoDup_fst_map_to_list. Qed.

(** a list sorted by [ble] without duplicate keys is strictly sorted *)
Lemma sorted_strict {A} (l : list (bytes * A)) :
  StronglySorted key_le l → NoDup l.*1 → StronglySorted key_lt l.
Proof.
  induction 1 as [|p l Hl IH Hp]; [constructor|].
  cbn. rewrite NoDup_cons. intros [Hin Hnd]. constructor; [by apply IH|].
  rewrite Forall_forall in Hp |- *. intros q Hq. specialize (Hp q Hq).
  unfold key_le, key_lt in *. rewrite ble_lteq in Hp. destruct Hp as [|Heq]; [done|].
  destruct Hin. rewrite Heq. by apply list_elem_of_fmap_2.
Qed.

Lemma sorted_entries_sorted {A} (m : gmap bytes A) : StronglySorted key_lt (sorted_entries m).
Proof.
  apply sorted_strict; [|apply NoDup_sorted_keys].
  unfold sorted_entries. apply StronglySorted_merge_sort; apply _.
Qed.

Lemma StronglySorted_filter {A} (R : relation A) P `{∀ x, Decision (P x)} (l : list A) :
  StronglySorted R l → StronglySorted R (filter P l).
Proof.
  induction 1 as [|x l Hl IH Hx]; [constructor|].
  rewrite filter_cons. case_decide; [|done]. constructor; [done|].
  rewrite Forall_forall in Hx |- *. intros y Hy%list_elem_of_filter. naive_solver.
Qed.

#[export] Instance key_lt_irrefl {A} : Irreflexive (key_lt (A := A)).
Proof. intros p. apply blt_irrefl. Qed.
#[export] Instance key_lt_trans {A} : Transitive (key_lt (A := A)).
Proof. intros p q r. apply blt_trans. Qed.

(** Two strictly sorted lists with the same elements are equal. *)
Lemma sorted_ext {A} (R : relation A) `{!StrictOrder R} (l k : list A) :
  StronglySorted R l → StronglySorted R k → (∀ x, x ∈ l ↔ x ∈ k) → l = k.
Proof.
  intros Hl Hk Hin. apply (StronglySorted_unique_strong R); [|done|done|].
  - intros x y _ _ Hxy Hyx. destruct (irreflexivity R x). by transitivity y.
  - apply NoDup_Permutation; [| |done].
    + clear -Hl StrictOrder0. induction Hl as [|x l _ IH Hx]; constructor; [|done].
      intros Hxl. rewrite Forall_forall in Hx. by eapply (irreflexivity R x), Hx.
    + clear -Hk StrictOrder0. induction Hk as [|x l _ IH Hx]; constructor; [|done].
      intros Hxl. rewrite Forall_forall in Hx. by eapply (irreflexivity R x), Hx.
Qed.

#[export] Instance key_lt_strict {A} : StrictOrder (key_lt (A := A)).
Proof. split; apply _. Qed.

Lemma elem_of_range s t m k v :
  (k, v) ∈ range s t m ↔ m !! k = Some v ∧ in_range s t k = true.
Proof.
  unfold range. rewrite list_elem_of_filter, elem_of_sorted_entries. simpl.
  rewrite Is_true_true. tauto.
Qed.

Lemma range_sorted s t m : StronglySorted key_lt (range s t m).
Proof. apply StronglySorted_filter, sorted_entries_sorted. Qed.

Lemma elem_of_prefixed p m k v :
  (k, v) ∈ prefixed p m ↔ m !! k = Some v ∧ p `prefix_of` k.
Proof. unfold prefixed. rewrite list_elem_of_filter, elem_of_sorted_entries. simpl. tauto. Qed.

Lemma prefixed_sorted p m : StronglySorted key_lt (prefixed p m).
Proof. apply StronglySorted_filter, sorted_entries_sorted. Qed.

(** ** The prefix bound is exact *)

Lemma blt_ff_prefix p k : Forall (λ b, b = xff) p → ble p k → p `prefix_of` k.
Proof.
  revert k. induction p as [|x p IH]; intros k Hall Hle; [apply prefix_nil|].
  destruct k as [|y k]; [done|].
  apply Forall_cons in Hall as [-> Hall]. unfold ble in Hle. cbn [bytes_compare] in Hle.
  pose proof (byte_Z_range y) as Hy.
  destruct (Z.compare_spec (byte_Z xff) (byte_Z y)) as [E|E|E].
  - apply byte_Z_inj in E as <-. by apply prefix_cons, IH.
  - change (byte_Z xff) with 255 in E. lia.
  - done.
Qed.

Lemma not_ff_range b : b ≠ xff → byte_Z b + 1 < 256.
Proof.
  intros Hb. pose proof (byte_Z_range b).
  assert (byte_Z b ≠ 255); [|lia]. change 255 with (byte_Z xff).
  intros E%byte_Z_inj. done.
Qed.

Lemma prefixEnd_loop_spec r :
  match prefixEnd_loop r with
  | None => Forall (λ b, b = xff) r
  | Some e => ∃ ffs b rest, r = ffs ++ b :: rest ∧ Forall (λ b, b = xff) ffs ∧
                b ≠ xff ∧ e = rev (Z_byte (byte_Z b + 1) :: rest)
  end.
Proof.
  induction r as [|b r IH]; simpl; [done|]. case_decide as Hb.
  - destruct (prefixEnd_loop r) as [e|].
    + destruct IH as (ffs & b' & rest & -> & ? & ? & ->).
      exists (b :: ffs), b', rest. by repeat constructor.
    + by constructor.
  - exists [], b, r. by repeat constructor.
Qed.

(** a string extends [q ++ [b] ++ 0xff..] iff it lies in the bound computed by [prefixEnd] *)
Lemma prefix_range_step q b ffs k :
  b ≠ xff → Forall (λ b, b = xff) ffs →
  (q ++ b :: ffs) `prefix_of` k ↔
  ble (q ++ b :: ffs) k ∧ blt k (q ++ [Z_byte (byte_Z b + 1)]).
Proof.
  intros Hb Hff. pose proof (not_ff_range b Hb) as Hr. pose proof (byte_Z_range b).
  assert (byte_Z (Z_byte (byte_Z b + 1)) = byte_Z b + 1) as Hs
    by (rewrite byte_Z_byte; apply Z.mod_small; lia).
  split.
  - intros [t ->]. split; [by apply ble_prefix; eexists|].
    rewrite <-app_assoc, blt_app_l. unfold blt. simpl. rewrite Hs.
    by rewrite (proj2 (Z.compare_lt_iff _ _)) by lia.
  - intros [H1 H2]. assert (q `prefix_of` k) as [t ->] by (by eapply prefix_sandwich).
    rewrite ble_app_l in H1. rewrite blt_app_l in H2.
    apply prefix_app. destruct t as [|y t]; [done|].
    unfold ble, blt in H1, H2. simpl in H1, H2. rewrite Hs in H2.
    destruct (Z.compare_spec (byte_Z b) (byte_Z y)) as [E| |]; [| |done].
    + apply byte_Z_inj in E as ->. by apply prefix_cons, blt_ff_prefix.
    + destruct (Z.compare_spec (byte_Z y) (byte_Z b + 1)); try done; try lia.
      by destruct t.
Qed.

Lemma prefixEnd_spec p k : in_range (Some p) (prefixEnd p) k = true ↔ p `prefix_of` k.
Proof.
  unfold in_range, prefixEnd. pose proof (prefixEnd_loop_spec (rev p)) as Hl.
  destruct (prefixEnd_loop (rev p)) as [e|].
  - destruct Hl as (ffs & b & rest & Hr & Hff & Hb & ->).
    assert (p = rev rest ++ b :: rev ffs) as ->.
    { rewrite <-(rev_involutive p), Hr, rev_app_distr. simpl. by rewrite <-app_assoc. }
    rewrite andb_true_iff, !bool_decide_eq_true. simpl. symmetry.
    apply prefix_range_step; [done|]. by apply Forall_rev.
  - rewrite andb_true_r, bool_decide_eq_true. split; [|apply ble_prefix].
    apply blt_ff_prefix. rewrite <-(rev_involutive p). by apply Forall_rev.
Qed.

Lemma range_prefixEnd p m : range (Some p) (prefixEnd p) m = prefixed p m.
Proof.
  unfold range, prefixed. apply list_filter_iff. intros [k v]. simpl.
  rewrite Is_true_true. apply prefixEnd_spec.
Qed.

#[export] Hint Resolve range_sorted prefixed_sorted sorted_entries_sorted : go.
