(* ===== verification/Memory.v ===== *)
(** * The in-memory engine ([storage/memory.go])

    The Go map is a [gmap]; a stored value is a [slice], since the map keeps a
    nil value as nil. *)

From S2P Require Import Prelude Bytes Engine.

Record MemoryEngine := mkMemoryEngine { data : gmap bytes slice }.

Definition NewMemoryEngine : MemoryEngine := mkMemoryEngine ∅.

Module Memory.

Definition Set_ (key : bytes) (value : slice) : ST MemoryEngine unit := λ me,
  (mkMemoryEngine (<[key := value]> (data me)), Ok ()).

Definition Get (key : bytes) (me : MemoryEngine) : result slice :=
  match data me !! key with
  | None => Ok None
  | Some v => Ok v
  end.

Definition Delete (key : bytes) : ST MemoryEngine unit := λ m,
  (mkMemoryEngine (delete key (data m)), Ok ()).

Definition entry_le (a b : Entry) : Prop := ble (Key a) (Key b).
#[export] Instance entry_le_dec a b : Decision (entry_le a b).
Proof. unfold entry_le. apply _. Defined.

(** the two guards of the loop over the map: the key is skipped if it is below
    [start] or not below [end] *)
Definition scan_keep (start end_ : slice) (k : bytes) : bool :=
  match start with
  | Some s => negb (bool_decide (bytes_compare k s = Lt))
  | None => true
  end &&
  match end_ with
  | Some e => bool_decide (bytes_compare k e = Lt)
  | None => true
  end.

Definition scan (start end_ : slice) (reverse : bool) (me : MemoryEngine) : Seq2 :=
  let entries :=
    omap (λ '(k, v), if scan_keep start end_ k then Some (mkEntry k v) else None)
         (map_to_list (data me)) in
  let entries := merge_sort entry_le entries in
  let entries := if reverse then rev entries else entries in
  map Ok entries.

Definition Scan (start end_ : slice) : MemoryEngine → Seq2 := scan start end_ false.
Definition ScanReverse (start end_ : slice) : MemoryEngine → Seq2 := scan start end_ true.
Definition ScanPrefix (prefix : bytes) : MemoryEngine → Seq2 :=
  Scan (Some prefix) (prefixEnd prefix).
Definition ScanPrefixReverse (prefix : bytes) : MemoryEngine → Seq2 :=
  ScanReverse (Some prefix) (prefixEnd prefix).

End Memory.

#[export] Instance memory_engine : Engine MemoryEngine := {
  engSet := Memory.Set_;
  engGet := Memory.Get;
  engDelete := Memory.Delete;
  engScan := Memory.Scan;
  engScanReverse := Memory.ScanReverse;
  engScanPrefix := Memory.ScanPrefix;
  engScanPrefixReverse := Memory.ScanPrefixReverse;
}.

(** ** The laws *)

Definition memory_contents (me : MemoryEngine) : gmap bytes bytes := sbytes <$> data me.

Lemma scan_keep_in_range s t k : Memory.scan_keep s t k = in_range s t k.
Proof.
  unfold Memory.scan_keep, in_range. f_equal. destruct s as [s|]; [|done].
  destruct (decide (blt k s)) as [H|H].
  - rewrite (bool_decide_eq_true_2 _ H), bool_decide_eq_false_2; [done|].
    intros Hs%not_blt. done.
  - rewrite (bool_decide_eq_false_2 _ H). symmetry. apply bool_decide_eq_true_2.
    by apply not_blt.
Qed.

(** the scanned entries, before sorting, are the records in range *)
Lemma memory_scan_elem s t me en :
  en ∈ omap (λ '(k, v), if Memory.scan_keep s t k then Some (mkEntry k v) else None)
         (map_to_list (data me)) ↔
  data me !! Key en = Some (Value en) ∧ in_range s t (Key en) = true.
Proof.
  rewrite list_elem_of_omap. setoid_rewrite <-elem_of_map_to_list. split.
  - intros ([k v] & Hin & H). rewrite scan_keep_in_range in H.
    destruct (in_range s t k) eqn:E; by simplify_eq.
  - intros [Hin H]. exists (Key en, Value en). split; [done|].
    rewrite scan_keep_in_range, H. by destruct en.
Qed.

Lemma memory_scan_NoDup s t (l : list (bytes * slice)) :
  NoDup l.*1 →
  NoDup (map Key (omap (λ '(k, v), if Memory.scan_keep s t k then Some (mkEntry k v) else None) l)).
Proof.
  induction l as [|[k v] l IH]; cbn; [constructor|]. rewrite NoDup_cons. intros [Hk Hl].
  destruct (Memory.scan_keep s t k); [|by apply IH]. cbn. constructor; [|by apply IH].
  rewrite list_elem_of_fmap. intros (en & -> & Hen). apply Hk.
  rewrite list_elem_of_omap in Hen. destruct Hen as ([k' v'] & Hin & Heq).
  destruct (Memory.scan_keep s t k'); simplify_eq. simpl.
  apply list_elem_of_fmap. by exists (k', v').
Qed.

#[export] Instance entry_le_total : Total Memory.entry_le.
Proof. intros p q. apply (total ble). Qed.
#[export] Instance entry_le_trans : Transitive Memory.entry_le.
Proof. intros p q r. unfold Memory.entry_le. apply (transitivity (R := ble)). Qed.

Lemma memory_scan_range s t me :
  map entry_pair (merge_sort Memory.entry_le
    (omap (λ '(k, v), if Memory.scan_keep s t k then Some (mkEntry k v) else None)
       (map_to_list (data me)))) = range s t (memory_contents me).
Proof.
  set (l := omap _ _). apply (sorted_ext key_lt); [|apply range_sorted|].
  - apply sorted_strict.
    + apply (StronglySorted_fmap entry_pair Memory.entry_le); [done|].
      apply StronglySorted_merge_sort; apply _.
    + rewrite <-list_fmap_compose. rewrite merge_sort_Permutation.
      apply memory_scan_NoDup, NoDup_fst_map_to_list.
  - intros [k v]. rewrite elem_of_range. unfold memory_contents. rewrite lookup_fmap.
    rewrite list_elem_of_fmap. setoid_rewrite merge_sort_Permutation.
    subst l. setoid_rewrite memory_scan_elem. split.
    + intros (en & [= -> ->] & -> & ?). done.
    + intros [Hk ?]. apply fmap_Some in Hk as (v' & Hv & ->). by exists (mkEntry k v').
Qed.

Lemma memory_scan_yields s t r me :
  yields (Memory.scan s t r me)
    (if r then rev (range s t (memory_contents me)) else range s t (memory_contents me)).
Proof.
  unfold Memory.scan. eexists. split; [reflexivity|]. rewrite <-memory_scan_range.
  destruct r; [by rewrite map_rev|done].
Qed.

#[export] Program Instance memory_laws : EngineLaws MemoryEngine := {
  contents := memory_contents;
  usable _ := True;
  steady _ := True;
  fits _ _ := True;
}.
Next Obligation. done. Qed.
Next Obligation. done. Qed.
Next Obligation. done. Qed.
Next Obligation.
  intros me k v _. split; [done|]. split; [done|]. split; [|done].
  unfold memory_contents. simpl. by rewrite fmap_insert.
Qed.
Next Obligation.
  intros me k _. split; [done|]. split; [done|]. split; [|done].
  unfold memory_contents. simpl. by rewrite fmap_delete.
Qed.
Next Obligation.
  intros me k _ H. unfold memory_contents in H. rewrite lookup_fmap in H.
  simpl. unfold Memory.Get. by destruct (data me !! k).
Qed.
Next Obligation.
  intros me k v _ H Hv. unfold memory_contents in H. rewrite lookup_fmap in H.
  simpl. unfold Memory.Get. destruct (data me !! k) as [[]|]; simpl in *; by simplify_eq.
Qed.
Next Obligation. intros me s t _. apply (memory_scan_yields s t false). Qed.
Next Obligation. intros me s t _. apply (memory_scan_yields s t true). Qed.
Next Obligation.
  intros me p _. rewrite <-range_prefixEnd. apply (memory_scan_yields _ _ false).
Qed.
Next Obligation.
  intros me p _. rewrite <-range_prefixEnd. apply (memory_scan_yields _ _ true).
Qed.
