(* ===== verification/MvccKey.v ===== *)
(** * MVCC keys ([storage/mvcc_key.go])

    The layout of the keys the MVCC layer keeps in the engine.  A user key is
    escaped ([00] becomes [00 ff]) and terminated by [00 00], which makes the
    encoding injective, prefix-free and order preserving. *)

From S2P Require Import Prelude Bytes Engine.

(** [type version uint64] *)
Abbreviation version := Z.
Definition max_uint64 : Z := 2 ^ 64 - 1.
Definition uint64 (z : Z) : Z := z mod 2 ^ 64.
Definition in_uint64 (z : Z) : Prop := 0 ≤ z < 2 ^ 64.

(** ["\x00spacedb\x00"] *)
Definition mvccMetadataPrefix : bytes := x00 :: str "spacedb" ++ [x00].

Inductive mvccKeyKind :=
  | mvccKeyNextVersion
  | mvccKeyTxnActive
  | mvccKeyTxnWrite
  | mvccKeyVersion.

#[export] Instance mvccKeyKind_eq_dec : EqDecision mvccKeyKind.
Proof. solve_decision. Defined.

(** the [iota] constants *)
Definition kind_byte (k : mvccKeyKind) : byte :=
  match k with
  | mvccKeyNextVersion => x00
  | mvccKeyTxnActive => x01
  | mvccKeyTxnWrite => x02
  | mvccKeyVersion => x03
  end.

Record mvccKey := mkMvccKey { kind : mvccKeyKind; key_version : version; rawKey : bytes }.

#[export] Instance mvccKey_eq_dec : EqDecision mvccKey.
Proof. solve_decision. Defined.

Definition nextVersionKey : mvccKey := mkMvccKey mvccKeyNextVersion 0 [].
Definition activeTransactionKey (v : version) : mvccKey := mkMvccKey mvccKeyTxnActive v [].
Definition transactionWriteKey (v : version) (raw : bytes) : mvccKey :=
  mkMvccKey mvccKeyTxnWrite v raw.
Definition versionedKey (raw : bytes) (v : version) : mvccKey :=
  mkMvccKey mvccKeyVersion v raw.

Definition mvccKeyKindPrefix (k : mvccKeyKind) : bytes := mvccMetadataPrefix ++ [kind_byte k].

(** [binary.BigEndian.AppendUint64] *)
Definition AppendUint64 (dst : bytes) (v : Z) : bytes := dst ++ be_put 8 v.

Definition appendEscapedRawKey (dst raw : bytes) : bytes :=
  foldl (λ dst b, if decide (b = x00) then dst ++ [x00; xff] else dst ++ [b]) dst raw.

Definition appendTerminatedRawKey (dst raw : bytes) : bytes :=
  appendEscapedRawKey dst raw ++ [x00; x00].

(** [mvccKey.encode]; its default branch (a panic) has no kind left to meet *)
Definition encode (k : mvccKey) : bytes :=
  let encoded := mvccKeyKindPrefix (kind k) in
  match kind k with
  | mvccKeyNextVersion => encoded
  | mvccKeyTxnActive => AppendUint64 encoded (key_version k)
  | mvccKeyTxnWrite => appendTerminatedRawKey (AppendUint64 encoded (key_version k)) (rawKey k)
  | mvccKeyVersion => AppendUint64 (appendTerminatedRawKey encoded (rawKey k)) (key_version k)
  end.

Definition encodeVersion (v : version) : bytes := be_put 8 v.

Definition decodeVersion (encoded : bytes) : result version :=
  if decide (length encoded ≠ 8%nat)
  then Err (Errorf "storage: invalid version encoding: got %d bytes, want 8")
  else Ok (be_get encoded).

(** the loop of [decodeRawKey]; [acc] is the decoded prefix *)
Fixpoint decodeRawKey_loop (acc encoded : bytes) : result (bytes * bytes) :=
  match encoded with
  | [] => Err (Errorf "storage: raw key has no terminator")
  | b :: rest =>
      if decide (b ≠ x00) then decodeRawKey_loop (acc ++ [b]) rest
      else match rest with
           | [] => Err (Errorf "storage: truncated raw-key escape")
           | c :: rest' =>
               if decide (c = x00) then Ok (acc, rest')
               else if decide (c = xff) then decodeRawKey_loop (acc ++ [x00]) rest'
               else Err (Errorf "storage: invalid raw-key escape 00 %02x")
           end
  end.

Definition decodeRawKey (encoded : bytes) : result (bytes * bytes) :=
  decodeRawKey_loop [] encoded.

Definition decodeMvccKey (encoded : bytes) : result mvccKey :=
  let prefixLength := length mvccMetadataPrefix in
  if decide (length encoded < prefixLength + 1)%nat
  then Err (Errorf "storage: truncated MVCC key: got %d bytes")
  else if decide (take prefixLength encoded ≠ mvccMetadataPrefix)
  then Err (Errorf "storage: invalid MVCC key namespace: %x")
  else
    let? k := rindex encoded prefixLength in
    let payload := drop (prefixLength + 1) encoded in
    if decide (k = kind_byte mvccKeyNextVersion) then
      if decide (length payload ≠ 0%nat)
      then Err (Errorf "storage: next-version key has %d trailing bytes")
      else Ok nextVersionKey
    else if decide (k = kind_byte mvccKeyTxnActive) then
      let? v := rwrap "storage: decoding active-transaction key: %w" (decodeVersion payload) in
      Ok (activeTransactionKey v)
    else if decide (k = kind_byte mvccKeyTxnWrite) then
      if decide (length payload < 8)%nat
      then Err (Errorf "storage: truncated transaction-write version")
      else
        let v := be_get (take 8 payload) in
        let? (raw, remaining) :=
          rwrap "storage: decoding transaction-write key: %w" (decodeRawKey (drop 8 payload)) in
        if decide (length remaining ≠ 0%nat)
        then Err (Errorf "storage: transaction-write key has %d trailing bytes")
        else Ok (mkMvccKey mvccKeyTxnWrite v raw)
    else if decide (k = kind_byte mvccKeyVersion) then
      let? (raw, remaining) :=
        rwrap "storage: decoding versioned key: %w" (decodeRawKey payload) in
      let? v := rwrap "storage: decoding versioned-key version: %w" (decodeVersion remaining) in
      Ok (mkMvccKey mvccKeyVersion v raw)
    else Err (Errorf "storage: unknown MVCC key kind %d").

Definition activeTransactionPrefix : bytes := mvccKeyKindPrefix mvccKeyTxnActive.
Definition transactionWritePrefix (v : version) : bytes :=
  AppendUint64 (mvccKeyKindPrefix mvccKeyTxnWrite) v.
Definition versionedKeyPrefix (rawPrefix : bytes) : bytes :=
  appendEscapedRawKey (mvccKeyKindPrefix mvccKeyVersion) rawPrefix.

(** ** The escape code *)

Fixpoint escape (raw : bytes) : bytes :=
  match raw with
  | [] => []
  | b :: raw => if decide (b = x00) then x00 :: xff :: escape raw else b :: escape raw
  end.

Lemma appendEscapedRawKey_app dst raw : appendEscapedRawKey dst raw = dst ++ escape raw.
Proof.
  unfold appendEscapedRawKey. revert dst.
  induction raw as [|b raw IH]; intros dst; simpl; [by rewrite app_nil_r|].
  case_decide; by rewrite IH, <-app_assoc.
Qed.

Lemma appendTerminatedRawKey_app dst raw :
  appendTerminatedRawKey dst raw = dst ++ escape raw ++ [x00; x00].
Proof. unfold appendTerminatedRawKey. by rewrite appendEscapedRawKey_app, <-app_assoc. Qed.

Lemma escape_app a b : escape (a ++ b) = escape a ++ escape b.
Proof. induction a; simpl; [done|]. case_decide; by rewrite IHa. Qed.

Lemma decodeRawKey_loop_escape acc raw rest :
  decodeRawKey_loop acc (escape raw ++ x00 :: x00 :: rest) = Ok (acc ++ raw, rest).
Proof.
  revert acc. induction raw as [|b raw IH]; intros acc; simpl; [by rewrite app_nil_r|].
  case_decide as Hb; simpl; [|rewrite decide_True by done]; rewrite IH, <-app_assoc; [|done].
  by subst.
Qed.

Lemma decodeRawKey_escape raw rest :
  decodeRawKey (escape raw ++ x00 :: x00 :: rest) = Ok (raw, rest).
Proof. apply decodeRawKey_loop_escape. Qed.

Lemma decodeRawKey_loop_inv acc enc raw rest :
  decodeRawKey_loop acc enc = Ok (raw, rest) →
  ∃ r, raw = acc ++ r ∧ enc = escape r ++ x00 :: x00 :: rest.
Proof.
  revert acc. induction enc as [enc IH] using (induction_ltof1 _ (@length _)).
  unfold ltof in IH. intros acc. destruct enc as [|b enc]; simpl; [done|]. case_decide as Hb.
  - intros (r & -> & ->)%IH; [|simpl; lia]. exists (b :: r).
    rewrite <-app_assoc. simpl. by rewrite decide_False.
  - subst b. destruct enc as [|c enc]; [done|].
    case_decide; [intros [= <- <-]; exists []; subst; by rewrite app_nil_r|].
    case_decide as Hc; [|done]. subst.
    intros (r & -> & ->)%IH; [|simpl; lia]. exists (x00 :: r). by rewrite <-app_assoc.
Qed.

Lemma decodeRawKey_inv enc raw rest :
  decodeRawKey enc = Ok (raw, rest) → enc = escape raw ++ x00 :: x00 :: rest.
Proof. intros (r & -> & ->)%decodeRawKey_loop_inv. done. Qed.

(** ** Order

    The head of an escaped byte; the terminator compares below every one. *)

Lemma byte_Z_nonzero b : b ≠ x00 → byte_Z x00 < byte_Z b.
Proof.
  intros Hb. change (byte_Z x00) with 0. pose proof (byte_Z_range b).
  assert (byte_Z b ≠ 0); [|lia]. change 0 with (byte_Z x00). by intros ?%byte_Z_inj.
Qed.

Lemma escape_compare a b x y :
  bytes_compare (escape a ++ x00 :: x00 :: x) (escape b ++ x00 :: x00 :: y) =
    match bytes_compare a b with Eq => bytes_compare x y | c => c end.
Proof.
  revert b. induction a as [|u a IH]; intros [|v b]; cbn [escape app bytes_compare].
  - by rewrite Z.compare_refl.
  - case_decide as Hv; subst; cbn [app bytes_compare]; [done|].
    by rewrite (proj2 (Z.compare_lt_iff _ _) (byte_Z_nonzero v Hv)).
  - case_decide as Hu; subst; cbn [app bytes_compare]; [done|].
    by rewrite (proj2 (Z.compare_gt_iff _ _) (byte_Z_nonzero u Hu)).
  - case_decide as Hu; case_decide as Hv; subst; cbn [app bytes_compare].
    + rewrite !Z.compare_refl. apply IH.
    + by rewrite (proj2 (Z.compare_lt_iff _ _) (byte_Z_nonzero v Hv)).
    + by rewrite (proj2 (Z.compare_gt_iff _ _) (byte_Z_nonzero u Hu)).
    + destruct (byte_Z u ?= byte_Z v); [apply IH|done..].
Qed.

Lemma escape_term_inj a b x y :
  escape a ++ x00 :: x00 :: x = escape b ++ x00 :: x00 :: y → a = b ∧ x = y.
Proof.
  intros H. pose proof (decodeRawKey_escape a x) as H1. rewrite H, decodeRawKey_escape in H1.
  naive_solver.
Qed.

(** A raw prefix and its escaped form select the same keys. *)
Lemma escape_prefix p r t :
  escape p `prefix_of` escape r ++ x00 :: x00 :: t ↔ p `prefix_of` r.
Proof.
  split.
  - revert r. induction p as [|u p IH]; intros r; [intros; apply prefix_nil|].
    destruct r as [|v r]; simpl; repeat case_decide; subst; simpl.
    + by intros ?%prefix_cons_inv_2%prefix_cons_inv_1.
    + by intros ?%prefix_cons_inv_1.
    + intros ?%prefix_cons_inv_2%prefix_cons_inv_2. by apply prefix_cons, IH.
    + by intros <-%prefix_cons_inv_1.
    + by intros ->%prefix_cons_inv_1.
    + intros Hp. pose proof (prefix_cons_inv_1 _ _ _ _ Hp) as ->.
      apply prefix_cons, IH. by apply prefix_cons_inv_2 in Hp.
  - intros [k ->]. rewrite escape_app, <-app_assoc. by eexists.
Qed.

(** ** Encoding and decoding are inverse to each other *)

(** a key the program builds: the fields its kind does not use are zero *)
Definition key_wf (k : mvccKey) : Prop :=
  in_uint64 (key_version k) ∧
  match kind k with
  | mvccKeyNextVersion => key_version k = 0 ∧ rawKey k = []
  | mvccKeyTxnActive => rawKey k = []
  | _ => True
  end.

(** what follows the kind byte *)
Definition payload (k : mvccKey) : bytes :=
  match kind k with
  | mvccKeyNextVersion => []
  | mvccKeyTxnActive => be_put 8 (key_version k)
  | mvccKeyTxnWrite => be_put 8 (key_version k) ++ escape (rawKey k) ++ [x00; x00]
  | mvccKeyVersion => escape (rawKey k) ++ x00 :: x00 :: be_put 8 (key_version k)
  end.

Lemma encode_payload k : encode k = mvccMetadataPrefix ++ kind_byte (kind k) :: payload k.
Proof.
  unfold encode, payload, mvccKeyKindPrefix, AppendUint64.
  destruct (kind k); rewrite ?appendTerminatedRawKey_app, <-?app_assoc; done.
Qed.

Lemma in_uint64_256 v : in_uint64 v → 0 ≤ v < 256 ^ Z.of_nat 8.
Proof. done. Qed.

Lemma be_get_put8 v : in_uint64 v → be_get (be_put 8 v) = v.
Proof. intros H. rewrite be_get_put. by apply Z.mod_small. Qed.

Lemma be_get8_range bs : length bs = 8%nat → in_uint64 (be_get bs).
Proof. intros H. pose proof (be_get_range bs) as Hr. by rewrite H in Hr. Qed.

Lemma decodeVersion_put v : in_uint64 v → decodeVersion (be_put 8 v) = Ok v.
Proof.
  intros. unfold decodeVersion. rewrite length_be_put, decide_False by lia.
  by rewrite be_get_put8.
Qed.

Lemma decodeVersion_inv bs v :
  decodeVersion bs = Ok v → bs = be_put 8 v ∧ in_uint64 v.
Proof.
  unfold decodeVersion. case_decide as Hl; [done|]. intros [= <-].
  split; [symmetry; by apply be_put_get|by apply be_get8_range].
Qed.

(** the header check of [decodeMvccKey], passed by every key under the prefix *)
Lemma decodeMvccKey_header k p :
  decodeMvccKey (mvccMetadataPrefix ++ k :: p) =
    (if decide (k = kind_byte mvccKeyNextVersion) then
       if decide (length p ≠ 0%nat)
       then Err (Errorf "storage: next-version key has %d trailing bytes")
       else Ok nextVersionKey
     else if decide (k = kind_byte mvccKeyTxnActive) then
       let? v := rwrap "storage: decoding active-transaction key: %w" (decodeVersion p) in
       Ok (activeTransactionKey v)
     else if decide (k = kind_byte mvccKeyTxnWrite) then
       if decide (length p < 8)%nat
       then Err (Errorf "storage: truncated transaction-write version")
       else
         let? (raw, remaining) :=
           rwrap "storage: decoding transaction-write key: %w" (decodeRawKey (drop 8 p)) in
         if decide (length remaining ≠ 0%nat)
         then Err (Errorf "storage: transaction-write key has %d trailing bytes")
         else Ok (mkMvccKey mvccKeyTxnWrite (be_get (take 8 p)) raw)
     else if decide (k = kind_byte mvccKeyVersion) then
       let? (raw, remaining) :=
         rwrap "storage: decoding versioned key: %w" (decodeRawKey p) in
       let? v := rwrap "storage: decoding versioned-key version: %w" (decodeVersion remaining) in
       Ok (mkMvccKey mvccKeyVersion v raw)
     else Err (Errorf "storage: unknown MVCC key kind %d")).
Proof.
  unfold decodeMvccKey. rewrite decide_False by (rewrite length_app; simpl; lia).
  rewrite take_app_length. rewrite decide_False by naive_solver.
  unfold rindex. rewrite list_lookup_middle by done. cbn [rbind].
  rewrite drop_app_add'; [|done]. done.
Qed.

Lemma decode_encode_key k : key_wf k → decodeMvccKey (encode k) = Ok k.
Proof.
  intros [Hv Hk]. rewrite encode_payload, decodeMvccKey_header.
  destruct k as [[] v raw]; cbn [key_version rawKey kind payload kind_byte] in *.
  - by destruct Hk as [-> ->].
  - rewrite decide_False, decide_True by done. by rewrite decodeVersion_put, Hk.
  - remember (be_put 8 v) as pv eqn:Epv.
    assert (length pv = 8%nat) as Hl by (by rewrite Epv, length_be_put).
    rewrite decide_False by done. rewrite decide_False by done.
    rewrite decide_True by done. rewrite decide_False by (rewrite length_app; lia).
    rewrite drop_app_length', take_app_length' by done.
    rewrite decodeRawKey_escape. simpl. by rewrite Epv, be_get_put8.
  - rewrite decodeRawKey_escape. cbn. by rewrite decodeVersion_put.
Qed.

Lemma decode_header_inv b k :
  decodeMvccKey b = Ok k → ∃ kb p, b = mvccMetadataPrefix ++ kb :: p.
Proof.
  unfold decodeMvccKey. case_decide as Hl; [done|]. case_decide as Hp; [done|]. intros _.
  rewrite <-(take_drop (length mvccMetadataPrefix) b), Hp.
  destruct (drop (length mvccMetadataPrefix) b) as [|kb p] eqn:E; [|by exists kb, p].
  apply (f_equal length) in E. rewrite length_drop in E. simpl in *. lia.
Qed.

Lemma encode_decode_key b k : decodeMvccKey b = Ok k → key_wf k ∧ encode k = b.
Proof.
  intros H. destruct (decode_header_inv _ _ H) as (kb & p & ->).
  rewrite decodeMvccKey_header in H. rewrite encode_payload. unfold key_wf, payload.
  case_decide; [subst kb|case_decide; [subst kb|case_decide; [subst kb|case_decide; [subst kb|done]]]].
  - case_decide as Hl; [done|]. apply length_zero_iff_nil in Hl as ->. by injection H as <-.
  - inv_ok. apply decodeVersion_inv in H as [-> ?]. done.
  - case_decide as Hl; [done|]. inv_ok. destruct x as [raw rem].
    case_decide as Hr; [done|]. apply length_zero_iff_nil in Hr as ->. inv_ok.
    apply decodeRawKey_inv in H. cbn [kind key_version rawKey kind_byte].
    assert (length (take 8 p) = 8%nat) as Ht by (rewrite length_take; lia).
    split; [split; [by apply be_get8_range|done]|].
    rewrite (be_put_get 8) by done. rewrite <-(take_drop 8 p) at 2. by rewrite H.
  - inv_ok. destruct x as [raw rem]. inv_ok. apply decodeRawKey_inv in H. subst p.
    match goal with H : decodeVersion _ = _ |- _ => apply decodeVersion_inv in H as [-> ?] end.
    done.
Qed.

Lemma encode_inj k1 k2 : key_wf k1 → key_wf k2 → encode k1 = encode k2 → k1 = k2.
Proof.
  intros H1%decode_encode_key H2%decode_encode_key E. rewrite E in H1. congruence.
Qed.

(** decoding never panics: every index is checked *)
(** versions sort by raw key, then by version *)
Lemma versionedKey_order raw raw' v v' :
  in_uint64 v → in_uint64 v' →
  blt (encode (versionedKey raw v)) (encode (versionedKey raw' v')) ↔ blt raw raw' ∨ raw = raw' ∧ v < v'.
Proof.
  intros Hv Hv'. rewrite !encode_payload. unfold versionedKey. cbn [kind payload rawKey key_version].
  unfold blt. rewrite bytes_compare_app_l. cbn [bytes_compare]. rewrite Z.compare_refl, escape_compare.
  rewrite be_put_compare by by apply in_uint64_256. rewrite <-bytes_compare_eq.
  destruct (bytes_compare raw raw'); [rewrite Z.compare_lt_iff|..]; naive_solver.
Qed.

Lemma decodeRawKey_loop_no_panic acc enc : no_panic (decodeRawKey_loop acc enc).
Proof.
  revert acc. induction enc as [enc IH] using (induction_ltof1 _ (@length _)).
  unfold ltof in IH. intros acc. destruct enc as [|b enc]; simpl; [done|].
  case_decide; [apply IH; simpl; lia|]. destruct enc as [|c enc]; [done|].
  repeat case_decide; try done. apply IH. simpl; lia.
Qed.

Lemma decodeVersion_no_panic b : no_panic (decodeVersion b).
Proof. unfold decodeVersion. by case_decide. Qed.

Lemma decodeMvccKey_no_panic_all b : no_panic (decodeMvccKey b).
Proof.
  unfold decodeMvccKey. case_decide as Hl; [done|]. case_decide; [done|].
  apply no_panic_bind; [apply no_panic_rindex; lia|]. intros k _.
  repeat case_decide; try done;
    (apply no_panic_bind;
      [apply no_panic_wrap; first [apply decodeVersion_no_panic|apply decodeRawKey_loop_no_panic]|]);
    intros; try done.
  - destruct a. by case_decide.
  - destruct a. apply no_panic_bind; [apply no_panic_wrap, decodeVersion_no_panic|done].
Qed.

#[export] Hint Resolve decodeMvccKey_no_panic_all decodeVersion_no_panic : go.

#[global] Arguments encode : simpl never.
#[global] Arguments decodeMvccKey : simpl never.
