(* ===== verification/Mvcc.v ===== *)
(** * MVCC transactions ([storage/storage.go])

    The Go code takes a mutex at the start of every operation and releases it
    at its end, so each operation is one atomic step on the shared engine; an
    interleaving of transactions is a sequence of such steps.  [mvccState] is
    the engine itself, an [MVCCTransaction] is the snapshot it carries. *)

From stdpp Require Import fin_sets.
From S2P Require Import Prelude Bytes Engine MvccKey.

Record transactionState := mkTransactionState {
  ts_version : version;
  activeVersions : gset version;
}.

Definition isVisible (s : transactionState) (v : version) : bool :=
  if decide (v ∈ activeVersions s) then false else v <=? ts_version s.

(** the first byte of a stored value: 0 a deletion mark, 1 a value *)
Definition decodeVersionedValue (encoded : slice) : result slice :=
  match sbytes encoded with
  | [] => Err (Errorf "storage: truncated versioned value")
  | tag :: value =>
      if decide (tag = x00) then Ok None
      else if decide (tag = x01) then Ok (Some value)
      else Err (Errorf "storage: invalid versioned value tag %d")
  end.

Section operations.
Context {E : Type} `{Engine E}.

(** ** Begin *)

Definition collectActive (items : Seq2) : result (gset version) :=
  rfoldl (λ acc item,
    let? entry := rwrap "storage: scanning active transactions: %w" item in
    let? key := decodeMvccKey (Key entry) in
    Ok ({[key_version key]} ∪ acc)) ∅ items.

Definition Begin : ST E transactionState :=
  let! encodedNext := swrap "storage: loading next transaction version: %w"
                        (sread (engGet (encode nextVersionKey))) in
  let! next := match encodedNext with
               | None => sret 1
               | Some b => swrap "storage: decoding next transaction version: %w"
                             (slift (decodeVersion b))
               end in
  let! active := sread (λ e, collectActive (engScanPrefix activeTransactionPrefix e)) in
  swrap "storage: saving next transaction version: %w"
    (engSet (encode nextVersionKey) (Some (encodeVersion (uint64 (next + 1))))) ;;!
  swrap "storage: marking transaction %d active: %w"
    (engSet (encode (activeTransactionKey next)) None) ;;!
  sret (mkTransactionState next active).

(** ** Commit and Rollback *)

Definition collectWrites (items : Seq2) : result (list bytes) :=
  rfoldl (λ acc item,
    let? entry := rwrap "storage: scanning transaction %d writes: %w" item in
    let? _ := decodeMvccKey (Key entry) in
    Ok (acc ++ [Key entry])) [] items.

Definition Commit (t : transactionState) : ST E unit :=
  let! writeKeys :=
    sread (λ e, collectWrites (engScanPrefix (transactionWritePrefix (ts_version t)) e)) in
  siter (λ key, swrap "storage: deleting transaction-write key %x: %w" (engDelete key))
    writeKeys ;;!
  swrap "storage: marking transaction %d committed: %w"
    (engDelete (encode (activeTransactionKey (ts_version t)))).

Definition collectUndo (items : Seq2) : result (list bytes) :=
  rfoldl (λ acc item,
    let? entry := rwrap "storage: scanning transaction %d writes: %w" item in
    let? decoded := decodeMvccKey (Key entry) in
    Ok (acc ++ [Key entry; encode (versionedKey (rawKey decoded) (key_version decoded))]))
    [] items.

(** [marking transaction %d rolled back] drops the cause (no [%w]) *)
Definition Rollback (t : transactionState) : ST E unit :=
  let! allKeys :=
    sread (λ e, collectUndo (engScanPrefix (transactionWritePrefix (ts_version t)) e)) in
  siter (λ key, swrap "storage: deleting key %x: %w" (engDelete key)) allKeys ;;!
  (λ e, match engDelete (encode (activeTransactionKey (ts_version t))) e with
        | (e', Err _) => (e', Err (Errorf "marking transaction %d rolled back"))
        | r => r
        end).

(** ** Reading *)

(** the loop of [Get] over the versions of a key, newest first *)
Fixpoint get_loop (t : transactionState) (items : Seq2) : result slice :=
  match items with
  | [] => Ok None
  | item :: items =>
      let? entry := rwrap "storage: scanning versions for key %x: %w" item in
      let? decoded := decodeMvccKey (Key entry) in
      if negb (isVisible t (key_version decoded)) then get_loop t items
      else decodeVersionedValue (Value entry)
  end.

Definition Get (t : transactionState) (key : bytes) (e : E) : result slice :=
  let from := encode (versionedKey key 0) in
  let to := encode (versionedKey key (uint64 (ts_version t + 1))) in
  get_loop t (engScanReverse (Some from) (Some to) e).

(** the variables of the loop of [ScanPrefix]; a nil [currentKey] is empty *)
Record scanState := mkScanState {
  entries : list Entry;
  currentKey : bytes;
  currentValue : slice;
  currentVisible : bool;
}.

Definition flush (s : scanState) : list Entry :=
  if currentVisible s then entries s ++ [mkEntry (currentKey s) (currentValue s)]
  else entries s.

Definition scan_step (t : transactionState) (s : scanState) (item : result Entry)
    : result scanState :=
  let? raw := item in
  let? decoded := decodeMvccKey (Key raw) in
  let s := if decide (rawKey decoded ≠ currentKey s)
           then mkScanState (flush s) (rawKey decoded) None false
           else s in
  if negb (isVisible t (key_version decoded)) then Ok s
  else
    let? value := decodeVersionedValue (Value raw) in
    Ok (mkScanState (entries s) (currentKey s) value (bool_decide (value ≠ None))).

Definition ScanPrefix (t : transactionState) (prefix : bytes) (e : E) : result (list Entry) :=
  let? s := rfoldl (scan_step t) (mkScanState [] [] None false)
              (engScanPrefix (versionedKeyPrefix prefix) e) in
  Ok (flush s).

(** ** Writing *)

(** the lowest version whose presence would be a conflict *)
Definition fromVersion (t : transactionState) : version :=
  set_fold Z.min (uint64 (ts_version t + 1)) (activeVersions t).

(** only the first item, the newest version in the range, is looked at *)
Definition check_conflict (t : transactionState) (items : Seq2) : result unit :=
  match items with
  | [] => Ok ()
  | item :: _ =>
      let? entry := rwrap "storage: scanning versions for key %x: %w" item in
      let? key := decodeMvccKey (Key entry) in
      if negb (isVisible t (key_version key))
      then Err (Errorf "storage: write conflict") else Ok ()
  end.

Definition write (t : transactionState) (raw : bytes) (value : bytes) (deleted : bool)
    : ST E unit :=
  let from := encode (versionedKey raw (fromVersion t)) in
  let to := encode (versionedKey raw max_uint64) ++ [x00] in
  sread (λ e, check_conflict t (engScanReverse (Some from) (Some to) e)) ;;!
  swrap "storage: recording transaction write: %w"
    (engSet (encode (transactionWriteKey (ts_version t) raw)) None) ;;!
  let encodedValue := if deleted then [x00] else x01 :: value in
  swrap "storage: writing version %d for key %x: %w"
    (engSet (encode (versionedKey raw (ts_version t))) (Some encodedValue)).

Definition Set_ (t : transactionState) (key value : bytes) : ST E unit :=
  write t key value false.

Definition Delete (t : transactionState) (key : bytes) : ST E unit :=
  write t key [] true.

End operations.
