(* ===== verification/MvccSpec.v ===== *)
(** * Snapshot isolation, abstractly

    The specification the MVCC code refines: a set of committed and pending
    versions of every key, the set of active transactions, and for each
    transaction the map of values it sees.  Operations are total functions on
    this state; [wf] is the invariant every sequence of them keeps. *)

From stdpp Require Import fin_sets fin_map_dom.
From S2P Require Import Prelude Bytes Engine MvccKey Mvcc.

(** [stored] is the persisted next version (absent in a fresh database),
    [writes] the write sets, [versions] the value each transaction wrote for a
    key ([None] is a deletion mark). *)
Record mstate := mkMstate {
  stored : option version;
  active : gset version;
  writes : gset (version * bytes);
  versions : gmap (bytes * version) slice;
}.

Definition empty_mstate : mstate := mkMstate None ∅ ∅ ∅.
Definition next (s : mstate) : version := default 1 (stored s).

(** ** The newest version a visibility predicate admits *)

Definition pick (vis : version → bool) (r : bytes) (p : bytes * version * slice)
    (acc : option (version * slice)) : option (version * slice) :=
  let '(r', v, x) := p in
  if decide (r' = r) then
    if vis v then
      match acc with
      | Some (v', _) => if v' <? v then Some (v, x) else acc
      | None => Some (v, x)
      end
    else acc
  else acc.

Definition latest (vis : version → bool) (vs : gmap (bytes * version) slice) (r : bytes)
    : option (version * slice) :=
  foldr (pick vis r) None (map_to_list vs).

(** the value a reader sees: absent if there is no visible version or the
    newest visible one is a deletion mark *)
Definition read (vis : version → bool) (vs : gmap (bytes * version) slice) (r : bytes) : slice :=
  match latest vis vs r with Some (_, x) => x | None => None end.

Definition raw_keys (vs : gmap (bytes * version) slice) : gset bytes := set_map fst (dom vs).

(** the whole database as the reader sees it *)
Definition view (vis : version → bool) (vs : gmap (bytes * version) slice) : gmap bytes bytes :=
  list_to_map (omap (λ r, pair r <$> read vis vs r) (elements (raw_keys vs))).

Definition txn_view (s : mstate) (t : transactionState) : gmap bytes bytes :=
  view (isVisible t) (versions s).

(** the committed database: every version but those of active transactions *)
Definition committed_vis (s : mstate) (v : version) : bool := bool_decide (v ∉ active s).
Definition committed (s : mstate) : gmap bytes bytes := view (committed_vis s) (versions s).

(** ** The operations *)

Definition aBegin (s : mstate) : mstate * transactionState :=
  (mkMstate (Some (next s + 1)) ({[next s]} ∪ active s) (writes s) (versions s),
   mkTransactionState (next s) (active s)).

(** some version of the key is invisible to the transaction *)
Definition conflict (s : mstate) (t : transactionState) (r : bytes) : Prop :=
  ∃ v, is_Some (versions s !! (r, v)) ∧ isVisible t v = false.

(** a write set entry alone, what a write that fails half-way leaves *)
Definition aMark (s : mstate) (t : transactionState) (r : bytes) : mstate :=
  mkMstate (stored s) (active s) ({[(ts_version t, r)]} ∪ writes s) (versions s).

Definition aWrite (s : mstate) (t : transactionState) (r : bytes) (x : slice) : mstate :=
  mkMstate (stored s) (active s) ({[(ts_version t, r)]} ∪ writes s)
    (<[(r, ts_version t) := x]> (versions s)).

Definition aCommit (s : mstate) (t : transactionState) : mstate :=
  mkMstate (stored s) (active s ∖ {[ts_version t]})
    (filter (λ p, p.1 ≠ ts_version t) (writes s)) (versions s).

Definition aRollback (s : mstate) (t : transactionState) : mstate :=
  mkMstate (stored s) (active s ∖ {[ts_version t]})
    (filter (λ p, p.1 ≠ ts_version t) (writes s))
    (filter (λ p, ¬ (p.1.2 = ts_version t ∧ (ts_version t, p.1.1) ∈ writes s)) (versions s)).

(** ** The invariant *)

Record wf (s : mstate) : Prop := {
  wf_next : 1 ≤ next s ≤ max_uint64;
  wf_active v : v ∈ active s → 1 ≤ v < next s;
  wf_versions r v : is_Some (versions s !! (r, v)) → 1 ≤ v < next s;
  wf_writes v r : (v, r) ∈ writes s → v ∈ active s;
  wf_newest r v v' :
    v ∈ active s → is_Some (versions s !! (r, v)) → is_Some (versions s !! (r, v')) → v' ≤ v;
}.

(** an open transaction of the state *)
Record txn_ok (s : mstate) (t : transactionState) : Prop := {
  ok_active : ts_version t ∈ active s;
  ok_older a : a ∈ activeVersions t → 1 ≤ a < ts_version t;
  ok_snapshot a : a ∈ active s → a < ts_version t → a ∈ activeVersions t;
  ok_newest r a v :
    a ∈ activeVersions t → is_Some (versions s !! (r, a)) → is_Some (versions s !! (r, v)) →
    isVisible t v = true → v < a;
  ok_logged r : is_Some (versions s !! (r, ts_version t)) → (ts_version t, r) ∈ writes s;
}.

(** ** [latest] is the newest visible version *)

Definition is_latest (vis : version → bool) (vs : gmap (bytes * version) slice) r v x : Prop :=
  vs !! (r, v) = Some x ∧ vis v = true ∧
  ∀ v', is_Some (vs !! (r, v')) → vis v' = true → v' ≤ v.

Lemma foldr_pick vis r (l : list (bytes * version * slice)) :
  match foldr (pick vis r) None l with
  | Some (v, x) => (r, v, x) ∈ l ∧ vis v = true ∧ ∀ v' x', (r, v', x') ∈ l → vis v' = true → v' ≤ v
  | None => ∀ v' x', (r, v', x') ∈ l → vis v' = false
  end.
Proof.
  induction l as [|[[r' v] x] l IH]; simpl; [set_solver|].
  destruct (foldr (pick vis r) None l) as [[w y]|]; unfold pick;
    case_decide as Hr; [subst r'; destruct (vis v) eqn:Hv| |subst r'; destruct (vis v) eqn:Hv|].
  - destruct IH as (Hin & Hw & Hmax). destruct (Z.ltb_spec w v).
    + split; [set_solver|]. split; [done|].
      intros v' x' [[= -> ->]|Hin']%elem_of_cons Hv'; [lia|].
      specialize (Hmax v' x' Hin' Hv'). lia.
    + split; [set_solver|]. split; [done|].
      intros v' x' [[= -> ->]|Hin']%elem_of_cons Hv'; [lia|]. by eapply Hmax.
  - destruct IH as (Hin & Hw & Hmax). split; [set_solver|]. split; [done|].
    intros v' x' [[= -> ->]|Hin']%elem_of_cons Hv'; [congruence|]. by eapply Hmax.
  - destruct IH as (Hin & Hw & Hmax). split; [set_solver|]. split; [done|].
    intros v' x' [[= -> -> ->]|Hin']%elem_of_cons Hv'; [done|]. by eapply Hmax.
  - split; [set_solver|]. split; [done|].
    intros v' x' [[= -> ->]|Hin']%elem_of_cons Hv'; [lia|]. apply IH in Hin'. congruence.
  - intros v' x' [[= -> ->]|Hin']%elem_of_cons; [done|]. by eapply IH.
  - intros v' x' [[= -> -> ->]|Hin']%elem_of_cons; [done|]. by eapply IH.
Qed.

Lemma latest_Some vis vs r v x : latest vis vs r = Some (v, x) ↔ is_latest vis vs r v x.
Proof.
  unfold latest, is_latest. pose proof (foldr_pick vis r (map_to_list vs)) as Hf.
  destruct (foldr (pick vis r) None (map_to_list vs)) as [[w y]|].
  - destruct Hf as (Hin & Hw & Hmax). rewrite elem_of_map_to_list in Hin.
    assert (∀ v', is_Some (vs !! (r, v')) → vis v' = true → v' ≤ w) as Hmax'.
    { intros v' [x' Hx'] ?. apply (Hmax v' x'); [by apply elem_of_map_to_list|done]. }
    split; [intros [= -> ->]; done|]. intros (Hx & Hv & Hm).
    assert (v = w) as ->.
    { assert (w ≤ v) by (apply Hm; [by eexists|done]).
      assert (v ≤ w) by (apply Hmax'; [by eexists|done]). lia. }
    congruence.
  - split; [done|]. intros (Hx & Hv & _). rewrite (Hf v x) in Hv; [done|].
    by apply elem_of_map_to_list.
Qed.

Lemma latest_None vis vs r :
  latest vis vs r = None ↔ ∀ v, is_Some (vs !! (r, v)) → vis v = false.
Proof.
  split.
  - unfold latest. pose proof (foldr_pick vis r (map_to_list vs)) as Hf. intros E. rewrite E in Hf.
    intros v [x Hx]. apply (Hf v x). by apply elem_of_map_to_list.
  - intros Hn. destruct (latest vis vs r) as [[v x]|] eqn:E; [|done].
    apply latest_Some in E as (Hx & Hv & _). rewrite Hn in Hv; [done|by eexists].
Qed.

(** Reading depends only on the versions the predicate admits. *)
Definition same_visible (vis vis' : version → bool) (vs vs' : gmap (bytes * version) slice) r : Prop :=
  ∀ v x, vs !! (r, v) = Some x ∧ vis v = true ↔ vs' !! (r, v) = Some x ∧ vis' v = true.

Lemma latest_ext vis vis' vs vs' r :
  same_visible vis vis' vs vs' r → latest vis vs r = latest vis' vs' r.
Proof.
  intros Hsame.
  assert (∀ v x, is_latest vis vs r v x ↔ is_latest vis' vs' r v x) as Hl.
  { unfold is_latest, same_visible in *. intros v x.
    split; intros (Hx & Hv & Hm); (split; [naive_solver|split; [naive_solver|]]);
      intros v' [x' Hx'] Hv'; (apply Hm; [apply (mk_is_Some _ x')|]); naive_solver. }
  destruct (latest vis vs r) as [[v x]|] eqn:E.
  - symmetry. by apply latest_Some, Hl, latest_Some.
  - destruct (latest vis' vs' r) as [[v x]|] eqn:E'; [|done].
    apply latest_Some, Hl, latest_Some in E'. congruence.
Qed.

Lemma read_Some_key vis vs r v : read vis vs r = Some v → r ∈ raw_keys vs.
Proof.
  unfold read. destruct (latest vis vs r) as [[w x]|] eqn:E; [|done]. intros ->.
  apply latest_Some in E as (Hx & _ & _). unfold raw_keys. apply elem_of_map.
  exists (r, w). split; [done|]. by apply elem_of_dom.
Qed.

Lemma omap_pair_fst {A} (f : A → slice) (l : list A) r x :
  (r, x) ∈ omap (λ r, pair r <$> f r) l ↔ r ∈ l ∧ f r = Some x.
Proof.
  rewrite list_elem_of_omap. split.
  - intros (r' & Hin & Hf). destruct (f r') eqn:E; simplify_eq/=. done.
  - intros [Hin Hf]. exists r. by rewrite Hf.
Qed.

Lemma NoDup_omap_pair {A} (f : A → slice) (l : list A) :
  NoDup l → NoDup (omap (λ r, pair r <$> f r) l).*1.
Proof.
  induction 1 as [|r l Hr Hl IH]; simpl; [constructor|].
  destruct (f r) eqn:E; simpl; [|done]. constructor; [|done].
  intros ([r' x] & -> & Hin)%list_elem_of_fmap. by apply omap_pair_fst in Hin as [? _].
Qed.

Lemma lookup_view vis vs r : view vis vs !! r = read vis vs r.
Proof.
  apply option_eq. intros x. unfold view.
  rewrite <-elem_of_list_to_map by (apply NoDup_omap_pair, NoDup_elements).
  rewrite omap_pair_fst, elem_of_elements. split; [by intros [_ ?]|].
  intros Hr. split; [by eapply read_Some_key|done].
Qed.

Lemma view_lookup_ext vis vis' vs vs' r :
  same_visible vis vis' vs vs' r → view vis vs !! r = view vis' vs' !! r.
Proof. intros H. rewrite !lookup_view. unfold read. by rewrite (latest_ext vis vis' vs vs'). Qed.

Lemma view_ext vis vis' vs vs' :
  (∀ r, same_visible vis vis' vs vs' r) → view vis vs = view vis' vs'.
Proof. intros H. apply map_eq. intros r. by apply view_lookup_ext. Qed.

(** ** Visibility *)

Lemma isVisible_true t v : isVisible t v = true ↔ v ∉ activeVersions t ∧ v ≤ ts_version t.
Proof. unfold isVisible. case_decide; [naive_solver|]. rewrite Z.leb_le. naive_solver. Qed.

Lemma isVisible_false t v : isVisible t v = false ↔ v ∈ activeVersions t ∨ ts_version t < v.
Proof. unfold isVisible. case_decide; [naive_solver|]. rewrite Z.leb_gt. naive_solver. Qed.

Lemma isVisible_self s t : txn_ok s t → isVisible t (ts_version t) = true.
Proof.
  intros Ht. apply isVisible_true. split; [|lia]. intros Ha%(ok_older _ _ Ht). lia.
Qed.

(** Versions of other active transactions are invisible. *)
Lemma isVisible_active s t a :
  txn_ok s t → a ∈ active s → a ≠ ts_version t → isVisible t a = false.
Proof.
  intros Ht Ha Hne. apply isVisible_false.
  destruct (decide (a < ts_version t)) as [Hlt|Hlt]; [|right; lia].
  left. by eapply ok_snapshot.
Qed.

#[export] Hint Resolve isVisible_self isVisible_active : go.

(** ** The invariant is kept *)

Lemma wf_empty : wf empty_mstate.
Proof.
  split; cbn; try (by intros; set_solver); [done|].
  intros r v. rewrite lookup_empty. by intros [? ?].
Qed.

Lemma aBegin_wf s :
  wf s → next s < max_uint64 →
  wf (aBegin s).1 ∧ txn_ok (aBegin s).1 (aBegin s).2.
Proof.
  intros Hs Hn. pose proof (wf_next _ Hs) as Hnx. split; split; unfold next; cbn.
  - unfold next in *. lia.
  - intros v [->%elem_of_singleton|Hv%(wf_active _ Hs)]%elem_of_union; unfold next in *; lia.
  - intros r v Hv%(wf_versions _ Hs). unfold next in *. lia.
  - intros v r Hv%(wf_writes _ Hs). set_solver.
  - intros r v v' [->%elem_of_singleton|Hv]%elem_of_union Hr Hr'.
    + apply (wf_versions _ Hs) in Hr. unfold next in *. lia.
    + by eapply (wf_newest _ Hs).
  - set_solver.
  - intros a Ha%(wf_active _ Hs). unfold next in *. lia.
  - intros a [->%elem_of_singleton|Ha]%elem_of_union Hlt; [lia|done].
  - intros r a v Ha Hra Hrv [Hv _]%isVisible_true. cbn in Hv.
    pose proof (wf_newest _ Hs r a v Ha Hra Hrv). assert (v ≠ a) by congruence. lia.
  - intros r Hr%(wf_versions _ Hs). unfold next in *. lia.
Qed.

Lemma aBegin_other s t : wf s → txn_ok s t → txn_ok (aBegin s).1 t.
Proof.
  intros Hs Ht. split; cbn.
  - apply elem_of_union_r, (ok_active _ _ Ht).
  - apply (ok_older _ _ Ht).
  - intros a [->%elem_of_singleton|Ha]%elem_of_union Hlt; [|by apply (ok_snapshot _ _ Ht)].
    pose proof (wf_active _ Hs _ (ok_active _ _ Ht)). lia.
  - apply (ok_newest _ _ Ht).
  - apply (ok_logged _ _ Ht).
Qed.

Lemma aMark_wf s t r : wf s → txn_ok s t → wf (aMark s t r).
Proof.
  intros Hs Ht. split; cbn; try apply Hs.
  - intros v r' [[= -> ->]%elem_of_singleton|Hv]%elem_of_union; [apply Ht|by eapply (wf_writes _ Hs)].
Qed.

Lemma aWrite_versions s t r x r' v :
  is_Some (versions (aWrite s t r x) !! (r', v)) →
  (r' = r ∧ v = ts_version t) ∨ is_Some (versions s !! (r', v)).
Proof. cbn. rewrite lookup_insert_is_Some'. naive_solver. Qed.

Lemma no_conflict_visible s t r v :
  ¬ conflict s t r → is_Some (versions s !! (r, v)) → isVisible t v = true.
Proof. intros Hc Hv. destruct (isVisible t v) eqn:E; [done|]. destruct Hc. by exists v. Qed.

Lemma aWrite_wf s t r x : wf s → txn_ok s t → ¬ conflict s t r → wf (aWrite s t r x).
Proof.
  intros Hs Ht Hc. split; try apply Hs.
  - intros r' v [[-> ->]|Hv]%aWrite_versions; [|by apply (wf_versions _ Hs) in Hv].
    apply (wf_active _ Hs), Ht.
  - intros v r' [[= -> ->]%elem_of_singleton|Hv]%elem_of_union; [apply Ht|by eapply (wf_writes _ Hs)].
  - intros r' v v' Hv [[? ?]|Hr]%aWrite_versions [[? ?]|Hr']%aWrite_versions; subst; [lia| | |].
    + by apply (no_conflict_visible _ _ _ _ Hc), isVisible_true in Hr' as [_ ?].
    + destruct (decide (v = ts_version t)) as [->|Hne]; [lia|].
      destruct Hc. exists v. eauto with go.
    + by eapply (wf_newest _ Hs).
Qed.

Lemma aWrite_ok s t r x t' :
  txn_ok s t → ¬ conflict s t r → txn_ok s t' →
  (ts_version t = ts_version t' → t = t') → txn_ok (aWrite s t r x) t'.
Proof.
  intros Ht Hc Ht' Heq. split; try apply Ht'.
  2:{ intros r' [[-> ->]|Hr]%aWrite_versions; cbn; [set_solver|]. by apply elem_of_union_r, (ok_logged _ _ Ht'). }
  intros r' a v Ha Hra Hrv Hv.
  assert (a < ts_version t') by (by eapply ok_older).
  apply aWrite_versions in Hra as [[-> ->]|Hra]; apply aWrite_versions in Hrv as [[? ->]|Hrv].
  - apply isVisible_true in Hv as [? _]. done.
  - pose proof (no_conflict_visible _ _ _ _ Hc Hrv) as [_ Hle]%isVisible_true.
    assert (v ≠ ts_version t); [|lia]. intros ->. apply isVisible_true in Hv as [? _]. done.
  - subst r'. destruct (decide (ts_version t = ts_version t')) as [E|Hne].
    + pose proof (no_conflict_visible _ _ _ _ Hc Hra) as [Hna _]%isVisible_true.
      rewrite (Heq E) in Hna. done.
    + rewrite (isVisible_active s t') in Hv by (try done; apply Ht). done.
  - by eapply (ok_newest _ _ Ht').
Qed.

Lemma aMark_ok s t r t' : txn_ok s t' → txn_ok (aMark s t r) t'.
Proof. intros [? ? ? ? Hl]. split; try done. intros r' Hr'%Hl. set_solver. Qed.

Lemma aCommit_wf s t : wf s → wf (aCommit s t).
Proof.
  intros Hs. split; cbn; try apply Hs.
  - intros v [Hv _]%elem_of_difference. by apply (wf_active _ Hs).
  - intros v r [Hne Hv]%elem_of_filter. apply (wf_writes _ Hs) in Hv. set_solver.
  - intros r v v' [Hv _]%elem_of_difference. by apply (wf_newest _ Hs).
Qed.

(** A rollback removes exactly the versions of the transaction. *)
Lemma aRollback_versions s t r v :
  wf s → txn_ok s t →
  versions (aRollback s t) !! (r, v) =
    if decide (v = ts_version t) then None else versions s !! (r, v).
Proof.
  intros Hs Ht. cbn. rewrite map_lookup_filter. destruct (versions s !! (r, v)) as [x|] eqn:E.
  - simpl. case_decide as Hv; [subst|].
    + rewrite option_guard_False; [done|]. intros Hn. apply Hn. split; [done|].
      apply (ok_logged _ _ Ht). by eexists.
    + rewrite option_guard_True; [done|]. cbn. intuition.
  - simpl. by case_decide.
Qed.

Lemma aRollback_wf s t : wf s → txn_ok s t → wf (aRollback s t).
Proof.
  intros Hs Ht.
  assert (∀ r v, is_Some (versions (aRollback s t) !! (r, v)) → is_Some (versions s !! (r, v)))
    as Hsub. { intros r v. rewrite aRollback_versions by done. case_decide; [by intros [? ?]|done]. }
  split; cbn; try apply Hs.
  - intros v [Hv _]%elem_of_difference. by apply (wf_active _ Hs).
  - intros r v Hr%Hsub. by apply (wf_versions _ Hs) in Hr.
  - intros v r [Hne Hv]%elem_of_filter. apply (wf_writes _ Hs) in Hv. set_solver.
  - intros r v v' [Hv _]%elem_of_difference ?%Hsub ?%Hsub. by eapply (wf_newest _ Hs).
Qed.

(** ending a transaction keeps the others open *)
Lemma end_ok s t t' a w vs :
  txn_ok s t' → ts_version t ≠ ts_version t' →
  a = active s ∖ {[ts_version t]} →
  (∀ r, (ts_version t', r) ∈ writes s → (ts_version t', r) ∈ w) →
  (∀ r v, is_Some (vs !! (r, v)) → is_Some (versions s !! (r, v))) →
  txn_ok (mkMstate (stored s) a w vs) t'.
Proof.
  intros Ht Hne -> Hw Hvs. split; cbn.
  - pose proof (ok_active _ _ Ht). set_solver.
  - apply (ok_older _ _ Ht).
  - intros a [Ha _]%elem_of_difference. by apply (ok_snapshot _ _ Ht).
  - intros r a v Ha ?%Hvs ?%Hvs. by eapply (ok_newest _ _ Ht).
  - intros r ?%Hvs. by apply Hw, (ok_logged _ _ Ht).
Qed.

(** ** States an operation that fails half-way leaves *)

(** [s'] lacks write-set entries of [s], and versions of active transactions *)
Record erased (s s' : mstate) : Prop := {
  er_stored : stored s' = stored s;
  er_active : active s' = active s;
  er_writes v r : (v, r) ∈ writes s' → (v, r) ∈ writes s;
  er_versions r v x : versions s' !! (r, v) = Some x → versions s !! (r, v) = Some x;
  er_kept r v : v ∉ active s → versions s' !! (r, v) = versions s !! (r, v);
}.

Lemma erased_wf s s' : erased s s' → wf s → wf s'.
Proof.
  intros [Hst Hac Hwr Hvs _] Hs. assert (next s' = next s) as Hn by (unfold next; by rewrite Hst).
  assert (∀ r v, is_Some (versions s' !! (r, v)) → is_Some (versions s !! (r, v))) as Hsub.
  { intros r v [x Hx%Hvs]. by eexists. }
  split; rewrite ?Hn, ?Hac; try apply Hs.
  - intros r v Hv%Hsub. by apply (wf_versions _ Hs) in Hv.
  - intros v r Hv%Hwr. by apply (wf_writes _ Hs) in Hv.
  - intros r v v' Hv ?%Hsub ?%Hsub. by eapply (wf_newest _ Hs).
Qed.

(** the state of a [Begin] that took a version and did not become active *)
Definition aSkip (s : mstate) : mstate := mkMstate (Some (next s + 1)) (active s) (writes s) (versions s).

Lemma aSkip_wf s : wf s → next s < max_uint64 → wf (aSkip s).
Proof.
  intros Hs Hn. pose proof (wf_next _ Hs). split; try apply Hs; cbn; unfold next in *; cbn in *.
  - lia.
  - intros v Hv%(wf_active _ Hs). unfold next in *. lia.
  - intros r v Hv%(wf_versions _ Hs). unfold next in *. lia.
Qed.

(** ** Isolation *)

Lemma committed_vis_true s v : committed_vis s v = true ↔ v ∉ active s.
Proof. unfold committed_vis. apply bool_decide_eq_true. Qed.

Lemma erased_committed s s' : erased s s' → committed s' = committed s.
Proof.
  intros He. apply view_ext. intros r v x. rewrite !committed_vis_true, (er_active _ _ He).
  split; intros [Hx Hv]; (split; [|done]); by rewrite ?(er_kept _ _ He) in *.
Qed.

(** A new transaction sees the committed database. *)
Lemma aBegin_view s : wf s → txn_view (aBegin s).1 (aBegin s).2 = committed s.
Proof.
  intros Hs. apply view_ext. intros r v x. cbn. rewrite committed_vis_true, isVisible_true. cbn.
  split; [tauto|]. intros [Hx Hv]. split; [done|]. split; [done|].
  pose proof (wf_versions _ Hs r v (mk_is_Some _ _ Hx)). lia.
Qed.

(** Writes of another active transaction do not reach the view. *)
Lemma aWrite_view_other s t r x t' :
  txn_ok s t → txn_ok s t' → ts_version t ≠ ts_version t' →
  txn_view (aWrite s t r x) t' = txn_view s t'.
Proof.
  intros Ht Ht' Hne. apply view_ext. intros r' v y. cbn.
  destruct (decide ((r, ts_version t) = (r', v))) as [[= -> <-]|Hk].
  - rewrite (isVisible_active s t') by (try done; apply Ht). naive_solver.
  - by rewrite lookup_insert_ne.
Qed.

Lemma aRollback_view_other s t t' :
  wf s → txn_ok s t → txn_ok s t' → ts_version t ≠ ts_version t' →
  txn_view (aRollback s t) t' = txn_view s t'.
Proof.
  intros Hs Ht Ht' Hne. apply view_ext. intros r v x.
  rewrite aRollback_versions by done. case_decide as E; [subst|done].
  rewrite (isVisible_active s t') by (try done; apply Ht). naive_solver.
Qed.

(** A transaction reads its own writes. *)
Lemma aWrite_view_self s t r x :
  txn_ok s t → txn_view (aWrite s t r x) t =
    match x with Some v => <[r := v]> (txn_view s t) | None => delete r (txn_view s t) end.
Proof.
  intros Ht.
  assert (∀ r', r' ≠ r → txn_view (aWrite s t r x) t !! r' = txn_view s t !! r') as Hother.
  { intros r' Hne. apply view_lookup_ext. intros v y. cbn.
    rewrite lookup_insert_ne; [done|]. congruence. }
  assert (txn_view (aWrite s t r x) t !! r = x) as Hself.
  { unfold txn_view. rewrite lookup_view. unfold read.
    rewrite (proj2 (latest_Some _ _ _ (ts_version t) x)); [done|].
    split; [apply lookup_insert_eq|]. split; [eauto with go|].
    intros v' _ [_ ?]%isVisible_true. done. }
  apply map_eq. intros r'. destruct (decide (r' = r)) as [->|Hne].
  - rewrite Hself. destruct x; by simplify_map_eq.
  - rewrite Hother by done. destruct x; by simplify_map_eq.
Qed.

(** Uncommitted writes do not reach the committed database. *)
Lemma aWrite_committed s t r x : txn_ok s t → committed (aWrite s t r x) = committed s.
Proof.
  intros Ht. apply view_ext. intros r' v y. cbn. rewrite !committed_vis_true. cbn.
  destruct (decide ((r, ts_version t) = (r', v))) as [[= -> <-]|Hk].
  - pose proof (ok_active _ _ Ht). naive_solver.
  - by rewrite lookup_insert_ne.
Qed.

Lemma aBegin_committed s : wf s → committed (aBegin s).1 = committed s.
Proof.
  intros Hs. apply view_ext. intros r v x. cbn. rewrite !committed_vis_true. cbn.
  split; intros [Hx Hv]; (split; [done|]); [set_solver|].
  pose proof (wf_versions _ Hs r v (mk_is_Some _ _ Hx)).
  intros [->%elem_of_singleton|?]%elem_of_union; [lia|done].
Qed.

(** A rollback leaves the committed database as it was. *)
Lemma aRollback_committed s t : wf s → txn_ok s t → committed (aRollback s t) = committed s.
Proof.
  intros Hs Ht. apply view_ext. intros r v x. rewrite aRollback_versions by done.
  rewrite !committed_vis_true. cbn. pose proof (ok_active _ _ Ht).
  case_decide; [subst; naive_solver|]. set_solver.
Qed.

(** A commit publishes what the transaction saw of the keys it wrote, and
    nothing else. *)
Lemma aCommit_committed s t r :
  wf s → txn_ok s t →
  committed (aCommit s t) !! r =
    if decide (is_Some (versions s !! (r, ts_version t)))
    then txn_view s t !! r else committed s !! r.
Proof.
  intros Hs Ht. case_decide as Hw.
  - unfold committed, txn_view. rewrite !lookup_view. unfold read. destruct Hw as [x Hx].
    rewrite !(proj2 (latest_Some _ _ _ (ts_version t) x)); [done| |].
    + split; [done|]. split; [eauto with go|]. by intros v' _ [_ ?]%isVisible_true.
    + split; [done|]. split; [apply committed_vis_true; cbn; set_solver|].
      intros v' Hv' _. eapply (wf_newest _ Hs); [apply Ht| |done]. by eexists.
  - apply view_lookup_ext. intros v x. rewrite !committed_vis_true. cbn.
    assert (versions s !! (r, v) = Some x → v ≠ ts_version t) as Hne.
    { intros Hx ->. apply Hw. by eexists. }
    set_solver.
Qed.

Lemma aCommit_view_other s t t' : txn_view (aCommit s t) t' = txn_view s t'.
Proof. done. Qed.

Lemma aBegin_view_other s t' : txn_view (aBegin s).1 t' = txn_view s t'.
Proof. done. Qed.

(** Two active transactions never hold a version of the same key. *)
Lemma no_dirty_overwrite s r v v' :
  wf s → v ∈ active s → v' ∈ active s →
  is_Some (versions s !! (r, v)) → is_Some (versions s !! (r, v')) → v = v'.
Proof.
  intros Hs Hv Hv' H1 H2.
  pose proof (wf_newest _ Hs r v v' Hv H1 H2). pose proof (wf_newest _ Hs r v' v Hv' H2 H1). lia.
Qed.

(** A conflict exists iff the newest version of the key, looked for from the
    oldest version that could be invisible, is invisible. *)
Lemma fromVersion_le t a : a ∈ activeVersions t → fromVersion t ≤ a.
Proof.
  unfold fromVersion. intros Ha.
  apply (set_fold_ind_L (λ b X, ∀ a, a ∈ X → b ≤ a)) with (X := activeVersions t); [set_solver| |done].
  intros x X b Hx Hb y [->%elem_of_singleton|Hy]%elem_of_union; [lia|].
  specialize (Hb y Hy). lia.
Qed.

Lemma fromVersion_range t :
  (∀ a, a ∈ activeVersions t → 0 ≤ a) → 0 ≤ fromVersion t ≤ uint64 (ts_version t + 1).
Proof.
  unfold fromVersion. intros Ha.
  assert (0 ≤ uint64 (ts_version t + 1)) by (apply Z.mod_pos_bound; done).
  apply (set_fold_ind_L (λ b X, (∀ a, a ∈ X → 0 ≤ a) → 0 ≤ b ≤ uint64 (ts_version t + 1)))
    with (X := activeVersions t); [lia| |done].
  intros x X b Hx Hb HX. assert (0 ≤ x) by set_solver. assert (∀ a, a ∈ X → 0 ≤ a) as HX' by set_solver. specialize (Hb HX'). lia.
Qed.
