(* ===== verification/MvccRefine.v ===== *)
(** * The MVCC code refines the abstract specification

    [rep m s] says that the engine contents [m] encode the abstract state [s].
    Every operation of [Mvcc.v] is shown to act on the contents as the abstract
    operation of [MvccSpec.v] acts on the state, over any engine that satisfies
    [EngineLaws]. *)

From stdpp Require Import fin_sets.
From S2P Require Import Prelude Bytes Engine MvccKey Mvcc MvccSpec.

(** the stored form of a value: tag 0 for a deletion mark, tag 1 for a value *)
Definition enc_val (x : slice) : bytes :=
  match x with None => [x00] | Some v => x01 :: v end.

Definition amap (s : mstate) (k : mvccKey) : option bytes :=
  match kind k with
  | mvccKeyNextVersion => encodeVersion <$> stored s
  | mvccKeyTxnActive => if decide (key_version k ∈ active s) then Some [] else None
  | mvccKeyTxnWrite => if decide ((key_version k, rawKey k) ∈ writes s) then Some [] else None
  | mvccKeyVersion => enc_val <$> versions s !! (rawKey k, key_version k)
  end.

Record rep (m : gmap bytes bytes) (s : mstate) : Prop := {
  rep_lookup k : key_wf k → m !! encode k = amap s k;
  rep_dom b x : m !! b = Some x → ∃ k, key_wf k ∧ b = encode k;
}.

Lemma rep_empty : rep ∅ empty_mstate.
Proof.
  split; [|by intros b x; rewrite lookup_empty].
  intros [[] v r] _; unfold amap; cbn; rewrite ?lookup_empty; done.
Qed.

Lemma rep_insert m s s' k x :
  rep m s → key_wf k → amap s' k = Some x →
  (∀ k', key_wf k' → k' ≠ k → amap s' k' = amap s k') →
  rep (<[encode k := x]> m) s'.
Proof.
  intros [Hl Hd] Hk Hx Ho. split.
  - intros k' Hk'. destruct (decide (k' = k)) as [->|Hne]; [by rewrite lookup_insert_eq|].
    rewrite lookup_insert_ne; [|intros E; apply Hne; symmetry; by apply encode_inj].
    rewrite Hl, Ho; done.
  - intros b y [[<- _]|[_ Hb]]%lookup_insert_Some; eauto.
Qed.

Lemma rep_delete m s s' k :
  rep m s → key_wf k → amap s' k = None →
  (∀ k', key_wf k' → k' ≠ k → amap s' k' = amap s k') →
  rep (delete (encode k) m) s'.
Proof.
  intros [Hl Hd] Hk Hx Ho. split.
  - intros k' Hk'. destruct (decide (k' = k)) as [->|Hne]; [by rewrite lookup_delete_eq|].
    rewrite lookup_delete_ne; [|intros E; apply Hne; symmetry; by apply encode_inj].
    rewrite Hl, Ho; done.
  - intros b y [_ Hb]%lookup_delete_Some. eauto.
Qed.

(** ** Well-formed keys of the program *)

Lemma key_wf_next : key_wf nextVersionKey.
Proof. done. Qed.
Lemma key_wf_active v : in_uint64 v → key_wf (activeTransactionKey v).
Proof. done. Qed.
Lemma key_wf_write v r : in_uint64 v → key_wf (transactionWriteKey v r).
Proof. done. Qed.
Lemma key_wf_version r v : in_uint64 v → key_wf (versionedKey r v).
Proof. done. Qed.
#[export] Hint Resolve key_wf_next key_wf_active key_wf_write key_wf_version : go.

Lemma wf_uint64 s v : wf s → 1 ≤ v < next s → in_uint64 v.
Proof. intros Hs Hv. pose proof (wf_next _ Hs). unfold in_uint64, max_uint64 in *. lia. Qed.

Lemma txn_uint64 s t : wf s → txn_ok s t → in_uint64 (ts_version t).
Proof. intros Hs Ht. by eapply wf_uint64, wf_active, Ht. Qed.
#[export] Hint Resolve wf_uint64 txn_uint64 : go.

(** ** Which keys a prefix or a range selects *)

Lemma kind_byte_inj k1 k2 : kind_byte k1 = kind_byte k2 → k1 = k2.
Proof. by destruct k1, k2. Qed.

Lemma prefix_kind kd k p :
  (mvccKeyKindPrefix kd ++ p) `prefix_of` encode k ↔ kind k = kd ∧ p `prefix_of` payload k.
Proof.
  rewrite encode_payload. unfold mvccKeyKindPrefix. rewrite <-app_assoc. split.
  - intros Hp%prefix_app_inv. simpl in Hp.
    pose proof (prefix_cons_inv_1 _ _ _ _ Hp) as E%kind_byte_inj.
    apply prefix_cons_inv_2 in Hp. done.
  - intros [<- Hp]. by apply prefix_app, prefix_cons.
Qed.

Lemma prefix_active k : activeTransactionPrefix `prefix_of` encode k ↔ kind k = mvccKeyTxnActive.
Proof.
  unfold activeTransactionPrefix. rewrite <-(app_nil_r (mvccKeyKindPrefix _)), prefix_kind.
  split; [tauto|]. intros; split; [done|apply prefix_nil].
Qed.

Lemma prefix_len_eq (a b c : bytes) : length a = length b → a `prefix_of` b ++ c → a = b.
Proof.
  intros Hl [k Hk]. apply (f_equal (take (length a))) in Hk.
  rewrite Hl in Hk at 1. rewrite take_app_length, take_app_length in Hk. done.
Qed.

Lemma prefix_writes v k :
  in_uint64 v → key_wf k →
  transactionWritePrefix v `prefix_of` encode k ↔
  kind k = mvccKeyTxnWrite ∧ key_version k = v.
Proof.
  intros Hv [Hk _]. unfold transactionWritePrefix, AppendUint64. rewrite prefix_kind.
  split; intros [Hkind Hp]; (split; [done|]); unfold payload in *; rewrite Hkind in *.
  - apply prefix_len_eq in Hp; [|by rewrite !length_be_put].
    symmetry. by apply (be_put_inj 8).
  - subst v. by apply prefix_app_r.
Qed.

Lemma prefix_versions p k :
  versionedKeyPrefix p `prefix_of` encode k ↔
  kind k = mvccKeyVersion ∧ p `prefix_of` rawKey k.
Proof.
  unfold versionedKeyPrefix. rewrite appendEscapedRawKey_app, prefix_kind.
  split; intros [Hkind Hp]; (split; [done|]); unfold payload in *; rewrite Hkind in *.
  - by apply escape_prefix in Hp.
  - by apply escape_prefix.
Qed.

Definition version_prefix (r : bytes) : bytes :=
  mvccKeyKindPrefix mvccKeyVersion ++ escape r ++ [x00; x00].

Lemma encode_versioned r v : encode (versionedKey r v) = version_prefix r ++ be_put 8 v.
Proof.
  unfold encode, version_prefix, AppendUint64. cbn [kind versionedKey rawKey key_version].
  by rewrite appendTerminatedRawKey_app.
Qed.

Lemma version_prefix_of r k :
  version_prefix r `prefix_of` encode k ↔ kind k = mvccKeyVersion ∧ rawKey k = r.
Proof.
  unfold version_prefix. rewrite prefix_kind.
  split; intros [Hkind Hp]; (split; [done|]); unfold payload in *; rewrite Hkind in *.
  - destruct Hp as [q Hq]. rewrite <-app_assoc in Hq. by apply escape_term_inj in Hq as [? _].
  - subst r. exists (be_put 8 (key_version k)). by rewrite <-app_assoc.
Qed.

Lemma version_compare r v w :
  in_uint64 v → in_uint64 w →
  bytes_compare (encode (versionedKey r v)) (encode (versionedKey r w)) = (v ?= w).
Proof. intros. by rewrite !encode_versioned, bytes_compare_app_l, be_put_compare. Qed.

(** the keys between two versions of a raw key *)
Lemma range_versions_key r a b k :
  in_uint64 a → in_uint64 b → key_wf k →
  in_range (Some (encode (versionedKey r a))) (Some (encode (versionedKey r b))) (encode k) = true ↔
  ∃ v, k = versionedKey r v ∧ a ≤ v < b.
Proof.
  intros Ha Hb Hk. unfold in_range. rewrite andb_true_iff, !bool_decide_eq_true. split.
  - intros [H1 H2]. assert (version_prefix r `prefix_of` encode k) as Hp.
    { rewrite encode_versioned in H1, H2. by eapply prefix_sandwich. }
    apply version_prefix_of in Hp as [Hkind Hraw]. destruct k as [? v ?]; simpl in *; subst.
    destruct Hk as [Hv _]. exists v. split; [done|].
    unfold ble, blt in *. change (mkMvccKey mvccKeyVersion v r) with (versionedKey r v) in *.
    rewrite version_compare in H1, H2 by done. by split.
  - intros (v & -> & Hv). destruct Hk as [Hin _]. cbn in Hin. unfold ble, blt.
    rewrite !version_compare by done. by destruct Hv.
Qed.

(** the keys from a version of a raw key on *)
Lemma range_versions_from r a k :
  in_uint64 a → key_wf k →
  in_range (Some (encode (versionedKey r a))) (Some (encode (versionedKey r max_uint64) ++ [x00]))
    (encode k) = true ↔
  ∃ v, k = versionedKey r v ∧ a ≤ v.
Proof.
  intros Ha Hk. unfold in_range. rewrite andb_true_iff, !bool_decide_eq_true. split.
  - intros [H1 H2]. assert (version_prefix r `prefix_of` encode k) as Hp.
    { rewrite encode_versioned in H1, H2. rewrite <-app_assoc in H2. by eapply prefix_sandwich. }
    apply version_prefix_of in Hp as [Hkind Hraw]. destruct k as [? v ?]; simpl in *; subst.
    destruct Hk as [Hv _]. exists v. split; [done|].
    unfold ble in *. change (mkMvccKey mvccKeyVersion v r) with (versionedKey r v) in *.
    by rewrite version_compare in H1.
  - intros (v & -> & Hv). destruct Hk as [Hin _]. cbn in Hin.
    assert (in_uint64 max_uint64) by done. split.
    + unfold ble. by rewrite !version_compare.
    + apply ble_blt_trans with (encode (versionedKey r max_uint64)); [|apply blt_app_nonempty].
      unfold ble. rewrite version_compare by done.
      assert (v ≤ max_uint64) as Hle by (unfold in_uint64, max_uint64 in *; lia). exact Hle.
Qed.

(** ** Scans of version records *)

Abbreviation triple := (bytes * version * slice)%type.

Definition vpair (p : triple) : bytes * bytes :=
  let '(r, v, x) := p in (encode (versionedKey r v), enc_val x).

(** triples in the order of their keys *)
Definition triple_lt (p q : triple) : Prop :=
  blt p.1.1 q.1.1 ∨ p.1.1 = q.1.1 ∧ p.1.2 < q.1.2.

Lemma key_lt_triple p q :
  in_uint64 p.1.2 → in_uint64 q.1.2 → key_lt (vpair p) (vpair q) → triple_lt p q.
Proof.
  destruct p as [[r v] x], q as [[r' v'] x']. intros Hv Hv'. cbn in Hv, Hv'.
  unfold key_lt, blt. cbn [vpair fst]. rewrite !encode_payload.
  rewrite bytes_compare_app_l. cbn [bytes_compare kind_byte kind versionedKey].
  rewrite Z.compare_refl. unfold payload. cbn [kind versionedKey rawKey key_version].
  rewrite escape_compare, be_put_compare by done.
  unfold triple_lt, blt. cbn. destruct (bytes_compare r r') eqn:E; [|tauto|done].
  apply bytes_compare_eq in E as ->. intros ?%Z.compare_lt_iff. tauto.
Qed.

Lemma list_preimage {A B} (f : A → B) (P : A → Prop) (l : list B) :
  (∀ b, b ∈ l → ∃ a, b = f a ∧ P a) → ∃ k, l = map f k ∧ Forall P k.
Proof.
  induction l as [|b l IH]; intros H; [by exists []|].
  destruct (H b) as (a & -> & Ha); [set_solver|]. destruct IH as (k & -> & Hk).
  { intros b Hb. apply H. set_solver. }
  exists (a :: k). by split; [|constructor].
Qed.

Lemma sorted_triples (ts : list triple) :
  Forall (λ p, in_uint64 p.1.2) ts → StronglySorted key_lt (map vpair ts) →
  StronglySorted triple_lt ts.
Proof.
  induction 1 as [|p ts Hp Hts IH]; intros Hs; [constructor|].
  change (map vpair (p :: ts)) with (vpair p :: map vpair ts) in Hs.
  apply StronglySorted_inv in Hs as [Hs Hall]. constructor; [by apply IH|].
  rewrite Forall_forall in Hall. rewrite Forall_forall in Hts. apply Forall_forall.
  intros q Hq. apply key_lt_triple; [done|by apply Hts|].
  apply Hall. by apply list_elem_of_fmap_2.
Qed.

Lemma vpair_inj p q : in_uint64 p.1.2 → in_uint64 q.1.2 → vpair p = vpair q → p = q.
Proof.
  destruct p as [[r v] x], q as [[r' v'] x']. intros Hv Hv' E. cbn in Hv, Hv'.
  assert (encode (versionedKey r v) = encode (versionedKey r' v')) as E1
    by exact (f_equal fst E).
  assert (enc_val x = enc_val x') as E2 by exact (f_equal snd E).
  apply encode_inj in E1 as [= -> ->]; [|by apply key_wf_version..].
  f_equal. destruct x, x'; naive_solver.
Qed.

(** A sorted part of the contents that holds version records only is the image
    of a sorted list of triples of the abstract state. *)
Lemma scan_triples m s (l : list (bytes * bytes)) (Q : bytes → version → Prop) :
  rep m s → wf s → StronglySorted key_lt l →
  (∀ k x, key_wf k → (encode k, x) ∈ l ↔
     m !! encode k = Some x ∧ ∃ r v, k = versionedKey r v ∧ Q r v) →
  (∀ b x, (b, x) ∈ l → m !! b = Some x) →
  ∃ ts, l = map vpair ts ∧ StronglySorted triple_lt ts ∧
        ∀ r v x, (r, v, x) ∈ ts ↔ versions s !! (r, v) = Some x ∧ Q r v.
Proof.
  intros Hrep Hwf Hs Hl Hm.
  destruct (list_preimage vpair
    (λ p, versions s !! p.1 = Some p.2 ∧ Q p.1.1 p.1.2) l) as (ts & -> & Hts).
  { intros [b x] Hin. pose proof (Hm _ _ Hin) as Hb.
    destruct (rep_dom _ _ Hrep _ _ Hb) as (k & Hk & ->).
    apply Hl in Hin as [_ (r & v & -> & HQ)]; [|done].
    rewrite (rep_lookup _ _ Hrep) in Hb by done. unfold amap in Hb. cbn in Hb.
    apply fmap_Some in Hb as (y & Hy & ->). by exists (r, v, y). }
  rewrite Forall_forall in Hts.
  assert (Forall (λ p, in_uint64 p.1.2) ts) as Hu.
  { apply Forall_forall. intros [[r v] x] Hin. destruct (Hts _ Hin) as [Hx _].
    eapply wf_uint64, (wf_versions _ Hwf r); [done|]. by eexists. }
  exists ts. split; [done|]. split; [by apply sorted_triples|].
  intros r v x. split; [by intros Hin%Hts|]. intros [Hx HQ].
  assert (in_uint64 v) as Hv.
  { eapply wf_uint64, (wf_versions _ Hwf r); [done|]. by eexists. }
  assert ((encode (versionedKey r v), enc_val x) ∈ map vpair ts) as Hin.
  { apply Hl; [by apply key_wf_version|]. split; [|by exists r, v].
    rewrite (rep_lookup _ _ Hrep) by (by apply key_wf_version). unfold amap. cbn. by rewrite Hx. }
  apply list_elem_of_fmap in Hin as (p & Hp & Hin).
  change (vpair (r, v, x) = vpair p) in Hp. apply vpair_inj in Hp as <-; [done|done|].
  rewrite Forall_forall in Hu. by apply Hu.
Qed.

Lemma decodeVersionedValue_enc sl x :
  sbytes sl = enc_val x → decodeVersionedValue sl = Ok x.
Proof. unfold decodeVersionedValue. intros ->. by destruct x. Qed.

(** an entry that carries the record of a triple *)
Definition entry_for (p : triple) (en : Entry) : Prop := entry_pair en = vpair p.

Lemma entry_for_decode r v x en :
  in_uint64 v → entry_for (r, v, x) en →
  decodeMvccKey (Key en) = Ok (versionedKey r v) ∧ decodeVersionedValue (Value en) = Ok x.
Proof.
  intros Hv [= HK HV]. rewrite HK. split.
  - by apply decode_encode_key, key_wf_version.
  - by apply decodeVersionedValue_enc.
Qed.

Lemma yields_triples items ts :
  yields items (map vpair ts) → ∃ es, items = map Ok es ∧ Forall2 entry_for ts es.
Proof.
  intros (es & -> & H). exists es. split; [done|].
  revert ts H. induction es as [|en es IH]; intros [|p ts] H; try done.
  injection H as H1 H2. constructor; [done|by apply IH].
Qed.
