(* ===== verification/MvccOps.v ===== *)
(** * Every MVCC operation implements its abstract counterpart

    [Rep e s] ties an engine state to an abstract state; the lemmas of this
    file give, for each operation of [Mvcc.v], its outcome and the abstract
    state it leaves, on every branch. *)

From stdpp Require Import fin_sets.
From S2P Require Import Prelude Bytes Engine MvccKey Mvcc MvccSpec MvccRefine.

Section ops.
Context {E : Type} `{EngineLaws E}.
Implicit Types (e : E) (s : mstate) (t : transactionState).

Record Rep e s : Prop := {
  Rep_usable : usable e;
  Rep_rep : rep (contents e) s;
  Rep_wf : wf s;
}.

(** ** Outcomes

    [performs e out Q F]: run on [e], an operation succeeds with [Q], or it
    fails with [F] because the engine is not steady. *)
Definition performs {A} e (out : E * result A) (Q : E → A → Prop) (F : E → Prop) : Prop :=
  (steady e → steady out.1) ∧
  match out with
  | (e', Ok a) => Q e' a
  | (e', Err _) => ¬ steady e ∧ F e'
  | (_, Panic _) => False
  end.

Lemma performs_steady {A} e (out : E * result A) Q F :
  performs e out Q F → steady e → ∃ e' a, out = (e', Ok a) ∧ Q e' a ∧ steady e'.
Proof.
  intros [Hst Hout] He. destruct out as [e' [a|err|w]]; [|by destruct Hout|done]. exists e', a. auto.
Qed.

Lemma performs_bind {A B} e (m : ST E A) (f : A → ST E B) Q' Q F :
  performs e (m e) Q' F → (∀ e1 a, Q' e1 a → performs e1 (f a e1) Q F) → performs e (sbind m f e) Q F.
Proof.
  unfold performs at 1 3, sbind. destruct (m e) as [e1 [a|err|w]]; cbn; [|done..]. intros [Hst HQ] Hf.
  destruct (Hf e1 a HQ) as [Hst' Hout]. split; [auto|]. destruct (f a e1) as [e2 [b|err|w]]; [done| |done].
  split; [|apply Hout]. intros He. by apply Hout, Hst.
Qed.

Lemma performs_read {A B} e (f : E → result A) (g : A → ST E B) a Q F :
  f e = Ok a → performs e (g a e) Q F → performs e (sbind (sread f) g e) Q F.
Proof. intros Hf. unfold sbind, sread. by rewrite Hf. Qed.

Lemma performs_wrap {A} msg e (m : ST E A) Q F : performs e (m e) Q F → performs e (swrap msg m e) Q F.
Proof. unfold performs, swrap. by destruct (m e) as [e1 []]. Qed.

Lemma performs_impl {A} e (out : E * result A) (Q Q' : E → A → Prop) (F F' : E → Prop) :
  performs e out Q F → (∀ e' a, Q e' a → Q' e' a) → (∀ e', F e' → F' e') → performs e out Q' F'.
Proof. intros [Hst Hout] HQ HF. split; [done|]. destruct out as [e' []]; naive_solver. Qed.

Lemma performs_ret {A} e (a : A) (Q : E → A → Prop) F : Q e a → performs e (sret a e) Q F.
Proof. done. Qed.

(** the contents stayed as they were *)
Definition kept e e' : Prop := usable e' ∧ contents e' = contents e.

Lemma set_performs e k v :
  usable e → fits k v →
  performs e (engSet k v e) (λ e' _, usable e' ∧ contents e' = <[k := sbytes v]> (contents e)) (kept e).
Proof.
  intros Hu Hf. destruct (engSet_law e k v Hu) as [Hst Hout]. split; [done|].
  destruct (engSet k v e) as [e' [[]|err|w]]; [naive_solver| |done]. destruct Hout as (? & ? & ?). split; [tauto|by split].
Qed.

Lemma delete_performs e k :
  usable e → fits k None →
  performs e (engDelete k e) (λ e' _, usable e' ∧ contents e' = delete k (contents e)) (kept e).
Proof.
  intros Hu Hf. destruct (engDelete_law e k Hu) as [Hst Hout]. split; [done|].
  destruct (engDelete k e) as [e' [[]|err|w]]; [naive_solver| |done]. destruct Hout as (? & ? & ?). split; [tauto|by split].
Qed.

(** an operation that failed left the committed database as it was *)
Definition harmless s (n : Z) e' : Prop :=
  ∃ s', Rep e' s' ∧ committed s' = committed s ∧ next s ≤ next s' ≤ next s + n.

Lemma kept_Rep e e' s : Rep e s → kept e e' → Rep e' s.
Proof. intros [Hu Hrep Hwf] [Hu' Hc]. split; [done|by rewrite Hc|done]. Qed.

Lemma kept_harmless e e' s n : 0 ≤ n → Rep e s → kept e e' → harmless s n e'.
Proof. intros Hn HR Hk. exists s. split; [by eapply kept_Rep|]. split; [done|lia]. Qed.

(** ** Begin *)

Lemma collectActive_loop (es : list Entry) (acc : gset version) :
  (∀ en, en ∈ es → ∃ k, decodeMvccKey (Key en) = Ok k) →
  ∃ X, rfoldl (λ acc item,
         let? entry := rwrap "storage: scanning active transactions: %w" item in
         let? key := decodeMvccKey (Key entry) in
         Ok ({[key_version key]} ∪ acc)) acc (map Ok es) = Ok X ∧
       ∀ v, v ∈ X ↔ v ∈ acc ∨ ∃ en k, en ∈ es ∧ decodeMvccKey (Key en) = Ok k ∧ key_version k = v.
Proof.
  revert acc. induction es as [|en es IH]; intros acc Hd; simpl.
  - exists acc. split; [done|]. set_solver.
  - destruct (Hd en) as [k Hk]; [set_solver|]. rewrite Hk. simpl.
    destruct (IH ({[key_version k]} ∪ acc)) as (X & -> & HX); [set_solver|].
    exists X. split; [done|]. intros v. rewrite HX, elem_of_union, elem_of_singleton. split.
    + intros [[->|?]|(en' & k' & ? & ? & ?)]; [right|by left|right].
      * exists en, k. set_solver.
      * exists en', k'. set_solver.
    + intros [?|(en' & k' & [->|?]%elem_of_cons & ? & ?)]; [by auto| |].
      * left; left. congruence.
      * right. by exists en', k'.
Qed.

Lemma collectActive_ok e s :
  Rep e s → collectActive (engScanPrefix activeTransactionPrefix e) = Ok (active s).
Proof.
  intros [Hu Hrep Hwf].
  destruct (engScanPrefix_ok e activeTransactionPrefix Hu) as (es & -> & Hes).
  assert (∀ en, en ∈ es → ∃ v, v ∈ active s ∧ Key en = encode (activeTransactionKey v)) as Hk.
  { intros en Hin. assert (entry_pair en ∈ map entry_pair es) as Hin'
      by (by apply list_elem_of_fmap_2).
    rewrite Hes in Hin'. apply elem_of_prefixed in Hin' as [Hm Hp].
    destruct (rep_dom _ _ Hrep _ _ Hm) as (k & Hkwf & Hke). rewrite Hke in Hp.
    apply prefix_active in Hp. rewrite Hke, (rep_lookup _ _ Hrep) in Hm by done.
    unfold amap in Hm. rewrite Hp in Hm. case_decide as Ha; [|done].
    exists (key_version k). split; [done|]. rewrite Hke.
    destruct k as [kd v r]. simpl in Hp. subst kd. destruct Hkwf as [_ Hr]. simpl in Hr. by subst r. }
  assert (∀ en v, v ∈ active s → Key en = encode (activeTransactionKey v) →
    decodeMvccKey (Key en) = Ok (activeTransactionKey v)) as Hdec.
  { intros en v Hv ->. apply decode_encode_key, key_wf_active.
    by eapply wf_uint64, wf_active. }
  destruct (collectActive_loop es ∅) as (X & HX & Hin).
  { intros en (v & Hv & Hke)%Hk. by eauto. }
  unfold collectActive. rewrite HX. f_equal. apply set_eq. intros v. rewrite Hin. split.
  - intros [?|(en & k & Hen & Hd & <-)]; [set_solver|].
    destruct (Hk _ Hen) as (v & Hv & Hke). rewrite (Hdec _ _ Hv Hke) in Hd. by injection Hd as <-.
  - intros Hv. right.
    assert (in_uint64 v) as Hu64 by (by eapply wf_uint64, wf_active).
    assert ((encode (activeTransactionKey v), []) ∈ map entry_pair es) as Hm.
    { rewrite Hes. apply elem_of_prefixed. split; [|by apply prefix_active].
      rewrite (rep_lookup _ _ Hrep) by (by apply key_wf_active). unfold amap. cbn.
      by rewrite decide_True. }
    apply list_elem_of_fmap in Hm as (en & Hke & Hen). injection Hke as Hke _.
    exists en, (activeTransactionKey v). split; [done|]. by rewrite (Hdec en v).
Qed.

Lemma Get_next_version e s :
  Rep e s → engGet (encode nextVersionKey) e = Ok (encodeVersion <$> stored s).
Proof.
  intros [Hu Hrep Hwf].
  assert (contents e !! encode nextVersionKey = encodeVersion <$> stored s) as Hl
    by (rewrite (rep_lookup _ _ Hrep); done).
  destruct (stored s) as [v|]; simpl in *.
  - by apply engGet_some.
  - by apply engGet_none.
Qed.

Lemma small_key_fits k x : (length k + length (sbytes x) ≤ 4096)%nat → fits k x.
Proof. apply fits_small. Qed.

Lemma Begin_performs e s :
  Rep e s → next s < max_uint64 →
  performs e (Begin e) (λ e' t, t = (aBegin s).2 ∧ Rep e' (aBegin s).1) (harmless s 1).
Proof.
  intros HR Hn. pose proof HR as [Hu Hrep Hwf]. pose proof (wf_next _ Hwf) as Hnx.
  assert (in_uint64 (next s)) as Hn64 by (unfold in_uint64, max_uint64 in *; lia).
  assert (uint64 (next s + 1) = next s + 1) as Hwrap
    by (apply Z.mod_small; unfold max_uint64 in *; lia).
  assert (fits (encode nextVersionKey) (Some (encodeVersion (next s + 1)))) as Hf1
    by (by apply small_key_fits, Nat.leb_le).
  assert (fits (encode (activeTransactionKey (next s))) None) as Hf2
    by (by apply small_key_fits, Nat.leb_le).
  unfold Begin. erewrite sbind_eq.
  2:{ unfold swrap, sread. by rewrite (Get_next_version _ _ HR). }
  erewrite (sbind_eq _ _ _ _ (next s)).
  2:{ unfold next. destruct (stored s) as [v|] eqn:Es; [|done]. simpl.
      unfold swrap, slift, encodeVersion. rewrite decodeVersion_put; [done|].
      unfold next in Hn64. by rewrite Es in Hn64. }
  eapply performs_read; [by apply collectActive_ok|]. rewrite Hwrap.
  eapply performs_bind.
  { apply performs_wrap. eapply performs_impl; [by apply set_performs|done|].
    intros e'. by apply kept_harmless. }
  intros e1 _ [Hu1 Hc1].
  assert (Rep e1 (aSkip s)) as HR1.
  { split; [done| |by apply aSkip_wf]. rewrite Hc1.
    eapply (rep_insert _ s (aSkip s)); [done|apply key_wf_next|done|].
    intros [[] v r] Hk Hne; try done. destruct Hk as [_ [? ?]]; simpl in *; by subst. }
  eapply performs_bind.
  { apply performs_wrap. eapply performs_impl; [by apply set_performs|done|].
    intros e' Hk. exists (aSkip s). split; [by eapply kept_Rep|]. split; [done|]. change (next (aSkip s)) with (next s + 1). lia. }
  intros e2 _ [Hu2 Hc2]. apply performs_ret. split; [done|]. split; [done| |by apply aBegin_wf].
  rewrite Hc2. eapply rep_insert; [apply HR1|by apply key_wf_active| |].
  - unfold amap. cbn. by rewrite decide_True by set_solver.
  - intros [[] v r] Hk Hne; try done. unfold amap. cbn.
    destruct Hk as [_ Hr]; simpl in Hr; subst.
    assert (v ≠ next s) by (intros ->; by apply Hne). apply decide_ext. set_solver.
Qed.

Lemma Begin_ok e s :
  Rep e s → steady e → next s < max_uint64 →
  ∃ e', Begin e = (e', Ok (aBegin s).2) ∧ Rep e' (aBegin s).1 ∧ steady e'.
Proof.
  intros HR He Hn. destruct (performs_steady _ _ _ _ (Begin_performs e s HR Hn) He) as (e' & t & Hb & [-> HR'] & Hs).
  by exists e'.
Qed.

(** ** Commit and Rollback *)

(** the contents lack the keys [ks] *)
Definition without (ks : list bytes) e e' : Prop :=
  usable e' ∧ ∀ b, contents e' !! b = if decide (b ∈ ks) then None else contents e !! b.

(** the deletions at the end of a transaction *)
Lemma siter_delete (msg : string) (ks : list bytes) e :
  usable e → Forall (λ k, fits k None) ks →
  performs e (siter (λ k, swrap msg (engDelete k)) ks e) (λ e' _, without ks e e')
    (λ e', ∃ ks', ks' ⊆ ks ∧ without ks' e e').
Proof.
  intros Hu Hf. revert e Hu. induction Hf as [|k ks Hk Hks IH]; intros e Hu; simpl; [by split|].
  assert (∀ e1 e2 ks', contents e1 = delete k (contents e) → without ks' e1 e2 → without (k :: ks') e e2) as Hcons.
  { intros e1 e2 ks' Hc1 [Hu2 Hc2]. split; [done|]. intros b. rewrite Hc2, Hc1. destruct (decide (b = k)) as [->|Hne].
    - rewrite (decide_True (P := k ∈ k :: ks')) by set_solver. case_decide; [done|apply lookup_delete_eq].
    - rewrite lookup_delete_ne by done. apply decide_ext. set_solver. }
  eapply performs_bind.
  { apply performs_wrap. eapply performs_impl; [by apply delete_performs|done|].
    intros e' [Hu' Hc]. exists []. split; [set_solver|]. split; [done|]. intros b. by rewrite Hc. }
  intros e1 [] [Hu1 Hc1]. eapply performs_impl; [by apply IH| |].
  - intros e2 [] Hw. by eapply Hcons.
  - intros e2 (ks' & Hsub & Hw). exists (k :: ks'). split; [set_solver|]. by eapply Hcons.
Qed.

(** the records under [transactionWritePrefix] are the write set *)
Lemma write_set_scan e s t :
  Rep e s → txn_ok s t →
  ∃ es, engScanPrefix (transactionWritePrefix (ts_version t)) e = map Ok es ∧
    (∀ en, en ∈ es → ∃ r, (ts_version t, r) ∈ writes s ∧
        Key en = encode (transactionWriteKey (ts_version t) r)) ∧
    (∀ r, (ts_version t, r) ∈ writes s →
        ∃ en, en ∈ es ∧ Key en = encode (transactionWriteKey (ts_version t) r)).
Proof.
  intros [Hu Hrep Hwf] Ht. pose proof (txn_uint64 _ _ Hwf Ht) as H64.
  destruct (engScanPrefix_ok e (transactionWritePrefix (ts_version t)) Hu) as (es & -> & Hes).
  exists es. split; [done|]. split.
  - intros en Hin. assert (entry_pair en ∈ map entry_pair es) as Hin'
      by (by apply list_elem_of_fmap_2).
    rewrite Hes in Hin'. apply elem_of_prefixed in Hin' as [Hm Hp].
    destruct (rep_dom _ _ Hrep _ _ Hm) as (k & Hkwf & Hke). rewrite Hke in Hp.
    apply prefix_writes in Hp as [Hkind Hv]; [|done|done].
    rewrite Hke, (rep_lookup _ _ Hrep) in Hm by done.
    unfold amap in Hm. rewrite Hkind in Hm. case_decide as Ha; [|done].
    exists (rawKey k). rewrite <-Hv. split; [done|]. rewrite Hke. by destruct k; simpl in *; subst.
  - intros r Hr.
    assert ((encode (transactionWriteKey (ts_version t) r), []) ∈ map entry_pair es) as Hm.
    { rewrite Hes. apply elem_of_prefixed. split; [|by apply prefix_writes].
      rewrite (rep_lookup _ _ Hrep) by (by apply key_wf_write). unfold amap. cbn.
      by rewrite decide_True. }
    apply list_elem_of_fmap in Hm as (en & Hke & Hen). injection Hke as Hke _. by exists en.
Qed.

Lemma collectWrites_loop (es : list Entry) (acc : list bytes) :
  (∀ en, en ∈ es → ∃ k, decodeMvccKey (Key en) = Ok k) →
  rfoldl (λ acc item,
    let? entry := rwrap "storage: scanning transaction %d writes: %w" item in
    let? _ := decodeMvccKey (Key entry) in
    Ok (acc ++ [Key entry])) acc (map Ok es) = Ok (acc ++ map Key es).
Proof.
  revert acc. induction es as [|en es IH]; intros acc Hd; simpl; [by rewrite app_nil_r|].
  destruct (Hd en) as [k ->]; [set_solver|]. simpl.
  rewrite IH by set_solver. by rewrite <-app_assoc.
Qed.

Lemma active_key_fits v : fits (encode (activeTransactionKey v)) None.
Proof. by apply small_key_fits, Nat.leb_le. Qed.

(** contents after removing the write set and the active mark *)
Lemma rep_end e e' s s' t (ks : list bytes) :
  Rep e s → txn_ok s t → wf s' →
  stored s' = stored s → active s' = active s ∖ {[ts_version t]} →
  writes s' = filter (λ p, p.1 ≠ ts_version t) (writes s) →
  (∀ r, encode (transactionWriteKey (ts_version t) r) ∈ ks ↔ (ts_version t, r) ∈ writes s) →
  (∀ k, key_wf k → encode k ∈ ks →
     (kind k = mvccKeyTxnWrite ∧ key_version k = ts_version t) ∨ kind k = mvccKeyVersion) →
  (∀ r v, in_uint64 v → versions s' !! (r, v) =
     if decide (encode (versionedKey r v) ∈ ks) then None else versions s !! (r, v)) →
  usable e' →
  (∀ b, contents e' !! b = if decide (b = encode (activeTransactionKey (ts_version t))) then None
     else if decide (b ∈ ks) then None else contents e !! b) →
  Rep e' s'.
Proof.
  intros [Hu Hrep Hwf] Ht Hwf' Hst Hac Hwr Hks1 Hks2 Hvs Hu' Hc.
  pose proof (txn_uint64 _ _ Hwf Ht) as H64.
  split; [done| |done]. split.
  - intros k Hk. rewrite Hc, (rep_lookup _ _ Hrep) by done.
    destruct k as [[] v r]; unfold amap; cbn.
    + rewrite decide_False; [|intros Heq%encode_inj; [done|done|by apply key_wf_active]].
      rewrite decide_False; [by rewrite Hst|]. intros [[? _]|?]%Hks2; done.
    + destruct Hk as [Hv Hr]; simpl in Hr; subst r.
      rewrite (decide_False (P := _ ∈ ks)); [|by intros [[? _]|?]%Hks2].
      rewrite Hac. destruct (decide (v = ts_version t)) as [->|Hne].
      * rewrite decide_True by done. rewrite decide_False; [done|set_solver].
      * rewrite decide_False;
          [|intros Heq%encode_inj; [by injection Heq|by apply key_wf_active|by apply key_wf_active]].
        apply decide_ext. set_solver.
    + rewrite decide_False; [|intros Heq%encode_inj; [done|done|by apply key_wf_active]].
      rewrite Hwr. destruct (decide (v = ts_version t)) as [->|Hne].
      * rewrite (decide_False (P := _ ∈ filter _ _)) by (rewrite elem_of_filter; naive_solver).
        pose proof (Hks1 r) as Hr. unfold transactionWriteKey in Hr.
        case_decide; [done|]. rewrite decide_False; [done|]. by rewrite <-Hr.
      * rewrite (decide_False (P := _ ∈ ks)).
        -- apply decide_ext. rewrite elem_of_filter. naive_solver.
        -- intros [[_ ?]|?]%Hks2; done.
    + rewrite decide_False; [|intros Heq%encode_inj; [done|done|by apply key_wf_active]].
      rewrite Hvs by apply Hk. unfold versionedKey. by case_decide.
  - intros b x Hb. rewrite Hc in Hb. repeat case_decide; try done. by apply (rep_dom _ _ Hrep) in Hb.
Qed.

(** the state without some of its write-set entries and versions *)
Definition aErase s (ks : list bytes) : mstate :=
  mkMstate (stored s) (active s)
    (filter (λ p, encode (transactionWriteKey p.1 p.2) ∉ ks) (writes s))
    (filter (λ p, encode (versionedKey p.1.1 p.1.2) ∉ ks) (versions s)).

(** keys of the write set of [t], and of its versions *)
Definition ending_keys t (ks : list bytes) : Prop :=
  ∀ k, key_wf k → encode k ∈ ks →
    kind k = mvccKeyTxnWrite ∨ (kind k = mvccKeyVersion ∧ key_version k = ts_version t).

Lemma erase_harmless e e' s t ks :
  Rep e s → txn_ok s t → ending_keys t ks → without ks e e' → harmless s 0 e'.
Proof.
  intros [Hu Hrep Hwf] Ht Hks [Hu' Hc].
  assert (∀ r v, versions (aErase s ks) !! (r, v) =
    if decide (encode (versionedKey r v) ∈ ks) then None else versions s !! (r, v)) as Hvs.
  { intros r v. cbn. rewrite map_lookup_filter. destruct (versions s !! (r, v)); cbn; [|by case_decide].
    case_decide; [by rewrite option_guard_False by tauto|by rewrite option_guard_True]. }
  assert (erased s (aErase s ks)) as Her.
  { split; try done.
    - intros v r [_ ?]%elem_of_filter. done.
    - intros r v x. rewrite Hvs. by case_decide.
    - intros r v Hv. rewrite Hvs. case_decide as Hin; [|done]. destruct (versions s !! (r, v)) as [x|] eqn:Hx; [|done].
      assert (in_uint64 v) as H64 by (eapply wf_uint64, (wf_versions _ Hwf r); [done|by eexists]).
      apply Hks in Hin as [?|[_ Heq]]; [done| |by apply key_wf_version]. cbn in Heq. subst v. destruct Hv. apply Ht. }
  exists (aErase s ks). split; [|split; [by apply erased_committed|unfold next; cbn; lia]].
  split; [done| |by eapply erased_wf]. split.
  - intros k Hk. rewrite Hc, (rep_lookup _ _ Hrep) by done. destruct k as [kd v r].
    destruct kd; unfold amap; cbn [kind key_version rawKey].
    + rewrite decide_False; [done|]. by intros [?|[? _]]%Hks.
    + rewrite decide_False; [done|]. by intros [?|[? _]]%Hks.
    + cbn. change (mkMvccKey mvccKeyTxnWrite v r) with (transactionWriteKey v r).
      case_decide as Hin; [rewrite decide_False; [done|]|apply decide_ext]; rewrite elem_of_filter; tauto.
    + rewrite Hvs. change (mkMvccKey mvccKeyVersion v r) with (versionedKey r v). by case_decide.
  - intros b x Hb. rewrite Hc in Hb. case_decide; [done|]. by apply (rep_dom _ _ Hrep) in Hb.
Qed.

(** the deletions of an ending transaction, and of its active mark *)
Lemma end_performs {A} e s s' t ks msg (last : ST E A) :
  Rep e s → txn_ok s t → ending_keys t ks → Forall (λ k, fits k None) ks →
  (∀ e1, usable e1 → performs e1 (last e1)
     (λ e' _, usable e' ∧ contents e' = delete (encode (activeTransactionKey (ts_version t))) (contents e1)) (kept e1)) →
  (∀ e', usable e' →
     (∀ b, contents e' !! b = if decide (b = encode (activeTransactionKey (ts_version t))) then None
        else if decide (b ∈ ks) then None else contents e !! b) → Rep e' s') →
  performs e ((siter (λ k, swrap msg (engDelete k)) ks ;;! last) e) (λ e' _, Rep e' s') (harmless s 0).
Proof.
  intros HR Ht Hks Hfits Hlast Hend. pose proof (Rep_usable _ _ HR) as Hu. eapply performs_bind.
  { eapply performs_impl; [by apply siter_delete|done|]. intros e' (ks' & Hsub & Hw).
    apply (erase_harmless e e' s t ks'); [done|done| |done]. intros k Hk Hin. by apply Hks, Hsub. }
  intros e1 _ [Hu1 Hc1]. eapply performs_impl; [by apply Hlast| |].
  - intros e2 _ [Hu2 Hc2]. apply Hend; [done|]. intros b. rewrite Hc2.
    case_decide as Hb; [subst; apply lookup_delete_eq|]. rewrite lookup_delete_ne by done. apply Hc1.
  - intros e2 [Hu2 Hc2]. apply (erase_harmless e e2 s t ks); [done..|]. split; [done|]. intros b. by rewrite Hc2.
Qed.

Lemma Commit_performs e s t :
  Rep e s → txn_ok s t → performs e (Commit t e) (λ e' _, Rep e' (aCommit s t)) (harmless s 0).
Proof.
  intros HR Ht. pose proof HR as [Hu Hrep Hwf]. pose proof (txn_uint64 _ _ Hwf Ht) as H64.
  destruct (write_set_scan e s t HR Ht) as (es & Hes & Hin1 & Hin2).
  assert (∀ k, key_wf k → encode k ∈ map Key es →
    kind k = mvccKeyTxnWrite ∧ key_version k = ts_version t) as Hwk.
  { intros k Hk (en & Hke & (r & _ & Hr)%Hin1)%list_elem_of_fmap.
    rewrite Hr in Hke. apply encode_inj in Hke as ->; [done|done|by apply key_wf_write]. }
  unfold Commit. eapply performs_read.
  { unfold collectWrites. rewrite Hes, collectWrites_loop; [done|].
    intros en (r & Hr & ->)%Hin1. eexists. by apply decode_encode_key, key_wf_write. }
  cbn [app]. apply (end_performs e s (aCommit s t) t (map Key es)); [done|done| | | |].
  - intros k Hk [? _]%Hwk; [by left|done].
  - apply Forall_forall. intros k (en & -> & (r & Hr & ->)%Hin1)%list_elem_of_fmap.
    eapply (fits_contents e _ []); [done|].
    rewrite (rep_lookup _ _ Hrep) by (by apply key_wf_write). unfold amap. cbn. by rewrite decide_True.
  - intros e1 Hu1. apply performs_wrap, delete_performs; [done|]. apply active_key_fits.
  - intros e2 Hu2 Hc2. eapply (rep_end e e2 s (aCommit s t) t (map Key es)); try done.
    + by apply aCommit_wf.
    + intros r. split.
      * intros (en & Hke & (r' & Hr & Hr')%Hin1)%list_elem_of_fmap. rewrite Hr' in Hke.
        apply encode_inj in Hke as [= ->]; [done|by apply key_wf_write|by apply key_wf_write].
      * intros (en & Hen & <-)%Hin2. by apply list_elem_of_fmap_2.
    + intros k Hk Hin. left. by apply Hwk.
    + intros r v Hv. rewrite decide_False; [done|].
      intros [? _]%Hwk; [done|by apply key_wf_version].
Qed.

Lemma Commit_ok e s t :
  Rep e s → steady e → txn_ok s t → ∃ e', Commit t e = (e', Ok ()) ∧ Rep e' (aCommit s t) ∧ steady e'.
Proof.
  intros HR He Ht. destruct (performs_steady _ _ _ _ (Commit_performs e s t HR Ht) He) as (e' & [] & Hc & HR' & Hs).
  by exists e'.
Qed.

Lemma collectUndo_loop (es : list Entry) (acc : list bytes) v :
  (∀ en, en ∈ es → ∃ r, decodeMvccKey (Key en) = Ok (transactionWriteKey v r)) →
  ∃ ks, rfoldl (λ acc item,
      let? entry := rwrap "storage: scanning transaction %d writes: %w" item in
      let? decoded := decodeMvccKey (Key entry) in
      Ok (acc ++ [Key entry; encode (versionedKey (rawKey decoded) (key_version decoded))]))
      acc (map Ok es) = Ok (acc ++ ks) ∧
    ∀ b, b ∈ ks ↔ ∃ en r, en ∈ es ∧ decodeMvccKey (Key en) = Ok (transactionWriteKey v r) ∧
      (b = Key en ∨ b = encode (versionedKey r v)).
Proof.
  revert acc. induction es as [|en es IH]; intros acc Hd; simpl.
  - exists []. rewrite app_nil_r. split; [done|]. set_solver.
  - destruct (Hd en) as [r Hr]; [set_solver|]. rewrite Hr. simpl.
    destruct (IH (acc ++ [Key en; encode (versionedKey r v)])) as (ks & -> & Hks); [set_solver|].
    exists (Key en :: encode (versionedKey r v) :: ks). split; [by rewrite <-app_assoc|].
    intros b. rewrite !elem_of_cons, Hks. split.
    + intros [->|[->|(en' & r' & ? & ? & ?)]]; [exists en, r|exists en, r|exists en', r'];
        rewrite elem_of_cons; naive_solver.
    + intros (en' & r' & [->|?]%elem_of_cons & Hr' & Hb).
      * rewrite Hr in Hr'. injection Hr' as <-. naive_solver.
      * right; right. by exists en', r'.
Qed.

Lemma version_key_length r v :
  length (encode (versionedKey r v)) = length (encode (transactionWriteKey v r)).
Proof.
  rewrite !encode_payload. unfold payload. cbn [kind rawKey key_version versionedKey transactionWriteKey].
  rewrite !length_app. cbn [length]. rewrite !length_app. cbn [length].
  rewrite !length_be_put. lia.
Qed.

Lemma Rollback_performs e s t :
  Rep e s → txn_ok s t → performs e (Rollback t e) (λ e' _, Rep e' (aRollback s t)) (harmless s 0).
Proof.
  intros HR Ht. pose proof HR as [Hu Hrep Hwf]. pose proof (txn_uint64 _ _ Hwf Ht) as H64.
  destruct (write_set_scan e s t HR Ht) as (es & Hes & Hin1 & Hin2).
  assert (∀ en r, Key en = encode (transactionWriteKey (ts_version t) r) →
    decodeMvccKey (Key en) = Ok (transactionWriteKey (ts_version t) r)) as Hdec.
  { intros en r ->. by apply decode_encode_key, key_wf_write. }
  destruct (collectUndo_loop es [] (ts_version t)) as (ks & Hks & Hin).
  { intros en (r & _ & Hke)%Hin1. eauto. }
  assert (∀ b, b ∈ ks ↔ ∃ r, (ts_version t, r) ∈ writes s ∧
     (b = encode (transactionWriteKey (ts_version t) r) ∨ b = encode (versionedKey r (ts_version t))))
    as Hin'.
  { intros b. rewrite Hin. split.
    - intros (en & r & (r' & Hr & Hke)%Hin1 & Hd & Hb). rewrite (Hdec _ _ Hke) in Hd.
      injection Hd as ->. exists r. rewrite Hke in Hb. done.
    - intros (r & Hr & Hb). destruct (Hin2 r Hr) as (en & Hen & Hke). exists en, r.
      rewrite (Hdec _ _ Hke), Hke. done. }
  assert (∀ k, key_wf k → encode k ∈ ks →
     (kind k = mvccKeyTxnWrite ∧ key_version k = ts_version t) ∨
     (kind k = mvccKeyVersion ∧ key_version k = ts_version t)) as Hkinds.
  { intros k Hk (r & Hr & [Hke|Hke])%Hin'; apply encode_inj in Hke as ->;
      try done; try by apply key_wf_write || by apply key_wf_version. by left. by right. }
  unfold Rollback. eapply performs_read; [unfold collectUndo; rewrite Hes, Hks; done|].
  apply (end_performs e s (aRollback s t) t ks); [done|done| | | |].
  - intros k Hk [[? _]|?]%Hkinds; [by left|by right|done].
  - apply Forall_forall. intros k (r & Hr & Hb)%Hin'.
    assert (fits (encode (transactionWriteKey (ts_version t) r)) None) as Hf.
    { eapply (fits_contents e _ []); [done|].
      rewrite (rep_lookup _ _ Hrep) by (by apply key_wf_write). unfold amap. cbn.
      by rewrite decide_True. }
    destruct Hb as [->| ->]; [done|]. eapply fits_le; [done| |done]. by rewrite version_key_length.
  - intros e1 Hu1. pose proof (delete_performs e1 _ Hu1 (active_key_fits (ts_version t))) as Hd.
    unfold performs in *. by destruct (engDelete _ e1) as [e2 []].
  - intros e2 Hu2 Hc2. eapply (rep_end e e2 s (aRollback s t) t ks); try done.
    + by apply aRollback_wf.
    + intros r. rewrite Hin'. split; [|by eauto]. intros (r' & Hr & [Hke|Hke]);
        apply encode_inj in Hke; try by apply key_wf_write || by apply key_wf_version.
      * by injection Hke as ->.
      * done.
    + intros k Hk [?|[? _]]%Hkinds; [by left|by right|done].
    + intros r v Hv. cbn. rewrite map_lookup_filter.
      destruct (decide (encode (versionedKey r v) ∈ ks)) as [Hb|Hb].
      * apply Hin' in Hb as (r' & Hr & Hke).
        assert (r = r' ∧ v = ts_version t) as [-> ->].
        { destruct Hke as [Hke|Hke]; apply encode_inj in Hke; try done; by simplify_eq. }
        destruct (versions s !! (r', ts_version t)) as [x|]; [|done]. simpl.
        rewrite option_guard_False; [done|]. naive_solver.
      * destruct (versions s !! _) as [x|]; [|done]. simpl.
        rewrite option_guard_True; [done|]. cbn. intros [-> Hw]. apply Hb, Hin'. eauto.
Qed.

Lemma Rollback_ok e s t :
  Rep e s → steady e → txn_ok s t → ∃ e', Rollback t e = (e', Ok ()) ∧ Rep e' (aRollback s t) ∧ steady e'.
Proof.
  intros HR He Ht. destruct (performs_steady _ _ _ _ (Rollback_performs e s t HR Ht) He) as (e' & [] & Hc & HR' & Hs).
  by exists e'.
Qed.

End ops.
