(* ===== verification/MvccReads.v ===== *)
(** * Reads and writes of a transaction

    [Get] and [ScanPrefix] read the view of the transaction; [write] adds a
    version to it, or reports a conflict exactly when some version of the key
    is invisible. *)

From stdpp Require Import fin_sets.
From S2P Require Import Prelude Bytes Engine MvccKey Mvcc MvccSpec MvccRefine MvccOps.

(** ** The newest visible triple of a sorted list *)

Definition last_visible (t : transactionState) (r : bytes) (ts : list triple) : slice :=
  foldl (λ acc '(r', v, x), if decide (r' = r) then if isVisible t v then x else acc else acc)
    None ts.

Lemma last_visible_snoc t r ts r' v x :
  last_visible t r (ts ++ [(r', v, x)]) =
    if decide (r' = r) then if isVisible t v then x else last_visible t r ts
    else last_visible t r ts.
Proof. unfold last_visible. by rewrite foldl_app. Qed.

Lemma last_visible_spec t r ts :
  StronglySorted triple_lt ts →
  (∃ v x, (r, v, x) ∈ ts ∧ isVisible t v = true ∧
     (∀ v' x', (r, v', x') ∈ ts → isVisible t v' = true → v' ≤ v) ∧ last_visible t r ts = x) ∨
  ((∀ v' x', (r, v', x') ∈ ts → isVisible t v' = false) ∧ last_visible t r ts = None).
Proof.
  induction ts as [|[[r' v] x] ts IH] using rev_ind; intros Hs.
  { right. split; [set_solver|done]. }
  apply StronglySorted_app in Hs as (Hlt & Hs & _). specialize (IH Hs).
  rewrite last_visible_snoc. case_decide as Hr; [subst r'; destruct (isVisible t v) eqn:Hv|].
  - left. exists v, x. split; [set_solver|]. split; [done|]. split; [|done].
    intros v' x' [Hin|[= -> ->]%list_elem_of_singleton]%elem_of_app _; [|lia].
    destruct (Hlt (r, v', x') (r, v, x)) as [Hb|[_ ?]]; [done|set_solver| |cbn in *; lia].
    by apply blt_irrefl in Hb.
  - destruct IH as [(w & y & Hin & Hw & Hmax & ->)|[Hn ->]]; [left|right].
    + exists w, y. split; [set_solver|]. split; [done|]. split; [|done].
      intros v' x' [Hin'|[= -> ->]%list_elem_of_singleton]%elem_of_app Hv'; [by eapply Hmax|congruence].
    + split; [|done]. intros v' x' [Hin'|[= -> ->]%list_elem_of_singleton]%elem_of_app; [by eapply Hn|done].
  - destruct IH as [(w & y & Hin & Hw & Hmax & ->)|[Hn ->]]; [left|right].
    + exists w, y. split; [set_solver|]. split; [done|]. split; [|done].
      intros v' x' [Hin'|?%list_elem_of_singleton]%elem_of_app Hv'; [by eapply Hmax|congruence].
    + split; [|done]. intros v' x' [Hin'|?%list_elem_of_singleton]%elem_of_app; [by eapply Hn|congruence].
Qed.

Lemma last_visible_read t r ts vs :
  StronglySorted triple_lt ts →
  (∀ v x, isVisible t v = true → (r, v, x) ∈ ts ↔ vs !! (r, v) = Some x) →
  last_visible t r ts = read (isVisible t) vs r.
Proof.
  intros Hs Hin. unfold read.
  destruct (last_visible_spec t r ts Hs) as [(v & x & Hvx & Hv & Hmax & ->)|[Hn ->]].
  - rewrite (proj2 (latest_Some _ _ _ v x)); [done|].
    split; [by apply Hin|]. split; [done|]. intros v' [x' Hx'] Hv'.
    apply (Hmax v' x'); [by apply Hin|done].
  - rewrite (proj2 (latest_None _ _ _)); [done|]. intros v [x Hx].
    destruct (isVisible t v) eqn:Hv; [|done]. apply Hin in Hx; [|done].
    by rewrite (Hn v x) in Hv.
Qed.

Lemma last_visible_elem t r ts x : last_visible t r ts = Some x → ∃ p, p ∈ ts ∧ p.1.1 = r.
Proof.
  induction ts as [|[[r' v] y] ts IH] using rev_ind; [done|]. rewrite last_visible_snoc.
  case_decide as Hr; [|intros (p & ? & ?)%IH; exists p; set_solver].
  intros _. exists (r', v, y). set_solver.
Qed.

(** ** The loop of [Get] *)

Lemma get_loop_triples t r ts es :
  Forall (λ p, p.1.1 = r ∧ in_uint64 p.1.2) ts → Forall2 entry_for (rev ts) es →
  get_loop t (map Ok es) = Ok (last_visible t r ts).
Proof.
  revert es. induction ts as [|[[r' v] x] ts IH] using rev_ind; intros es Hts Hes.
  - by inversion Hes.
  - apply Forall_app in Hts as [Hts [[Hr Hv] _]%Forall_cons]. cbn in Hr, Hv. subst r'.
    rewrite rev_app_distr in Hes. inversion Hes as [|? en ? es' Hen Hes']; subst.
    destruct (entry_for_decode _ _ _ _ Hv Hen) as [Hk Hval]. simpl.
    rewrite Hk. cbn [rbind versionedKey key_version].
    rewrite last_visible_snoc, decide_True by done.
    destruct (isVisible t v); simpl; [done|]. by apply IH.
Qed.

(** ** The loop of [ScanPrefix] *)

Definition entry_lt (a b : Entry) : Prop := blt (Key a) (Key b).
#[export] Instance entry_lt_strict : StrictOrder entry_lt.
Proof. split; [intros a; apply blt_irrefl|intros a b c; apply blt_trans]. Qed.

(** after the triples [ts]: finished keys are in [entries], the current key is
    the last one seen *)
Record scan_inv (t : transactionState) (ts : list triple) (st : scanState) : Prop := {
  inv_le p : p ∈ ts → ble p.1.1 (currentKey st);
  inv_key : currentKey st = [] ∨ ∃ p, p ∈ ts ∧ p.1.1 = currentKey st;
  inv_value : currentValue st = last_visible t (currentKey st) ts;
  inv_visible : currentVisible st = bool_decide (currentValue st ≠ None);
  inv_sorted : StronglySorted entry_lt (entries st);
  inv_entries en : en ∈ entries st ↔
    Key en ≠ currentKey st ∧ last_visible t (Key en) ts = Value en ∧ Value en ≠ None;
}.

Lemma scan_inv_flush t ts st :
  scan_inv t ts st →
  StronglySorted entry_lt (flush st) ∧
  ∀ en, en ∈ flush st ↔ last_visible t (Key en) ts = Value en ∧ Value en ≠ None.
Proof.
  intros [Hle Hkey Hval Hvis Hs Hen]. unfold flush. rewrite Hvis. split.
  - case_bool_decide as Hv; [|done]. apply StronglySorted_app_2; [|done|by repeat constructor].
    intros a b Ha ->%list_elem_of_singleton. unfold entry_lt. cbn.
    apply Hen in Ha as (Hne & Hl & Hnn). destruct (Value a) as [x|]; [|done].
    apply last_visible_elem in Hl as (p & Hp & Hpa). apply Hle in Hp. rewrite Hpa in Hp.
    apply ble_lteq in Hp. naive_solver.
  - intros en. case_bool_decide as Hv.
    + rewrite elem_of_app, list_elem_of_singleton, Hen. split.
      * intros [(_ & ? & ?)| ->]; [done|]. cbn. by rewrite <-Hval.
      * intros [Hl Hn]. destruct (decide (Key en = currentKey st)) as [E|]; [|by left].
        right. rewrite E, <-Hval in Hl. destruct en; cbn in *; by subst.
    + rewrite Hen. split; [tauto|]. intros [Hl Hn]. split; [|done].
      intros E. rewrite E, <-Hval in Hl. congruence.
Qed.

(** moving on to the key of the next triple *)
Lemma scan_inv_switch t ts st r :
  scan_inv t ts st → (∀ p, p ∈ ts → ble p.1.1 r) →
  let st' := if decide (r ≠ currentKey st) then mkScanState (flush st) r None false else st in
  currentKey st' = r ∧ currentValue st' = last_visible t r ts ∧
  currentVisible st' = bool_decide (currentValue st' ≠ None) ∧
  StronglySorted entry_lt (entries st') ∧
  ∀ en, en ∈ entries st' ↔
    Key en ≠ r ∧ last_visible t (Key en) ts = Value en ∧ Value en ≠ None.
Proof.
  intros Hinv Hr. destruct (scan_inv_flush _ _ _ Hinv) as [Hfs Hf].
  destruct Hinv as [Hle Hkey Hval Hvis Hs Hen]. simpl. case_decide as Hne; cbn; [|by subst].
  assert (last_visible t r ts = None) as Hnone.
  { destruct (last_visible t r ts) as [x|] eqn:E; [|done].
    apply last_visible_elem in E as (p & Hp & Hpr). destruct Hne.
    apply (anti_symm ble); [by rewrite <-Hpr; apply Hle|].
    destruct Hkey as [-> |(q & Hq & <-)]; [apply ble_nil|by apply Hr]. }
  rewrite Hnone. split; [done|]. split; [done|]. split; [done|]. split; [done|].
  intros en. rewrite Hf. split; [|tauto]. intros [Hl Hn]. split; [|done].
  intros E. rewrite E in Hl. congruence.
Qed.

Lemma scan_step_inv t ts st r v x en :
  scan_inv t ts st → in_uint64 v → (∀ p, p ∈ ts → triple_lt p (r, v, x)) →
  entry_for (r, v, x) en →
  ∃ st', scan_step t st (Ok en) = Ok st' ∧ scan_inv t (ts ++ [(r, v, x)]) st'.
Proof.
  intros Hinv Hv Hlt Hen.
  assert (∀ p, p ∈ ts → ble p.1.1 r) as Hle.
  { intros p Hp. apply ble_lteq. destruct (Hlt p Hp) as [?|[? _]]; auto. }
  pose proof (scan_inv_switch _ _ _ r Hinv Hle) as Hsw.
  destruct (entry_for_decode _ _ _ _ Hv Hen) as [Hk Hval].
  unfold scan_step. cbn [rbind]. rewrite Hk. cbn [rbind rawKey key_version versionedKey].
  set (st1 := if decide (r ≠ currentKey st) then _ else _) in *.
  destruct Hsw as (Hk1 & Hv1 & Hvis1 & Hs1 & He1).
  assert (∀ k, k ≠ r → last_visible t k (ts ++ [(r, v, x)]) = last_visible t k ts) as Hother
    by (intros k Hne; rewrite last_visible_snoc, decide_False; congruence).
  assert (∀ st', currentKey st' = r → entries st' = entries st1 →
    currentValue st' = last_visible t r (ts ++ [(r, v, x)]) →
    currentVisible st' = bool_decide (currentValue st' ≠ None) →
    scan_inv t (ts ++ [(r, v, x)]) st') as Hmk.
  { intros st' Hck Hes Hcv Hcvis. split; rewrite ?Hck, ?Hes; [| |done|done|done|].
    - intros p [Hp| ->%list_elem_of_singleton]%elem_of_app; [by apply Hle|apply ble_refl].
    - right. exists (r, v, x). set_solver.
    - intros en'. rewrite He1. split; intros (Hne & ? & ?); (split; [done|]);
        [rewrite Hother by done|rewrite Hother in * by done]; done. }
  destruct (isVisible t v) eqn:Hvv; simpl.
  - rewrite Hval. simpl. eexists. split; [done|]. apply Hmk; cbn; try done.
    by rewrite last_visible_snoc, decide_True, Hvv.
  - eexists. split; [done|]. apply Hmk; try done.
    by rewrite last_visible_snoc, decide_True, Hvv.
Qed.

Lemma scan_loop_inv t ts es :
  StronglySorted triple_lt ts → Forall (λ p, in_uint64 p.1.2) ts → Forall2 entry_for ts es →
  ∃ st, rfoldl (scan_step t) (mkScanState [] [] None false) (map Ok es) = Ok st ∧
        scan_inv t ts st.
Proof.
  revert es. induction ts as [|[[r v] x] ts IH] using rev_ind; intros es Hs Hu Hes.
  - inversion Hes; subst. eexists. split; [done|]. split; cbn; try done; [set_solver|by left|constructor|].
    intros en. split; [set_solver|]. intros (_ & ? & ?). congruence.
  - apply StronglySorted_app in Hs as (Hlt & Hs & _).
    apply Forall_app in Hu as [Hu [Hv _]%Forall_cons].
    apply Forall2_app_inv_l in Hes as (es1 & es2 & Hes1 & Hes2 & ->).
    inversion Hes2 as [|? en ? ? Hen Hnil]; subst. inversion Hnil; subst.
    destruct (IH es1 Hs Hu Hes1) as (st & Hst & Hinv).
    destruct (scan_step_inv t ts st r v x en Hinv Hv) as (st' & Hst' & Hinv'); [|done|].
    { intros p Hp. apply Hlt; set_solver. }
    exists st'. split; [|done]. rewrite map_app, rfoldl_app, Hst. cbn [rbind map rfoldl].
    by rewrite Hst'.
Qed.

Section ops.
Context {E : Type} `{EngineLaws E}.
Implicit Types (e : E) (s : mstate) (t : transactionState).

(** [Get] reads the view. *)
Lemma Get_ok e s t k :
  Rep e s → txn_ok s t → Get t k e = Ok (txn_view s t !! k).
Proof.
  intros [Hu Hrep Hwf] Ht. pose proof (txn_uint64 _ _ Hwf Ht) as H64.
  pose proof (wf_active _ Hwf _ (ok_active _ _ Ht)) as Hts. pose proof (wf_next _ Hwf) as Hn.
  assert (uint64 (ts_version t + 1) = ts_version t + 1) as Hwrap
    by (apply Z.mod_small; unfold max_uint64 in *; lia).
  assert (in_uint64 (ts_version t + 1)) as H64' by (unfold in_uint64, max_uint64 in *; lia).
  unfold Get. rewrite Hwrap.
  set (from := Some (encode (versionedKey k 0))). set (to := Some (encode _)).
  destruct (scan_triples (contents e) s (range from to (contents e))
    (λ r v, r = k ∧ 0 ≤ v < ts_version t + 1)) as (ts & Hl & Hs & Hin);
    [done|done|apply range_sorted| | |].
  { intros mk x Hmk. rewrite elem_of_range. subst from to.
    rewrite range_versions_key by done. naive_solver. }
  { intros b x Hb. by apply elem_of_range in Hb as [? _]. }
  assert (Forall (λ p, p.1.1 = k ∧ in_uint64 p.1.2) ts) as Hts'.
  { apply Forall_forall. intros [[r v] x] Hp. apply Hin in Hp as (Hx & -> & _).
    split; [done|]. eapply wf_uint64, (wf_versions _ Hwf k); [done|]. by eexists. }
  pose proof (engScanReverse_ok e from to Hu) as Hy. rewrite Hl, <-map_rev in Hy.
  apply yields_triples in Hy as (es & -> & Hes).
  rewrite (get_loop_triples t k ts es) by done. f_equal.
  unfold txn_view. rewrite lookup_view. apply last_visible_read; [done|].
  intros v x Hv%isVisible_true. rewrite Hin. split; [tauto|]. intros Hx. split; [done|].
  split; [done|]. pose proof (wf_versions _ Hwf k v (mk_is_Some _ _ Hx)). lia.
Qed.

(** [ScanPrefix] lists the keys of the view with the prefix, in key order. *)
Lemma ScanPrefix_ok e s t p :
  Rep e s → txn_ok s t →
  ∃ es, ScanPrefix t p e = Ok es ∧ map entry_pair es = prefixed p (txn_view s t) ∧
        Forall (λ en, Value en ≠ None) es.
Proof.
  intros [Hu Hrep Hwf] Ht.
  destruct (scan_triples (contents e) s (prefixed (versionedKeyPrefix p) (contents e))
    (λ r v, p `prefix_of` r)) as (ts & Hl & Hs & Hin); [done|done|apply prefixed_sorted| | |].
  { intros mk x Hmk. rewrite elem_of_prefixed, prefix_versions. split; intros [? Hp]; (split; [done|]).
    - exists (rawKey mk), (key_version mk). destruct mk, Hp; simpl in *; by subst.
    - by destruct Hp as (r & v & -> & ?). }
  { intros b x Hb. by apply elem_of_prefixed in Hb as [? _]. }
  pose proof (engScanPrefix_ok e (versionedKeyPrefix p) Hu) as Hy. rewrite Hl in Hy.
  apply yields_triples in Hy as (es & Hes & Hfor).
  assert (Forall (λ p, in_uint64 p.1.2) ts) as Hu64.
  { apply Forall_forall. intros [[r v] x] Hp. apply Hin in Hp as (Hx & _).
    eapply wf_uint64, (wf_versions _ Hwf r); [done|]. by eexists. }
  destruct (scan_loop_inv t ts es Hs Hu64 Hfor) as (st & Hst & Hinv).
  destruct (scan_inv_flush _ _ _ Hinv) as [Hsf Hf].
  exists (flush st). unfold ScanPrefix. rewrite Hes, Hst. split; [done|].
  assert (∀ k x, p `prefix_of` k → last_visible t k ts = x ↔ txn_view s t !! k = x) as Hview.
  { intros k x Hp. unfold txn_view. rewrite lookup_view.
    rewrite (last_visible_read t k ts (versions s)); [done|done|]. intros v y _. rewrite Hin. tauto. }
  split; [|apply Forall_forall; intros en Hen; by apply Hf in Hen as [_ ?]].
  apply (sorted_ext key_lt);
    [by apply (StronglySorted_fmap entry_pair entry_lt key_lt)|apply prefixed_sorted|].
  intros [k v]. change (map entry_pair (flush st)) with (entry_pair <$> flush st).
  rewrite elem_of_prefixed, list_elem_of_fmap. split.
  - intros (en & [= -> ->] & [Hlv Hnn]%Hf). destruct (Value en) as [x|] eqn:Ex; [|done]. simpl.
    destruct (last_visible_elem _ _ _ _ Hlv) as ([[r v] y] & Hp & Hr). cbn in Hr. subst r.
    apply Hin in Hp as [_ Hp]. split; [by apply Hview|done].
  - intros [Hk Hp]. exists (mkEntry k (Some v)). split; [done|]. apply Hf. cbn.
    split; [by apply Hview|done].
Qed.

(** ** Writing *)

(** the newest version from [fromVersion] on decides the conflict *)
Lemma check_conflict_ok e s t r :
  Rep e s → txn_ok s t →
  let from := encode (versionedKey r (fromVersion t)) in
  let to := encode (versionedKey r max_uint64) ++ [x00] in
  let c := check_conflict t (engScanReverse (Some from) (Some to) e) in
  (conflict s t r ∧ c = Err (Errorf "storage: write conflict")) ∨ (¬ conflict s t r ∧ c = Ok ()).
Proof.
  intros [Hu Hrep Hwf] Ht. pose proof (txn_uint64 _ _ Hwf Ht) as H64.
  pose proof (wf_active _ Hwf _ (ok_active _ _ Ht)) as Hts. pose proof (wf_next _ Hwf) as Hn.
  assert (uint64 (ts_version t + 1) = ts_version t + 1) as Hwrap
    by (apply Z.mod_small; unfold max_uint64 in *; lia).
  destruct (fromVersion_range t) as [Hf1 Hf2].
  { intros a Ha%(ok_older _ _ Ht). lia. } rewrite Hwrap in Hf2.
  assert (in_uint64 (fromVersion t)) as Hf64 by (unfold in_uint64, max_uint64 in *; lia).
  set (from := encode _). set (to := _ ++ _). simpl.
  destruct (scan_triples (contents e) s (range (Some from) (Some to) (contents e))
    (λ r' v, r' = r ∧ fromVersion t ≤ v)) as (ts & Hl & Hs & Hin);
    [done|done|apply range_sorted| | |].
  { intros mk x Hmk. rewrite elem_of_range. subst from to.
    rewrite range_versions_from by done. naive_solver. }
  { intros b x Hb. by apply elem_of_range in Hb as [? _]. }
  pose proof (engScanReverse_ok e (Some from) (Some to) Hu) as Hy. rewrite Hl, <-map_rev in Hy.
  apply yields_triples in Hy as (es & -> & Hes).
  (* an invisible version is in the range *)
  assert (∀ v, is_Some (versions s !! (r, v)) → isVisible t v = false → ∃ x, (r, v, x) ∈ ts) as Hinv.
  { intros v [x Hx] [Ha|Ha]%isVisible_false; exists x; apply Hin; (split; [done|]);
      (split; [done|]); [by apply fromVersion_le|lia]. }
  destruct ts as [|[[r' v] x] ts _] using rev_ind.
  { inversion Hes; subst. right. split; [|done]. intros (v & Hv & Hvis).
    destruct (Hinv v Hv Hvis) as [x Hx]. set_solver. }
  rewrite rev_app_distr in Hes. inversion Hes as [|? en ? es' Hen Hes']; subst.
  destruct (proj1 (Hin r' v x)) as (Hx & -> & Hfv); [set_solver|].
  assert (in_uint64 v) as Hv64 by (eapply wf_uint64, (wf_versions _ Hwf r); [done|by eexists]).
  destruct (entry_for_decode _ _ _ _ Hv64 Hen) as [Hk _]. simpl. rewrite Hk.
  cbn [rbind versionedKey key_version].
  destruct (isVisible t v) eqn:Hv; simpl; [right|left]; (split; [|done]).
  - intros (w & Hw & Hwvis). destruct (Hinv w Hw Hwvis) as [y Hy].
    assert (w ≤ v) as Hle.
    { apply StronglySorted_app in Hs as (Hlt & _). apply elem_of_app in Hy as [Hy|Hy]; [|set_solver].
      destruct (Hlt (r, w, y) (r, v, x)) as [Hb|[_ ?]]; [done|set_solver| |cbn in *; lia].
      by apply blt_irrefl in Hb. }
    apply isVisible_false in Hwvis as [Ha|Ha].
    + pose proof (ok_newest _ _ Ht r w v Ha Hw (mk_is_Some _ _ Hx) Hv). lia.
    + apply isVisible_true in Hv as [_ ?]. lia.
  - exists v. split; [by exists x|done].
Qed.

(** the four outcomes of [write] *)
Lemma mark_Rep e e' s t r :
  Rep e s → txn_ok s t → usable e' →
  contents e' = <[encode (transactionWriteKey (ts_version t) r) := []]> (contents e) → Rep e' (aMark s t r).
Proof.
  intros [Hu Hrep Hwf] Ht Hu' Hc. pose proof (txn_uint64 _ _ Hwf Ht) as H64.
  split; [done| |by apply aMark_wf]. rewrite Hc.
  eapply (rep_insert _ s (aMark s t r)); [done|by apply key_wf_write| |].
  - unfold amap. cbn. by rewrite decide_True by set_solver.
  - intros [[] v r'] Hk Hne; try done. unfold amap. cbn. apply decide_ext.
    assert ((v, r') ≠ (ts_version t, r)) by (intros [= -> ->]; by apply Hne). set_solver.
Qed.

Lemma write_performs e s t r value (deleted : bool) :
  Rep e s → txn_ok s t → ¬ conflict s t r →
  let x := if deleted then None else Some value in
  fits (encode (transactionWriteKey (ts_version t) r)) None →
  fits (encode (versionedKey r (ts_version t))) (Some (enc_val x)) →
  performs e (write t r value deleted e) (λ e' _, Rep e' (aWrite s t r x))
    (λ e', Rep e' s ∨ Rep e' (aMark s t r)).
Proof.
  intros HR Ht Hc x Hf1 Hf2. pose proof HR as [Hu Hrep Hwf].
  pose proof (txn_uint64 _ _ Hwf Ht) as H64. unfold write.
  destruct (check_conflict_ok e s t r HR Ht) as [[? _]|[_ Hck]]; [done|]. eapply performs_read; [exact Hck|].
  eapply performs_bind.
  { apply performs_wrap. eapply performs_impl; [by apply set_performs|done|]. intros e' Hk. left. by eapply kept_Rep. }
  intros e1 [] [Hu1 Hc1]. pose proof (mark_Rep e e1 s t r HR Ht Hu1 Hc1) as HR1.
  assert ((if deleted then [x00] else x01 :: value) = enc_val x) as -> by by subst x; destruct deleted.
  apply performs_wrap. eapply performs_impl; [by apply set_performs| |].
  - intros e2 [] [Hu2 Hc2]. split; [done| |by apply aWrite_wf]. rewrite Hc2. eapply rep_insert.
    + apply HR1.
    + by apply key_wf_version.
    + unfold amap. cbn. by rewrite lookup_insert_eq.
    + intros [[] v r'] Hk Hne; try done. unfold amap. cbn.
      rewrite lookup_insert_ne; [done|]. intros [= <- <-]. by apply Hne.
  - intros e2 Hk. right. by eapply kept_Rep.
Qed.

Lemma write_ok e s t r value (deleted : bool) :
  Rep e s → steady e → txn_ok s t → ¬ conflict s t r →
  let x := if deleted then None else Some value in
  fits (encode (transactionWriteKey (ts_version t) r)) None →
  fits (encode (versionedKey r (ts_version t))) (Some (enc_val x)) →
  ∃ e', write t r value deleted e = (e', Ok ()) ∧ Rep e' (aWrite s t r x) ∧ steady e'.
Proof.
  intros HR He Ht Hc x Hf1 Hf2.
  destruct (performs_steady _ _ _ _ (write_performs e s t r value deleted HR Ht Hc Hf1 Hf2) He) as (e' & [] & Hw & ? & ?).
  by exists e'.
Qed.

Lemma write_conflict e s t r value (deleted : bool) :
  Rep e s → txn_ok s t → conflict s t r →
  write t r value deleted e = (e, Err (Errorf "storage: write conflict")).
Proof.
  intros HR Ht Hc. unfold write.
  destruct (check_conflict_ok e s t r HR Ht) as [[_ Hck]|[? _]]; [|done].
  unfold sbind, sread. by rewrite Hck.
Qed.

Lemma write_big e s t r value (deleted : bool) :
  Rep e s → txn_ok s t → ¬ conflict s t r →
  let x := if deleted then None else Some value in
  ¬ (fits (encode (transactionWriteKey (ts_version t) r)) None ∧
     fits (encode (versionedKey r (ts_version t))) (Some (enc_val x))) →
  ∃ e' msg err, write t r value deleted e = (e', Err (Wrapf msg err)) ∧
                (Rep e' s ∨ Rep e' (aMark s t r)) ∧ (steady e → steady e').
Proof.
  intros HR Ht Hc x Hf. pose proof HR as [Hu Hrep Hwf]. unfold write.
  destruct (check_conflict_ok e s t r HR Ht) as [[? _]|[_ Hck]]; [done|]. unfold sbind at 1, sread. rewrite Hck.
  assert ((if deleted then [x00] else x01 :: value) = enc_val x) as -> by by subst x; destruct deleted.
  unfold sbind, swrap. destruct (engSet_law e (encode (transactionWriteKey (ts_version t) r)) None Hu) as [Hst Hout].
  destruct (engSet _ None e) as [e1 [[]|err|p]]; [| |done]; cbn [fst rwrap] in *.
  - destruct Hout as (Hu1 & Hc1 & Hf1). pose proof (mark_Rep e e1 s t r HR Ht Hu1 Hc1) as HR1.
    destruct (engSet_law e1 (encode (versionedKey r (ts_version t))) (Some (enc_val x)) Hu1) as [Hst1 Hout].
    destruct (engSet _ _ e1) as [e2 [[]|err|p]]; [naive_solver| |done]. cbn [fst] in *.
    destruct Hout as (Hu2 & Hc2 & _). eexists e2, _, err. split; [done|]. split; [|auto]. right. by eapply kept_Rep.
  - destruct Hout as (Hu1 & Hc1 & _). eexists e1, _, err. split; [done|]. split; [|done]. left. by eapply kept_Rep.
Qed.

(** a write that fails, for whatever reason, changes nothing *)
Lemma write_harmless e s t r value (deleted : bool) :
  Rep e s → txn_ok s t →
  match write t r value deleted e with (e', Err _) => harmless s 0 e' | (_, Panic _) => False | _ => True end.
Proof.
  intros HR Ht.
  assert (∀ e', Rep e' s ∨ Rep e' (aMark s t r) → harmless s 0 e') as Hsame.
  { intros e' [?|?]; eexists; (split; [done|]); (split; [done|]); [lia|change (next (aMark s t r)) with (next s); lia]. }
  destruct (check_conflict_ok e s t r HR Ht) as [[Hc _]|[Hc _]].
  { rewrite (write_conflict e s) by done. apply Hsame. by left. }
  set (x := if deleted then None else Some value).
  destruct (decide (fits (encode (transactionWriteKey (ts_version t) r)) None ∧
    fits (encode (versionedKey r (ts_version t))) (Some (enc_val x)))) as [[Hf1 Hf2]|Hf].
  - destruct (write_performs e s t r value deleted HR Ht Hc Hf1 Hf2) as [_ Hout].
    destruct (write _ _ _ _ e) as [e' [u|err|p]]; [done| |done]. destruct Hout as [_ Hout]. by apply Hsame.
  - destruct (write_big e s t r value deleted HR Ht Hc Hf) as (e' & msg & err & -> & Hout & _). by apply Hsame.
Qed.

End ops.
