(* ===== verification/Snapshot.v ===== *)
(** * Snapshot isolation as an abstract machine

    The contract of the MVCC layer: a database, and for each open transaction
    the snapshot it took, the writes it buffers and the keys other
    transactions committed since.  [MvccSystem.v] proves that every run of the
    code is a run of this machine. *)

From stdpp Require Import fin_sets fin_map_dom.
From S2P Require Import Prelude Bytes Engine MvccKey Mvcc.

#[export] Instance transactionState_eq_dec : EqDecision transactionState.
Proof. solve_decision. Defined.

Record sitxn := mkSitxn {
  snap : gmap bytes bytes;
  wset : gmap bytes slice;
  dirty : gset bytes;
}.

(** [orphans]: keys written by transactions that were open in a crash *)
Record si := mkSi {
  db : gmap bytes bytes;
  txns : gmap version sitxn;
  orphans : gset bytes;
}.

Definition empty_si : si := mkSi ∅ ∅ ∅.

(** the writes over a database; [None] deletes *)
Definition apply_writes (w : gmap bytes slice) (m : gmap bytes bytes) : gmap bytes bytes :=
  merge (λ x y, match x with Some z => z | None => y end) w m.

(** what a transaction sees *)
Definition local (st : sitxn) : gmap bytes bytes := apply_writes (wset st) (snap st).

Definition held_by_other (p : si) (v : version) (k : bytes) : Prop :=
  ∃ u st, txns p !! u = Some st ∧ u ≠ v ∧ k ∈ dom (wset st).

Definition blocked (p : si) (v : version) (st : sitxn) (k : bytes) : Prop :=
  k ∈ dirty st ∨ held_by_other p v k ∨ k ∈ orphans p.

(** An operation of a transaction with its outcome. *)
Inductive event :=
  | EvBegin (t : transactionState)
  | EvWrite (t : transactionState) (k : bytes) (x : slice) (r : result unit)
  | EvGet (t : transactionState) (k : bytes) (r : result slice)
  | EvScan (t : transactionState) (prefix : bytes) (r : result (list Entry))
  | EvCommit (t : transactionState) (r : result unit)
  | EvRollback (t : transactionState) (r : result unit)
  | EvCrash.

Definition ErrWriteConflict : error := Errorf "storage: write conflict".

Definition set_dirty (ks : gset bytes) (st : sitxn) : sitxn :=
  mkSitxn (snap st) (wset st) (ks ∪ dirty st).

Section machine.
(** the writes the engine refuses because of their size *)
Context (too_big : transactionState → bytes → slice → Prop).

Inductive si_step (p : si) : event → si → Prop :=
  | si_begin t :
      txns p !! ts_version t = None →
      si_step p (EvBegin t)
        (mkSi (db p) (<[ts_version t := mkSitxn (db p) ∅ ∅]> (txns p)) (orphans p))
  | si_write t st k x :
      txns p !! ts_version t = Some st → ¬ blocked p (ts_version t) st k → ¬ too_big t k x →
      si_step p (EvWrite t k x (Ok ()))
        (mkSi (db p)
           (<[ts_version t := mkSitxn (snap st) (<[k := x]> (wset st)) (dirty st)]> (txns p))
           (orphans p))
  | si_conflict t st k x :
      txns p !! ts_version t = Some st → blocked p (ts_version t) st k →
      si_step p (EvWrite t k x (Err ErrWriteConflict)) p
  | si_refused t st k x msg err :
      txns p !! ts_version t = Some st → ¬ blocked p (ts_version t) st k → too_big t k x →
      si_step p (EvWrite t k x (Err (Wrapf msg err))) p
  | si_get t st k :
      txns p !! ts_version t = Some st →
      si_step p (EvGet t k (Ok (local st !! k))) p
  | si_scan t st prefix es :
      txns p !! ts_version t = Some st → map entry_pair es = prefixed prefix (local st) →
      si_step p (EvScan t prefix (Ok es)) p
  | si_commit t st :
      txns p !! ts_version t = Some st →
      si_step p (EvCommit t (Ok ()))
        (mkSi (apply_writes (wset st) (db p))
           (set_dirty (dom (wset st)) <$> delete (ts_version t) (txns p)) (orphans p))
  | si_rollback t st :
      txns p !! ts_version t = Some st →
      si_step p (EvRollback t (Ok ())) (mkSi (db p) (delete (ts_version t) (txns p)) (orphans p))
  | si_crash ks :
      (∀ k, k ∈ ks ↔ ∃ u st, txns p !! u = Some st ∧ k ∈ dom (wset st)) →
      si_step p EvCrash (mkSi (db p) ∅ (ks ∪ orphans p)).

Inductive si_run : si → list event → si → Prop :=
  | si_run_nil p : si_run p [] p
  | si_run_snoc p evs p1 ev p2 :
      si_run p evs p1 → si_step p1 ev p2 → si_run p (evs ++ [ev]) p2.

End machine.

Lemma lookup_apply_writes w m k :
  apply_writes w m !! k = match w !! k with Some x => x | None => m !! k end.
Proof. unfold apply_writes. rewrite lookup_merge. by destruct (w !! k), (m !! k). Qed.

Lemma apply_writes_insert k x w m :
  apply_writes (<[k := x]> w) m =
    match x with Some v => <[k := v]> (apply_writes w m) | None => delete k (apply_writes w m) end.
Proof.
  apply map_eq. intros j. rewrite lookup_apply_writes.
  destruct (decide (j = k)) as [->|Hne].
  - rewrite lookup_insert_eq. destruct x; by simplify_map_eq.
  - rewrite lookup_insert_ne by done. rewrite <-lookup_apply_writes.
    destruct x; by simplify_map_eq.
Qed.

Lemma apply_writes_empty m : apply_writes ∅ m = m.
Proof. apply map_eq. intros k. by rewrite lookup_apply_writes, lookup_empty. Qed.

(** ** What the machine guarantees *)

(** the events that change what the transaction [v] sees *)
Definition disturbs (v : version) (ev : event) : Prop :=
  match ev with
  | EvWrite t _ _ _ | EvCommit t _ | EvRollback t _ => ts_version t = v
  | EvCrash => True
  | _ => False
  end.

(** the events that end the transaction [v] *)
Definition ends (v : version) (ev : event) : Prop :=
  match ev with
  | EvCommit t _ | EvRollback t _ => ts_version t = v
  | EvCrash => True
  | _ => False
  end.

Section guarantees.
Context (too_big : transactionState → bytes → slice → Prop).
Notation step := (si_step too_big).
Notation run := (si_run too_big).

Lemma si_run_inv (P : si → Prop) (Q : event → Prop) p evs p' :
  (∀ p1 ev p2, P p1 → Q ev → step p1 ev p2 → P p2) →
  P p → Forall Q evs → run p evs p' → P p'.
Proof.
  intros Hstep Hp Hq Hrun. induction Hrun as [|p evs p1 ev p2 _ IH Hs]; [done|].
  apply Forall_app in Hq as [Hq [Hev _]%Forall_cons]. eapply Hstep; [by apply IH|done|done].
Qed.

Lemma step_snapshot p ev p' v st :
  step p ev p' → txns p !! v = Some st → ¬ disturbs v ev →
  ∃ st', txns p' !! v = Some st' ∧ local st' = local st.
Proof.
  intros Hs Hv Hd. destruct Hs; cbn in *; try by eauto.
  - exists st. rewrite lookup_insert_ne; [done|]. congruence.
  - exists st. by rewrite lookup_insert_ne.
  - eexists. by rewrite lookup_fmap, lookup_delete_ne, Hv.
  - exists st. by rewrite lookup_delete_ne.
Qed.

(** what blocks the transaction [u] on [k]: [t] holds it, or somebody
    committed it since [u] began *)
Definition claimed (t u : version) (k : bytes) (p : si) : Prop :=
  ∃ stu, txns p !! u = Some stu ∧
    (k ∈ dirty stu ∨ ∃ stt, txns p !! t = Some stt ∧ k ∈ dom (wset stt)).

Lemma step_claimed t u k p ev p' :
  t ≠ u → claimed t u k p → ¬ ends u ev → (∀ x r, ts_version x = t → ev ≠ EvRollback x r) →
  step p ev p' → claimed t u k p'.
Proof.
  intros Hne (stu & Hu & Hk) He Hr Hs. destruct Hs as [x Hx|x st k' y Hx Hb Hf| | | | |x st Hx|x st Hx|];
    cbn in *; try by (exists stu).
  all: unfold claimed; cbn.
  - exists stu. rewrite lookup_insert_ne by congruence. split; [done|].
    destruct Hk as [?|(stt & ? & ?)]; [by left|right]. exists stt.
    rewrite lookup_insert_ne by congruence. done.
  - destruct (decide (ts_version x = u)) as [<-|Hxu].
    + rewrite Hx in Hu. injection Hu as ->. eexists. split; [apply lookup_insert_eq|]. cbn.
      destruct Hk as [?|(stt & ? & ?)]; [by left|right]. exists stt.
      by rewrite lookup_insert_ne.
    + exists stu. rewrite lookup_insert_ne by done. split; [done|].
      destruct Hk as [?|(stt & Ht & Hkt)]; [by left|right].
      destruct (decide (ts_version x = t)) as [<-|Hxt].
      * rewrite Hx in Ht. injection Ht as ->. eexists. split; [apply lookup_insert_eq|]. cbn.
        rewrite dom_insert. set_solver.
      * exists stt. by rewrite lookup_insert_ne.
  - eexists. rewrite lookup_fmap, lookup_delete_ne, Hu by done. split; [done|]. cbn.
    destruct Hk as [?|(stt & Ht & Hkt)]; [left; set_solver|].
    destruct (decide (ts_version x = t)) as [<-|Hxt]; [left|right].
    + rewrite Hx in Ht. injection Ht as ->. set_solver.
    + eexists. by rewrite lookup_fmap, lookup_delete_ne, Ht.
  - exists stu. rewrite lookup_delete_ne by done. split; [done|].
    destruct Hk as [?|(stt & Ht & Hkt)]; [by left|right]. exists stt.
    rewrite lookup_delete_ne; [done|]. intros Hxt. by eapply Hr.
Qed.

Lemma claimed_blocked t u k p stu :
  t ≠ u → claimed t u k p → txns p !! u = Some stu → blocked p u stu k.
Proof.
  intros Hne (st & Hu & Hk) Hst. rewrite Hst in Hu. injection Hu as <-.
  destruct Hk as [?|(stt & ? & ?)]; [by left|right; left]. by exists t, stt.
Qed.

(** keys of crashed transactions stay blocked *)
Lemma step_orphans p ev p' k : step p ev p' → k ∈ orphans p → k ∈ orphans p'.
Proof. destruct 1; cbn; try done. set_solver. Qed.

End guarantees.
