(* ===== verification/MvccSystem.v ===== *)
(** * Every run of the MVCC code is a run of the snapshot-isolation machine

    The operations hold the mutex of the engine, so concurrent transactions
    are interleavings of whole operations: [sys_step]. *)

From stdpp Require Import fin_sets fin_map_dom.
From S2P Require Import Prelude Bytes Engine MvccKey Mvcc MvccSpec MvccRefine MvccOps MvccReads Snapshot.

Section system.
Context {E : Type} `{EngineLaws E}.
Implicit Types (e : E) (s : mstate) (t : transactionState) (p : si).

(** the engine and the transactions handed out and not ended *)
Record sys := mkSys { sys_engine : E; sys_open : list transactionState }.

Inductive sys_step : sys → event → sys → Prop :=
  | step_begin e e' ts t :
      Begin e = (e', Ok t) → ts_version t < max_uint64 →
      sys_step (mkSys e ts) (EvBegin t) (mkSys e' (t :: ts))
  | step_set e e' ts t k v r :
      t ∈ ts → Set_ t k v e = (e', r) →
      sys_step (mkSys e ts) (EvWrite t k (Some v) r) (mkSys e' ts)
  | step_delete e e' ts t k r :
      t ∈ ts → Delete t k e = (e', r) →
      sys_step (mkSys e ts) (EvWrite t k None r) (mkSys e' ts)
  | step_get e ts t k r :
      t ∈ ts → Get t k e = r → sys_step (mkSys e ts) (EvGet t k r) (mkSys e ts)
  | step_scan e ts t prefix r :
      t ∈ ts → ScanPrefix t prefix e = r →
      sys_step (mkSys e ts) (EvScan t prefix r) (mkSys e ts)
  | step_commit e e' ts t r :
      t ∈ ts → Commit t e = (e', r) →
      sys_step (mkSys e ts) (EvCommit t r) (mkSys e' (filter (λ u, u ≠ t) ts))
  | step_rollback e e' ts t r :
      t ∈ ts → Rollback t e = (e', r) →
      sys_step (mkSys e ts) (EvRollback t r) (mkSys e' (filter (λ u, u ≠ t) ts))
  | step_crash e ts : sys_step (mkSys e ts) EvCrash (mkSys e []).

Inductive sys_run : sys → list event → sys → Prop :=
  | sys_run_nil c : sys_run c [] c
  | sys_run_snoc c evs c1 ev c2 :
      sys_run c evs c1 → sys_step c1 ev c2 → sys_run c (evs ++ [ev]) c2.

(** a database that holds nothing, on an engine that does not fail *)
Definition fresh (c : sys) : Prop :=
  usable (sys_engine c) ∧ steady (sys_engine c) ∧ contents (sys_engine c) = ∅ ∧ sys_open c = [].

Definition too_big t (k : bytes) (x : slice) : Prop :=
  ¬ (fits (encode (transactionWriteKey (ts_version t) k)) None ∧
     fits (encode (versionedKey k (ts_version t))) (Some (enc_val x))).

(** ** The simulation relation *)

Definition wrote s (v : version) (k : bytes) : Prop := is_Some (versions s !! (k, v)).

Record sim_txn s t (st : sitxn) : Prop := {
  sim_view : txn_view s t = local st;
  sim_wset k : wset st !! k = versions s !! (k, ts_version t);
  sim_dirty k : k ∈ dirty st ↔ ∃ v, wrote s v k ∧ isVisible t v = false ∧ v ∉ active s;
}.

Record sim s (c : sys) p : Prop := {
  sim_rep : Rep (sys_engine c) s;
  sim_steady : steady (sys_engine c);
  sim_ok t : t ∈ sys_open c → txn_ok s t;
  sim_inj t u : t ∈ sys_open c → u ∈ sys_open c → ts_version t = ts_version u → t = u;
  sim_db : committed s = db p;
  sim_txns t : t ∈ sys_open c → ∃ st, txns p !! ts_version t = Some st ∧ sim_txn s t st;
  sim_dom v st : txns p !! v = Some st → ∃ t, t ∈ sys_open c ∧ ts_version t = v;
  sim_orphans k :
    k ∈ orphans p ↔ ∃ v, v ∈ active s ∧ wrote s v k ∧
                       ∀ t, t ∈ sys_open c → ts_version t ≠ v;
}.

Lemma fresh_sim c : fresh c → sim empty_mstate c empty_si.
Proof.
  intros (Hu & Hst & Hc & Ho). split; rewrite ?Ho; try set_solver.
  split; [done|rewrite Hc; apply rep_empty|apply wf_empty].
Qed.

Lemma sim_txn_of s c p t st :
  sim s c p → t ∈ sys_open c → txns p !! ts_version t = Some st → sim_txn s t st.
Proof. intros Hs Ht Hst. destruct (sim_txns _ _ _ Hs t Ht) as (st' & Hst' & Hsim). congruence. Qed.

Lemma sim_held s c p v k :
  sim s c p → (held_by_other p v k ↔
    ∃ u, u ∈ sys_open c ∧ ts_version u ≠ v ∧ wrote s (ts_version u) k).
Proof.
  intros Hs. split.
  - intros (w & st & Hst & Hne & Hk). destruct (sim_dom _ _ _ Hs _ _ Hst) as (u & Hu & <-).
    exists u. split; [done|]. split; [done|].
    apply elem_of_dom in Hk. unfold wrote. by rewrite <-(sim_wset _ _ _ (sim_txn_of _ _ _ _ _ Hs Hu Hst)).
  - intros (u & Hu & Hne & Hw). destruct (sim_txns _ _ _ Hs u Hu) as (st & Hst & Hsim).
    exists (ts_version u), st. split; [done|]. split; [done|].
    apply elem_of_dom. by rewrite (sim_wset _ _ _ Hsim).
Qed.

(** the conflict the code detects is the one the machine specifies *)
Lemma conflict_blocked s c p t st k :
  sim s c p → t ∈ sys_open c → txns p !! ts_version t = Some st →
  conflict s t k ↔ blocked p (ts_version t) st k.
Proof.
  intros Hs Ht Hst. pose proof (sim_txn_of _ _ _ _ _ Hs Ht Hst) as Hsim.
  pose proof (sim_ok _ _ _ Hs t Ht) as Hok.
  unfold blocked. rewrite (sim_dirty _ _ _ Hsim), (sim_held _ _ _ _ _ Hs), (sim_orphans _ _ _ Hs).
  split.
  - intros (v & Hv & Hvis). destruct (decide (v ∈ active s)) as [Ha|Ha]; [right|left; by exists v].
    destruct (decide (Exists (λ u, ts_version u = v) (sys_open c))) as [He|He].
    + apply Exists_exists in He as (u & Hu & <-). left. exists u. split; [done|]. split; [|done].
      intros Heq. rewrite Heq in Hvis. by rewrite (isVisible_self s t Hok) in Hvis.
    + right. exists v. split; [done|]. split; [done|]. intros u Hu Hv'.
      apply He, Exists_exists. by exists u.
  - intros [(v & Hv & Hvis & _)|[(u & Hu & Hne & Hw)|(v & Ha & Hw & Hno)]].
    + by exists v.
    + exists (ts_version u). split; [done|]. apply (isVisible_active s); [done| |done].
      apply (ok_active _ _ (sim_ok _ _ _ Hs u Hu)).
    + exists v. split; [done|]. apply (isVisible_active s); [done|done|].
      intros ->. by apply (Hno t).
Qed.

(** ** The steps of the simulation *)

Lemma sim_begin s c p e' :
  sim s c p → next s < max_uint64 → Rep e' (aBegin s).1 → steady e' →
  let t := (aBegin s).2 in
  txns p !! ts_version t = None ∧
  sim (aBegin s).1 (mkSys e' (t :: sys_open c))
    (mkSi (db p) (<[ts_version t := mkSitxn (db p) ∅ ∅]> (txns p)) (orphans p)).
Proof.
  intros Hs Hn HR He' t. pose proof (Rep_wf _ _ (sim_rep _ _ _ Hs)) as Hwf.
  assert (∀ u, u ∈ sys_open c → ts_version u < next s) as Hlt.
  { intros u Hu. by apply (wf_active _ Hwf), ok_active, (sim_ok _ _ _ Hs). }
  assert (∀ k, versions s !! (k, next s) = None) as Hnone.
  { intros k. destruct (versions s !! _) eqn:Hk; [|done].
    pose proof (wf_versions _ Hwf _ _ (mk_is_Some _ _ Hk)). lia. }
  assert (txns p !! ts_version t = None) as Hfresh.
  { destruct (txns p !! _) as [st|] eqn:Hst; [|done].
    destruct (sim_dom _ _ _ Hs _ _ Hst) as (u & Hu & Hv). apply Hlt in Hu. cbn in Hv. lia. }
  split; [done|]. destruct (aBegin_wf s Hwf Hn) as [Hwf' Hok].
  split; cbn -[aBegin committed]; try done.
  - intros u [->|Hu]%elem_of_cons; [done|]. by apply aBegin_other, (sim_ok _ _ _ Hs).
  - intros u w [->|Hu]%elem_of_cons [->|Hw]%elem_of_cons; cbn; try done.
    + apply Hlt in Hw. lia. + apply Hlt in Hu. lia. + by apply (sim_inj _ _ _ Hs).
  - rewrite aBegin_committed by done. apply Hs.
  - intros u [->|Hu]%elem_of_cons.
    + eexists. split; [apply lookup_insert_eq|]. split.
      * rewrite aBegin_view by done. unfold local. cbn. rewrite apply_writes_empty. apply Hs.
      * intros k. cbn. by rewrite Hnone, lookup_empty.
      * intros k. split; [set_solver|]. intros (v & Hv & [Ha|Ha]%isVisible_false & Hna); cbn in *.
        -- set_solver. -- apply (wf_versions _ Hwf) in Hv. lia.
    + destruct (sim_txns _ _ _ Hs u Hu) as (st & Hst & Hsim). exists st. split.
      * rewrite lookup_insert_ne; [done|]. apply Hlt in Hu. cbn. lia.
      * split; [apply Hsim|apply Hsim|]. intros k. rewrite (sim_dirty _ _ _ Hsim).
        split; intros (v & Hv & Hvis & Ha); exists v; (split; [done|]); (split; [done|]); cbn in *; [|set_solver].
        apply (wf_versions _ Hwf) in Hv. rewrite elem_of_union, elem_of_singleton. intros [?|?]; [lia|done].
  - intros v st. rewrite lookup_insert_Some. intros [[<- _]|[_ Hst]].
    + exists t. set_solver.
    + destruct (sim_dom _ _ _ Hs _ _ Hst) as (u & Hu & ?). exists u. set_solver.
  - intros k. rewrite (sim_orphans _ _ _ Hs). split; intros (v & Ha & Hw & Hno); exists v.
    + split; [set_solver|]. split; [done|]. intros u [->|Hu]%elem_of_cons; [|by apply Hno].
      cbn. apply (wf_versions _ Hwf) in Hw. lia.
    + unfold wrote in *. cbn in *. apply elem_of_union in Ha as [->%elem_of_singleton|Ha].
      * apply (wf_versions _ Hwf) in Hw. lia.
      * split; [done|]. split; [done|]. intros u Hu. apply Hno. set_solver.
Qed.

Lemma sim_mark s c p t k e' :
  sim s c p → Rep e' (aMark s t k) → steady e' → sim (aMark s t k) (mkSys e' (sys_open c)) p.
Proof.
  intros Hs HR He'. split; try apply Hs; try done.
  - intros u Hu. by apply aMark_ok, (sim_ok _ _ _ Hs).
  - intros u Hu. destruct (sim_txns _ _ _ Hs u Hu) as (st & Hst & [? ? ?]). exists st.
    split; [done|]. by split.
Qed.

Lemma sim_same s c p e' : sim s c p → Rep e' s → steady e' → sim s (mkSys e' (sys_open c)) p.
Proof. intros [] ? ?. by split. Qed.

Lemma sim_write s c p t st k x e' :
  sim s c p → t ∈ sys_open c → txns p !! ts_version t = Some st → ¬ conflict s t k →
  Rep e' (aWrite s t k x) → steady e' →
  sim (aWrite s t k x) (mkSys e' (sys_open c))
    (mkSi (db p) (<[ts_version t := mkSitxn (snap st) (<[k := x]> (wset st)) (dirty st)]> (txns p))
       (orphans p)).
Proof.
  intros Hs Ht Hst Hc HR He'. pose proof (sim_ok _ _ _ Hs t Ht) as Hok.
  pose proof (sim_txn_of _ _ _ _ _ Hs Ht Hst) as Hsim.
  assert (∀ v k', wrote (aWrite s t k x) v k' → v ≠ ts_version t → wrote s v k') as Hold.
  { intros v k' [[_ ?]|?]%aWrite_versions ?; done. }
  assert (∀ v k', wrote s v k' → wrote (aWrite s t k x) v k') as Hnew.
  { intros v k' Hw. unfold wrote. cbn. apply lookup_insert_is_Some'. by right. }
  assert (∀ u st', sim_txn s u st' → ∀ k', k' ∈ dirty st' ↔
    ∃ v, wrote (aWrite s t k x) v k' ∧ isVisible u v = false ∧ v ∉ active s) as Hdirty.
  { intros u st' Hu k'. rewrite (sim_dirty _ _ _ Hu).
    split; intros (v & Hv & Hvis & Ha); exists v; (split; [|done]); [by apply Hnew|].
    apply Hold; [done|]. intros ->. by apply Ha, ok_active. }
  split; cbn -[aWrite committed]; try done.
  - intros u Hu. apply aWrite_ok; try done; [by apply (sim_ok _ _ _ Hs)|].
    by apply (sim_inj _ _ _ Hs).
  - apply Hs.
  - rewrite aWrite_committed by done. apply Hs.
  - intros u Hu. destruct (decide (ts_version u = ts_version t)) as [Heq|Hne].
    + apply (sim_inj _ _ _ Hs) in Heq as ->; [|done..].
      eexists. split; [apply lookup_insert_eq|]. split; cbn -[txn_view aWrite].
      * rewrite aWrite_view_self, (sim_view _ _ _ Hsim) by done. unfold local. cbn.
        by rewrite apply_writes_insert.
      * intros k'. cbn. rewrite !lookup_insert. rewrite (sim_wset _ _ _ Hsim).
        repeat case_decide; naive_solver.
      * by apply Hdirty.
    + destruct (sim_txns _ _ _ Hs u Hu) as (st' & Hst' & Hsim'). exists st'.
      split; [by rewrite lookup_insert_ne|]. split; cbn -[txn_view aWrite].
      * rewrite aWrite_view_other; [by apply Hsim'|done|by apply (sim_ok _ _ _ Hs)|done].
      * intros k'. cbn. rewrite lookup_insert_ne by congruence. apply Hsim'.
      * by apply Hdirty.
  - intros v st'. rewrite lookup_insert_Some. intros [[<- _]|[_ ?]]; [by exists t|].
    by eapply (sim_dom _ _ _ Hs).
  - intros k'. rewrite (sim_orphans _ _ _ Hs). split; intros (v & Ha & Hw & Hno); exists v.
    + split; [done|]. split; [by apply Hnew|done].
    + split; [done|]. split; [|done]. apply Hold; [done|]. intros ->. by apply (Hno t).
Qed.

Lemma open_filter t u (ts : list transactionState) :
  u ∈ filter (λ u, u ≠ t) ts ↔ u ∈ ts ∧ u ≠ t.
Proof. rewrite list_elem_of_filter. tauto. Qed.

(** the bookkeeping of ending a transaction, common to both ways of ending *)
Lemma end_orphans s c p t vs w k :
  sim s c p → t ∈ sys_open c →
  (∀ v, v ≠ ts_version t → is_Some (vs !! (k, v)) ↔ wrote s v k) →
  let s' := mkMstate (stored s) (active s ∖ {[ts_version t]}) w vs in
  k ∈ orphans p ↔ ∃ v, v ∈ active s' ∧ wrote s' v k ∧
    ∀ u, u ∈ filter (λ u, u ≠ t) (sys_open c) → ts_version u ≠ v.
Proof.
  intros Hs Ht Hvs. cbn. rewrite (sim_orphans _ _ _ Hs). unfold wrote at 2. cbn.
  split; intros (v & Ha & Hw & Hno); exists v.
  - assert (v ≠ ts_version t) as Hne by (intros ->; by apply (Hno t)).
    split; [set_solver|]. split; [by apply Hvs|]. intros u [Hu _]%open_filter. by apply Hno.
  - apply elem_of_difference in Ha as [Ha Hne]. rewrite elem_of_singleton in Hne.
    split; [done|]. split; [by apply Hvs|]. intros u Hu <-.
    apply (Hno u); [|done]. apply open_filter. split; [done|]. by intros ->.
Qed.

Lemma end_dom s c p t v st :
  sim s c p → delete (ts_version t) (txns p) !! v = Some st →
  ∃ u, u ∈ filter (λ u, u ≠ t) (sys_open c) ∧ ts_version u = v.
Proof.
  intros Hs. rewrite lookup_delete_Some. intros [Hne Hst].
  destruct (sim_dom _ _ _ Hs _ _ Hst) as (u & Hu & <-). exists u. split; [|done].
  apply open_filter. split; [done|]. by intros ->.
Qed.

Lemma end_txns s c p t u :
  sim s c p → t ∈ sys_open c → u ∈ filter (λ u, u ≠ t) (sys_open c) →
  u ∈ sys_open c ∧ ts_version t ≠ ts_version u ∧
  ∃ st, delete (ts_version t) (txns p) !! ts_version u = Some st ∧ sim_txn s u st.
Proof.
  intros Hs Ht [Hu Hne]%open_filter.
  assert (ts_version t ≠ ts_version u) as Hv by (intros ?; apply Hne; by apply (sim_inj _ _ _ Hs)).
  split; [done|]. split; [done|]. destruct (sim_txns _ _ _ Hs u Hu) as (st & Hst & Hsim).
  exists st. by rewrite lookup_delete_ne.
Qed.

(** the write sets of the others *)
Lemma other_writes s t u :
  ts_version t ≠ ts_version u →
  ∀ r, (ts_version u, r) ∈ writes s → (ts_version u, r) ∈ filter (λ q, q.1 ≠ ts_version t) (writes s).
Proof. intros Hne r Hr. apply elem_of_filter. cbn. split; [congruence|done]. Qed.

Lemma sim_commit s c p t st e' :
  sim s c p → t ∈ sys_open c → txns p !! ts_version t = Some st → Rep e' (aCommit s t) → steady e' →
  sim (aCommit s t) (mkSys e' (filter (λ u, u ≠ t) (sys_open c)))
    (mkSi (apply_writes (wset st) (db p))
       (set_dirty (dom (wset st)) <$> delete (ts_version t) (txns p)) (orphans p)).
Proof.
  intros Hs Ht Hst HR He'. pose proof (sim_ok _ _ _ Hs t Ht) as Hok.
  pose proof (Rep_wf _ _ (sim_rep _ _ _ Hs)) as Hwf.
  pose proof (sim_txn_of _ _ _ _ _ Hs Ht Hst) as Hsim.
  split; cbn -[committed aCommit]; try done.
  - intros u Hu. destruct (end_txns _ _ _ _ _ Hs Ht Hu) as (Huo & Hne & _).
    eapply (end_ok s t u); try done; [by apply (sim_ok _ _ _ Hs)|by apply other_writes].
  - intros u w [Hu _]%open_filter [Hw _]%open_filter. by apply (sim_inj _ _ _ Hs).
  - apply map_eq. intros k. rewrite aCommit_committed, lookup_apply_writes by done.
    rewrite (sim_db _ _ _ Hs), (sim_wset _ _ _ Hsim). rewrite (sim_view _ _ _ Hsim).
    unfold local. rewrite lookup_apply_writes, (sim_wset _ _ _ Hsim).
    destruct (versions s !! (k, ts_version t)) as [x|] eqn:Hx; case_decide as Hd; try done.
    destruct Hd. by eexists.
  - intros u Hu. destruct (end_txns _ _ _ _ _ Hs Ht Hu) as (Huo & Hne & st' & Hst' & Hsim').
    eexists. split; [by rewrite lookup_fmap, Hst'|]. split; [by apply Hsim'|by apply Hsim'|].
    intros k. cbn. rewrite elem_of_union, (sim_dirty _ _ _ Hsim'), elem_of_dom, (sim_wset _ _ _ Hsim).
    split.
    + intros [Hw|(v & Hw & Hvis & Ha)]; [exists (ts_version t)|exists v].
      * split; [done|]. split; [|set_solver]. apply (isVisible_active s); [|by apply Hok|done].
        by apply (sim_ok _ _ _ Hs).
      * split; [done|]. split; [done|set_solver].
    + intros (v & Hw & Hvis & Ha). destruct (decide (v = ts_version t)) as [->|Hv]; [by left|].
      right. exists v. split; [done|]. split; [done|set_solver].
  - intros v st'. rewrite lookup_fmap, fmap_Some. intros (st'' & Hst'' & _). by eapply end_dom.
  - intros k. by apply (end_orphans s c p t (versions s)).
Qed.

Lemma sim_rollback s c p t st e' :
  sim s c p → t ∈ sys_open c → txns p !! ts_version t = Some st → Rep e' (aRollback s t) → steady e' →
  sim (aRollback s t) (mkSys e' (filter (λ u, u ≠ t) (sys_open c)))
    (mkSi (db p) (delete (ts_version t) (txns p)) (orphans p)).
Proof.
  intros Hs Ht Hst HR He'. pose proof (sim_ok _ _ _ Hs t Ht) as Hok.
  pose proof (Rep_wf _ _ (sim_rep _ _ _ Hs)) as Hwf.
  assert (∀ k v, v ≠ ts_version t → versions (aRollback s t) !! (k, v) = versions s !! (k, v)) as Hvs.
  { intros k v Hne. rewrite aRollback_versions by done. by rewrite decide_False. }
  assert (∀ k, versions (aRollback s t) !! (k, ts_version t) = None) as Hgone.
  { intros k. rewrite aRollback_versions by done. by rewrite decide_True. }
  split; cbn -[committed aRollback]; try done.
  - intros u Hu. destruct (end_txns _ _ _ _ _ Hs Ht Hu) as (Huo & Hne & _).
    eapply (end_ok s t u); try done; [by apply (sim_ok _ _ _ Hs)|by apply other_writes|].
    intros k v. destruct (decide (v = ts_version t)) as [->|Hv]; [|by rewrite <-(Hvs k v)].
    intros Hw. fold (aRollback s t) in *. pose proof (Hgone k) as Hg. cbn in Hg. rewrite Hg in Hw. by destruct Hw.
  - intros u w [Hu _]%open_filter [Hw _]%open_filter. by apply (sim_inj _ _ _ Hs).
  - rewrite aRollback_committed by done. apply Hs.
  - intros u Hu. destruct (end_txns _ _ _ _ _ Hs Ht Hu) as (Huo & Hne & st' & Hst' & Hsim').
    exists st'. split; [done|]. split; cbn -[aRollback txn_view].
    + rewrite aRollback_view_other; [by apply Hsim'|done|done|by apply (sim_ok _ _ _ Hs)|done].
    + intros k. rewrite Hvs by done. apply Hsim'.
    + intros k. rewrite (sim_dirty _ _ _ Hsim').
      split; intros (v & Hw & Hvis & Ha); exists v; unfold wrote in *.
      * assert (v ≠ ts_version t) by (intros ->; by apply Ha, ok_active).
        rewrite Hvs by done. cbn. split; [done|]. split; [done|set_solver].
      * destruct (decide (v = ts_version t)) as [->|Hv].
        { rewrite Hgone in Hw. by destruct Hw. }
        rewrite Hvs in Hw by done. cbn in Ha. split; [done|]. split; [done|set_solver].
  - intros v st'. apply (end_dom s c p). done.
  - intros k. apply (end_orphans s c p t); [done|done|]. intros v Hv. unfold wrote.
    by rewrite <-(Hvs k v).
Qed.

Lemma sim_crash s c p :
  sim s c p →
  ∃ p', si_step too_big p EvCrash p' ∧ sim s (mkSys (sys_engine c) []) p'.
Proof.
  intros Hs.
  set (held := ⋃ ((λ vst, dom (wset vst.2)) <$> map_to_list (txns p)) : gset bytes).
  assert (∀ k, k ∈ held ↔ ∃ u st, txns p !! u = Some st ∧ k ∈ dom (wset st)) as Hheld.
  { intros k. subst held. rewrite elem_of_union_list. setoid_rewrite list_elem_of_fmap. split.
    - intros (X & ([u st] & -> & Hin%elem_of_map_to_list) & Hk). eauto.
    - intros (u & st & Hst & Hk). exists (dom (wset st)). split; [|done].
      exists (u, st). split; [done|]. by apply elem_of_map_to_list. }
  eexists. split; [by apply si_crash|]. split; cbn; try set_solver; try apply Hs.
  intros k. rewrite elem_of_union, Hheld, (sim_orphans _ _ _ Hs). split.
  - intros [(u & st & Hst & Hk)|(v & Ha & Hw & _)].
    + destruct (sim_dom _ _ _ Hs _ _ Hst) as (t & Ht & <-). exists (ts_version t).
      split; [by apply ok_active, (sim_ok _ _ _ Hs)|]. split; [|set_solver].
      apply elem_of_dom in Hk. unfold wrote.
      by rewrite <-(sim_wset _ _ _ (sim_txn_of _ _ _ _ _ Hs Ht Hst)).
    + exists v. set_solver.
  - intros (v & Ha & Hw & _).
    destruct (decide (Exists (λ u, ts_version u = v) (sys_open c))) as [He|He].
    + left. apply Exists_exists in He as (t & Ht & <-).
      destruct (sim_txns _ _ _ Hs t Ht) as (st & Hst & Hsim). exists (ts_version t), st.
      split; [done|]. apply elem_of_dom. by rewrite (sim_wset _ _ _ Hsim).
    + right. exists v. split; [done|]. split; [done|]. intros t Ht Hv.
      apply He, Exists_exists. by exists t.
Qed.

(** ** One step, and a whole run *)

Lemma Begin_version e s e' t : Rep e s → Begin e = (e', Ok t) → ts_version t = next s.
Proof.
  intros HR HB. pose proof (wf_next _ (Rep_wf _ _ HR)) as Hn.
  unfold Begin in HB. inv_ok.
  match goal with H : engGet _ _ = _ |- _ => rewrite (Get_next_version _ _ HR) in H; inv_ok end.
  unfold next in *. destruct (stored s) as [v|]; cbn [default ts_version fmap option_fmap option_map id] in *; inv_ok; [|done].
  unfold encodeVersion. apply be_get_put8. unfold in_uint64, max_uint64 in *. lia.
Qed.

Lemma write_sim s e ts p t k x e' r :
  sim s (mkSys e ts) p → t ∈ ts → write t k (sbytes x) (bool_decide (x = None)) e = (e', r) →
  ∃ s' p', si_step too_big p (EvWrite t k x r) p' ∧ sim s' (mkSys e' ts) p' ∧ next s' = next s.
Proof.
  intros Hs Ht Hw. pose proof (sim_rep _ _ _ Hs) as HR. pose proof (sim_steady _ _ _ Hs) as He.
  pose proof (sim_ok _ _ _ Hs t Ht) as Hok.
  assert ((if bool_decide (x = None) then None else Some (sbytes x)) = x) as Hx by by destruct x.
  destruct (sim_txns _ _ _ Hs t Ht) as (st & Hst & Hsim).
  pose proof (conflict_blocked _ _ _ _ _ k Hs Ht Hst) as Hcb. cbn [sys_engine] in HR, He.
  destruct (check_conflict_ok e s t k HR Hok) as [[Hc _]|[Hc _]].
  - rewrite (write_conflict e s) in Hw by done. injection Hw as <- <-.
    exists s, p. split; [|by split]. eapply si_conflict; [done|]. by apply Hcb.
  - destruct (decide (fits (encode (transactionWriteKey (ts_version t) k)) None ∧
      fits (encode (versionedKey k (ts_version t))) (Some (enc_val x)))) as [Hf|Hf].
    + destruct (write_ok e s t k (sbytes x) (bool_decide (x = None)) HR He Hok Hc) as (e1 & He1 & HR1 & Hs1);
        [apply Hf|rewrite Hx; apply Hf|].
      rewrite Hx in HR1. rewrite He1 in Hw. injection Hw as <- <-. eexists _, _.
      split; [|split; [by eapply (sim_write s (mkSys e ts) p t st k x e1)|done]].
      apply si_write; [done|by rewrite <-Hcb|]. intros Hb. by apply Hb.
    + destruct (write_big e s t k (sbytes x) (bool_decide (x = None)) HR Hok Hc)
        as (e1 & msg & err & He1 & HR1 & Hs1); [by rewrite Hx|]. specialize (Hs1 He).
      rewrite He1 in Hw. injection Hw as <- <-.
      destruct HR1 as [HR1|HR1]; eexists _, p; (split; [by eapply si_refused; [done|rewrite <-Hcb|]|]).
      * by split; [by apply (sim_same s (mkSys e ts))|].
      * by split; [by apply (sim_mark s (mkSys e ts))|].
Qed.

Lemma step_sim s c p ev c' :
  sim s c p → sys_step c ev c' →
  ∃ s' p', si_step too_big p ev p' ∧ sim s' c' p' ∧
    next s' = match ev with EvBegin _ => next s + 1 | _ => next s end.
Proof.
  intros Hs Hstep. pose proof (sim_rep _ _ _ Hs) as HR. pose proof (sim_steady _ _ _ Hs) as He.
  destruct Hstep as [e e' ts t HB Hlt|e e' ts t k v r Ht Hw|e e' ts t k r Ht Hw|e ts t k r Ht Hg
    |e ts t prefix r Ht Hsc|e e' ts t r Ht Hc|e e' ts t r Ht Hr|e ts].
  - pose proof (Begin_version _ _ _ _ HR HB) as Hv.
    destruct (Begin_ok e s HR He) as (e1 & He1 & HR1 & Hs1); [by rewrite <-Hv|].
    cbn [sys_engine] in He1. rewrite HB in He1. injection He1 as -> ->.
    destruct (sim_begin s _ p e1 Hs) as [Hnone Hsim]; [done|done|done|].
    eexists _, _. split; [by apply si_begin|]. by split.
  - by eapply (write_sim s e ts p t k (Some v)).
  - by eapply (write_sim s e ts p t k None).
  - destruct (sim_txns _ _ _ Hs t Ht) as (st & Hst & Hsim). pose proof (sim_ok _ _ _ Hs t Ht) as Hok.
    exists s, p. split; [|by split]. rewrite (Get_ok e s t k HR Hok) in Hg. subst r.
    rewrite (sim_view _ _ _ Hsim). by apply si_get.
  - destruct (sim_txns _ _ _ Hs t Ht) as (st & Hst & Hsim). pose proof (sim_ok _ _ _ Hs t Ht) as Hok.
    exists s, p. split; [|by split].
    destruct (ScanPrefix_ok e s t prefix HR Hok) as (es & Hes & Hm & _).
    rewrite Hes in Hsc. subst r. eapply si_scan; [done|]. by rewrite <-(sim_view _ _ _ Hsim).
  - destruct (sim_txns _ _ _ Hs t Ht) as (st & Hst & Hsim). pose proof (sim_ok _ _ _ Hs t Ht) as Hok.
    destruct (Commit_ok e s t HR He Hok) as (e1 & He1 & HR1 & Hs1). rewrite He1 in Hc. injection Hc as <- <-.
    eexists _, _. split; [by eapply si_commit|].
    split; [by apply (sim_commit s (mkSys e ts) p t st e1)|done].
  - destruct (sim_txns _ _ _ Hs t Ht) as (st & Hst & Hsim). pose proof (sim_ok _ _ _ Hs t Ht) as Hok.
    destruct (Rollback_ok e s t HR He Hok) as (e1 & He1 & HR1 & Hs1). rewrite He1 in Hr. injection Hr as <- <-.
    eexists _, _. split; [by eapply si_rollback|].
    split; [by eapply (sim_rollback s (mkSys e ts) p t st e1)|done].
  - destruct (sim_crash _ _ _ Hs) as (p' & Hp & Hsim). by exists s, p'.
Qed.

Definition is_begin (ev : event) : bool := match ev with EvBegin _ => true | _ => false end.

(** the number of transactions a run began *)
Definition begins (evs : list event) : Z :=
  Z.of_nat (length (filter (λ ev, is_begin ev = true) evs)).

Lemma run_sim s c p evs c' :
  sim s c p → sys_run c evs c' →
  ∃ s' p', si_run too_big p evs p' ∧ sim s' c' p' ∧ next s' = next s + begins evs.
Proof.
  intros Hs Hrun. revert s p Hs. induction Hrun as [c|c evs c1 ev c2 _ IH Hstep]; intros s p Hs.
  - exists s, p. split; [constructor|]. split; [done|]. unfold begins. cbn. lia.
  - destruct (IH s p Hs) as (s1 & p1 & Hr & Hs1 & Hn1).
    destruct (step_sim _ _ _ _ _ Hs1 Hstep) as (s2 & p2 & Hst & Hs2 & Hn2).
    exists s2, p2. split; [by econstructor|]. split; [done|].
    rewrite Hn2, Hn1. unfold begins. rewrite filter_app, length_app.
    destruct ev; cbn [is_begin filter list_filter]; rewrite ?decide_True, ?decide_False by done; cbn [length]; lia.
Qed.

(** ** An executable scheduler

    [exec] runs a list of operations, each naming its transaction by version,
    and records the events; operations that name no open transaction are
    skipped. *)

Inductive op :=
  | OpBegin
  | OpSet (v : version) (k x : bytes)
  | OpDelete (v : version) (k : bytes)
  | OpCommit (v : version)
  | OpRollback (v : version)
  | OpCrash.

Definition txn_of (ts : list transactionState) (v : version) : option transactionState :=
  head (filter (λ t, ts_version t = v) ts).

Lemma txn_of_Some ts v t : txn_of ts v = Some t → t ∈ ts ∧ ts_version t = v.
Proof.
  unfold txn_of. intros Hh. assert (t ∈ filter (λ t, ts_version t = v) ts) as Hin.
  { destruct (filter _ ts); simplify_eq/=. set_solver. }
  apply list_elem_of_filter in Hin. tauto.
Qed.

Definition exec1 (o : op) (c : sys) : sys * list event :=
  let on v (f : transactionState → sys * list event) :=
    match txn_of (sys_open c) v with Some t => f t | None => (c, []) end in
  let ending (m : transactionState → ST E unit) ev t :=
    let '(e', r) := m t (sys_engine c) in
    (mkSys e' (filter (λ u, u ≠ t) (sys_open c)), [ev t r]) in
  match o with
  | OpBegin =>
      match Begin (sys_engine c) with
      | (e', Ok t) =>
          if decide (ts_version t < max_uint64) then (mkSys e' (t :: sys_open c), [EvBegin t])
          else (c, [])
      | _ => (c, [])
      end
  | OpSet v k x => on v (λ t,
      let '(e', r) := Set_ t k x (sys_engine c) in
      (mkSys e' (sys_open c), [EvWrite t k (Some x) r]))
  | OpDelete v k => on v (λ t,
      let '(e', r) := Delete t k (sys_engine c) in
      (mkSys e' (sys_open c), [EvWrite t k None r]))
  | OpCommit v => on v (ending Commit EvCommit)
  | OpRollback v => on v (ending Rollback EvRollback)
  | OpCrash => (mkSys (sys_engine c) [], [EvCrash])
  end.

Fixpoint exec (ops : list op) (c : sys) : sys * list event :=
  match ops with
  | [] => (c, [])
  | o :: ops =>
      let '(c1, evs1) := exec1 o c in
      let '(c2, evs2) := exec ops c1 in
      (c2, evs1 ++ evs2)
  end.

Lemma sys_run_app c evs1 c1 evs2 c2 :
  sys_run c evs1 c1 → sys_run c1 evs2 c2 → sys_run c (evs1 ++ evs2) c2.
Proof.
  intros H1 H2. induction H2 as [c1|c1 evs2 c2 ev c3 _ IH Hs]; [by rewrite app_nil_r|].
  rewrite app_assoc. econstructor; [by apply IH|done].
Qed.

Lemma sys_run_one c ev c' : sys_step c ev c' → sys_run c [ev] c'.
Proof. intros. change [ev] with ([] ++ [ev]). econstructor; [constructor|done]. Qed.

Lemma exec1_sound o c : sys_run c (exec1 o c).2 (exec1 o c).1.
Proof.
  assert (∀ c, sys_run c [] c) as Hnil by constructor.
  destruct c as [e ts], o as [|v k x|v k|v|v|]; unfold exec1; cbn [sys_engine sys_open].
  - destruct (Begin e) as [e' [t| |]] eqn:HB; try apply Hnil.
    destruct (decide (ts_version t < max_uint64)); [|apply Hnil]. by apply sys_run_one, step_begin.
  - destruct (txn_of ts v) as [t|] eqn:Ht; [|apply Hnil]. apply txn_of_Some in Ht as [Ht _].
    destruct (Set_ t k x e) eqn:Hs. by apply sys_run_one, step_set.
  - destruct (txn_of ts v) as [t|] eqn:Ht; [|apply Hnil]. apply txn_of_Some in Ht as [Ht _].
    destruct (Delete t k e) eqn:Hs. by apply sys_run_one, step_delete.
  - destruct (txn_of ts v) as [t|] eqn:Ht; [|apply Hnil]. apply txn_of_Some in Ht as [Ht _].
    destruct (Commit t e) eqn:Hs. by apply sys_run_one, step_commit.
  - destruct (txn_of ts v) as [t|] eqn:Ht; [|apply Hnil]. apply txn_of_Some in Ht as [Ht _].
    destruct (Rollback t e) eqn:Hs. by apply sys_run_one, step_rollback.
  - apply sys_run_one, step_crash.
Qed.

Lemma exec_sound ops c : sys_run c (exec ops c).2 (exec ops c).1.
Proof.
  revert c. induction ops as [|o ops IH]; intros c; [constructor|]. cbn.
  pose proof (exec1_sound o c) as H1. destruct (exec1 o c) as [c1 evs1].
  pose proof (IH c1) as H2. destruct (exec ops c1) as [c2 evs2].
  by eapply sys_run_app.
Qed.

Lemma exec_run ops c :
  let c' := (exec ops c).1 in sys_run c (exec ops c).2 (mkSys (sys_engine c') (sys_open c')).
Proof. cbn. pose proof (exec_sound ops c) as Hr. by destruct (exec ops c).1. Qed.

(** the transaction a version names, for concrete runs *)
Definition the_txn (ts : list transactionState) (v : version) : transactionState :=
  default (mkTransactionState 0 ∅) (txn_of ts v).

Lemma the_txn_in ts v :
  match txn_of ts v with Some _ => true | None => false end = true →
  the_txn ts v ∈ ts ∧ ts_version (the_txn ts v) = v.
Proof. unfold the_txn. destruct (txn_of ts v) eqn:Ht; [|done]. by intros _; apply txn_of_Some in Ht. Qed.

Lemma fresh_run_sim c evs c' :
  fresh c → sys_run c evs c' →
  ∃ s p, si_run too_big empty_si evs p ∧ sim s c' p ∧ next s = 1 + begins evs.
Proof. intros Hf Hrun. eapply (run_sim empty_mstate c); [by apply fresh_sim|done]. Qed.

End system.
