(* ===== verification/MvccProps.v ===== *)
(** * What the MVCC layer guarantees

    The theorems hold of every engine that satisfies [EngineLaws] and is steady:
    it does not fail, although it may refuse a record that is too big.  Each has
    an instance at the in-memory engine. *)

From stdpp Require Import fin_sets fin_map_dom.
From S2P Require Import Prelude Bytes Engine Memory MvccKey Mvcc MvccSpec MvccRefine MvccOps MvccReads Snapshot MvccSystem.

Section guarantees.
Context {E : Type} `{EngineLaws E}.
Implicit Types (c : sys (E := E)) (t u : transactionState).

(** ** Lemmas the guarantees share *)

Lemma sim_get s c p t st k :
  sim s c p → t ∈ sys_open c → txns p !! ts_version t = Some st →
  Get t k (sys_engine c) = Ok (local st !! k).
Proof.
  intros Hs Ht Hst. rewrite (Get_ok _ s); [|apply Hs|by apply (sim_ok _ _ _ Hs)].
  by rewrite (sim_view _ _ _ (sim_txn_of _ _ _ _ _ Hs Ht Hst)).
Qed.

Lemma sim_get_at s e ts p t st k :
  sim s (mkSys e ts) p → t ∈ ts → txns p !! ts_version t = Some st → Get t k e = Ok (local st !! k).
Proof. apply sim_get. Qed.

Lemma sim_scan s c p t st prefix :
  sim s c p → t ∈ sys_open c → txns p !! ts_version t = Some st →
  ∃ es, ScanPrefix t prefix (sys_engine c) = Ok es ∧
        map entry_pair es = prefixed prefix (local st) ∧ Forall (λ en, Value en ≠ None) es.
Proof.
  intros Hs Ht Hst. rewrite <-(sim_view _ _ _ (sim_txn_of _ _ _ _ _ Hs Ht Hst)).
  apply ScanPrefix_ok; [apply Hs|by apply (sim_ok _ _ _ Hs)].
Qed.

Lemma entries_ext (es es' : list Entry) :
  map entry_pair es = map entry_pair es' →
  Forall (λ en, Value en ≠ None) es → Forall (λ en, Value en ≠ None) es' → es = es'.
Proof.
  revert es'. induction es as [|[k v] es IH]; intros [|[k' v'] es']; try done.
  cbn. intros [= -> Hv Hes] [? ?]%Forall_cons [? ?]%Forall_cons. f_equal; [|by apply IH].
  f_equal. by destruct v, v'; simplify_eq/=.
Qed.

(** a whole run keeps what an undisturbed transaction sees *)
Lemma run_snapshot (P := too_big (E := E)) p evs p' v st :
  si_run P p evs p' → txns p !! v = Some st → Forall (λ ev, ¬ disturbs v ev) evs →
  ∃ st', txns p' !! v = Some st' ∧ local st' = local st.
Proof.
  intros Hrun Hst Hevs.
  eapply (si_run_inv P (λ p, ∃ st', txns p !! v = Some st' ∧ local st' = local st)
    (λ ev, ¬ disturbs v ev)); [|by eexists|done|done].
  intros p1 ev p2 (st1 & Hst1 & Hl1) Hd Hs.
  destruct (step_snapshot P _ _ _ _ _ Hs Hst1 Hd) as (st2 & Hst2 & Hl2).
  exists st2. by rewrite Hl2.
Qed.

(** what a transaction begun in a state reads *)
Lemma begin_reads s c p e' t k :
  sim s c p → Begin (sys_engine c) = (e', Ok t) → ts_version t < max_uint64 →
  Get t k e' = Ok (db p !! k).
Proof.
  intros Hs HB Hlt. destruct c as [e ts].
  destruct (step_sim _ _ _ _ _ Hs (step_begin _ _ ts _ HB Hlt)) as (s' & p' & Hst & Hs' & _).
  inversion Hst; subst.
  change e' with (sys_engine (mkSys e' (t :: ts))).
  erewrite (sim_get _ _ _ _ _ k Hs'); [|set_solver|apply lookup_insert_eq].
  unfold local. cbn. by rewrite apply_writes_empty.
Qed.

Lemma sim_contents s c p t st k :
  sim s c p → t ∈ sys_open c → txns p !! ts_version t = Some st →
  contents (sys_engine c) !! encode (versionedKey k (ts_version t)) = enc_val <$> wset st !! k.
Proof.
  intros Hs Ht Hst. pose proof (sim_rep _ _ _ Hs) as [Hu Hrep Hwf].
  rewrite (rep_lookup _ _ Hrep), (sim_wset _ _ _ (sim_txn_of _ _ _ _ _ Hs Ht Hst)); [done|].
  apply key_wf_version. eapply txn_uint64; [done|]. by apply (sim_ok _ _ _ Hs).
Qed.

(** ** Snapshot isolation *)

(** C7: every run of the MVCC code from an empty database, under any
    interleaving of transactions, failed writes and crashes, is a run of the
    snapshot-isolation machine with the same outcomes: reads return the
    snapshot overlaid with the transaction's own writes, a write conflicts
    exactly when another transaction holds or has since committed the key, a
    commit publishes the write set and a rollback drops it. *)
Theorem snapshot_isolation c evs c' :
  fresh c → sys_run c evs c' →
  ∃ p, si_run too_big empty_si evs p ∧
       ∀ t k, t ∈ sys_open c' →
         ∃ st, txns p !! ts_version t = Some st ∧ Get t k (sys_engine c') = Ok (local st !! k).
Proof.
  intros Hf Hrun. destruct (fresh_run_sim _ _ _ Hf Hrun) as (s & p & Hr & Hs & _).
  exists p. split; [done|]. intros t k Ht. destruct (sim_txns _ _ _ Hs t Ht) as (st & Hst & _).
  exists st. split; [done|]. by eapply sim_get.
Qed.

(** C14: repeatable reads: whatever other transactions begin, write, commit or
    roll back, an open transaction that does not write keeps reading the same
    value of every key and the same records of every prefix. *)
Theorem repeatable_read c0 evs0 c evs c' t k prefix :
  fresh c0 → sys_run c0 evs0 c → sys_run c evs c' →
  t ∈ sys_open c → t ∈ sys_open c' →
  Forall (λ ev, ¬ disturbs (ts_version t) ev) evs →
  Get t k (sys_engine c') = Get t k (sys_engine c) ∧
  ScanPrefix t prefix (sys_engine c') = ScanPrefix t prefix (sys_engine c).
Proof.
  intros Hf Hr0 Hr Ht Ht' Hevs. destruct (fresh_run_sim _ _ _ Hf Hr0) as (s & p & _ & Hs & _).
  destruct (run_sim _ _ _ _ _ Hs Hr) as (s' & p' & Hrun & Hs' & _).
  destruct (sim_txns _ _ _ Hs t Ht) as (st & Hst & _).
  destruct (run_snapshot _ _ _ _ _ Hrun Hst Hevs) as (st' & Hst' & Hl).
  split; [rewrite !(sim_get _ _ _ _ _ _ Hs Ht Hst), !(sim_get _ _ _ _ _ _ Hs' Ht' Hst'); by rewrite Hl|].
  destruct (sim_scan _ _ _ _ _ prefix Hs Ht Hst) as (es & -> & He & ?).
  destruct (sim_scan _ _ _ _ _ prefix Hs' Ht' Hst') as (es' & -> & He' & ?).
  f_equal. apply entries_ext; [by rewrite He, He', Hl|done|done].
Qed.

(** C15: no lost update: once [t] wrote a key, no other transaction open at
    that time can write it any more, not even after [t] committed, as long as
    [t] does not roll back: its write fails with the write-conflict error and
    leaves the database as it was. *)
Theorem first_updater_wins c0 evs0 e ts e1 t u k v evs c' v' :
  fresh c0 → sys_run c0 evs0 (mkSys e ts) →
  t ∈ ts → u ∈ ts → ts_version t ≠ ts_version u →
  Set_ t k v e = (e1, Ok ()) →
  sys_run (mkSys e1 ts) evs c' → u ∈ sys_open c' →
  Forall (λ ev, ¬ ends (ts_version u) ev ∧ ∀ x r, ts_version x = ts_version t → ev ≠ EvRollback x r) evs →
  Set_ u k v' (sys_engine c') = (sys_engine c', Err ErrWriteConflict).
Proof.
  intros Hf Hr0 Ht Hu Hne Hset Hr Hu' Hevs.
  destruct (fresh_run_sim _ _ _ Hf Hr0) as (s & p & _ & Hs & _).
  destruct (step_sim _ _ _ _ _ Hs (step_set _ _ _ _ _ _ _ Ht Hset)) as (s1 & p1 & Hst1 & Hs1 & _).
  destruct (run_sim _ _ _ _ _ Hs1 Hr) as (s2 & p2 & Hrun & Hs2 & _).
  destruct (sim_txns _ _ _ Hs1 u Hu) as (stu & Hstu & _).
  assert (claimed (ts_version t) (ts_version u) k p1) as Hc.
  { exists stu. split; [done|]. right. inversion Hst1; subst. eexists.
    split; [apply lookup_insert_eq|]. cbn. rewrite dom_insert. set_solver. }
  assert (claimed (ts_version t) (ts_version u) k p2) as Hc2.
  { eapply (si_run_inv too_big (claimed (ts_version t) (ts_version u) k)); [|done|exact Hevs|done].
    intros p3 ev p4 Hp3 [He Hrb] Hs34. by eapply step_claimed. }
  destruct (sim_txns _ _ _ Hs2 u Hu') as (stu2 & Hstu2 & _).
  apply (write_conflict _ s2); [apply Hs2|by apply (sim_ok _ _ _ Hs2)|].
  eapply conflict_blocked; [done..|]. by eapply claimed_blocked.
Qed.

Lemma read_your_writes c0 evs e ts e' t k v k' :
  fresh c0 → sys_run c0 evs (mkSys e ts) → t ∈ ts → Set_ t k v e = (e', Ok ()) →
  Get t k' e' = if decide (k' = k) then Ok (Some v) else Get t k' e.
Proof.
  intros Hf Hr Ht Hset. destruct (fresh_run_sim _ _ _ Hf Hr) as (s & p & _ & Hs & _).
  destruct (sim_txns _ _ _ Hs t Ht) as (st & Hst & _).
  rewrite (sim_get_at _ _ _ _ _ _ k' Hs Ht Hst).
  destruct (step_sim _ _ _ _ _ Hs (step_set _ _ _ _ _ _ _ Ht Hset)) as (s1 & p1 & Hst1 & Hs1 & _).
  inversion Hst1 as [|? st' ? ? Hl| | | | | | |]; subst. rewrite Hst in Hl. injection Hl as <-.
  rewrite (sim_get_at _ _ _ _ _ _ k' Hs1 Ht (lookup_insert_eq _ _ _)). unfold local. cbn.
  rewrite apply_writes_insert. case_decide as Hk; [subst; by rewrite lookup_insert_eq|].
  by rewrite lookup_insert_ne.
Qed.

Lemma read_your_deletes c0 evs e ts e' t k k' :
  fresh c0 → sys_run c0 evs (mkSys e ts) → t ∈ ts → Delete t k e = (e', Ok ()) →
  Get t k' e' = if decide (k' = k) then Ok None else Get t k' e.
Proof.
  intros Hf Hr Ht Hset. destruct (fresh_run_sim _ _ _ Hf Hr) as (s & p & _ & Hs & _).
  destruct (sim_txns _ _ _ Hs t Ht) as (st & Hst & _).
  rewrite (sim_get_at _ _ _ _ _ _ k' Hs Ht Hst).
  destruct (step_sim _ _ _ _ _ Hs (step_delete _ _ _ _ _ _ Ht Hset)) as (s1 & p1 & Hst1 & Hs1 & _).
  inversion Hst1 as [|? st' ? ? Hl| | | | | | |]; subst. rewrite Hst in Hl. injection Hl as <-.
  rewrite (sim_get_at _ _ _ _ _ _ k' Hs1 Ht (lookup_insert_eq _ _ _)). unfold local. cbn.
  rewrite apply_writes_insert. case_decide as Hk; [subst; by rewrite lookup_delete_eq|].
  by rewrite lookup_delete_ne.
Qed.

(** C20: a transaction reads its own writes: after a successful write of [k] it
    reads the new value there, after a successful delete it no longer finds the
    key, and it reads every other key as before. *)
Theorem read_your_own_writes c0 evs e ts t k k' :
  fresh c0 → sys_run c0 evs (mkSys e ts) → t ∈ ts →
  (∀ v e', Set_ t k v e = (e', Ok ()) → Get t k' e' = if decide (k' = k) then Ok (Some v) else Get t k' e) ∧
  (∀ e', Delete t k e = (e', Ok ()) → Get t k' e' = if decide (k' = k) then Ok None else Get t k' e).
Proof. intros Hf Hr Ht. split; intros; [by eapply read_your_writes|by eapply read_your_deletes]. Qed.

(** C16: a commit fails only if the storage does, and publishes exactly the
    transaction's write set: a transaction begun right after it reads what [t] read at the keys
    [t] wrote, and elsewhere what a transaction begun right before it reads. *)
Theorem commit_publishes c0 evs e ts t e1 r e2 u e3 w k :
  fresh c0 → sys_run c0 evs (mkSys e ts) → t ∈ ts → Commit t e = (e1, r) →
  Begin e1 = (e2, Ok u) → Begin e = (e3, Ok w) → ts_version u < max_uint64 →
  r = Ok () ∧
  Get u k e2 =
    if decide (is_Some (contents e !! encode (versionedKey k (ts_version t))))
    then Get t k e else Get w k e3.
Proof.
  intros Hf Hr Ht Hc HB1 HB Hlt. destruct (fresh_run_sim _ _ _ Hf Hr) as (s & p & _ & Hs & _).
  destruct (sim_txns _ _ _ Hs t Ht) as (st & Hst & _).
  destruct (step_sim _ _ _ _ _ Hs (step_commit _ _ _ _ _ Ht Hc)) as (s1 & p1 & Hst1 & Hs1 & Hn).
  assert (ts_version w < max_uint64) as Hlt'.
  { rewrite (Begin_version _ _ _ _ (sim_rep _ _ _ Hs) HB).
    rewrite (Begin_version _ _ _ _ (sim_rep _ _ _ Hs1) HB1) in Hlt. by rewrite Hn in Hlt. }
  inversion Hst1 as [| | | | | |? st' Hl| |]; subst. rewrite Hst in Hl. injection Hl as <-.
  pose proof (sim_contents _ _ _ _ _ k Hs Ht Hst) as Hcont. cbn [sys_engine] in Hcont.
  split; [done|]. rewrite (begin_reads _ _ _ _ _ k Hs1 HB1 Hlt), (begin_reads _ _ _ _ _ k Hs HB Hlt').
  rewrite (sim_get_at _ _ _ _ _ _ k Hs Ht Hst), Hcont. cbn.
  unfold local. rewrite !lookup_apply_writes.
  destruct (wset st !! k) as [x|]; case_decide as Hd; try done; [destruct Hd; by eexists|].
  by destruct Hd.
Qed.

(** C17: a rollback fails only if the storage does, and undoes the transaction: a
    transaction begun right after it reads every key as one begun right before it. *)
Theorem rollback_undoes c0 evs e ts t e1 r e2 u e3 w k :
  fresh c0 → sys_run c0 evs (mkSys e ts) → t ∈ ts → Rollback t e = (e1, r) →
  Begin e1 = (e2, Ok u) → Begin e = (e3, Ok w) → ts_version u < max_uint64 →
  r = Ok () ∧ Get u k e2 = Get w k e3.
Proof.
  intros Hf Hr Ht Hc HB1 HB Hlt. destruct (fresh_run_sim _ _ _ Hf Hr) as (s & p & _ & Hs & _).
  destruct (sim_txns _ _ _ Hs t Ht) as (st & Hst & _).
  destruct (step_sim _ _ _ _ _ Hs (step_rollback _ _ _ _ _ Ht Hc)) as (s1 & p1 & Hst1 & Hs1 & Hn).
  assert (ts_version w < max_uint64) as Hlt'.
  { rewrite (Begin_version _ _ _ _ (sim_rep _ _ _ Hs) HB).
    rewrite (Begin_version _ _ _ _ (sim_rep _ _ _ Hs1) HB1) in Hlt. by rewrite Hn in Hlt. }
  inversion Hst1; subst. split; [done|].
  by rewrite (begin_reads _ _ _ _ _ k Hs1 HB1 Hlt), (begin_reads _ _ _ _ _ k Hs HB Hlt').
Qed.

(** [Begin] never fails before the counter is exhausted: it hands out the
    versions 1, 2, 3, ... in order, and its snapshot of active transactions
    holds every open one. *)
Theorem begin_allocates c0 evs c :
  fresh c0 → sys_run c0 evs c → 1 + begins evs < max_uint64 →
  ∃ e' t, Begin (sys_engine c) = (e', Ok t) ∧ ts_version t = 1 + begins evs ∧
          ∀ u, u ∈ sys_open c → ts_version u ∈ activeVersions t ∧ ts_version u < ts_version t.
Proof.
  intros Hf Hr Hlt. destruct (fresh_run_sim _ _ _ Hf Hr) as (s & p & _ & Hs & Hn).
  destruct (Begin_ok _ s (sim_rep _ _ _ Hs) (sim_steady _ _ _ Hs)) as (e' & HB & _); [by rewrite Hn|].
  eexists e', _. split; [done|]. split; [done|]. intros u Hu. cbn.
  assert (ts_version u ∈ active s) as Ha by (apply ok_active, (sim_ok _ _ _ Hs), Hu).
  split; [done|]. by apply (wf_active _ (Rep_wf _ _ (sim_rep _ _ _ Hs))).
Qed.


(** C18: a key written by a transaction that was open in a crash stays
    locked: every later write of it, by any transaction, fails with a write
    conflict.  Nothing in the code ends the lost transaction. *)
Theorem crash_locks_keys c0 evs0 e ts t k v e1 evs c u v' :
  fresh c0 → sys_run c0 evs0 (mkSys e ts) → t ∈ ts → Set_ t k v e = (e1, Ok ()) →
  sys_run (mkSys e1 []) evs c → u ∈ sys_open c →
  Set_ u k v' (sys_engine c) = (sys_engine c, Err ErrWriteConflict).
Proof.
  intros Hf Hr0 Ht Hset Hr Hu.
  destruct (fresh_run_sim _ _ _ Hf Hr0) as (s & p & _ & Hs & _).
  destruct (step_sim _ _ _ _ _ Hs (step_set _ _ _ _ _ _ _ Ht Hset)) as (s1 & p1 & Hst1 & Hs1 & _).
  destruct (step_sim _ _ _ _ _ Hs1 (step_crash _ _)) as (s2 & p2 & Hst2 & Hs2 & _).
  destruct (run_sim _ _ _ _ _ Hs2 Hr) as (s3 & p3 & Hrun & Hs3 & _).
  assert (k ∈ orphans p2) as Ho.
  { inversion Hst1 as [|? st ? ? Hl| | | | | | |]; subst. inversion Hst2 as [| | | | | | | |ks Hks]; subst.
    cbn. apply elem_of_union_l, Hks. eexists _, _. split; [apply lookup_insert_eq|]. cbn.
    rewrite dom_insert. set_solver. }
  assert (k ∈ orphans p3) as Ho3.
  { eapply (si_run_inv too_big (λ p, k ∈ orphans p) (λ _, True)); [|done|by apply Forall_true|done].
    intros pa ev pb Hpa _ Hab. by eapply step_orphans. }
  destruct (sim_txns _ _ _ Hs3 u Hu) as (stu & Hstu & _).
  apply (write_conflict _ s3); [apply Hs3|by apply (sim_ok _ _ _ Hs3)|].
  eapply conflict_blocked; [done..|]. by right; right.
Qed.

End guarantees.

(** ** Concrete runs on the in-memory engine *)

Module Witness.

Definition start : sys := mkSys NewMemoryEngine [].
Lemma start_fresh : fresh start.
Proof. split; [done|]. split; [done|]. split; [|done]. apply map_eq. intros k. by rewrite lookup_empty. Qed.

(** transaction 1 commits [a = 1]; 2, 3 and 4 stay open *)
Definition prologue : list op :=
  [OpBegin; OpSet 1 (str "a") (str "1"); OpCommit 1; OpBegin; OpBegin; OpBegin].
Definition c1 : sys := (exec prologue start).1.
Definition e1 : MemoryEngine := sys_engine c1.
Definition ts1 : list transactionState := sys_open c1.
Definition evs1 : list event := (exec prologue start).2.
Definition t2 : transactionState := the_txn ts1 2.
Definition t3 : transactionState := the_txn ts1 3.

Lemma run1 : sys_run start evs1 (mkSys e1 ts1).
Proof. apply exec_run. Qed.
Lemma t2_in : t2 ∈ ts1 ∧ ts_version t2 = 2.
Proof. apply the_txn_in. vm_compute. reflexivity. Qed.
Lemma t3_in : t3 ∈ ts1 ∧ ts_version t3 = 3.
Proof. apply the_txn_in. vm_compute. reflexivity. Qed.

Lemma st_out {S A} (m : S * result A) a : m.2 = Ok a → m = (m.1, Ok a).
Proof. destruct m. cbn. congruence. Qed.

(** transaction 2 writes and commits while 3 watches *)
Definition others : list op := [OpSet 2 (str "a") (str "2"); OpCommit 2; OpBegin].
Definition c2 : sys := (exec others (mkSys e1 ts1)).1.
Definition evs2 : list event := (exec others (mkSys e1 ts1)).2.

Definition ev_ids (ev : event) : Z :=
  match ev with
  | EvWrite t _ _ _ | EvCommit t _ => ts_version t
  | EvRollback t _ => - ts_version t
  | EvCrash => 0
  | _ => -1
  end.
Lemma ids_undisturbed evs v :
  0 < v → forallb (λ ev, negb (Z.abs (ev_ids ev) =? v) && negb (ev_ids ev =? 0)) evs = true →
  Forall (λ ev, ¬ disturbs v ev) evs.
Proof.
  intros Hv Hb. apply Forall_forall. intros ev Hin%list_elem_of_In.
  rewrite forallb_forall in Hb. specialize (Hb ev Hin). destruct ev; cbn in *; try tauto; lia.
Qed.
Lemma ids_other evs v w :
  0 < v → 0 < w →
  forallb (λ ev, negb (Z.abs (ev_ids ev) =? v) && negb (ev_ids ev =? - w) && negb (ev_ids ev =? 0)) evs = true →
  Forall (λ ev, ¬ ends v ev ∧ ∀ x r, ts_version x = w → ev ≠ EvRollback x r) evs.
Proof.
  intros Hv Hw Hb. apply Forall_forall. intros ev Hin%list_elem_of_In.
  rewrite forallb_forall in Hb. specialize (Hb ev Hin). split; [destruct ev; cbn in *; try tauto; lia|].
  intros x r Hx ->. cbn in *. lia.
Qed.

End Witness.
Import Witness.

Lemma snapshot_isolation_witness :
  ∃ p, si_run too_big empty_si evs1 p ∧
       ∀ t k, t ∈ ts1 →
         ∃ st, txns p !! ts_version t = Some st ∧ Get t k e1 = Ok (local st !! k).
Proof. exact (snapshot_isolation start evs1 (mkSys e1 ts1) start_fresh run1). Defined.

Lemma repeatable_read_witness :
  Get t3 (str "a") (sys_engine c2) = Get t3 (str "a") e1 ∧
  ScanPrefix t3 (str "a") (sys_engine c2) = ScanPrefix t3 (str "a") e1.
Proof.
  apply (repeatable_read start evs1 (mkSys e1 ts1) evs2 c2); [apply start_fresh|apply run1| | | |].
  - apply exec_sound.
  - apply t3_in.
  - assert (the_txn (sys_open c2) 3 = t3) as <- by (vm_compute; reflexivity).
    apply the_txn_in. vm_compute. reflexivity.
  - rewrite (proj2 t3_in). apply ids_undisturbed; [done|]. vm_compute. reflexivity.
Defined.

Lemma first_updater_wins_witness :
  let e := (Set_ t2 (str "a") (str "2") e1).1 in
  let c := (exec [OpCommit 2; OpBegin] (mkSys e ts1)).1 in
  Set_ t3 (str "a") (str "3") (sys_engine c) = (sys_engine c, Err ErrWriteConflict).
Proof.
  intros e c.
  apply (first_updater_wins start evs1 e1 ts1 e t2 t3 (str "a") (str "2")
    (exec [OpCommit 2; OpBegin] (mkSys e ts1)).2); [apply start_fresh|apply run1| | | | | | |].
  - apply t2_in.
  - apply t3_in.
  - by rewrite (proj2 t2_in), (proj2 t3_in).
  - apply st_out. vm_compute. reflexivity.
  - apply exec_sound.
  - assert (the_txn (sys_open c) 3 = t3) as <- by (vm_compute; reflexivity).
    apply the_txn_in. vm_compute. reflexivity.
  - rewrite (proj2 t2_in), (proj2 t3_in). apply ids_other; [done|done|]. vm_compute. reflexivity.
Defined.

Lemma read_your_own_writes_witness :
  let e' := (Set_ t2 (str "b") (str "7") e1).1 in
  let e'' := (Delete t2 (str "a") e1).1 in
  Get t2 (str "b") e' = Ok (Some (str "7")) ∧ Get t2 (str "a") e' = Get t2 (str "a") e1 ∧
  Get t2 (str "a") e1 = Ok (Some (str "1")) ∧ Get t2 (str "a") e'' = Ok None.
Proof.
  intros e' e''.
  assert (Set_ t2 (str "b") (str "7") e1 = (e', Ok ())) as Hs by (apply st_out; vm_compute; reflexivity).
  assert (Delete t2 (str "a") e1 = (e'', Ok ())) as Hd by (apply st_out; vm_compute; reflexivity).
  pose proof (λ k k', read_your_own_writes start evs1 e1 ts1 t2 k k' start_fresh run1 (proj1 t2_in)) as Hown.
  split; [by rewrite (proj1 (Hown (str "b") (str "b")) _ _ Hs)|].
  split; [by rewrite (proj1 (Hown (str "b") (str "a")) _ _ Hs)|].
  split; [vm_compute; reflexivity|]. by rewrite (proj2 (Hown (str "a") (str "a")) _ Hd).
Defined.

Lemma commit_publishes_witness :
  let e' := (Set_ t2 (str "a") (str "2") e1).1 in
  let e2 := (Commit t2 e').1 in
  let u := (Begin e2).2 in
  match u with Ok u => Get u (str "a") (Begin e2).1 = Ok (Some (str "2")) | _ => False end.
Proof.
  intros e' e2 u. destruct u as [w| |] eqn:Hu; [|exfalso; revert Hu; vm_compute; discriminate..].
  subst u. apply st_out in Hu.
  assert (sys_run start (evs1 ++ [EvWrite t2 (str "a") (Some (str "2")) (Ok ())]) (mkSys e' ts1)) as Hr.
  { econstructor; [apply run1|]. apply step_set; [apply t2_in|]. apply st_out. vm_compute. reflexivity. }
  destruct ((Begin e').2) as [w'| |] eqn:Hw; [|exfalso; revert Hw; vm_compute; discriminate..].
  apply st_out in Hw.
  destruct (commit_publishes start _ e' ts1 t2 e2 (Ok ()) (Begin e2).1 w (Begin e').1 w' (str "a") start_fresh Hr
    (proj1 t2_in)) as [_ ->]; [|done|done| |].
  - apply st_out. vm_compute. reflexivity.
  - assert (Ok (ts_version w) = rbind (Begin e2).2 (λ t, Ok (ts_version t))) as Hv by (by rewrite Hu).
    apply (f_equal (λ r, match r with Ok v => v <? max_uint64 | _ => false end)) in Hv.
    apply Z.ltb_lt. rewrite Hv. vm_compute. reflexivity.
  - vm_compute. reflexivity.
Defined.

Lemma rollback_undoes_witness :
  let e' := (Set_ t2 (str "a") (str "2") e1).1 in
  let e2 := (Rollback t2 e').1 in
  match (Begin e2).2, (Begin e').2 with
  | Ok u, Ok w => Get u (str "a") (Begin e2).1 = Get w (str "a") (Begin e').1
  | _, _ => False
  end.
Proof.
  intros e' e2.
  destruct ((Begin e2).2) as [u| |] eqn:Hu; [|exfalso; revert Hu; vm_compute; discriminate..].
  destruct ((Begin e').2) as [w| |] eqn:Hw; [|exfalso; revert Hw; vm_compute; discriminate..].
  apply st_out in Hu, Hw.
  assert (sys_run start (evs1 ++ [EvWrite t2 (str "a") (Some (str "2")) (Ok ())]) (mkSys e' ts1)) as Hr.
  { econstructor; [apply run1|]. apply step_set; [apply t2_in|]. apply st_out. vm_compute. reflexivity. }
  apply (rollback_undoes start _ e' ts1 t2 e2 (Ok ()) (Begin e2).1 u (Begin e').1 w (str "a")
    start_fresh Hr (proj1 t2_in)); [|done|done|].
  - apply st_out. vm_compute. reflexivity.
  - assert (Ok (ts_version u) = rbind (Begin e2).2 (λ t, Ok (ts_version t))) as Hv by (by rewrite Hu).
    apply (f_equal (λ r, match r with Ok v => v <? max_uint64 | _ => false end)) in Hv.
    apply Z.ltb_lt. rewrite Hv. vm_compute. reflexivity.
Defined.

Lemma begin_allocates_witness :
  ∃ e' t, Begin e1 = (e', Ok t) ∧ ts_version t = 5.
Proof.
  assert (1 + begins evs1 = 5) as Hb by (vm_compute; reflexivity).
  destruct (begin_allocates start evs1 (mkSys e1 ts1) start_fresh run1) as (e' & t & HB & Hv & _);
    [rewrite Hb; vm_compute; reflexivity|].
  exists e', t. split; [done|]. by rewrite Hv.
Defined.


Lemma crash_locks_keys_witness :
  let e := (Set_ t2 (str "a") (str "2") e1).1 in
  let c := (exec [OpBegin] (mkSys e [])).1 in
  let u := the_txn (sys_open c) 5 in
  Set_ u (str "a") (str "3") (sys_engine c) = (sys_engine c, Err ErrWriteConflict).
Proof.
  intros e c u.
  apply (crash_locks_keys start evs1 e1 ts1 t2 (str "a") (str "2") e (exec [OpBegin] (mkSys e [])).2);
    [apply start_fresh|apply run1|apply t2_in| | |].
  - apply st_out. vm_compute. reflexivity.
  - apply exec_sound.
  - apply the_txn_in. vm_compute. reflexivity.
Defined.
