(* ===== verification/Types.v ===== *)
(** * Values ([types/]) and the numbers of Go

    [float64] is Stdlib's executable [spec_float] at precision 53 and maximal
    exponent 1024, the IEEE 754 binary64 format; [int64] is [Z] with its range
    written out. *)

From Stdlib Require Export SpecFloat.
From S2P Require Import Prelude Bytes.

(** ** Numbers *)

Definition min_int64 : Z := - 2 ^ 63.
Definition max_int64 : Z := 2 ^ 63 - 1.
Definition in_int64 (z : Z) : Prop := min_int64 ≤ z ≤ max_int64.
(** the wrap-around of signed arithmetic *)
Definition int64 (z : Z) : Z := (z + 2 ^ 63) mod 2 ^ 64 - 2 ^ 63.

Abbreviation float64 := spec_float.
Definition prec : Z := 53.
Definition emax : Z := 1024.
Definition float_zero : float64 := S754_zero false.

(** the conversion [float64(z)] *)
Definition float_of_int (z : Z) : float64 := binary_normalize prec emax z 0 false.
Definition float_add (x y : float64) : float64 := SFadd prec emax x y.
Definition float_div (x y : float64) : float64 := SFdiv prec emax x y.
Definition float_lt (x y : float64) : bool := SFltb x y.
Definition float_gt (x y : float64) : bool := SFltb y x.
(** [==]: NaN differs from itself, the two zeros are equal *)
Definition float_eq (x y : float64) : bool := SFeqb x y.

#[export] Instance spec_float_eq_dec : EqDecision spec_float.
Proof. solve_decision. Defined.

(** a finite or infinite number in the range of the format *)
Definition float_wf (x : float64) : bool := valid_binary prec emax x.
Definition is_nan (x : float64) : bool := match x with S754_nan => true | _ => false end.

(** ** Data types and values *)

Inductive DataType := Boolean | Integer | Float | String.

#[export] Instance DataType_eq_dec : EqDecision DataType.
Proof. solve_decision. Defined.

(** [ValueKind] is a [uint8]: any number above 4 is a kind of no value. *)
Inductive ValueKind :=
  | ValueNull
  | ValueBoolean
  | ValueInteger
  | ValueFloat
  | ValueString
  | ValueInvalid (k : Z).

#[export] Instance ValueKind_eq_dec : EqDecision ValueKind.
Proof. solve_decision. Defined.

Record Value := mkValue {
  Kind : ValueKind;
  vBoolean : bool;
  vInteger : Z;
  vFloat : float64;
  vStr : bytes;
}.

Abbreviation Row := (list Value).

#[export] Instance Value_eq_dec : EqDecision Value.
Proof. solve_decision. Defined.

(** the composite literals [Value{Kind: ..., ...}] *)
Definition NullValue : Value := mkValue ValueNull false 0 float_zero [].
Definition BooleanValue (b : bool) : Value := mkValue ValueBoolean b 0 float_zero [].
Definition IntegerValue (i : Z) : Value := mkValue ValueInteger false i float_zero [].
Definition FloatValue (f : float64) : Value := mkValue ValueFloat false 0 f [].
Definition StringValue (s : bytes) : Value := mkValue ValueString false 0 float_zero s.

(** [v.DataType()]: [None] when there is no concrete type *)
Definition Value_DataType (v : Value) : option DataType :=
  match Kind v with
  | ValueBoolean => Some Boolean
  | ValueInteger => Some Integer
  | ValueFloat => Some Float
  | ValueString => Some String
  | ValueNull => None
  | ValueInvalid _ => None
  end.

(** the result of the two comparisons [x < y] and [x > y] *)
Definition three_way (lt gt : bool) : Z := if lt then -1 else if gt then 1 else 0.

Definition float_three_way (x y : float64) : Z := three_way (float_lt x y) (float_gt x y).

(** [strings.Compare] and [bytes.Compare] *)
Definition strings_Compare (a b : bytes) : Z :=
  match bytes_compare a b with Lt => -1 | Eq => 0 | Gt => 1 end.

Definition Compare (v other : Value) : result Z :=
  if decide (Kind v = ValueNull ∧ Kind other = ValueNull) then Ok 0
  else if decide (Kind v = ValueNull) then Ok (-1)
  else if decide (Kind other = ValueNull) then Ok 1
  else
    match Kind v, Kind other with
    | ValueBoolean, ValueBoolean =>
        if Bool.eqb (vBoolean v) (vBoolean other) then Ok 0
        else if negb (vBoolean v) then Ok (-1) else Ok 1
    | ValueInteger, ValueInteger =>
        Ok (three_way (vInteger v <? vInteger other) (vInteger v >? vInteger other))
    | ValueFloat, ValueFloat => Ok (float_three_way (vFloat v) (vFloat other))
    | ValueInteger, ValueFloat =>
        Ok (float_three_way (float_of_int (vInteger v)) (vFloat other))
    | ValueFloat, ValueInteger =>
        Ok (float_three_way (vFloat v) (float_of_int (vInteger other)))
    | ValueString, ValueString => Ok (strings_Compare (vStr v) (vStr other))
    | _, _ => Err (Errorf "types: cannot compare value kinds %d and %d")
    end.

(** the struct equality [==] that a map keyed by [Value] uses *)
Definition value_eqb (v w : Value) : bool :=
  bool_decide (Kind v = Kind w) && Bool.eqb (vBoolean v) (vBoolean w) &&
  (vInteger v =? vInteger w) && float_eq (vFloat v) (vFloat w) &&
  bool_decide (vStr v = vStr w).

(** ** Orders *)

(** a value the database stores: its kind is one of the five, the payload of
    the other kinds is zero, numbers are in range and no float is NaN *)
Definition value_wf (v : Value) : Prop :=
  match Kind v with
  | ValueNull => v = NullValue
  | ValueBoolean => v = BooleanValue (vBoolean v)
  | ValueInteger => v = IntegerValue (vInteger v) ∧ in_int64 (vInteger v)
  | ValueFloat => v = FloatValue (vFloat v) ∧ float_wf (vFloat v) = true ∧ is_nan (vFloat v) = false
  | ValueString => v = StringValue (vStr v)
  | ValueInvalid _ => False
  end.

Lemma three_way_lt lt gt : (three_way lt gt < 0) ↔ lt = true.
Proof. unfold three_way. destruct lt, gt; split; intros; done || lia. Qed.

Lemma strings_Compare_antisym a b : strings_Compare b a = - strings_Compare a b.
Proof.
  unfold strings_Compare. rewrite (bytes_compare_antisym a b).
  by destruct (bytes_compare a b).
Qed.

Lemma strings_Compare_0 a b : strings_Compare a b = 0 ↔ a = b.
Proof.
  unfold strings_Compare. rewrite <-bytes_compare_eq. by destruct (bytes_compare a b).
Qed.

(** Lexicographic comparison of integer sequences: every column of the
    database embeds in it. *)
Fixpoint lex (a b : list Z) : comparison :=
  match a, b with
  | [], [] => Eq
  | [], _ => Lt
  | _, [] => Gt
  | x :: a, y :: b => match x ?= y with Eq => lex a b | c => c end
  end.

Lemma lex_eq a b : lex a b = Eq ↔ a = b.
Proof.
  split; [|intros ->; by induction b as [|y b IH]; simpl; rewrite ?Z.compare_refl].
  revert b. induction a as [|x a IH]; intros [|y b]; simpl; try done.
  destruct (Z.compare_spec x y); [|done..]. intros ?%IH. congruence.
Qed.

Lemma lex_antisym a b : lex b a = CompOpp (lex a b).
Proof.
  revert b. induction a as [|x a IH]; intros [|y b]; simpl; try done.
  rewrite (Z.compare_antisym x y). destruct (x ?= y); simpl; auto.
Qed.

Lemma lex_trans a b c : lex a b ≠ Gt → lex b c ≠ Gt → lex a c ≠ Gt.
Proof.
  revert b c. induction a as [|x a IH]; intros [|y b] [|z c]; simpl; try done.
  destruct (Z.compare_spec x y), (Z.compare_spec y z), (Z.compare_spec x z); try done; try lia.
  apply IH.
Qed.

Lemma bytes_compare_lex a b : bytes_compare a b = lex (map byte_Z a) (map byte_Z b).
Proof. revert b. induction a as [|x a IH]; intros [|y b]; simpl; try done. by rewrite IH. Qed.

(** the position of a float on the number line *)
Definition float_key (x : float64) : list Z :=
  match x with
  | S754_infinity true => [-2]
  | S754_finite true m e => [-1; - e; - Zpos m]
  | S754_zero _ | S754_nan => [0]
  | S754_finite false m e => [1; e; Zpos m]
  | S754_infinity false => [2]
  end.

Lemma SFcompare_lex x y :
  is_nan x = false → is_nan y = false → SFcompare x y = Some (lex (float_key x) (float_key y)).
Proof.
  intros Hx Hy. destruct x as [sx|sx| |sx mx ex], y as [sy|sy| |sy my ey]; try done;
    destruct sx, sy; try done; unfold SFcompare, float_key; cbn -[Z.opp Z.compare].
  - rewrite !Z.compare_opp, (Z.compare_antisym ex ey). 
    destruct (ex ?= ey); cbn; try done. change (Z.neg ?m) with (- Z.pos m).
    rewrite (Pos.compare_antisym mx my). unfold Pos.compare. by destruct (PosDef.Pos.compare_cont Eq mx my).
  - destruct (ex ?= ey); cbn; try done. unfold Pos.compare. by destruct (PosDef.Pos.compare_cont Eq mx my).
Qed.

Definition sign (c : comparison) : Z := match c with Lt => -1 | Eq => 0 | Gt => 1 end.

Lemma float_three_way_lex x y :
  is_nan x = false → is_nan y = false →
  float_three_way x y = sign (lex (float_key x) (float_key y)).
Proof.
  intros Hx Hy. unfold float_three_way, three_way, float_lt, float_gt, SFltb.
  rewrite !SFcompare_lex by done. rewrite (lex_antisym (float_key x)).
  by destruct (lex (float_key x) (float_key y)).
Qed.

(** [v] may stand in a column of type [t] *)
Definition of_type (t : DataType) (v : Value) : Prop :=
  Kind v = ValueNull ∨ Value_DataType v = Some t.
#[export] Instance of_type_dec t v : Decision (of_type t v).
Proof. unfold of_type. apply _. Defined.

Definition value_not_nan (v : Value) : Prop := Kind v = ValueFloat → is_nan (vFloat v) = false.

Definition value_key (v : Value) : list Z :=
  match Kind v with
  | ValueNull => [0]
  | ValueBoolean => [1; Z.b2z (vBoolean v)]
  | ValueInteger => [1; vInteger v]
  | ValueFloat => 1 :: float_key (vFloat v)
  | ValueString => 1 :: map byte_Z (vStr v)
  | ValueInvalid _ => []
  end.

(** within a column, [Compare] never fails and is the order of the keys, with
    NULL first *)
Lemma Compare_lex t v w :
  of_type t v → of_type t w → value_not_nan v → value_not_nan w →
  Compare v w = Ok (sign (lex (value_key v) (value_key w))).
Proof.
  unfold of_type, value_not_nan, Value_DataType, Compare, value_key.
  destruct v as [kv bv iv fv sv], w as [kw bw iw fw sw]; cbn -[bytes_compare].
  destruct kv, kw; intros [Hv|Hv] [Hw|Hw] Nv Nw; simplify_eq/=; try done.
  - by destruct bv, bw.
  - unfold three_way. rewrite Z.gtb_ltb. unfold Z.ltb. rewrite (Z.compare_antisym iv iw).
    by destruct (iv ?= iw).
  - by rewrite float_three_way_lex by auto.
  - unfold strings_Compare. rewrite bytes_compare_lex. by destruct (lex _ _).
Qed.

Lemma sign_opp c : sign (CompOpp c) = - sign c.
Proof. by destruct c. Qed.

Lemma sign_le c : sign c ≤ 0 ↔ c ≠ Gt.
Proof. destruct c; cbn; split; intros; done || lia. Qed.

Lemma float_eq_key x y :
  is_nan x = false → is_nan y = false →
  float_eq x y = true ↔ lex (float_key x) (float_key y) = Eq.
Proof.
  intros Hx Hy. unfold float_eq, SFeqb. rewrite SFcompare_lex by done.
  by destruct (lex (float_key x) (float_key y)).
Qed.

(** the grouping map identifies exactly the values [Compare] finds equal *)
Lemma value_eqb_key t v w :
  of_type t v → of_type t w → value_wf v → value_wf w →
  lex (value_key v) (value_key w) = Eq ↔ value_eqb v w = true.
Proof.
  unfold of_type, Value_DataType, value_wf, value_eqb, value_key.
  destruct v as [kv bv iv fv sv], w as [kw bw iw fw sw];
    cbn -[NullValue BooleanValue IntegerValue FloatValue StringValue float_eq].
  destruct kv, kw; intros [Hv|Hv] [Hw|Hw] Wv Ww; try done;
    repeat match goal with H : _ ∧ _ |- _ => destruct H end;
    unfold NullValue, BooleanValue, IntegerValue, FloatValue, StringValue in *; simplify_eq/=; try done.
  - by destruct bv, bw.
  - destruct (Z.compare_spec iv iw), (Z.eqb_spec iv iw); cbn; try done; lia.
  - rewrite <-float_eq_key by done. by destruct (float_eq fv fw).
  - rewrite <-bytes_compare_lex, bytes_compare_eq. destruct (decide (sv = sw)).
    + subst. by rewrite !bool_decide_eq_true_2.
    + by rewrite (bool_decide_eq_false_2 (sv = sw)).
Qed.
