(* ===== verification/Floats.v ===== *)
(** * Rounding stays in the format

    The results of [float_div] and of [binary_normalize] are numbers of the
    binary64 format: their mantissa has at most 53 bits and their exponent is
    the canonical one. *)

From S2P Require Import Prelude Bytes Types.

Lemma digits2_pos_bounds m :
  2 ^ (Zpos (digits2_pos m) - 1) ≤ Zpos m < 2 ^ Zpos (digits2_pos m).
Proof.
  induction m as [m IH|m IH|]; cbn [digits2_pos]; [..|done].
  all: rewrite Pos2Z.inj_succ, <-Z.add_1_r.
  all: replace (Z.pos (digits2_pos m) + 1 - 1) with (Z.succ (Z.pos (digits2_pos m) - 1)) by lia.
  all: rewrite (Z.pow_succ_r 2 (Z.pos (digits2_pos m) - 1)) by lia.
  all: rewrite (Z.pow_add_r 2 (Z.pos (digits2_pos m)) 1) by lia.
  all: rewrite ?(Pos2Z.inj_xI m), ?(Pos2Z.inj_xO m); lia.
Qed.

Lemma Zdigits2_log2 m : 0 < m → Zdigits2 m = Z.log2 m + 1.
Proof.
  destruct m as [|p|p]; try lia. intros _. cbn [Zdigits2].
  pose proof (digits2_pos_bounds p). rewrite (Z.log2_unique (Zpos p) (Zpos (digits2_pos p) - 1)); [lia|lia|].
  by replace (Z.succ (Z.pos (digits2_pos p) - 1)) with (Z.pos (digits2_pos p)) by lia.
Qed.

(** ** Shifting *)

Lemma shr_1_half r : 0 ≤ shr_m r → shr_m (shr_1 r) = shr_m r / 2.
Proof.
  destruct r as [[|[p|p|]|p] rr ss]; cbn [shr_1 shr_m]; intros; try lia; try done.
  - rewrite Pos2Z.inj_xI. apply (Z.div_unique _ _ _ 1); lia.
  - rewrite Pos2Z.inj_xO. apply (Z.div_unique _ _ _ 0); lia.
Qed.

Lemma iter_shr p r : 0 ≤ shr_m r → shr_m (iter_pos shr_1 p r) = Z.shiftr (shr_m r) (Zpos p).
Proof.
  rewrite Z.shiftr_div_pow2 by lia. revert r. induction p as [p IH|p IH|]; intros r Hr; cbn [iter_pos].
  - assert (0 ≤ shr_m (shr_1 r)) by (rewrite shr_1_half by done; by apply Z.div_pos).
    rewrite IH, IH, shr_1_half by (try done; rewrite IH by done; apply Z.div_pos; lia).
    rewrite !Zdiv_Zdiv by lia. f_equal. rewrite (Pos2Z.inj_xI p), Z.pow_add_r, Z.mul_comm, Z.pow_twice_r by lia. lia.
  - rewrite IH, IH by (try done; rewrite IH by done; apply Z.div_pos; lia).
    rewrite Zdiv_Zdiv by lia. f_equal. rewrite (Pos2Z.inj_xO p), Z.pow_twice_r by lia. lia.
  - by rewrite shr_1_half.
Qed.

(** the exponent of a mantissa of [d] digits scaled by [e] *)
Abbreviation fexp64 := (fexp prec emax).

Lemma fexp64_eq x : fexp64 x = Z.max (x - 53) (-1074).
Proof. done. Qed.

Lemma shr_fexp_eq m e l :
  0 ≤ m →
  let d := Z.max 0 (fexp64 (Zdigits2 m + e) - e) in
  shr_m (shr_fexp prec emax m e l).1 = Z.shiftr m d ∧ (shr_fexp prec emax m e l).2 = e + d.
Proof.
  intros Hm. unfold shr_fexp, shr. set (d := fexp64 (Zdigits2 m + e) - e).
  assert (shr_m (shr_record_of_loc m l) = m) as Hl by (by destruct l as [|[]]).
  destruct d as [|p|p]; cbn [fst snd]; rewrite ?iter_shr by lia; rewrite Hl.
  - change (Z.max 0 0) with 0. rewrite Z.shiftr_0_r. lia.
  - rewrite Z.max_r by lia. done.
  - rewrite Z.max_l by lia. rewrite Z.shiftr_0_r. lia.
Qed.

Lemma log2_shiftr_pos m d : 0 < m → 0 ≤ d ≤ Z.log2 m → 0 < Z.shiftr m d ∧ Z.log2 (Z.shiftr m d) = Z.log2 m - d.
Proof.
  intros Hm Hd. split; [|rewrite Z.log2_shiftr; lia].
  assert (Z.shiftr m d ≠ 0) as Hne by (intros [?|[_ ?]]%Z.shiftr_eq_0_iff; lia).
  pose proof (proj2 (Z.shiftr_nonneg m d)). lia.
Qed.

(** ** Rounding *)

Lemma round_nearest_even_or m l : round_nearest_even m l = m ∨ round_nearest_even m l = m + 1.
Proof. destruct l as [|[]]; cbn; auto. destruct (Z.even m); auto. Qed.

(** the mantissa after the first shift and rounding, shifted once more, is canonical *)
Lemma rounded_canonical m e m2 :
  0 ≤ m → e ≤ fexp64 (Zdigits2 m + e) →
  let e1 := fexp64 (Zdigits2 m + e) in
  let m1 := Z.shiftr m (e1 - e) in
  m2 = m1 ∨ m2 = m1 + 1 →
  let d := Z.max 0 (fexp64 (Zdigits2 m2 + e1) - e1) in
  0 < Z.shiftr m2 d → fexp64 (Zdigits2 (Z.shiftr m2 d) + (e1 + d)) = e1 + d.
Proof.
  intros Hm He e1 m1 Hm2 d Hpos.
  assert (m1 = 0 ∧ e1 = -1074 ∨ 0 < m1 ∧ Zdigits2 m1 + e1 = Zdigits2 m + e) as [[H1 H2]|[H1 H2]].
  { destruct (decide (m = 0)) as [->|Hne].
    - left. subst m1 e1. rewrite Z.shiftr_0_l. change (Zdigits2 0) with 0 in *.
      rewrite fexp64_eq in *. lia.
    - subst e1 m1. pose proof (Z.log2_nonneg m). rewrite Zdigits2_log2 in * by lia. rewrite fexp64_eq in *.
      set (E := Z.max _ _) in *. destruct (decide (E - e ≤ Z.log2 m)) as [Hle|Hgt]; [right|left].
      + destruct (log2_shiftr_pos m (E - e)) as [Hp Hl]; [lia..|]. split; [done|].
        rewrite Zdigits2_log2, Hl by done. lia.
      + split; [apply Z.shiftr_eq_0; lia|]. lia. }
  - assert (m2 = 0 ∨ m2 = 1) as [->| ->] by lia.
    + by rewrite Z.shiftr_0_l in Hpos.
    + assert (d = 0) as ->.
      { subst d. change (Zdigits2 1) with 1. rewrite fexp64_eq. lia. }
      rewrite Z.shiftr_0_r. change (Zdigits2 1) with 1. rewrite fexp64_eq. lia.
  - assert (fexp64 (Zdigits2 m1 + e1) = e1) as Hc by (by rewrite H2).
    assert (m2 = m1 ∨ m2 = m1 + 1 ∧ Z.log2 m2 = Z.log2 m1 + 1 ∨ 0 < m2 ∧ Z.log2 m2 = Z.log2 m1) as Hl.
    { destruct Hm2 as [->| ->]; [auto|right]. pose proof (Z.log2_succ_or m1) as Hs.
      rewrite <-!Z.add_1_r in Hs. lia. }
    destruct Hl as [->|[[-> Hl]|[Hp Hl]]].
    + assert (d = 0) as -> by (subst d; lia). by rewrite Z.shiftr_0_r, Z.add_0_r.
    + assert (d = Z.max 0 (Z.max (Z.log2 m1 + 1 + 1 + e1 - 53) (-1074) - e1)) as Hd
        by (subst d; by rewrite Zdigits2_log2, Hl by lia).
      clearbody d.
      rewrite Zdigits2_log2, fexp64_eq in Hc by lia. pose proof (Z.log2_nonneg m1).
      destruct (log2_shiftr_pos (m1 + 1) d) as [Hp' Hl']; [lia..|].
      rewrite Zdigits2_log2, Hl', Hl, fexp64_eq by lia. lia.
    + assert (Zdigits2 m2 = Zdigits2 m1) as Hd by (rewrite !Zdigits2_log2; lia).
      assert (d = 0) as -> by (subst d; rewrite Hd; lia).
      by rewrite Z.shiftr_0_r, Z.add_0_r, Hd.
Qed.

Lemma binary_round_aux_wf s m e l :
  0 ≤ m → e ≤ fexp64 (Zdigits2 m + e) → float_wf (binary_round_aux prec emax s m e l) = true.
Proof.
  intros Hm He. unfold binary_round_aux. pose proof (shr_fexp_eq m e l Hm) as [H1 H2]. cbn zeta in H1, H2.
  destruct (shr_fexp prec emax m e l) as [r1 e1]. cbn [fst snd] in H1, H2. rewrite Z.max_r in H1, H2 by lia.
  set (m2 := round_nearest_even _ _).
  assert (m2 = shr_m r1 ∨ m2 = shr_m r1 + 1) as Hm2 by apply round_nearest_even_or.
  assert (0 ≤ shr_m r1) as Hr1 by (rewrite H1; by apply Z.shiftr_nonneg).
  pose proof (shr_fexp_eq m2 e1 loc_Exact ltac:(lia)) as [H3 H4]. cbn zeta in H3, H4.
  destruct (shr_fexp prec emax m2 e1 loc_Exact) as [r2 e2]. cbn [fst snd] in H3, H4.
  assert (e1 = fexp64 (Zdigits2 m + e)) as -> by lia. rewrite H1 in Hm2.
  pose proof (rounded_canonical m e m2 Hm He Hm2) as Hc. cbn zeta in Hc. rewrite <-H3, <-H4 in Hc.
  destruct (shr_m r2) as [|p|p] eqn:Hp; [done| |done].
  destruct (Z.leb_spec e2 (emax - prec)); [|done].
  unfold float_wf, valid_binary, bounded, canonical_mantissa. cbn [Zdigits2] in Hc.
  rewrite Hc by lia. rewrite Z.eqb_refl. cbn. by apply Z.leb_le.
Qed.

(** ** Division *)

Lemma digits_quotient m1 m2 s :
  0 < m1 → 0 < m2 → 0 ≤ s →
  Zdigits2 m1 + s - Zdigits2 m2 ≤ Zdigits2 (Z.shiftl m1 s / m2).
Proof.
  intros H1 H2 Hs. rewrite Z.shiftl_mul_pow2 by done. set (k := Z.log2 m1 + s - (Z.log2 m2 + 1)).
  rewrite (Zdigits2_log2 m1), (Zdigits2_log2 m2) by done.
  destruct (decide (k < 0)) as [Hk|Hk].
  - assert (0 ≤ Zdigits2 (m1 * 2 ^ s / m2)); [|lia].
    pose proof (Z.div_pos (m1 * 2 ^ s) m2 ltac:(lia) H2). by destruct (_ / m2).
  - destruct (Z.log2_spec m1 H1) as [Hl1 _]. destruct (Z.log2_spec m2 H2) as [_ Hl2].
    pose proof (Z.log2_nonneg m1). pose proof (Z.log2_nonneg m2).
    assert (2 ^ k ≤ m1 * 2 ^ s / m2) as Hq.
    { apply Z.div_le_lower_bound; [done|].
      transitivity (2 ^ (Z.log2 m1 + s)).
      - replace (Z.log2 m1 + s) with (Z.succ (Z.log2 m2) + k) by lia. rewrite Z.pow_add_r by lia.
        apply Z.mul_le_mono_nonneg_r; lia.
      - rewrite Z.pow_add_r by lia. apply Z.mul_le_mono_nonneg_r; lia. }
    assert (0 < 2 ^ k) by lia. pose proof (Z.log2_le_mono _ _ Hq) as Hle. rewrite Z.log2_pow2 in Hle by lia.
    rewrite Zdigits2_log2 by lia. lia.
Qed.

Lemma float_div_wf sx mx ex sy my ey :
  float_wf (float_div (S754_finite sx mx ex) (S754_finite sy my ey)) = true.
Proof.
  unfold float_div, SFdiv, SFdiv_core_binary.
  set (e' := Z.min _ _). set (s := ex - ey - e').
  assert (match s with 0 => Zpos mx | Zpos _ => Z.shiftl (Zpos mx) s | Zneg _ => 0 end
    = Z.shiftl (Zpos mx) s) as -> by (destruct s eqn:E; [done|done|lia]).
  pose proof (digits_quotient (Zpos mx) (Zpos my) s ltac:(done) ltac:(done) ltac:(lia)) as Hd.
  assert (0 ≤ Z.shiftl (Zpos mx) s / Zpos my) as Hq.
  { apply Z.div_pos; [|done]. by apply Z.shiftl_nonneg. }
  unfold Z.div in Hd, Hq. destruct (Z.div_eucl _ _) as [q r].
  apply binary_round_aux_wf; [done|]. subst s. rewrite fexp64_eq in *. subst e'. rewrite !fexp64_eq in *. lia.
Qed.

(** ** Normalisation, hence conversion and addition *)

Lemma shl_align_pos mx ex e :
  let '(mz, ez) := shl_align mx ex e in
  ez = Z.min ex e ∧ Zpos mz = Z.shiftl (Zpos mx) (ex - ez).
Proof.
  unfold shl_align. destruct (e - ex) as [|d|d] eqn:E.
  - split; [lia|]. replace (ex - ex) with 0 by lia. by rewrite Z.shiftl_0_r.
  - split; [lia|]. replace (ex - ex) with 0 by lia. by rewrite Z.shiftl_0_r.
  - split; [lia|]. replace (ex - e) with (Zpos d) by lia. cbn [Z.shiftl].
    by apply (Pos.iter_swap_gen _ _ Zpos).
Qed.

Lemma binary_round_wf s mx ex : float_wf (binary_round prec emax s mx ex) = true.
Proof.
  unfold binary_round. set (e := fexp64 _). pose proof (shl_align_pos mx ex e) as H.
  destruct (shl_align mx ex e) as [mz ez]. destruct H as [-> Hz].
  apply binary_round_aux_wf; [done|]. rewrite Hz, Zdigits2_log2 by (rewrite <-Hz; done).
  rewrite Z.log2_shiftl by lia.
  replace (Z.log2 (Z.pos mx) + (ex - Z.min ex e) + 1 + Z.min ex e) with (Z.log2 (Z.pos mx) + 1 + ex) by lia.
  rewrite <-Zdigits2_log2 by done. change (Zdigits2 (Zpos mx)) with (Zpos (digits2_pos mx)). lia.
Qed.

Lemma float_of_int_wf z : float_wf (float_of_int z) = true.
Proof. unfold float_of_int, binary_normalize. destruct z; [done|apply binary_round_wf..]. Qed.

Lemma float_add_wf x y : float_wf x = true → float_wf y = true → float_wf (float_add x y) = true.
Proof.
  intros Hx Hy. unfold float_add, SFadd. destruct x as [[]|[]| |], y as [[]|[]| |]; try done.
  all: unfold binary_normalize; by case_match; [|apply binary_round_wf..].
Qed.
