(* ===== verification/Lexer.v ===== *)
(** * The lexer ([lexer/token.go], [lexer/lexer.go])

    A [Lexer] is the input and a byte offset; the scanning methods move the
    offset.  A Go [for] loop over the remaining input is structural recursion
    on it; [TokenizeAll] has fuel, and [LexerProps.v] proves that one unit per
    input byte and one for the end is enough. *)

From S2P Require Import Prelude Bytes Types.

(** ** Tokens *)

(** [Keyword] is a string type *)
Abbreviation Keyword := (list Init.Byte.byte).
Definition KeywordCreate : Keyword := str "CREATE".
Definition KeywordTable : Keyword := str "TABLE".
Definition KeywordInt : Keyword := str "INT".
Definition KeywordInteger : Keyword := str "INTEGER".
Definition KeywordBoolean : Keyword := str "BOOLEAN".
Definition KeywordBool : Keyword := str "BOOL".
Definition KeywordString : Keyword := str "STRING".
Definition KeywordText : Keyword := str "TEXT".
Definition KeywordVarchar : Keyword := str "VARCHAR".
Definition KeywordFloat : Keyword := str "FLOAT".
Definition KeywordDouble : Keyword := str "DOUBLE".
Definition KeywordSelect : Keyword := str "SELECT".
Definition KeywordFrom : Keyword := str "FROM".
Definition KeywordInsert : Keyword := str "INSERT".
Definition KeywordInto : Keyword := str "INTO".
Definition KeywordValues : Keyword := str "VALUES".
Definition KeywordTrue : Keyword := str "TRUE".
Definition KeywordFalse : Keyword := str "FALSE".
Definition KeywordDefault : Keyword := str "DEFAULT".
Definition KeywordNot : Keyword := str "NOT".
Definition KeywordNull : Keyword := str "NULL".
Definition KeywordPrimary : Keyword := str "PRIMARY".
Definition KeywordKey : Keyword := str "KEY".
Definition KeywordUpdate : Keyword := str "UPDATE".
Definition KeywordSet : Keyword := str "SET".
Definition KeywordWhere : Keyword := str "WHERE".
Definition KeywordDelete : Keyword := str "DELETE".
Definition KeywordGroup : Keyword := str "GROUP".
Definition KeywordHaving : Keyword := str "HAVING".
Definition KeywordOrder : Keyword := str "ORDER".
Definition KeywordBy : Keyword := str "BY".
Definition KeywordAsc : Keyword := str "ASC".
Definition KeywordDesc : Keyword := str "DESC".
Definition KeywordLimit : Keyword := str "LIMIT".
Definition KeywordOffset : Keyword := str "OFFSET".
Definition KeywordAs : Keyword := str "AS".
Definition KeywordCross : Keyword := str "CROSS".
Definition KeywordJoin : Keyword := str "JOIN".
Definition KeywordLeft : Keyword := str "LEFT".
Definition KeywordRight : Keyword := str "RIGHT".
Definition KeywordOn : Keyword := str "ON".

Definition keywords : list Keyword :=
  [ KeywordCreate; KeywordTable; KeywordInt; KeywordInteger;
    KeywordBoolean; KeywordBool; KeywordString; KeywordText;
    KeywordVarchar; KeywordFloat; KeywordDouble; KeywordSelect;
    KeywordFrom; KeywordInsert; KeywordInto; KeywordValues;
    KeywordTrue; KeywordFalse; KeywordDefault; KeywordNot;
    KeywordNull; KeywordPrimary; KeywordKey;
    KeywordUpdate; KeywordSet; KeywordWhere; KeywordDelete;
    KeywordOrder; KeywordBy; KeywordAsc; KeywordDesc;
    KeywordLimit; KeywordOffset; KeywordAs;
    KeywordCross; KeywordJoin;
    KeywordLeft; KeywordRight; KeywordOn;
    KeywordGroup; KeywordHaving ].

Inductive TokenKind :=
  | EndOfInput | KeywordKind | Identifier | TString | Number | OpenParen | CloseParen
  | Comma | Semicolon | Asterisk | Plus | Minus | Slash | Equal | GreaterThan | LessThan.

#[export] Instance TokenKind_eq_dec : EqDecision TokenKind.
Proof. solve_decision. Defined.

(** the dynamic type and value of [Token.Value] *)
Inductive token_value :=
  | NoValue
  | StrValue (s : bytes)
  | IntValue (z : Z)
  | FltValue (f : float64).

Record Token := mkToken {
  tok_kind : TokenKind;
  tok_keyword : Keyword;
  tok_value : token_value;
  tok_offset : nat;
}.

#[export] Instance token_value_eq_dec : EqDecision token_value.
Proof. solve_decision. Defined.
#[export] Instance Token_eq_dec : EqDecision Token.
Proof. solve_decision. Defined.

(** ** ASCII *)

Definition in_bytes (lo hi b : byte) : bool :=
  (byte_Z lo <=? byte_Z b) && (byte_Z b <=? byte_Z hi).

Definition isDigit (b : byte) : bool := in_bytes x30 x39 b.
Definition isIdentifierStart (b : byte) : bool :=
  in_bytes x61 x7a b || in_bytes x41 x5a b || bool_decide (b = x5f).
Definition isIdentifierPart (b : byte) : bool := isIdentifierStart b || isDigit b.

(** [strings.ToUpper] and [strings.ToLower] on ASCII text, the only text they
    are given *)
Definition upper_byte (b : byte) : byte := if in_bytes x61 x7a b then Z_byte (byte_Z b - 32) else b.
Definition lower_byte (b : byte) : byte := if in_bytes x41 x5a b then Z_byte (byte_Z b + 32) else b.
Definition ToUpper (s : bytes) : bytes := map upper_byte s.
Definition ToLower (s : bytes) : bytes := map lower_byte s.

Definition KeywordFromIdentifier (identifier : bytes) : option Keyword :=
  let keyword := ToUpper identifier in
  if decide (keyword ∈ keywords) then Some keyword else None.

(** ** [strconv] on the texts the lexer hands over *)

Definition digits_value (text : bytes) : Z :=
  foldl (λ acc b, acc * 10 + (byte_Z b - 48)) 0 text.

Definition ErrRange : error := Errorf "value out of range".
Definition ErrSyntax : error := Errorf "invalid syntax".

(** [strconv.ParseInt(text, 10, 64)] on unsigned text *)
Definition ParseInt (text : bytes) : result Z :=
  if decide (text = []) then Err (Wrapf "strconv.ParseInt" ErrSyntax)
  else if negb (forallb isDigit text) then Err (Wrapf "strconv.ParseInt" ErrSyntax)
  else if digits_value text <=? max_int64 then Ok (digits_value text)
  else Err (Wrapf "strconv.ParseInt" ErrRange).

(** the float nearest to [n / 10^k] *)
Definition decimal_float (n : Z) (k : nat) : float64 :=
  match n with
  | Zpos p =>
      float_div (S754_finite false p 0) (S754_finite false (Z.to_pos (10 ^ Z.of_nat k)) 0)
  | _ => float_zero
  end.

(** the digits before the first dot, and those after it *)
Fixpoint split_dot (text : bytes) : bytes * bytes :=
  match text with
  | [] => ([], [])
  | b :: text =>
      if decide (b = x2e) then ([], text)
      else let '(whole, frac) := split_dot text in (b :: whole, frac)
  end.

(** [strconv.ParseFloat(text, 64)] on unsigned text without exponent *)
Definition ParseFloat (text : bytes) : result float64 :=
  let '(whole, frac) := split_dot text in
  if negb (forallb isDigit (whole ++ frac)) then Err (Wrapf "strconv.ParseFloat" ErrSyntax)
  else if decide (whole ++ frac = []) then Err (Wrapf "strconv.ParseFloat" ErrSyntax)
  else
    match decimal_float (digits_value (whole ++ frac)) (length frac) with
    | S754_infinity _ => Err (Wrapf "strconv.ParseFloat" ErrRange)
    | f => Ok f
    end.

(** ** The lexer *)

Record Lexer := mkLexer { input : bytes; offset : nat }.

Definition New (input : bytes) : Lexer := mkLexer input 0.

Definition atEnd (l : Lexer) : bool := bool_decide (length (input l) ≤ offset l)%nat.

Definition peek (l : Lexer) : byte := default x00 (input l !! offset l).

(** a panic past the end *)
Definition advance : ST Lexer byte := λ l,
  match input l !! offset l with
  | Some b => (mkLexer (input l) (S (offset l)), Ok b)
  | None => (l, Panic IndexOutOfRange)
  end.

Definition set_offset (n : nat) (l : Lexer) : Lexer := mkLexer (input l) n.

(** [for !l.atEnd() && p(l.peek()) { l.offset++ }]: the number of steps over
    the remaining input *)
Fixpoint span (p : byte → bool) (remaining : bytes) : nat :=
  match remaining with
  | b :: remaining => if p b then S (span p remaining) else O
  | [] => O
  end.

Definition skip (p : byte → bool) (l : Lexer) : Lexer :=
  set_offset (offset l + span p (drop (offset l) (input l))) l.

Definition isSpace (b : byte) : bool :=
  bool_decide (b ∈ [x20; x09; x0d; x0a; x0c; x0b]).

Definition skipWhitespace : ST Lexer unit := λ l, (skip isSpace l, Ok ()).

(** [l.input[begin:end]] *)
Definition text_between (begin end_ : nat) (l : Lexer) : bytes :=
  take (end_ - begin) (drop begin (input l)).

Definition scanIdentifier : ST Lexer Token := λ l,
  let begin := offset l in
  let l := skip isIdentifierPart l in
  let text := text_between begin (offset l) l in
  match KeywordFromIdentifier text with
  | Some keyword => (l, Ok (mkToken KeywordKind keyword NoValue begin))
  | None => (l, Ok (mkToken Identifier [] (StrValue (ToLower text)) begin))
  end.

Definition number_token (is_float : bool) (begin : nat) (l : Lexer) : result Token :=
  let text := text_between begin (offset l) l in
  if is_float then
    match ParseFloat text with
    | Ok value => Ok (mkToken Number [] (FltValue value) begin)
    | Err _ => Err (Errorf "lexer: invalid number literal %q at %s")
    | Panic p => Panic p
    end
  else
    match ParseInt text with
    | Ok value => Ok (mkToken Number [] (IntValue value) begin)
    | Err err =>
        if errors_is ErrRange err
        then Err (Errorf "lexer: integer literal out of range at %s")
        else Err (Errorf "lexer: invalid integer literal %q at %s")
    | Panic p => Panic p
    end.

Definition scanNumber : ST Lexer Token := λ l,
  let begin := offset l in
  let l := skip isDigit l in
  let isFloat := negb (atEnd l) && bool_decide (peek l = x2e) in
  if isFloat then
    let l := set_offset (S (offset l)) l in
    if atEnd l || negb (isDigit (peek l))
    then (l, Err (Errorf "lexer: digits required after decimal point at %s"))
    else let l := skip isDigit l in (l, number_token true begin l)
  else (l, number_token false begin l).

(** [strings.IndexByte] *)
Fixpoint IndexByte (s : bytes) (c : byte) : option nat :=
  match s with
  | [] => None
  | b :: s => if decide (b = c) then Some O else S <$> IndexByte s c
  end.

Definition scanString : ST Lexer Token :=
  let! begin := sread (λ l, Ok (offset l)) in
  let! _ := advance in
  λ l,
    match IndexByte (drop (offset l) (input l)) x27 with
    | None =>
        (set_offset (length (input l)) l, Err (Errorf "lexer: unterminated string literal at %s"))
    | Some relativeEnd =>
        let valueStart := offset l in
        let l := set_offset (offset l + (relativeEnd + 1)) l in
        (l, Ok (mkToken TString [] (StrValue (text_between valueStart (offset l - 1) l)) begin))
    end.

Definition symbol_kind (b : byte) : option TokenKind :=
  match b with
  | x28 => Some OpenParen
  | x29 => Some CloseParen
  | x2c => Some Comma
  | x3b => Some Semicolon
  | x2a => Some Asterisk
  | x2b => Some Plus
  | x2d => Some Minus
  | x2f => Some Slash
  | x3d => Some Equal
  | x3e => Some GreaterThan
  | x3c => Some LessThan
  | _ => None
  end%byte.

Definition scanSymbol : ST Lexer Token := λ l,
  match symbol_kind (peek l) with
  | Some kind => (set_offset (S (offset l)) l, Ok (mkToken kind [] NoValue (offset l)))
  | None => (l, Err (Errorf "lexer: unexpected character %q at %s"))
  end.

Definition Next : ST Lexer Token :=
  skipWhitespace ;;!
  λ l,
    if atEnd l then (l, Ok (mkToken EndOfInput [] NoValue (offset l)))
    else if decide (peek l = x27) then scanString l
    else if isDigit (peek l) then scanNumber l
    else if isIdentifierStart (peek l) then scanIdentifier l
    else scanSymbol l.

Fixpoint TokenizeAll_loop (fuel : nat) (tokens : list Token) : ST Lexer (list Token) :=
  match fuel with
  | O => slift (Panic Diverges)
  | S fuel =>
      let! token := Next in
      let tokens := tokens ++ [token] in
      if decide (tok_kind token = EndOfInput) then sret tokens
      else TokenizeAll_loop fuel tokens
  end.

Definition TokenizeAll : ST Lexer (list Token) := λ l,
  TokenizeAll_loop (S (length (input l))) [] l.

Definition Lex (input : bytes) : result (list Token) := (TokenizeAll (New input)).2.
