(* ===== verification/LexerProps.v ===== *)
(** * What the lexer guarantees

    [Next] moves the offset forward on every token, so [TokenizeAll] ends;
    every token has the shape its kind promises to the parser; and the text of
    a token, in any letter case and with any white space around it, is lexed
    to that token. *)

From S2P Require Import Prelude Bytes Types Floats Lexer.

(** ** Runs of bytes *)

Lemma span_le p s : (span p s ≤ length s)%nat.
Proof. induction s as [|b s IH]; simpl; [lia|]. destruct (p b); lia. Qed.

Lemma span_all p s : Forall (λ b, p b = true) (take (span p s) s).
Proof. induction s as [|b s IH]; simpl; [constructor|]. destruct (p b) eqn:E; by constructor. Qed.

Lemma span_stop p s b : s !! span p s = Some b → p b = false.
Proof.
  induction s as [|c s IH]; simpl; [done|]. destruct (p c) eqn:E; simpl; [done|]. by intros [= ->].
Qed.

Lemma span_app p s t :
  Forall (λ b, p b = true) s → (∀ b, head t = Some b → p b = false) →
  span p (s ++ t) = length s.
Proof.
  intros Hs Ht. induction Hs as [|b s Hb Hs IH]; simpl.
  - destruct t as [|b t]; [done|]. simpl. by rewrite (Ht b).
  - by rewrite Hb, IH.
Qed.

Lemma span_pos p b s : p b = true → (0 < span p (b :: s))%nat.
Proof. simpl. intros ->. lia. Qed.

Lemma peek_lookup l : atEnd l = false → input l !! offset l = Some (peek l).
Proof.
  unfold atEnd, peek. rewrite bool_decide_eq_false. intros Hn.
  destruct (lookup_lt_is_Some_2 (input l) (offset l)) as [b ->]; [lia|done].
Qed.

Lemma atEnd_false l : atEnd l = false ↔ (offset l < length (input l))%nat.
Proof. unfold atEnd. rewrite bool_decide_eq_false. lia. Qed.

Lemma atEnd_true l : atEnd l = true ↔ (length (input l) ≤ offset l)%nat.
Proof. unfold atEnd. rewrite bool_decide_eq_true. lia. Qed.

Lemma drop_peek l : atEnd l = false → drop (offset l) (input l) = peek l :: drop (S (offset l)) (input l).
Proof. intros H. by apply drop_S, peek_lookup. Qed.

Lemma skip_input p l : input (skip p l) = input l.
Proof. done. Qed.

Lemma skip_offset p l :
  (offset l ≤ length (input l) → offset l ≤ offset (skip p l) ≤ length (input l))%nat.
Proof.
  intros Hl. cbn. pose proof (span_le p (drop (offset l) (input l))) as Hs.
  rewrite length_drop in Hs. lia.
Qed.

Lemma skip_advances p l :
  atEnd l = false → p (peek l) = true → (offset l < offset (skip p l))%nat.
Proof.
  intros He Hp. cbn. rewrite (drop_peek _ He). pose proof (span_pos p (peek l) (drop (S (offset l)) (input l)) Hp). lia.
Qed.

(** the text a [skip] passes over *)
Lemma skip_text p l :
  Forall (λ b, p b = true) (text_between (offset l) (offset (skip p l)) l).
Proof.
  unfold text_between. cbn.
  replace (offset l + span p (drop (offset l) (input l)) - offset l)%nat
    with (span p (drop (offset l) (input l))) by lia. apply span_all.
Qed.

(** ** The shape of a token *)

Definition ident_ok (s : bytes) : Prop :=
  (∃ b rest, s = b :: rest ∧ isIdentifierStart b = true) ∧
  Forall (λ b, isIdentifierPart b = true ∧ lower_byte b = b) s ∧
  KeywordFromIdentifier s = None.

(** a finite number of the format, without a sign *)
Definition finite_float (f : float64) : Prop :=
  match f with S754_zero false => True | S754_finite false _ _ => float_wf f = true | _ => False end.

Definition token_ok (t : Token) : Prop :=
  match tok_kind t with
  | KeywordKind => tok_keyword t ∈ keywords ∧ tok_value t = NoValue
  | Identifier => tok_keyword t = [] ∧ ∃ s, tok_value t = StrValue s ∧ ident_ok s
  | TString => tok_keyword t = [] ∧ ∃ s, tok_value t = StrValue s ∧ x27 ∉ s
  | Number =>
      tok_keyword t = [] ∧
      ((∃ z, tok_value t = IntValue z ∧ 0 ≤ z ≤ max_int64) ∨
       (∃ f, tok_value t = FltValue f ∧ finite_float f))
  | _ => tok_keyword t = [] ∧ tok_value t = NoValue
  end.

(** one byte in all cases: a decidable property of bytes, checked on all 256 *)
Definition all_bytes : list byte := map Z_byte (seqZ 0 256).

Lemma all_bytes_spec b : b ∈ all_bytes.
Proof.
  unfold all_bytes. change (map Z_byte (seqZ 0 256)) with (Z_byte <$> seqZ 0 256).
  apply list_elem_of_fmap. exists (byte_Z b). split; [by rewrite Z_byte_Z|].
  apply elem_of_seqZ. pose proof (byte_Z_range b). lia.
Qed.

Lemma forall_bytes (f : byte → bool) : forallb f all_bytes = true → ∀ b, f b = true.
Proof. rewrite forallb_forall. intros H b. apply H, list_elem_of_In, all_bytes_spec. Qed.

Lemma forall_bytes_eq (f g : byte → byte) :
  forallb (λ b, bool_decide (f b = g b)) all_bytes = true → ∀ b, f b = g b.
Proof. intros H b. pose proof (forall_bytes _ H b) as Hb. by apply bool_decide_eq_true in Hb. Qed.

Lemma lower_part b : isIdentifierPart b = true → isIdentifierPart (lower_byte b) = true.
Proof.
  intros Hb. assert (implb (isIdentifierPart b) (isIdentifierPart (lower_byte b)) = true) as Hi.
  { by apply (forall_bytes (λ b, implb (isIdentifierPart b) (isIdentifierPart (lower_byte b)))). }
  by rewrite Hb in Hi.
Qed.

Lemma lower_start b : isIdentifierStart b = true → isIdentifierStart (lower_byte b) = true.
Proof.
  intros Hb. assert (implb (isIdentifierStart b) (isIdentifierStart (lower_byte b)) = true) as Hi.
  { by apply (forall_bytes (λ b, implb (isIdentifierStart b) (isIdentifierStart (lower_byte b)))). }
  by rewrite Hb in Hi.
Qed.

Lemma lower_lower b : lower_byte (lower_byte b) = lower_byte b.
Proof. by apply (forall_bytes_eq (λ b, lower_byte (lower_byte b)) lower_byte). Qed.

Lemma upper_lower b : upper_byte (lower_byte b) = upper_byte b.
Proof. by apply (forall_bytes_eq (λ b, upper_byte (lower_byte b)) upper_byte). Qed.

Lemma ToUpper_ToLower s : ToUpper (ToLower s) = ToUpper s.
Proof. unfold ToUpper, ToLower. rewrite map_map. apply map_ext, upper_lower. Qed.

(** the token an identifier-like text stands for *)
Lemma identifier_ok b s :
  isIdentifierStart b = true → Forall (λ b, isIdentifierPart b = true) (b :: s) →
  KeywordFromIdentifier (b :: s) = None → ident_ok (ToLower (b :: s)).
Proof.
  intros Hb Hs Hk. split; [|split].
  - eexists _, _. split; [reflexivity|]. by apply lower_start.
  - unfold ToLower. apply Forall_fmap, (Forall_impl _ _ _ Hs). intros c Hc. cbn.
    split; [by apply lower_part|apply lower_lower].
  - unfold KeywordFromIdentifier in *. by rewrite ToUpper_ToLower.
Qed.

Lemma KeywordFromIdentifier_elem s k : KeywordFromIdentifier s = Some k → k ∈ keywords.
Proof. unfold KeywordFromIdentifier. case_decide; naive_solver. Qed.

(** ** Numbers *)

Lemma isDigit_value b : isDigit b = true → 0 ≤ byte_Z b - 48 ≤ 9.
Proof.
  unfold isDigit, in_bytes. rewrite andb_true_iff, !Z.leb_le.
  change (byte_Z x30) with 48. change (byte_Z x39) with 57. lia.
Qed.

Lemma digits_value_nonneg s : Forall (λ b, isDigit b = true) s → 0 ≤ digits_value s.
Proof.
  intros Hs. unfold digits_value. assert (∀ a, 0 ≤ a → 0 ≤ foldl (λ acc b, acc * 10 + (byte_Z b - 48)) a s) as H.
  { induction Hs as [|b s Hb Hs IH]; intros a Ha; simpl; [done|]. apply IH.
    apply isDigit_value in Hb. lia. }
  by apply H.
Qed.

(** division and rounding of positive numbers never give a negative number or NaN *)
Lemma binary_round_aux_finite m e l :
  0 ≤ m →
  match binary_round_aux prec emax false m e l with
  | S754_zero false | S754_finite false _ _ | S754_infinity false => True
  | _ => False
  end.
Proof.
  intros Hm. unfold binary_round_aux. destruct (shr_fexp_eq m e l Hm) as [H1 _].
  destruct (shr_fexp prec emax m e l) as [mrs e1]. cbn in H1.
  set (m2 := round_nearest_even _ _).
  assert (0 ≤ shr_m mrs) as Hr by (rewrite H1; by apply Z.shiftr_nonneg).
  assert (0 ≤ m2) as H2 by (destruct (round_nearest_even_or (shr_m mrs) (loc_of_shr_record mrs)); lia).
  destruct (shr_fexp_eq m2 e1 loc_Exact H2) as [H3 _].
  destruct (shr_fexp prec emax m2 e1 loc_Exact) as [mrs2 e2]. cbn in H3.
  assert (0 ≤ shr_m mrs2) as Hr2 by (rewrite H3; by apply Z.shiftr_nonneg).
  destruct (shr_m mrs2); try done. by destruct (e2 <=? emax - prec).
Qed.

Lemma div_eucl_nonneg x y : 0 ≤ x → 0 < y → 0 ≤ (Z.div_eucl x y).1.
Proof.
  intros Hx Hy. pose proof (Z.div_pos x y Hx Hy) as Hd. unfold Z.div in Hd.
  by destruct (Z.div_eucl x y).
Qed.

Lemma decimal_float_finite n k :
  0 ≤ n →
  match decimal_float n k with S754_infinity _ => True | f => finite_float f end.
Proof.
  intros Hn. destruct n as [|p|p]; cbn [decimal_float]; [done| |lia].
  pose proof (float_div_wf false p 0 false (Z.to_pos (10 ^ Z.of_nat k)) 0) as Hwf.
  unfold float_div, SFdiv in *.
  destruct (SFdiv_core_binary prec emax _ _ _ _) as [[mz ez] lz] eqn:E.
  assert (0 ≤ mz) as Hm.
  { unfold SFdiv_core_binary in E.
    match type of E with context [Z.div_eucl ?x ?y] =>
      assert (0 ≤ (Z.div_eucl x y).1) as Hq; [apply div_eucl_nonneg|
        destruct (Z.div_eucl x y) as [q r]; by injection E as <- _ _] end; [|done].
    destruct (_ - _)%Z; try done. by apply Z.shiftl_nonneg. }
  pose proof (binary_round_aux_finite mz ez lz Hm) as Hf. cbn [xorb] in *.
  by destruct (binary_round_aux prec emax false mz ez lz) as [[]|[]| |[]].
Qed.

(** ** One token *)

Lemma text_digits l :
  Forall (λ b, isDigit b = true) (text_between (offset l) (offset (skip isDigit l)) l).
Proof. apply skip_text. Qed.

Lemma text_between_skip p l : text_between (offset l) (offset (skip p l)) (skip p l) =
  take (span p (drop (offset l) (input l))) (drop (offset l) (input l)).
Proof. unfold text_between. cbn. by replace (_ - _)%nat with (span p (drop (offset l) (input l))) by lia. Qed.

Lemma split_dot_spec w f :
  Forall (λ b, isDigit b = true) w → split_dot (w ++ x2e :: f) = (w, f).
Proof.
  induction 1 as [|b w Hb Hw IH]; [done|]. cbn. case_decide as E; [by subst|]. by rewrite IH.
Qed.

Lemma forallb_Forall (p : byte → bool) s : forallb p s = true ↔ Forall (λ b, p b = true) s.
Proof. rewrite forallb_forall, Forall_forall. by setoid_rewrite list_elem_of_In. Qed.

(** the outcome of converting the digits of a number literal *)
Lemma ParseInt_cases s :
  Forall (λ b, isDigit b = true) s →
  (∃ z, ParseInt s = Ok z ∧ 0 ≤ z ≤ max_int64) ∨ (∃ err, ParseInt s = Err err).
Proof.
  intros Hs. unfold ParseInt. case_decide; [by right; eexists|].
  rewrite (proj2 (forallb_Forall _ _) Hs). cbn [negb].
  destruct (Z.leb_spec (digits_value s) max_int64); [left|by right; eexists].
  eexists. split; [done|]. split; [by apply digits_value_nonneg|done].
Qed.

Lemma ParseFloat_cases w f :
  Forall (λ b, isDigit b = true) w → Forall (λ b, isDigit b = true) f →
  (∃ x, ParseFloat (w ++ x2e :: f) = Ok x ∧ finite_float x) ∨
  (∃ err, ParseFloat (w ++ x2e :: f) = Err err).
Proof.
  intros Hw Hf. unfold ParseFloat. rewrite split_dot_spec by done.
  assert (Forall (λ b, isDigit b = true) (w ++ f)) as Hwf by (by apply Forall_app).
  rewrite (proj2 (forallb_Forall _ _) Hwf). cbn [negb].
  case_decide; [by right; eexists|].
  pose proof (decimal_float_finite (digits_value (w ++ f)) (length f) (digits_value_nonneg _ Hwf)) as H'.
  destruct (decimal_float _ _) as [[]|s| |[]]; try done; [left|right|left]; by eexists.
Qed.

(** [l'] is a state of the same input, at or after [l] *)
Definition later (l l' : Lexer) : Prop :=
  input l' = input l ∧ (offset l ≤ offset l' ≤ length (input l))%nat.

(** the three outcomes of [Next] *)
Definition next_outcome (l : Lexer) (out : Lexer * result Token) : Prop :=
  later l out.1 ∧
  match out.2 with
  | Ok tok =>
      token_ok tok ∧ (offset l ≤ tok_offset tok)%nat ∧
      (if decide (tok_kind tok = EndOfInput)
       then tok_offset tok = length (input l)
       else (tok_offset tok < offset out.1)%nat)
  | Err _ => True
  | Panic _ => False
  end.

Lemma outcome_token l l' tok :
  later l l' → token_ok tok → tok_kind tok ≠ EndOfInput →
  (offset l ≤ tok_offset tok < offset l')%nat → next_outcome l (l', Ok tok).
Proof. intros Hl Hok Hk Ho. split; [done|]. cbn. rewrite decide_False by done. repeat split; (done || lia). Qed.

Lemma later_skip p l : (offset l ≤ length (input l))%nat → later l (skip p l).
Proof. intros. split; [done|]. by apply skip_offset. Qed.

Lemma later_trans l1 l2 l3 : later l1 l2 → later l2 l3 → later l1 l3.
Proof. intros [E1 H1] [E2 H2]. rewrite E1 in *. split; [congruence|lia]. Qed.

Lemma scanIdentifier_outcome l :
  atEnd l = false → isIdentifierStart (peek l) = true → next_outcome l (scanIdentifier l).
Proof.
  intros He Hp. assert (isIdentifierPart (peek l) = true) as Hpart
    by (unfold isIdentifierPart; by rewrite Hp).
  pose proof (skip_advances isIdentifierPart l He Hpart) as Hadv.
  assert (later l (skip isIdentifierPart l)) as Hl by (apply later_skip; apply atEnd_false in He; lia).
  unfold scanIdentifier. rewrite text_between_skip, (drop_peek _ He). cbn [span]. rewrite Hpart.
  cbn [take]. set (rest := take _ _).
  assert (Forall (λ b, isIdentifierPart b = true) (peek l :: rest)) as Hall.
  { constructor; [done|]. apply span_all. }
  destruct (KeywordFromIdentifier (peek l :: rest)) as [k|] eqn:Hk;
    (apply outcome_token; [done| |done|by split]).
  - by split; [eapply KeywordFromIdentifier_elem|].
  - split; [done|]. eexists. split; [done|]. by apply identifier_ok.
Qed.

Lemma number_token_outcome l l' (is_float : bool) :
  later l l' → (offset l < offset l')%nat →
  (if is_float then ∃ w f, text_between (offset l) (offset l') l' = w ++ x2e :: f ∧
     Forall (λ b, isDigit b = true) w ∧ Forall (λ b, isDigit b = true) f
   else Forall (λ b, isDigit b = true) (text_between (offset l) (offset l') l')) →
  next_outcome l (l', number_token is_float (offset l) l').
Proof.
  intros Hl Hlt Ht. unfold number_token. destruct is_float.
  - destruct Ht as (w & f & -> & Hw & Hf).
    destruct (ParseFloat_cases w f Hw Hf) as [(x & -> & Hx)|(err & ->)]; [|by split].
    apply outcome_token; [done| |done|by split]. split; [done|]. right. by exists x.
  - destruct (ParseInt_cases _ Ht) as [(z & -> & Hz)|(err & ->)];
      [|split; [done|by destruct (errors_is _ _)]].
    apply outcome_token; [done| |done|by split]. split; [done|]. left. by exists z.
Qed.

Lemma take_drop_split {A} (s : list A) a b c x :
  (a ≤ b)%nat → (b < c)%nat → s !! b = Some x →
  take (c - a) (drop a s) = take (b - a) (drop a s) ++ x :: take (c - S b) (drop (S b) s).
Proof.
  intros Hab Hbc Hx. replace (c - a)%nat with ((b - a) + S (c - S b))%nat by lia.
  rewrite <-take_take_drop, drop_drop. f_equal.
  replace (a + (b - a))%nat with b by lia. by rewrite (drop_S _ _ _ Hx).
Qed.

Lemma scanNumber_outcome l :
  atEnd l = false → isDigit (peek l) = true → next_outcome l (scanNumber l).
Proof.
  intros He Hd. pose proof (skip_advances isDigit l He Hd) as Hadv.
  assert (later l (skip isDigit l)) as Hl by (apply later_skip; apply atEnd_false in He; lia).
  unfold scanNumber. set (l1 := skip isDigit l) in *.
  destruct (negb (atEnd l1) && bool_decide (peek l1 = x2e)) eqn:Hf.
  2:{ apply number_token_outcome; [done|done|]. exact (text_digits l). }
  apply andb_true_iff in Hf as [Hn Hdot%bool_decide_eq_true].
  apply negb_true_iff in Hn. pose proof (proj1 (atEnd_false _) Hn) as Hlt1.
  set (l2 := set_offset (S (offset l1)) l1).
  assert (later l l2) as Hl2 by (split; [done|]; cbn in *; lia).
  destruct (atEnd l2 || negb (isDigit (peek l2))) eqn:Hd2; [by split|].
  apply orb_false_iff in Hd2 as [Hn2 Hd2].
  assert (later l (skip isDigit l2)) as Hl3.
  { eapply later_trans; [done|]. apply later_skip. apply atEnd_false in Hn2. lia. }
  apply number_token_outcome; [done|cbn in *; lia|].
  exists (text_between (offset l) (offset l1) l), (text_between (offset l2) (offset (skip isDigit l2)) l2).
  split; [|split; apply text_digits].
  pose proof (skip_offset isDigit l2) as Ho3. pose proof (proj1 (atEnd_false _) Hn2) as Hlt2.
  apply (take_drop_split (input l)); [lia|cbn in *; lia|].
  rewrite <-Hdot. by apply (peek_lookup l1).
Qed.

Lemma IndexByte_spec s c :
  match IndexByte s c with
  | Some n => (n < length s)%nat ∧ c ∉ take n s ∧ s !! n = Some c
  | None => c ∉ s
  end.
Proof.
  induction s as [|b s IH]; cbn; [set_solver|]. case_decide as E.
  - subst. split; [lia|]. split; [set_solver|done].
  - destruct (IndexByte s c) as [n|]; cbn; [|set_solver].
    destruct IH as (? & ? & ?). split; [lia|]. split; [set_solver|done].
Qed.

Lemma scanString_outcome l : atEnd l = false → next_outcome l (scanString l).
Proof.
  intros He. pose proof (proj1 (atEnd_false _) He) as Hlt.
  unfold scanString. erewrite sbind_eq; [|done].
  erewrite sbind_eq; [|unfold advance; by rewrite (peek_lookup _ He)].
  set (l1 := mkLexer (input l) (S (offset l))).
  pose proof (IndexByte_spec (drop (offset l1) (input l1)) x27) as Hi.
  destruct (IndexByte _ _) as [n|]; cbn [offset input l1] in *.
  2:{ split; [|done]. split; cbn; [done|lia]. }
  destruct Hi as (Hn & Hnot & Hq). rewrite length_drop in Hn.
  apply outcome_token; [split; cbn; [done|lia]| |done|cbn; lia].
  split; [done|]. eexists. split; [done|]. unfold text_between. cbn.
  by replace (offset l + (n + 1) - 0 - S (offset l))%nat with n by lia.
Qed.

Lemma scanSymbol_outcome l : atEnd l = false → next_outcome l (scanSymbol l).
Proof.
  intros He. pose proof (proj1 (atEnd_false _) He) as Hlt. unfold scanSymbol.
  destruct (symbol_kind (peek l)) as [k|] eqn:Hk; [|split; [split; cbn; [done|lia]|done]].
  assert (token_ok (mkToken k [] NoValue (offset l)) ∧ k ≠ EndOfInput) as [Hok Hne]
    by (destruct (peek l); cbn in Hk; simplify_eq; done).
  apply outcome_token; [split; cbn; [done|lia]|done|done|cbn; lia].
Qed.

Lemma Next_outcome l : (offset l ≤ length (input l))%nat → next_outcome l (Next l).
Proof.
  intros Hl. unfold Next. erewrite sbind_eq; [|done].
  pose proof (later_skip isSpace l Hl) as Hs. set (l1 := skip isSpace l) in *.
  assert (∀ out, next_outcome l1 out → next_outcome l out) as Hlift.
  { intros out [Hl1 Ho]. split; [by eapply later_trans|]. destruct Hs as [Hi1 Hi2].
    destruct out.2; try done. rewrite Hi1 in Ho. destruct Ho as (? & ? & ?). split; [done|]. split; [lia|done]. }
  apply Hlift. destruct (atEnd l1) eqn:He.
  - apply atEnd_true in He. destruct Hs as [Hi Ho]. rewrite Hi in He. clearbody l1.
    assert (offset l1 = length (input l)) as Heq by lia.
    split; [split; [done|]; cbn; rewrite Hi; lia|]. split; [done|].
    cbn. rewrite Hi. split; [lia|done].
  - case_decide; [by apply scanString_outcome|].
    destruct (isDigit (peek l1)) eqn:Hd; [by apply scanNumber_outcome|].
    destruct (isIdentifierStart (peek l1)) eqn:Hi; [by apply scanIdentifier_outcome|].
    by apply scanSymbol_outcome.
Qed.

(** ** The whole input *)

(** a token list as the parser expects it: one end-of-input token, at the end *)
Definition tokens_ok (ts : list Token) : Prop :=
  ∃ init last, ts = init ++ [last] ∧ tok_kind last = EndOfInput ∧
    Forall (λ t, tok_kind t ≠ EndOfInput ∧ token_ok t) init.

(** ... whose offsets increase from [from] to the end of the input *)
Definition offsets_ok (from to : nat) (ts : list Token) : Prop :=
  StronglySorted lt (map tok_offset ts) ∧ Forall (λ t, from ≤ tok_offset t ≤ to)%nat ts.

Lemma TokenizeAll_loop_ok fuel acc l :
  (offset l ≤ length (input l))%nat → (length (input l) - offset l < fuel)%nat →
  match (TokenizeAll_loop fuel acc l).2 with
  | Ok ts => ∃ new, ts = acc ++ new ∧ tokens_ok new ∧ offsets_ok (offset l) (length (input l)) new
  | Err _ => True
  | Panic _ => False
  end.
Proof.
  revert acc l. induction fuel as [|fuel IH]; intros acc l Hl Hf; [lia|]. cbn [TokenizeAll_loop].
  pose proof (Next_outcome l Hl) as [Hlater Ho]. unfold sbind.
  destruct (Next l) as [l1 [tok|err|p]]; [|done|done]. cbn in Hlater, Ho.
  destruct Ho as (Hok & Hge & Hkind). destruct Hlater as [Hi Ho1].
  destruct (decide (tok_kind tok = EndOfInput)) as [Hk|Hk].
  - cbn. exists [tok]. split; [done|]. split; [by exists [], tok|].
    split; repeat constructor; lia.
  - specialize (IH (acc ++ [tok]) l1). rewrite Hi in IH.
    destruct (TokenizeAll_loop fuel (acc ++ [tok]) l1) as [l2 [ts|err|p]]; cbn in *; try done.
    + destruct IH as (new & -> & (init & last & -> & Hlast & Hinit) & Hs & Hr); [lia..|].
      exists (tok :: init ++ [last]). split; [by rewrite <-app_assoc|]. split.
      { exists (tok :: init), last. split; [done|]. split; [done|]. by constructor. }
      split; cbn.
      * constructor; [done|]. apply Forall_fmap, (Forall_impl _ _ _ Hr). cbn. lia.
      * constructor; [lia|]. apply (Forall_impl _ _ _ Hr). cbn. lia.
    + apply IH; lia.
Qed.

(** the text of a string literal stands between two quotes of the input *)
Definition quoted (input s : bytes) : Prop :=
  ∃ before after, input = before ++ x27 :: s ++ x27 :: after.

Definition quoted_token (input : bytes) (t : Token) : Prop :=
  ∀ s, tok_kind t = TString → tok_value t = StrValue s → quoted input s.

Lemma scanString_quoted l l' tok :
  atEnd l = false → peek l = x27 → scanString l = (l', Ok tok) → quoted_token (input l) tok.
Proof.
  intros He Hq. unfold scanString. erewrite sbind_eq; [|done].
  erewrite sbind_eq; [|unfold advance; by rewrite (peek_lookup _ He)].
  set (l1 := mkLexer (input l) (S (offset l))).
  pose proof (IndexByte_spec (drop (offset l1) (input l1)) x27) as Hi.
  destruct (IndexByte _ _) as [n|]; [|done]. cbn [offset input l1] in *.
  destruct Hi as (Hn & _ & Hend). intros [= _ <-] s _ [= <-]. unfold text_between. cbn.
  replace (offset l + (n + 1) - 0 - S (offset l))%nat with n by lia.
  exists (take (offset l) (input l)), (drop (S n) (drop (S (offset l)) (input l))).
  rewrite <-(take_drop (offset l) (input l)) at 1. f_equal. rewrite (drop_peek _ He), Hq. f_equal.
  rewrite <-(take_drop n (drop (S (offset l)) (input l))) at 1. f_equal. by apply drop_S.
Qed.

Lemma Next_quoted l l' tok : Next l = (l', Ok tok) → quoted_token (input l) tok.
Proof.
  unfold Next. erewrite sbind_eq; [|done]. set (l1 := skip isSpace l).
  change (input l) with (input l1). clearbody l1. destruct (atEnd l1) eqn:He; [by intros [= <- <-] s|].
  case_decide as Hq; [by apply scanString_quoted|].
  destruct (isDigit (peek l1)); [|destruct (isIdentifierStart (peek l1))].
  - intros H s Hk. exfalso. revert H Hk. unfold scanNumber, number_token.
    repeat case_match; intros [= _ <-]; simplify_eq; done.
  - unfold scanIdentifier. destruct (KeywordFromIdentifier _); by intros [= _ <-] s.
  - unfold scanSymbol. destruct (symbol_kind (peek l1)) eqn:Hk; [|done]. intros [= _ <-] s. cbn.
    intros ->. done.
Qed.

Lemma TokenizeAll_loop_quoted fuel acc l ts :
  (offset l ≤ length (input l))%nat → Forall (quoted_token (input l)) acc →
  (TokenizeAll_loop fuel acc l).2 = Ok ts → Forall (quoted_token (input l)) ts.
Proof.
  revert acc l. induction fuel as [|fuel IH]; intros acc l Hl Hacc; [done|]. cbn [TokenizeAll_loop].
  pose proof (Next_outcome l Hl) as [[Hi Ho] _]. pose proof (Next_quoted l) as Hn. unfold sbind.
  destruct (Next l) as [l1 [tok|err|p]]; [|done|done]. cbn in Hi, Ho.
  assert (Forall (quoted_token (input l)) (acc ++ [tok])) as Hacc'.
  { apply Forall_app. split; [done|]. by constructor; [apply (Hn l1)|]. }
  case_decide; [by intros [= <-]|]. rewrite <-Hi. apply IH; [by rewrite Hi; lia|by rewrite Hi].
Qed.

Lemma Lex_quoted input ts : Lex input = Ok ts → Forall (quoted_token input) ts.
Proof. intros H. apply (TokenizeAll_loop_quoted (S (length input)) [] (New input)); [cbn; lia|constructor|done]. Qed.

(** the shape of every token list the lexer returns; it never panics *)
Lemma Lex_ok input :
  match Lex input with
  | Ok ts => tokens_ok ts ∧ offsets_ok 0 (length input) ts
  | Err _ => True
  | Panic _ => False
  end.
Proof.
  unfold Lex, TokenizeAll. pose proof (TokenizeAll_loop_ok (S (length input)) [] (New input)) as H.
  cbn [Lexer.input New] in H.
  destruct (TokenizeAll_loop _ _ _) as [l [ts|err|p]]; cbn in *; try done; [|apply H; lia].
  destruct H as (new & -> & ? & ?); [lia..|]. done.
Qed.

(** ** Texts and the tokens they spell *)

Definition same_token (a b : Token) : Prop :=
  tok_kind a = tok_kind b ∧ tok_keyword a = tok_keyword b ∧ tok_value a = tok_value b.

#[export] Instance same_token_equivalence : Equivalence same_token.
Proof.
  split; [by intros a|by intros a b (? & ? & ?)|].
  intros a b c (? & ? & ?) (? & ? & ?). repeat split; congruence.
Qed.

(** [spells text kind keyword value]: the text is a spelling of the token *)
Inductive spells : bytes → TokenKind → Keyword → token_value → Prop :=
  | spells_keyword b s k :
      isIdentifierStart b = true → Forall (λ b, isIdentifierPart b = true) s →
      ToUpper (b :: s) = k → k ∈ keywords →
      spells (b :: s) KeywordKind k NoValue
  | spells_identifier b s :
      isIdentifierStart b = true → Forall (λ b, isIdentifierPart b = true) s →
      ToUpper (b :: s) ∉ keywords →
      spells (b :: s) Identifier [] (StrValue (ToLower (b :: s)))
  | spells_string s : x27 ∉ s → spells (x27 :: s ++ [x27]) TString [] (StrValue s)
  | spells_int s :
      s ≠ [] → Forall (λ b, isDigit b = true) s → digits_value s ≤ max_int64 →
      spells s Number [] (IntValue (digits_value s))
  | spells_float w f x :
      w ≠ [] → f ≠ [] → Forall (λ b, isDigit b = true) w → Forall (λ b, isDigit b = true) f →
      decimal_float (digits_value (w ++ f)) (length f) = x → finite_float x →
      spells (w ++ x2e :: f) Number [] (FltValue x)
  | spells_symbol b k : symbol_kind b = Some k → spells [b] k [] NoValue.

(** the input of a list of spelled tokens, each followed by white space *)
Definition spaced (ws : bytes) : Prop := ws ≠ [] ∧ Forall (λ b, isSpace b = true) ws.

Lemma space_not_part b : isSpace b = true → isIdentifierPart b = false ∧ isDigit b = false ∧ b ≠ x2e.
Proof.
  intros Hb. pose proof (forall_bytes (λ b, implb (isSpace b)
    (negb (isIdentifierPart b) && negb (isDigit b) && bool_decide (b ≠ x2e))) eq_refl b) as H.
  cbn beta in H. rewrite Hb in H. cbn [implb] in H.
  apply andb_true_iff in H as [[?%negb_true_iff ?%negb_true_iff]%andb_true_iff ?%bool_decide_eq_true].
  done.
Qed.

Lemma spaced_head ws rest b :
  spaced ws → head (ws ++ rest) = Some b → isSpace b = true.
Proof. intros [Hne Hws]. destruct ws; [done|]. intros [= ->]. by apply Forall_cons in Hws as [? _]. Qed.

(** the lexer state in front of [s] *)
Definition at_text (l : Lexer) (s : bytes) : Prop := drop (offset l) (input l) = s.

Lemma at_text_app l s t : at_text l (s ++ t) → at_text (set_offset (offset l + length s) l) t.
Proof.
  unfold at_text. cbn. intros H. rewrite <-drop_drop, H. by rewrite drop_app_length.
Qed.

Lemma at_text_cons l b t : at_text l (b :: t) → at_text (set_offset (S (offset l)) l) t.
Proof. intros H. replace (S (offset l)) with (offset l + length [b])%nat by (cbn; lia). by apply at_text_app. Qed.

Lemma at_text_peek l b t : at_text l (b :: t) → atEnd l = false ∧ peek l = b.
Proof.
  unfold at_text. intros H. assert (input l !! offset l = Some b) as Hb.
  { assert (drop (offset l) (input l) !! 0%nat = Some b) as Hd by (by rewrite H).
    by rewrite lookup_drop, Nat.add_0_r in Hd. }
  split; [apply atEnd_false; by eapply lookup_lt_Some|]. unfold peek. by rewrite Hb.
Qed.

Lemma at_text_nil l : at_text l [] ↔ atEnd l = true.
Proof.
  unfold at_text. rewrite atEnd_true, <-length_zero_iff_nil, length_drop. lia.
Qed.

Lemma at_text_skip p l s t :
  at_text l (s ++ t) → Forall (λ b, p b = true) s → (∀ b, head t = Some b → p b = false) →
  skip p l = set_offset (offset l + length s) l.
Proof. unfold at_text, skip. intros -> Hs Ht. by rewrite span_app. Qed.

Lemma at_text_between l s t o :
  at_text l (s ++ t) → o = (offset l + length s)%nat → text_between (offset l) o l = s.
Proof.
  unfold at_text, text_between. intros -> ->.
  replace (offset l + length s - offset l)%nat with (length s) by lia. by rewrite take_app_length.
Qed.

(** the dispatch on the first byte *)
Lemma start_class b :
  isIdentifierStart b = true → isSpace b = false ∧ b ≠ x27 ∧ isDigit b = false.
Proof.
  intros Hb. pose proof (forall_bytes (λ b, implb (isIdentifierStart b)
    (negb (isSpace b) && bool_decide (b ≠ x27) && negb (isDigit b))) eq_refl b) as H.
  cbn beta in H. rewrite Hb in H. cbn [implb] in H.
  apply andb_true_iff in H as [[?%negb_true_iff ?%bool_decide_eq_true]%andb_true_iff ?%negb_true_iff].
  done.
Qed.

Lemma digit_class b : isDigit b = true → isSpace b = false ∧ b ≠ x27 ∧ b ≠ x2e.
Proof.
  intros Hb. pose proof (forall_bytes (λ b, implb (isDigit b)
    (negb (isSpace b) && bool_decide (b ≠ x27) && bool_decide (b ≠ x2e))) eq_refl b) as H.
  cbn beta in H. rewrite Hb in H. cbn [implb] in H.
  apply andb_true_iff in H as [[?%negb_true_iff ?%bool_decide_eq_true]%andb_true_iff ?%bool_decide_eq_true].
  done.
Qed.

Lemma symbol_class b k :
  symbol_kind b = Some k →
  isSpace b = false ∧ b ≠ x27 ∧ isDigit b = false ∧ isIdentifierStart b = false ∧ k ≠ EndOfInput.
Proof. destruct b; cbn; intros; simplify_eq; done. Qed.

Lemma IndexByte_app s c t : c ∉ s → IndexByte (s ++ c :: t) c = Some (length s).
Proof.
  induction s as [|b s IH]; cbn; intros Hc; [by rewrite decide_True|].
  rewrite decide_False by set_solver. rewrite IH by set_solver. done.
Qed.

Lemma text_between_set b e o l : text_between b e (set_offset o l) = text_between b e l.
Proof. done. Qed.

Lemma scanIdentifier_spelled l b s ws rest :
  at_text l ((b :: s) ++ ws ++ rest) → spaced ws →
  isIdentifierStart b = true → Forall (λ b, isIdentifierPart b = true) s →
  scanIdentifier l =
    (set_offset (offset l + length (b :: s)) l,
     Ok (match KeywordFromIdentifier (b :: s) with
         | Some k => mkToken KeywordKind k NoValue (offset l)
         | None => mkToken Identifier [] (StrValue (ToLower (b :: s))) (offset l)
         end)).
Proof.
  intros Hl Hws Hb Hs. unfold scanIdentifier.
  rewrite (at_text_skip _ _ _ _ Hl).
  - rewrite text_between_set, (at_text_between _ _ _ _ Hl) by done. by destruct (KeywordFromIdentifier (b :: s)).
  - constructor; [unfold isIdentifierPart; by rewrite Hb|done].
  - intros c Hc. by eapply space_not_part, spaced_head.
Qed.

Lemma spells_head text k kw v :
  spells text k kw v → ∃ b s, text = b :: s ∧ isSpace b = false.
Proof.
  destruct 1 as [b s ? Hb|b s Hb|s|s Hne Hs|w f ? Hne _ Hw|b k' Hk].
  - exists b, s. split; [done|by apply start_class].
  - exists b, s. split; [done|by apply start_class].
  - by eexists _, _.
  - destruct s as [|b s]; [done|]. apply Forall_cons in Hs as [Hb _]. exists b, s.
    split; [done|by apply digit_class].
  - destruct w as [|b w]; [done|]. apply Forall_cons in Hw as [Hb _]. eexists b, _.
    split; [done|by apply digit_class].
  - exists b, []. split; [done|by eapply symbol_class].
Qed.

Lemma scanNumber_spelled l text kw v ws rest :
  at_text l (text ++ ws ++ rest) → spaced ws → spells text Number kw v →
  scanNumber l = (set_offset (offset l + length text) l, Ok (mkToken Number kw v (offset l))).
Proof.
  intros Hl Hws Hsp. remember Number as kn eqn:Hkn.
  destruct Hsp as [| | |s Hne Hs Hmax|w f x Hw0 Hf0 Hw Hf Hx Hfin|b k Hk]; try done.
  - pose proof Hl as Hl0. unfold scanNumber. rewrite (at_text_skip _ _ _ _ Hl Hs)
      by (intros c Hc; by eapply space_not_part, spaced_head).
    apply at_text_app in Hl. set (l1 := set_offset _ l) in *.
    assert (negb (atEnd l1) && bool_decide (peek l1 = x2e) = false) as ->.
    { destruct ws as [|c ws]; [by destruct Hws|]. destruct (at_text_peek _ _ _ Hl) as [-> ->].
      cbn. apply bool_decide_eq_false. apply space_not_part. by apply (spaced_head (c :: ws) rest c). }
    unfold number_token. subst l1. rewrite text_between_set, (at_text_between _ _ _ _ Hl0) by done. 
    unfold ParseInt. rewrite decide_False by done.
    rewrite (proj2 (forallb_Forall _ _) Hs). cbn [negb].
    by rewrite (proj2 (Z.leb_le _ _) Hmax).
  - rewrite <-app_assoc in Hl. cbn [app] in Hl. pose proof Hl as Hl0. unfold scanNumber.
    rewrite (at_text_skip _ _ _ _ Hl Hw) by (by intros c [= <-]).
    apply at_text_app in Hl. set (l1 := set_offset _ l) in *.
    destruct (at_text_peek _ _ _ Hl) as [-> ->]. cbn [negb andb]. rewrite bool_decide_eq_true_2 by done.
    apply at_text_cons in Hl. set (l2 := set_offset (S (offset l1)) l1) in *.
    assert (atEnd l2 || negb (isDigit (peek l2)) = false) as ->.
    { destruct f as [|c f]; [done|]. destruct (at_text_peek _ _ _ Hl) as [-> ->].
      apply Forall_cons in Hf as [-> _]. done. }
    rewrite (at_text_skip _ _ _ _ Hl Hf) by (intros c Hc; by eapply space_not_part, spaced_head).
    unfold number_token.
    assert (at_text l ((w ++ x2e :: f) ++ ws ++ rest)) as Hl3 by (by rewrite <-app_assoc).
    rewrite !text_between_set. subst l2 l1. rewrite !text_between_set, (at_text_between _ _ _ _ Hl3) by (cbn; rewrite !length_app; cbn; lia).
    unfold ParseFloat. rewrite split_dot_spec by done.
    rewrite (proj2 (forallb_Forall _ (w ++ f))) by (by apply Forall_app). cbn [negb].
    rewrite decide_False by (by destruct w). rewrite Hx.
    f_equal; [unfold set_offset; cbn; f_equal; rewrite !length_app; cbn; lia|].
    by destruct x as [[]|[]| |[]].
  - exfalso. subst k. by destruct b.
Qed.

Lemma scanString_spelled l s ws rest :
  at_text l ((x27 :: s ++ [x27]) ++ ws ++ rest) → x27 ∉ s →
  scanString l =
    (set_offset (offset l + length (x27 :: s ++ [x27])) l,
     Ok (mkToken TString [] (StrValue s) (offset l))).
Proof.
  intros Hl Hs. cbn [app] in Hl. rewrite <-app_assoc in Hl. cbn [app] in Hl.
  destruct (at_text_peek _ _ _ Hl) as [He _]. pose proof (at_text_cons _ _ _ Hl) as Hl1.
  unfold scanString. erewrite sbind_eq; [|done].
  erewrite sbind_eq; [|unfold advance; by rewrite (peek_lookup _ He)].
  change (mkLexer (input l) (S (offset l))) with (set_offset (S (offset l)) l).
  set (l1 := set_offset (S (offset l)) l) in *. unfold at_text in Hl1. rewrite Hl1.
  rewrite IndexByte_app by done.
  f_equal; [unfold set_offset; cbn; f_equal; rewrite !length_app; cbn; lia|].
  do 3 f_equal. rewrite text_between_set. cbn [offset set_offset].
  apply (at_text_between l1 s (x27 :: ws ++ rest)); [done|]. cbn. lia.
Qed.

(** [Next] on leading white space, a spelled token and a space *)
Lemma Next_spelled l ws0 text k kw v ws rest :
  at_text l (ws0 ++ text ++ ws ++ rest) → Forall (λ b, isSpace b = true) ws0 →
  spaced ws → spells text k kw v →
  Next l = (set_offset (offset l + length ws0 + length text) l,
            Ok (mkToken k kw v (offset l + length ws0))) ∧ k ≠ EndOfInput.
Proof.
  intros Hl Hws0 Hws Hsp. destruct (spells_head _ _ _ _ Hsp) as (b & s & Htext & Hspace).
  unfold Next. erewrite sbind_eq; [|done].
  rewrite (at_text_skip _ _ _ _ Hl Hws0) by (rewrite Htext; by intros c [= <-]).
  apply at_text_app in Hl. set (l1 := set_offset (offset l + length ws0) l) in *.
  assert (at_text l1 (b :: s ++ ws ++ rest)) as Hl1 by (by rewrite Htext in Hl).
  destruct (at_text_peek _ _ _ Hl1) as [He Hp]. rewrite He, Hp.
  destruct Hsp as [b' s' k Hb Hs Hk Hin|b' s' Hb Hs Hnin|s' Hs'|s' Hne Hs Hmax|w f x Hw0 Hf0 Hw Hf Hx Hfin|b' k Hk].
  - injection Htext as <- <-. destruct (start_class _ Hb) as (_ & ? & Hd).
    rewrite decide_False, Hd, Hb by done. split; [|done].
    rewrite (scanIdentifier_spelled _ _ _ _ _ Hl Hws Hb Hs).
    unfold KeywordFromIdentifier. by rewrite Hk, decide_True.
  - injection Htext as <- <-. destruct (start_class _ Hb) as (_ & ? & Hd).
    rewrite decide_False, Hd, Hb by done. split; [|done].
    rewrite (scanIdentifier_spelled _ _ _ _ _ Hl Hws Hb Hs).
    unfold KeywordFromIdentifier. by rewrite decide_False.
  - injection Htext as <- _. rewrite decide_True by done. split; [|done].
    by rewrite (scanString_spelled _ _ _ _ Hl Hs').
  - assert (isDigit b = true) as Hd by (rewrite Htext in Hs; by apply Forall_cons in Hs as [? _]).
    destruct (digit_class _ Hd) as (_ & ? & _). rewrite decide_False, Hd by done. split; [|done].
    apply (scanNumber_spelled l1 _ _ _ ws rest); [done|done|by constructor].
  - assert (isDigit b = true) as Hd.
    { destruct w as [|c w]; [done|]. injection Htext as -> _. by apply Forall_cons in Hw as [? _]. }
    destruct (digit_class _ Hd) as (_ & ? & _). rewrite decide_False, Hd by done. split; [|done].
    apply (scanNumber_spelled l1 _ _ _ ws rest); [done|done|by constructor].
  - injection Htext as <- <-. destruct (symbol_class _ _ Hk) as (_ & ? & Hd & Hi & ?).
    rewrite decide_False, Hd, Hi by done. split; [|done].
    unfold scanSymbol. rewrite Hp, Hk. cbn. by rewrite Nat.add_1_r.
Qed.

(** the source text of a list of spelled tokens *)
Record spelling := mkSpelling { sp_text : bytes; sp_token : Token; sp_space : bytes }.

Definition spelling_ok (s : spelling) : Prop :=
  spells (sp_text s) (tok_kind (sp_token s)) (tok_keyword (sp_token s)) (tok_value (sp_token s)) ∧
  spaced (sp_space s).

Definition source (ss : list spelling) : bytes := concat (map (λ s, sp_text s ++ sp_space s) ss).

Lemma TokenizeAll_loop_spelled fuel acc l ws0 ss :
  at_text l (ws0 ++ source ss) → Forall (λ b, isSpace b = true) ws0 → Forall spelling_ok ss →
  (length ss < fuel)%nat →
  ∃ ts last, (TokenizeAll_loop fuel acc l).2 = Ok (acc ++ ts ++ [last]) ∧
    Forall2 same_token ts (map sp_token ss) ∧ tok_kind last = EndOfInput.
Proof.
  revert acc l ws0 ss. induction fuel as [|fuel IH]; intros acc l ws0 ss Hl Hws0 Hss Hf; [lia|].
  cbn [TokenizeAll_loop]. destruct ss as [|s ss].
  - assert (Next l = (skip isSpace l, Ok (mkToken EndOfInput [] NoValue (offset (skip isSpace l))))) as HN.
    { unfold Next. erewrite sbind_eq; [|done]. rewrite (at_text_skip _ _ _ _ Hl Hws0) by done.
      apply at_text_app, at_text_nil in Hl. by rewrite Hl. }
    unfold sbind. rewrite HN. cbn. by eexists [], _.
  - apply Forall_cons in Hss as [[Hsp Hws] Hss]. cbn in Hl. rewrite <-app_assoc in Hl.
    destruct (Next_spelled _ _ _ _ _ _ _ _ Hl Hws0 Hws Hsp) as [HN Hk].
    unfold sbind. rewrite HN. cbn [tok_kind]. rewrite decide_False by done.
    set (tok := mkToken _ _ _ _). set (l1 := set_offset _ l).
    assert (at_text l1 (sp_space s ++ source ss)) as Hl1.
    { rewrite app_assoc in Hl. apply at_text_app in Hl. by rewrite length_app, Nat.add_assoc in Hl. }
    destruct (IH (acc ++ [tok]) l1 (sp_space s) ss Hl1 (proj2 Hws) Hss)
      as (ts & last & -> & Hts & Hlast); [cbn in Hf; lia|].
    exists (tok :: ts), last. split; [by rewrite <-app_assoc|]. split; [|done]. by constructor.
Qed.

Lemma source_length ss : Forall spelling_ok ss → (length ss ≤ length (source ss))%nat.
Proof.
  induction 1 as [|s ss [Hs _] _ IH]; [done|]. unfold source in *. cbn. rewrite !length_app.
  destruct (spells_head _ _ _ _ Hs) as (b & r & -> & _). cbn. lia.
Qed.

(** lexing the source text gives back the tokens *)
Lemma Lex_source ss :
  Forall spelling_ok ss →
  ∃ ts last, Lex (source ss) = Ok (ts ++ [last]) ∧
    Forall2 same_token ts (map sp_token ss) ∧ tok_kind last = EndOfInput.
Proof.
  intros Hss. pose proof (source_length ss Hss).
  destruct (TokenizeAll_loop_spelled (S (length (source ss))) [] (New (source ss)) [] ss)
    as (ts & last & Hts & ? & ?); [done|constructor|done|lia|].
  exists ts, last. split; [|done]. apply Hts.
Qed.
