(* ===== verification/Ast.v ===== *)
(** * The syntax tree ([parser/ast.go])

    An [Expression] of the code is a kind and a dynamically typed value whose
    type is fixed by the kind; here each kind is a constructor that carries
    its value. *)

From S2P Require Import Prelude Bytes Types Lexer.

Inductive OperationKind := OperationEqual | OperationGreaterThan | OperationLessThan.

Record FunctionCall := mkFunctionCall { fc_Name : bytes; fc_Argument : bytes }.

Inductive Expression :=
  | Null
  | BooleanLiteral (b : bool)
  | IntegerLiteral (z : Z)
  | FloatLiteral (f : float64)
  | StringLiteral (s : bytes)
  | OperationExpression (kind : OperationKind) (left right : Expression)
  | FunctionExpression (call : FunctionCall)
  | ColumnReference (name : bytes).

#[export] Instance OperationKind_eq_dec : EqDecision OperationKind.
Proof. solve_decision. Defined.
#[export] Instance FunctionCall_eq_dec : EqDecision FunctionCall.
Proof. solve_decision. Defined.
#[export] Instance Expression_eq_dec : EqDecision Expression.
Proof. solve_decision. Defined.

Definition NullExpression : Expression := Null.

(** [cd_Nullable]: absent without a constraint; [cd_DefaultValue]: a pointer *)
Record Column := mkColumn {
  cd_Name : bytes;
  cd_DataType : DataType;
  cd_Nullable : option bool;
  cd_DefaultValue : option Expression;
  cd_PrimaryKey : bool;
}.

Record CreateTableStatement := mkCreateTable {
  ct_Name : bytes;
  ct_Columns : list Column;
}.

(** a nil list of columns is the empty list *)
Record InsertStatement := mkInsert {
  ins_TableName : bytes;
  ins_Columns : list bytes;
  ins_Values : list (list Expression);
}.

Inductive OrderDirection := OrderAscending | OrderDescending.

Record OrderBy := mkOrderBy { ob_Column : bytes; ob_Direction : OrderDirection }.

Record SelectItem := mkSelectItem { si_Expression : Expression; si_Alias : option bytes }.

Inductive JoinType := JoinCross | JoinInner | JoinLeft | JoinRight.

#[export] Instance JoinType_eq_dec : EqDecision JoinType.
Proof. solve_decision. Defined.
#[export] Instance OrderDirection_eq_dec : EqDecision OrderDirection.
Proof. solve_decision. Defined.

Inductive FromItem :=
  | TableFromItem (name : bytes)
  | JoinFromItem (left right : FromItem) (type : JoinType) (predicate : option Expression).

(** an empty list of items is [SELECT *] *)
Record SelectStatement := mkSelect {
  sel_From : FromItem;
  sel_SelectItems : list SelectItem;
  sel_Where : option Expression;
  sel_GroupBy : option Expression;
  sel_Having : option Expression;
  sel_OrderBy : list OrderBy;
  sel_Limit : option Expression;
  sel_Offset : option Expression;
}.

(** a Go map from column names *)
Record UpdateStatement := mkUpdate {
  upd_TableName : bytes;
  upd_Assignments : gmap bytes Expression;
  upd_Filter : option Expression;
}.

Record DeleteStatement := mkDelete {
  del_TableName : bytes;
  del_Filter : option Expression;
}.

Inductive Statement :=
  | StatementCreateTable (stmt : CreateTableStatement)
  | StatementInsert (stmt : InsertStatement)
  | StatementSelect (stmt : SelectStatement)
  | StatementUpdate (stmt : UpdateStatement)
  | StatementDelete (stmt : DeleteStatement).

Definition keywordDataType (keyword : Keyword) : option DataType :=
  if decide (keyword ∈ [KeywordInt; KeywordInteger]) then Some Integer
  else if decide (keyword ∈ [KeywordBoolean; KeywordBool]) then Some Boolean
  else if decide (keyword ∈ [KeywordFloat; KeywordDouble]) then Some Float
  else if decide (keyword ∈ [KeywordString; KeywordText; KeywordVarchar]) then Some String
  else None.
