(* ===== verification/Parser.v ===== *)
(** * The recursive-descent parser ([parser/parser.go])

    A [Parser] is the token list and the index of the current token.  A method
    that reads past the list panics, as does a type assertion on the value of a
    token of the wrong kind; loops have fuel and [Panic Diverges] when it runs
    out.  [ParserProps.v] proves that none of these happens. *)

From S2P Require Import Prelude Bytes Types Lexer Ast.

Record Parser := mkParser { tokens : list Token; index : nat }.

Definition peek : ST Parser Token := sread (λ p, rindex (tokens p) (index p)).

Definition next : ST Parser Token :=
  let! token := peek in
  if decide (tok_kind token ≠ EndOfInput)
  then λ p, (mkParser (tokens p) (S (index p)), Ok token)
  else sret token.

Definition expect (kind : TokenKind) : ST Parser unit :=
  let! token := next in
  if decide (tok_kind token ≠ kind) then sthrow (Errorf "parser: expected %s, got %s at %s")
  else sret ().

(** the test [token.Kind == lexer.KeywordKind && token.Keyword == keyword] *)
Definition is_keyword (keyword : Keyword) (token : Token) : bool :=
  bool_decide (tok_kind token = KeywordKind) && bool_decide (tok_keyword token = keyword).

Definition expectKeyword (keyword : Keyword) : ST Parser unit :=
  let! token := next in
  if negb (is_keyword keyword token)
  then sthrow (Errorf "parser: expected keyword '%s', got %s at %s")
  else sret ().

(** [token.Value.(string)] *)
Definition string_value (token : Token) : result bytes :=
  match tok_value token with StrValue s => Ok s | _ => Panic TypeAssertion end.

Definition expectIdentifier : ST Parser bytes :=
  let! token := next in
  if decide (tok_kind token ≠ Identifier)
  then sthrow (Errorf "parser: expected identifier, got %s at %s")
  else slift (string_value token).

(** ** Expressions *)

Definition parseExpression : ST Parser Expression :=
  let! token := next in
  match tok_kind token with
  | Identifier =>
      let! name := slift (string_value token) in
      let! following := peek in
      if decide (tok_kind following ≠ OpenParen) then sret (ColumnReference name)
      else
        next ;;!
        let! argument := swrap "parser: parsing argument of function %q: %w" expectIdentifier in
        swrap "parser: closing function %q: %w" (expect CloseParen) ;;!
        sret (FunctionExpression (mkFunctionCall name argument))
  | TString => let! s := slift (string_value token) in sret (StringLiteral s)
  | Number =>
      match tok_value token with
      | IntValue value => sret (IntegerLiteral value)
      | FltValue value => sret (FloatLiteral value)
      | _ => slift (Panic TypeAssertion)
      end
  | KeywordKind =>
      if decide (tok_keyword token = KeywordTrue) then sret (BooleanLiteral true)
      else if decide (tok_keyword token = KeywordFalse) then sret (BooleanLiteral false)
      else if decide (tok_keyword token = KeywordNull) then sret NullExpression
      else sthrow (Errorf "parser: keyword '%s' is not an expression at %s")
  | _ => sthrow (Errorf "parser: expected expression, got %s at %s")
  end.

Definition parseComparisonExpression : ST Parser Expression :=
  let! lhs := swrap "parsing left comparison operand: %w" parseExpression in
  let! operatorToken := next in
  let! operationKind :=
    match tok_kind operatorToken with
    | Equal => sret OperationEqual
    | GreaterThan => sret OperationGreaterThan
    | LessThan => sret OperationLessThan
    | _ => sthrow (Errorf "expected comparison operator, got %s at %s")
    end in
  let! rhs := swrap "parsing right comparison operand: %w" parseExpression in
  sret (OperationExpression operationKind lhs rhs).

Definition parseOptionalComparison (keyword : Keyword) : ST Parser (option Expression) :=
  let! current := peek in
  if negb (is_keyword keyword current) then sret None
  else
    next ;;!
    let! expression := swrap "parser: parsing %s predicate: %w" parseComparisonExpression in
    sret (Some expression).

(** ** Loops *)

(** [for { b = body(b); if p.peek().Kind != Comma { break }; p.next() }] *)
Fixpoint comma_loop {B} (fuel : nat) (body : B → ST Parser B) (b : B) : ST Parser B :=
  match fuel with
  | O => slift (Panic Diverges)
  | S fuel =>
      let! b := body b in
      let! token := peek in
      if decide (tok_kind token ≠ Comma) then sret b
      else next ;;! comma_loop fuel body b
  end.

(** [for p.peek().Kind != CloseParen { expect(Comma); b = append(b, item) }] *)
Fixpoint paren_loop {A} (fuel : nat) (item : ST Parser A) (l : list A) : ST Parser (list A) :=
  match fuel with
  | O => slift (Panic Diverges)
  | S fuel =>
      let! token := peek in
      if decide (tok_kind token ≠ CloseParen)
      then expect Comma ;;! let! a := item in paren_loop fuel item (l ++ [a])
      else sret l
  end.

(** the fuel of a loop: one iteration per token *)
Definition with_fuel {A} (m : nat → ST Parser A) : ST Parser A := λ p, m (S (length (tokens p))) p.

Definition append_item {A} (item : ST Parser A) (l : list A) : ST Parser (list A) :=
  let! a := item in sret (l ++ [a]).

(** ** FROM *)

Definition parseJoinType : ST Parser (option JoinType) :=
  let! current := peek in
  if decide (tok_kind current ≠ KeywordKind) then sret None
  else if decide (tok_keyword current = KeywordCross) then
    next ;;! expectKeyword KeywordJoin ;;! sret (Some JoinCross)
  else if decide (tok_keyword current = KeywordJoin) then
    next ;;! sret (Some JoinInner)
  else if decide (tok_keyword current = KeywordLeft) then
    next ;;! expectKeyword KeywordJoin ;;! sret (Some JoinLeft)
  else if decide (tok_keyword current = KeywordRight) then
    next ;;! expectKeyword KeywordJoin ;;! sret (Some JoinRight)
  else sret None.

(** the ON clause; for a RIGHT JOIN the two operands are swapped *)
Definition parseJoinPredicate (joinType : JoinType) : ST Parser (option Expression) :=
  if decide (joinType ≠ JoinCross) then
    expectKeyword KeywordOn ;;!
    let! lhs := swrap "parser: parsing left JOIN operand: %w" parseExpression in
    expect Equal ;;!
    let! rhs := swrap "parser: parsing right JOIN operand: %w" parseExpression in
    let '(lhs, rhs) := if decide (joinType = JoinRight) then (rhs, lhs) else (lhs, rhs) in
    sret (Some (OperationExpression OperationEqual lhs rhs))
  else sret None.

Fixpoint join_loop (fuel : nat) (item : FromItem) : ST Parser FromItem :=
  match fuel with
  | O => slift (Panic Diverges)
  | S fuel =>
      let! joinType := parseJoinType in
      match joinType with
      | None => sret item
      | Some joinType =>
          let! rightName := expectIdentifier in
          let! predicate := parseJoinPredicate joinType in
          join_loop fuel (JoinFromItem item (TableFromItem rightName) joinType predicate)
      end
  end.

Definition parseFromClause : ST Parser FromItem :=
  expectKeyword KeywordFrom ;;!
  let! tableName := expectIdentifier in
  with_fuel (λ fuel, join_loop fuel (TableFromItem tableName)).

(** ** SELECT *)

Definition parseAlias : ST Parser (option bytes) :=
  let! current := peek in
  if is_keyword KeywordAs current then
    next ;;!
    let! aliasName := swrap "parser: parsing SELECT alias: %w" expectIdentifier in
    sret (Some aliasName)
  else sret None.

Definition parseSelectItem : ST Parser SelectItem :=
  let! exp := swrap "parser: parsing SELECT expression: %w" parseExpression in
  let! alias := parseAlias in
  sret (mkSelectItem exp alias).

Definition parseSelectItems : ST Parser (list SelectItem) :=
  let! current := peek in
  if decide (tok_kind current = Asterisk) then next ;;! sret []
  else with_fuel (λ fuel, comma_loop fuel (append_item parseSelectItem) []).

Definition parseGroupBy : ST Parser (option Expression) :=
  let! current := peek in
  if is_keyword KeywordGroup current then
    next ;;!
    swrap "parser: parsing GROUP BY clause: %w" (expectKeyword KeywordBy) ;;!
    let! expression := swrap "parser: parsing GROUP BY expression: %w" parseExpression in
    sret (Some expression)
  else sret None.

Definition parseOrderItem : ST Parser OrderBy :=
  let! columnName := expectIdentifier in
  let! current := peek in
  if is_keyword KeywordAsc current then next ;;! sret (mkOrderBy columnName OrderAscending)
  else if is_keyword KeywordDesc current then next ;;! sret (mkOrderBy columnName OrderDescending)
  else sret (mkOrderBy columnName OrderAscending).

Definition parseOrderBy : ST Parser (list OrderBy) :=
  let! current := peek in
  if is_keyword KeywordOrder current then
    next ;;!
    expectKeyword KeywordBy ;;!
    with_fuel (λ fuel, comma_loop fuel (append_item parseOrderItem) [])
  else sret [].

(** LIMIT and OFFSET *)
Definition parseOptionalValue (keyword : Keyword) (msg : string) : ST Parser (option Expression) :=
  let! current := peek in
  if is_keyword keyword current then
    next ;;! let! exp := swrap msg parseExpression in sret (Some exp)
  else sret None.

Definition parseSelect : ST Parser Statement :=
  expectKeyword KeywordSelect ;;!
  let! selectItems := parseSelectItems in
  let! from := swrap "parser: parsing FROM clause: %w" parseFromClause in
  let! whereClause := parseOptionalComparison KeywordWhere in
  let! groupBy := parseGroupBy in
  let! having := parseOptionalComparison KeywordHaving in
  let! orderBy := parseOrderBy in
  let! limit := parseOptionalValue KeywordLimit "parser: parsing LIMIT value: %w" in
  let! offset := parseOptionalValue KeywordOffset "parser: parsing OFFSET value: %w" in
  sret (StatementSelect
    (mkSelect from selectItems whereClause groupBy having orderBy limit offset)).

(** ** CREATE TABLE *)

(** the constraints after the type of a column *)
Fixpoint constraint_loop (fuel : nat) (column : Column) : ST Parser Column :=
  match fuel with
  | O => slift (Panic Diverges)
  | S fuel =>
      let! following := peek in
      if decide (tok_kind following ≠ KeywordKind) then sret column
      else if decide (tok_keyword following = KeywordNull) then
        next ;;!
        constraint_loop fuel (mkColumn (cd_Name column) (cd_DataType column) (Some true)
          (cd_DefaultValue column) (cd_PrimaryKey column))
      else if decide (tok_keyword following = KeywordNot) then
        next ;;!
        expectKeyword KeywordNull ;;!
        constraint_loop fuel (mkColumn (cd_Name column) (cd_DataType column) (Some false)
          (cd_DefaultValue column) (cd_PrimaryKey column))
      else if decide (tok_keyword following = KeywordDefault) then
        next ;;!
        let! expression := parseExpression in
        constraint_loop fuel (mkColumn (cd_Name column) (cd_DataType column) (cd_Nullable column)
          (Some expression) (cd_PrimaryKey column))
      else if decide (tok_keyword following = KeywordPrimary) then
        next ;;!
        expectKeyword KeywordKey ;;!
        constraint_loop fuel (mkColumn (cd_Name column) (cd_DataType column) (cd_Nullable column)
          (cd_DefaultValue column) true)
      else sthrow (Errorf "parser: unexpected column constraint '%s' at %s")
  end.

Definition parseColumn : ST Parser Column :=
  let! name := expectIdentifier in
  let! token := next in
  if decide (tok_kind token ≠ KeywordKind)
  then sthrow (Errorf "parser: expected column data type, got %s at %s")
  else
    match keywordDataType (tok_keyword token) with
    | None => sthrow (Errorf "parser: unexpected column data type '%s' at %s")
    | Some dataType =>
        with_fuel (λ fuel, constraint_loop fuel (mkColumn name dataType None None false))
    end.

Definition parseCreateTable : ST Parser Statement :=
  expectKeyword KeywordCreate ;;!
  expectKeyword KeywordTable ;;!
  let! tableName := expectIdentifier in
  expect OpenParen ;;!
  let! columns := with_fuel (λ fuel, comma_loop fuel (append_item parseColumn) []) in
  expect CloseParen ;;!
  sret (StatementCreateTable (mkCreateTable tableName columns)).

(** ** INSERT, UPDATE and DELETE *)

Definition parseInsertColumns : ST Parser (list bytes) :=
  let! current := peek in
  if decide (tok_kind current = OpenParen) then
    next ;;!
    let! first := expectIdentifier in
    let! columns := with_fuel (λ fuel, paren_loop fuel expectIdentifier [first]) in
    expect CloseParen ;;!
    sret columns
  else sret [].

Definition parseInsertRow : ST Parser (list Expression) :=
  expect OpenParen ;;!
  let! first := parseExpression in
  let! row := with_fuel (λ fuel, paren_loop fuel parseExpression [first]) in
  expect CloseParen ;;!
  sret row.

Definition parseInsert : ST Parser Statement :=
  expectKeyword KeywordInsert ;;!
  expectKeyword KeywordInto ;;!
  let! tableName := expectIdentifier in
  let! columns := parseInsertColumns in
  expectKeyword KeywordValues ;;!
  let! values := with_fuel (λ fuel, comma_loop fuel (append_item parseInsertRow) []) in
  sret (StatementInsert (mkInsert tableName columns values)).

Definition parseAssignment (assignments : gmap bytes Expression)
    : ST Parser (gmap bytes Expression) :=
  let! _ := peek in
  let! columnName := expectIdentifier in
  expect Equal ;;!
  let! value := parseExpression in
  match assignments !! columnName with
  | Some _ => sthrow (Errorf "parser: duplicate update column %q at %s")
  | None => sret (<[columnName := value]> assignments)
  end.

Definition parseUpdate : ST Parser Statement :=
  expectKeyword KeywordUpdate ;;!
  let! tableName := expectIdentifier in
  expectKeyword KeywordSet ;;!
  let! assignments := with_fuel (λ fuel, comma_loop fuel parseAssignment ∅) in
  let! filter := parseOptionalComparison KeywordWhere in
  sret (StatementUpdate (mkUpdate tableName assignments filter)).

Definition parseDelete : ST Parser Statement :=
  expectKeyword KeywordDelete ;;!
  expectKeyword KeywordFrom ;;!
  let! tableName := expectIdentifier in
  let! filter := parseOptionalComparison KeywordWhere in
  sret (StatementDelete (mkDelete tableName filter)).

(** ** Statements *)

Definition parseStatement : ST Parser Statement :=
  let! current := peek in
  if decide (tok_kind current = EndOfInput)
  then sthrow (Errorf "parser: expected statement, got end of input at %s")
  else if decide (tok_kind current ≠ KeywordKind)
  then sthrow (Errorf "parser: statement must begin with a keyword, got %s at %s")
  else if decide (tok_keyword current = KeywordSelect) then parseSelect
  else if decide (tok_keyword current = KeywordCreate) then parseCreateTable
  else if decide (tok_keyword current = KeywordInsert) then parseInsert
  else if decide (tok_keyword current = KeywordUpdate) then parseUpdate
  else if decide (tok_keyword current = KeywordDelete) then parseDelete
  else sthrow (Errorf "parser: unsupported statement").

(** [Parser.Parse] after the tokens are there *)
Definition parseTokens (ts : list Token) : result Statement :=
  ((let! statement := parseStatement in
    expect Semicolon ;;!
    expect EndOfInput ;;!
    sret statement) (mkParser ts 0)).2.

Definition Parse (input : bytes) : result Statement :=
  let? ts := Lex input in parseTokens ts.
