(* ===== verification/ParserProps.v ===== *)
(** * The parser never panics and always ends

    [wp m p Q]: run at [p], the method [m] stays inside the token list, does
    not panic, only moves forward and, if it succeeds, ends in a state that
    satisfies [Q]. *)

From S2P Require Import Prelude Bytes Types Lexer LexerProps Ast Parser.

(** a property of the text of the string literals, for the parser to pass on *)
Class Strings := string_ok : bytes → Prop.

Definition string_token `{Hstr : Strings} (t : Token) : Prop :=
  ∀ s, tok_kind t = TString → tok_value t = StrValue s → string_ok s.

Definition inside `{Hstr : Strings} (p : Parser) : Prop :=
  (index p < length (tokens p))%nat ∧ tokens_ok (tokens p) ∧ Forall string_token (tokens p).

Definition forward (p p' : Parser) : Prop :=
  tokens p' = tokens p ∧ (index p ≤ index p' < length (tokens p))%nat.

Definition wp `{Hstr : Strings} {A} (m : ST Parser A) (p : Parser) (Q : Parser → A → Prop) : Prop :=
  inside p → forward p (m p).1 ∧ no_panic (m p).2 ∧ ∀ a, (m p).2 = Ok a → Q (m p).1 a.

(** the postconditions: nothing, and that a token was consumed *)
Definition any {A} : Parser → A → Prop := λ _ _, True.
Definition consumed {A} (p : Parser) : Parser → A → Prop := λ p' _, (index p < index p')%nat.

Lemma forward_inside `{Hstr : Strings} p p' : inside p → forward p p' → inside p'.
Proof. intros [? Hok] [Ht ?]. split; [rewrite Ht; lia|by rewrite Ht]. Qed.

Lemma forward_trans p1 p2 p3 : forward p1 p2 → forward p2 p3 → forward p1 p3.
Proof. intros [E1 ?] [E2 ?]. rewrite E1 in *. split; [congruence|lia]. Qed.

Lemma wp_mono `{Hstr : Strings} {A} (m : ST Parser A) p (Q Q' : Parser → A → Prop) :
  wp m p Q → (∀ p' a, forward p p' → Q p' a → Q' p' a) → wp m p Q'.
Proof. intros H HQ Hp. destruct (H Hp) as (Hf & Hn & Hq). split; [done|]. split; [done|]. auto. Qed.

Lemma wp_bind `{Hstr : Strings} {A B} (m : ST Parser A) (f : A → ST Parser B) p Q :
  wp m p (λ p1 a, wp (f a) p1 Q) → wp (sbind m f) p Q.
Proof.
  intros H Hp. destruct (H Hp) as (Hf & Hn & Hq). unfold sbind.
  destruct (m p) as [p1 [a|e|w]]; cbn in *; [|done..].
  destruct (Hq a eq_refl (forward_inside _ _ Hp Hf)) as (Hf2 & ? & ?).
  split; [by eapply forward_trans|done].
Qed.

Lemma wp_ret `{Hstr : Strings} {A} (a : A) p (Q : Parser → A → Prop) : Q p a → wp (sret a) p Q.
Proof. intros HQ [? ?]. split; [split; [done|cbn; lia]|]. split; [done|]. by intros ? [= <-]. Qed.

Lemma wp_throw `{Hstr : Strings} {A} e p (Q : Parser → A → Prop) : wp (sthrow e) p Q.
Proof. intros [? ?]. split; [split; [done|cbn; lia]|]. split; [done|]. by intros ? [=]. Qed.

Lemma wp_swrap `{Hstr : Strings} {A} msg (m : ST Parser A) p Q : wp m p Q → wp (swrap msg m) p Q.
Proof.
  intros H Hp. destruct (H Hp) as (Hf & Hn & Hq). unfold swrap.
  destruct (m p) as [p1 [a|e|w]]; cbn in *; naive_solver.
Qed.

Lemma wp_inside `{Hstr : Strings} {A} (m : ST Parser A) p Q : (inside p → wp m p Q) → wp m p Q.
Proof. intros H Hp. by apply H. Qed.

Lemma wp_with_fuel `{Hstr : Strings} {A} (m : nat → ST Parser A) p Q :
  wp (m (S (length (tokens p)))) p Q → wp (with_fuel m) p Q.
Proof. done. Qed.

(** ** Tokens *)

(** the current token *)
Definition current (p : Parser) (tok : Token) : Prop := tokens p !! index p = Some tok.

Lemma current_ok `{Hstr : Strings} p tok :
  inside p → current p tok →
  (tok_kind tok = EndOfInput ∧ index p = pred (length (tokens p))) ∨
  (tok_kind tok ≠ EndOfInput ∧ token_ok tok ∧ (S (index p) < length (tokens p))%nat).
Proof.
  intros (Hlt & (init & last & Ht & Hlast & Hinit) & _) Hc. unfold current in Hc. rewrite Ht in *.
  rewrite length_app in *. cbn in *. apply lookup_app_Some in Hc as [Hc|[Hge Hc]].
  - right. pose proof (lookup_lt_Some _ _ _ Hc).
    pose proof (proj1 (Forall_lookup _ _) Hinit _ _ Hc) as [? ?]. split; [done|]. split; [done|lia].
  - left. apply list_lookup_singleton_Some in Hc as [? <-]. split; [done|lia].
Qed.

Lemma wp_peek `{Hstr : Strings} p (Q : Parser → Token → Prop) : (∀ tok, current p tok → Q p tok) → wp peek p Q.
Proof.
  intros HQ [Hlt Hok]. destruct (lookup_lt_is_Some_2 _ _ Hlt) as [tok Htok].
  unfold peek, sread, rindex. rewrite Htok. split; [split; [done|cbn; lia]|].
  split; [done|]. intros ? [= <-]. by apply HQ.
Qed.

Definition step (p : Parser) : Parser := mkParser (tokens p) (S (index p)).

Lemma wp_next `{Hstr : Strings} p (Q : Parser → Token → Prop) :
  (∀ tok, current p tok → tok_kind tok ≠ EndOfInput → token_ok tok → Q (step p) tok) →
  (∀ tok, current p tok → tok_kind tok = EndOfInput → Q p tok) → wp next p Q.
Proof.
  intros H1 H2. unfold next. apply wp_bind, wp_peek. intros tok Htok Hp.
  destruct (current_ok _ _ Hp Htok) as [[Hk _]|(Hk & Hok & Hlt)].
  - rewrite decide_False by auto. apply (wp_ret tok p Q); [by apply H2|done].
  - rewrite decide_True by done. split; [split; [done|cbn; lia]|].
    split; [done|]. intros ? [= <-]. by apply H1.
Qed.

(** [next] on a token known not to be the last one *)
Lemma wp_next_current `{Hstr : Strings} p tok (Q : Parser → Token → Prop) :
  current p tok → tok_kind tok ≠ EndOfInput → Q (step p) tok → wp next p Q.
Proof.
  intros Hc Hk HQ. apply wp_next; intros tok' Hc' Hk'; [intros _|];
    (assert (tok' = tok) as -> by (unfold current in *; congruence)); done.
Qed.

(** the tactic that runs a method symbolically *)
Ltac wp_step :=
  lazymatch goal with
  | |- wp (sbind _ _) _ _ => apply wp_bind
  | |- wp (sret _) _ _ => apply wp_ret
  | |- wp (sthrow _) _ _ => apply wp_throw
  | |- wp (swrap _ _) _ _ => apply wp_swrap
  | |- wp peek _ _ => apply wp_peek; intros ? ?
  | H : current ?p ?tok, Hk : tok_kind ?tok = KeywordKind |- wp next ?p _ =>
      apply (wp_next_current p tok _ H); [congruence|]
  | |- wp next _ _ => apply wp_next; [intros ? ? ? ?|intros ? ? ?]
  | |- wp (if decide ?P then _ else _) _ _ =>
      let H := fresh "Hd" in destruct_decide (decide P) as H
  | |- wp (if negb ?b then _ else _) _ _ => destruct b eqn:?; cbn [negb]
  | |- wp (if ?b then _ else _) _ _ => destruct b eqn:?
  end.

Lemma is_keyword_true k tok : is_keyword k tok = true → tok_kind tok = KeywordKind ∧ tok_keyword tok = k.
Proof. unfold is_keyword. by rewrite andb_true_iff, !bool_decide_eq_true. Qed.

Lemma wp_expect `{Hstr : Strings} k p : k ≠ EndOfInput → wp (expect k) p (consumed p).
Proof.
  intros Hk. unfold expect. wp_step. apply wp_next; intros tok Hc Hne; [intros Hok|].
  - wp_step; [apply wp_throw|]. apply wp_ret. unfold consumed. cbn. lia.
  - rewrite decide_True by congruence. apply wp_throw.
Qed.

Lemma wp_expect_end `{Hstr : Strings} p : wp (expect EndOfInput) p any.
Proof.
  unfold expect. wp_step. apply wp_next; intros tok Hc Hne; [intros Hok|].
  - rewrite decide_True by done. apply wp_throw.
  - rewrite decide_False by auto. by apply wp_ret.
Qed.

Lemma wp_expectKeyword `{Hstr : Strings} k p : wp (expectKeyword k) p (consumed p).
Proof.
  unfold expectKeyword. wp_step. apply wp_next; intros tok Hc Hne; [intros Hok|].
  - wp_step; [|apply wp_throw]. apply wp_ret. unfold consumed. cbn. lia.
  - wp_step; [|apply wp_throw]. apply is_keyword_true in Heqb as [? _]. congruence.
Qed.

Lemma string_value_ok tok :
  token_ok tok → tok_kind tok = Identifier ∨ tok_kind tok = TString → ∃ s, tok_value tok = StrValue s.
Proof.
  unfold token_ok. intros Hok [Hk|Hk]; rewrite Hk in Hok; destruct Hok as (_ & s & Hs & _); by exists s.
Qed.

Lemma wp_string_value `{Hstr : Strings} tok p (Q : Parser → bytes → Prop) :
  token_ok tok → tok_kind tok = Identifier ∨ tok_kind tok = TString → (∀ s, Q p s) →
  wp (slift (string_value tok)) p Q.
Proof.
  intros Hok Hk HQ. destruct (string_value_ok _ Hok Hk) as [s Hs]. unfold string_value.
  rewrite Hs. apply (wp_ret s p Q), HQ.
Qed.

Lemma wp_expectIdentifier `{Hstr : Strings} p : wp expectIdentifier p (consumed p).
Proof.
  unfold expectIdentifier. wp_step. apply wp_next; intros tok Hc Hne; [intros Hok|].
  - wp_step; [apply wp_throw|]. apply wp_string_value; [done|by left|].
    intros s. unfold consumed. cbn. lia.
  - rewrite decide_True by congruence. apply wp_throw.
Qed.

(** sequencing of methods whose results do not matter *)
Lemma wp_any_bind `{Hstr : Strings} {A B} (m : ST Parser A) (f : A → ST Parser B) p (P : Parser → A → Prop) Q :
  wp m p P → (∀ p1 a, forward p p1 → P p1 a → wp (f a) p1 Q) → wp (sbind m f) p Q.
Proof. intros Hm Hf. apply wp_bind. eapply wp_mono; [done|]. auto. Qed.

Lemma consumed_trans {A} p p1 p' (a : A) :
  consumed p p1 a → (index p1 ≤ index p')%nat → consumed p p' a.
Proof. unfold consumed. lia. Qed.

Lemma wp_any `{Hstr : Strings} {A} (m : ST Parser A) p Q : wp m p Q → wp m p any.
Proof. intros H. eapply wp_mono; [done|]. done. Qed.

(** ** Expressions *)

Lemma wp_parseExpression `{Hstr : Strings} p : wp parseExpression p (consumed p).
Proof.
  unfold parseExpression. wp_step. apply wp_next; intros tok Hc Hne; [intros Hok|].
  - destruct (tok_kind tok) eqn:Hk; try apply wp_throw.
    + unfold token_ok in Hok. repeat wp_step; unfold consumed; cbn; lia.
    + wp_step. apply wp_string_value; [done|by left|]. intros name.
      wp_step. apply wp_peek. intros tok2 Hc2. wp_step; [apply wp_ret; unfold consumed; cbn; lia|].
      wp_step. eapply wp_next_current; [done|congruence|].
      wp_step. wp_step. eapply wp_mono; [apply wp_expectIdentifier|]. intros p3 arg Hf3 _.
      wp_step. wp_step. eapply wp_mono; [by apply wp_expect|]. intros p4 [] [_ Hf4] _.
      apply wp_ret. destruct Hf3 as [_ Hf3]. unfold consumed. cbn in *. lia.
    + wp_step. apply wp_string_value; [done|by right|]. intros s. apply wp_ret.
      unfold consumed. cbn. lia.
    + unfold token_ok in Hok. rewrite Hk in Hok. destruct Hok as (_ & [(z & -> & _)|(f & -> & _)]);
        apply wp_ret; unfold consumed; cbn; lia.
  - rewrite Hne. apply wp_throw.
Qed.

(** ** The methods *)

Create HintDb wp discriminated.
#[export] Hint Resolve wp_expectKeyword wp_expectIdentifier wp_parseExpression wp_expect_end : wp.
#[export] Hint Extern 1 (wp (expect _) _ _) => (apply wp_expect; discriminate) : wp.

(** call a method known to the database *)
Ltac wp_call := eapply wp_mono; [solve [eauto with wp]|intros ? ? ? ?].

Ltac wp_done :=
  unfold any; first [done | unfold consumed, forward in *; cbn in *; intuition lia].

(** run a method to the end *)
Ltac wp_run := repeat (wp_step || (progress cbn beta iota) || wp_call); try wp_done.

Lemma wp_parseComparisonExpression `{Hstr : Strings} p : wp parseComparisonExpression p (consumed p).
Proof.
  unfold parseComparisonExpression. wp_step. wp_step. wp_call.
  wp_step. apply wp_next; intros tok Hc Hk; [intros Hok|]; wp_step.
  - destruct (tok_kind tok); wp_run.
  - rewrite Hk. apply wp_throw.
Qed.
#[export] Hint Resolve wp_parseComparisonExpression : wp.

Lemma wp_parseOptionalComparison `{Hstr : Strings} k p : wp (parseOptionalComparison k) p any.
Proof. unfold parseOptionalComparison. wp_run. Qed.
#[export] Hint Resolve wp_parseOptionalComparison : wp.

Lemma wp_comma_loop `{Hstr : Strings} {B} (body : B → ST Parser B) fuel b p :
  (∀ b p, wp (body b) p any) → (length (tokens p) - index p < fuel)%nat →
  wp (comma_loop fuel body b) p any.
Proof.
  intros Hbody. revert b p. induction fuel as [|fuel IH]; intros b p Hf; [lia|].
  cbn [comma_loop]. wp_step. eapply wp_mono; [apply Hbody|]. intros p1 b1 Hf1 _.
  wp_step. apply wp_peek. intros tok Hc. wp_step; [by apply wp_ret|].
  wp_step. eapply wp_next_current; [done|congruence|]. apply IH.
  destruct Hf1 as [Ht ?]. cbn in *. rewrite Ht. lia.
Qed.

Lemma wp_paren_loop `{Hstr : Strings} {A} (item : ST Parser A) fuel l p :
  (∀ p, wp item p any) → (length (tokens p) - index p < fuel)%nat →
  wp (paren_loop fuel item l) p any.
Proof.
  intros Hitem. revert l p. induction fuel as [|fuel IH]; intros l p Hf; [lia|].
  cbn [paren_loop]. wp_step. apply wp_peek. intros tok Hc. wp_step; [|by apply wp_ret].
  wp_step. eapply wp_mono; [by apply wp_expect|]. intros p1 [] [Ht1 Hf1] Hc1.
  wp_step. eapply wp_mono; [apply Hitem|]. intros p2 a [Ht2 Hf2] _. apply IH.
  unfold consumed in Hc1. rewrite Ht1 in *. rewrite Ht2. lia.
Qed.

Lemma wp_comma_list `{Hstr : Strings} {A} (item : ST Parser A) p :
  (∀ p, wp item p any) → wp (with_fuel (λ fuel, comma_loop fuel (append_item item) [])) p any.
Proof.
  intros Hitem. apply wp_with_fuel, wp_comma_loop; [|lia]. intros l q.
  unfold append_item. wp_step. eapply wp_mono; [apply Hitem|]. intros. by apply wp_ret.
Qed.

Lemma wp_paren_list `{Hstr : Strings} {A} (item : ST Parser A) l p :
  (∀ p, wp item p any) → wp (with_fuel (λ fuel, paren_loop fuel item l)) p any.
Proof. intros Hitem. apply wp_with_fuel, wp_paren_loop; [done|lia]. Qed.

Lemma wp_parseJoinType `{Hstr : Strings} p :
  wp parseJoinType p (λ p' j, j ≠ None → (index p < index p')%nat).
Proof. unfold parseJoinType. wp_run. Qed.

Lemma wp_parseJoinPredicate `{Hstr : Strings} j p : wp (parseJoinPredicate j) p any.
Proof. unfold parseJoinPredicate. wp_run. destruct_decide (decide (j = JoinRight)); wp_run. Qed.
#[export] Hint Resolve wp_parseJoinPredicate : wp.

Lemma wp_join_loop `{Hstr : Strings} fuel item p :
  (length (tokens p) - index p < fuel)%nat → wp (join_loop fuel item) p any.
Proof.
  revert item p. induction fuel as [|fuel IH]; intros item p Hf; [lia|].
  cbn [join_loop]. wp_step. eapply wp_mono; [apply wp_parseJoinType|]. intros p1 [j|] [Ht1 Hf1] Hj;
    [|by apply wp_ret].
  wp_step. eapply wp_mono; [apply wp_expectIdentifier|]. intros p2 name [Ht2 Hf2] _.
  wp_step. eapply wp_mono; [apply wp_parseJoinPredicate|]. intros p3 pr [Ht3 Hf3] _.
  apply IH. specialize (Hj ltac:(done)). rewrite Ht3, Ht2, Ht1. rewrite Ht1, Ht2 in *. lia.
Qed.

Lemma wp_parseFromClause `{Hstr : Strings} p : wp parseFromClause p any.
Proof. unfold parseFromClause. wp_run. apply wp_with_fuel, wp_join_loop. lia. Qed.
#[export] Hint Resolve wp_parseFromClause : wp.

Lemma wp_parseAlias `{Hstr : Strings} p : wp parseAlias p any.
Proof. unfold parseAlias. wp_run. Qed.
#[export] Hint Resolve wp_parseAlias : wp.

Lemma wp_parseSelectItem `{Hstr : Strings} p : wp parseSelectItem p any.
Proof. unfold parseSelectItem. wp_run. Qed.

Lemma wp_parseSelectItems `{Hstr : Strings} p : wp parseSelectItems p any.
Proof. unfold parseSelectItems. wp_run. apply wp_comma_list, wp_parseSelectItem. Qed.
#[export] Hint Resolve wp_parseSelectItems : wp.

Lemma wp_parseGroupBy `{Hstr : Strings} p : wp parseGroupBy p any.
Proof. unfold parseGroupBy. wp_run. Qed.
#[export] Hint Resolve wp_parseGroupBy : wp.

Lemma wp_parseOrderItem `{Hstr : Strings} p : wp parseOrderItem p any.
Proof. unfold parseOrderItem. wp_run. Qed.

Lemma wp_parseOrderBy `{Hstr : Strings} p : wp parseOrderBy p any.
Proof.
  unfold parseOrderBy. wp_run; apply wp_comma_list, wp_parseOrderItem.
Qed.
#[export] Hint Resolve wp_parseOrderBy : wp.

Lemma wp_parseOptionalValue `{Hstr : Strings} k msg p : wp (parseOptionalValue k msg) p any.
Proof. unfold parseOptionalValue. wp_run. Qed.
#[export] Hint Resolve wp_parseOptionalValue : wp.

Lemma wp_parseSelect `{Hstr : Strings} p : wp parseSelect p any.
Proof. unfold parseSelect. wp_run. Qed.
#[export] Hint Resolve wp_parseSelect : wp.

Lemma wp_constraint_loop `{Hstr : Strings} fuel c p :
  (length (tokens p) - index p < fuel)%nat → wp (constraint_loop fuel c) p any.
Proof.
  revert c p. induction fuel as [|fuel IH]; intros c p Hf; [lia|].
  apply wp_inside. intros [Hin _]. cbn [constraint_loop]. wp_step. apply wp_peek. intros tok Hc. wp_step; [by apply wp_ret|].
  assert (∀ (m : ST Parser Column), wp m (step p) any → wp (next ;;! m) p any) as Hnext.
  { intros m Hm. apply wp_bind. eapply wp_next_current; [done|congruence|done]. }
  repeat (case_decide; [apply Hnext|]); [..|apply wp_throw].
  - apply IH. cbn. lia.
  - wp_step. eapply wp_mono; [apply wp_expectKeyword|]. intros p1 [] [Ht1 Hf1] _.
    apply IH. rewrite Ht1. cbn in *. lia.
  - wp_step. eapply wp_mono; [apply wp_parseExpression|]. intros p1 e [Ht1 Hf1] _.
    apply IH. rewrite Ht1. cbn in *. lia.
  - wp_step. eapply wp_mono; [apply wp_expectKeyword|]. intros p1 [] [Ht1 Hf1] _.
    apply IH. rewrite Ht1. cbn in *. lia.
Qed.

Lemma wp_parseColumn `{Hstr : Strings} p : wp parseColumn p any.
Proof.
  unfold parseColumn. wp_run; destruct (keywordDataType _); try apply wp_throw;
    (apply wp_with_fuel, wp_constraint_loop; lia).
Qed.

Lemma wp_parseCreateTable `{Hstr : Strings} p : wp parseCreateTable p any.
Proof.
  unfold parseCreateTable. wp_run. eapply wp_mono; [apply wp_comma_list, wp_parseColumn|].
  intros. wp_run.
Qed.
#[export] Hint Resolve wp_parseCreateTable : wp.

Lemma wp_parseInsertColumns `{Hstr : Strings} p : wp parseInsertColumns p any.
Proof.
  assert (∀ q l, wp (with_fuel (λ fuel, paren_loop fuel expectIdentifier l)) q any) as Hl.
  { intros. apply wp_paren_list. intros. eapply wp_any, wp_expectIdentifier. }
  unfold parseInsertColumns. wp_run.
Qed.
#[export] Hint Resolve wp_parseInsertColumns : wp.

Lemma wp_parseInsertRow `{Hstr : Strings} p : wp parseInsertRow p any.
Proof.
  assert (∀ q l, wp (with_fuel (λ fuel, paren_loop fuel parseExpression l)) q any) as Hl.
  { intros. apply wp_paren_list. intros. eapply wp_any, wp_parseExpression. }
  unfold parseInsertRow. wp_run.
Qed.

Lemma wp_parseInsert `{Hstr : Strings} p : wp parseInsert p any.
Proof.
  unfold parseInsert. wp_run. eapply wp_mono; [apply wp_comma_list, wp_parseInsertRow|].
  intros. wp_run.
Qed.
#[export] Hint Resolve wp_parseInsert : wp.

Lemma wp_parseAssignment `{Hstr : Strings} m p : wp (parseAssignment m) p any.
Proof. unfold parseAssignment. wp_run. Qed.

Lemma wp_parseUpdate `{Hstr : Strings} p : wp parseUpdate p any.
Proof.
  unfold parseUpdate. wp_run.
  eapply wp_mono; [apply wp_with_fuel, wp_comma_loop; [apply wp_parseAssignment|lia]|].
  intros. wp_run.
Qed.
#[export] Hint Resolve wp_parseUpdate : wp.

Lemma wp_parseDelete `{Hstr : Strings} p : wp parseDelete p any.
Proof. unfold parseDelete. wp_run. Qed.
#[export] Hint Resolve wp_parseDelete : wp.

Lemma wp_parseStatement `{Hstr : Strings} p : wp parseStatement p any.
Proof. unfold parseStatement. wp_run; eauto with wp. Qed.
#[export] Hint Resolve wp_parseStatement : wp.

(** on the lexer's tokens the parser returns a statement or an error *)
Lemma parseTokens_wp `{Hstr : Strings} ts (P : Statement → Prop) :
  tokens_ok ts → Forall string_token ts → wp parseStatement (mkParser ts 0) (λ _, P) →
  no_panic (parseTokens ts) ∧ ∀ s, parseTokens ts = Ok s → P s.
Proof.
  intros Hts Hstrs Hm. unfold parseTokens.
  assert (wp (let! statement := parseStatement in
    expect Semicolon ;;! expect EndOfInput ;;! sret statement) (mkParser ts 0) (λ _, P)) as Hwp.
  { wp_step. eapply wp_mono; [exact Hm|]. intros p1 s1 _ Hs1. wp_run. }
  apply Hwp. split; [|done]. destruct Hts as (init & last & -> & _). cbn. rewrite length_app. cbn. lia.
Qed.

Lemma Parse_no_panic input : no_panic (Parse input).
Proof.
  unfold Parse. pose proof (Lex_ok input) as H. destruct (Lex input) as [ts|e|w]; [|done|done].
  destruct H as [H _]. cbn [rbind].
  apply (parseTokens_wp (Hstr := λ _, True) ts (λ _, True)); [done|by apply Forall_forall|].
  apply wp_parseStatement.
Qed.
