(* ===== verification/ParserRoundtrip.v ===== *)
(** * Parsing the text of a statement gives the statement back

    [print_statement] writes a statement as tokens; [parses m ts a F] says
    that [m], on a token list that starts like [ts] and goes on with a token
    allowed by [F], consumes exactly [ts] and returns [a]. *)

From S2P Require Import Prelude Bytes Types Lexer LexerProps Ast Parser.

(** ** Printing *)

Definition sym (k : TokenKind) : Token := mkToken k [] NoValue 0.
Definition kw (k : Keyword) : Token := mkToken KeywordKind k NoValue 0.
Definition ident (s : bytes) : Token := mkToken Identifier [] (StrValue s) 0.

Definition op_kind (k : OperationKind) : TokenKind :=
  match k with
  | OperationEqual => Equal
  | OperationGreaterThan => GreaterThan
  | OperationLessThan => LessThan
  end.

Fixpoint print_expression (e : Expression) : list Token :=
  match e with
  | Null => [kw KeywordNull]
  | BooleanLiteral b => [kw (if b then KeywordTrue else KeywordFalse)]
  | IntegerLiteral z => [mkToken Number [] (IntValue z) 0]
  | FloatLiteral f => [mkToken Number [] (FltValue f) 0]
  | StringLiteral s => [mkToken TString [] (StrValue s) 0]
  | FunctionExpression c => [ident (fc_Name c); sym OpenParen; ident (fc_Argument c); sym CloseParen]
  | ColumnReference name => [ident name]
  | OperationExpression k l r => print_expression l ++ sym (op_kind k) :: print_expression r
  end.

(** items separated by commas *)
Fixpoint commas (items : list (list Token)) : list Token :=
  match items with
  | [] => []
  | [ts] => ts
  | ts :: items => ts ++ sym Comma :: commas items
  end.

Definition optional {A} (f : A → list Token) (o : option A) : list Token :=
  match o with Some a => f a | None => [] end.

Definition join_keywords (j : JoinType) : list Token :=
  match j with
  | JoinCross => [kw KeywordCross; kw KeywordJoin]
  | JoinInner => [kw KeywordJoin]
  | JoinLeft => [kw KeywordLeft; kw KeywordJoin]
  | JoinRight => [kw KeywordRight; kw KeywordJoin]
  end.

(** the operands of a RIGHT JOIN are written in the opposite order *)
Definition print_on (j : JoinType) (predicate : option Expression) : list Token :=
  match predicate with
  | Some (OperationExpression _ l r) =>
      let '(l, r) := if decide (j = JoinRight) then (r, l) else (l, r) in
      kw KeywordOn :: print_expression l ++ sym Equal :: print_expression r
  | _ => []
  end.

Fixpoint print_from (f : FromItem) : list Token :=
  match f with
  | TableFromItem name => [ident name]
  | JoinFromItem l r j predicate =>
      print_from l ++ join_keywords j ++ print_from r ++ print_on j predicate
  end.

Definition print_item (i : SelectItem) : list Token :=
  print_expression (si_Expression i) ++ optional (λ a, [kw KeywordAs; ident a]) (si_Alias i).

Definition print_items (items : list SelectItem) : list Token :=
  match items with [] => [sym Asterisk] | _ :: _ => commas (map print_item items) end.

Definition print_order (o : OrderBy) : list Token :=
  [ident (ob_Column o);
   kw (match ob_Direction o with OrderAscending => KeywordAsc | OrderDescending => KeywordDesc end)].

Definition print_clause (k : Keyword) (e : Expression) : list Token := kw k :: print_expression e.

Definition print_select_tail (s : SelectStatement) : list (list Token) :=
  [ optional (print_clause KeywordWhere) (sel_Where s);
    optional (λ e, kw KeywordGroup :: kw KeywordBy :: print_expression e) (sel_GroupBy s);
    optional (print_clause KeywordHaving) (sel_Having s);
    (if decide (sel_OrderBy s = []) then [] else
       kw KeywordOrder :: kw KeywordBy :: commas (map print_order (sel_OrderBy s)));
    optional (print_clause KeywordLimit) (sel_Limit s);
    optional (print_clause KeywordOffset) (sel_Offset s) ].

Definition print_select (s : SelectStatement) : list Token :=
  kw KeywordSelect ::
  print_items (sel_SelectItems s) ++
  kw KeywordFrom :: print_from (sel_From s) ++ concat (print_select_tail s).

Definition type_keyword (t : DataType) : Keyword :=
  match t with
  | Boolean => KeywordBoolean
  | Integer => KeywordInteger
  | Float => KeywordFloat
  | String => KeywordString
  end.

Definition print_column (c : Column) : list Token :=
  ident (cd_Name c) :: kw (type_keyword (cd_DataType c)) ::
  optional (λ b, if (b : bool) then [kw KeywordNull] else [kw KeywordNot; kw KeywordNull])
    (cd_Nullable c) ++
  optional (print_clause KeywordDefault) (cd_DefaultValue c) ++
  (if cd_PrimaryKey c then [kw KeywordPrimary; kw KeywordKey] else []).

Definition print_create (s : CreateTableStatement) : list Token :=
  kw KeywordCreate :: kw KeywordTable :: ident (ct_Name s) :: sym OpenParen ::
  commas (map print_column (ct_Columns s)) ++ [sym CloseParen].

Definition print_row (row : list Expression) : list Token :=
  sym OpenParen :: commas (map print_expression row) ++ [sym CloseParen].

Definition print_insert (s : InsertStatement) : list Token :=
  kw KeywordInsert :: kw KeywordInto :: ident (ins_TableName s) ::
  (if decide (ins_Columns s = []) then []
   else sym OpenParen :: commas (map (λ c, [ident c]) (ins_Columns s)) ++ [sym CloseParen]) ++
  kw KeywordValues :: commas (map print_row (ins_Values s)).

Definition print_assignment (a : bytes * Expression) : list Token :=
  ident a.1 :: sym Equal :: print_expression a.2.

(** the assignments in some order *)
Definition print_update (s : UpdateStatement) (assignments : list (bytes * Expression)) : list Token :=
  kw KeywordUpdate :: ident (upd_TableName s) :: kw KeywordSet ::
  commas (map print_assignment assignments) ++
  optional (print_clause KeywordWhere) (upd_Filter s).

Definition print_delete (s : DeleteStatement) : list Token :=
  kw KeywordDelete :: kw KeywordFrom :: ident (del_TableName s) ::
  optional (print_clause KeywordWhere) (del_Filter s).

(** [prints stmt ts]: the tokens spell the statement.  The assignments of an
    UPDATE may come in any order. *)
Inductive prints : Statement → list Token → Prop :=
  | prints_select s : prints (StatementSelect s) (print_select s)
  | prints_create s : prints (StatementCreateTable s) (print_create s)
  | prints_insert s : prints (StatementInsert s) (print_insert s)
  | prints_update s l :
      NoDup l.*1 → list_to_map l = upd_Assignments s →
      prints (StatementUpdate s) (print_update s l)
  | prints_delete s : prints (StatementDelete s) (print_delete s).

(** ** The statements the grammar covers *)

(** a literal the lexer can produce, a column or a function call *)
Definition leaf (e : Expression) : Prop :=
  match e with
  | OperationExpression _ _ _ => False
  | IntegerLiteral z => 0 ≤ z ≤ max_int64
  | FloatLiteral f => finite_float f
  | _ => True
  end.

Definition comparison (e : Expression) : Prop :=
  match e with OperationExpression _ l r => leaf l ∧ leaf r | _ => False end.

Definition on_ok (j : JoinType) (predicate : option Expression) : Prop :=
  match j, predicate with
  | JoinCross, None => True
  | JoinCross, _ => False
  | _, Some (OperationExpression OperationEqual l r) => leaf l ∧ leaf r
  | _, _ => False
  end.

Fixpoint from_ok (f : FromItem) : Prop :=
  match f with
  | TableFromItem _ => True
  | JoinFromItem l (TableFromItem _) j predicate => from_ok l ∧ on_ok j predicate
  | _ => False
  end.

Definition opt_ok (P : Expression → Prop) (o : option Expression) : Prop :=
  match o with Some e => P e | None => True end.

Definition statement_ok (s : Statement) : Prop :=
  match s with
  | StatementSelect s =>
      Forall (λ i, leaf (si_Expression i)) (sel_SelectItems s) ∧ from_ok (sel_From s) ∧
      opt_ok comparison (sel_Where s) ∧ opt_ok leaf (sel_GroupBy s) ∧
      opt_ok comparison (sel_Having s) ∧ opt_ok leaf (sel_Limit s) ∧ opt_ok leaf (sel_Offset s)
  | StatementCreateTable s =>
      ct_Columns s ≠ [] ∧ Forall (λ c, opt_ok leaf (cd_DefaultValue c)) (ct_Columns s)
  | StatementInsert s =>
      ins_Values s ≠ [] ∧ Forall (λ row, row ≠ [] ∧ Forall leaf row) (ins_Values s)
  | StatementUpdate s =>
      upd_Assignments s ≠ ∅ ∧ map_Forall (λ _ e, leaf e) (upd_Assignments s) ∧
      opt_ok comparison (upd_Filter s)
  | StatementDelete s => opt_ok comparison (del_Filter s)
  end.

(** ** Running a method on a known prefix *)

Abbreviation follow := (TokenKind → Keyword → Prop).
Definition anything : follow := λ _ _, True.

Definition parses {A} (m : ST Parser A) (ts : list Token) (a : A) (F : follow) : Prop :=
  ∀ p ts' tok rest,
    drop (index p) (tokens p) = ts' ++ tok :: rest → Forall2 same_token ts' ts →
    F (tok_kind tok) (tok_keyword tok) →
    m p = (mkParser (tokens p) (index p + length ts), Ok a).

(** the token after the part parsed with [F1] is the head of [ts], or, if
    there is none, one allowed by [F2] *)
Definition head_ok (F1 : follow) (ts : list Token) (F2 : follow) : Prop :=
  match ts with
  | t :: _ => F1 (tok_kind t) (tok_keyword t)
  | [] => ∀ k w, F2 k w → F1 k w
  end.

Lemma parses_bind {A B} (m : ST Parser A) (f : A → ST Parser B) ts1 ts2 a b F1 F2 :
  parses m ts1 a F1 → head_ok F1 ts2 F2 → parses (f a) ts2 b F2 →
  parses (sbind m f) (ts1 ++ ts2) b F2.
Proof.
  intros Hm Hh Hf p ts' tok rest Hp Hts HF.
  apply Forall2_app_inv_r in Hts as (ts1' & ts2' & H1 & H2 & ->).
  pose proof (Forall2_length _ _ _ H1) as Hl1.
  rewrite <-app_assoc in Hp.
  assert (∃ tok1 rest1, ts2' ++ tok :: rest = tok1 :: rest1 ∧ F1 (tok_kind tok1) (tok_keyword tok1))
    as (tok1 & rest1 & Heq & HF1).
  { destruct H2 as [|x y l k Hxy _]; cbn in *; eexists _, _; (split; [done|]); [by apply Hh|].
    destruct Hxy as (-> & -> & _). done. }
  pose proof Hp as Hp1. rewrite Heq in Hp1.
  erewrite sbind_eq; [|by eapply Hm].
  erewrite (Hf _ ts2'); [|cbn|done|done].
  - cbn. by rewrite length_app, Nat.add_assoc.
  - by rewrite <-drop_drop, Hp, <-Hl1, drop_app_length.
Qed.

Lemma parses_ret {A} (a : A) F : parses (sret a) [] a F.
Proof. intros [ts i] ts' tok rest _ _ _. cbn. by rewrite Nat.add_0_r. Qed.

Lemma parses_swrap {A} msg (m : ST Parser A) ts a F : parses m ts a F → parses (swrap msg m) ts a F.
Proof. intros Hm p ts' tok rest Hp Hts HF. unfold swrap. by erewrite Hm. Qed.

Lemma parses_mono {A} (m : ST Parser A) ts a (F F' : follow) :
  parses m ts a F → (∀ k w, F' k w → F k w) → parses m ts a F'.
Proof. intros Hm HF p ts' tok rest Hp Hts HF'. eapply Hm; eauto. Qed.

Lemma drop_current {p : Parser} {tok rest} :
  drop (index p) (tokens p) = tok :: rest → tokens p !! index p = Some tok.
Proof.
  intros Hd. assert (drop (index p) (tokens p) !! 0%nat = Some tok) as H by (by rewrite Hd).
  by rewrite lookup_drop, Nat.add_0_r in H.
Qed.

Lemma peek_eq p tok rest : drop (index p) (tokens p) = tok :: rest → peek p = (p, Ok tok).
Proof. intros Hd. unfold peek, sread, rindex. by rewrite (drop_current Hd). Qed.

(** looking at the next token of the prefix, or at the one that follows it *)
Lemma parses_peek {B} (f : Token → ST Parser B) t ts b F :
  (∀ t', same_token t' t → parses (f t') (t :: ts) b F) → parses (sbind peek f) (t :: ts) b F.
Proof.
  intros Hf p ts' tok rest Hp Hts HF. inversion Hts as [|t' ? ts1' ? Ht Hts1]; subst. cbn in Hp.
  erewrite sbind_eq; [|by eapply peek_eq].
  apply (Hf t' Ht p (t' :: ts1') tok rest); [done|by constructor|done].
Qed.

Lemma parses_peek_end {B} (f : Token → ST Parser B) b (F : follow) :
  (∀ t, F (tok_kind t) (tok_keyword t) → parses (f t) [] b F) → parses (sbind peek f) [] b F.
Proof.
  intros Hf p ts' tok rest Hp Hts HF. inversion Hts; subst. cbn in Hp.
  erewrite sbind_eq; [|by eapply peek_eq]. apply (Hf tok HF p [] tok rest); [done|constructor|done].
Qed.

Lemma parses_next {B} (f : Token → ST Parser B) t ts b F :
  tok_kind t ≠ EndOfInput → (∀ t', same_token t' t → parses (f t') ts b F) →
  parses (sbind next f) (t :: ts) b F.
Proof.
  intros Hk Hf p ts' tok rest Hp Hts HF. inversion Hts as [|t' ? ts1' ? Ht Hts1]; subst. cbn in Hp.
  pose proof Ht as (Hk' & _ & _).
  erewrite sbind_eq.
  2:{ unfold next. erewrite sbind_eq; [|by eapply peek_eq]. by rewrite decide_True by congruence. }
  erewrite Hf; [|done|cbn|done|done]; [cbn; by rewrite Nat.add_succ_r|].
  rewrite <-Nat.add_1_r, <-drop_drop, Hp. done.
Qed.

Lemma parses_expect k : k ≠ EndOfInput → parses (expect k) [sym k] () anything.
Proof.
  intros Hk. unfold expect. apply parses_next; [done|]. intros t (-> & _ & _).
  rewrite decide_False by (cbn; auto). apply parses_ret.
Qed.

Lemma is_keyword_same t k : same_token t (kw k) → is_keyword k t = true.
Proof. intros (Hk & Hw & _). unfold is_keyword. by rewrite Hk, Hw, !bool_decide_eq_true_2. Qed.

Lemma parses_expectKeyword k : parses (expectKeyword k) [kw k] () anything.
Proof.
  unfold expectKeyword. apply parses_next; [done|]. intros t Ht.
  rewrite (is_keyword_same _ _ Ht). apply parses_ret.
Qed.

Lemma parses_expectIdentifier s : parses expectIdentifier [ident s] s anything.
Proof.
  unfold expectIdentifier. apply parses_next; [done|]. intros t (-> & _ & Hv).
  rewrite decide_False by (cbn; auto). unfold string_value. rewrite Hv. apply (parses_ret s).
Qed.

Lemma head_refl F : head_ok F [] F.
Proof. by intros k w. Qed.

Lemma head_anything ts F : head_ok anything ts F.
Proof. by destruct ts. Qed.

(** a method that consumes one token, whatever follows *)
Lemma parses_one {A B} (m : ST Parser A) (f : A → ST Parser B) t ts a b F :
  parses m [t] a anything → parses (f a) ts b F → parses (sbind m f) (t :: ts) b F.
Proof. intros Hm Hf. eapply (parses_bind m f [t] ts); [done|by destruct ts|done]. Qed.

Lemma parses_with_fuel {A} (m : nat → ST Parser A) ts a F :
  (∀ fuel, (length ts < fuel)%nat → parses (m fuel) ts a F) → parses (with_fuel m) ts a F.
Proof.
  intros Hm p ts' tok rest Hp Hts HF. unfold with_fuel. eapply Hm; [|done..].
  apply Forall2_length in Hts. apply (f_equal length) in Hp.
  rewrite length_drop, length_app in Hp. cbn in Hp. lia.
Qed.

(** ** Expressions *)

Definition no_call : follow := λ k _, k ≠ OpenParen.

Lemma parses_expression e : leaf e → parses parseExpression (print_expression e) e no_call.
Proof.
  unfold parseExpression. destruct e as [|b|z|f|s|k l r|[name arg]|name]; intros Hleaf; [..|done| |];
    cbn [print_expression].
  - apply parses_next; [done|]. intros t (-> & -> & _). cbn. apply parses_ret.
  - apply parses_next; [by destruct b|]. intros t (-> & -> & _). destruct b; apply parses_ret.
  - apply parses_next; [done|]. intros t (-> & _ & ->). apply parses_ret.
  - apply parses_next; [done|]. intros t (-> & _ & ->). apply parses_ret.
  - apply parses_next; [done|]. intros t (-> & _ & Hv). cbn. unfold string_value. rewrite Hv.
    apply (parses_ret (StringLiteral s)).
  - apply parses_next; [done|]. intros t (-> & _ & Hv). cbn -[peek]. unfold string_value. rewrite Hv.
    cbn in Hv |- *. apply parses_peek. intros t2 (Hk2 & _ & _). rewrite Hk2. cbn.
    apply parses_next; [done|]. intros t3 _.
    eapply parses_one; [apply parses_swrap, parses_expectIdentifier|].
    eapply parses_one; [by apply parses_swrap, parses_expect|]. apply parses_ret.
  - apply parses_next; [done|]. intros t (-> & _ & Hv). cbn -[peek]. unfold string_value. rewrite Hv.
    cbn. apply parses_peek_end. intros t2 Hk2. rewrite decide_True by done. apply parses_ret.
Qed.

Lemma parses_comparison e :
  comparison e → parses parseComparisonExpression (print_expression e) e no_call.
Proof.
  destruct e as [| | | | |k l r| |]; try done. intros [Hl Hr]. cbn [print_expression].
  unfold parseComparisonExpression.
  eapply parses_bind; [by apply parses_swrap, parses_expression|by destruct k|].
  apply parses_next; [by destruct k|]. intros t (-> & _ & _).
  rewrite <-(app_nil_l (print_expression r)).
  eapply (parses_bind _ _ [] _ k _ anything); [destruct k; apply parses_ret|apply head_anything|].
  rewrite <-(app_nil_r (print_expression r)).
  eapply parses_bind; [by apply parses_swrap, parses_expression|apply head_refl|apply parses_ret].
Qed.

(** ** Clauses *)

(** the end of the statement or one of the clauses [ks] *)
Definition stops (ks : list Keyword) : follow :=
  λ k w, k = Semicolon ∨ (k = KeywordKind ∧ w ∈ ks).

Lemma stops_no_call ks k w : stops ks k w → no_call k w.
Proof. by intros [->|[-> _]]. Qed.

Lemma stops_sub ks ks' k w : ks' ⊆ ks → stops ks' k w → stops ks k w.
Proof. unfold stops. set_solver. Qed.

Lemma stops_not_keyword ks k0 t :
  stops ks (tok_kind t) (tok_keyword t) → k0 ∉ ks → is_keyword k0 t = false.
Proof.
  unfold is_keyword. intros [->|[-> Hw]] Hk; [done|].
  apply bool_decide_eq_false_2. by intros <-.
Qed.

Lemma parses_wrapped_leaf msg e F :
  leaf e → (∀ k w, F k w → no_call k w) →
  parses (let! x := swrap msg parseExpression in sret (Some x)) (print_expression e) (Some e) F.
Proof.
  intros He HF. rewrite <-(app_nil_r (print_expression e)).
  eapply parses_bind; [by apply parses_swrap, parses_expression|done|apply parses_ret].
Qed.

Lemma parses_optional_comparison k0 o ks :
  opt_ok comparison o → k0 ∉ ks →
  parses (parseOptionalComparison k0) (optional (print_clause k0) o) o (stops ks).
Proof.
  intros Ho Hk. unfold parseOptionalComparison. destruct o as [e|]; cbn [optional print_clause].
  - apply parses_peek. intros t Ht. rewrite (is_keyword_same _ _ Ht). cbn [negb].
    apply parses_next; [done|]. intros t2 _. rewrite <-(app_nil_r (print_expression e)).
    eapply parses_bind; [by apply parses_swrap, parses_comparison| |apply parses_ret].
    intros k w. apply stops_no_call.
  - apply parses_peek_end. intros t Ht. rewrite (stops_not_keyword _ _ _ Ht Hk). apply parses_ret.
Qed.

Lemma parses_optional_value k0 msg o ks :
  opt_ok leaf o → k0 ∉ ks →
  parses (parseOptionalValue k0 msg) (optional (print_clause k0) o) o (stops ks).
Proof.
  intros Ho Hk. unfold parseOptionalValue. destruct o as [e|]; cbn [optional print_clause].
  - apply parses_peek. intros t Ht. rewrite (is_keyword_same _ _ Ht).
    apply parses_next; [done|]. intros t2 _. apply parses_wrapped_leaf; [done|apply stops_no_call].
  - apply parses_peek_end. intros t Ht. rewrite (stops_not_keyword _ _ _ Ht Hk). apply parses_ret.
Qed.

Lemma parses_group_by o ks :
  opt_ok leaf o → KeywordGroup ∉ ks →
  parses parseGroupBy (optional (λ e, kw KeywordGroup :: kw KeywordBy :: print_expression e) o) o
    (stops ks).
Proof.
  intros Ho Hk. unfold parseGroupBy. destruct o as [e|]; cbn [optional].
  - apply parses_peek. intros t Ht. rewrite (is_keyword_same _ _ Ht).
    apply parses_next; [done|]. intros t2 _.
    eapply parses_one; [apply parses_swrap, parses_expectKeyword|].
    apply parses_wrapped_leaf; [done|apply stops_no_call].
  - apply parses_peek_end. intros t Ht. rewrite (stops_not_keyword _ _ _ Ht Hk). apply parses_ret.
Qed.

(** ** Loops *)

(** the body of the loop accepts the items of the list one after the other *)
Fixpoint accepts {B X} (ok : B → X → Prop) (g : B → X → B) (b : B) (xs : list X) : Prop :=
  match xs with
  | [] => True
  | x :: xs => ok b x ∧ accepts ok g (g b x) xs
  end.

Lemma parses_comma_loop {B X} (body : B → ST Parser B) (g : B → X → B) (pr : X → list Token)
    (ok : B → X → Prop) (Fi F : follow) fuel b xs :
  (∀ b x, ok b x → parses (body b) (pr x) (g b x) Fi) →
  Fi Comma [] → (∀ k w, F k w → k ≠ Comma ∧ Fi k w) →
  xs ≠ [] → accepts ok g b xs → (length xs ≤ fuel)%nat →
  parses (comma_loop fuel body b) (commas (map pr xs)) (foldl g b xs) F.
Proof.
  intros Hbody HFc HF. revert b xs. induction fuel as [|fuel IH]; intros b xs Hne Hacc Hlen.
  { destruct xs; [done|cbn in Hlen; lia]. }
  destruct xs as [|x xs]; [done|]. cbn [comma_loop]. destruct Hacc as [Hok Hacc]. destruct xs as [|y xs].
  - cbn. rewrite <-(app_nil_r (pr x)).
    eapply parses_bind; [by apply Hbody|intros k w Hk; by apply (HF k w)|].
    apply parses_peek_end. intros t Ht. rewrite decide_True by (by apply (HF _ _ Ht)). apply parses_ret.
  - change (commas (map pr (x :: y :: xs))) with (pr x ++ sym Comma :: commas (map pr (y :: xs))).
    eapply parses_bind; [by apply Hbody|done|].
    apply parses_peek. intros t (Hk & _ & _). rewrite Hk, decide_False by (cbn; auto).
    apply parses_next; [done|]. intros t2 _. apply (IH (g b x) (y :: xs)); [done|done|cbn in *; lia].
Qed.

Lemma accepts_all {A X} (P : X → Prop) (g : list A → X → list A) l xs :
  Forall P xs → accepts (λ _, P) g l xs.
Proof. intros H. revert l. induction H as [|x xs Hx _ IH]; intros l; cbn; auto. Qed.

Lemma foldl_snoc_id {A} (l xs : list A) : foldl (λ l x, l ++ [x]) l xs = l ++ xs.
Proof.
  revert l. induction xs as [|x xs IH]; intros l; cbn; [by rewrite app_nil_r|].
  by rewrite IH, <-app_assoc.
Qed.

Lemma commas_length {X} (pr : X → list Token) xs :
  (∀ x, pr x ≠ []) → (length xs ≤ length (commas (map pr xs)))%nat.
Proof.
  intros Hpr. induction xs as [|x xs IH]; [done|]. destruct xs as [|y xs].
  - cbn. specialize (Hpr x). destruct (pr x); [done|]. cbn. lia.
  - change (commas (map pr (x :: y :: xs))) with (pr x ++ sym Comma :: commas (map pr (y :: xs))).
    rewrite length_app. cbn [length] in *. lia.
Qed.

Lemma parses_comma_list {A} (item : ST Parser A) (pr : A → list Token) (P : A → Prop)
    (Fi F : follow) xs :
  (∀ x, P x → parses item (pr x) x Fi) → (∀ x, pr x ≠ []) →
  Fi Comma [] → (∀ k w, F k w → k ≠ Comma ∧ Fi k w) → xs ≠ [] → Forall P xs →
  parses (with_fuel (λ fuel, comma_loop fuel (append_item item) [])) (commas (map pr xs)) xs F.
Proof.
  intros Hitem Hpr HFc HF Hne HP. apply parses_with_fuel. intros fuel Hf.
  pose proof (parses_comma_loop (append_item item) (λ l x, l ++ [x]) pr (λ _, P) Fi F fuel [] xs) as Hl.
  rewrite foldl_snoc_id in Hl. apply Hl; [|done|done|done|by apply accepts_all|].
  - intros l x Hx. unfold append_item. rewrite <-(app_nil_r (pr x)).
    eapply parses_bind; [by apply Hitem|apply head_refl|apply parses_ret].
  - pose proof (commas_length pr xs Hpr). lia.
Qed.

(** the parenthesised lists: a first item, then items behind commas *)
Lemma commas_cons {X} (pr : X → list Token) x xs :
  commas (map pr (x :: xs)) = pr x ++ concat (map (λ y, sym Comma :: pr y) xs).
Proof.
  revert x. induction xs as [|y xs IH]; intros x; [cbn; by rewrite app_nil_r|].
  change (commas (map pr (x :: y :: xs))) with (pr x ++ sym Comma :: commas (map pr (y :: xs))).
  by rewrite IH.
Qed.

Definition closes : follow := λ k _, k = CloseParen.

Lemma parses_paren_loop {A} (item : ST Parser A) (pr : A → list Token) (P : A → Prop)
    (Fi : follow) fuel l xs :
  (∀ x, P x → parses item (pr x) x Fi) →
  Fi Comma [] → (∀ w, Fi CloseParen w) → Forall P xs → (length xs < fuel)%nat →
  parses (paren_loop fuel item l) (concat (map (λ y, sym Comma :: pr y) xs)) (l ++ xs) closes.
Proof.
  intros Hitem HFc HFp HP. revert l fuel. induction HP as [|x xs Hx HP IH]; intros l [|fuel] Hf;
    try (cbn in Hf; lia); cbn [paren_loop map concat].
  - rewrite app_nil_r. apply parses_peek_end. intros t Ht. rewrite decide_False by (by intros []).
    apply parses_ret.
  - cbn [app]. apply parses_peek. intros t (Hk & _ & _). rewrite Hk, decide_True by done.
    eapply parses_one; [by apply parses_expect|].
    eapply parses_bind; [by apply Hitem| |].
    + destruct xs; cbn; [|done]. by intros k w ->.
    + replace (l ++ x :: xs) with ((l ++ [x]) ++ xs) by (by rewrite <-app_assoc).
      apply IH. cbn in Hf. lia.
Qed.

Lemma concat_length {X} (pr : X → list Token) xs :
  (length xs ≤ length (concat (map (λ y, sym Comma :: pr y) xs)))%nat.
Proof. induction xs as [|x xs IH]; cbn; [lia|]. rewrite length_app. lia. Qed.

Lemma parses_paren_list {A} (item : ST Parser A) (pr : A → list Token) (P : A → Prop)
    (Fi : follow) l xs :
  (∀ x, P x → parses item (pr x) x Fi) →
  Fi Comma [] → (∀ w, Fi CloseParen w) → Forall P xs →
  parses (with_fuel (λ fuel, paren_loop fuel item l))
    (concat (map (λ y, sym Comma :: pr y) xs)) (l ++ xs) closes.
Proof.
  intros. apply parses_with_fuel. intros fuel Hf. eapply parses_paren_loop; [done..|].
  pose proof (concat_length pr xs). lia.
Qed.

(** ** FROM *)

Definition join_words : list Keyword := [KeywordCross; KeywordJoin; KeywordLeft; KeywordRight].

(** not a call, not another join *)
Definition from_end : follow := λ k w, no_call k w ∧ (k = KeywordKind → w ∉ join_words).

Lemma parses_joinType j : parses parseJoinType (join_keywords j) (Some j) anything.
Proof.
  unfold parseJoinType.
  destruct j; cbn [join_keywords]; apply parses_peek; intros t (-> & -> & _); cbn -[next expectKeyword];
    (apply parses_next; [done|]); intros t2 _; try apply parses_ret;
    (eapply parses_one; [apply parses_expectKeyword|]; apply parses_ret).
Qed.

Lemma parses_joinType_none : parses parseJoinType [] None from_end.
Proof.
  unfold parseJoinType. apply parses_peek_end. intros t [_ Hw].
  case_decide as Hk; [apply parses_ret|]. specialize (Hw Hk). unfold join_words in Hw.
  rewrite !not_elem_of_cons in Hw. destruct Hw as (? & ? & ? & ? & _).
  rewrite !decide_False by done. apply parses_ret.
Qed.

Lemma parses_on j pr : on_ok j pr → parses (parseJoinPredicate j) (print_on j pr) pr no_call.
Proof.
  unfold parseJoinPredicate. intros Hok. case_decide as Hj.
  - assert (∃ l r, pr = Some (OperationExpression OperationEqual l r) ∧ leaf l ∧ leaf r)
      as (l & r & -> & Hl & Hr).
    { destruct j; [done|..]; destruct pr as [[| | | | |[] l r| |]|]; cbn in Hok; try done; eauto. }
    assert (∀ a b, leaf a → leaf b → parses
      (expectKeyword KeywordOn ;;!
       let! lhs := swrap "parser: parsing left JOIN operand: %w" parseExpression in
       expect Equal ;;!
       let! rhs := swrap "parser: parsing right JOIN operand: %w" parseExpression in
       let '(lhs, rhs) := if decide (j = JoinRight) then (rhs, lhs) else (lhs, rhs) in
       sret (Some (OperationExpression OperationEqual lhs rhs)))
      (kw KeywordOn :: print_expression a ++ sym Equal :: print_expression b)
      (let '(l, r) := if decide (j = JoinRight) then (b, a) else (a, b) in
       Some (OperationExpression OperationEqual l r)) no_call) as Hgen.
    { intros a b Ha Hb. eapply parses_one; [apply parses_expectKeyword|].
      eapply parses_bind; [by apply parses_swrap, parses_expression|done|].
      eapply parses_one; [by apply parses_expect|]. rewrite <-(app_nil_r (print_expression b)).
      eapply parses_bind; [by apply parses_swrap, parses_expression|apply head_refl|].
      destruct (decide (j = JoinRight)); apply parses_ret. }
    cbn [print_on]. destruct (decide (j = JoinRight)); by apply Hgen.
  - subst j. destruct pr; [done|]. apply parses_ret.
Qed.

Abbreviation join := (bytes * JoinType * option Expression)%type.
Definition mk_join (item : FromItem) (j : join) : FromItem :=
  JoinFromItem item (TableFromItem j.1.1) j.1.2 j.2.
Definition print_join (j : join) : list Token :=
  join_keywords j.1.2 ++ ident j.1.1 :: print_on j.1.2 j.2.
Definition join_ok (j : join) : Prop := on_ok j.1.2 j.2.

Lemma from_parts f :
  from_ok f → ∃ name js, f = foldl mk_join (TableFromItem name) js ∧ Forall join_ok js ∧
    print_from f = ident name :: concat (map print_join js).
Proof.
  induction f as [name|l IHl r _ j pr]; intros Hok; [by exists name, []|].
  destruct r as [n|]; [|done]. destruct Hok as [Hl Hj].
  destruct (IHl Hl) as (name & js & Hf & Hjs & Hp).
  exists name, (js ++ [(n, j, pr)]). split; [by rewrite foldl_app, <-Hf|].
  split; [apply Forall_app; split; [done|by repeat constructor]|].
  cbn [print_from]. rewrite Hp, map_app, concat_app. cbn. by rewrite app_nil_r.
Qed.

Lemma parses_join_loop (F : follow) fuel item js :
  (∀ k w, F k w → from_end k w) → Forall join_ok js → (length js < fuel)%nat →
  parses (join_loop fuel item) (concat (map print_join js)) (foldl mk_join item js) F.
Proof.
  intros HF Hjs. revert item fuel. induction Hjs as [|[[n j] pr] js Hj Hjs IH]; intros item [|fuel] Hf;
    try (cbn in Hf; lia); cbn [join_loop map concat foldl].
  - rewrite <-(app_nil_r []). eapply parses_bind; [apply parses_joinType_none|exact HF|apply parses_ret].
  - unfold print_join at 1. cbn [fst snd]. rewrite <-app_assoc. cbn [app].
    eapply parses_bind; [apply parses_joinType|apply head_anything|].
    eapply parses_one; [apply parses_expectIdentifier|].
    eapply parses_bind; [by apply parses_on| |].
    + destruct js as [|[[n' j'] pr'] js]; cbn; [|by destruct j']. intros k w Hk. by apply HF.
    + apply (IH (mk_join item (n, j, pr))). cbn in Hf. lia.
Qed.

Lemma joins_length js : (length js ≤ length (concat (map print_join js)))%nat.
Proof.
  induction js as [|j js IH]; cbn; [lia|]. unfold print_join at 1. rewrite !length_app. cbn. lia.
Qed.

Lemma parses_from f (F : follow) :
  from_ok f → (∀ k w, F k w → from_end k w) →
  parses parseFromClause (kw KeywordFrom :: print_from f) f F.
Proof.
  intros Hok HF. destruct (from_parts f Hok) as (name & js & -> & Hjs & ->). unfold parseFromClause.
  eapply parses_one; [apply parses_expectKeyword|].
  eapply parses_one; [apply parses_expectIdentifier|].
  apply parses_with_fuel. intros fuel Hf. apply parses_join_loop; [done|done|].
  pose proof (joins_length js). lia.
Qed.

(** ** SELECT *)

Definition item_end : follow := λ k w, k = Comma ∨ (k = KeywordKind ∧ w = KeywordFrom).

Lemma parses_item i : leaf (si_Expression i) → parses parseSelectItem (print_item i) i item_end.
Proof.
  destruct i as [e alias]. cbn [si_Expression]. intros He. unfold parseSelectItem, print_item. cbn [si_Expression si_Alias].
  eapply (parses_bind _ _ _ _ _ _ no_call); [by apply parses_swrap, parses_expression| |].
  { destruct alias; [done|]. by intros k w [->|[-> _]]. }
  rewrite <-(app_nil_r (optional _ _)).
  eapply (parses_bind _ _ _ _ alias _ item_end); [|apply head_refl|apply parses_ret].
  unfold parseAlias. destruct alias as [a|]; cbn [optional].
  - apply parses_peek. intros t Ht. rewrite (is_keyword_same _ _ Ht).
    apply parses_next; [done|]. intros t2 _.
    eapply parses_one; [apply parses_swrap, parses_expectIdentifier|apply parses_ret].
  - apply parses_peek_end. intros t Ht.
    assert (is_keyword KeywordAs t = false) as ->; [|apply parses_ret].
    unfold is_keyword. destruct Ht as [->|[-> ->]]; done.
Qed.

Lemma print_expression_ne e : print_expression e ≠ [].
Proof. destruct e as [|b|z|f|s|k l r|c|name]; try done. cbn. by destruct (print_expression l). Qed.

(** an expression never starts with an asterisk *)
Lemma print_item_head i : ∃ t ts, print_item i = t :: ts ∧ tok_kind t ≠ Asterisk.
Proof.
  destruct i as [e alias]. unfold print_item. cbn [si_Expression].
  assert (∃ t ts, print_expression e = t :: ts ∧ tok_kind t ≠ Asterisk) as (t & ts & -> & Hne).
  { induction e as [|b|z|f|s|k l [t [ts [Hl Ht]]] r _|c|name]; cbn; rewrite ?Hl; by eexists _, _. }
  by eexists t, _.
Qed.

Lemma parses_items items (F : follow) :
  Forall (λ i, leaf (si_Expression i)) items → (∀ k w, F k w → k = KeywordKind ∧ w = KeywordFrom) →
  parses parseSelectItems
    (print_items items) items F.
Proof.
  intros Hitems HF. unfold parseSelectItems, print_items. destruct items as [|i items].
  - apply parses_peek. intros t (Hk & _ & _). rewrite decide_True by done.
    apply parses_next; [done|]. intros t2 _. apply parses_ret.
  - assert (∃ t ts, commas (map print_item (i :: items)) = t :: ts ∧ tok_kind t ≠ Asterisk)
      as (t0 & ts0 & Heq & Hne).
    { rewrite commas_cons. destruct (print_item_head i) as (t & ts & -> & Hne). by eexists t, _. }
    pose proof (parses_comma_list parseSelectItem print_item (λ i, leaf (si_Expression i)) item_end F
      (i :: items)) as Hl. rewrite Heq in *.
    apply parses_peek. intros t (Hk & _ & _). rewrite decide_False by congruence.
    apply Hl; [apply parses_item| |by left| |done|done].
    + intros x. destruct (print_item_head x) as (? & ? & -> & _). done.
    + intros k w [-> ->]%HF. split; [done|]. by right.
Qed.

Lemma parses_order o : parses parseOrderItem (print_order o) o anything.
Proof.
  destruct o as [c d]. unfold parseOrderItem, print_order. cbn [ob_Column ob_Direction].
  eapply parses_one; [apply parses_expectIdentifier|].
  apply parses_peek. intros t Ht. destruct d.
  - rewrite (is_keyword_same _ _ Ht). apply parses_next; [done|]. intros t2 _. apply parses_ret.
  - assert (is_keyword KeywordAsc t = false) as ->.
    { destruct Ht as (Hk & Hw & _). unfold is_keyword. by rewrite Hk, Hw. }
    rewrite (is_keyword_same _ _ Ht). apply parses_next; [done|]. intros t2 _. apply parses_ret.
Qed.

Lemma parses_order_by os ks :
  KeywordOrder ∉ ks →
  parses parseOrderBy
    (if decide (os = []) then [] else kw KeywordOrder :: kw KeywordBy :: commas (map print_order os))
    os (stops ks).
Proof.
  intros Hk. unfold parseOrderBy. case_decide as Hos.
  - subst. apply parses_peek_end. intros t Ht. rewrite (stops_not_keyword _ _ _ Ht Hk). apply parses_ret.
  - apply parses_peek. intros t Ht. rewrite (is_keyword_same _ _ Ht).
    apply parses_next; [done|]. intros t2 _.
    eapply parses_one; [apply parses_expectKeyword|].
    apply (parses_comma_list _ print_order (λ _, True) anything); try done.
    + intros x _. apply parses_order.
    + by intros k w [->|[-> _]].
    + by apply Forall_true.
Qed.

(** a list of optional clauses, each empty or headed by its keyword *)
Definition headed (k : Keyword) (ts : list Token) : Prop :=
  ts = [] ∨ ∃ rest, ts = kw k :: rest.

Lemma head_clauses ks ks' segs :
  Forall2 headed ks' segs → ks' ⊆ ks → head_ok (stops ks) (concat segs) (stops []).
Proof.
  intros Hs. induction Hs as [|k seg ks' segs Hk Hs IH]; intros Hsub; cbn.
  - intros k w Hk. eapply stops_sub, Hk. set_solver.
  - destruct Hk as [->|[rest ->]]; cbn; [apply IH; set_solver|]. right. set_solver.
Qed.

Lemma headed_clause k o : headed k (optional (print_clause k) o).
Proof. destruct o as [e|]; [right; by eexists|by left]. Qed.

Lemma headed_group o :
  headed KeywordGroup (optional (λ e, kw KeywordGroup :: kw KeywordBy :: print_expression e) o).
Proof. destruct o as [e|]; [right; by eexists|by left]. Qed.

Lemma headed_order (os : list OrderBy) :
  headed KeywordOrder
    (if decide (os = []) then [] else kw KeywordOrder :: kw KeywordBy :: commas (map print_order os)).
Proof. case_decide; [by left|right; by eexists]. Qed.

Definition clause_words : list Keyword :=
  [KeywordWhere; KeywordGroup; KeywordHaving; KeywordOrder; KeywordLimit; KeywordOffset].

Lemma headed_tail s : Forall2 headed clause_words (print_select_tail s).
Proof.
  unfold clause_words, print_select_tail.
  repeat (apply Forall2_cons_2; [apply headed_clause || apply headed_group || apply headed_order|]).
  constructor.
Qed.

(** the clauses after the first [n] *)
Lemma head_tail n s :
  head_ok (stops (drop n clause_words)) (concat (drop n (print_select_tail s))) (stops []).
Proof. eapply head_clauses; [apply Forall2_drop, headed_tail|done]. Qed.

Lemma clause_notin n k : clause_words !! n = Some k → k ∉ drop (S n) clause_words.
Proof.
  intros Hk Hin. assert (NoDup clause_words) as Hnd by (apply (bool_decide_unpack _); by vm_compute).
  rewrite <-(take_drop_middle _ _ _ Hk) in Hnd.
  apply NoDup_app in Hnd as (_ & _ & Hnd). by apply NoDup_cons in Hnd as [? _].
Qed.

Lemma parses_select s :
  statement_ok (StatementSelect s) →
  parses parseSelect (print_select s) (StatementSelect s) (stops []).
Proof.
  intros (Hitems & Hfrom & Hw & Hg & Hh & Hl & Ho). unfold parseSelect, print_select.
  eapply parses_one; [apply parses_expectKeyword|].
  eapply parses_bind.
  { apply (parses_items _ (λ k w, k = KeywordKind ∧ w = KeywordFrom)); [done|by intros]. }
  { done. }
  rewrite app_comm_cons. eapply parses_bind.
  { apply parses_swrap, (parses_from _ (stops clause_words)); [done|]. intros k w Hk.
    split; [by eapply stops_no_call|]. destruct Hk as [->|[-> Hk]]; [done|]. intros _.
    revert w Hk. apply Forall_forall. apply (bool_decide_unpack _). by vm_compute. }
  { apply (head_tail 0). }
  unfold print_select_tail. cbn [concat].
  eapply parses_bind; [by apply (parses_optional_comparison _ _ (drop 1 clause_words)),
    (clause_notin 0)|apply (head_tail 1 s)|].
  eapply parses_bind; [by apply (parses_group_by _ (drop 2 clause_words)),
    (clause_notin 1)|apply (head_tail 2 s)|].
  eapply parses_bind; [by apply (parses_optional_comparison _ _ (drop 3 clause_words)),
    (clause_notin 2)|apply (head_tail 3 s)|].
  eapply parses_bind; [by apply (parses_order_by _ (drop 4 clause_words)),
    (clause_notin 3)|apply (head_tail 4 s)|].
  eapply parses_bind; [by apply (parses_optional_value _ _ _ (drop 5 clause_words)),
    (clause_notin 4)|apply (head_tail 5 s)|].
  eapply parses_bind; [by apply (parses_optional_value _ _ _ (drop 6 clause_words)),
    (clause_notin 5)|apply (head_tail 6 s)|].
  destruct s. apply parses_ret.
Qed.

(** ** CREATE TABLE *)

Definition column_end : follow := λ k _, k = Comma ∨ k = CloseParen.

Lemma keywordDataType_type t : keywordDataType (type_keyword t) = Some t.
Proof. by destruct t. Qed.

Lemma constraint_end fuel c F :
  (0 < fuel)%nat → (∀ k w, F k w → column_end k w) → parses (constraint_loop fuel c) [] c F.
Proof.
  intros Hf HF. destruct fuel as [|fuel]; [lia|]. cbn [constraint_loop]. apply parses_peek_end. intros t Ht.
  rewrite decide_True; [apply parses_ret|]. by destruct (HF _ _ Ht) as [->| ->].
Qed.

Lemma parses_primary fuel n t nu d (pk : bool) :
  let ts := if pk then [kw KeywordPrimary; kw KeywordKey] else [] in
  (length ts < fuel)%nat →
  parses (constraint_loop fuel (mkColumn n t nu d false)) ts (mkColumn n t nu d pk) column_end.
Proof.
  intros ts Hf. subst ts. destruct pk; [|by apply constraint_end].
  destruct fuel as [|fuel]; [lia|]. apply parses_peek. intros t0 (-> & -> & _).
  cbn -[next expectKeyword constraint_loop].
  apply parses_next; [done|]. intros t2 _.
  eapply parses_one; [apply parses_expectKeyword|]. apply constraint_end; [cbn in Hf; lia|done].
Qed.

Lemma parses_default fuel n t nu d (pk : bool) :
  opt_ok leaf d →
  let ts := optional (print_clause KeywordDefault) d ++
            (if pk then [kw KeywordPrimary; kw KeywordKey] else []) in
  (length ts < fuel)%nat →
  parses (constraint_loop fuel (mkColumn n t nu None false)) ts (mkColumn n t nu d pk) column_end.
Proof.
  intros Hd ts Hf. subst ts. rewrite length_app in Hf. destruct d as [e|]; [|by apply parses_primary].
  cbn [optional print_clause app length] in Hf |- *. destruct fuel as [|fuel]; [lia|].
  apply parses_peek. intros t0 (-> & -> & _). cbn -[next parseExpression constraint_loop].
  apply parses_next; [done|]. intros t2 _.
  eapply parses_bind; [by apply parses_expression|destruct pk; [done|]|apply parses_primary].
  - by intros k w [->| ->].
  - destruct pk; cbn in *; lia.
Qed.

Lemma parses_constraints fuel n t nu d (pk : bool) :
  opt_ok leaf d →
  let ts := optional (λ b, if (b : bool) then [kw KeywordNull] else [kw KeywordNot; kw KeywordNull]) nu ++
            optional (print_clause KeywordDefault) d ++
            (if pk then [kw KeywordPrimary; kw KeywordKey] else []) in
  (length ts < fuel)%nat →
  parses (constraint_loop fuel (mkColumn n t None None false)) ts (mkColumn n t nu d pk) column_end.
Proof.
  intros Hd ts Hf. subst ts. rewrite length_app in Hf.
  destruct nu as [[]|]; cbn [optional app length] in Hf |- *; [..|by apply parses_default];
    (destruct fuel as [|fuel]; [lia|]); apply parses_peek; intros t1 (-> & -> & _);
    cbn -[next expectKeyword constraint_loop optional]; (apply parses_next; [done|]); intros t2 _.
  - apply parses_default; [done|lia].
  - eapply parses_one; [apply parses_expectKeyword|]. apply parses_default; [done|lia].
Qed.

Lemma parses_column c :
  opt_ok leaf (cd_DefaultValue c) → parses parseColumn (print_column c) c column_end.
Proof.
  destruct c as [n t nu d pk]. cbn [cd_DefaultValue]. intros Hd. unfold parseColumn, print_column.
  cbn [cd_Name cd_DataType cd_Nullable cd_DefaultValue cd_PrimaryKey].
  eapply parses_one; [apply parses_expectIdentifier|].
  apply parses_next; [done|]. intros t0 (-> & -> & _). cbn [tok_kind tok_keyword kw].
  rewrite decide_False by auto. rewrite keywordDataType_type.
  apply parses_with_fuel. intros fuel Hf. by apply parses_constraints.
Qed.

Lemma column_end_not_comma_or_close k w : closes k w → k ≠ Comma ∧ column_end k w.
Proof. unfold closes, column_end. intros ->. by split; [|right]. Qed.

Lemma parses_create s :
  statement_ok (StatementCreateTable s) →
  parses parseCreateTable (print_create s) (StatementCreateTable s) (stops []).
Proof.
  intros [Hne Hcols]. unfold parseCreateTable, print_create.
  do 2 (eapply parses_one; [apply parses_expectKeyword|]).
  eapply parses_one; [apply parses_expectIdentifier|].
  eapply parses_one; [by apply parses_expect|].
  eapply parses_bind.
  { apply (parses_comma_list _ print_column (λ c, opt_ok leaf (cd_DefaultValue c)) column_end closes);
      [apply parses_column|done|by left|apply column_end_not_comma_or_close|done|done]. }
  { done. }
  eapply parses_one; [by apply parses_expect|]. destruct s. apply parses_ret.
Qed.

(** ** INSERT, UPDATE and DELETE *)

Lemma parses_row row :
  row ≠ [] ∧ Forall leaf row → parses parseInsertRow (print_row row) row anything.
Proof.
  intros [Hne Hrow]. destruct row as [|e row]; [done|]. apply Forall_cons in Hrow as [He Hrow].
  unfold parseInsertRow, print_row. rewrite commas_cons, <-app_assoc.
  eapply parses_one; [by apply parses_expect|].
  eapply parses_bind; [by apply parses_expression|by destruct row|].
  eapply parses_bind.
  { apply (parses_paren_list _ print_expression leaf no_call [e]); [apply parses_expression|done|done|done]. }
  { done. }
  eapply parses_one; [by apply parses_expect|]. apply parses_ret.
Qed.

Lemma parses_insert_columns cols :
  parses parseInsertColumns
    (if decide (cols = []) then []
     else sym OpenParen :: commas (map (λ c, [ident c]) cols) ++ [sym CloseParen]) cols
    (λ k _, k = KeywordKind).
Proof.
  unfold parseInsertColumns. case_decide as Hc.
  - subst. apply parses_peek_end. intros t ->. apply parses_ret.
  - destruct cols as [|c cols]; [done|]. rewrite commas_cons.
    apply parses_peek. intros t (Hk & _ & _). rewrite decide_True by done.
    apply parses_next; [done|]. intros t2 _. rewrite <-app_assoc. cbn [app].
    eapply parses_one; [apply parses_expectIdentifier|].
    eapply parses_bind.
    { apply (parses_paren_list _ (λ c, [ident c]) (λ _, True) anything [c]);
        [intros; apply parses_expectIdentifier|done|done|by apply Forall_true]. }
    { done. }
    eapply parses_one; [by apply parses_expect|]. apply parses_ret.
Qed.

Lemma parses_insert s :
  statement_ok (StatementInsert s) →
  parses parseInsert (print_insert s) (StatementInsert s) (stops []).
Proof.
  intros [Hne Hrows]. unfold parseInsert, print_insert.
  do 2 (eapply parses_one; [apply parses_expectKeyword|]).
  eapply parses_one; [apply parses_expectIdentifier|].
  eapply parses_bind; [apply parses_insert_columns|done|].
  eapply parses_one; [apply parses_expectKeyword|].
  rewrite <-(app_nil_r (commas _)). eapply parses_bind.
  { apply (parses_comma_list _ print_row (λ row, row ≠ [] ∧ Forall leaf row) anything (stops []));
      [apply parses_row|done|done| |done|done]. by intros k w [->|[-> _]]. }
  { apply head_refl. }
  destruct s. apply parses_ret.
Qed.

Lemma parses_assignment m k e :
  m !! k = None ∧ leaf e →
  parses (parseAssignment m) (print_assignment (k, e)) (<[k := e]> m) no_call.
Proof.
  intros [Hk He]. unfold parseAssignment, print_assignment. cbn [fst snd].
  apply parses_peek. intros t _.
  eapply parses_one; [apply parses_expectIdentifier|].
  eapply parses_one; [by apply parses_expect|]. rewrite <-(app_nil_r (print_expression e)).
  eapply parses_bind; [by apply parses_expression|apply head_refl|]. rewrite Hk. apply parses_ret.
Qed.

(** assigning the pairs of a list in turn builds its map *)
Definition assign (m : gmap bytes Expression) (a : bytes * Expression) := <[a.1 := a.2]> m.

Lemma accepts_assignments m l :
  NoDup l.*1 → (∀ a, a ∈ l → m !! a.1 = None ∧ leaf a.2) →
  accepts (λ m a, m !! a.1 = None ∧ leaf a.2) assign m l.
Proof.
  revert m. induction l as [|a l IH]; intros m Hnd Hl; cbn; [done|].
  apply NoDup_cons in Hnd as [Ha Hnd]. split; [apply Hl; set_solver|]. apply IH; [done|].
  intros b Hb. unfold assign. rewrite lookup_insert_ne; [apply Hl; set_solver|].
  intros E. apply Ha. rewrite E. by apply list_elem_of_fmap_2.
Qed.

Lemma foldl_assign m l :
  NoDup l.*1 → (∀ a, a ∈ l → m !! a.1 = None) → foldl assign m l = list_to_map l ∪ m.
Proof.
  revert m. induction l as [|a l IH]; intros m Hnd Hl; cbn; [by rewrite map_empty_union|].
  apply NoDup_cons in Hnd as [Ha Hnd]. rewrite IH; [|done|].
  - unfold assign. destruct a as [k e]. cbn.
    rewrite <-insert_union_r by (by apply not_elem_of_list_to_map_1). apply insert_union_l.
  - intros b Hb. unfold assign. rewrite lookup_insert_ne; [apply Hl; set_solver|].
    intros E. apply Ha. rewrite E. by apply list_elem_of_fmap_2.
Qed.

Lemma parses_update s l :
  NoDup l.*1 → list_to_map l = upd_Assignments s → statement_ok (StatementUpdate s) →
  parses parseUpdate (print_update s l) (StatementUpdate s) (stops []).
Proof.
  intros Hnd Hl (Hne & Hleaf & Hf). unfold parseUpdate, print_update.
  eapply parses_one; [apply parses_expectKeyword|].
  eapply parses_one; [apply parses_expectIdentifier|].
  eapply parses_one; [apply parses_expectKeyword|].
  assert (l ≠ []) as Hl0 by (intros ->; by apply Hne; rewrite <-Hl).
  assert (∀ a, a ∈ l → leaf a.2) as Hleaf'.
  { intros [k e] Ha. apply (Hleaf k e). rewrite <-Hl. by apply elem_of_list_to_map_1. }
  eapply (parses_bind _ _ _ _ (upd_Assignments s) _ (stops [KeywordWhere])).
  { apply parses_with_fuel. intros fuel Hlen.
    pose proof (parses_comma_loop parseAssignment assign print_assignment
      (λ m a, m !! a.1 = None ∧ leaf a.2) no_call (stops [KeywordWhere]) fuel ∅ l) as Hloop.
    rewrite foldl_assign, map_union_empty, Hl in Hloop; [|done|by intros; apply lookup_empty].
    apply Hloop; try done.
    - intros m [k e]. apply parses_assignment.
    - intros k w Hk. split; [by destruct Hk as [->|[-> _]]|by eapply stops_no_call].
    - apply accepts_assignments; [done|]. intros a Ha. split; [apply lookup_empty|by apply Hleaf'].
    - pose proof (commas_length print_assignment l ltac:(done)). lia. }
  { pose proof (head_clauses [KeywordWhere] [KeywordWhere]
      [optional (print_clause KeywordWhere) (upd_Filter s)]) as Hh. cbn [concat] in Hh.
    rewrite app_nil_r in Hh. apply Hh; [|done]. constructor; [apply headed_clause|constructor]. }
  rewrite <-(app_nil_r (optional _ _)).
  eapply parses_bind; [apply (parses_optional_comparison _ _ []); [done|set_solver]|apply head_refl|].
  destruct s. apply parses_ret.
Qed.

Lemma parses_delete s :
  statement_ok (StatementDelete s) →
  parses parseDelete (print_delete s) (StatementDelete s) (stops []).
Proof.
  intros Hf. unfold parseDelete, print_delete.
  do 2 (eapply parses_one; [apply parses_expectKeyword|]).
  eapply parses_one; [apply parses_expectIdentifier|]. rewrite <-(app_nil_r (optional _ _)).
  eapply parses_bind; [apply (parses_optional_comparison _ _ []); [done|set_solver]|apply head_refl|].
  destruct s. apply parses_ret.
Qed.

(** ** Statements *)

Lemma parses_statement s ts :
  prints s ts → statement_ok s → parses parseStatement ts s (stops []).
Proof.
  intros Hp Hok. unfold parseStatement.
  destruct Hp as [s|s|s|s l Hnd Hl|s]; apply parses_peek; intros t (-> & -> & _); cbn -[parseSelect
    parseCreateTable parseInsert parseUpdate parseDelete].
  - by apply parses_select.
  - by apply parses_create.
  - by apply parses_insert.
  - by apply parses_update.
  - by apply parses_delete.
Qed.

(** the tokens of a statement, a semicolon and the end of the input *)
Lemma parseTokens_prints s ts ts' last :
  prints s ts → statement_ok s → Forall2 same_token ts' (ts ++ [sym Semicolon]) →
  tok_kind last = EndOfInput → parseTokens (ts' ++ [last]) = Ok s.
Proof.
  intros Hp Hok Hts Hlast. unfold parseTokens.
  set (m := sbind parseStatement _).
  assert (parses m (ts ++ [sym Semicolon]) s (λ k _, k = EndOfInput)) as Hm.
  { subst m. eapply parses_bind; [by apply parses_statement|by left|].
    eapply parses_one; [by apply parses_expect|].
    intros p ts1 tok rest Hd H1 Hk. inversion H1; subst. cbn in Hd.
    assert (next p = (p, Ok tok)) as Hn.
    { unfold next. erewrite sbind_eq; [|by eapply peek_eq]. by rewrite decide_False by auto. }
    assert (expect EndOfInput p = (p, Ok ())) as He.
    { unfold expect. erewrite sbind_eq; [|exact Hn]. by rewrite decide_False by auto. }
    erewrite sbind_eq; [|exact He]. cbn. destruct p. by rewrite Nat.add_0_r. }
  rewrite (Hm _ ts' last []); [done|done|done|done].
Qed.
