(* ===== verification/ParserShape.v ===== *)
(** * The parser builds only statements of the grammar

    [gives m P]: whatever [m] returns satisfies [P].  [grammatical] adds to
    [statement_ok] what the engine needs: the names of tables and columns are
    identifiers, and the strings to be stored have the property the tokens
    have. *)

From S2P Require Import Prelude Bytes Types Lexer LexerProps Ast Parser ParserProps ParserRoundtrip.

Definition gives `{Hstr : Strings} {A} (m : ST Parser A) (P : A → Prop) : Prop := ∀ p, wp m p (λ _ a, P a).

Definition string_in `{Hstr : Strings} (e : Expression) : Prop :=
  match e with StringLiteral s => string_ok s | _ => True end.
Definition literal `{Hstr : Strings} (e : Expression) : Prop := leaf e ∧ string_in e.

Fixpoint from_names (f : FromItem) : Prop :=
  match f with
  | TableFromItem name => ident_ok name
  | JoinFromItem l r _ _ => from_names l ∧ from_names r
  end.

Definition column_shape `{Hstr : Strings} (c : Column) : Prop :=
  ident_ok (cd_Name c) ∧ opt_ok literal (cd_DefaultValue c).

Definition grammatical `{Hstr : Strings} (s : Statement) : Prop :=
  match s with
  | StatementSelect s => from_names (sel_From s)
  | StatementCreateTable s => ident_ok (ct_Name s) ∧ Forall column_shape (ct_Columns s)
  | StatementInsert s => ident_ok (ins_TableName s) ∧ Forall (Forall literal) (ins_Values s)
  | StatementUpdate s => ident_ok (upd_TableName s) ∧ map_Forall (λ _ e, literal e) (upd_Assignments s)
  | StatementDelete s => ident_ok (del_TableName s)
  end.

(** ... on top of the grammar *)
Definition well_formed `{Hstr : Strings} (s : Statement) : Prop := statement_ok s ∧ grammatical s.

Lemma opt_ok_mono (P Q : Expression → Prop) o : (∀ e, P e → Q e) → opt_ok P o → opt_ok Q o.
Proof. destruct o; cbn; auto. Qed.

Create HintDb gives discriminated.

Lemma gives_wp `{Hstr : Strings} {A} (m : ST Parser A) P p : gives m P → wp m p (λ _ a, P a).
Proof. intros H. apply H. Qed.

Ltac wp_give := eapply wp_mono; [solve [eapply gives_wp; eauto with gives | eauto with wp]|intros ? ? ? ?].
Ltac give_run := repeat (wp_step || (progress cbn beta iota) || wp_give).

Lemma wp_string `{Hstr : Strings} tok p (Q : Parser → bytes → Prop) :
  token_ok tok → tok_kind tok = Identifier ∨ tok_kind tok = TString →
  (∀ s, tok_value tok = StrValue s → Q p s) → wp (slift (string_value tok)) p Q.
Proof.
  intros Hok Hk HQ. destruct (string_value_ok _ Hok Hk) as [s Hs]. unfold string_value.
  rewrite Hs. by apply (wp_ret s p Q), HQ.
Qed.

Lemma gives_ident `{Hstr : Strings} : gives expectIdentifier ident_ok.
Proof.
  intros p. unfold expectIdentifier. wp_step. apply wp_next; intros tok Hc Hne; [intros Hok|].
  - wp_step; [apply wp_throw|]. assert (tok_kind tok = Identifier) as Hk by (destruct (decide (tok_kind tok = Identifier)); done).
    apply wp_string; [done|by left|]. intros s Hs. unfold token_ok in Hok. rewrite Hk, Hs in Hok.
    by destruct Hok as (_ & s' & [= <-] & ?).
  - rewrite decide_True by congruence. apply wp_throw.
Qed.

Lemma current_string `{Hstr : Strings} p tok : inside p → current p tok → string_token tok.
Proof. intros (_ & _ & H) Hc. apply (proj1 (Forall_forall _ _) H). by eapply list_elem_of_lookup_2. Qed.

Lemma gives_literal `{Hstr : Strings} : gives parseExpression literal.
Proof.
  intros p. apply wp_inside. intros Hin.
  unfold parseExpression. wp_step. apply wp_next; intros tok Hc Hne; [intros Hok|].
  - destruct (tok_kind tok) eqn:Hk; try apply wp_throw.
    + by repeat wp_step.
    + wp_step. apply wp_string_value; [done|by left|]. intros name. wp_step. wp_step. wp_step; [by apply wp_ret|].
      wp_step. eapply wp_next_current; [done|congruence|].
      repeat (wp_step || (progress cbn beta iota) || wp_call). done.
    + wp_step. apply wp_string; [done|by right|]. intros s Hs. apply wp_ret. split; [done|].
      by apply (current_string p tok).
    + unfold token_ok in Hok. rewrite Hk in Hok. destruct Hok as (_ & [(z & -> & Hz)|(f & -> & Hf)]);
        by apply wp_ret.
  - rewrite Hne. apply wp_throw.
Qed.

Lemma gives_expression `{Hstr : Strings} : gives parseExpression leaf.
Proof. intros p. eapply wp_mono; [apply gives_literal|]. by intros p' e _ [? _]. Qed.
#[export] Hint Resolve gives_expression gives_ident : gives.

Lemma gives_comparison `{Hstr : Strings} : gives parseComparisonExpression comparison.
Proof.
  intros p. unfold parseComparisonExpression. wp_step. wp_step. wp_give. wp_step.
  apply wp_next; intros tok Hc Hk; [intros Hok|]; wp_step.
  - destruct (tok_kind tok); give_run; try done; by split.
  - rewrite Hk. apply wp_throw.
Qed.
#[export] Hint Resolve gives_comparison : gives.

Lemma gives_optional_comparison `{Hstr : Strings} k : gives (parseOptionalComparison k) (opt_ok comparison).
Proof. intros p. unfold parseOptionalComparison. by give_run. Qed.
#[export] Hint Resolve gives_optional_comparison : gives.

Lemma gives_comma_loop `{Hstr : Strings} {B} (body : B → ST Parser B) (R : B → Prop) fuel b p :
  (∀ b, R b → gives (body b) R) → (∀ b p, wp (body b) p any) → R b →
  (length (tokens p) - index p < fuel)%nat → wp (comma_loop fuel body b) p (λ _, R).
Proof.
  intros Hbody Hany. revert b p. induction fuel as [|fuel IH]; intros b p Hb Hf; [lia|].
  cbn [comma_loop]. wp_step. eapply wp_mono; [by apply Hbody|]. intros p1 b1 Hf1 Hb1.
  wp_step. apply wp_peek. intros tok Hc. wp_step; [by apply wp_ret|].
  wp_step. eapply wp_next_current; [done|congruence|]. apply IH; [done|].
  destruct Hf1 as [Ht ?]. cbn in *. rewrite Ht. lia.
Qed.

(** lists of at least one item *)
Lemma gives_comma_list `{Hstr : Strings} {A} (item : ST Parser A) (P : A → Prop) p :
  gives item P →
  wp (with_fuel (λ fuel, comma_loop fuel (append_item item) [])) p (λ _ l, l ≠ [] ∧ Forall P l).
Proof.
  intros Hitem. apply wp_with_fuel. set (fuel := S _).
  assert (length (tokens p) - index p < fuel)%nat as Hf by lia.
  destruct fuel as [|fuel]; [lia|]. cbn [comma_loop].
  assert (∀ l q, Forall P l → wp (append_item item l) q (λ _ l, l ≠ [] ∧ Forall P l)) as Hbody.
  { intros l q Hl. unfold append_item. wp_step. eapply wp_mono; [apply Hitem|]. intros p1 a _ Ha.
    apply wp_ret. split; [by destruct l|]. apply Forall_app. by repeat constructor. }
  wp_step. eapply wp_mono; [by apply Hbody|]. intros p1 l1 Hf1 Hl1.
  wp_step. apply wp_peek. intros tok Hc. wp_step; [by apply wp_ret|].
  wp_step. eapply wp_next_current; [done|congruence|].
  apply (gives_comma_loop _ (λ l, l ≠ [] ∧ Forall P l)); [|  |done|].
  - intros l [_ Hl] q. by apply Hbody.
  - intros l q. unfold append_item. wp_step. eapply wp_mono; [apply Hitem|]. intros. by apply wp_ret.
  - destruct Hf1 as [Ht ?]. cbn in *. rewrite Ht. lia.
Qed.

Lemma gives_paren_list `{Hstr : Strings} {A} (item : ST Parser A) (P : A → Prop) l p :
  gives item P → l ≠ [] → Forall P l →
  wp (with_fuel (λ fuel, paren_loop fuel item l)) p (λ _ l, l ≠ [] ∧ Forall P l).
Proof.
  intros Hitem Hne Hl. apply wp_with_fuel. set (fuel := S _).
  assert (length (tokens p) - index p < fuel)%nat as Hf by lia. clearbody fuel.
  revert l p Hne Hl Hf. induction fuel as [|fuel IH]; intros l p Hne Hl Hf; [lia|].
  cbn [paren_loop]. wp_step. apply wp_peek. intros tok Hc. wp_step; [|by apply wp_ret].
  wp_step. eapply wp_mono; [by apply wp_expect|]. intros p1 [] [Ht1 Hf1] Hc1.
  wp_step. eapply wp_mono; [apply Hitem|]. intros p2 a [Ht2 Hf2] Ha. apply IH.
  - by destruct l.
  - apply Forall_app. by repeat constructor.
  - unfold consumed in Hc1. rewrite Ht1 in *. rewrite Ht2. lia.
Qed.

(** ** FROM *)

Lemma gives_on `{Hstr : Strings} j : gives (parseJoinPredicate j) (on_ok j).
Proof.
  intros p. unfold parseJoinPredicate. give_run; [|by subst].
  destruct_decide (decide (j = JoinRight)); apply wp_ret; destruct j; try done; by split.
Qed.

Lemma gives_join_loop `{Hstr : Strings} fuel item p :
  from_ok item ∧ from_names item → (length (tokens p) - index p < fuel)%nat →
  wp (join_loop fuel item) p (λ _ f, from_ok f ∧ from_names f).
Proof.
  revert item p. induction fuel as [|fuel IH]; intros item p Hi Hf; [lia|].
  cbn [join_loop]. wp_step. eapply wp_mono; [apply wp_parseJoinType|]. intros p1 [j|] [Ht1 Hf1] Hj;
    [|by apply wp_ret].
  wp_step. eapply wp_mono; [apply gives_ident|]. intros p2 name [Ht2 Hf2] Hname.
  wp_step. eapply wp_mono; [apply gives_on|]. intros p3 pr [Ht3 Hf3] Hpr.
  apply IH; [destruct Hi as [? ?]; by split|]. specialize (Hj ltac:(done)). rewrite Ht3, Ht2, Ht1. rewrite Ht1, Ht2 in *. lia.
Qed.

Lemma gives_from `{Hstr : Strings} : gives parseFromClause (λ f, from_ok f ∧ from_names f).
Proof.
  intros p. unfold parseFromClause. wp_step. wp_call. wp_step. wp_give.
  apply wp_with_fuel, gives_join_loop; [done|lia].
Qed.
#[export] Hint Resolve gives_from : gives.

(** ** The statements *)

Lemma gives_item `{Hstr : Strings} : gives parseSelectItem (λ i, leaf (si_Expression i)).
Proof. intros p. unfold parseSelectItem. by give_run. Qed.

Lemma gives_items `{Hstr : Strings} : gives parseSelectItems (Forall (λ i, leaf (si_Expression i))).
Proof.
  intros p. unfold parseSelectItems. give_run; try done.
  eapply wp_mono; [apply gives_comma_list, gives_item|]. by intros p1 l _ [_ ?].
Qed.
#[export] Hint Resolve gives_items : gives.

Lemma gives_group_by `{Hstr : Strings} : gives parseGroupBy (opt_ok leaf).
Proof. intros p. unfold parseGroupBy. by give_run. Qed.
Lemma gives_optional_value `{Hstr : Strings} k msg : gives (parseOptionalValue k msg) (opt_ok leaf).
Proof. intros p. unfold parseOptionalValue. by give_run. Qed.
#[export] Hint Resolve gives_group_by gives_optional_value : gives.

Lemma gives_select `{Hstr : Strings} : gives parseSelect well_formed.
Proof.
  intros p. unfold parseSelect. give_run. cbn beta in *.
  match goal with H : from_ok _ ∧ _ |- _ => destruct H end.
  split; [cbn; by repeat split|done].
Qed.

Lemma gives_constraint_loop `{Hstr : Strings} fuel c p :
  column_shape c → (length (tokens p) - index p < fuel)%nat →
  wp (constraint_loop fuel c) p (λ _, column_shape).
Proof.
  revert c p. induction fuel as [|fuel IH]; intros c p Hok Hf; [lia|].
  apply wp_inside. intros [Hin _]. cbn [constraint_loop]. wp_step. apply wp_peek. intros tok Hc.
  wp_step; [by apply wp_ret|].
  assert (∀ (m : ST Parser Column) Q, wp m (step p) Q → wp (next ;;! m) p Q) as Hnext.
  { intros m Q Hm. apply wp_bind. eapply wp_next_current; [done|congruence|done]. }
  repeat (case_decide; [apply Hnext|]); [..|apply wp_throw].
  - apply IH; [done|cbn; lia].
  - wp_step. eapply wp_mono; [apply wp_expectKeyword|]. intros p1 [] [Ht1 Hf1] _.
    apply IH; [done|]. rewrite Ht1. cbn in *. lia.
  - wp_step. eapply wp_mono; [apply gives_literal|]. intros p1 e [Ht1 Hf1] He.
    apply IH; [by destruct Hok|]. rewrite Ht1. cbn in *. lia.
  - wp_step. eapply wp_mono; [apply wp_expectKeyword|]. intros p1 [] [Ht1 Hf1] _.
    apply IH; [done|]. rewrite Ht1. cbn in *. lia.
Qed.

Lemma gives_column `{Hstr : Strings} : gives parseColumn column_shape.
Proof.
  intros p. unfold parseColumn. give_run; try (destruct (keywordDataType _); try apply wp_throw);
    (apply wp_with_fuel, gives_constraint_loop; [done|lia]).
Qed.

Lemma gives_create `{Hstr : Strings} : gives parseCreateTable well_formed.
Proof.
  intros p. unfold parseCreateTable. give_run.
  eapply wp_mono; [apply gives_comma_list, gives_column|]. intros p3 columns _ [Hne Hall].
  give_run. split; [|done]. split; [done|]. eapply Forall_impl; [exact Hall|].
  intros c [_ Hc]. eapply opt_ok_mono; [|exact Hc]. by intros e [? _].
Qed.

Lemma gives_row `{Hstr : Strings} : gives parseInsertRow (λ row, row ≠ [] ∧ Forall literal row).
Proof.
  intros p. unfold parseInsertRow. wp_step. wp_give. wp_step.
  eapply wp_mono; [apply gives_literal|]. intros p1 e _ He. wp_step.
  eapply wp_mono; [apply (gives_paren_list _ literal); [apply gives_literal|done|by apply Forall_singleton]|].
  intros. by give_run.
Qed.

Lemma gives_insert `{Hstr : Strings} : gives parseInsert well_formed.
Proof.
  intros p. unfold parseInsert. give_run;
    (eapply wp_mono; [apply gives_comma_list, gives_row|]; intros p9 rows _ [Hne Hall]; apply wp_ret;
     split; cbn; (split; [done|]); (eapply Forall_impl; [exact Hall|]); intros row [? Hrow]; [|done];
     split; [done|]; (eapply Forall_impl; [exact Hrow|]); by intros e [? _]).
Qed.

Definition assignments_ok `{Hstr : Strings} (m : gmap bytes Expression) : Prop :=
  m ≠ ∅ ∧ map_Forall (λ _ e, literal e) m.

Lemma gives_assignment `{Hstr : Strings} m : map_Forall (λ _ e, literal e) m → gives (parseAssignment m) assignments_ok.
Proof.
  intros Hm p. unfold parseAssignment. wp_step. apply wp_peek. intros tok _. wp_step. wp_call. wp_step. wp_call.
  wp_step. eapply wp_mono; [apply gives_literal|]. intros p1 e _ He.
  case_match; [apply wp_throw|]. apply wp_ret. split; [apply insert_non_empty|].
  by apply map_Forall_insert_2.
Qed.

Lemma gives_update `{Hstr : Strings} : gives parseUpdate well_formed.
Proof.
  intros p. unfold parseUpdate. wp_step. wp_call. wp_step. wp_give. wp_step. wp_call. wp_step.
  eapply (wp_mono _ _ (λ _, assignments_ok)).
  { apply wp_with_fuel. set (fuel := S _).
    assert (length (tokens p'1) - index p'1 < fuel)%nat as Hf by lia.
    destruct fuel as [|fuel]; [lia|]. cbn [comma_loop].
    wp_step. eapply wp_mono; [by apply gives_assignment|]. intros p2 m Hf2 Hm.
    wp_step. apply wp_peek. intros tok Hc. wp_step; [by apply wp_ret|].
    wp_step. eapply wp_next_current; [done|congruence|].
    apply gives_comma_loop; [by intros m' [_ ?]; apply gives_assignment|apply wp_parseAssignment|done|].
    destruct Hf2 as [Ht ?]. cbn in *. rewrite Ht. lia. }
  intros p2 m _ [Hne Hm]. give_run. split; [|done]. split; [done|]. split; [|done].
  eapply map_Forall_impl; [exact Hm|]. by intros ? e [? _].
Qed.

Lemma gives_delete `{Hstr : Strings} : gives parseDelete well_formed.
Proof. intros p. unfold parseDelete. by give_run. Qed.

#[export] Hint Resolve gives_select gives_create gives_insert gives_update gives_delete : gives.

Lemma gives_statement `{Hstr : Strings} : gives parseStatement well_formed.
Proof.
  intros p. unfold parseStatement. by give_run.
Qed.

Lemma Parse_well_formed input s :
  Parse input = Ok s → well_formed (Hstr := quoted input) s.
Proof.
  unfold Parse. pose proof (Lex_ok input) as H. pose proof (Lex_quoted input) as Hq.
  destruct (Lex input) as [ts|e|w]; [|done|done]. destruct H as [Hts _]. specialize (Hq _ eq_refl).
  cbn [rbind]. apply (parseTokens_wp (Hstr := quoted input) ts); [done|exact Hq|].
  apply gives_statement.
Qed.
