(* ===== verification/FrontendProps.v ===== *)
(** * What the values, the lexer and the parser guarantee *)

From S2P Require Import Prelude Bytes Types Lexer LexerProps Ast Parser ParserProps ParserRoundtrip ParserShape.

(** C23: the lexer ends on every input, never panics, and returns an error or
    a token list that ends in its only end-of-input token, whose tokens carry
    the value their kind promises (a keyword of the table, a lower-case
    identifier that is no keyword, a string without quotes, a number in range)
    and whose offsets increase within the input. *)
Theorem lexer_total input :
  match Lex input with
  | Ok ts => tokens_ok ts ∧ offsets_ok 0 (length input) ts
  | Err _ => True
  | Panic _ => False
  end.
Proof.
  pose proof (Lex_ok input) as H. destruct (Lex input) as [ts|e|w]; [|done|done]. exact H.
Qed.

(** C24: lexing inverts spelling: keywords in any letter case, identifiers
    (folded to lower case), quoted strings, decimal integers and fractions and
    symbols, each followed by any white space, give back exactly their tokens. *)
Theorem lexer_inverts_spelling ss :
  Forall spelling_ok ss →
  ∃ ts last, Lex (source ss) = Ok (ts ++ [last]) ∧ tok_kind last = EndOfInput ∧
    Forall2 same_token ts (map sp_token ss).
Proof.
  intros Hss. destruct (Lex_source ss Hss) as (ts & last & Hl & Hts & Hlast). by exists ts, last.
Qed.

(** C21: parsing inverts printing: any spelling of the tokens of a statement
    of the grammar, closed by a semicolon, parses to that statement, with every
    clause, join order and operand in its place and the assignments of an
    UPDATE written in any order. *)
Theorem parser_inverts_printing s ts ss :
  prints s ts → statement_ok s → Forall spelling_ok ss →
  Forall2 same_token (map sp_token ss) (ts ++ [sym Semicolon]) →
  Parse (source ss) = Ok s.
Proof.
  intros Hp Hok Hss Hts. destruct (Lex_source ss Hss) as (ts' & last & Hl & Hsame & Hlast).
  unfold Parse. rewrite Hl. cbn [rbind]. eapply parseTokens_prints; [done|done| |done].
  by transitivity (map sp_token ss).
Qed.

(** C22: the parser ends on every input with an error or a statement of the
    grammar, never reads past the tokens, and no type assertion on a token
    fails.  What it accepts has comparisons only in WHERE, HAVING and ON, an ON
    clause exactly on the joins that need one, at least one column, row and
    assignment, literals in range, identifiers for the names of tables and of
    the columns of a CREATE TABLE, and strings to be stored that stand between
    quotes in the input. *)
Theorem parser_sound input :
  match Parse input with
  | Ok s => well_formed (Hstr := quoted input) s
  | Err _ => True
  | Panic _ => False
  end.
Proof.
  pose proof (Parse_no_panic input) as Hp. destruct (Parse input) as [s|err|p] eqn:E; [|done|done].
  by apply Parse_well_formed.
Qed.

(** C39: within a column, comparison never fails and is a total preorder with
    NULL first; it is 0 exactly on values the grouping map identifies. *)
Theorem compare_total_preorder t v w u :
  of_type t v → of_type t w → of_type t u →
  value_wf v → value_wf w → value_wf u →
  ∃ vw wu vu, Compare v w = Ok vw ∧ Compare w u = Ok wu ∧ Compare v u = Ok vu ∧
    Compare w v = Ok (- vw) ∧ (vw ≤ 0 → wu ≤ 0 → vu ≤ 0) ∧
    (vw = 0 ↔ value_eqb v w = true) ∧ (Kind v = ValueNull → vw ≤ 0).
Proof.
  intros Hv Hw Hu Wv Ww Wu.
  assert (∀ x, value_wf x → value_not_nan x) as Hnan.
  { intros x Hx Hk. unfold value_wf in Hx. rewrite Hk in Hx. by destruct Hx as (_ & _ & ?). }
  exists (sign (lex (value_key v) (value_key w))), (sign (lex (value_key w) (value_key u))),
    (sign (lex (value_key v) (value_key u))).
  rewrite !(Compare_lex t) by auto. rewrite (lex_antisym (value_key v) (value_key w)), sign_opp.
  repeat (split; [done|]). split; [|split].
  - rewrite !sign_le. apply lex_trans.
  - rewrite <-(value_eqb_key t) by auto. by destruct (lex (value_key v) (value_key w)).
  - intros Hn. rewrite sign_le. unfold value_key. rewrite Hn.
    unfold value_wf in Ww. destruct (Kind w); done.
Qed.

(** ** Concrete instances *)

Module Witness.

Definition sp (text : bytes) (t : Token) : spelling := mkSpelling text t (str " ").

(** [DeLeTe fRoM t WHERE a > 3 ;] *)
Definition spelled : list spelling :=
  [ sp (str "DeLeTe") (kw KeywordDelete); sp (str "fRoM") (kw KeywordFrom);
    sp (str "T") (ident (str "t")); sp (str "WHERE") (kw KeywordWhere);
    sp (str "a") (ident (str "a")); sp (str ">") (sym GreaterThan);
    sp (str "3") (mkToken Number [] (IntValue 3) 0); sp (str ";") (sym Semicolon) ].

Definition statement : Statement :=
  StatementDelete (mkDelete (str "t")
    (Some (OperationExpression OperationGreaterThan (ColumnReference (str "a")) (IntegerLiteral 3)))).

Definition is_word (text : bytes) : bool :=
  match text with b :: s => isIdentifierStart b && forallb isIdentifierPart s | [] => false end.

Lemma spelled_ok : Forall spelling_ok spelled.
Proof.
  assert (∀ text t, spells text (tok_kind t) (tok_keyword t) (tok_value t) → spelling_ok (sp text t)) as H.
  { intros text t Hs. split; [done|]. split; [done|]. by repeat constructor. }
  assert (∀ text k, is_word text = true → ToUpper text = k → bool_decide (k ∈ keywords) = true →
    spelling_ok (sp text (kw k))) as Hkw.
  { intros text k Ht Hk Hin%bool_decide_eq_true. apply H. destruct text as [|b s]; [done|].
    apply andb_true_iff in Ht as [? ?%forallb_Forall]. by apply spells_keyword. }
  assert (∀ text s, is_word text = true → ToLower text = s → bool_decide (ToUpper text ∉ keywords) = true →
    spelling_ok (sp text (ident s))) as Hid.
  { intros text s Ht <- Hin%bool_decide_eq_true. apply H. destruct text as [|b s]; [done|].
    apply andb_true_iff in Ht as [? ?%forallb_Forall]. by apply spells_identifier. }
  unfold spelled. repeat (apply Forall_cons_2); [..|constructor];
    try (apply Hkw; vm_compute; reflexivity); try (apply Hid; vm_compute; reflexivity); apply H.
  - by apply spells_symbol.
  - by apply (spells_int (str "3")); [|repeat constructor|vm_compute].
  - by apply spells_symbol.
Qed.

End Witness.
Import Witness.

Lemma lexer_inverts_spelling_witness :
  ∃ ts last, Lex (source spelled) = Ok (ts ++ [last]) ∧ tok_kind last = EndOfInput ∧
    Forall2 same_token ts (map sp_token spelled).
Proof. exact (lexer_inverts_spelling spelled spelled_ok). Defined.

Lemma parser_inverts_printing_witness : Parse (source spelled) = Ok statement.
Proof.
  apply (parser_inverts_printing statement (print_delete (mkDelete (str "t") (Some
    (OperationExpression OperationGreaterThan (ColumnReference (str "a")) (IntegerLiteral 3)))))).
  - apply prints_delete.
  - by repeat split.
  - apply spelled_ok.
  - repeat constructor.
Defined.

Lemma parser_sound_witness :
  well_formed (Hstr := quoted (str "delete from t where a > 3;")) statement.
Proof.
  pose proof (parser_sound (str "delete from t where a > 3;")) as H.
  assert (Parse (str "delete from t where a > 3;") = Ok statement) as E by (vm_compute; reflexivity).
  by rewrite E in H.
Defined.

Lemma compare_total_preorder_witness :
  ∃ vw, Compare (IntegerValue 1) NullValue = Ok vw ∧ Compare NullValue (IntegerValue 1) = Ok (- vw).
Proof.
  destruct (compare_total_preorder Integer (IntegerValue 1) NullValue (IntegerValue 2))
    as (vw & wu & vu & ? & ? & ? & ? & _);
    [by right|by left|by right|by split|done|by split|]. by exists vw.
Defined.
