(* ===== verification/Schema.v ===== *)
(** * Table schemas ([schema/schema.go]) *)

From S2P Require Import Prelude Bytes Types.

(** [Default]: a nil pointer is no default; a pointer to NULL is the default NULL *)
Record Column := mkColumn {
  Name : bytes;
  ColDataType : DataType;
  Nullable : bool;
  Default : option Value;
  PrimaryKey : bool;
}.

Record Table := mkTable {
  tbl_Name : bytes;
  Columns : list Column;
}.

#[export] Instance Column_eq_dec : EqDecision Column.
Proof. solve_decision. Defined.
#[export] Instance Table_eq_dec : EqDecision Table.
Proof. solve_decision. Defined.

(** the loop of [Validate] counts the primary keys *)
Definition validate_column (primaryKeys : nat) (column : Column) : result nat :=
  let count := if PrimaryKey column then S primaryKeys else primaryKeys in
  if PrimaryKey column && Nullable column
  then Err (Errorf "schema: primary key %q cannot be nullable in table %q")
  else
    match Default column with
    | None => Ok count
    | Some default =>
        match Value_DataType default with
        | None => Ok count
        | Some defaultType =>
            if decide (defaultType ≠ ColDataType column)
            then Err (Errorf "schema: default value for column %q has type %d, want %d")
            else Ok count
        end
    end.

Definition Validate (t : Table) : result unit :=
  if decide (tbl_Name t = []) then Err (Errorf "schema: table name cannot be empty")
  else if decide (Columns t = []) then Err (Errorf "schema: table %q has no columns")
  else
    let? primaryKeys := rfoldl validate_column O (Columns t) in
    match primaryKeys with
    | O => Err (Errorf "schema: table %q has no primary key")
    | S O => Ok ()
    | _ => Err (Errorf "schema: table %q has multiple primary keys")
    end.

(** the value of the first primary-key column *)
Fixpoint primary_key_loop (columns : list Column) (row : Row) (i : nat) : result Value :=
  match columns with
  | [] => Err (Errorf "schema: table %q has no primary key")
  | column :: columns =>
      if PrimaryKey column then rindex row i else primary_key_loop columns row (S i)
  end.

Definition PrimaryKeyValue (t : Table) (row : Row) : result Value :=
  if decide (length row ≠ length (Columns t))
  then Err (Errorf "schema: row length mismatch: got %d, columns %d")
  else primary_key_loop (Columns t) row 0.

(** the index of the first column of the name *)
Fixpoint column_index_loop (columns : list Column) (name : bytes) (i : nat) : result nat :=
  match columns with
  | [] => Err (Errorf "schema: column %q does not exist in table %q")
  | column :: columns =>
      if decide (Name column = name) then Ok i else column_index_loop columns name (S i)
  end.

Definition ColumnIndex (t : Table) (name : bytes) : result nat :=
  column_index_loop (Columns t) name 0.

(** ** Valid tables *)

Definition column_ok (c : Column) : Prop :=
  (PrimaryKey c = true → Nullable c = false) ∧
  (∀ v, Default c = Some v → of_type (ColDataType c) v ∨ Value_DataType v = None).

(** exactly one primary key, not nullable, defaults of the column's type *)
Definition table_ok (t : Table) : Prop :=
  tbl_Name t ≠ [] ∧ Forall column_ok (Columns t) ∧
  ∃ pre pk post, Columns t = pre ++ pk :: post ∧ PrimaryKey pk = true ∧ Nullable pk = false ∧
    Forall (λ c, PrimaryKey c = false) pre ∧ Forall (λ c, PrimaryKey c = false) post.

Lemma default_ok v t : of_type t v ∨ Value_DataType v = None ↔ ∀ t', Value_DataType v = Some t' → t' = t.
Proof.
  unfold of_type. destruct (Value_DataType v) as [t'|] eqn:Hv; [|split; [done|by right]].
  assert (Kind v ≠ ValueNull) as Hk by (intros Hk; unfold Value_DataType in Hv; by rewrite Hk in Hv).
  split.
  - intros [[?|[= ->]]|?] ? [= <-]; done.
  - intros H. left. right. by rewrite (H t' eq_refl).
Qed.

Lemma validate_column_spec n c m :
  validate_column n c = Ok m ↔ column_ok c ∧ m = (if PrimaryKey c then S n else n).
Proof.
  unfold validate_column, column_ok. setoid_rewrite default_ok.
  destruct (PrimaryKey c && Nullable c) eqn:Hb.
  { apply andb_true_iff in Hb as [-> ->]. split; [done|]. intros [[H _] _]. by specialize (H eq_refl). }
  assert (PrimaryKey c = true → Nullable c = false) as Hnull by by destruct (PrimaryKey c), (Nullable c).
  set (count := if PrimaryKey c then S n else n).
  assert (Ok count = Ok m ↔ m = count) as Hm by (split; [by intros [= ->]|by intros ->]).
  destruct (Default c) as [v|]; [|rewrite Hm; naive_solver].
  destruct (Value_DataType v) as [t|] eqn:Hv; [case_decide as Hd|rewrite Hm; naive_solver].
  - split; [done|]. intros [[_ H] _]. by destruct Hd, (H v eq_refl t).
  - rewrite Hm. naive_solver.
Qed.

(** the number of primary keys *)
Definition keys (cs : list Column) : nat := length (filter (λ c, PrimaryKey c = true) cs).

Lemma keys_cons c cs : keys (c :: cs) = if PrimaryKey c then S (keys cs) else keys cs.
Proof. unfold keys. rewrite filter_cons. by destruct (PrimaryKey c). Qed.

Lemma keys_app cs cs' : keys (cs ++ cs') = (keys cs + keys cs')%nat.
Proof. unfold keys. by rewrite filter_app, length_app. Qed.

Lemma validate_loop n cs m :
  rfoldl validate_column n cs = Ok m ↔
  Forall column_ok cs ∧ m = (n + keys cs)%nat.
Proof.
  revert n. induction cs as [|c cs IH]; intros n; cbn [rfoldl].
  - cbn. rewrite Nat.add_0_r. split; [by intros [= ->]|]. by intros [_ ->].
  - rewrite rbind_Ok, keys_cons. setoid_rewrite validate_column_spec. setoid_rewrite IH.
    rewrite Forall_cons. split.
    + intros (n' & [Hc ->] & Hcs & ->). split; [done|].
      destruct (PrimaryKey c); lia.
    + intros [[Hc Hcs] ->]. eexists. split; [done|]. split; [done|].
      destruct (PrimaryKey c); lia.
Qed.

(** the columns around the only primary key *)
Lemma one_primary_key cs :
  keys cs = 1%nat ↔
  ∃ pre pk post, cs = pre ++ pk :: post ∧ PrimaryKey pk = true ∧
    Forall (λ c, PrimaryKey c = false) pre ∧ Forall (λ c, PrimaryKey c = false) post.
Proof.
  assert (∀ cs, keys cs = 0%nat ↔ Forall (λ c, PrimaryKey c = false) cs) as Hzero.
  { induction cs0 as [|c l IH]; [by split|]. rewrite keys_cons, Forall_cons.
    destruct (PrimaryKey c) eqn:E; naive_solver lia. }
  split.
  - induction cs as [|c l IH]; [done|]. rewrite keys_cons. destruct (PrimaryKey c) eqn:E.
    + intros [= Hl]. exists [], c, l. split; [done|]. split; [done|]. split; [done|]. by apply Hzero.
    + intros (pre & pk & post & -> & ? & ? & ?)%IH. exists (c :: pre), pk, post. by repeat constructor.
  - intros (pre & pk & post & -> & Hpk & Hpre & Hpost). rewrite keys_app, keys_cons, Hpk.
    apply Hzero in Hpre, Hpost. by rewrite Hpre, Hpost.
Qed.

(** [Validate] accepts exactly the valid tables *)
Lemma Validate_spec t : Validate t = Ok () ↔ table_ok t.
Proof.
  unfold Validate, table_ok. case_decide as Hn; [split; [done|by intros [? _]]|].
  case_decide as Hc.
  { split; [done|]. intros (_ & _ & pre & pk & post & Hcs & _). rewrite Hc in Hcs. by destruct pre. }
  rewrite rbind_Ok. setoid_rewrite validate_loop. split.
  - intros (n & [Hok ->] & Hone). split; [done|]. split; [done|].
    destruct (keys _) as [|[|k]] eqn:El; try done.
    apply one_primary_key in El as (pre & pk & post & Hcs & Hpk & Hpre & Hpost).
    exists pre, pk, post. repeat (split; [done|]). split; [|done].
    rewrite Hcs in Hok. apply Forall_app in Hok as [_ [[Hnull _] _]%Forall_cons]. auto.
  - intros (_ & Hok & pre & pk & post & Hcs & Hpk & _ & Hpre & Hpost).
    eexists. split; [done|].
    rewrite (proj2 (one_primary_key (Columns t))); [done|]. by exists pre, pk, post.
Qed.

Lemma Validate_counts t :
  Validate t = Ok () ↔ tbl_Name t ≠ [] ∧ Forall column_ok (Columns t) ∧ keys (Columns t) = 1%nat.
Proof.
  rewrite Validate_spec. unfold table_ok. split; intros (Hn & Hok & H); (split; [done|]; split; [done|]).
  - destruct H as (pre & pk & post & ? & ? & _ & ? & ?). apply one_primary_key. by exists pre, pk, post.
  - apply one_primary_key in H as (pre & pk & post & Hcs & Hpk & ? & ?). exists pre, pk, post.
    rewrite Hcs in Hok. apply Forall_app in Hok as [_ [[Hnull _] _]%Forall_cons]. auto 10.
Qed.

Lemma Validate_no_panic t : no_panic (Validate t).
Proof.
  unfold Validate. case_decide; [done|]. case_decide; [done|]. apply no_panic_bind.
  - generalize O (Columns t). clear. intros n cs. revert n. induction cs as [|c cs IH]; intros n; [done|].
    cbn [rfoldl]. apply no_panic_bind; [|intros m _; apply IH].
    unfold validate_column. destruct (_ && _); [done|].
    destruct (Default c) as [v|]; [|done]. destruct (Value_DataType v); [|done]. by case_decide.
  - by intros [|[|n]] _.
Qed.

(** the index of the primary key of a valid table *)
Lemma primary_key_loop_spec pre pk post row i :
  Forall (λ c, PrimaryKey c = false) pre → PrimaryKey pk = true →
  primary_key_loop (pre ++ pk :: post) row i = rindex row (i + length pre).
Proof.
  intros Hpre Hpk. revert i. induction Hpre as [|c pre Hc Hpre IH]; intros i; cbn.
  - by rewrite Hpk, Nat.add_0_r.
  - rewrite Hc, IH. by rewrite Nat.add_succ_r.
Qed.

Lemma PrimaryKeyValue_ok t row :
  table_ok t → length row = length (Columns t) → ∃ v, PrimaryKeyValue t row = Ok v ∧ v ∈ row.
Proof.
  intros (_ & _ & pre & pk & post & Hcs & Hpk & _ & Hpre & _) Hl. unfold PrimaryKeyValue.
  rewrite decide_False by (by intros ?). rewrite Hcs, primary_key_loop_spec by done. cbn.
  destruct (lookup_lt_is_Some_2 row (length pre)) as [v Hv].
  { rewrite Hl, Hcs, length_app. cbn. lia. }
  exists v. unfold rindex. rewrite Hv. split; [done|]. by eapply list_elem_of_lookup_2.
Qed.

(** the primary key of a row is the value of its primary key column *)
Lemma Validate_primary_key t row :
  Validate t = Ok () → length row = length (Columns t) →
  ∃ i c v, Columns t !! i = Some c ∧ PrimaryKey c = true ∧ row !! i = Some v ∧ PrimaryKeyValue t row = Ok v.
Proof.
  intros (_ & _ & pre & pk & post & Hcs & Hpk & _ & Hpre & _)%Validate_spec Hl. unfold PrimaryKeyValue.
  rewrite decide_False by (by intros ?). rewrite Hcs, primary_key_loop_spec by done. cbn [Nat.add].
  destruct (lookup_lt_is_Some_2 row (length pre)) as [v Hv].
  { rewrite Hl, Hcs, length_app. cbn. lia. }
  exists (length pre), pk, v. unfold rindex. rewrite Hv. by rewrite list_lookup_middle.
Qed.

Lemma column_index_loop_Ok cs name i n :
  column_index_loop cs name i = Ok n →
  (i ≤ n)%nat ∧ ∃ c, cs !! (n - i)%nat = Some c ∧ Name c = name.
Proof.
  revert i. induction cs as [|c cs IH]; intros i; cbn; [done|]. case_decide as Hn.
  - intros [= <-]. split; [lia|]. exists c. by rewrite Nat.sub_diag.
  - intros (Hle & c' & Hc' & ?)%IH. split; [lia|]. exists c'.
    replace (n - i)%nat with (S (n - S i)) by lia. done.
Qed.

Lemma ColumnIndex_Ok t name n :
  ColumnIndex t name = Ok n → ∃ c, Columns t !! n = Some c ∧ Name c = name.
Proof. intros (_ & c & Hc & ?)%column_index_loop_Ok. rewrite Nat.sub_0_r in Hc. by exists c. Qed.

Lemma ColumnIndex_no_panic t name : no_panic (ColumnIndex t name).
Proof.
  unfold ColumnIndex. generalize 0%nat. induction (Columns t) as [|c cs IH]; intros i; cbn; [done|].
  by case_decide.
Qed.
