(* ===== verification/Planner.v ===== *)
(** * The planner ([planner/]) *)

From S2P Require Import Prelude Bytes Types Lexer Ast Schema.

(** ** Constant expressions ([planner/value.go]) *)

Definition ValueFromExpression (expression : Expression) : result Value :=
  match expression with
  | Null => Ok NullValue
  | BooleanLiteral v => Ok (BooleanValue v)
  | IntegerLiteral v => Ok (IntegerValue v)
  | FloatLiteral v => Ok (FloatValue v)
  | StringLiteral v => Ok (StringValue v)
  | _ => Err (Errorf "planner: unsupported expression kind %d")
  end.

(** ** Schemas ([planner/schema.go]) *)

Definition columnFromDefinition (astColumn : Ast.Column) : result Schema.Column :=
  let nullable :=
    match cd_Nullable astColumn with
    | Some b => b
    | None => negb (cd_PrimaryKey astColumn)
    end in
  let? defaultValue :=
    match cd_DefaultValue astColumn with
    | Some e =>
        let? v := rwrap "planner: converting default for column %q: %w" (ValueFromExpression e) in
        Ok (Some v)
    | None => Ok (if nullable then Some NullValue else None)
    end in
  Ok (Schema.mkColumn (cd_Name astColumn) (cd_DataType astColumn) nullable defaultValue
        (cd_PrimaryKey astColumn)).

Definition tableFromCreateStatement (stmt : CreateTableStatement) : result Table :=
  let? columns := rmapM columnFromDefinition (ct_Columns stmt) in
  Ok (mkTable (ct_Name stmt) columns).

(** ** Plans ([planner/plan.go]) *)

Inductive Node :=
  | CreateTableNode (schema : Table)
  | InsertNode (tableName : bytes) (columns : list bytes) (values : list (list Expression))
  | ScanNode (tableName : bytes)
  | FilterNode (source : Node) (predicate : Expression)
  | OrderNode (source : Node) (orderBy : list OrderBy)
  | LimitNode (source : Node) (limit : Z)
  | OffsetNode (source : Node) (offset : Z)
  | ProjectionNode (source : Node) (items : list SelectItem)
  | AggregateNode (source : Node) (items : list SelectItem) (groupBy : option Expression)
  | NestedLoopJoinNode (left right : Node) (predicate : option Expression) (outer : bool)
  | UpdateNode (tableName : bytes) (source : Node) (assignments : gmap bytes Expression)
  | DeleteNode (tableName : bytes) (source : Node).

Definition validateJoinItem (type : JoinType) (predicate : option Expression) : result unit :=
  match type with
  | JoinCross =>
      match predicate with
      | Some _ => Err (Errorf "planner: CROSS JOIN cannot have a predicate")
      | None => Ok ()
      end
  | JoinInner | JoinLeft | JoinRight =>
      match predicate with
      | None => Err (Errorf "planner: join type %d requires a predicate")
      | Some _ => Ok ()
      end
  end.

(** a RIGHT JOIN builds its right item first, as the left input *)
Fixpoint buildFromItem (item : FromItem) : result Node :=
  match item with
  | TableFromItem name => Ok (ScanNode name)
  | JoinFromItem l r type predicate =>
      let? _ := validateJoinItem type predicate in
      let '(leftResult, rightResult) :=
        if decide (type = JoinRight) then (buildFromItem r, buildFromItem l)
        else (buildFromItem l, buildFromItem r) in
      let? lhs := rwrap "building left join input: %w" leftResult in
      let? rhs := rwrap "building right join input: %w" rightResult in
      Ok (NestedLoopJoinNode lhs rhs predicate
            (bool_decide (type = JoinLeft) || bool_decide (type = JoinRight)))
  end.

(** the column of a GROUP BY, the empty name without one *)
Definition group_column (groupBy : option Expression) : result bytes :=
  match groupBy with
  | None => Ok []
  | Some (ColumnReference name) => Ok name
  | Some _ => Err (Errorf "planner: GROUP BY expression must be a column reference")
  end.

(** one iteration over the select items: has an aggregate, has something else *)
Definition check_item (grouped : bool) (groupByColumn : bytes) (flags : bool * bool)
    (item : SelectItem) : result (bool * bool) :=
  let '(hasAggregate, hasNonAggregate) := flags in
  match si_Expression item with
  | FunctionExpression _ => Ok (true, hasNonAggregate)
  | ColumnReference columnName =>
      if grouped && bool_decide (columnName ≠ groupByColumn)
      then Err (Errorf "planner: column %q must appear in GROUP BY or be used in an aggregate function")
      else Ok (hasAggregate, true)
  | _ =>
      if grouped
      then Err (Errorf "planner: SELECT item %d must be the GROUP BY column or an aggregate function")
      else Ok (hasAggregate, true)
  end.

(** the constant of a LIMIT or OFFSET; [int] has 64 bits *)
Definition row_count (converting not_integer too_large : string) (e : Expression) : result Z :=
  let? v := rwrap converting (ValueFromExpression e) in
  if negb (bool_decide (Kind v = ValueInteger)) || (vInteger v <? 0) then Err (Errorf not_integer)
  else if vInteger v >? max_int64 then Err (Errorf too_large)
  else Ok (vInteger v).

Definition add_optional {A} (o : option A) (f : A → Node → result Node) (node : Node) : result Node :=
  match o with Some a => f a node | None => Ok node end.

(** the select items of a query that groups nothing *)
Definition projected (isAggregateQuery : bool) (items : list SelectItem) (node : Node) : Node :=
  if bool_decide (items ≠ []) && negb isAggregateQuery then ProjectionNode node items else node.

Definition buildSelect (stmt : SelectStatement) : result Node :=
  let? node := rwrap "planner: building FROM clause: %w" (buildFromItem (sel_From stmt)) in
  let? node := add_optional (sel_Where stmt) (λ e node, Ok (FilterNode node e)) node in
  let? groupByColumn := group_column (sel_GroupBy stmt) in
  let grouped := match sel_GroupBy stmt with Some _ => true | None => false end in
  let? (hasAggregate, hasNonAggregate) :=
    rfoldl (check_item grouped groupByColumn) (false, false) (sel_SelectItems stmt) in
  if negb grouped && hasAggregate && hasNonAggregate
  then Err (Errorf "planner: aggregate functions cannot be mixed with non-aggregate expressions without GROUP BY")
  else
    let isAggregateQuery := hasAggregate || grouped in
    let node :=
      if isAggregateQuery then AggregateNode node (sel_SelectItems stmt) (sel_GroupBy stmt) else node in
    let? node := add_optional (sel_Having stmt) (λ e node, Ok (FilterNode node e)) node in
    let node := if decide (sel_OrderBy stmt ≠ []) then OrderNode node (sel_OrderBy stmt) else node in
    let? node :=
      add_optional (sel_Offset stmt) (λ e node,
        let? n := row_count "planner: converting OFFSET value: %w"
          "planner: OFFSET must be a non-negative integer" "planner: OFFSET is too large" e in
        Ok (OffsetNode node n)) node in
    let? node :=
      add_optional (sel_Limit stmt) (λ e node,
        let? n := row_count "planner: converting LIMIT value: %w"
          "planner: LIMIT must be a non-negative integer" "planner: LIMIT is too large" e in
        Ok (LimitNode node n)) node in
    Ok (projected isAggregateQuery (sel_SelectItems stmt) node).

Definition filtered_scan (tableName : bytes) (filter : option Expression) : Node :=
  match filter with
  | Some e => FilterNode (ScanNode tableName) e
  | None => ScanNode tableName
  end.

Definition buildUpdate (stmt : UpdateStatement) : Node :=
  UpdateNode (upd_TableName stmt) (filtered_scan (upd_TableName stmt) (upd_Filter stmt)) (upd_Assignments stmt).

Definition buildDelete (stmt : DeleteStatement) : Node :=
  DeleteNode (del_TableName stmt) (filtered_scan (del_TableName stmt) (del_Filter stmt)).

(** [planner.Build]; a [Plan] is its root node *)
Definition Build (stmt : Statement) : result Node :=
  match stmt with
  | StatementCreateTable stmt =>
      let? table := rwrap "planner: building create-table plan: %w" (tableFromCreateStatement stmt) in
      Ok (CreateTableNode table)
  | StatementInsert stmt => Ok (InsertNode (ins_TableName stmt) (ins_Columns stmt) (ins_Values stmt))
  | StatementSelect stmt => buildSelect stmt
  | StatementUpdate stmt => Ok (buildUpdate stmt)
  | StatementDelete stmt => Ok (buildDelete stmt)
  end.
