(* ===== verification/Sort.v ===== *)
(** * [slices.SortStableFunc] and [slices.Index]

    The comparison may fail: the caller records the first error and returns 0
    from then on, and drops the rows once an error is recorded; here the sort
    ends with that error.  The algorithm is the insertion sort that the
    library uses on short slices.  [stable_sort_unique]: for a comparison that
    is a total preorder every stable sort returns the same list, so the merge
    phase of longer slices is not modelled. *)

From stdpp Require Import sorting.
From S2P Require Import Prelude Bytes.

(** [slices.Index]: the first position of a name, -1 is [None] *)
Fixpoint slices_Index (names : list bytes) (name : bytes) : option nat :=
  match names with
  | [] => None
  | n :: names => if decide (n = name) then Some O else S <$> slices_Index names name
  end.

Section sort.
Context {A : Type} (cmp : A → A → result Z).

(** the element moves down from the right end of the sorted elements, which
    are kept in reverse *)
Fixpoint insert_element (x : A) (rev_sorted : list A) : result (list A) :=
  match rev_sorted with
  | [] => Ok [x]
  | y :: rest =>
      let? c := cmp x y in
      if c <? 0 then let? rest := insert_element x rest in Ok (y :: rest)
      else Ok (x :: rev_sorted)
  end.

Definition SortStableFunc (l : list A) : result (list A) :=
  let? r := rfoldl (λ acc x, insert_element x acc) [] l in
  Ok (rev r).

Lemma SortStableFunc_no_panic l :
  (∀ x y, x ∈ l → y ∈ l → no_panic (cmp x y)) → no_panic (SortStableFunc l).
Proof.
  intros Hcmp. unfold SortStableFunc. apply no_panic_bind; [|done].
  assert (∀ x acc, x ∈ l → acc ⊆ l →
    no_panic (insert_element x acc) ∧ ∀ r, insert_element x acc = Ok r → r ⊆ l) as Hins.
  { intros x acc Hx. induction acc as [|y acc IH]; intros Hacc; cbn.
    - split; [done|]. intros r [= <-]. set_solver.
    - assert (y ∈ l) as Hy by set_solver. specialize (Hcmp x y Hx Hy).
      destruct (cmp x y) as [c| |]; cbn; [|done..]. destruct (c <? 0); cbn; [|naive_solver set_solver].
      destruct IH as [Hn Hr]; [set_solver|].
      destruct (insert_element x acc) as [r| |]; cbn; [|done..].
      split; [done|]. intros r' [= <-]. specialize (Hr r eq_refl). set_solver. }
  assert (∀ k acc, k ⊆ l → acc ⊆ l → no_panic (rfoldl (λ acc x, insert_element x acc) acc k)) as Hl.
  { induction k as [|x k IH]; intros acc Hk Hacc; cbn; [done|].
    destruct (Hins x acc) as [Hn Hr]; [set_solver|done|].
    destruct (insert_element x acc) as [r| |]; cbn; [|done..].
    apply IH; [set_solver|by apply Hr]. }
  apply Hl; set_solver.
Qed.

Lemma SortStableFunc_Permutation l l' : SortStableFunc l = Ok l' → l' ≡ₚ l.
Proof.
  assert (∀ x acc r, insert_element x acc = Ok r → r ≡ₚ x :: acc) as Hins.
  { intros x acc. induction acc as [|y acc IH]; intros r; cbn; [by intros [= <-]|].
    intros H. inv_ok. destruct (x0 <? 0); inv_ok; [|done]. by rewrite (IH x1), Permutation_swap. }
  unfold SortStableFunc. intros H. inv_ok. rewrite <-Permutation_rev.
  assert (∀ acc, rfoldl (λ acc x, insert_element x acc) acc l = Ok x → x ≡ₚ l ++ acc) as Hl.
  { clear H. induction l as [|y l IH]; intros acc; cbn; [by intros [= ->]|].
    intros H. inv_ok. by rewrite (IH x0), (Hins y acc x0), <-Permutation_middle. }
  by rewrite (Hl []), app_nil_r.
Qed.

End sort.

(** ** Sorting by a total preorder *)

Section preorder.
Context {A : Type} (cmp : A → A → result Z) (P : A → Prop) (key : A → A → Z).
(** [key] is the value of the comparison on elements of [P] *)
Hypothesis cmp_key : ∀ x y, P x → P y → cmp x y = Ok (key x y).
Hypothesis key_anti : ∀ x y, P x → P y → key y x = - key x y.
Hypothesis key_trans : ∀ x y z, P x → P y → P z → key x y ≤ 0 → key y z ≤ 0 → key x z ≤ 0.

Definition sorted_by : list A → Prop := StronglySorted (λ x y, key x y ≤ 0).

(** the elements that compare equal to [x], in order *)
Definition peers (x : A) (l : list A) : list A := filter (λ y, key x y = 0) l.

#[local] Arguments peers : simpl never.

(** [l'] is a stable sort of [l] *)
Definition stable_sort_of (l l' : list A) : Prop :=
  sorted_by l' ∧ l ≡ₚ l' ∧ ∀ x, P x → peers x l' = peers x l.

Lemma peers_cons x y l : peers x (y :: l) = if decide (key x y = 0) then y :: peers x l else peers x l.
Proof. unfold peers. rewrite filter_cons. done. Qed.

Lemma peers_app x l k : peers x (l ++ k) = peers x l ++ peers x k.
Proof. apply filter_app. Qed.

(** the elements kept in reverse, seen in order *)
Lemma insert_element_spec x acc :
  P x → Forall P acc → sorted_by (rev acc) →
  ∃ r, insert_element cmp x acc = Ok r ∧ Forall P r ∧ sorted_by (rev r) ∧ r ≡ₚ x :: acc ∧
       (∀ z, P z → peers z (rev r) = peers z (rev acc ++ [x])).
Proof.
  intros Hx Hacc. revert Hx. induction acc as [|y acc IH]; intros Hx Hs; cbn.
  - exists [x]. repeat split; try done; repeat constructor; done.
  - apply Forall_cons in Hacc as [Hy Hacc]. rewrite (cmp_key x y) by done. cbn.
    cbn in Hs. apply StronglySorted_app in Hs as (Hle & Hs & _).
    destruct (Z.ltb_spec (key x y) 0) as [Hlt|Hge]; cbn.
    + destruct (IH Hacc Hx Hs) as (r & Hr & HPr & Hsr & Hperm & Hpeers). rewrite Hr. cbn.
      exists (y :: r). split; [done|]. split; [by constructor|]. split; [|split].
      * cbn. apply StronglySorted_app_2; [|done|repeat constructor].
        intros a b Ha Hb%list_elem_of_singleton. subst b.
        rewrite <-Permutation_rev, Hperm in Ha.
        apply elem_of_cons in Ha as [->|Ha]; [lia|].
        apply Hle; [|set_solver]. by rewrite <-Permutation_rev.
      * by rewrite Hperm, Permutation_swap.
      * intros z Hz. cbn. rewrite !peers_app, Hpeers, peers_app, <-!app_assoc by done. f_equal.
        rewrite !peers_cons. repeat case_decide; try done.
        pose proof (key_anti z x Hz Hx). pose proof (key_anti x y Hx Hy).
        pose proof (key_trans y z x Hy Hz Hx). pose proof (key_anti z y Hz Hy). lia.
    + exists (x :: y :: acc). split; [done|]. split; [by repeat constructor|].
      split; [|split; [done|done]]. cbn.
      apply StronglySorted_app_2; [|apply StronglySorted_app_2; [done|done|repeat constructor]|repeat constructor].
      intros a b Ha Hb%list_elem_of_singleton. subst b.
      apply elem_of_app in Ha as [Ha| ->%list_elem_of_singleton].
      * assert (P a) as HPa.
        { rewrite <-Permutation_rev in Ha. by eapply Forall_forall. }
        apply (key_trans a y x); [done..| |].
        -- apply Hle; set_solver.
        -- rewrite (key_anti x y) by done. lia.
      * rewrite (key_anti x y) by done. lia.
Qed.

Lemma sort_loop_spec l acc :
  Forall P l → Forall P acc → sorted_by (rev acc) →
  ∃ r, rfoldl (λ acc x, insert_element cmp x acc) acc l = Ok r ∧ sorted_by (rev r) ∧ Forall P r ∧
       r ≡ₚ l ++ acc ∧ (∀ z, P z → peers z (rev r) = peers z (rev acc ++ l)).
Proof.
  revert acc. induction l as [|x l IH]; intros acc Hl Hacc Hs; cbn.
  - exists acc. rewrite app_nil_r. done.
  - apply Forall_cons in Hl as [Hx Hl].
    destruct (insert_element_spec x acc) as (r & Hr & HPr & Hsr & Hperm & Hpeers); [done..|].
    rewrite Hr. cbn. destruct (IH r) as (r' & Hr' & Hs' & HP' & Hperm' & Hpeers'); [done..|].
    exists r'. split; [done|]. split; [done|]. split; [done|]. split.
    + rewrite Hperm', Hperm. by rewrite <-Permutation_middle.
    + intros z Hz. rewrite Hpeers', peers_app, Hpeers, <-peers_app, <-app_assoc by done. done.
Qed.

Lemma SortStableFunc_spec l :
  Forall P l → ∃ l', SortStableFunc cmp l = Ok l' ∧ stable_sort_of l l'.
Proof.
  intros Hl. destruct (sort_loop_spec l []) as (r & Hr & Hs & _ & Hperm & Hpeers);
    [done|constructor|constructor|].
  exists (rev r). unfold SortStableFunc. rewrite Hr. split; [done|]. split; [done|]. split; [|done].
  by rewrite <-Permutation_rev, Hperm, app_nil_r.
Qed.

(** two stable sorts agree *)
Lemma stable_sort_unique l l1 l2 :
  Forall P l → stable_sort_of l l1 → stable_sort_of l l2 → l1 = l2.
Proof.
  intros HPl (Hs1 & Hp1 & He1) (Hs2 & Hp2 & He2).
  assert (Forall P l1) as HP1 by by rewrite <-Hp1.
  assert (l1 ≡ₚ l2) as Hp by by rewrite <-Hp1.
  assert (∀ x, P x → peers x l1 = peers x l2) as He by (intros; by rewrite He1, He2).
  clear He1 He2 Hp1 Hp2 HPl l. revert l2 Hs2 Hp He.
  induction l1 as [|x l1 IH]; intros l2 Hs2 Hp He; [by apply Permutation_nil_l in Hp|].
  destruct l2 as [|y l2]; [by apply Permutation_nil_r in Hp|].
  assert (Forall P (y :: l2)) as HP2 by by rewrite <-Hp.
  apply Forall_cons in HP1 as [Hx HP1]. apply Forall_cons in HP2 as [Hy HP2].
  assert (∀ z, P z → key z z = 0) as Hrefl by (intros z Hz; pose proof (key_anti z z Hz Hz); lia).
  assert (key x y = 0) as Hxy.
  { assert (key x y ≤ 0).
    { assert (y ∈ x :: l1) as [->|Hin]%elem_of_cons by (rewrite Hp; set_solver); [by rewrite Hrefl|].
      inversion Hs1 as [|? ? ? Hall]; subst. by apply (proj1 (Forall_forall _ _) Hall). }
    assert (key y x ≤ 0).
    { assert (x ∈ y :: l2) as [->|Hin]%elem_of_cons by (rewrite <-Hp; set_solver); [by rewrite Hrefl|].
      inversion Hs2 as [|? ? ? Hall]; subst. by apply (proj1 (Forall_forall _ _) Hall). }
    pose proof (key_anti x y Hx Hy). lia. }
  pose proof (He x Hx) as Hpx. rewrite !peers_cons, Hrefl, Hxy in Hpx by done.
  rewrite !decide_True in Hpx by done. injection Hpx as -> Hpx. f_equal.
  apply IH; [by inversion Hs1|done|by inversion Hs2|by apply Permutation_cons_inv in Hp|].
  intros z Hz. specialize (He z Hz). rewrite !peers_cons in He. case_decide; [by injection He|done].
Qed.

End preorder.

(** ** Lexicographic comparisons *)

Section lexicographic.
Context {A : Type}.
Implicit Types (c : A → A → Z) (cs : list (A → A → Z)).

(** the first comparison that decides *)
Fixpoint lex_cmp cs (x y : A) : Z :=
  match cs with
  | [] => 0
  | c :: cs => if c x y =? 0 then lex_cmp cs x y else c x y
  end.

Record preorder_on (P : A → Prop) c : Prop := {
  po_anti x y : P x → P y → c y x = - c x y;
  po_trans x y z : P x → P y → P z → c x y ≤ 0 → c y z ≤ 0 → c x z ≤ 0;
}.

Lemma lex_cmp_preorder P cs : Forall (preorder_on P) cs → preorder_on P (lex_cmp cs).
Proof.
  induction 1 as [|c cs [Ha Ht] _ [IHa IHt]]; cbn; [by split; cbn; lia|]. split.
  - intros x y Hx Hy. cbn. rewrite (Ha x y Hx Hy), (IHa x y Hx Hy).
    destruct (Z.eqb_spec (c x y) 0), (Z.eqb_spec (- c x y) 0); lia.
  - intros x y z Hx Hy Hz. cbn.
    pose proof (Ht x y z Hx Hy Hz). pose proof (Ht z y x Hz Hy Hx). pose proof (Ht y z x Hy Hz Hx).
    pose proof (Ht z x y Hz Hx Hy). pose proof (IHt x y z Hx Hy Hz).
    pose proof (Ha x y Hx Hy). pose proof (Ha y z Hy Hz). pose proof (Ha x z Hx Hz).
    destruct (Z.eqb_spec (c x y) 0), (Z.eqb_spec (c y z) 0), (Z.eqb_spec (c x z) 0); lia.
Qed.

Lemma preorder_opp P c : preorder_on P c → preorder_on P (λ x y, - c x y).
Proof.
  intros [Ha Ht]. split; [intros x y Hx Hy; by rewrite (Ha x y Hx Hy)|].
  intros x y z Hx Hy Hz ??. pose proof (Ht z y x Hz Hy Hx).
  pose proof (Ha x y Hx Hy). pose proof (Ha y z Hy Hz). pose proof (Ha x z Hx Hz). lia.
Qed.

End lexicographic.
