(* ===== verification/Expr.v ===== *)
(** * Expressions over rows ([executor/expression.go]) *)

From S2P Require Import Prelude Bytes Types Ast Sort.

Definition evaluateComparison (kind : OperationKind) (lhs rhs : Value) : result Value :=
  if decide (Kind lhs = ValueNull ∨ Kind rhs = ValueNull) then Ok NullValue
  else
    let? comparison := rwrap "executor: comparing values: %w" (Compare lhs rhs) in
    Ok (BooleanValue
          match kind with
          | OperationEqual => comparison =? 0
          | OperationGreaterThan => comparison >? 0
          | OperationLessThan => comparison <? 0
          end).

(** the right operand of an operation is evaluated with the two inputs swapped *)
Fixpoint evaluateExpression (expression : Expression) (leftColumns : list bytes) (leftRow : Row)
    (rightColumns : list bytes) (rightRow : Row) : result Value :=
  match expression with
  | Null => Ok NullValue
  | BooleanLiteral value => Ok (BooleanValue value)
  | IntegerLiteral value => Ok (IntegerValue value)
  | FloatLiteral value => Ok (FloatValue value)
  | StringLiteral value => Ok (StringValue value)
  | ColumnReference columnName =>
      match slices_Index leftColumns columnName with
      | None => Err (Errorf "executor: column %q does not exist")
      | Some columnIndex => rindex leftRow columnIndex
      end
  | OperationExpression kind l r =>
      let? lhs := rwrap "executor: evaluating left operand: %w"
                    (evaluateExpression l leftColumns leftRow rightColumns rightRow) in
      let? rhs := rwrap "executor: evaluating right operand: %w"
                    (evaluateExpression r rightColumns rightRow leftColumns leftRow) in
      evaluateComparison kind lhs rhs
  | FunctionExpression _ => Err (Errorf "executor: expression kind %d cannot be evaluated for a row")
  end.

(** [value.Kind == types.ValueBoolean && value.Boolean] *)
Definition is_true (v : Value) : bool := bool_decide (Kind v = ValueBoolean) && vBoolean v.

Lemma slices_Index_Some names name i :
  slices_Index names name = Some i ↔
  names !! i = Some name ∧ ∀ j, (j < i)%nat → names !! j ≠ Some name.
Proof.
  revert i. induction names as [|n names IH]; intros i; cbn; [naive_solver|].
  case_decide as Hn.
  - subst n. split; [intros [= <-]; split; [done|lia]|]. intros [Hi Hj].
    destruct i; [done|]. destruct (Hj O); [lia|done].
  - destruct i as [|i].
    + split; [|intros [[= ->] _]; done]. by destruct (slices_Index names name).
    + rewrite (inj_iff Some) || idtac.
      assert (S <$> slices_Index names name = Some (S i) ↔ slices_Index names name = Some i) as ->.
      { destruct (slices_Index names name); cbn; naive_solver. }
      rewrite IH. cbn. split; intros [Hi Hj]; (split; [done|]); intros j Hlt.
      * destruct j; cbn; [by intros [= ->]|]. apply Hj. lia.
      * apply (Hj (S j)). lia.
Qed.

Lemma slices_Index_lt names name i : slices_Index names name = Some i → (i < length names)%nat.
Proof. intros [Hi _]%slices_Index_Some. by eapply lookup_lt_Some. Qed.

Lemma slices_Index_None names name : slices_Index names name = None ↔ name ∉ names.
Proof.
  induction names as [|n names IH]; cbn; [set_solver|].
  case_decide; [set_solver|]. destruct (slices_Index names name); cbn; set_solver.
Qed.

Lemma Compare_no_panic v w : no_panic (Compare v w).
Proof. unfold Compare. repeat case_decide; try done. by destruct (Kind v), (Kind w); try done; repeat case_match. Qed.
#[export] Hint Resolve Compare_no_panic : go.

Lemma evaluateComparison_no_panic k v w : no_panic (evaluateComparison k v w).
Proof.
  unfold evaluateComparison. case_decide; [done|]. apply no_panic_bind; [auto with go|done].
Qed.
#[export] Hint Resolve evaluateComparison_no_panic : go.

(** evaluation on rows as wide as their columns does not panic *)
Lemma evaluateExpression_no_panic e lc lr rc rr :
  length lr = length lc → length rr = length rc → no_panic (evaluateExpression e lc lr rc rr).
Proof.
  revert lc lr rc rr. induction e; intros lc lr rc rr Hl Hr; cbn; try done.
  - apply no_panic_bind; [by apply no_panic_wrap, IHe1|]. intros v _.
    apply no_panic_bind; [by apply no_panic_wrap, IHe2|]. auto with go.
  - destruct (slices_Index lc name) eqn:Hi; [|done]. apply no_panic_rindex.
    rewrite Hl. by eapply slices_Index_lt.
Qed.
#[export] Hint Resolve evaluateExpression_no_panic : go.
