(* ===== verification/Transaction.v ===== *)
(** * What the executor needs of a transaction ([executor/transaction.go]) *)

From S2P Require Import Prelude Bytes Types Schema.

(** [T] is a transaction together with the database it works on: the methods
    of the Go interface have a pointer to both *)
Class Transaction (T : Type) := {
  txnCommit : ST T unit;
  txnRollback : ST T unit;
  txnCreateRow : bytes → Row → ST T unit;
  txnUpdateRow : Table → Value → Row → ST T unit;
  txnDeleteRow : Table → Value → ST T unit;
  txnScanTable : Table → ST T (list Row);
  txnCreateTable : Table → ST T unit;
  txnGetTable : bytes → ST T (option Table);
}.

(** [Engine] of [engine/engine.go]: it begins transactions of type [T] on a
    database of type [D]; [txnDB] is the database a transaction points to *)
Class SQLEngine (D T : Type) := {
  dbBegin : D → D * result T;
  txnDB : T → D;
}.
