(* ===== verification/Executor.v ===== *)
(** * The executor ([executor/]) *)

From S2P Require Import Prelude Bytes Types Lexer Ast Schema Planner Sort Expr Transaction.

(** ** Results *)

Inductive ResultSet :=
  | CreateTableResult (TableName : bytes)
  | InsertResult (Count : Z)
  | UpdateResult (Count : Z)
  | DeleteResult (Count : Z)
  | RowsResult (Columns : list bytes) (Rows : list Row).

(** the assertion [sourceResult.(RowsResult)] *)
Definition as_rows (r : ResultSet) : result (list bytes * list Row) :=
  match r with RowsResult columns rows => Ok (columns, rows) | _ => Panic TypeAssertion end.

(** [xs[i] = v]: a panic out of range *)
Definition rstore {A} (l : list A) (i : nat) (v : A) : result (list A) :=
  if decide (i < length l)%nat then Ok (<[i := v]> l) else Panic IndexOutOfRange.

(** ** INSERT *)

Definition default_value (err : error) (column : Schema.Column) : result Value :=
  match Default column with Some v => Ok v | None => Err err end.

(** [positions]: the last position of each column name *)
Definition column_positions (columns : list Schema.Column) : gmap bytes nat :=
  foldl (λ m '(i, column), <[Name column := i]> m) ∅ (imap pair columns).

Definition fill_column (positions : gmap bytes nat) (input : Row)
    (acc : Row * list bool) (item : nat * bytes) : result (Row * list bool) :=
  let '(row, filled) := acc in
  let '(i, columnName) := item in
  match positions !! columnName with
  | None => Err (Errorf "unknown column %q")
  | Some columnIdx =>
      let? done := rindex filled columnIdx in
      if (done : bool) then Err (Errorf "column %q specified more than once")
      else
        let? v := rindex input i in
        let? row := rstore row columnIdx v in
        let? filled := rstore filled columnIdx true in
        Ok (row, filled)
  end.

Definition fill_default (filled : list bool) (row : Row) (item : nat * Schema.Column) : result Row :=
  let '(i, column) := item in
  let? done := rindex filled i in
  if (done : bool) then Ok row
  else
    let? v := default_value (Errorf "no value given for column %q") column in
    rstore row i v.

Definition makeInsertRow (table : Table) (columnNames : list bytes) (input : Row) : result Row :=
  let columns := Columns table in
  if decide (columnNames = []) then
    if decide (length columns < length input)%nat
    then Err (Errorf "too many values: got %d, columns %d")
    else
      let? tail := rmapM (default_value (Errorf "no default value for column %q"))
                     (drop (length input) columns) in
      Ok (input ++ tail)
  else if decide (length columnNames ≠ length input)
  then Err (Errorf "columns and values count mismatch: columns %d, values %d")
  else
    let positions := column_positions columns in
    let? (row, filled) :=
      rfoldl (fill_column positions input)
        (replicate (length columns) NullValue, replicate (length columns) false)
        (imap pair columnNames) in
    rfoldl (fill_default filled) row (imap pair columns).

(** ** Rows in, rows out *)

(** [FilterExecutor]: UNKNOWN does not satisfy the predicate *)
Fixpoint filter_rows (predicate : Expression) (columns : list bytes) (rows : list Row)
    : result (list Row) :=
  match rows with
  | [] => Ok []
  | row :: rest =>
      let? value := rwrap "executor: evaluating filter for row %d: %w"
                      (evaluateExpression predicate columns row columns row) in
      let? kept := filter_rows predicate columns rest in
      Ok (if is_true value then row :: kept else kept)
  end.

(** the comparison of [OrderExecutor], on the keys with their column index *)
Fixpoint compare_rows (keys : list (OrderBy * nat)) (a b : Row) : result Z :=
  match keys with
  | [] => Ok 0
  | (order, targetIdx) :: keys =>
      let? x := rindex a targetIdx in
      let? y := rindex b targetIdx in
      let? cmp := rwrap "executor: comparing ORDER BY column %q: %w" (Compare x y) in
      if cmp =? 0 then compare_rows keys a b
      else Ok (if decide (ob_Direction order = OrderDescending) then - cmp else cmp)
  end.

Definition order_key (columns : list bytes) (order : OrderBy) : result (OrderBy * nat) :=
  match slices_Index columns (ob_Column order) with
  | None => Err (Errorf "executor: ORDER BY column %q does not exist")
  | Some targetIdx => Ok (order, targetIdx)
  end.

Definition order_rows (orderBy : list OrderBy) (columns : list bytes) (rows : list Row)
    : result (list Row) :=
  let? keys := rmapM (order_key columns) orderBy in
  SortStableFunc (compare_rows keys) rows.

Definition offset_rows (offset : Z) (rows : list Row) : result (list Row) :=
  let start := if offset >? Z.of_nat (length rows) then Z.of_nat (length rows) else offset in
  if start <? 0 then Panic IndexOutOfRange else Ok (drop (Z.to_nat start) rows).

Definition limit_rows (limit : Z) (rows : list Row) : result (list Row) :=
  let end_ := if limit >? Z.of_nat (length rows) then Z.of_nat (length rows) else limit in
  if end_ <? 0 then Panic IndexOutOfRange else Ok (take (Z.to_nat end_) rows).

(** a projection item resolved once: a column index or a constant *)
Inductive projection := ProjectColumn (columnIndex : nat) | ProjectConstant (constant : Value).

Definition project_item (columns : list bytes) (item : SelectItem) : result (projection * bytes) :=
  match si_Expression item with
  | ColumnReference columnName =>
      match slices_Index columns columnName with
      | None => Err (Errorf "executor: projection column %q does not exist")
      | Some columnIndex => Ok (ProjectColumn columnIndex, default columnName (si_Alias item))
      end
  | e =>
      let? value := rwrap "executor: converting projection expression: %w" (ValueFromExpression e) in
      Ok (ProjectConstant value, default (str "?column?") (si_Alias item))
  end.

Definition project_value (sourceRow : Row) (p : projection) : result Value :=
  match p with
  | ProjectConstant constant => Ok constant
  | ProjectColumn columnIndex => rindex sourceRow columnIndex
  end.

Definition project_rows (items : list SelectItem) (columns : list bytes) (rows : list Row)
    : result (list bytes * list Row) :=
  let? items := rmapM (project_item columns) items in
  let? rows := rmapM (λ row, rmapM (project_value row) (map fst items)) rows in
  Ok (map snd items, rows).

(** ** JOIN ([executor/join.go]) *)

Definition join_match (predicate : option Expression) (lc : list bytes) (a : Row)
    (rc : list bytes) (b : Row) : result bool :=
  match predicate with
  | None => Ok true
  | Some p =>
      let? value := rwrap "executor: evaluating JOIN predicate: %w"
                      (evaluateExpression p lc a rc b) in
      Ok (is_true value)
  end.

(** the inner loop: the combined rows of one left row, and whether it matched *)
Definition join_step (predicate : option Expression) (lc : list bytes) (a : Row) (rc : list bytes)
    (acc : list Row * bool) (b : Row) : result (list Row * bool) :=
  let '(rows, matched) := acc in
  let? isMatch := join_match predicate lc a rc b in
  Ok (if (isMatch : bool) then (rows ++ [a ++ b], true) else (rows, matched)).

Definition join_left (predicate : option Expression) (outer : bool) (lc rc : list bytes)
    (rightRows : list Row) (rows : list Row) (a : Row) : result (list Row) :=
  let? (rows, matched) := rfoldl (join_step predicate lc a rc) (rows, false) rightRows in
  Ok (if outer && negb matched then rows ++ [a ++ replicate (length rc) NullValue] else rows).

Definition join_rows (predicate : option Expression) (outer : bool) (lc : list bytes)
    (leftRows : list Row) (rc : list bytes) (rightRows : list Row) : result (list Row) :=
  rfoldl (join_left predicate outer lc rc rightRows) [] leftRows.

(** ** Aggregates ([executor/aggregate.go]) *)

Inductive aggregateCalculator :=
  | countCalculator | minCalculator | maxCalculator | sumCalculator | avgCalculator.

Definition buildAggregateCalculator (name : bytes) : result aggregateCalculator :=
  let upper := ToUpper name in
  if decide (upper = str "COUNT") then Ok countCalculator
  else if decide (upper = str "MIN") then Ok minCalculator
  else if decide (upper = str "MAX") then Ok maxCalculator
  else if decide (upper = str "SUM") then Ok sumCalculator
  else if decide (upper = str "AVG") then Ok avgCalculator
  else Err (Errorf "aggregate function %q is not implemented").

Definition aggregate_column (columnName : bytes) (columns : list bytes) : result nat :=
  match slices_Index columns columnName with
  | None => Err (Errorf "column %q does not exist")
  | Some columnIndex => Ok columnIndex
  end.

Definition is_null (v : Value) : bool := bool_decide (Kind v = ValueNull).

(** the count of rows fits [int64] *)
Definition count_rows (columnName : bytes) (columns : list bytes) (rows : list Row) : result Value :=
  let? columnIdx := aggregate_column columnName columns in
  let? count := rfoldl (λ count row,
    let? v := rindex row columnIdx in
    Ok (if is_null v then count else count + 1)) 0 rows in
  Ok (IntegerValue count).

(** [extreme]: [None] until a value is found *)
Definition extreme_step (columnIndex : nat) (minimum : bool) (extreme : option Value) (row : Row)
    : result (option Value) :=
  let? current := rindex row columnIndex in
  if is_null current then Ok extreme
  else
    match extreme with
    | None => Ok (Some current)
    | Some best =>
        let? comparison := rwrap "comparing row %d column %q: %w" (Compare current best) in
        Ok (Some (if (minimum && (comparison <? 0)) || (negb minimum && (comparison >? 0))
                  then current else best))
    end.

Definition calculateExtreme (columnName : bytes) (columns : list bytes) (rows : list Row)
    (minimum : bool) : result Value :=
  let? columnIndex := aggregate_column columnName columns in
  let? extreme := rfoldl (extreme_step columnIndex minimum) None rows in
  Ok (default NullValue extreme).

Definition sum_step (columnIndex : nat) (acc : float64 * bool) (row : Row) : result (float64 * bool) :=
  let '(sum, found) := acc in
  let? value := rindex row columnIndex in
  match Kind value with
  | ValueNull => Ok (sum, found)
  | ValueInteger => Ok (float_add sum (float_of_int (vInteger value)), true)
  | ValueFloat => Ok (float_add sum (vFloat value), true)
  | _ => Err (Errorf "SUM requires a numeric column, but column %q contains value kind %d at row %d")
  end.

Definition sum_rows (columnName : bytes) (columns : list bytes) (rows : list Row) : result Value :=
  let? columnIndex := aggregate_column columnName columns in
  let? (sum, found) := rfoldl (sum_step columnIndex) (float_zero, false) rows in
  Ok (if (found : bool) then FloatValue sum else NullValue).

Definition avg_rows (columnName : bytes) (columns : list bytes) (rows : list Row) : result Value :=
  let? sumValue := rwrap "calculating AVG sum: %w" (sum_rows columnName columns rows) in
  let? countValue := rwrap "calculating AVG count: %w" (count_rows columnName columns rows) in
  Ok (if is_null sumValue then NullValue
      else FloatValue (float_div (vFloat sumValue) (float_of_int (vInteger countValue)))).

Definition calculate (calculator : aggregateCalculator) (columnName : bytes) (columns : list bytes)
    (rows : list Row) : result Value :=
  match calculator with
  | countCalculator => count_rows columnName columns rows
  | minCalculator => calculateExtreme columnName columns rows true
  | maxCalculator => calculateExtreme columnName columns rows false
  | sumCalculator => sum_rows columnName columns rows
  | avgCalculator => avg_rows columnName columns rows
  end.

(** the string an expression that is no function call carries *)
Definition expression_string (e : Expression) : result bytes :=
  match e with
  | ColumnReference name => Ok name
  | StringLiteral s => Ok s
  | _ => Panic TypeAssertion
  end.

Definition aggregateOutputColumns (items : list SelectItem) : result (list bytes) :=
  rmapM (λ item,
    let? outputName :=
      match si_Expression item with
      | FunctionExpression call => Ok (fc_Name call)
      | e => expression_string e
      end in
    Ok (default outputName (si_Alias item))) items.

Definition resolveGroupBy (expression : Expression) (columns : list bytes) : result nat :=
  let? columnName := expression_string expression in
  match slices_Index columns columnName with
  | None => Err (Errorf "executor: GROUP BY column %q does not exist")
  | Some columnIndex => Ok columnIndex
  end.

Definition calculateRow (items : list SelectItem) (groupValue : option Value)
    (columns : list bytes) (rows : list Row) : result Row :=
  rmapM (λ item,
    match si_Expression item with
    | FunctionExpression call =>
        let? calculator := rwrap "building aggregate function %q: %w"
                             (buildAggregateCalculator (fc_Name call)) in
        rwrap "calculating %s(%s): %w" (calculate calculator (fc_Argument call) columns rows)
    | _ => rderef groupValue
    end) items.

(** the groups in the order of their first row; the map of the code from keys
    to positions is the search for the key *)
Fixpoint add_to_group (key : Value) (row : Row) (groups : list (Value * list Row))
    : list (Value * list Row) :=
  match groups with
  | [] => [(key, [row])]
  | (k, rows) :: groups =>
      if value_eqb k key then (k, rows ++ [row]) :: groups
      else (k, rows) :: add_to_group key row groups
  end.

Definition group_rows (columnIndex : nat) (rows : list Row) : result (list (Value * list Row)) :=
  rfoldl (λ groups row,
    let? key := rindex row columnIndex in
    Ok (add_to_group key row groups)) [] rows.

Definition aggregate_rows (items : list SelectItem) (groupBy : option Expression)
    (columns : list bytes) (rows : list Row) : result (list bytes * list Row) :=
  let? outputColumns := aggregateOutputColumns items in
  match groupBy with
  | None =>
      let? outputRow := calculateRow items None columns rows in
      Ok (outputColumns, [outputRow])
  | Some e =>
      let? groupColumnIndex := resolveGroupBy e columns in
      let? groups := group_rows groupColumnIndex rows in
      let? outputRows := rmapM (λ '(key, rows),
        rwrap "executor: calculating GROUP BY value %#v: %w"
          (calculateRow items (Some key) columns rows)) groups in
      Ok (outputColumns, outputRows)
  end.

(** ** Executors *)

Inductive Executor :=
  | CreateTableExecutor (schema : Table)
  | InsertExecutor (TableName : bytes) (Columns : list bytes) (Values : list (list Expression))
  | ScanExecutor (TableName : bytes)
  | FilterExecutor (Source : Executor) (Predicate : Expression)
  | OrderExecutor (Source : Executor) (orderBy : list OrderBy)
  | OffsetExecutor (Source : Executor) (Offset : Z)
  | LimitExecutor (Source : Executor) (Limit : Z)
  | ProjectionExecutor (Source : Executor) (Items : list SelectItem)
  | AggregateExecutor (Source : Executor) (Items : list SelectItem) (GroupBy : option Expression)
  | NestedLoopJoinExecutor (Left Right : Executor) (Predicate : option Expression) (Outer : bool)
  | UpdateExecutor (TableName : bytes) (Source : Executor) (Assignments : gmap bytes Expression)
  | DeleteExecutor (TableName : bytes) (Source : Executor).

Module Executor.

(** every kind of node has an executor *)
Fixpoint Build (node : Node) : result Executor :=
  match node with
  | CreateTableNode schema => Ok (CreateTableExecutor schema)
  | InsertNode tableName columns values => Ok (InsertExecutor tableName columns values)
  | ScanNode tableName => Ok (ScanExecutor tableName)
  | FilterNode node predicate =>
      let? source := rwrap "executor: building filter source: %w" (Build node) in
      Ok (FilterExecutor source predicate)
  | UpdateNode tableName node assignments =>
      let? source := rwrap "executor: building UPDATE source: %w" (Build node) in
      Ok (UpdateExecutor tableName source assignments)
  | DeleteNode tableName node =>
      let? source := rwrap "executor: building DELETE source: %w" (Build node) in
      Ok (DeleteExecutor tableName source)
  | OrderNode node orderBy =>
      let? source := rwrap "executor: building ORDER BY source: %w" (Build node) in
      Ok (OrderExecutor source orderBy)
  | OffsetNode node offset =>
      let? source := rwrap "executor: building OFFSET source: %w" (Build node) in
      Ok (OffsetExecutor source offset)
  | LimitNode node limit =>
      let? source := rwrap "executor: building LIMIT source: %w" (Build node) in
      Ok (LimitExecutor source limit)
  | AggregateNode node items groupBy =>
      let? source := rwrap "executor: building aggregate source: %w" (Build node) in
      Ok (AggregateExecutor source items groupBy)
  | ProjectionNode node items =>
      let? source := rwrap "executor: building projection source: %w" (Build node) in
      Ok (ProjectionExecutor source items)
  | NestedLoopJoinNode l r predicate outer =>
      let? lhs := rwrap "executor: building left join input: %w" (Build l) in
      let? rhs := rwrap "executor: building right join input: %w" (Build r) in
      Ok (NestedLoopJoinExecutor lhs rhs predicate outer)
  end.

End Executor.

(** The iteration order of a Go map is not specified: [map_order] is any. *)
Class MapOrder := {
  map_order : gmap bytes Expression → list (bytes * Expression);
  map_order_perm m : map_order m ≡ₚ map_to_list m;
}.

(** the order of [map_to_list], for concrete runs *)
Definition canonical_order : MapOrder := {| map_order := map_to_list; map_order_perm m := reflexivity _ |}.

Section execute.
Context {T : Type} `{!Transaction T} `{!MapOrder}.

(** [txn.GetTable], and its two checks *)
Definition load_table (tableName : bytes) : ST T Table :=
  let! table := swrap "executor: loading table %q: %w" (txnGetTable tableName) in
  match table with
  | None => sthrow (Errorf "executor: table %q does not exist")
  | Some table => sret table
  end.

Definition insert_row (tableName : bytes) (columns : list bytes) (table : Table)
    (inserted : Z) (exps : list Expression) : ST T Z :=
  let! row := slift (rmapM (λ e,
    rwrap "executor: converting row %d value %d: %w" (ValueFromExpression e)) exps) in
  let! fullRow := slift (rwrap "executor: preparing row %d: %w" (makeInsertRow table columns row)) in
  swrap "executor: inserting row %d: %w" (txnCreateRow tableName fullRow) ;;!
  sret (inserted + 1).

Definition InsertExecutor_Execute (tableName : bytes) (columns : list bytes)
    (values : list (list Expression)) : ST T ResultSet :=
  let! table := load_table tableName in
  let! inserted := sfoldl (insert_row tableName columns table) 0 values in
  sret (InsertResult inserted).

Definition ScanExecutor_Execute (tableName : bytes) : ST T ResultSet :=
  let! table := load_table tableName in
  let! rows := swrap "executor: scanning table %q: %w" (txnScanTable table) in
  sret (RowsResult (map Name (Columns table)) rows).

(** an operation on the rows of its source *)
Definition on_rows (msg : string) (source : ST T ResultSet)
    (f : list bytes → list Row → result ResultSet) : ST T ResultSet :=
  let! sourceResult := swrap msg source in
  let! (columns, rows) := slift (as_rows sourceResult) in
  slift (f columns rows).

(** the assignments of an UPDATE resolved once *)
Definition resolve_assignment (table : Table) (assignment : bytes * Expression) : result (nat * Value) :=
  let '(columnName, expression) := assignment in
  let? columnIndex := rwrap "executor: resolving update column %q: %w" (ColumnIndex table columnName) in
  let? value := rwrap "executor: converting update value for column %q: %w" (ValueFromExpression expression) in
  Ok (columnIndex, value).

Definition assign (row : Row) (assignment : nat * Value) : result Row :=
  rstore row assignment.1 assignment.2.

Definition update_row (table : Table) (assignments : list (nat * Value)) (updated : Z) (row : Row) : ST T Z :=
  let! oldPrimaryKey := slift (rwrap "executor: reading primary key from row %d: %w"
                                 (PrimaryKeyValue table row)) in
  let! updatedRow := slift (rfoldl assign row assignments) in
  swrap "executor: updating row %d: %w" (txnUpdateRow table oldPrimaryKey updatedRow) ;;!
  sret (updated + 1).

Definition UpdateExecutor_Execute (tableName : bytes) (source : ST T ResultSet)
    (assignments : gmap bytes Expression) : ST T ResultSet :=
  let! table := load_table tableName in
  let! assignments := slift (rmapM (resolve_assignment table) (map_order assignments)) in
  let! sourceResult := source in
  let! (_, rows) := slift (as_rows sourceResult) in
  let! updated := sfoldl (update_row table assignments) 0 rows in
  sret (UpdateResult updated).

Definition delete_row (table : Table) (deleted : Z) (row : Row) : ST T Z :=
  let! pk := slift (rwrap "executor: reading primary key from row %d: %w" (PrimaryKeyValue table row)) in
  swrap "executor: deleting raw %d: %w" (txnDeleteRow table pk) ;;!
  sret (deleted + 1).

Definition DeleteExecutor_Execute (tableName : bytes) (source : ST T ResultSet) : ST T ResultSet :=
  let! table := load_table tableName in
  let! sourceResult := source in
  let! (_, rows) := slift (as_rows sourceResult) in
  let! deleted := sfoldl (delete_row table) 0 rows in
  sret (DeleteResult deleted).

(** the left input is executed first *)
Definition NestedLoopJoinExecutor_Execute (lhs rhs : ST T ResultSet) (predicate : option Expression)
    (outer : bool) : ST T ResultSet :=
  let! leftResult := swrap "executor: executing left join input: %w" lhs in
  let! (leftColumns, leftRows) := slift (as_rows leftResult) in
  let! rightResult := swrap "executor: executing right join input: %w" rhs in
  let! (rightColumns, rightRows) := slift (as_rows rightResult) in
  let! rows := slift (join_rows predicate outer leftColumns leftRows rightColumns rightRows) in
  sret (RowsResult (leftColumns ++ rightColumns) rows).

Definition CreateTableExecutor_Execute (schema : Table) : ST T ResultSet :=
  txnCreateTable schema ;;! sret (CreateTableResult (tbl_Name schema)).

Definition FilterExecutor_Execute (source : ST T ResultSet) (predicate : Expression) : ST T ResultSet :=
  on_rows "executor: executing filter source: %w" source (λ columns rows,
    let? rows := filter_rows predicate columns rows in Ok (RowsResult columns rows)).

Definition OrderExecutor_Execute (source : ST T ResultSet) (orderBy : list OrderBy) : ST T ResultSet :=
  on_rows "executor: executing ORDER BY source: %w" source (λ columns rows,
    let? rows := order_rows orderBy columns rows in Ok (RowsResult columns rows)).

Definition OffsetExecutor_Execute (source : ST T ResultSet) (offset : Z) : ST T ResultSet :=
  on_rows "executor: executing OFFSET source: %w" source (λ columns rows,
    let? rows := offset_rows offset rows in Ok (RowsResult columns rows)).

Definition LimitExecutor_Execute (source : ST T ResultSet) (limit : Z) : ST T ResultSet :=
  on_rows "executor: executing LIMIT source: %w" source (λ columns rows,
    let? rows := limit_rows limit rows in Ok (RowsResult columns rows)).

Definition ProjectionExecutor_Execute (source : ST T ResultSet) (items : list SelectItem) : ST T ResultSet :=
  on_rows "executor: executing projection source: %w" source (λ columns rows,
    let? (columns, rows) := project_rows items columns rows in Ok (RowsResult columns rows)).

Definition AggregateExecutor_Execute (source : ST T ResultSet) (items : list SelectItem) (groupBy : option Expression)
    : ST T ResultSet :=
  on_rows "executor: executing aggregate source: %w" source (λ columns rows,
    let? (columns, rows) := aggregate_rows items groupBy columns rows in Ok (RowsResult columns rows)).

Fixpoint Execute (e : Executor) : ST T ResultSet :=
  match e with
  | CreateTableExecutor schema => CreateTableExecutor_Execute schema
  | InsertExecutor tableName columns values => InsertExecutor_Execute tableName columns values
  | ScanExecutor tableName => ScanExecutor_Execute tableName
  | FilterExecutor source predicate => FilterExecutor_Execute (Execute source) predicate
  | OrderExecutor source orderBy => OrderExecutor_Execute (Execute source) orderBy
  | OffsetExecutor source offset => OffsetExecutor_Execute (Execute source) offset
  | LimitExecutor source limit => LimitExecutor_Execute (Execute source) limit
  | ProjectionExecutor source items => ProjectionExecutor_Execute (Execute source) items
  | AggregateExecutor source items groupBy => AggregateExecutor_Execute (Execute source) items groupBy
  | NestedLoopJoinExecutor lhs rhs predicate outer =>
      NestedLoopJoinExecutor_Execute (Execute lhs) (Execute rhs) predicate outer
  | UpdateExecutor tableName source assignments =>
      UpdateExecutor_Execute tableName (Execute source) assignments
  | DeleteExecutor tableName source => DeleteExecutor_Execute tableName (Execute source)
  end.

End execute.
