(* ===== verification/RowsSpec.v ===== *)
(** * What the operators on rows compute

    Declarative counterparts of the loops of the executor: filters, joins,
    stable sorting, grouping and the aggregate functions. *)

From S2P Require Import Prelude Bytes Types Lexer Ast Schema Planner Sort Expr Transaction Executor.

(** every row has one value per column *)
Definition rectangular (columns : list bytes) (rows : list Row) : Prop :=
  Forall (λ row, length row = length columns) rows.

(** ** WHERE and HAVING *)

Definition satisfies (predicate : Expression) (columns : list bytes) (row : Row) : bool :=
  match evaluateExpression predicate columns row columns row with
  | Ok v => is_true v
  | _ => false
  end.

Lemma filter_rows_Ok p columns rows out :
  filter_rows p columns rows = Ok out → out = filter (λ row, satisfies p columns row = true) rows.
Proof.
  revert out. induction rows as [|row rows IH]; intros out; cbn [filter_rows]; [by intros [= <-]|].
  intros H. inv_ok. rewrite filter_cons. rewrite <-(IH _ H0).
  assert (satisfies p columns row = is_true x) as -> by (unfold satisfies; by rewrite H).
  by destruct (is_true x).
Qed.

Lemma filter_rows_no_panic p columns rows :
  rectangular columns rows → no_panic (filter_rows p columns rows).
Proof.
  induction 1 as [|row rows Hrow _ IH]; [done|]. cbn [filter_rows].
  apply no_panic_bind; [apply no_panic_wrap; auto with go|]. intros v _. by apply no_panic_bind.
Qed.

(** ** JOIN *)

Definition matches (predicate : option Expression) (lc rc : list bytes) (a b : Row) : bool :=
  match join_match predicate lc a rc b with Ok m => m | _ => false end.

(** the rows a left row contributes *)
Definition join_of (predicate : option Expression) (outer : bool) (lc rc : list bytes)
    (rightRows : list Row) (a : Row) : list Row :=
  match filter (λ b, matches predicate lc rc a b = true) rightRows with
  | [] => if outer then [a ++ replicate (length rc) NullValue] else []
  | bs => map (app a) bs
  end.

Lemma join_inner_Ok p lc rc a rightRows rows m out :
  rfoldl (join_step p lc a rc) (rows, m) rightRows = Ok out →
  out.1 = rows ++ map (app a) (filter (λ b, matches p lc rc a b = true) rightRows) ∧
  out.2 = m || negb (bool_decide (filter (λ b, matches p lc rc a b = true) rightRows = [])).
Proof.
  revert rows m. induction rightRows as [|b bs IH]; intros rows m; cbn [rfoldl].
  - intros [= <-]. rewrite filter_nil. cbn. by rewrite app_nil_r, orb_false_r.
  - intros H. unfold join_step in H at 1. inv_ok. rewrite filter_cons.
    assert (matches p lc rc a b = x0) as -> by (unfold matches; by rewrite H).
    destruct x0; apply IH in H0 as [-> ->].
    + rewrite decide_True by done. cbn. rewrite <-app_assoc. split; [done|]. by destruct m.
    + rewrite decide_False by done. done.
Qed.

Lemma join_rows_Ok p outer lc leftRows rc rightRows out :
  join_rows p outer lc leftRows rc rightRows = Ok out →
  out = concat (map (join_of p outer lc rc rightRows) leftRows).
Proof.
  unfold join_rows.
  assert (∀ rows, rfoldl (join_left p outer lc rc rightRows) rows leftRows = Ok out →
    out = rows ++ concat (map (join_of p outer lc rc rightRows) leftRows)) as Hl; [|apply Hl].
  induction leftRows as [|a l IH]; intros rows; cbn [rfoldl map concat]; [intros [= ->]; by rewrite app_nil_r|].
  intros H. inv_ok. apply IH in H0 as ->. rewrite app_assoc. f_equal.
  unfold join_left in H. inv_ok. apply join_inner_Ok in H as [H1 H2]. destruct x0 as [rows' m].
  cbn in H1, H2. injection H0 as <-. unfold join_of. rewrite H2.
  destruct (filter _ rightRows) as [|b bs]; cbn in *; subst.
  - rewrite andb_true_r, !app_nil_r. destruct outer; [done|by rewrite app_nil_r].
  - by rewrite andb_false_r.
Qed.

Lemma join_match_no_panic p lc a rc b :
  length a = length lc → length b = length rc → no_panic (join_match p lc a rc b).
Proof.
  intros Ha Hb. destruct p as [e|]; cbn; [|done].
  apply no_panic_bind; [|done]. apply no_panic_wrap. auto with go.
Qed.

(** an outer join keeps every left row *)
Lemma join_of_nonempty p lc rc rightRows a : join_of p true lc rc rightRows a ≠ [].
Proof. unfold join_of. by destruct (filter _ rightRows). Qed.

Lemma join_rows_no_panic p outer lc leftRows rc rightRows :
  rectangular lc leftRows → rectangular rc rightRows →
  no_panic (join_rows p outer lc leftRows rc rightRows).
Proof.
  intros Hl Hr. apply (rfoldl_no_panic (λ _, True)); [done|]. intros rows a Ha _. split; [|done].
  apply no_panic_bind; [|by intros []]. apply (rfoldl_no_panic (λ _, True)); [done|].
  intros [rows' m] b Hb _. split; [|done]. apply no_panic_bind; [|done].
  pose proof (proj1 (Forall_forall _ _) Hl) as Hl'. pose proof (proj1 (Forall_forall _ _) Hr) as Hr'.
  by apply join_match_no_panic; [apply Hl'|apply Hr'].
Qed.

Lemma join_rows_rectangular p outer lc leftRows rc rightRows out :
  rectangular lc leftRows → rectangular rc rightRows →
  join_rows p outer lc leftRows rc rightRows = Ok out → rectangular (lc ++ rc) out.
Proof.
  intros Hl Hr ->%join_rows_Ok. unfold rectangular in *. rewrite Forall_concat, Forall_map.
  eapply Forall_impl; [exact Hl|]. intros a Ha. cbn in Ha. unfold join_of.
  destruct (filter _ rightRows) as [|b bs] eqn:E.
  - destruct outer; [|done]. repeat constructor. rewrite !length_app, length_replicate. lia.
  - rewrite <-E, Forall_map, Forall_forall. intros b' [_ Hin]%list_elem_of_filter.
    pose proof (proj1 (Forall_forall _ _) Hr b' Hin). cbn in *. rewrite !length_app. lia.
Qed.

(** ** LIMIT and OFFSET *)

Lemma offset_rows_Ok n rows : 0 ≤ n → offset_rows n rows = Ok (drop (Z.to_nat n) rows).
Proof.
  intros Hn. unfold offset_rows. destruct (Z.gtb_spec n (Z.of_nat (length rows))) as [Hlt|Hge].
  - rewrite (proj2 (Z.ltb_ge _ _)), Nat2Z.id by lia. rewrite !drop_ge by lia. done.
  - by rewrite (proj2 (Z.ltb_ge _ _)) by lia.
Qed.

Lemma limit_rows_Ok n rows : 0 ≤ n → limit_rows n rows = Ok (take (Z.to_nat n) rows).
Proof.
  intros Hn. unfold limit_rows. destruct (Z.gtb_spec n (Z.of_nat (length rows))) as [Hlt|Hge].
  - rewrite (proj2 (Z.ltb_ge _ _)), Nat2Z.id by lia. rewrite !take_ge by lia. done.
  - by rewrite (proj2 (Z.ltb_ge _ _)) by lia.
Qed.

(** ** Projection *)

(** the value of an item in a row of the given columns *)
Definition item_value (columns : list bytes) (row : Row) (item : SelectItem) : option Value :=
  match si_Expression item with
  | ColumnReference name => slices_Index columns name ≫= (row !!.)
  | e => match ValueFromExpression e with Ok v => Some v | _ => None end
  end.

(** its name: the alias, the column's own name, or [?column?] *)
Definition item_name (item : SelectItem) : bytes :=
  match si_Alias item, si_Expression item with
  | Some alias, _ => alias
  | None, ColumnReference name => name
  | None, _ => str "?column?"
  end.

(** an item that has no value in any row: it names no column, or it is not a
    column or a literal *)
Definition unavailable (columns : list bytes) (item : SelectItem) : Prop :=
  match si_Expression item with
  | ColumnReference name => name ∉ columns
  | FunctionExpression _ | OperationExpression _ _ _ => True
  | _ => False
  end.

Lemma project_item_available columns item :
  match project_item columns item with
  | Ok _ => ¬ unavailable columns item
  | Err _ => unavailable columns item
  | Panic _ => False
  end.
Proof.
  unfold project_item, unavailable. destruct (si_Expression item); cbn; try tauto.
  destruct (slices_Index columns name) as [i|] eqn:Hi; cbn.
  - intros Hn. apply slices_Index_None in Hn. congruence.
  - by apply slices_Index_None.
Qed.

Lemma project_rows_Ok items columns rows out :
  project_rows items columns rows = Ok out →
  out.1 = map item_name items ∧
  Forall2 (λ row row', map Some row' = map (item_value columns row) items) rows out.2.
Proof.
  unfold project_rows. intros H. inv_ok. apply rmapM_Ok in H, H0. cbn [fst snd]. split.
  - clear H0. induction H as [|item [p name] items ps Hi _ IH]; cbn; [done|]. f_equal; [|done].
    unfold project_item in Hi. unfold item_name.
    destruct (si_Expression item), (si_Alias item); try (by inv_ok); cbn in Hi;
      try (destruct (slices_Index columns _); by inv_ok); by inv_ok.
  - eapply Forall2_impl; [exact H0|]. intros row row' Hrow. cbn in Hrow. apply rmapM_Ok in Hrow.
    clear H0. revert row' Hrow. induction H as [|item [p name] items ps Hi _ IH]; intros row' Hrow;
      cbn in Hrow; inversion Hrow as [|? v ? row'' Hv Hrow']; subst; [done|].
    cbn. f_equal; [|by apply IH]. unfold project_item in Hi. unfold item_value.
    destruct (si_Expression item) eqn:He; cbn in Hi; try by (inv_ok; cbn in Hv; inv_ok).
    destruct (slices_Index columns name0); inv_ok. cbn in Hv |- *. by inv_ok.
Qed.

(** the items are resolved before the first row, so also for no rows *)
Lemma project_rows_available items columns rows :
  match project_rows items columns rows with
  | Ok _ => Forall (λ item, ¬ unavailable columns item) items
  | Err _ => Exists (unavailable columns) items
  | Panic _ => True
  end.
Proof.
  unfold project_rows. destruct (rmapM (project_item columns) items) as [ps|err|] eqn:Hps; cbn [rbind]; [| |done].
  - assert (Forall (λ item, ¬ unavailable columns item) items) as Hall.
    { apply rmapM_Ok in Hps. apply Forall_forall. intros item [i Hi]%list_elem_of_lookup.
      destruct (Forall2_lookup_l _ _ _ _ _ Hps Hi) as (p & _ & Hp).
      pose proof (project_item_available columns item) as Ha. by rewrite Hp in Ha. }
    destruct (rmapM _ rows) as [out|err|] eqn:Hout; cbn [rbind]; [done| |done].
    apply rmapM_Err in Hout as (row & _ & Hp). apply rmapM_Err in Hp as (p & _ & Hp).
    destruct p as [i|v]; cbn in Hp; [|done]. unfold rindex in Hp. by destruct (row !! i).
  - apply rmapM_Err in Hps as (item & Hin & He). apply Exists_exists. exists item. split; [done|].
    pose proof (project_item_available columns item) as Ha. by rewrite He in Ha.
Qed.

Lemma ValueFromExpression_no_panic e : no_panic (ValueFromExpression e).
Proof. by destruct e. Qed.
#[export] Hint Resolve ValueFromExpression_no_panic : go.

Lemma project_item_no_panic columns item : no_panic (project_item columns item).
Proof.
  unfold project_item. destruct (si_Expression item); try done; cbn.
  by destruct (slices_Index columns name).
Qed.

Lemma project_rows_no_panic items columns rows :
  rectangular columns rows → no_panic (project_rows items columns rows).
Proof.
  intros Hr. unfold project_rows. apply no_panic_bind.
  { apply rmapM_no_panic, Forall_forall. intros i _. apply project_item_no_panic. }
  intros ps Hps%rmapM_Ok. apply no_panic_bind; [|done]. apply rmapM_no_panic.
  eapply Forall_impl; [exact Hr|]. intros row Hrow. apply rmapM_no_panic, Forall_map.
  apply Forall_forall. intros [p name] Hin.
  apply list_elem_of_lookup in Hin as [i Hi].
  destruct (Forall2_lookup_r _ _ _ _ _ Hps Hi) as (item & _ & Hitem).
  destruct p as [j|v]; cbn; [|done]. apply no_panic_rindex. rewrite Hrow.
  unfold project_item in Hitem. destruct (si_Expression item); cbn in Hitem; inv_ok; try done.
  destruct (slices_Index columns name0) as [j'|] eqn:Hj; inv_ok. by eapply slices_Index_lt.
Qed.

Lemma project_rows_rectangular items columns rows out :
  project_rows items columns rows = Ok out → rectangular out.1 out.2.
Proof.
  intros [-> Hr]%project_rows_Ok. unfold rectangular. rewrite length_map.
  induction Hr as [|row row' rows rows' Hrow _ IH]; constructor; [|done].
  apply (f_equal length) in Hrow. by rewrite !length_map in Hrow.
Qed.
