(* ===== verification/OrderSpec.v ===== *)
(** * ORDER BY, GROUP BY and the aggregate functions *)

From S2P Require Import Prelude Bytes Types Lexer Ast Schema Planner Sort Expr Transaction Executor RowsSpec.

(** the rows of a table whose columns have the types [tys] *)
Definition typed_value (t : DataType) (v : Value) : Prop := of_type t v ∧ value_wf v.
Definition typed (tys : list DataType) (row : Row) : Prop := Forall2 typed_value tys row.

Lemma value_wf_not_nan v : value_wf v → value_not_nan v.
Proof. intros Hv Hk. unfold value_wf in Hv. rewrite Hk in Hv. by destruct Hv as (_ & _ & ?). Qed.

Definition value_cmp (v w : Value) : Z := sign (lex (value_key v) (value_key w)).

Lemma typed_compare t v w : typed_value t v → typed_value t w → Compare v w = Ok (value_cmp v w).
Proof. intros [Hv Wv] [Hw Ww]. by apply (Compare_lex t); try apply value_wf_not_nan. Qed.

Lemma value_cmp_preorder P : preorder_on P value_cmp.
Proof.
  unfold value_cmp. split; intros; [by rewrite lex_antisym, sign_opp|].
  rewrite sign_le in *. by eapply lex_trans.
Qed.

(** equality of the grouping map, on typed values *)
Lemma value_eqb_cmp t v w :
  typed_value t v → typed_value t w → value_eqb v w = true ↔ value_cmp v w = 0.
Proof.
  intros [Hv Wv] [Hw Ww]. rewrite <-(value_eqb_key t) by done. unfold value_cmp.
  by destruct (lex _ _).
Qed.

(** ** ORDER BY *)

Definition field_cmp (key : OrderBy * nat) (a b : Row) : Z :=
  match a !! key.2, b !! key.2 with
  | Some x, Some y =>
      if decide (ob_Direction key.1 = OrderDescending) then - value_cmp x y else value_cmp x y
  | _, _ => 0
  end.

Lemma typed_lookup tys row i : typed tys row → (i < length tys)%nat → ∃ t v, tys !! i = Some t ∧ row !! i = Some v ∧ typed_value t v.
Proof.
  intros Hr Hi. destruct (lookup_lt_is_Some_2 tys i Hi) as [t Ht].
  destruct (Forall2_lookup_l _ _ _ _ _ Hr Ht) as (v & Hv & Htv). by exists t, v.
Qed.

Lemma field_cmp_preorder tys key :
  (key.2 < length tys)%nat → preorder_on (typed tys) (field_cmp key).
Proof.
  intros Hk. destruct (value_cmp_preorder (λ _, True)) as [Ha Ht]. unfold field_cmp. split.
  - intros a b _ _. destruct (a !! key.2) as [x|], (b !! key.2) as [y|]; try done.
    rewrite (Ha x y) by done. case_decide; lia.
  - intros a b c Hra Hrb Hrc.
    destruct (typed_lookup _ _ _ Hra Hk) as (? & x & _ & -> & _).
    destruct (typed_lookup _ _ _ Hrb Hk) as (? & y & _ & -> & _).
    destruct (typed_lookup _ _ _ Hrc Hk) as (? & z & _ & -> & _).
    case_decide; [|by apply Ht]. intros ??. pose proof (Ht z y x I I I).
    pose proof (Ha x y I I). pose proof (Ha y z I I). pose proof (Ha x z I I). lia.
Qed.

Definition row_cmp (keys : list (OrderBy * nat)) : Row → Row → Z := lex_cmp (map field_cmp keys).

Lemma row_cmp_preorder tys keys :
  Forall (λ key, (key.2 < length tys)%nat) keys → preorder_on (typed tys) (row_cmp keys).
Proof.
  intros Hk. apply lex_cmp_preorder, Forall_map. eapply Forall_impl; [exact Hk|].
  intros key. apply field_cmp_preorder.
Qed.

Lemma compare_rows_typed tys keys a b :
  Forall (λ key, (key.2 < length tys)%nat) keys → typed tys a → typed tys b →
  compare_rows keys a b = Ok (row_cmp keys a b).
Proof.
  intros Hk Ha Hb. induction Hk as [|[order idx] keys Hidx _ IH]; [done|].
  cbn [compare_rows]. cbn in Hidx.
  destruct (typed_lookup _ _ _ Ha Hidx) as (t & x & Ht & Hx & Htx).
  destruct (typed_lookup _ _ _ Hb Hidx) as (t' & y & Ht' & Hy & Hty).
  rewrite Ht in Ht'. injection Ht' as <-.
  unfold rindex. rewrite Hx, Hy. cbn [rbind]. rewrite (typed_compare t) by done. cbn [rwrap rbind].
  unfold row_cmp. cbn [map lex_cmp]. unfold field_cmp at 1 3. cbn [fst snd]. rewrite Hx, Hy.
  rewrite IH. unfold row_cmp. case_decide; destruct (Z.eqb_spec (value_cmp x y) 0) as [E|E].
  - by rewrite E.
  - by destruct (Z.eqb_spec (- value_cmp x y) 0); [lia|].
  - done.
  - done.
Qed.

Lemma order_key_lt columns orders keys :
  rmapM (order_key columns) orders = Ok keys →
  Forall (λ key, (key.2 < length columns)%nat) keys.
Proof.
  intros H%rmapM_Ok. apply Forall_forall. intros key [i Hi]%list_elem_of_lookup.
  destruct (Forall2_lookup_r _ _ _ _ _ H Hi) as (o & _ & Ho). unfold order_key in Ho.
  destruct (slices_Index columns (ob_Column o)) eqn:E; inv_ok. by eapply slices_Index_lt.
Qed.

(** on typed rows the sort succeeds and is the stable sort *)
Lemma order_rows_typed tys orders columns keys rows :
  length tys = length columns → Forall (typed tys) rows →
  rmapM (order_key columns) orders = Ok keys →
  ∃ out, order_rows orders columns rows = Ok out ∧ stable_sort_of (typed tys) (row_cmp keys) rows out.
Proof.
  intros Hlen Hrows Hkeys. unfold order_rows. rewrite Hkeys. cbn [rbind].
  pose proof (order_key_lt _ _ _ Hkeys) as Hk. rewrite <-Hlen in Hk.
  destruct (row_cmp_preorder tys keys Hk) as [Ha Ht].
  apply SortStableFunc_spec; try done. intros. by eapply compare_rows_typed.
Qed.

Lemma compare_rows_no_panic (columns : list bytes) keys a b :
  Forall (λ key, (key.2 < length columns)%nat) keys →
  length a = length columns → length b = length columns → no_panic (compare_rows keys a b).
Proof.
  intros Hk Ha Hb. induction Hk as [|[order idx] keys Hidx _ IH]; [done|]. cbn in *.
  apply no_panic_bind; [apply no_panic_rindex; lia|intros x _].
  apply no_panic_bind; [apply no_panic_rindex; lia|intros y _].
  apply no_panic_bind; [apply no_panic_wrap, Compare_no_panic|intros c _]. by destruct (c =? 0).
Qed.

Lemma order_rows_no_panic orders columns rows :
  rectangular columns rows → no_panic (order_rows orders columns rows).
Proof.
  intros Hr. unfold order_rows. apply no_panic_bind.
  - apply rmapM_no_panic, Forall_forall. intros o _. unfold order_key. by destruct (slices_Index _ _).
  - intros keys Hk%order_key_lt. apply SortStableFunc_no_panic.
    intros a b Ha Hb. pose proof (proj1 (Forall_forall _ _) Hr) as Hr'.
    by apply (compare_rows_no_panic columns); [|apply Hr'|apply Hr'].
Qed.

(** ** Grouping *)

Definition same_key (idx : nat) (key : Value) (row : Row) : bool :=
  match row !! idx with Some v => value_eqb key v | None => false end.

Record grouped (idx : nat) (rows : list Row) (groups : list (Value * list Row)) : Prop := {
  (** each group holds the rows of its key, in their order, and is not empty *)
  grp_rows key rs : (key, rs) ∈ groups → rs = filter (λ row, same_key idx key row = true) rows ∧ rs ≠ [];
  (** the key is the value of the group's first row *)
  grp_key key rs : (key, rs) ∈ groups → ∃ row, head rs = Some row ∧ row !! idx = Some key;
  (** no two groups have equal keys *)
  grp_distinct i j g g' : groups !! i = Some g → groups !! j = Some g' →
    value_eqb g.1 g'.1 = true → i = j;
  (** every row has a group *)
  grp_all row : row ∈ rows → ∃ key rs, (key, rs) ∈ groups ∧ row ∈ rs;
}.

(** the values that stand in one group: equal in the order, NULL with NULL *)
Definition same_value (v w : Value) : Prop := value_cmp v w = 0.
#[export] Instance same_value_dec v w : Decision (same_value v w).
Proof. unfold same_value. apply _. Defined.

#[export] Instance same_value_equiv : Equivalence same_value.
Proof.
  destruct (value_cmp_preorder (λ _, True)) as [Ha Ht]. unfold same_value. split.
  - intros v. pose proof (Ha v v I I). lia.
  - intros v w. rewrite (Ha v w) by done. lia.
  - intros u v w. pose proof (Ht u v w I I I). pose proof (Ht w v u I I I).
    pose proof (Ha u v I I). pose proof (Ha v w I I). pose proof (Ha u w I I). lia.
Qed.

(** the grouping map's equality on the values of a typed column *)
Lemma value_eqb_equiv t :
  (∀ v, typed_value t v → value_eqb v v = true) ∧
  (∀ v w, typed_value t v → typed_value t w → value_eqb v w = true → value_eqb w v = true) ∧
  (∀ u v w, typed_value t u → typed_value t v → typed_value t w →
     value_eqb u v = true → value_eqb v w = true → value_eqb u w = true).
Proof.
  assert (∀ v w, typed_value t v → typed_value t w → value_eqb v w = true ↔ same_value v w) as Heq
    by apply value_eqb_cmp.
  repeat split; intros *; intros; rewrite Heq in * by done; [done|by symmetry|by etransitivity].
Qed.

Lemma add_to_group_spec key row groups :
  add_to_group key row groups =
    match list_find (λ g, value_eqb g.1 key = true) groups with
    | Some (i, (k, rs)) => <[i := (k, rs ++ [row])]> groups
    | None => groups ++ [(key, [row])]
    end.
Proof.
  induction groups as [|[k rs] groups IH]; [done|]. cbn [add_to_group list_find].
  destruct (value_eqb k key) eqn:E.
  - rewrite decide_True by (by cbn). done.
  - rewrite decide_False by (cbn; by rewrite E). rewrite IH.
    by destruct (list_find _ groups) as [[i [k' rs']]|].
Qed.

Section grouping.
Context (t : DataType) (idx : nat).

Definition keyed (row : Row) : Prop := ∃ v, row !! idx = Some v ∧ typed_value t v.

Lemma group_key_typed rows groups key rs :
  Forall keyed rows → grouped idx rows groups → (key, rs) ∈ groups → typed_value t key.
Proof.
  intros Hrows Hg Hin. destruct (grp_key _ _ _ Hg _ _ Hin) as (row & Hhead & Hrow).
  destruct (grp_rows _ _ _ Hg _ _ Hin) as [Hrs _].
  assert (row ∈ rs) as Hin' by (destruct rs; simplify_eq/=; set_solver).
  rewrite Hrs in Hin'. apply list_elem_of_filter in Hin' as [_ Hin'].
  destruct (proj1 (Forall_forall _ _) Hrows row Hin') as (v & Hv & Hvt). congruence.
Qed.

Lemma same_key_Some key row v : row !! idx = Some v → same_key idx key row = value_eqb key v.
Proof. unfold same_key. by intros ->. Qed.

Lemma grouped_new rows groups row key :
  Forall keyed rows → grouped idx rows groups → row !! idx = Some key → typed_value t key →
  (∀ g, g ∈ groups → value_eqb g.1 key ≠ true) →
  grouped idx (rows ++ [row]) (groups ++ [(key, [row])]).
Proof.
  intros Hrows Hg Hkey Ht Hnew. destruct (value_eqb_equiv t) as (Hrefl & Hsym & Htrans).
  split.
  - intros k rs [Hin|[= -> ->]%list_elem_of_singleton]%elem_of_app.
    + destruct (grp_rows _ _ _ Hg _ _ Hin) as [-> ?]. split; [|done].
      rewrite filter_app, filter_cons, (same_key_Some _ _ _ Hkey).
      rewrite decide_False by apply (Hnew _ Hin). by rewrite filter_nil, app_nil_r.
    + split; [|done]. rewrite filter_app, filter_cons, (same_key_Some _ _ _ Hkey), Hrefl by done.
      rewrite decide_True, filter_nil by done.
      assert (filter (λ r, same_key idx key r = true) rows = []) as ->; [|done].
      apply elem_of_nil_inv. intros r [Hr Hin]%list_elem_of_filter.
      destruct (grp_all _ _ _ Hg r Hin) as (k & rs & Hk & Hrs).
      destruct (grp_rows _ _ _ Hg _ _ Hk) as [-> _]. apply list_elem_of_filter in Hrs as [Hrs _].
      destruct (proj1 (Forall_forall _ _) Hrows r Hin) as (v & Hv & Hvt).
      rewrite (same_key_Some _ _ _ Hv) in Hr. rewrite (same_key_Some _ _ _ Hv) in Hrs. apply (Hnew _ Hk).
      apply (Htrans k v key); [by eapply group_key_typed|done|done|done|]. by apply Hsym.
  - intros k rs [Hin|[= -> ->]%list_elem_of_singleton]%elem_of_app; [by apply Hg|by exists row].
  - intros i j g g' Hi Hj Heq.
    apply lookup_snoc_Some in Hi as [[Hil Hi]|[-> <-]]; apply lookup_snoc_Some in Hj as [[Hjl Hj]|[-> <-]];
      [by eapply grp_distinct| | |done].
    + by destruct (Hnew _ (list_elem_of_lookup_2 _ _ _ Hi)).
    + destruct (Hnew _ (list_elem_of_lookup_2 _ _ _ Hj)). apply Hsym; [done| |done].
      destruct g'. eapply group_key_typed; [done..|]. by eapply list_elem_of_lookup_2.
  - intros r [Hin| ->%list_elem_of_singleton]%elem_of_app.
    + destruct (grp_all _ _ _ Hg r Hin) as (k & rs & ? & ?). exists k, rs. set_solver.
    + exists key, [row]. set_solver.
Qed.

Lemma grouped_old rows groups row key i k rs :
  Forall keyed rows → grouped idx rows groups → row !! idx = Some key → typed_value t key →
  groups !! i = Some (k, rs) → value_eqb k key = true →
  grouped idx (rows ++ [row]) (<[i := (k, rs ++ [row])]> groups).
Proof.
  intros Hrows Hg Hkey Ht Hi Hk. destruct (value_eqb_equiv t) as (Hrefl & Hsym & Htrans).
  assert (∀ k' rs', (k', rs') ∈ groups → typed_value t k') as Htk by (intros; by eapply group_key_typed).
  assert ((k, rs) ∈ groups) as Hin by by eapply list_elem_of_lookup_2.
  assert (i < length groups)%nat as Hlt by by eapply lookup_lt_Some.
  assert (∀ g, g ∈ <[i := (k, rs ++ [row])]> groups →
    g = (k, rs ++ [row]) ∨ ∃ j, j ≠ i ∧ groups !! j = Some g) as Hcases.
  { intros g [j Hj]%list_elem_of_lookup. apply list_lookup_insert_Some in Hj as [(-> & <- & _)|[Hne Hj]];
      [by left|right; by exists j]. }
  split.
  - intros k' rs' [[= -> ->]|(j & Hne & Hj)]%Hcases.
    + destruct (grp_rows _ _ _ Hg _ _ Hin) as [-> ?]. split; [|by destruct (filter _ rows)].
      rewrite filter_app, (filter_cons _ row), (same_key_Some _ _ _ Hkey), Hk.
      by rewrite decide_True by done.
    + destruct (grp_rows _ _ _ Hg k' rs') as [-> ?]; [by eapply list_elem_of_lookup_2|]. split; [|done].
      rewrite filter_app, filter_cons, (same_key_Some _ _ _ Hkey).
      rewrite decide_False; [by rewrite filter_nil, app_nil_r|]. intros Hk'. apply Hne.
      eapply (grp_distinct _ _ _ Hg j i _ _ Hj Hi). cbn.
      assert (typed_value t k') by (eapply Htk, list_elem_of_lookup_2; done).
      apply (Htrans k' key k); try done; [by eapply Htk|]. by apply Hsym; [by eapply Htk|..].
  - intros k' rs' [[= -> ->]|(j & Hne & Hj)]%Hcases.
    + destruct (grp_key _ _ _ Hg _ _ Hin) as (r & Hr & ?). exists r. split; [|done]. by destruct rs.
    + eapply grp_key; [done|]. by eapply list_elem_of_lookup_2.
  - intros a b g g' Ha Hb. 
    assert (∃ g0, groups !! a = Some g0 ∧ g0.1 = g.1) as (g0 & Ha0 & <-).
    { apply list_lookup_insert_Some in Ha as [(-> & <- & _)|[_ Ha]]; eauto. }
    assert (∃ g0', groups !! b = Some g0' ∧ g0'.1 = g'.1) as (g0' & Hb0 & <-).
    { apply list_lookup_insert_Some in Hb as [(-> & <- & _)|[_ Hb]]; eauto. }
    by eapply grp_distinct.
  - intros r [Hr| ->%list_elem_of_singleton]%elem_of_app.
    + destruct (grp_all _ _ _ Hg r Hr) as (k' & rs' & [j Hj]%list_elem_of_lookup & Hin').
      destruct (decide (j = i)) as [->|Hne].
      * rewrite Hi in Hj. injection Hj as <- <-. exists k, (rs ++ [row]). split; [|set_solver].
        apply list_elem_of_lookup. exists i. by apply list_lookup_insert_eq.
      * exists k', rs'. split; [|done]. apply list_elem_of_lookup. exists j.
        by rewrite list_lookup_insert_ne.
    + exists k, (rs ++ [row]). split; [|set_solver]. apply list_elem_of_lookup. exists i.
      by apply list_lookup_insert_eq.
Qed.

Lemma group_rows_typed rows :
  Forall keyed rows → ∃ groups, group_rows idx rows = Ok groups ∧ grouped idx rows groups.
Proof.
  intros Hrows. unfold group_rows. induction rows as [|row rows IH] using rev_ind.
  - exists []. split; [done|]. split; set_solver.
  - apply Forall_app in Hrows as [Hrows [Hrow _]%Forall_cons].
    destruct (IH Hrows) as (groups & Hgo & Hg). rewrite rfoldl_app, Hgo. cbn [rbind rfoldl].
    destruct Hrow as (key & Hkey & Hkt). unfold rindex. rewrite Hkey. cbn [rbind].
    eexists. split; [done|]. rewrite add_to_group_spec.
    destruct (list_find _ groups) as [[i [k rs]]|] eqn:Hf.
    + apply list_find_Some in Hf as (Hi & Hk & _). by eapply grouped_old.
    + eapply grouped_new; try done. intros g Hin Heq.
      apply list_find_None in Hf. by apply (proj1 (Forall_forall _ _) Hf g Hin).
Qed.

End grouping.

(** the groups hold the rows *)
Lemma add_to_group_Permutation key row groups :
  concat (add_to_group key row groups).*2 ≡ₚ row :: concat groups.*2.
Proof.
  induction groups as [|[k rs] groups IH]; [done|]. cbn [add_to_group].
  destruct (value_eqb k key); cbn.
  - rewrite <-app_assoc. symmetry. apply (Permutation_middle rs).
  - rewrite IH. symmetry. apply (Permutation_middle rs).
Qed.

Lemma group_rows_Permutation idx rows groups :
  group_rows idx rows = Ok groups → concat groups.*2 ≡ₚ rows.
Proof.
  unfold group_rows. revert groups. induction rows as [|row rows IH] using rev_ind; intros groups.
  - by intros [= <-].
  - rewrite rfoldl_app, rbind_Ok. intros (gs & Hgs & H). cbn [rfoldl] in H. inv_ok.
    by rewrite add_to_group_Permutation, (IH gs), <-Permutation_cons_append.
Qed.

(** ** The order of the groups *)

(** the distinct values of a list, each where it appears first *)
Fixpoint first_seen (vs : list Value) : list Value :=
  match vs with
  | [] => []
  | v :: vs => v :: filter (λ w, ¬ same_value v w) (first_seen vs)
  end.

(** one more value stands last, unless it was seen *)
Lemma first_seen_snoc vs v :
  first_seen (vs ++ [v]) =
    if decide (Exists (same_value v) (first_seen vs)) then first_seen vs else first_seen vs ++ [v].
Proof.
  induction vs as [|x vs IH].
  { cbn. by rewrite decide_False by by intros ?%Exists_nil. }
  cbn [app first_seen]. rewrite IH.
  destruct (decide (Exists _ (first_seen vs))) as [Hseen|Hnew].
  - symmetry. apply decide_True. rewrite Exists_cons.
    apply Exists_exists in Hseen as (w & Hw & Hv). destruct (decide (same_value x w)) as [Hx|Hx].
    + left. by transitivity w.
    + right. apply Exists_exists. exists w. split; [|done]. by apply list_elem_of_filter.
  - rewrite filter_app, filter_cons, filter_nil.
    assert (Exists (same_value v) (x :: filter (λ w, ¬ same_value x w) (first_seen vs)) ↔ same_value x v) as Hiff.
    { rewrite Exists_cons. split; [|by left].
      intros [?|(w & [_ Hw]%list_elem_of_filter & Hv)%Exists_exists]; [done|].
      destruct Hnew. apply Exists_exists. by exists w. }
    destruct (decide (same_value x v)) as [Hx|Hx].
    + rewrite (decide_False (P := ¬ same_value x v)) by tauto. rewrite (decide_True (P := Exists _ _)) by by apply Hiff.
      by rewrite app_nil_r.
    + rewrite (decide_True (P := ¬ same_value x v)) by done. by rewrite (decide_False (P := Exists _ _)) by (by rewrite Hiff).
Qed.

Lemma add_to_group_keys t key row groups :
  Forall (typed_value t) groups.*1 → typed_value t key →
  (add_to_group key row groups).*1 =
    if decide (Exists (same_value key) groups.*1) then groups.*1 else groups.*1 ++ [key].
Proof.
  intros Hall Hkey. induction groups as [|[k rs] groups IH].
  { cbn. by rewrite decide_False by by intros ?%Exists_nil. }
  apply Forall_cons in Hall as [Hk Hall]. cbn [add_to_group fmap list_fmap fst] in *.
  pose proof (value_eqb_cmp t k key Hk Hkey) as Heq. fold (same_value k key) in Heq.
  destruct (value_eqb k key); cbn [fmap list_fmap fst].
  - rewrite decide_True; [done|]. left. symmetry. by apply Heq.
  - rewrite IH by done. assert (¬ same_value key k) as Hne by (intros Hs; symmetry in Hs; by apply Heq in Hs).
    destruct (decide (Exists _ groups.*1)) as [He|He].
    + by rewrite decide_True by by right.
    + by rewrite decide_False by (intros [?|?]%Exists_cons; done).
Qed.

(** the rows of one value *)
Definition has_value (idx : nat) (v : Value) (row : Row) : Prop :=
  match row !! idx with Some w => same_value v w | None => False end.
#[export] Instance has_value_dec idx v row : Decision (has_value idx v row).
Proof. unfold has_value. destruct (row !! idx); apply _. Defined.

(** the keys of the groups are the values of the column, as they first appear *)
Lemma group_rows_keys t idx rows groups :
  Forall (keyed t idx) rows → group_rows idx rows = Ok groups →
  groups.*1 = first_seen (omap (.!! idx) rows).
Proof.
  unfold group_rows. revert groups. induction rows as [|row rows IH] using rev_ind; intros groups Hrows.
  - by intros [= <-].
  - apply Forall_app in Hrows as [Hrows [(key & Hkey & Ht) _]%Forall_cons].
    rewrite rfoldl_app, rbind_Ok. intros (gs & Hgs & H). cbn [rfoldl] in H.
    unfold rindex in H. rewrite Hkey in H. cbn [rbind] in H. injection H as <-.
    destruct (group_rows_typed t idx rows Hrows) as (gs' & Hgs' & Hg). unfold group_rows in Hgs'.
    rewrite Hgs in Hgs'. injection Hgs' as <-.
    rewrite omap_app. cbn [omap list_omap]. rewrite Hkey, first_seen_snoc, <-(IH gs) by done.
    apply (add_to_group_keys t); [|done]. apply Forall_fmap, Forall_forall. intros [k rs] Hin.
    by eapply group_key_typed.
Qed.

Lemma filter_iff_in {A} (P Q : A → Prop) `{∀ x, Decision (P x), ∀ x, Decision (Q x)} l :
  Forall (λ x, P x ↔ Q x) l → filter P l = filter Q l.
Proof.
  induction 1 as [|x l Hx _ IH]; [done|]. rewrite !filter_cons, IH.
  by destruct (decide (P x)), (decide (Q x)); try tauto.
Qed.

(** hence the groups, in full *)
Lemma group_rows_groups t idx rows groups :
  Forall (keyed t idx) rows → group_rows idx rows = Ok groups →
  groups = map (λ v, (v, filter (has_value idx v) rows)) (first_seen (omap (.!! idx) rows)).
Proof.
  intros Hrows Hok. rewrite <-(group_rows_keys t idx rows groups) by done.
  destruct (group_rows_typed t idx rows Hrows) as (gs & Hgs & Hg). rewrite Hok in Hgs. injection Hgs as <-.
  rewrite <-list_fmap_compose. symmetry. etransitivity; [|apply list_fmap_id].
  apply list_fmap_ext. intros i [key rs] Hi%list_elem_of_lookup_2. cbn. f_equal.
  destruct (grp_rows _ _ _ Hg _ _ Hi) as [-> _]. pose proof (group_key_typed t idx _ _ _ _ Hrows Hg Hi) as Hkey.
  apply filter_iff_in. eapply Forall_impl; [exact Hrows|]. intros row (v & Hv & Ht).
  unfold has_value, same_key. rewrite Hv. symmetry. by apply (value_eqb_cmp t).
Qed.

(** ** Aggregate functions *)

(** the values of a column that are not NULL, in order *)
Definition column_value (idx : nat) (row : Row) : option Value :=
  match row !! idx with Some v => if is_null v then None else Some v | None => None end.
Definition column_values (idx : nat) (rows : list Row) : list Value := omap (column_value idx) rows.

Definition has_column (idx : nat) (row : Row) : Prop := is_Some (row !! idx).

Lemma keyed_has_column t idx rows : Forall (keyed t idx) rows → Forall (has_column idx) rows.
Proof. intros H. eapply Forall_impl; [exact H|]. intros row (v & Hv & _). by exists v. Qed.

(** a loop over the rows is a loop over the values of the column *)
Lemma column_fold {B} (f : B → Row → result B) (g : B → Value → result B) idx b rows :
  (∀ b row v, row !! idx = Some v → f b row = if is_null v then Ok b else g b v) →
  Forall (has_column idx) rows → rfoldl f b rows = rfoldl g b (column_values idx rows).
Proof.
  intros Hf Hrows. revert b. induction Hrows as [|row rows [v Hv] _ IH]; intros b; [done|].
  unfold column_values. cbn [rfoldl omap list_omap]. unfold column_value at 1. rewrite Hv, (Hf _ _ _ Hv).
  destruct (is_null v); cbn [rbind rfoldl]; [apply IH|]. by destruct (g b v); cbn [rbind]; [apply IH|..].
Qed.

Lemma rfoldl_Ok {A B} (f : B → A → B) b l : rfoldl (λ b a, Ok (f b a)) b l = Ok (foldl f b l).
Proof. revert b. induction l as [|a l IH]; intros b; cbn; [done|]. apply IH. Qed.

Lemma count_rows_ok name columns idx rows :
  slices_Index columns name = Some idx → Forall (has_column idx) rows →
  count_rows name columns rows = Ok (IntegerValue (Z.of_nat (length (column_values idx rows)))).
Proof.
  intros Hidx Hrows. unfold count_rows, aggregate_column. rewrite Hidx. cbn [rbind].
  rewrite (column_fold _ (λ c _, Ok (c + 1)) idx); [|intros b row v Hv; unfold rindex; rewrite Hv; cbn; by destruct (is_null v)|done].
  rewrite rfoldl_Ok. cbn [rbind]. do 2 f_equal.
  rewrite <-(Z.add_0_l (Z.of_nat _)). generalize 0. 
  induction (column_values idx rows) as [|v l IH]; intros c; cbn [foldl length]; [lia|]. rewrite IH. lia.
Qed.

Definition to_float (v : Value) : float64 :=
  match Kind v with ValueInteger => float_of_int (vInteger v) | _ => vFloat v end.

(** the running sum, in the order of the rows *)
Definition float_sum (vs : list Value) : float64 :=
  foldl (λ sum v, float_add sum (to_float v)) float_zero vs.

Lemma is_null_kind v : is_null v = true ↔ Kind v = ValueNull.
Proof. apply bool_decide_eq_true. Qed.

Lemma column_values_keyed t idx rows :
  Forall (keyed t idx) rows → Forall (λ v, typed_value t v ∧ Value_DataType v = Some t) (column_values idx rows).
Proof.
  intros Hrows. apply Forall_forall. intros v (row & Hin & Hv)%list_elem_of_omap.
  destruct (proj1 (Forall_forall _ _) Hrows row Hin) as (w & Hw & Ht).
  unfold column_value in Hv. rewrite Hw in Hv. destruct (is_null w) eqn:Hn; simplify_eq.
  split; [done|]. destruct Ht as [[Hk|?] _]; [|done]. apply is_null_kind in Hk. congruence.
Qed.

(** the step of SUM on a value that is not NULL *)
Definition sum_value (acc : float64 * bool) (v : Value) : result (float64 * bool) :=
  match Kind v with
  | ValueNull => Ok acc
  | ValueInteger => Ok (float_add acc.1 (float_of_int (vInteger v)), true)
  | ValueFloat => Ok (float_add acc.1 (vFloat v), true)
  | _ => Err (Errorf "SUM requires a numeric column, but column %q contains value kind %d at row %d")
  end.

Lemma sum_rows_fold name columns idx rows :
  slices_Index columns name = Some idx → Forall (has_column idx) rows →
  sum_rows name columns rows =
    (let? (sum, found) := rfoldl sum_value (float_zero, false) (column_values idx rows) in
     Ok (if (found : bool) then FloatValue sum else NullValue)).
Proof.
  intros Hidx Hrows. unfold sum_rows, aggregate_column. rewrite Hidx. cbn [rbind].
  rewrite (column_fold _ sum_value idx); [done| |done].
  intros [s b] row v Hv. unfold sum_step, sum_value, rindex. rewrite Hv. cbn [rbind fst].
  unfold is_null. by destruct (Kind v).
Qed.

(** SUM of a column that is not numeric fails on its first value *)
Lemma sum_rows_err t name columns idx rows :
  slices_Index columns name = Some idx → Forall (keyed t idx) rows → t = Boolean ∨ t = String →
  column_values idx rows ≠ [] → ∃ err, sum_rows name columns rows = Err err.
Proof.
  intros Hidx Hrows Ht Hne. rewrite (sum_rows_fold _ _ idx) by (done || by eapply keyed_has_column).
  pose proof (column_values_keyed _ _ _ Hrows) as Hvs.
  destruct (column_values idx rows) as [|v vs]; [done|]. apply Forall_cons in Hvs as [[_ Hv] _].
  cbn [rfoldl]. unfold Value_DataType in Hv. unfold sum_value at 1.
  destruct (Kind v), Ht; simplify_eq; cbn; by eexists.
Qed.

Lemma sum_rows_ok t name columns idx rows :
  slices_Index columns name = Some idx → Forall (keyed t idx) rows → t = Integer ∨ t = Float →
  sum_rows name columns rows =
    Ok (if decide (column_values idx rows = []) then NullValue
        else FloatValue (float_sum (column_values idx rows))).
Proof.
  intros Hidx Hrows Ht. rewrite (sum_rows_fold _ _ idx) by (done || by eapply keyed_has_column).
  pose proof (column_values_keyed _ _ _ Hrows) as Hvs. unfold float_sum.
  assert (∀ l s b, Forall (λ v, typed_value t v ∧ Value_DataType v = Some t) l →
    rfoldl sum_value (s, b) l =
    Ok (foldl (λ sum v, float_add sum (to_float v)) s l, b || negb (bool_decide (l = [])))) as Hl.
  { induction l as [|v l IH]; intros s b Hl; cbn [rfoldl foldl]; [by rewrite orb_false_r|].
    apply Forall_cons in Hl as [[_ Hv] Hl]. unfold Value_DataType in Hv. unfold to_float at 2, sum_value at 1.
    destruct (Kind v) eqn:Hk; destruct Ht; simplify_eq; cbn [rbind fst]; rewrite IH by done;
      by rewrite orb_true_r. }
  rewrite Hl by done. cbn [rbind orb]. by destruct (column_values idx rows).
Qed.

Lemma avg_rows_ok t name columns idx rows :
  slices_Index columns name = Some idx → Forall (keyed t idx) rows → t = Integer ∨ t = Float →
  avg_rows name columns rows =
    Ok (if decide (column_values idx rows = []) then NullValue
        else FloatValue (float_div (float_sum (column_values idx rows))
               (float_of_int (Z.of_nat (length (column_values idx rows)))))).
Proof.
  intros Hidx Hrows Ht. unfold avg_rows. rewrite (sum_rows_ok t _ _ idx) by done. cbn [rwrap rbind].
  rewrite (count_rows_ok _ _ idx) by (done || by eapply keyed_has_column). cbn [rwrap rbind].
  by case_decide.
Qed.

(** MIN and MAX: an extreme value of the column *)
Definition is_extreme (minimum : bool) (vs : list Value) (v : Value) : Prop :=
  v ∈ vs ∧ ∀ w, w ∈ vs → if minimum then value_cmp v w ≤ 0 else 0 ≤ value_cmp v w.

Lemma calculateExtreme_ok t name columns idx rows minimum :
  slices_Index columns name = Some idx → Forall (keyed t idx) rows →
  ∃ v, calculateExtreme name columns rows minimum = Ok v ∧
    if decide (column_values idx rows = []) then v = NullValue
    else is_extreme minimum (column_values idx rows) v.
Proof.
  intros Hidx Hrows. unfold calculateExtreme, aggregate_column. rewrite Hidx. cbn [rbind].
  pose proof (column_values_keyed _ _ _ Hrows) as Hvs.
  rewrite (column_fold _ (λ best v, match best with
    | None => Ok (Some v)
    | Some b => let? c := rwrap "comparing row %d column %q: %w" (Compare v b) in
        Ok (Some (if (minimum && (c <? 0)) || (negb minimum && (c >? 0)) then v else b))
    end) idx); [| |by eapply keyed_has_column].
  2:{ intros best row v Hv. unfold extreme_step, rindex. rewrite Hv. cbn [rbind].
      by destruct (is_null v). }
  induction (column_values idx rows) as [|v l IH] using rev_ind; [by exists NullValue|].
  rewrite rfoldl_app. apply Forall_app in Hvs as [Hl [[Hv _] _]%Forall_cons].
  destruct (value_cmp_preorder (λ _, True)) as [Ha Ht].
  assert (value_cmp v v = 0) as Hrefl by (pose proof (Ha v v I I); lia).
  destruct (IH Hl) as (b & Hb & Hbest). apply rbind_Ok in Hb as (best & Hbest' & [= Hb]).
  rewrite Hbest'. cbn [rbind rfoldl].
  destruct best as [b'|]; cbn in Hb; subst.
  - assert (l ≠ []) as Hne by by (intros ->; cbn in Hbest'; simplify_eq).
    rewrite decide_False in Hbest by done. destruct Hbest as [Hin Hall].
    destruct (proj1 (Forall_forall _ _) Hl b Hin) as [Hbt _].
    rewrite (typed_compare t v b) by done. cbn [rwrap rbind]. eexists. split; [done|].
    rewrite decide_False by by destruct l. cbn [default].
    pose proof (Ha v b I I) as Hanti.
    destruct minimum; cbn [negb andb orb]; rewrite ?orb_false_r.
    + destruct (Z.ltb_spec (value_cmp v b) 0); split; try set_solver;
        intros w [Hw| ->%list_elem_of_singleton]%elem_of_app; try (specialize (Hall w Hw)); cbn in *; try lia.
      pose proof (Ht v b w I I I). lia.
    + destruct (Z.gtb_spec (value_cmp v b) 0); split; try set_solver;
        intros w [Hw| ->%list_elem_of_singleton]%elem_of_app; try (specialize (Hall w Hw)); cbn in *; try lia.
      pose proof (Ht w b v I I I). pose proof (Ha w b I I). pose proof (Ha w v I I). lia.
  - exists v. split; [done|]. rewrite decide_False by by destruct l.
    assert (l = []) as ->.
    { destruct l as [|u l]; [done|]. exfalso. clear -Hbest'. cbn [rfoldl rbind] in Hbest'.
      revert Hbest'. generalize u. induction l as [|x l IHl]; intros b; [done|]. cbn [rfoldl].
      intros H. inv_ok. by eapply IHl. }
    split; [set_solver|]. intros w ->%list_elem_of_singleton. rewrite Hrefl. by destruct minimum.
Qed.
