(* ===== verification/Predicates.v ===== *)
(** * The meaning of predicates

    A relational meaning of the expressions of WHERE and HAVING, written
    without the evaluator: [means columns row e v] says that [e] has the value
    [v] in [row].  Comparisons are three-valued: an operand that is NULL makes
    the result NULL.  An expression without a meaning (a column that does not
    exist, values that have no order, a function call) is one the evaluator
    refuses, [evaluate_means]; the typing rules [expr_typed] say when there is
    a meaning, [typed_means]. *)

From S2P Require Import Prelude Bytes Types Lexer Ast Schema Planner Sort Expr Transaction Executor RowsSpec OrderSpec.

(** ** The order of two values *)

Definition as_number (v : Value) : option float64 :=
  match Kind v with
  | ValueInteger => Some (float_of_int (vInteger v))
  | ValueFloat => Some (vFloat v)
  | _ => None
  end.

(** [false] stands before [true], strings are in the order of their bytes, two
    integers are compared exactly and other numbers as binary64 (a NaN is
    equal to every number); other values have no order *)
Inductive ordered (v w : Value) : comparison → Prop :=
  | ordered_booleans : Kind v = ValueBoolean → Kind w = ValueBoolean → ordered v w (Bool.compare (vBoolean v) (vBoolean w))
  | ordered_integers : Kind v = ValueInteger → Kind w = ValueInteger → ordered v w (vInteger v ?= vInteger w)
  | ordered_numbers x y :
      as_number v = Some x → as_number w = Some y → Kind v = ValueFloat ∨ Kind w = ValueFloat →
      ordered v w (default Eq (SFcompare x y))
  | ordered_strings : Kind v = ValueString → Kind w = ValueString → ordered v w (bytes_compare (vStr v) (vStr w)).

Lemma ordered_functional v w c c' : ordered v w c → ordered v w c' → c = c'.
Proof.
  unfold as_number.
  intros [| |x y Hx Hy [?|?]|] [| |x' y' Hx' Hy' [?|?]|]; unfold as_number in *;
    destruct (Kind v), (Kind w); simplify_eq; done.
Qed.

Lemma float_three_way_compare x y : float_three_way x y = sign (default Eq (SFcompare x y)).
Proof.
  destruct (is_nan x) eqn:Hx; [by destruct x; try done; destruct y as [[]|[]| |[]]|].
  destruct (is_nan y) eqn:Hy; [by destruct y; try done; destruct x as [[]|[]| |[]]|].
  by rewrite SFcompare_lex, float_three_way_lex by done.
Qed.

(** [Compare] decides the order of two values that are not NULL *)
Lemma Compare_ordered v w :
  Kind v ≠ ValueNull → Kind w ≠ ValueNull →
  match Compare v w with
  | Ok z => ∃ c, ordered v w c ∧ z = sign c
  | Err _ => ∀ c, ¬ ordered v w c
  | Panic _ => False
  end.
Proof.
  intros Hv Hw. unfold Compare. rewrite !decide_False by tauto.
  destruct (Kind v) eqn:Kv; try done; destruct (Kind w) eqn:Kw; try done; cbn;
    try by (intros c Ho; destruct Ho; unfold as_number in *; rewrite ?Kv, ?Kw in *; naive_solver).
  - destruct (vBoolean v) eqn:Bv, (vBoolean w) eqn:Bw; cbn; eexists;
      (split; [by apply ordered_booleans|by rewrite Bv, Bw]).
  - eexists. split; [by apply ordered_integers|]. unfold three_way, Z.ltb. rewrite Z.gtb_ltb. unfold Z.ltb.
    rewrite (Z.compare_antisym (vInteger v)). by destruct (vInteger v ?= vInteger w).
  - eexists. split; [|apply float_three_way_compare]. by apply ordered_numbers; unfold as_number; rewrite ?Kv, ?Kw; auto.
  - eexists. split; [|apply float_three_way_compare]. by apply ordered_numbers; unfold as_number; rewrite ?Kv, ?Kw; auto.
  - eexists. split; [|apply float_three_way_compare]. by apply ordered_numbers; unfold as_number; rewrite ?Kv, ?Kw; auto.
  - eexists. split; [by apply ordered_strings|]. unfold strings_Compare. by destruct (bytes_compare _ _).
Qed.

(** ** Expressions *)

(** the results of an order that make a comparison true *)
Definition holds (kind : OperationKind) (c : comparison) : bool :=
  match kind, c with
  | OperationEqual, Eq | OperationGreaterThan, Gt | OperationLessThan, Lt => true
  | _, _ => false
  end.

Section row.
Context (columns : list bytes) (row : Row).

Inductive means : Expression → Value → Prop :=
  | means_null : means Null NullValue
  | means_boolean b : means (BooleanLiteral b) (BooleanValue b)
  | means_integer z : means (IntegerLiteral z) (IntegerValue z)
  | means_float x : means (FloatLiteral x) (FloatValue x)
  | means_string s : means (StringLiteral s) (StringValue s)
  (** the value of the first column of the name *)
  | means_column name i v :
      columns !! i = Some name → (∀ j, (j < i)%nat → columns !! j ≠ Some name) → row !! i = Some v →
      means (ColumnReference name) v
  | means_unknown kind l r v w :
      means l v → means r w → Kind v = ValueNull ∨ Kind w = ValueNull →
      means (OperationExpression kind l r) NullValue
  | means_comparison kind l r v w c :
      means l v → means r w → Kind v ≠ ValueNull → Kind w ≠ ValueNull → ordered v w c →
      means (OperationExpression kind l r) (BooleanValue (holds kind c)).

Lemma means_functional e v v' : means e v → means e v' → v = v'.
Proof.
  intros Hv. revert v'. induction Hv as [| | | | |name i v Hi Hfirst Hr|kind l r v w Hl IHl Hr IHr Hnull|kind l r v w c Hl IHl Hr IHr Hv Hw Hc];
    intros u Hu;
    inversion Hu as [| | | | |? i' ? Hi' Hfirst' Hr'|? ? ? v' w' Hl' Hr' Hnull'|? ? ? v' w' c' Hl' Hr' Hv' Hw' Hc']; subst; try done;
    try (apply IHl in Hl' as <-; apply IHr in Hr' as <-); try tauto.
  - assert (i = i') as <-; [|congruence]. destruct (lt_eq_lt_dec i i') as [[?|?]|?]; [|done|]; exfalso; naive_solver.
  - by rewrite (ordered_functional _ _ _ _ Hc Hc').
Qed.

(** the evaluator finds the meaning, and refuses exactly what has none *)
Lemma evaluate_means e :
  length row = length columns →
  match evaluateExpression e columns row columns row with
  | Ok v => means e v
  | Err _ => ∀ v, ¬ means e v
  | Panic _ => False
  end.
Proof.
  intros Hlen. induction e as [|b|z|f|s|kind l IHl r IHr|call|name]; cbn [evaluateExpression];
    try by constructor.
  - destruct (evaluateExpression l columns row columns row) as [v|err|]; cbn [rwrap rbind]; [| |done].
    2: { intros u Hu. inversion Hu; subst; by eapply IHl. }
    destruct (evaluateExpression r columns row columns row) as [w|err|]; cbn [rwrap rbind]; [| |done].
    2: { intros u Hu. inversion Hu; subst; by eapply IHr. }
    unfold evaluateComparison. case_decide as Hnull; [by eapply means_unknown|].
    assert (Kind v ≠ ValueNull ∧ Kind w ≠ ValueNull) as [Hv Hw] by tauto.
    pose proof (Compare_ordered v w Hv Hw) as Hc.
    destruct (Compare v w) as [z|err|]; cbn [rwrap rbind]; [| |done].
    + destruct Hc as (c & Hc & ->).
      assert (match kind with OperationEqual => sign c =? 0 | OperationGreaterThan => sign c >? 0
        | OperationLessThan => sign c <? 0 end = holds kind c) as -> by by destruct kind, c.
      by eapply means_comparison.
    + intros u Hu. inversion Hu as [| | | | | |? ? ? v' w' Hl Hr Hn|? ? ? v' w' c Hl Hr ? ? Ho]; subst;
        apply (means_functional _ _ _ IHl) in Hl as <-; apply (means_functional _ _ _ IHr) in Hr as <-;
        [by destruct Hnull|by eapply Hc].
  - intros v Hv. inversion Hv.
  - destruct (slices_Index columns name) as [i|] eqn:Hi.
    + apply slices_Index_Some in Hi as [Hi Hfirst]. unfold rindex.
      destruct (row !! i) as [v|] eqn:Hv; [by eapply means_column|].
      apply lookup_lt_Some in Hi. apply lookup_ge_None in Hv. lia.
    + apply slices_Index_None in Hi. intros v Hv. inversion Hv; subst. apply Hi. by eapply list_elem_of_lookup_2.
Qed.

End row.

(** ** Types *)

(** the types whose values have an order *)
Inductive comparable : DataType → DataType → Prop :=
  | comparable_same t : comparable t t
  | comparable_integer_float : comparable Integer Float
  | comparable_float_integer : comparable Float Integer.

Lemma comparable_ordered t u v w :
  comparable t u → of_type t v → of_type u w → Kind v ≠ ValueNull → Kind w ≠ ValueNull → ∃ c, ordered v w c.
Proof.
  unfold of_type, Value_DataType. intros Htu [?|Hv] [?|Hw] Nv Nw; try done.
  destruct (Kind v) eqn:Kv, (Kind w) eqn:Kw; simplify_eq; inversion Htu; subst; eexists;
    first [by apply ordered_booleans | by apply ordered_integers | by apply ordered_strings
          |eapply ordered_numbers; unfold as_number; rewrite ?Kv, ?Kw; by auto].
Qed.

Section types.
Context (columns : list bytes) (tys : list DataType).

(** the types of an expression over columns of the types [tys]; NULL has all *)
Inductive expr_typed : Expression → DataType → Prop :=
  | typed_null t : expr_typed Null t
  | typed_boolean b : expr_typed (BooleanLiteral b) Boolean
  | typed_integer z : expr_typed (IntegerLiteral z) Integer
  | typed_float x : expr_typed (FloatLiteral x) Float
  | typed_string s : expr_typed (StringLiteral s) String
  | typed_column name i t :
      columns !! i = Some name → (∀ j, (j < i)%nat → columns !! j ≠ Some name) → tys !! i = Some t →
      expr_typed (ColumnReference name) t
  | typed_operation kind l r t u :
      expr_typed l t → expr_typed r u → comparable t u → expr_typed (OperationExpression kind l r) Boolean.

(** a typed expression has a meaning, of its type, in every row of the types *)
Lemma typed_means e t row :
  expr_typed e t → Forall2 of_type tys row → ∃ v, means columns row e v ∧ of_type t v.
Proof.
  intros He Hrow. induction He as [t|b|z|x|s|name i t Hi Hfirst Ht|kind l r t u _ (v & Hl & Hv) _ (w & Hr & Hw) Htu].
  1-5: by eexists; split; [constructor|by (left; done) || (right; done)].
  - destruct (Forall2_lookup_l _ _ _ _ _ Hrow Ht) as (v & Hv & Hof). exists v. split; [by eapply means_column|done].
  - destruct (decide (Kind v = ValueNull ∨ Kind w = ValueNull)) as [Hnull|Hnull].
    + exists NullValue. split; [by eapply means_unknown|by left].
    + destruct (comparable_ordered t u v w) as [c Hc]; try done; [tauto..|].
      eexists. split; [eapply means_comparison; try done; tauto|by right].
Qed.

End types.

(** ** Selections *)

(** the elements of a list that satisfy [P], in their order *)
Inductive selects {A} (P : A → Prop) : list A → list A → Prop :=
  | selects_nil : selects P [] []
  | selects_keep x l l' : P x → selects P l l' → selects P (x :: l) (x :: l')
  | selects_drop x l l' : ¬ P x → selects P l l' → selects P (x :: l) l'.

(** a predicate accepts a row in which it means true: not false, and not NULL *)
Definition accepts (p : Expression) (columns : list bytes) (row : Row) : Prop :=
  ∃ v, means columns row p v ∧ Kind v = ValueBoolean ∧ vBoolean v = true.

Lemma is_true_accepts p columns row v :
  means columns row p v → if is_true v then accepts p columns row else ¬ accepts p columns row.
Proof.
  intros Hv. unfold is_true. case_bool_decide as Hk; [destruct (vBoolean v) eqn:Hb|]; cbn [andb].
  - by exists v.
  - intros (w & Hw & _ & Ht). apply (means_functional _ _ _ _ _ Hv) in Hw as <-. congruence.
  - intros (w & Hw & ? & _). by apply (means_functional _ _ _ _ _ Hv) in Hw as <-.
Qed.

(** so the rows UPDATE and DELETE choose are those their predicate accepts *)
Lemma satisfies_accepts p columns row :
  length row = length columns → satisfies p columns row = true ↔ accepts p columns row.
Proof.
  intros Hlen. pose proof (evaluate_means columns row p Hlen) as Hp. unfold satisfies.
  destruct (evaluateExpression p columns row columns row) as [v|err|]; [| |done].
  - pose proof (is_true_accepts p columns row v Hp) as Ha. by destruct (is_true v).
  - split; [done|]. intros (v & Hv & _). by destruct (Hp v).
Qed.

Lemma filter_rows_selects p columns rows :
  rectangular columns rows →
  match filter_rows p columns rows with
  | Ok out => selects (accepts p columns) rows out ∧ Forall (λ row, ∃ v, means columns row p v) rows
  | Err _ => Exists (λ row, ∀ v, ¬ means columns row p v) rows
  | Panic _ => False
  end.
Proof.
  induction 1 as [|row rows Hrow _ IH]; cbn [filter_rows]; [by repeat constructor|].
  pose proof (evaluate_means columns row p Hrow) as Hp.
  destruct (evaluateExpression p columns row columns row) as [v|err|]; cbn [rwrap rbind]; [|by left|done].
  destruct (filter_rows p columns rows) as [out|err|]; cbn [rbind]; [|by right|done].
  destruct IH as [Hout Hall]. split; [|constructor; [by exists v|done]].
  pose proof (is_true_accepts p columns row v Hp) as Hacc. destruct (is_true v); by constructor.
Qed.
