(* ===== verification/InsertSpec.v ===== *)
(** * The rows an INSERT builds ([makeInsertRow]) *)

From S2P Require Import Prelude Bytes Types Lexer Ast Schema Planner Sort Expr Transaction Executor.

(** the value of column [i] of an inserted row: the given one, or the default *)
Definition insert_value (columnNames : list bytes) (input : Row) (i : nat) (c : Schema.Column)
    : option Value :=
  match (if decide (columnNames = []) then input !! i
         else slices_Index columnNames (Name c) ≫= λ j, input !! j) with
  | Some v => Some v
  | None => Default c
  end.

(** the values fit the columns they are given for *)
Definition columns_given (t : Table) (columnNames : list bytes) (input : Row) : Prop :=
  if decide (columnNames = []) then (length input ≤ length (Columns t))%nat
  else length columnNames = length input ∧ NoDup columnNames ∧
       ∀ name, name ∈ columnNames → name ∈ map Name (Columns t).

Lemma default_value_Ok err c v : default_value err c = Ok v ↔ Default c = Some v.
Proof. unfold default_value. destruct (Default c); naive_solver. Qed.

Lemma rstore_Ok {A} (l : list A) i v l' :
  rstore l i v = Ok l' ↔ (i < length l)%nat ∧ l' = <[i := v]> l.
Proof. unfold rstore. case_decide; naive_solver. Qed.

(** ** Column positions *)

Lemma column_positions_snoc cs c :
  column_positions (cs ++ [c]) = <[Name c := length cs]> (column_positions cs).
Proof.
  unfold column_positions. rewrite imap_app, foldl_app. cbn. by rewrite Nat.add_0_r.
Qed.

Lemma column_positions_Some cs name i :
  column_positions cs !! name = Some i → ∃ c, cs !! i = Some c ∧ Name c = name.
Proof.
  revert i. induction cs as [|c cs IH] using rev_ind; intros i; [done|].
  rewrite column_positions_snoc, lookup_insert_Some. intros [[Hn <-]|[_ Hi]].
  - exists c. by rewrite list_lookup_middle.
  - destruct (IH i Hi) as (c' & Hc' & ?). exists c'. split; [|done].
    by apply lookup_app_l_Some.
Qed.

Lemma column_positions_unique cs c i :
  NoDup (map Name cs) → cs !! i = Some c → column_positions cs !! Name c = Some i.
Proof.
  induction cs as [|c' cs IH] using rev_ind; [done|]. rewrite map_app, NoDup_app.
  intros (Hnd & Hnew & _) Hi. rewrite column_positions_snoc.
  apply lookup_snoc_Some in Hi as [[Hlt Hi]|[-> ->]]; [|apply lookup_insert_eq].
  rewrite lookup_insert_ne; [by apply IH|]. intros Heq. apply (Hnew (Name c)).
  - apply list_elem_of_fmap. exists c. split; [done|]. by eapply list_elem_of_lookup_2.
  - cbn. rewrite Heq. set_solver.
Qed.

Lemma column_positions_None cs name :
  column_positions cs !! name = None ↔ name ∉ map Name cs.
Proof.
  induction cs as [|c cs IH] using rev_ind; [set_solver|].
  rewrite column_positions_snoc, lookup_insert_None, IH, map_app, elem_of_app. set_solver.
Qed.

(** ** The two loops *)

Lemma slices_Index_snoc names n name :
  slices_Index (names ++ [n]) name =
    match slices_Index names name with
    | Some i => Some i
    | None => if decide (n = name) then Some (length names) else None
    end.
Proof.
  induction names as [|m names IH]; cbn; [by case_decide|]. destruct (decide (m = name)); [done|]. rewrite IH.
  destruct (slices_Index names name); cbn; [done|]. by case_decide.
Qed.

Definition given (names : list bytes) (input : Row) (c : Schema.Column) : Value :=
  default NullValue (slices_Index names (Name c) ≫= λ j, input !! j).

Section named.
Context (t : Table) (input : Row) (Hnd : NoDup (map Name (Columns t))).
Notation init := (replicate (length (Columns t)) NullValue, replicate (length (Columns t)) false).
Notation fill := (fill_column (column_positions (Columns t)) input).

Lemma given_snoc names name v i c :
  name ∉ names → input !! length names = Some v → Columns t !! i = Some c → Name c = name →
  map (given (names ++ [name]) input) (Columns t) = <[i := v]> (map (given names input) (Columns t)) ∧
  map (λ c, bool_decide (Name c ∈ names ++ [name])) (Columns t) =
    <[i := true]> (map (λ c, bool_decide (Name c ∈ names)) (Columns t)).
Proof.
  intros Hnew Hv Hi <-. assert (i < length (Columns t))%nat as Hlt by by eapply lookup_lt_Some.
  assert (∀ j c', Columns t !! j = Some c' → j ≠ i → Name c ≠ Name c') as Hne.
  { intros j c' Hj Hji Heq. apply Hji. eapply NoDup_lookup; [exact Hnd| |].
    - by rewrite list_lookup_fmap, Hj.
    - rewrite list_lookup_fmap, Hi. cbn. by rewrite Heq. }
  split; apply list_eq; intros j; destruct (decide (j = i)) as [->|Hji].
  1,3: rewrite list_lookup_insert_eq by (by rewrite length_map); rewrite list_lookup_fmap, Hi; cbn; f_equal.
  - unfold given. rewrite slices_Index_snoc. apply slices_Index_None in Hnew as ->.
    rewrite decide_True by done. cbn. by rewrite Hv.
  - apply bool_decide_eq_true. set_solver.
  - rewrite list_lookup_insert_ne by done. rewrite !list_lookup_fmap.
    destruct (Columns t !! j) as [c'|] eqn:Hj; cbn; [|done]. f_equal. unfold given.
    rewrite slices_Index_snoc. destruct (slices_Index names (Name c')); [done|].
    by rewrite decide_False by (eapply Hne; done).
  - rewrite list_lookup_insert_ne by done. rewrite !list_lookup_fmap.
    destruct (Columns t !! j) as [c'|] eqn:Hj; cbn; [|done]. f_equal.
    apply bool_decide_ext. pose proof (Hne _ _ Hj Hji). set_solver.
Qed.

Lemma fill_columns_spec names acc :
  rfoldl fill init (imap pair names) = Ok acc ↔
  NoDup names ∧ (length names ≤ length input)%nat ∧
  (∀ name, name ∈ names → name ∈ map Name (Columns t)) ∧
  acc = (map (given names input) (Columns t), map (λ c, bool_decide (Name c ∈ names)) (Columns t)).
Proof.
  revert acc. induction names as [|name names IH] using rev_ind; intros acc.
  - cbn [imap rfoldl length].
    assert (map (given [] input) (Columns t) = replicate (length (Columns t)) NullValue) as ->.
    { generalize (Columns t). induction l as [|c cs IH]; [done|]. cbn. f_equal. exact IH. }
    assert (map (λ c, bool_decide (Name c ∈ [])) (Columns t) = replicate (length (Columns t)) false) as ->.
    { generalize (Columns t). induction l as [|c cs IH]; [done|]. cbn. f_equal. exact IH. }
    split; [intros [= <-]; repeat split; [constructor|lia|set_solver]|by intros (_ & _ & _ & ->)].
  - rewrite imap_app, rfoldl_app. cbn. rewrite Nat.add_0_r.
    rewrite rbind_Ok. setoid_rewrite IH. rewrite length_app. cbn [length].
    assert (NoDup (names ++ [name]) ↔ NoDup names ∧ name ∉ names) as ->.
    { rewrite NoDup_app. split; [intros (? & Hx & _); split; [done|]; intros Hin; apply (Hx name); set_solver|].
      intros [? Hn]. split; [done|]. split; [set_solver|]. apply NoDup_singleton. }
    split.
    + intros (acc' & (Hn & Hlen & Hin & ->) & H). inv_ok. unfold fill_column in H.
      destruct (column_positions (Columns t) !! name) as [i|] eqn:Hp; [|done].
      apply column_positions_Some in Hp as (c & Hi & <-). inv_ok.
      rewrite list_lookup_fmap, Hi in H. cbn in H. injection H as <-.
      case_bool_decide as Hm; [done|]. inv_ok.
      match goal with H : input !! _ = Some ?v |- _ => rename H into Hv end.
      repeat match goal with H : rstore _ _ _ = Ok _ |- _ => apply rstore_Ok in H as [? ->] end.
      destruct (given_snoc names (Name c) _ i c Hm Hv Hi eq_refl) as [-> ->].
      apply lookup_lt_Some in Hv. repeat split; [done|done|lia|].
      intros n [?| ->%list_elem_of_singleton]%elem_of_app; [by apply Hin|].
      apply list_elem_of_fmap. exists c. split; [done|]. by eapply list_elem_of_lookup_2.
    + intros ([Hn Hnew] & Hlen & Hin & ->). eexists.
      split; [repeat split; [done|lia|set_solver]|].
      assert (name ∈ map Name (Columns t)) as Hname by set_solver.
      apply list_elem_of_fmap in Hname as (c & Hc & [i Hi]%list_elem_of_lookup).
      subst name. unfold fill_column. rewrite (column_positions_unique _ _ _ Hnd Hi).
      destruct (lookup_lt_is_Some_2 input (length names)) as [v Hv]; [lia|].
      unfold rindex. rewrite list_lookup_fmap, Hi. cbn.
      rewrite bool_decide_eq_false_2 by done. rewrite Hv. cbn.
      unfold rstore. rewrite !length_map, !decide_True by by eapply lookup_lt_Some.
      cbn. by destruct (given_snoc names (Name c) v i c Hnew Hv Hi eq_refl) as [-> ->].
Qed.

End named.

Lemma Forall2_imap_pair {A B} (P : nat → A → B → Prop) (l : list A) (k : list B) :
  Forall2 (λ p b, P p.1 p.2 b) (imap pair l) k ↔
  length k = length l ∧ ∀ i a, l !! i = Some a → ∃ b, k !! i = Some b ∧ P i a b.
Proof.
  rewrite Forall2_same_length_lookup, length_imap. split.
  - intros [Hl HP]. split; [done|]. intros i a Hi.
    destruct (lookup_lt_is_Some_2 k i) as [b Hb]; [rewrite <-Hl; by eapply lookup_lt_Some|].
    exists b. split; [done|]. apply (HP i (i, a) b); [|done]. by rewrite list_lookup_imap, Hi.
  - intros [Hl HP]. split; [done|]. intros i [j a] b Hi Hb. rewrite list_lookup_imap in Hi.
    destruct (l !! i) as [a'|] eqn:Ha; [|done]. cbn in Hi. injection Hi as <- <-.
    destruct (HP i a' Ha) as (b' & Hb' & HPb). cbn. congruence.
Qed.

(** the value column [i] gets in the second loop *)
Definition filled_or_default (filled : list bool) (row : Row) (i : nat) (c : Schema.Column) : option Value :=
  match filled !! i with
  | Some true => row !! i
  | Some false => Default c
  | None => None
  end.

Lemma fill_defaults_spec filled row cs full :
  length filled = length row → (length cs ≤ length row)%nat →
  rfoldl (fill_default filled) row (imap pair cs) = Ok full ↔
  ∃ vs, Forall2 (λ p v, filled_or_default filled row p.1 p.2 = Some v) (imap pair cs) vs ∧
        full = vs ++ drop (length cs) row.
Proof.
  intros Hlen. revert full. induction cs as [|c cs IH] using rev_ind; intros full Hle.
  - cbn. split; [intros [= <-]; by exists []|]. intros (vs & Hvs & ->). by inversion Hvs.
  - rewrite length_app in *. cbn [length] in *.
    rewrite imap_app, rfoldl_app, rbind_Ok. cbn [imap rfoldl]. setoid_rewrite IH; [|lia].
    cbn. rewrite Nat.add_0_r.
    destruct (lookup_lt_is_Some_2 row (length cs)) as [v Hv]; [lia|].
    destruct (lookup_lt_is_Some_2 filled (length cs)) as [b Hb]; [lia|].
    assert (∀ vs, length vs = length cs → vs ++ drop (length cs) row = (vs ++ [v]) ++ drop (length cs + 1) row) as Hdrop.
    { intros vs _. rewrite <-app_assoc. cbn. f_equal. rewrite Nat.add_1_r. by apply drop_S. }
    assert (∀ vs w, length vs = length cs →
      <[length cs := w]> (vs ++ drop (length cs) row) = (vs ++ [w]) ++ drop (length cs + 1) row) as Hins.
    { intros vs w Hvs. rewrite Hdrop, <-!app_assoc by done.
      rewrite <-Hvs, <-(Nat.add_0_r (length vs)) at 1. by rewrite insert_app_r. }
    split.
    + intros (row' & (vs & Hvs & ->) & H). inv_ok. unfold fill_default in H. inv_ok.
      match goal with H : filled !! _ = Some ?x |- _ => rewrite Hb in H; injection H as <- end.
      assert (length vs = length cs) as Hlvs by (apply Forall2_length in Hvs; by rewrite length_imap in Hvs).
      assert (∃ w, filled_or_default filled row (length cs) c = Some w ∧
        full = (vs ++ [w]) ++ drop (length cs + 1) row) as (w & Hw & ->).
      { unfold filled_or_default. rewrite Hb. destruct b; inv_ok.
        - exists v. split; [done|]. by apply Hdrop.
        - match goal with H : default_value _ _ = Ok _ |- _ => apply default_value_Ok in H as -> end.
          match goal with H : rstore _ _ _ = Ok _ |- _ => apply rstore_Ok in H as [_ ->] end.
          eexists. split; [done|]. by apply Hins. }
      exists (vs ++ [w]). split; [|done]. apply Forall2_app; [done|]. by repeat constructor.
    + intros (vs & Hvs & ->). apply Forall2_app_inv_l in Hvs as (vs1 & vs2 & Hvs1 & Hvs2 & ->).
      inversion Hvs2 as [|? w ? vs3 Hw Hnil]; subst. inversion Hnil; subst.
      assert (length vs1 = length cs) as Hlvs by (apply Forall2_length in Hvs1; by rewrite length_imap in Hvs1).
      eexists. split; [by exists vs1|]. cbn in Hw. unfold filled_or_default in Hw. unfold rindex. rewrite Hb in *.
      cbn. destruct b; cbn.
      * f_equal. rewrite Hv in Hw. injection Hw as <-. by apply Hdrop.
      * unfold default_value. rewrite Hw. cbn. unfold rstore.
        rewrite decide_True; [cbn; f_equal; by apply Hins|]. rewrite length_app, length_drop. lia.
Qed.

Definition inserts (t : Table) (columnNames : list bytes) (input full : Row) : Prop :=
  length full = length (Columns t) ∧
  ∀ i c, Columns t !! i = Some c → ∃ v, full !! i = Some v ∧ insert_value columnNames input i c = Some v.

Lemma default_values_Ok err cs vs :
  rmapM (default_value err) cs = Ok vs ↔ Forall2 (λ c v, Default c = Some v) cs vs.
Proof.
  rewrite rmapM_Ok. split; intros H; (eapply Forall2_impl; [exact H|]); intros c v; apply default_value_Ok.
Qed.

Lemma insert_value_nil input i c :
  insert_value [] input i c = match input !! i with Some v => Some v | None => Default c end.
Proof. done. Qed.

Lemma insert_value_named names input i c :
  names ≠ [] →
  insert_value names input i c =
    match slices_Index names (Name c) ≫= λ j, input !! j with Some v => Some v | None => Default c end.
Proof. intros Hne. unfold insert_value. by rewrite decide_False. Qed.

(** without column names *)
Lemma inserts_positional t input full :
  (length input ≤ length (Columns t))%nat →
  (∃ tail, rmapM (default_value (Errorf "no default value for column %q")) (drop (length input) (Columns t)) = Ok tail ∧
     full = input ++ tail) ↔ inserts t [] input full.
Proof.
  intros Hle. unfold inserts. setoid_rewrite insert_value_nil. setoid_rewrite default_values_Ok. split.
  - intros (tail & Htail & ->). pose proof (Forall2_length _ _ _ Htail) as Hl. rewrite length_drop in Hl.
    split; [rewrite length_app; lia|]. intros i c Hi.
    destruct (lookup_lt_is_Some_2 (input ++ tail) i) as [v Hv].
    { rewrite length_app. apply lookup_lt_Some in Hi. lia. }
    exists v. split; [done|]. apply lookup_app_Some in Hv as [Hv|[Hge Hv]]; [by rewrite Hv|].
    rewrite lookup_ge_None_2 by done.
    destruct (Forall2_lookup_r _ _ _ _ _ Htail Hv) as (c' & Hc' & Hd).
    rewrite lookup_drop in Hc'. replace (length input + (i - length input))%nat with i in Hc' by lia. congruence.
  - intros (Hl & HP). exists (drop (length input) full).
    assert (full = input ++ drop (length input) full) as Heq.
    { rewrite <-(take_drop (length input) full) at 1. f_equal. apply list_eq. intros i.
      destruct (decide (i < length input)%nat) as [Hi|Hi].
      - rewrite lookup_take_lt by done. destruct (lookup_lt_is_Some_2 (Columns t) i) as [c Hc]; [lia|].
        destruct (HP i c Hc) as (v & -> & Hv). destruct (lookup_lt_is_Some_2 input i Hi) as [w Hw].
        rewrite Hw in *. done.
      - rewrite lookup_take_ge, lookup_ge_None_2 by lia. done. }
    split; [|by rewrite <-Heq]. apply Forall2_same_length_lookup_2; [rewrite !length_drop; lia|].
    intros i c v. rewrite !lookup_drop. intros Hc Hv. destruct (HP _ _ Hc) as (w & Hw & Hd).
    rewrite lookup_ge_None_2 in Hd by lia. congruence.
Qed.

(** with column names *)
Lemma inserts_named t names input full :
  names ≠ [] → length names = length input →
  rfoldl (fill_default (map (λ c, bool_decide (Name c ∈ names)) (Columns t)))
    (map (given names input) (Columns t)) (imap pair (Columns t)) = Ok full ↔ inserts t names input full.
Proof.
  intros Hne Hlen. unfold inserts.
  rewrite fill_defaults_spec by (by rewrite !length_map).
  rewrite drop_ge by (by rewrite length_map).
  assert (∀ i c, Columns t !! i = Some c →
    filled_or_default (map (λ c, bool_decide (Name c ∈ names)) (Columns t))
      (map (given names input) (Columns t)) i c = insert_value names input i c) as Hf.
  { intros i c Hi. rewrite insert_value_named by done. unfold filled_or_default. rewrite !list_lookup_fmap, Hi. cbn.
    destruct (slices_Index names (Name c)) as [j|] eqn:Hj.
    - rewrite bool_decide_eq_true_2.
      + unfold given. rewrite Hj. cbn. pose proof (slices_Index_lt _ _ _ Hj) as Hlt.
        destruct (lookup_lt_is_Some_2 input j) as [v Hv]; [lia|]. by rewrite Hv.
      + apply slices_Index_Some in Hj as [Hj _]. by eapply list_elem_of_lookup_2.
    - by rewrite bool_decide_eq_false_2 by (by apply slices_Index_None). }
  set (value_at := filled_or_default _ _) in *.
  pose proof (Forall2_imap_pair (λ i c v, value_at i c = Some v) (Columns t)) as Hpair. split.
  - intros (vs & Hvs & ->). rewrite app_nil_r. apply Hpair in Hvs as [Hl Hvs].
    split; [done|]. intros i c Hi. destruct (Hvs i c Hi) as (v & Hv & Hfv). exists v. by rewrite <-(Hf i).
  - intros [Hl HP]. exists full. rewrite app_nil_r. split; [|done]. apply Hpair.
    split; [done|]. intros i c Hi. destruct (HP i c Hi) as (v & Hv & Hfv). exists v. by rewrite Hf.
Qed.

(** [makeInsertRow] accepts exactly the fitting columns with defaults for the
    others, and gives every column its value *)
Lemma makeInsertRow_spec t columnNames input full :
  NoDup (map Name (Columns t)) →
  makeInsertRow t columnNames input = Ok full ↔
  columns_given t columnNames input ∧ inserts t columnNames input full.
Proof.
  intros Hnd. unfold makeInsertRow, columns_given.
  destruct (decide (columnNames = [])) as [->|Hne].
  - case_decide as Hlen; [split; [done|intros [? _]; lia]|].
    rewrite <-inserts_positional by lia. rewrite rbind_Ok. split.
    + intros (tail & Ht & [= <-]). split; [lia|]. by exists tail.
    + intros (_ & tail & Ht & ->). by exists tail.
  - case_decide as Hlen; [split; [done|intros [[? _] _]; done]|].
    rewrite <-inserts_named by done. rewrite rbind_Ok. split.
    + intros (acc & Hacc & Hfull). apply (fill_columns_spec t input Hnd) in Hacc as (? & ? & ? & ->). done.
    + intros ((_ & Hnn & Hin) & Hfull). exists (map (given columnNames input) (Columns t), map (λ c, bool_decide (Name c ∈ columnNames)) (Columns t)).
      split; [|exact Hfull]. apply (fill_columns_spec t input Hnd). repeat split; try done. lia.
Qed.

(** ** Whatever the table, building a row does not panic *)

Lemma elem_of_imap_pair {A} (l : list A) i a : (i, a) ∈ imap pair l → l !! i = Some a.
Proof.
  intros [j Hj]%list_elem_of_lookup. rewrite list_lookup_imap in Hj.
  destruct (l !! j) eqn:E; [|done]. cbn in Hj. by injection Hj as -> ->.
Qed.

Section safety.
Context (t : Table) (input : Row) (P : Value → Prop).
Hypothesis null_P : P NullValue.
Hypothesis input_P : Forall P input.
Hypothesis default_P : ∀ c v, c ∈ Columns t → Default c = Some v → P v.

Definition acc_ok (acc : Row * list bool) : Prop :=
  length acc.1 = length (Columns t) ∧ length acc.2 = length (Columns t) ∧ Forall P acc.1.

Lemma fill_column_safe acc i name :
  acc_ok acc → (i < length input)%nat →
  no_panic (fill_column (column_positions (Columns t)) input acc (i, name)) ∧
  ∀ acc', fill_column (column_positions (Columns t)) input acc (i, name) = Ok acc' → acc_ok acc'.
Proof.
  destruct acc as [row filled]. intros (Hr & Hf & HP) Hi. cbn in Hr, Hf, HP. unfold fill_column.
  destruct (column_positions _ !! name) as [j|] eqn:Hj; [|done].
  apply column_positions_Some in Hj as (c & Hj%lookup_lt_Some & _).
  destruct (lookup_lt_is_Some_2 filled j) as [b Hb]; [lia|].
  destruct (lookup_lt_is_Some_2 input i Hi) as [v Hv].
  unfold rindex, rstore. rewrite Hb, Hv. cbn [rbind]. destruct b; [done|].
  rewrite !decide_True by lia. cbn [rbind]. split; [done|]. intros acc' [= <-].
  unfold acc_ok. cbn [fst snd]. rewrite !length_insert. repeat split; try done.
  apply Forall_insert; [done|]. apply (proj1 (Forall_forall _ _) input_P).
  by eapply list_elem_of_lookup_2.
Qed.

Lemma fill_default_safe filled row i c :
  length filled = length (Columns t) → length row = length (Columns t) → Forall P row →
  Columns t !! i = Some c →
  no_panic (fill_default filled row (i, c)) ∧
  ∀ row', fill_default filled row (i, c) = Ok row' → length row' = length (Columns t) ∧ Forall P row'.
Proof.
  intros Hf Hr HP Hc. pose proof (lookup_lt_Some _ _ _ Hc) as Hi. unfold fill_default.
  destruct (lookup_lt_is_Some_2 filled i) as [b Hb]; [lia|]. unfold rindex. rewrite Hb. cbn [rbind].
  destruct b; [naive_solver|]. unfold default_value. destruct (Default c) as [v|] eqn:Hd; [|done].
  cbn [rbind]. unfold rstore. rewrite decide_True by lia. split; [done|]. intros row' [= <-].
  rewrite length_insert. split; [done|]. apply Forall_insert; [done|].
  eapply default_P; [|done]. by eapply list_elem_of_lookup_2.
Qed.

Lemma makeInsertRow_safe columnNames :
  no_panic (makeInsertRow t columnNames input) ∧
  ∀ full, makeInsertRow t columnNames input = Ok full → Forall P full.
Proof.
  unfold makeInsertRow. case_decide as Hne.
  - case_decide as Hle; [done|]. split.
    + apply no_panic_bind; [|done]. apply rmapM_no_panic, Forall_forall. intros c _.
      unfold default_value. by destruct (Default c).
    + intros full H. inv_ok. apply default_values_Ok in H. apply Forall_app. split; [done|].
      apply Forall_forall. intros v [i Hi]%list_elem_of_lookup.
      destruct (Forall2_lookup_r _ _ _ _ _ H Hi) as (c & Hc & Hd). eapply default_P; [|exact Hd].
      rewrite lookup_drop in Hc. by eapply list_elem_of_lookup_2.
  - case_decide as Hlen; [done|].
    assert (∀ acc item, item ∈ imap pair columnNames → acc_ok acc →
      no_panic (fill_column (column_positions (Columns t)) input acc item) ∧
      ∀ acc', fill_column (column_positions (Columns t)) input acc item = Ok acc' → acc_ok acc') as Hfill.
    { intros acc [i name] Hin%elem_of_imap_pair Hacc. apply fill_column_safe; [done|].
      apply lookup_lt_Some in Hin. lia. }
    assert (acc_ok (replicate (length (Columns t)) NullValue, replicate (length (Columns t)) false)) as Hinit.
    { split; [apply length_replicate|]. split; [apply length_replicate|]. by apply Forall_replicate. }
    assert (∀ filled row item, length filled = length (Columns t) → item ∈ imap pair (Columns t) →
      length row = length (Columns t) ∧ Forall P row →
      no_panic (fill_default filled row item) ∧
      ∀ row', fill_default filled row item = Ok row' → length row' = length (Columns t) ∧ Forall P row') as Hdef.
    { intros filled row [i c] Hf Hin%elem_of_imap_pair [Hl HP]. by apply fill_default_safe. }
    split.
    + apply no_panic_bind; [by apply (rfoldl_no_panic acc_ok); [|intros; apply Hfill]|].
      intros [row filled] Hacc. apply (rfoldl_inv acc_ok) in Hacc as (Hr & Hf & HP); [|done|].
      * apply (rfoldl_no_panic (λ row, length row = length (Columns t) ∧ Forall P row)); [done|].
        intros; by apply Hdef.
      * intros acc item acc' Hin Hacc'. by apply Hfill.
    + intros full H. inv_ok. destruct x as [row filled].
      match goal with H : rfoldl (fill_column _ _) _ _ = _ |- _ =>
        apply (rfoldl_inv acc_ok) in H as (Hr & Hf & HP); [|done|by intros; eapply Hfill] end.
      match goal with H : rfoldl (fill_default _) _ _ = _ |- _ =>
        apply (rfoldl_inv (λ row, length row = length (Columns t) ∧ Forall P row)) in H as [_ ?]; try done end.
      intros; by eapply Hdef.
Qed.

End safety.
