(* ===== verification/Keys.v ===== *)
(** * Keys of tables and rows ([engine/kv.go], from [tableKey] on) *)

From S2P Require Import Prelude Bytes Types Floats MvccKey.

Definition keyNamespaceTable : byte := x01.
Definition keyNamespaceRow : byte := x02.
Definition keySeparator : byte := x00.

Definition primaryKeyNull : byte := x00.
Definition primaryKeyBoolean : byte := x01.
Definition primaryKeyInteger : byte := x02.
Definition primaryKeyFloat : byte := x03.
Definition primaryKeyString : byte := x04.

(** [math.Float64bits]; the code never stores a NaN, whose bits are those of
    [math.NaN] here *)
Definition Float64bits (x : float64) : Z :=
  let sign (s : bool) := if s then 2 ^ 63 else 0 in
  match x with
  | S754_zero s => sign s
  | S754_infinity s => sign s + 2047 * 2 ^ 52
  | S754_nan => 2047 * 2 ^ 52 + 2 ^ 51 + 1
  | S754_finite s m e => sign s + (e + 1074) * 2 ^ 52 + Zpos m
  end.

Definition encodePrimaryKey (value : Value) : result bytes :=
  match Kind value with
  | ValueNull => Ok [primaryKeyNull]
  | ValueBoolean => Ok [primaryKeyBoolean; if vBoolean value then x01 else x00]
  | ValueInteger =>
      let ordered := Z.lxor (uint64 (vInteger value)) (Z.shiftl 1 63) in
      Ok (primaryKeyInteger :: be_put 8 ordered)
  | ValueFloat =>
      let bits := Float64bits (vFloat value) in
      let bits :=
        if negb (Z.land bits (Z.shiftl 1 63) =? 0)
        then Z.lxor bits (2 ^ 64 - 1)
        else Z.lxor bits (Z.shiftl 1 63) in
      Ok (primaryKeyFloat :: be_put 8 bits)
  | ValueString => Ok (primaryKeyString :: vStr value)
  | ValueInvalid _ => Err (Errorf "unsupported value kind %d")
  end.

Definition tableKey (tableName : bytes) : result bytes :=
  if decide (tableName = []) then Err (Errorf "engine: table name cannot be empty")
  else Ok (keyNamespaceTable :: tableName).

Definition rowPrefixKey (tableName : bytes) : result bytes :=
  if decide (tableName = []) then Err (Errorf "engine: table name cannot be empty")
  else Ok (keyNamespaceRow :: tableName ++ [keySeparator]).

Definition rowKey (tableName : bytes) (primary : Value) : result bytes :=
  let? prefix := rowPrefixKey tableName in
  let? encodedPrimary :=
    rwrap "engine: encoding primary key for table %q: %w" (encodePrimaryKey primary) in
  Ok (prefix ++ encodedPrimary).

(** ** The order of the keys *)

Lemma lxor_sign z : 0 ≤ z < 2 ^ 64 →
  Z.lxor z (2 ^ 63) = if z <? 2 ^ 63 then z + 2 ^ 63 else z - 2 ^ 63.
Proof.
  intros Hz. destruct (Z.ltb_spec z (2 ^ 63)) as [Hlt|Hge].
  - rewrite Z.add_nocarry_lxor; [done|]. apply Z.bits_inj'. intros n Hn.
    rewrite Z.land_spec, Z.bits_0, Z.pow2_bits_eqb by lia.
    destruct (Z.eqb_spec 63 n) as [<-|]; [|by rewrite andb_false_r].
    rewrite andb_true_r. destruct (Z.eq_dec z 0) as [->|]; [apply Z.bits_0|].
    apply Z.bits_above_log2; [lia|]. apply Z.log2_lt_pow2; lia.
  - rewrite Z.sub_nocarry_ldiff.
    + apply Z.bits_inj'. intros n Hn. rewrite Z.lxor_spec, Z.ldiff_spec, Z.pow2_bits_eqb by lia.
      destruct (Z.eqb_spec 63 n) as [<-|]; [|by rewrite xorb_false_r, andb_true_r].
      assert (Z.testbit z 63 = true) as ->; [|done].
      apply Z.testbit_true; [lia|]. assert (z / 2 ^ 63 = 1) as ->; [|done].
      symmetry. apply Z.div_unique with (z - 2 ^ 63); lia.
    + apply Z.bits_inj'. intros n Hn. rewrite Z.ldiff_spec, Z.bits_0, Z.pow2_bits_eqb by lia.
      destruct (Z.eqb_spec 63 n) as [<-|]; [|done]. rewrite andb_true_l.
      assert (Z.testbit z 63 = true) as ->; [|done].
      apply Z.testbit_true; [lia|]. assert (z / 2 ^ 63 = 1) as ->; [|done].
      symmetry. apply Z.div_unique with (z - 2 ^ 63); lia.
Qed.

Lemma lxor_ones z : 0 ≤ z < 2 ^ 64 → Z.lxor z (2 ^ 64 - 1) = 2 ^ 64 - 1 - z.
Proof.
  intros Hz. change (2 ^ 64 - 1) with (Z.ones 64) at 1 2.
  rewrite Z.sub_nocarry_ldiff.
  - apply Z.bits_inj'. intros n Hn. rewrite Z.lxor_spec, Z.ldiff_spec.
    destruct (Z.lt_ge_cases n 64).
    + rewrite Z.ones_spec_low by lia. by destruct (Z.testbit z n).
    + rewrite Z.ones_spec_high by lia. rewrite xorb_false_r.
      destruct (Z.eq_dec z 0) as [->|]; [apply Z.bits_0|].
      apply Z.bits_above_log2; [lia|]. enough (Z.log2 z < 64) by lia. apply Z.log2_lt_pow2; lia.
  - apply Z.bits_inj'. intros n Hn. rewrite Z.ldiff_spec, Z.bits_0.
    destruct (Z.lt_ge_cases n 64).
    + by rewrite Z.ones_spec_low, andb_false_r by lia.
    + rewrite Z.ones_spec_high, andb_true_r by lia.
      destruct (Z.eq_dec z 0) as [->|]; [apply Z.bits_0|].
      apply Z.bits_above_log2; [lia|]. enough (Z.log2 z < 64) by lia. apply Z.log2_lt_pow2; lia.
Qed.

Lemma ordered_int i : in_int64 i → Z.lxor (uint64 i) (Z.shiftl 1 63) = i + 2 ^ 63.
Proof.
  unfold in_int64, min_int64, max_int64. intros Hi. change (Z.shiftl 1 63) with (2 ^ 63).
  assert (uint64 i = if i <? 0 then i + 2 ^ 64 else i) as ->.
  { unfold uint64. destruct (Z.ltb_spec i 0).
    - rewrite <-(Z_mod_plus_full i 1). apply Z.mod_small. lia.
    - apply Z.mod_small. lia. }
  destruct (Z.ltb_spec i 0); rewrite lxor_sign by lia.
  - destruct (Z.ltb_spec (i + 2 ^ 64) (2 ^ 63)); lia.
  - destruct (Z.ltb_spec i (2 ^ 63)); lia.
Qed.

(** the bits of the magnitude of a finite number *)
Definition magnitude (m : positive) (e : Z) : Z := (e + 1074) * 2 ^ 52 + Zpos m.

Lemma finite_range s m e :
  float_wf (S754_finite s m e) = true →
  -1074 ≤ e ≤ 971 ∧ Zpos m < 2 ^ 53 ∧ (-1074 < e → 2 ^ 52 ≤ Zpos m).
Proof.
  unfold float_wf, valid_binary, bounded, canonical_mantissa, fexp, emin, prec, emax.
  rewrite andb_true_iff, Zle_is_le_bool. intros [Hc%Zeq_bool_eq He].
  pose proof (digits2_pos_bounds m) as [Hlo Hhi].
  assert (Zpos (digits2_pos m) ≤ 53) by lia.
  assert (2 ^ Zpos (digits2_pos m) ≤ 2 ^ 53) by (apply Z.pow_le_mono_r; lia).
  split; [lia|]. split; [lia|]. intros Hlt.
  assert (Zpos (digits2_pos m) = 53) as Hd by lia. rewrite Hd in Hlo. exact Hlo.
Qed.

Lemma magnitude_range s m e :
  float_wf (S754_finite s m e) = true → 0 < magnitude m e < 2047 * 2 ^ 52.
Proof. intros (He & Hm & _)%finite_range. unfold magnitude. lia. Qed.

Lemma magnitude_lt s s' m e m' e' :
  float_wf (S754_finite s m e) = true → float_wf (S754_finite s' m' e') = true →
  magnitude m e < magnitude m' e' ↔ e < e' ∨ (e = e' ∧ Zpos m < Zpos m').
Proof.
  intros (He & Hm & Hn)%finite_range (He' & Hm' & Hn')%finite_range. unfold magnitude.
  destruct (Z.lt_trichotomy e e') as [H|[H|H]]; lia.
Qed.

(** the bits with the sign folded in *)
Definition ordered_float (x : float64) : Z :=
  match x with
  | S754_zero true => 2 ^ 63 - 1
  | S754_zero false => 2 ^ 63
  | S754_infinity true => 2 ^ 63 - 1 - 2047 * 2 ^ 52
  | S754_infinity false => 2 ^ 63 + 2047 * 2 ^ 52
  | S754_nan => 2 ^ 63 + 2047 * 2 ^ 52 + 2 ^ 51 + 1
  | S754_finite true m e => 2 ^ 63 - 1 - magnitude m e
  | S754_finite false m e => 2 ^ 63 + magnitude m e
  end.

Lemma ordered_float_bits x :
  float_wf x = true →
  let bits := Float64bits x in
  (if negb (Z.land bits (Z.shiftl 1 63) =? 0) then Z.lxor bits (2 ^ 64 - 1)
   else Z.lxor bits (Z.shiftl 1 63)) = ordered_float x.
Proof.
  intros Hx. cbn zeta. destruct x as [[]|[]| |[] m e]; try done.
  all: pose proof (magnitude_range _ m e Hx) as Hr; cbn [Float64bits ordered_float].
  all: change (Z.shiftl 1 63) with (2 ^ 63).
  - replace (2 ^ 63 + (e + 1074) * 2 ^ 52 + Z.pos m) with (2 ^ 63 + magnitude m e)
      by (unfold magnitude; lia).
    assert (Z.land (2 ^ 63 + magnitude m e) (2 ^ 63) = 2 ^ 63) as ->.
    { apply Z.bits_inj'. intros n Hn. rewrite Z.land_spec, Z.pow2_bits_eqb by lia.
      destruct (Z.eqb_spec 63 n) as [<-|]; [|by rewrite andb_false_r].
      rewrite andb_true_r. apply Z.testbit_true; [lia|].
      assert ((2 ^ 63 + magnitude m e) / 2 ^ 63 = 1) as ->; [|done].
      symmetry. apply Z.div_unique with (magnitude m e); lia. }
    change (negb (2 ^ 63 =? 0)) with true. rewrite lxor_ones by lia. lia.
  - replace (0 + (e + 1074) * 2 ^ 52 + Z.pos m) with (magnitude m e) by (unfold magnitude; lia).
    assert (Z.land (magnitude m e) (2 ^ 63) = 0) as ->.
    { apply Z.bits_inj'. intros n Hn. rewrite Z.land_spec, Z.bits_0, Z.pow2_bits_eqb by lia.
      destruct (Z.eqb_spec 63 n) as [<-|]; [|by rewrite andb_false_r].
      rewrite andb_true_r. apply Z.bits_above_log2; [lia|]. apply Z.log2_lt_pow2; lia. }
    change (negb (0 =? 0)) with false. cbn [negb]. rewrite lxor_sign by lia.
    destruct (Z.ltb_spec (magnitude m e) (2 ^ 63)); lia.
Qed.

Lemma ordered_float_range x : float_wf x = true → 0 ≤ ordered_float x < 2 ^ 64.
Proof.
  intros Hx. destruct x as [[]|[]| |[] m e]; cbn; try lia;
    pose proof (magnitude_range _ m e Hx); lia.
Qed.

Lemma ordered_float_lt x y :
  float_wf x = true → float_wf y = true → is_nan x = false → is_nan y = false →
  lex (float_key x) (float_key y) = Lt → ordered_float x < ordered_float y.
Proof.
  intros Hx Hy Nx Ny.
  destruct x as [[]|[]| |[] m e], y as [[]|[]| |[] m' e']; try done; cbn -[Z.opp Z.compare];
    try (pose proof (magnitude_range _ m e Hx)); try (pose proof (magnitude_range _ m' e' Hy)); try lia.
  - intros Hl. enough (magnitude m' e' < magnitude m e) by lia.
    apply (magnitude_lt _ _ _ _ _ _ Hy Hx). 
    destruct (Z.compare_spec (-e) (-e')); [|lia|done].
    destruct (Z.compare_spec (- Z.pos m) (- Z.pos m')); [done|lia|done].
  - intros Hl. enough (magnitude m e < magnitude m' e') by lia.
    apply (magnitude_lt _ _ _ _ _ _ Hx Hy).
    destruct (Z.compare_spec e e'); [|lia|done].
    destruct (Z.compare_spec (Z.pos m) (Z.pos m')); [done|lia|done].
Qed.

Lemma ordered_float_inj x y :
  float_wf x = true → float_wf y = true → is_nan x = false → is_nan y = false →
  ordered_float x = ordered_float y → x = y.
Proof.
  intros Hx Hy Nx Ny Heq.
  destruct (lex (float_key x) (float_key y)) eqn:El.
  - apply lex_eq in El.
    destruct x as [[]|[]| |[] m e], y as [[]|[]| |[] m' e']; try done; cbn in El, Heq; try lia;
      injection El as ??; subst; f_equal; lia.
  - apply ordered_float_lt in El; [lia|done..].
  - assert (lex (float_key y) (float_key x) = Lt) as El' by (rewrite lex_antisym, El; done).
    apply ordered_float_lt in El'; [lia|done..].
Qed.

(** the key bytes of a value *)
Definition pk_bytes (v : Value) : bytes :=
  match Kind v with
  | ValueNull => [x00]
  | ValueBoolean => [x01; if vBoolean v then x01 else x00]
  | ValueInteger => x02 :: be_put 8 (vInteger v + 2 ^ 63)
  | ValueFloat => x03 :: be_put 8 (ordered_float (vFloat v))
  | ValueString => x04 :: vStr v
  | ValueInvalid _ => []
  end.

Lemma encodePrimaryKey_ok v : value_wf v → encodePrimaryKey v = Ok (pk_bytes v).
Proof.
  unfold encodePrimaryKey, pk_bytes, value_wf. destruct (Kind v); try done.
  - intros [_ Hi]. by rewrite ordered_int.
  - intros (_ & Hf & _). by rewrite ordered_float_bits.
Qed.

Lemma bytes_compare_cons x a b : bytes_compare (x :: a) (x :: b) = bytes_compare a b.
Proof. cbn [bytes_compare]. by rewrite Z.compare_refl. Qed.

Lemma pk_bytes_lt t v w :
  of_type t v → of_type t w → value_wf v → value_wf w →
  lex (value_key v) (value_key w) = Lt → blt (pk_bytes v) (pk_bytes w).
Proof.
  unfold of_type, Value_DataType, value_wf, value_key, pk_bytes, blt.
  destruct (Kind v) eqn:Ev, (Kind w) eqn:Ew; intros [Hv|Hv] [Hw|Hw] Wv Ww; try discriminate; try congruence; try done;
    rewrite bytes_compare_cons; cbn [lex]; rewrite ?Z.compare_refl.
  - by destruct (vBoolean v), (vBoolean w).
  - unfold in_int64, min_int64, max_int64 in *. rewrite be_put_compare by lia.
    intros Hl. apply Z.compare_lt_iff. destruct (Z.compare_spec (vInteger v) (vInteger w)); [done|lia|done].
  - destruct Wv as (_ & ? & ?), Ww as (_ & ? & ?).
    pose proof (ordered_float_range (vFloat v)). pose proof (ordered_float_range (vFloat w)).
    rewrite be_put_compare by auto. intros Hl. apply Z.compare_lt_iff. by apply ordered_float_lt.
  - by rewrite bytes_compare_lex.
Qed.

Lemma pk_bytes_inj v w : value_wf v → value_wf w → pk_bytes v = pk_bytes w → v = w.
Proof.
  unfold value_wf, pk_bytes. destruct (Kind v) eqn:Ev, (Kind w) eqn:Ew; try done; intros Wv Ww Heq.
  - by rewrite Wv, Ww.
  - rewrite Wv, Ww. by destruct (vBoolean v), (vBoolean w).
  - destruct Wv as [Wv Hv], Ww as [Ww Hw]. rewrite Wv, Ww. f_equal.
    apply (f_equal (drop 1)), be_put_inj in Heq; unfold in_int64, min_int64, max_int64 in *; lia.
  - destruct Wv as (Wv & ? & ?), Ww as (Ww & ? & ?). rewrite Wv, Ww. f_equal.
    pose proof (ordered_float_range (vFloat v)). pose proof (ordered_float_range (vFloat w)).
    apply (f_equal (drop 1)), be_put_inj in Heq; [by apply ordered_float_inj|auto..].
  - rewrite Wv, Ww. congruence.
Qed.

(** row keys: one table's rows are the extensions of its prefix *)
Definition row_prefix (name : bytes) : bytes := x02 :: name ++ [x00].

Lemma rowPrefixKey_ok name : name ≠ [] → rowPrefixKey name = Ok (row_prefix name).
Proof. intros Hn. unfold rowPrefixKey. by rewrite decide_False. Qed.

Lemma tableKey_ok name : name ≠ [] → tableKey name = Ok (x01 :: name).
Proof. intros Hn. unfold tableKey. by rewrite decide_False. Qed.

Lemma rowKey_ok name v : name ≠ [] → value_wf v → rowKey name v = Ok (row_prefix name ++ pk_bytes v).
Proof.
  intros Hn Hv. unfold rowKey. rewrite rowPrefixKey_ok by done. cbn.
  by rewrite encodePrimaryKey_ok.
Qed.

(** names without the separator never share a row key *)
Lemma row_prefix_inj n n' a b :
  x00 ∉ n → x00 ∉ n' → row_prefix n ++ a = row_prefix n' ++ b → n = n' ∧ a = b.
Proof.
  intros Hn Hn' Heq. unfold row_prefix in Heq. injection Heq as Heq. rewrite <-!app_assoc in Heq.
  cbn in Heq. revert n' Hn' Heq. induction n as [|x n IH]; intros [|y n'] Hn' Heq; cbn in Heq.
  - by injection Heq.
  - injection Heq as <- _. set_solver.
  - injection Heq as -> _. set_solver.
  - injection Heq as <- Heq. apply IH in Heq as [-> ->]; set_solver.
Qed.
