(* ===== verification/Json.v ===== *)
(** * The JSON codec ([github.com/json-iterator/go])

    The codec is third-party code, so it is a parameter: [Json] is what
    [engine/kv.go] calls, [JsonLaws] the documented behaviour it relies on,
    that unmarshalling inverts marshalling.  JSON has no infinity and no NaN,
    and replaces bytes that are not UTF-8: the law speaks of the rest only.
    [bit_codec] is an instance for concrete runs. *)

From stdpp Require Import countable.
From S2P Require Import Prelude Bytes Types Lexer Schema.

Class Json := {
  marshal_row : Row → result bytes;
  unmarshal_row : bytes → result Row;
  marshal_table : Table → result bytes;
  unmarshal_table : bytes → result Table;
}.

(** ** Which data survive the codec *)

(** the number of continuation bytes a UTF-8 leading byte announces, with the
    range of the first of them *)
Definition utf8_lead (b : byte) : option (nat * byte * byte) :=
  if in_bytes x00 x7f b then Some (0%nat, x80, xbf)
  else if in_bytes xc2 xdf b then Some (1%nat, x80, xbf)
  else if in_bytes xe0 xe0 b then Some (2%nat, xa0, xbf)
  else if in_bytes xe1 xec b then Some (2%nat, x80, xbf)
  else if in_bytes xed xed b then Some (2%nat, x80, x9f)
  else if in_bytes xee xef b then Some (2%nat, x80, xbf)
  else if in_bytes xf0 xf0 b then Some (3%nat, x90, xbf)
  else if in_bytes xf1 xf3 b then Some (3%nat, x80, xbf)
  else if in_bytes xf4 xf4 b then Some (3%nat, x80, x8f)
  else None.

(** [utf8.Valid], with the continuation bytes still expected *)
Fixpoint utf8_from (pending : nat) (lo hi : byte) (s : bytes) : bool :=
  match s, pending with
  | [], O => true
  | [], S _ => false
  | b :: s, O =>
      match utf8_lead b with
      | Some (n, lo, hi) => utf8_from n lo hi s
      | None => false
      end
  | b :: s, S n => in_bytes lo hi b && utf8_from n x80 xbf s
  end.
Definition valid_utf8 (s : bytes) : bool := utf8_from 0 x80 xbf s.

Definition is_finite (x : float64) : bool :=
  match x with S754_infinity _ | S754_nan => false | _ => true end.

Definition value_encodable (v : Value) : Prop :=
  value_wf v ∧ (Kind v = ValueFloat → is_finite (vFloat v) = true) ∧ valid_utf8 (vStr v) = true.

Definition row_encodable (row : Row) : Prop := Forall value_encodable row.

Definition column_encodable (c : Schema.Column) : Prop :=
  valid_utf8 (Name c) = true ∧ ∀ v, Default c = Some v → value_encodable v.

Definition table_encodable (t : Table) : Prop :=
  valid_utf8 (tbl_Name t) = true ∧ Forall column_encodable (Columns t).

Class JsonLaws `{Json} := {
  marshal_row_no_panic row : no_panic (marshal_row row);
  unmarshal_row_no_panic b : no_panic (unmarshal_row b);
  marshal_table_no_panic t : no_panic (marshal_table t);
  unmarshal_table_no_panic b : no_panic (unmarshal_table b);
  unmarshal_marshal_row row :
    row_encodable row → ∃ b, marshal_row row = Ok b ∧ unmarshal_row b = Ok row;
  unmarshal_marshal_table t :
    table_encodable t → ∃ b, marshal_table t = Ok b ∧ unmarshal_table b = Ok t;
}.

(** ** An instance: a bit string for each datum *)

#[export] Instance float_countable : Countable spec_float.
Proof.
  refine (inj_countable'
    (λ x, match x with
          | S754_zero s => inl (inl s) | S754_infinity s => inl (inr s)
          | S754_nan => inr (inl ()) | S754_finite s m e => inr (inr (s, m, e))
          end)
    (λ y, match y with
          | inl (inl s) => S754_zero s | inl (inr s) => S754_infinity s
          | inr (inl _) => S754_nan | inr (inr (s, m, e)) => S754_finite s m e
          end) _).
  by intros [].
Defined.

#[export] Instance DataType_countable : Countable DataType.
Proof.
  refine (inj_countable'
    (λ t, match t with Boolean => (false, false) | Integer => (false, true)
                     | Float => (true, false) | String => (true, true) end)
    (λ p, match p with (false, false) => Boolean | (false, true) => Integer
                     | (true, false) => Float | (true, true) => String end) _).
  by intros [].
Defined.

#[export] Instance ValueKind_countable : Countable ValueKind.
Proof.
  refine (inj_countable'
    (λ k, match k with ValueNull => inl None | ValueBoolean => inl (Some Boolean)
                     | ValueInteger => inl (Some Integer) | ValueFloat => inl (Some Float)
                     | ValueString => inl (Some String) | ValueInvalid z => inr z end)
    (λ y, match y with inl None => ValueNull | inl (Some Boolean) => ValueBoolean
                     | inl (Some Integer) => ValueInteger | inl (Some Float) => ValueFloat
                     | inl (Some String) => ValueString | inr z => ValueInvalid z end) _).
  by intros [].
Defined.

#[export] Instance Value_countable : Countable Value.
Proof.
  refine (inj_countable' (λ v, (Kind v, vBoolean v, vInteger v, vFloat v, vStr v))
    (λ '(k, b, i, f, s), mkValue k b i f s) _).
  by intros [].
Defined.

#[export] Instance Column_countable : Countable Schema.Column.
Proof.
  refine (inj_countable' (λ c, (Name c, ColDataType c, Nullable c, Default c, PrimaryKey c))
    (λ '(n, t, b, d, p), Schema.mkColumn n t b d p) _).
  by intros [].
Defined.

#[export] Instance Table_countable : Countable Table.
Proof. refine (inj_countable' (λ t, (tbl_Name t, Columns t)) (λ '(n, c), mkTable n c) _). by intros []. Defined.

Fixpoint bits_of (p : positive) : bytes :=
  match p with xH => [] | xO p => x30 :: bits_of p | xI p => x31 :: bits_of p end.

Fixpoint of_bits (b : bytes) : positive :=
  match b with [] => xH | c :: b => if decide (c = x30) then xO (of_bits b) else xI (of_bits b) end.

Lemma of_bits_of p : of_bits (bits_of p) = p.
Proof.
  induction p as [p IH|p IH|]; cbn [bits_of of_bits]; [|by rewrite decide_True, IH|done].
  by rewrite decide_False, IH.
Qed.

Definition bit_decode {A} `{Countable A} (b : bytes) : result A :=
  match decode (of_bits b) with Some a => Ok a | None => Err (Errorf "json: invalid input") end.

Definition bit_codec : Json := {|
  marshal_row row := Ok (bits_of (encode row));
  unmarshal_row := bit_decode;
  marshal_table t := Ok (bits_of (encode t));
  unmarshal_table := bit_decode;
|}.

Lemma bit_decode_no_panic {A} `{Countable A} b : no_panic (bit_decode (A := A) b).
Proof. unfold bit_decode. by destruct (decode _). Qed.

Lemma bit_decode_encode {A} `{Countable A} (a : A) : bit_decode (bits_of (encode a)) = Ok a.
Proof. unfold bit_decode. by rewrite of_bits_of, decode_encode. Qed.

Lemma bit_codec_laws : @JsonLaws bit_codec.
Proof.
  split; cbn; try done; try (intros; by apply bit_decode_no_panic).
  - intros row _. eexists. split; [done|]. apply bit_decode_encode.
  - intros t _. eexists. split; [done|]. apply bit_decode_encode.
Qed.
