(* ===== verification/Relation.v ===== *)
(** * What a transaction promises to the executor

    The abstract database: relations by name, each a schema and its rows by
    primary key.  [Relational] states how the methods of [Transaction] act on
    it, and what beginning, committing and rolling back do to the database
    behind the transaction; the executor's theorems need nothing else of the
    engine.  [KvRefine.v] proves that [engine/kv.go] keeps the promise. *)

From S2P Require Import Prelude Bytes Engine Types Schema Transaction Keys Json.

(** [rel_rows]: the rows by the key bytes of their primary key, whose order is
    the order of the primary keys *)
Record relation := mkRelation { rel_schema : Table; rel_rows : gmap bytes Row }.
Abbreviation reldb := (gmap bytes relation).

(** the rows in the order of a scan *)
Definition relation_rows (r : relation) : list Row := (sorted_entries (rel_rows r)).*2.

Definition value_fits (c : Schema.Column) (v : Value) : Prop :=
  (Kind v = ValueNull ∧ Nullable c = true) ∨ Value_DataType v = Some (ColDataType c).
#[export] Instance value_fits_dec c v : Decision (value_fits c v).
Proof. unfold value_fits. apply _. Defined.

(** a row of the table: the right number of values, each of its column's type *)
Definition row_ok (t : Table) (row : Row) : Prop := Forall2 value_fits (Columns t) row.
#[export] Instance row_ok_dec t row : Decision (row_ok t row).
Proof. unfold row_ok. apply _. Defined.

(** the primary key of a row, and its key bytes *)
Definition row_primary (t : Table) (row : Row) : Value :=
  match PrimaryKeyValue t row with Ok v => v | _ => NullValue end.
Definition row_pk (t : Table) (row : Row) : bytes := pk_bytes (row_primary t row).

Definition stored_ok (t : Table) (k : bytes) (row : Row) : Prop :=
  row_ok t row ∧ row_encodable row ∧ row_pk t row = k.

Definition name_ok (name : bytes) : Prop := x00 ∉ name.

Record relation_wf (name : bytes) (r : relation) : Prop := {
  wf_table : table_ok (rel_schema r);
  wf_table_name : tbl_Name (rel_schema r) = name;
  wf_name : name_ok name;
  wf_encodable : table_encodable (rel_schema r);
  wf_rows : map_Forall (stored_ok (rel_schema r)) (rel_rows r);
}.

Definition db_wf (d : reldb) : Prop := map_Forall relation_wf d.

(** ** The operations on the abstract database *)

Definition set_rows (name : bytes) (t : Table) (rows : gmap bytes Row) (d : reldb) : reldb :=
  <[name := mkRelation t rows]> d.

Definition create_table_spec (t : Table) (d : reldb) : option reldb :=
  if decide (Validate t = Ok ()) then
    match d !! tbl_Name t with
    | Some _ => None
    | None => Some (set_rows (tbl_Name t) t ∅ d)
    end
  else None.

Definition create_row_spec (name : bytes) (row : Row) (d : reldb) : option reldb :=
  match d !! name with
  | None => None
  | Some (mkRelation t rows) =>
      if decide (row_ok t row) then
        match rows !! row_pk t row with
        | Some _ => None
        | None => Some (set_rows name t (<[row_pk t row := row]> rows) d)
        end
      else None
  end.

(** a row moves to its new primary key unless another row is there *)
Definition update_row_spec (name : bytes) (old row : Row) (d : reldb) : option reldb :=
  match d !! name with
  | None => None
  | Some (mkRelation t rows) =>
      if decide (row_ok t row) then
        if value_eqb (row_primary t old) (row_primary t row)
        then Some (set_rows name t (<[row_pk t row := row]> rows) d)
        else
          match rows !! row_pk t row with
          | Some _ => None
          | None => Some (set_rows name t (<[row_pk t row := row]> (delete (row_pk t old) rows)) d)
          end
      else None
  end.

Definition delete_row_spec (name : bytes) (row : Row) (d : reldb) : option reldb :=
  match d !! name with
  | None => None
  | Some (mkRelation t rows) => Some (set_rows name t (delete (row_pk t row) rows) d)
  end.

(** ** The promise *)

(** the circumstances of a transaction: how many more the version counter has
    room for, and whether it is calm: no other transaction is active, and the
    storage refuses no record and does not fail *)
Record regime := mkRegime { room : nat; calm : Prop }.
Definition more (n : regime) : regime := mkRegime (S (room n)) (calm n).

(** what a method that changes the database may do: what the specification
    says, or fail and leave the transaction to be rolled back; when it is calm
    it fails only where the specification does *)
Definition does {T} (calm : Prop) (sees : T → reldb → Prop) (alive : T → Prop)
    (out : T * result unit) (spec : option reldb) : Prop :=
  match out with
  | (x, Ok _) => ∃ d, spec = Some d ∧ sees x d
  | (x, Err _) => alive x ∧ (calm → spec = None)
  | (_, Panic _) => False
  end.

(** what a method that reads may do: return what the specification says and see
    the same, or fail; when it is calm it does not fail on its own *)
Definition reads {T A} (calm : Prop) (sees : T → Prop) (alive : T → Prop) (out : T * result A) (spec : result A) : Prop :=
  (out.2 = spec ∧ sees out.1) ∨ (∃ err, out.2 = Err err ∧ alive out.1 ∧ ¬ calm).

(** the end of a transaction: it leaves [d], or it fails and leaves [d0] *)
Definition ended {T M} (calm : Prop) (leaves : T → M → Prop) (out : T * result unit) (d d0 : M) : Prop :=
  match out with
  | (x, Ok _) => leaves x d
  | (x, Err _) => leaves x d0 ∧ ¬ calm
  | (_, Panic _) => False
  end.

(** [holds n D d]: [d] is what is committed in [D].  [sees n d0 x d]: the
    transaction [x], begun on [d0], sees [d].  [alive n d0 x]: an operation of
    [x] failed; it can be rolled back. *)
Class Relational (D T : Type) `{!Transaction T} `{!SQLEngine D T} := {
  holds : regime → D → reldb → Prop;
  sees : regime → reldb → T → reldb → Prop;
  alive : regime → reldb → T → Prop;
  sees_wf n d0 x d : sees n d0 x d → db_wf d;
  sees_alive n d0 x d : sees n d0 x d → alive n d0 x;
  holds_weaken n D d : holds (more n) D d → holds n D d;
  begin_ok n D d :
    holds (more n) D d →
    match dbBegin D with
    | (_, Ok x) => sees n d x d
    | (D', Err _) => holds n D' d ∧ ¬ calm n
    | (_, Panic _) => False
    end;
  commit_ok n d0 x d :
    sees n d0 x d → ended (calm n) (λ x, holds n (txnDB x)) (txnCommit x) d d0;
  rollback_ok n d0 x :
    alive n d0 x → ended (calm n) (λ x, holds n (txnDB x)) (txnRollback x) d0 d0;
  get_table_ok n d0 x d name :
    sees n d0 x d → name ≠ [] →
    reads (calm n) (λ x, sees n d0 x d) (alive n d0) (txnGetTable name x) (Ok (rel_schema <$> d !! name));
  scan_table_ok n d0 x d t r :
    sees n d0 x d → d !! tbl_Name t = Some r → rel_schema r = t →
    reads (calm n) (λ x, sees n d0 x d) (alive n d0) (txnScanTable t x) (Ok (relation_rows r));
  create_table_ok n d0 x d t :
    sees n d0 x d → name_ok (tbl_Name t) → table_encodable t →
    does (calm n) (sees n d0) (alive n d0) (txnCreateTable t x) (create_table_spec t d);
  create_row_ok n d0 x d name row :
    sees n d0 x d → name_ok name → row_encodable row →
    does (calm n) (sees n d0) (alive n d0) (txnCreateRow name row x) (create_row_spec name row d);
  update_row_ok n d0 x d t old row :
    sees n d0 x d → rel_schema <$> d !! tbl_Name t = Some t →
    row_ok t old → row_encodable old → row_encodable row → length row = length (Columns t) →
    does (calm n) (sees n d0) (alive n d0) (txnUpdateRow t (row_primary t old) row x)
      (update_row_spec (tbl_Name t) old row d);
  delete_row_ok n d0 x d t row :
    sees n d0 x d → rel_schema <$> d !! tbl_Name t = Some t →
    row_ok t row → row_encodable row →
    does (calm n) (sees n d0) (alive n d0) (txnDeleteRow t (row_primary t row) x)
      (delete_row_spec (tbl_Name t) row d);
}.

Section reads.
Context {T : Type} (calm : Prop) (sees alive : T → Prop).

Lemma reads_bind {A B} (m : ST T A) (f : A → ST T B) (g : A → result B) x spec :
  reads calm sees alive (m x) spec →
  (∀ x' a, spec = Ok a → sees x' → reads calm sees alive (f a x') (g a)) →
  reads calm sees alive (sbind m f x) (rbind spec g).
Proof.
  intros [[Hr Hs]|(err & Hr & Ha & Hc)] Hf; unfold sbind; destruct (m x) as [x' r]; cbn [fst snd] in *; subst r.
  - destruct spec as [a|err|w]; [by apply Hf|by left..].
  - right. by exists err.
Qed.

Lemma reads_lift {A} (r : result A) x : sees x → reads calm sees alive (slift r x) r.
Proof. by left. Qed.

Lemma reads_wrap {A} msg (m : ST T A) x spec :
  reads calm sees alive (m x) spec → reads calm sees alive (swrap msg m x) (rwrap msg spec).
Proof.
  unfold swrap. intros [[Hr Hs]|(err & Hr & Ha & Hc)]; destruct (m x) as [x' r]; cbn in *; subst r; [by left|].
  right. by eexists.
Qed.

Lemma reads_mono (sees' alive' : T → Prop) {A} (out : T * result A) spec :
  reads calm sees alive out spec → (∀ x, sees x → sees' x) → (∀ x, alive x → alive' x) →
  reads calm sees' alive' out spec.
Proof. intros [[? ?]|(err & ? & ? & ?)] Hs Ha; [left; auto|right; eauto]. Qed.

Lemma reads_calm {A} (out : T * result A) spec : reads calm sees alive out spec → calm → out.2 = spec ∧ sees out.1.
Proof. intros [?|(_ & _ & _ & ?)] Hc; done. Qed.

End reads.

(** ** Lemmas on rows and relations *)

Lemma row_ok_length t row : row_ok t row → length row = length (Columns t).
Proof. intros H. symmetry. by eapply Forall2_length. Qed.

Lemma row_primary_ok t row :
  table_ok t → row_ok t row →
  PrimaryKeyValue t row = Ok (row_primary t row) ∧ row_primary t row ∈ row.
Proof.
  intros Ht Hr. destruct (PrimaryKeyValue_ok t row Ht (row_ok_length _ _ Hr)) as (v & Hv & Hin).
  unfold row_primary. by rewrite Hv.
Qed.

Lemma row_primary_encodable t row :
  table_ok t → row_ok t row → row_encodable row → value_encodable (row_primary t row).
Proof.
  intros Ht Hr He. destruct (row_primary_ok t row Ht Hr) as [_ Hin].
  by apply (proj1 (Forall_forall _ _) He).
Qed.

Lemma elem_of_relation_rows r row :
  row ∈ relation_rows r ↔ ∃ k, rel_rows r !! k = Some row.
Proof.
  unfold relation_rows. rewrite list_elem_of_fmap. split.
  - intros ([k row'] & -> & Hin%elem_of_sorted_entries). by exists k.
  - intros [k Hk]. exists (k, row). split; [done|]. by apply elem_of_sorted_entries.
Qed.

Lemma length_relation_rows r : length (relation_rows r) = size (rel_rows r).
Proof.
  unfold relation_rows, sorted_entries. rewrite length_fmap, merge_sort_Permutation.
  apply length_map_to_list.
Qed.

Lemma stored_rows name r row :
  relation_wf name r → row ∈ relation_rows r →
  row_ok (rel_schema r) row ∧ row_encodable row ∧ rel_rows r !! row_pk (rel_schema r) row = Some row.
Proof.
  intros Hr [k Hk]%elem_of_relation_rows. destruct (wf_rows _ _ Hr _ _ Hk) as (? & ? & <-). done.
Qed.
