(* ===== verification/ExecutorSafe.v ===== *)
(** * Plans as functions of the database

    [denote] evaluates a query on the abstract database; [query_ok] and
    [executor_ok] describe the plans the planner builds.  A query never
    panics, returns as many values per row as columns, and leaves the
    transaction as it was. *)

From S2P Require Import Prelude Bytes Types Lexer Ast Schema Planner Sort Expr Transaction Executor RowsSpec OrderSpec Keys Json Relation.

(** ** Aggregation does not panic *)

Definition item_ok (groupBy : option Expression) (item : SelectItem) : Prop :=
  match si_Expression item with
  | FunctionExpression _ => True
  | ColumnReference _ => is_Some groupBy
  | _ => False
  end.

Definition group_ok (groupBy : option Expression) : Prop :=
  match groupBy with None => True | Some (ColumnReference _) => True | Some _ => False end.

Lemma rectangular_has_column columns rows name idx :
  rectangular columns rows → slices_Index columns name = Some idx → Forall (has_column idx) rows.
Proof.
  intros Hr Hi%slices_Index_lt. eapply Forall_impl; [exact Hr|]. intros row Hrow. cbn in Hrow.
  apply lookup_lt_is_Some_2. lia.
Qed.

Lemma calculate_no_panic c name columns rows :
  rectangular columns rows → no_panic (calculate c name columns rows).
Proof.
  intros Hr. destruct (slices_Index columns name) as [idx|] eqn:Hi.
  - pose proof (rectangular_has_column _ _ _ _ Hr Hi) as Hc.
    assert (∀ row, row ∈ rows → no_panic (rindex row idx)) as Hrow.
    { intros row Hin. destruct (proj1 (Forall_forall _ _) Hc row Hin) as [v Hv].
      unfold rindex. by rewrite Hv. }
    assert (no_panic (count_rows name columns rows)) as Hcount by by rewrite (count_rows_ok _ _ idx).
    assert (∀ m, no_panic (calculateExtreme name columns rows m)) as Hext.
    { intros m. unfold calculateExtreme, aggregate_column. rewrite Hi. cbn [rbind].
      apply no_panic_bind; [|done]. apply (rfoldl_no_panic (λ _, True)); [done|].
      intros best row Hin _. split; [|done]. apply no_panic_bind; [by apply Hrow|].
      intros v _. destruct (is_null v); [done|]. destruct best; [|done].
      apply no_panic_bind; [|done]. apply no_panic_wrap, Compare_no_panic. }
    assert (no_panic (sum_rows name columns rows)) as Hsum.
    { unfold sum_rows, aggregate_column. rewrite Hi. cbn [rbind].
      apply no_panic_bind; [|by intros []]. apply (rfoldl_no_panic (λ _, True)); [done|].
      intros [s b] row Hin _. split; [|done]. apply no_panic_bind; [by apply Hrow|].
      intros v _. by destruct (Kind v). }
    destruct c; cbn [calculate]; try done.
    apply no_panic_bind; [by apply no_panic_wrap|]. intros v _.
    apply no_panic_bind; [by apply no_panic_wrap|done].
  - destruct c; cbn; unfold count_rows, calculateExtreme, sum_rows, avg_rows, sum_rows, aggregate_column;
      by rewrite Hi.
Qed.

Lemma buildAggregateCalculator_no_panic name : no_panic (buildAggregateCalculator name).
Proof. unfold buildAggregateCalculator. by repeat case_decide. Qed.

Lemma calculateRow_no_panic items groupBy key columns rows :
  Forall (item_ok groupBy) items → (is_Some groupBy → is_Some key) → rectangular columns rows →
  no_panic (calculateRow items key columns rows).
Proof.
  intros Hitems Hkey Hr. apply rmapM_no_panic. eapply Forall_impl; [exact Hitems|].
  intros item Hitem. unfold item_ok in Hitem. destruct (si_Expression item); try done.
  - apply no_panic_bind; [apply no_panic_wrap, buildAggregateCalculator_no_panic|].
    intros c _. by apply no_panic_wrap, calculate_no_panic.
  - destruct (Hkey Hitem) as [v ->]. done.
Qed.

Lemma rmapM_length {A B} (f : A → result B) l out : rmapM f l = Ok out → length out = length l.
Proof. intros H%rmapM_Ok. symmetry. by eapply Forall2_length. Qed.

Lemma add_to_group_Forall (P : Row → Prop) key row groups :
  P row → Forall (λ g, Forall P g.2) groups → Forall (λ g, Forall P g.2) (add_to_group key row groups).
Proof.
  intros Hrow. induction groups as [|[k rs] groups IH]; cbn; [by repeat constructor|].
  intros [Hrs Hg]%Forall_cons. destruct (value_eqb k key); constructor; auto.
  cbn. apply Forall_app. by repeat constructor.
Qed.

Lemma group_rows_safe columns rows idx :
  rectangular columns rows → (idx < length columns)%nat →
  no_panic (group_rows idx rows) ∧
  ∀ groups, group_rows idx rows = Ok groups → Forall (λ g, rectangular columns g.2) groups.
Proof.
  intros Hr Hi. pose proof (proj1 (Forall_forall _ _) Hr) as Hr'. unfold group_rows. split.
  - apply (rfoldl_no_panic (λ _, True)); [done|]. intros groups row Hin _. split; [|done].
    apply no_panic_bind; [|done]. apply no_panic_rindex. by rewrite (Hr' _ Hin).
  - intros groups. apply (rfoldl_inv (Forall (λ g, rectangular columns g.2))); [constructor|].
    intros gs row gs' Hin Hgs H. inv_ok. apply add_to_group_Forall; [by apply Hr'|done].
Qed.

Lemma aggregate_rows_no_panic items groupBy columns rows :
  Forall (item_ok groupBy) items → group_ok groupBy → rectangular columns rows →
  no_panic (aggregate_rows items groupBy columns rows).
Proof.
  intros Hitems Hg Hr. unfold aggregate_rows. apply no_panic_bind.
  { apply rmapM_no_panic. eapply Forall_impl; [exact Hitems|]. intros item Hitem.
    unfold item_ok in Hitem. by destruct (si_Expression item). }
  intros cols _. destruct groupBy as [e|].
  - destruct e; try done. unfold resolveGroupBy. cbn [expression_string rbind].
    destruct (slices_Index columns name) as [idx|] eqn:Hi; [|done]. cbn [rbind].
    destruct (group_rows_safe columns rows idx Hr) as [Hn Hgroups]; [by eapply slices_Index_lt|].
    apply no_panic_bind; [done|]. intros groups Hgo. specialize (Hgroups groups Hgo).
    apply no_panic_bind; [|done]. apply rmapM_no_panic. eapply Forall_impl; [exact Hgroups|].
    intros [key rs] Hrs. apply no_panic_wrap.
    eapply calculateRow_no_panic; [exact Hitems| |done]. intros _. by eexists.
  - apply no_panic_bind; [|done]. eapply calculateRow_no_panic; [exact Hitems| |done]. done.
Qed.

Lemma aggregate_rows_rectangular items groupBy columns rows out :
  aggregate_rows items groupBy columns rows = Ok out → rectangular out.1 out.2.
Proof.
  unfold aggregate_rows, rectangular. intros H. inv_ok. apply rmapM_length in H.
  destruct groupBy as [e|]; inv_ok; cbn [fst snd].
  - match goal with H : rmapM _ _ = Ok ?rows |- Forall _ ?rows => apply rmapM_Ok in H; rename H into Hrows end.
    clear -Hrows H. induction Hrows as [|[key rs] row groups rows' Hrow _ IH]; [constructor|].
    apply rwrap_Ok, rmapM_length in Hrow. constructor; [lia|apply IH].
  - repeat constructor. match goal with H : calculateRow _ _ _ _ = _ |- _ => apply rmapM_length in H end. lia.
Qed.

(** ** Queries *)

Fixpoint query_ok (e : Executor) : Prop :=
  match e with
  | ScanExecutor name => name ≠ []
  | FilterExecutor source _ | OrderExecutor source _ | ProjectionExecutor source _ => query_ok source
  | OffsetExecutor source n | LimitExecutor source n => query_ok source ∧ 0 ≤ n
  | AggregateExecutor source items groupBy =>
      query_ok source ∧ Forall (item_ok groupBy) items ∧ group_ok groupBy
  | NestedLoopJoinExecutor l r _ _ => query_ok l ∧ query_ok r
  | _ => False
  end.

Abbreviation table_rows := (list bytes * list Row)%type.

Definition scan_of (d : reldb) (name : bytes) : result table_rows :=
  match d !! name with
  | None => Err (Errorf "executor: table %q does not exist")
  | Some r => Ok (map Name (Columns (rel_schema r)), relation_rows r)
  end.

(** the columns and rows of a query on a database *)
Fixpoint denote (d : reldb) (e : Executor) : result table_rows :=
  match e with
  | ScanExecutor name => scan_of d name
  | FilterExecutor source predicate =>
      let? (columns, rows) := rwrap "executor: executing filter source: %w" (denote d source) in
      let? rows := filter_rows predicate columns rows in Ok (columns, rows)
  | OrderExecutor source orderBy =>
      let? (columns, rows) := rwrap "executor: executing ORDER BY source: %w" (denote d source) in
      let? rows := order_rows orderBy columns rows in Ok (columns, rows)
  | OffsetExecutor source n =>
      let? (columns, rows) := rwrap "executor: executing OFFSET source: %w" (denote d source) in
      Ok (columns, drop (Z.to_nat n) rows)
  | LimitExecutor source n =>
      let? (columns, rows) := rwrap "executor: executing LIMIT source: %w" (denote d source) in
      Ok (columns, take (Z.to_nat n) rows)
  | ProjectionExecutor source items =>
      let? (columns, rows) := rwrap "executor: executing projection source: %w" (denote d source) in
      project_rows items columns rows
  | AggregateExecutor source items groupBy =>
      let? (columns, rows) := rwrap "executor: executing aggregate source: %w" (denote d source) in
      aggregate_rows items groupBy columns rows
  | NestedLoopJoinExecutor l r predicate outer =>
      let? (lc, lr) := rwrap "executor: executing left join input: %w" (denote d l) in
      let? (rc, rr) := rwrap "executor: executing right join input: %w" (denote d r) in
      let? rows := join_rows predicate outer lc lr rc rr in Ok (lc ++ rc, rows)
  | _ => Panic TypeAssertion
  end.

Definition rows_result (p : table_rows) : ResultSet := RowsResult p.1 p.2.
Definition rmap {A B} (f : A → B) (r : result A) : result B := let? a := r in Ok (f a).

Section execute.
Context {D T : Type} `{Relational D T} `{!MapOrder}.

(** the outcome of code that only reads *)
Definition reads_only {A : Type} (n : regime) (d0 d : reldb) (m : ST T A) (spec : result A) : Prop :=
  ∀ x, sees n d0 x d → reads (calm n) (λ x, sees n d0 x d) (alive n d0) (m x) spec.

Lemma reads_only_bind {A B : Type} n d0 d (m : ST T A) (f : A → ST T B) spec g :
  reads_only n d0 d m spec → (∀ a, spec = Ok a → reads_only n d0 d (f a) (g a)) →
  reads_only n d0 d (sbind m f) (rbind spec g).
Proof. intros Hm Hf x Hx. eapply reads_bind; [by apply Hm|]. intros x' a Ha Hx'. by apply Hf. Qed.

Lemma reads_only_lift {A : Type} n d0 d (r : result A) : reads_only n d0 d (slift r) r.
Proof. intros x Hx. by apply reads_lift. Qed.

Lemma reads_only_wrap {A : Type} n d0 d msg (m : ST T A) spec :
  reads_only n d0 d m spec → reads_only n d0 d (swrap msg m) (rwrap msg spec).
Proof. intros Hm x Hx. by apply reads_wrap, Hm. Qed.

Lemma reads_only_eq {A : Type} n d0 d (m : ST T A) spec spec' :
  reads_only n d0 d m spec → spec = spec' → reads_only n d0 d m spec'.
Proof. by intros ? <-. Qed.

Lemma on_rows_denote n d0 d msg source p f g :
  reads_only n d0 d (Execute source) (rmap rows_result p) →
  (∀ columns rows, p = Ok (columns, rows) → f columns rows = rmap rows_result (g columns rows)) →
  reads_only n d0 d (on_rows msg (Execute source) f)
    (rmap rows_result (let? (columns, rows) := rwrap msg p in g columns rows)).
Proof.
  intros Hs Hf. eapply reads_only_eq; [eapply reads_only_bind; [by apply reads_only_wrap|]|].
  - intros r _. eapply reads_only_bind; [apply reads_only_lift|]. intros cr _.
    apply (reads_only_eq _ _ _ _ (f cr.1 cr.2)); [destruct cr; apply reads_only_lift|done].
  - destruct p as [[columns rows]| |]; cbn; [|done..]. by apply Hf.
Qed.

(** the table a statement loads *)
Definition table_of (d : reldb) (name : bytes) : result Table :=
  match d !! name with
  | None => Err (Errorf "executor: table %q does not exist")
  | Some r => Ok (rel_schema r)
  end.

Lemma load_table_reads n d0 d name : name ≠ [] → reads_only n d0 d (load_table name) (table_of d name).
Proof.
  intros Hn. eapply reads_only_eq.
  - eapply reads_only_bind; [apply reads_only_wrap; intros x Hx; by apply (get_table_ok n d0 x d name)|].
    intros r _. apply (reads_only_eq _ _ _ _ (match r with
      None => Err (Errorf "executor: table %q does not exist") | Some t => Ok t end)); [|done].
    destruct r; intros x Hx; by left.
  - unfold table_of. cbn. by destruct (d !! name).
Qed.

Lemma scan_execute n d0 d name :
  name ≠ [] → reads_only n d0 d (ScanExecutor_Execute name) (rmap rows_result (scan_of d name)).
Proof.
  intros Hn. unfold ScanExecutor_Execute. eapply reads_only_eq.
  - eapply reads_only_bind; [by apply load_table_reads|]. intros t Ht.
    apply (reads_only_eq _ _ _ _ (
      let? rows := rwrap "executor: scanning table %q: %w" (rmap (λ r, relation_rows r)
        match d !! name with Some r => Ok r | None => Panic NilDereference end) in
      Ok (RowsResult (map Name (Columns t)) rows))); [|done].
    unfold table_of in Ht. destruct (d !! name) as [r|] eqn:Hd; [|done]. injection Ht as <-.
    eapply reads_only_bind; [apply reads_only_wrap|intros rows _; apply reads_only_lift].
    intros x Hx. pose proof (sees_wf n d0 x d Hx _ _ Hd) as Hr.
    apply scan_table_ok; [done| |done]. by rewrite (wf_table_name _ _ Hr).
  - unfold table_of, scan_of. by destruct (d !! name).
Qed.

(** a query reads the database and changes nothing *)
Lemma execute_query n d0 d e :
  query_ok e → reads_only n d0 d (Execute e) (rmap rows_result (denote d e)).
Proof.
  induction e as [| | | | | | | | |l IHl r IHr p o| |]; intros Hq; try done; cbn [Execute denote] in *.
  - by eapply scan_execute.
  - eapply on_rows_denote; [by apply IHe|]. intros c r _. by destruct (filter_rows _ _ _).
  - eapply on_rows_denote; [by apply IHe|]. intros c r _. by destruct (order_rows _ _ _).
  - destruct Hq as [Hq Hn]. eapply on_rows_denote; [by apply IHe|]. intros c r _.
    by rewrite offset_rows_Ok.
  - destruct Hq as [Hq Hn]. eapply on_rows_denote; [by apply IHe|]. intros c r _.
    by rewrite limit_rows_Ok.
  - eapply on_rows_denote; [by apply IHe|]. intros c r _. by destruct (project_rows _ _ _) as [[]| |].
  - destruct Hq as [Hq _]. eapply on_rows_denote; [by apply IHe|]. intros c r _.
    by destruct (aggregate_rows _ _ _ _) as [[]| |].
  - destruct Hq as [Hl Hr]. eapply reads_only_eq.
    + eapply reads_only_bind; [apply reads_only_wrap, IHl, Hl|]. intros rl _.
      eapply reads_only_bind; [apply reads_only_lift|]. intros ll _.
      apply (reads_only_eq _ _ _ _ (
        let? rr := rwrap "executor: executing right join input: %w" (rmap rows_result (denote d r)) in
        let? rr := as_rows rr in
        let? rows := join_rows p o ll.1 ll.2 rr.1 rr.2 in Ok (RowsResult (ll.1 ++ rr.1) rows))); [|done].
      destruct ll as [lc lr]. eapply reads_only_bind; [apply reads_only_wrap, IHr, Hr|]. intros rr _.
      eapply reads_only_bind; [apply reads_only_lift|]. intros [rc rows] _.
      eapply reads_only_bind; [apply reads_only_lift|]. intros out _. apply reads_only_lift.
    + destruct (denote d l) as [[lc lr]| |]; cbn -[join_rows]; [|done..].
      destruct (denote d r) as [[rc rr]| |]; cbn -[join_rows]; [|done..].
      by destruct (join_rows _ _ _ _ _ _).
Qed.

End execute.

(** ** A query does not panic, and its result is a table *)

Definition safe (r : result table_rows) : Prop :=
  no_panic r ∧ ∀ p, r = Ok p → rectangular p.1 p.2.

Lemma safe_through msg r f :
  safe r → (∀ columns rows, rectangular columns rows → safe (f columns rows)) →
  safe (let? (columns, rows) := rwrap msg r in f columns rows).
Proof. intros [Hn Hr] Hf. destruct r as [[c rows]| |]; try done. by apply Hf, (Hr (c, rows)). Qed.

Lemma safe_rows columns r :
  no_panic r → (∀ rows, r = Ok rows → rectangular columns rows) →
  safe (let? rows := r in Ok (columns, rows)).
Proof. intros Hn Hr. destruct r as [rows| |]; try done. split; [done|]. intros p [= <-]. by apply Hr. Qed.

Lemma safe_filter predicate columns rows :
  rectangular columns rows → safe (let? rows := filter_rows predicate columns rows in Ok (columns, rows)).
Proof.
  intros Hr. apply safe_rows; [by apply filter_rows_no_panic|]. intros out ->%filter_rows_Ok.
  apply Forall_forall. intros row [_ Hin]%list_elem_of_filter. by apply (proj1 (Forall_forall _ _) Hr).
Qed.

Lemma safe_order orderBy columns rows :
  rectangular columns rows → safe (let? rows := order_rows orderBy columns rows in Ok (columns, rows)).
Proof.
  intros Hr. apply safe_rows; [by apply order_rows_no_panic|]. intros out H.
  unfold order_rows in H. inv_ok. apply SortStableFunc_Permutation in H0.
  unfold rectangular in *. by rewrite H0.
Qed.

Lemma denote_safe d e : db_wf d → query_ok e → safe (denote d e).
Proof.
  intros Hwf. induction e as [| |name|e IH p|e IH o|e IH k|e IH k|e IH items|e IH items g|l IHl r IHr p o| |];
    intros Hq; try done; cbn [denote query_ok] in *.
  - unfold scan_of. destruct (d !! name) as [r|] eqn:Hd; [|done]. split; [done|].
    intros p [= <-]. cbn. apply Forall_forall. intros row Hin.
    destruct (stored_rows _ _ _ (Hwf _ _ Hd) Hin) as (Hok & _). rewrite length_map. by apply row_ok_length.
  - apply safe_through; [by apply IH|]. intros c rows Hr. by apply safe_filter.
  - apply safe_through; [by apply IH|]. intros c rows Hr. by apply safe_order.
  - destruct Hq as [Hq _]. apply safe_through; [by apply IH|]. intros c rows Hr.
    split; [done|]. intros p [= <-]. by apply Forall_drop.
  - destruct Hq as [Hq _]. apply safe_through; [by apply IH|]. intros c rows Hr.
    split; [done|]. intros p [= <-]. by apply Forall_take.
  - apply safe_through; [by apply IH|]. intros c rows Hr. split; [by apply project_rows_no_panic|].
    intros out. apply project_rows_rectangular.
  - destruct Hq as (Hq & Hitems & Hg). apply safe_through; [by apply IH|]. intros c rows Hr.
    split; [by apply aggregate_rows_no_panic|]. intros out. apply aggregate_rows_rectangular.
  - destruct Hq as [Hl Hr]. apply safe_through; [by apply IHl|]. intros lc lr Hlr.
    apply safe_through; [by apply IHr|]. intros rc rr Hrr.
    apply safe_rows; [by apply join_rows_no_panic|]. intros out. by apply join_rows_rectangular.
Qed.
