(* ===== verification/ExecutorWrites.v ===== *)
(** * What INSERT, UPDATE, DELETE and CREATE TABLE do to the database *)

From S2P Require Import Prelude Bytes Engine Types Lexer Ast Schema Planner Sort Expr Transaction Executor RowsSpec OrderSpec InsertSpec Keys Json Relation ExecutorSafe.

(** ** The effects, on the abstract database *)

Fixpoint create_rows_spec (name : bytes) (rows : list Row) (d : reldb) : option reldb :=
  match rows with
  | [] => Some d
  | row :: rows => create_row_spec name row d ≫= create_rows_spec name rows
  end.

Fixpoint delete_rows_spec (name : bytes) (rows : list Row) (d : reldb) : option reldb :=
  match rows with
  | [] => Some d
  | row :: rows => delete_row_spec name row d ≫= delete_rows_spec name rows
  end.

Fixpoint update_rows_spec (name : bytes) (f : Row → Row) (rows : list Row) (d : reldb) : option reldb :=
  match rows with
  | [] => Some d
  | row :: rows => update_row_spec name row (f row) d ≫= update_rows_spec name f rows
  end.

(** the value a literal denotes *)
Definition literal_value (e : Expression) : Value :=
  match ValueFromExpression e with Ok v => v | _ => NullValue end.

(** the row after the assignments: the column a name resolves to gets its value *)
Definition assigned (t : Table) (assignments : gmap bytes Expression) (row : Row) : Row :=
  imap (λ i v,
    match Columns t !! i with
    | Some c =>
        if decide (ColumnIndex t (Name c) = Ok i) then
          match assignments !! Name c with Some e => literal_value e | None => v end
        else v
    | None => v
    end) row.

(** a literal whose value the codec keeps *)
Definition literal_ok (e : Expression) : Prop :=
  ∀ v, ValueFromExpression e = Ok v → value_encodable v.

Lemma null_encodable : value_encodable NullValue.
Proof. done. Qed.

(** ** The assignments of an UPDATE *)

Lemma resolve_assignment_Ok t name e i v :
  resolve_assignment t (name, e) = Ok (i, v) ↔ ColumnIndex t name = Ok i ∧ ValueFromExpression e = Ok v.
Proof.
  unfold resolve_assignment. destruct (ColumnIndex t name), (ValueFromExpression e); cbn; naive_solver.
Qed.

Lemma length_assigned t m row : length (assigned t m row) = length row.
Proof. apply length_imap. Qed.

Lemma assigned_empty t row : assigned t ∅ row = row.
Proof.
  unfold assigned. rewrite <-(imap_const row) at 2 || idtac. apply list_eq. intros i.
  rewrite list_lookup_imap. destruct (row !! i); cbn; [|done]. f_equal.
  destruct (Columns t !! i); [|done]. by case_decide.
Qed.

Lemma assigned_insert t m row name e i v :
  ColumnIndex t name = Ok i → ValueFromExpression e = Ok v → m !! name = None →
  length row = length (Columns t) →
  assigned t m (<[i := v]> row) = assigned t (<[name := e]> m) row.
Proof.
  intros Hi Hv Hm Hlen. pose proof (ColumnIndex_Ok _ _ _ Hi) as (c & Hc & Hname).
  assert (i < length row)%nat as Hlt by (rewrite Hlen; by eapply lookup_lt_Some).
  apply list_eq. intros j. unfold assigned. rewrite !list_lookup_imap.
  destruct (decide (j = i)) as [->|Hne].
  - rewrite list_lookup_insert_eq by done. destruct (lookup_lt_is_Some_2 row i Hlt) as [w ->]. cbn.
    rewrite Hc, Hname, decide_True, Hm, lookup_insert_eq by done.
    rewrite decide_True by done. unfold literal_value. by rewrite Hv.
  - rewrite list_lookup_insert_ne by done. destruct (row !! j) as [w|]; cbn; [|done]. f_equal.
    destruct (Columns t !! j) as [c'|]; [|done]. case_decide as Hj; [|done].
    rewrite lookup_insert_ne; [done|]. intros ->. congruence.
Qed.

(** the order of the assignments does not matter *)
Lemma assign_all t al l row :
  NoDup al.*1 → rmapM (resolve_assignment t) al = Ok l → length row = length (Columns t) →
  rfoldl assign row l = Ok (assigned t (list_to_map al) row).
Proof.
  intros Hnd Hl%rmapM_Ok. revert row. induction Hl as [|[name e] [i v] al l Hr _ IH]; intros row Hlen.
  - cbn. by rewrite assigned_empty.
  - cbn in Hnd. apply NoDup_cons in Hnd as [Hnew Hnd]. apply resolve_assignment_Ok in Hr as [Hi Hv].
    cbn [rfoldl]. unfold assign at 1, rstore. cbn [fst snd].
    destruct (ColumnIndex_Ok _ _ _ Hi) as (c & Hc%lookup_lt_Some & _).
    rewrite decide_True by lia. cbn [rbind]. rewrite IH by (try done; by rewrite length_insert).
    f_equal. cbn. apply assigned_insert; try done. by apply not_elem_of_list_to_map_1.
Qed.

Lemma assigned_encodable t m row :
  row_encodable row → map_Forall (λ _ e, literal_ok e) m → row_encodable (assigned t m row).
Proof.
  intros Hrow Hm. apply Forall_forall. intros v [i Hi]%list_elem_of_lookup.
  unfold assigned in Hi. rewrite list_lookup_imap in Hi.
  destruct (row !! i) as [w|] eqn:Hw; [|done]. cbn in Hi. injection Hi as <-.
  assert (value_encodable w) as Hew.
  { apply (proj1 (Forall_forall _ _) Hrow). by eapply list_elem_of_lookup_2. }
  destruct (Columns t !! i) as [c|]; [|done]. case_decide; [|done].
  destruct (m !! Name c) as [e|] eqn:He; [|done]. unfold literal_value.
  destruct (ValueFromExpression e) as [v| |] eqn:Hv; [|apply null_encodable..].
  by apply (Hm _ _ He).
Qed.

(** every assignment names a column and gives it a literal *)
Definition assignable (t : Table) (assignments : gmap bytes Expression) : Prop :=
  ∀ column e, assignments !! column = Some e →
    (∃ i, ColumnIndex t column = Ok i) ∧ ∃ v, ValueFromExpression e = Ok v.

(** the assignments in any order resolve if they can, and make the same row *)
Lemma resolve_order t assignments order :
  order ≡ₚ map_to_list assignments →
  match rmapM (resolve_assignment t) order with
  | Ok l => assignable t assignments ∧
      ∀ row, length row = length (Columns t) → rfoldl assign row l = Ok (assigned t assignments row)
  | Err _ => ¬ assignable t assignments
  | Panic _ => False
  end.
Proof.
  intros Hperm.
  assert (∀ column e, (column, e) ∈ order ↔ assignments !! column = Some e) as Hin.
  { intros column e. rewrite Hperm. apply elem_of_map_to_list. }
  destruct (rmapM _ _) as [l|err|w] eqn:Hl.
  - split.
    + intros column e [i Hi]%Hin%list_elem_of_lookup. apply rmapM_Ok in Hl.
      destruct (Forall2_lookup_l _ _ _ _ _ Hl Hi) as ([j v] & _ & Hr').
      apply resolve_assignment_Ok in Hr' as [? ?]. eauto.
    + intros row Hlen. assert (NoDup order.*1) as Hnd by (rewrite Hperm; apply NoDup_fst_map_to_list).
      assert (list_to_map order = assignments) as Hmap.
      { rewrite (list_to_map_proper _ (map_to_list assignments)) by done. apply list_to_map_to_list. }
      rewrite <-Hmap at 1. by apply assign_all.
  - intros Hall. apply rmapM_Err in Hl as ([column e] & Hc%Hin & Herr).
    destruct (Hall column e Hc) as [[i Hi] [v Hv]].
    by rewrite (proj2 (resolve_assignment_Ok _ _ _ i v) (conj Hi Hv)) in Herr.
  - assert (no_panic (rmapM (resolve_assignment t) order)) as Hn; [|by rewrite Hl in Hn].
    apply rmapM_no_panic, Forall_forall. intros [column e] _. unfold resolve_assignment.
    apply no_panic_bind; [apply no_panic_wrap, ColumnIndex_no_panic|]. intros i _.
    apply no_panic_bind; [apply no_panic_wrap, ValueFromExpression_no_panic|done].
Qed.

(** ** Running a statement

    [runs n d0 m x Q F]: [m] does not panic; it returns a result with [Q], or
    fails and leaves a transaction that can be rolled back to [d0].  When it is
    calm, [m] fails only if [F]. *)

Section runs.
Context {D T : Type} `{Relational D T} `{!MapOrder}.
Context (n : regime) (d0 : reldb).

Definition runs {A} (m : ST T A) (x : T) (Q : T → A → Prop) (F : Prop) : Prop :=
  match m x with
  | (x', Ok a) => Q x' a
  | (x', Err _) => alive n d0 x' ∧ (calm n → F)
  | (_, Panic _) => False
  end.

Lemma runs_bind {A B} (m : ST T A) (f : A → ST T B) x Q F :
  runs m x (λ x' a, runs (f a) x' Q F) F → runs (sbind m f) x Q F.
Proof. unfold runs, sbind. by destruct (m x) as [x' []]. Qed.

Lemma runs_wrap {A} msg (m : ST T A) x Q F : runs m x Q F → runs (swrap msg m) x Q F.
Proof. unfold runs, swrap. by destruct (m x) as [x' []]. Qed.

Lemma runs_mono {A} (m : ST T A) x (Q Q' : T → A → Prop) (F F' : Prop) :
  runs m x Q F → (∀ x' a, Q x' a → Q' x' a) → (F → F') → runs m x Q' F'.
Proof. unfold runs. destruct (m x) as [x' []]; naive_solver. Qed.

Lemma runs_lift {A} (r : result A) x (Q : T → A → Prop) (F : Prop) :
  alive n d0 x → no_panic r → (∀ err, r = Err err → F) → (∀ a, r = Ok a → Q x a) → runs (slift r) x Q F.
Proof. unfold runs, slift. destruct r; naive_solver. Qed.

Lemma runs_ret {A} (a : A) x (Q : T → A → Prop) F : Q x a → runs (sret a) x Q F.
Proof. done. Qed.

Lemma runs_does (m : ST T unit) x spec (Q : T → unit → Prop) (F : Prop) :
  does (calm n) (sees n d0) (alive n d0) (m x) spec → (spec = None → F) →
  (∀ x' d, spec = Some d → sees n d0 x' d → Q x' ()) → runs m x Q F.
Proof. unfold runs, does. destruct (m x) as [x' [[]| |]]; naive_solver. Qed.

(** code that only reads *)
Lemma runs_reads {A} (m : ST T A) x d spec (Q : T → A → Prop) (F : Prop) :
  sees n d0 x d → reads_only n d0 d m spec → no_panic spec → (∀ err, spec = Err err → F) →
  (∀ x' a, spec = Ok a → sees n d0 x' d → Q x' a) → runs m x Q F.
Proof.
  intros Hx Hm Hn HF HQ. unfold runs.
  destruct (Hm x Hx) as [[Hr Hs]|(err & Hr & Ha & Hc)]; destruct (m x) as [x' r]; cbn [fst snd] in *; subst r; [|done].
  destruct spec as [a|err|]; [by apply HQ| |done]. split; [by eapply sees_alive|]. intros _. by eapply HF.
Qed.

Lemma runs_load_table x d name (Q : T → Table → Prop) (F : Prop) :
  sees n d0 x d → name ≠ [] → (d !! name = None → F) →
  (∀ x' r, d !! name = Some r → sees n d0 x' d → Q x' (rel_schema r)) → runs (load_table name) x Q F.
Proof.
  intros Hx Hn HF HQ. eapply runs_reads; [done|by apply load_table_reads|..];
    unfold table_of; destruct (d !! name) as [r|] eqn:Hd; try done.
  - intros _ _. by apply HF.
  - intros x' t [= <-]. by apply HQ.
Qed.

Lemma runs_query x d e (Q : T → ResultSet → Prop) (F : Prop) :
  sees n d0 x d → query_ok e → (∀ err, denote d e = Err err → F) →
  (∀ x' c rows, denote d e = Ok (c, rows) → sees n d0 x' d → Q x' (RowsResult c rows)) → runs (Execute e) x Q F.
Proof.
  intros Hx He HF HQ. destruct (denote_safe d e) as [Hn _]; [by eapply sees_wf|done|].
  eapply runs_reads; [done|by apply execute_query|..]; destruct (denote d e) as [[c rows]|err|]; try done.
  - intros ? [= <-]. by eapply HF.
  - intros x' r [= <-]. by apply HQ.
Qed.

(** ** CREATE TABLE and INSERT *)

Lemma runs_create_table x d t (Q : T → ResultSet → Prop) (F : Prop) :
  sees n d0 x d → name_ok (tbl_Name t) → table_encodable t → (create_table_spec t d = None → F) →
  (∀ x' d', create_table_spec t d = Some d' → sees n d0 x' d' → Q x' (CreateTableResult (tbl_Name t))) →
  runs (Execute (CreateTableExecutor t)) x Q F.
Proof.
  intros Hx Hname Henc HF HQ. cbn [Execute]. unfold CreateTableExecutor_Execute. apply runs_bind.
  eapply runs_does; [by apply (create_table_ok n d0 x d t)|done|]. intros x' d' Hs Hx'. apply runs_ret. eauto.
Qed.

Lemma literals_encodable exps vals :
  Forall literal_ok exps → rmapM ValueFromExpression exps = Ok vals → row_encodable vals.
Proof.
  intros He Hm%rmapM_Ok. unfold row_encodable. induction Hm as [|e v exps vals Hv _ IH]; [constructor|].
  apply Forall_cons in He as [He1 He2]. constructor; [by apply He1|by apply IH].
Qed.

Lemma rmapM_wrap {A B} msg (f : A → result B) l bs :
  rmapM (λ a, rwrap msg (f a)) l = Ok bs ↔ rmapM f l = Ok bs.
Proof.
  rewrite !rmapM_Ok. split; intros H'; (eapply Forall2_impl; [exact H'|]); intros a b; by rewrite rwrap_Ok.
Qed.

(** the row built from the literals of one VALUES list *)
Definition row_of (t : Table) (columns : list bytes) (exps : list Expression) (row : Row) : Prop :=
  ∃ vals, rmapM ValueFromExpression exps = Ok vals ∧ makeInsertRow t columns vals = Ok row.

Lemma row_of_unique t columns exps row row' :
  row_of t columns exps row → row_of t columns exps row' → row = row'.
Proof. intros (vals & Hv & Hr) (vals' & Hv' & Hr'). congruence. Qed.

Lemma runs_insert_row x d name columns r count exps (Q : T → Z → Prop) (F : Prop) :
  sees n d0 x d → name_ok name → d !! name = Some r → Forall literal_ok exps →
  ((∀ row, row_of (rel_schema r) columns exps row → create_row_spec name row d = None) → F) →
  (∀ x' d' row, row_of (rel_schema r) columns exps row → create_row_spec name row d = Some d' →
     sees n d0 x' d' → Q x' (count + 1)) →
  runs (insert_row name columns (rel_schema r) count exps) x Q F.
Proof.
  intros Hx Hname Hd Hexps HF HQ. pose proof (sees_alive n d0 x d Hx) as Ha.
  pose proof (sees_wf n d0 x d Hx _ _ Hd) as Hr. unfold insert_row.
  apply runs_bind, runs_lift; [done| | |].
  { apply rmapM_no_panic, Forall_forall. intros e _. apply no_panic_wrap, ValueFromExpression_no_panic. }
  { intros err Herr. apply HF. intros row (vals & Hv & _). by rewrite (proj2 (rmapM_wrap _ _ _ _) Hv) in Herr. }
  intros vals Hvals%rmapM_wrap.
  assert (∀ c v, c ∈ Columns (rel_schema r) → Default c = Some v → value_encodable v) as Hdef.
  { intros c v Hc Hv. destruct (wf_encodable _ _ Hr) as [_ Hcols].
    by apply (proj2 (proj1 (Forall_forall _ _) Hcols c Hc)). }
  destruct (makeInsertRow_safe (rel_schema r) vals value_encodable null_encodable
    (literals_encodable _ _ Hexps Hvals) Hdef columns) as [Hn He].
  apply runs_bind, runs_lift; [done|by apply no_panic_wrap| |].
  { intros err Herr. apply HF. intros row (vals' & Hv & Hrow). rewrite Hvals in Hv. injection Hv as <-.
    by rewrite Hrow in Herr. }
  intros row Hrow%rwrap_Ok. assert (row_of (rel_schema r) columns exps row) as Hof by by exists vals.
  apply runs_bind, runs_wrap.
  eapply runs_does; [apply (create_row_ok n d0 x d name row); [done|done|by apply He]| |].
  - intros Hnone. apply HF. intros row' Hrow'. by rewrite <-(row_of_unique _ _ _ _ _ Hof Hrow').
  - intros x' d' Hs Hx'. apply runs_ret. by eapply HQ.
Qed.

Lemma create_row_schema name row d d' :
  create_row_spec name row d = Some d' →
  ∃ t rows rows', d !! name = Some (mkRelation t rows) ∧ d' = set_rows name t rows' d.
Proof.
  unfold create_row_spec. destruct (d !! name) as [[t rows]|]; [|done].
  case_decide; [|done]. destruct (rows !! _); [done|]. intros [= <-]. eauto.
Qed.

Lemma runs_insert_rows name columns t values x d count r :
  name_ok name → Forall (Forall literal_ok) values → sees n d0 x d → d !! name = Some r → rel_schema r = t →
  runs (sfoldl (insert_row name columns t) count values) x
    (λ x' c, ∃ rows d', Forall2 (row_of t columns) values rows ∧ create_rows_spec name rows d = Some d' ∧
      sees n d0 x' d' ∧ c = count + Z.of_nat (length values))
    (∀ rows, Forall2 (row_of t columns) values rows → create_rows_spec name rows d = None).
Proof.
  intros Hname. revert x d count r. induction values as [|exps values IH]; intros x d count r Hvals Hx Hr Ht;
    cbn [sfoldl].
  - apply runs_ret. exists [], d. cbn. repeat split; [constructor|done|lia].
  - apply Forall_cons in Hvals as [Hexps Hvals]. apply runs_bind. subst t.
    eapply runs_insert_row; [done..| |].
    { intros Hnone rows Hrows. inversion Hrows as [|? row ? rows' Hrow Hrows']; subst. cbn. by rewrite Hnone. }
    intros x' d' row Hrow Hs Hx'.
    destruct (create_row_schema _ _ _ _ Hs) as (t & rs & rs' & Hd & ->).
    rewrite Hr in Hd. injection Hd as ->. cbn in *.
    eapply runs_mono; [eapply (IH x' _ (count + 1)); [done|done|apply lookup_insert_eq|done]|..].
    + intros x2 c (rows & d2 & Hrows & Hs2 & Hx2 & ->). exists (row :: rows), d2.
      split; [by constructor|]. cbn. rewrite Hs. cbn. split; [done|]. split; [done|]. lia.
    + intros Hnone rows Hrows. inversion Hrows as [|? row' ? rows' Hrow' Hrows']; subst. cbn.
      rewrite (row_of_unique _ _ _ _ _ Hrow' Hrow), Hs. by apply Hnone.
Qed.

Lemma runs_insert x d name columns values (Q : T → ResultSet → Prop) (F : Prop) :
  sees n d0 x d → name ≠ [] → name_ok name → Forall (Forall literal_ok) values →
  ((∀ r rows d', d !! name = Some r → Forall2 (row_of (rel_schema r) columns) values rows →
      create_rows_spec name rows d ≠ Some d') → F) →
  (∀ x' d' r rows, d !! name = Some r → Forall2 (row_of (rel_schema r) columns) values rows →
     create_rows_spec name rows d = Some d' → sees n d0 x' d' →
     Q x' (InsertResult (Z.of_nat (length values)))) →
  runs (Execute (InsertExecutor name columns values)) x Q F.
Proof.
  intros Hx Hne Hname Hvals HF HQ. cbn [Execute]. unfold InsertExecutor_Execute.
  apply runs_bind. eapply runs_load_table; [done|done| |].
  { intros Hnone. apply HF. intros r ? ? Hr. congruence. }
  intros x1 r Hr Hx1. apply runs_bind.
  eapply runs_mono; [by eapply (runs_insert_rows name columns _ values x1 d 0 r)|..].
  - intros x' c (rows & d' & Hrows & Hs & Hx' & ->). apply runs_ret. eauto.
  - intros Hnone. apply HF. intros r' rows d' Hr' Hrows. rewrite Hr in Hr'. injection Hr' as <-.
    by rewrite Hnone.
Qed.

(** ** UPDATE and DELETE *)

(** the plan of the rows an UPDATE or DELETE works on *)
Definition table_source (name : bytes) (cond : option Expression) : Executor :=
  match cond with
  | None => ScanExecutor name
  | Some p => FilterExecutor (ScanExecutor name) p
  end.

Definition chosen (t : Table) (cond : option Expression) (row : Row) : bool :=
  match cond with None => true | Some p => satisfies p (map Name (Columns t)) row end.

Definition chosen_rows (r : relation) (cond : option Expression) : list Row :=
  filter (λ row, chosen (rel_schema r) cond row = true) (relation_rows r).

Lemma denote_source d name cond r c rows :
  d !! name = Some r → denote d (table_source name cond) = Ok (c, rows) → rows = chosen_rows r cond.
Proof.
  intros Hd. unfold chosen_rows, chosen. destruct cond as [p|]; cbn; unfold scan_of; rewrite Hd.
  - cbn. intros H1. inv_ok. by apply filter_rows_Ok.
  - intros [= <- <-]. symmetry. induction (relation_rows r) as [|row l IH]; [done|].
    rewrite filter_cons, decide_True by done. by f_equal.
Qed.

Lemma denote_source_none d name cond : d !! name = None → ∀ out, denote d (table_source name cond) ≠ Ok out.
Proof. intros Hd out. destruct cond; cbn; unfold scan_of; by rewrite Hd. Qed.

Lemma table_source_ok name cond : name ≠ [] → query_ok (table_source name cond).
Proof. by destruct cond. Qed.

Lemma runs_source x d name cond r (Q : T → ResultSet → Prop) (F : Prop) :
  sees n d0 x d → name ≠ [] → d !! name = Some r →
  (∀ err, denote d (table_source name cond) = Err err → F) →
  (∀ x' c, denote d (table_source name cond) = Ok (c, chosen_rows r cond) → sees n d0 x' d →
     Q x' (RowsResult c (chosen_rows r cond))) →
  runs (Execute (table_source name cond)) x Q F.
Proof.
  intros Hx Hn Hd HF HQ. eapply runs_query; [done|by apply table_source_ok|done|]. intros x' c rows Hden Hx'.
  pose proof (denote_source _ _ _ _ _ _ Hd Hden) as ->. by apply HQ.
Qed.

(** a row of the table, as the loops of UPDATE and DELETE need it *)
Definition table_row (t : Table) (row : Row) : Prop := row_ok t row ∧ row_encodable row.

Lemma chosen_table_rows name r cond :
  relation_wf name r → Forall (table_row (rel_schema r)) (chosen_rows r cond).
Proof.
  intros Hr. apply Forall_forall. intros row [_ Hin]%list_elem_of_filter.
  by destruct (stored_rows _ _ _ Hr Hin) as (? & ? & _).
Qed.

Lemma runs_delete_rows t rows x d count :
  table_ok t → sees n d0 x d → rel_schema <$> d !! tbl_Name t = Some t → Forall (table_row t) rows →
  runs (sfoldl (delete_row t) count rows) x
    (λ x' c, ∃ d', delete_rows_spec (tbl_Name t) rows d = Some d' ∧ sees n d0 x' d' ∧
      c = count + Z.of_nat (length rows))
    (delete_rows_spec (tbl_Name t) rows d = None).
Proof.
  intros Ht. revert x d count. induction rows as [|row rows IH]; intros x d count Hx Hd Hrows; cbn [sfoldl].
  - apply runs_ret. exists d. split; [done|]. split; [done|]. cbn. lia.
  - apply Forall_cons in Hrows as [[Hok Henc] Hrows]. apply runs_bind. unfold delete_row at 1.
    destruct (row_primary_ok t row Ht Hok) as [Hpk _].
    apply runs_bind, runs_lift; [by eapply sees_alive|by rewrite Hpk|by rewrite Hpk|]. intros pk Hpk'%rwrap_Ok.
    rewrite Hpk in Hpk'. injection Hpk' as <-. apply runs_bind, runs_wrap.
    eapply runs_does; [by apply (delete_row_ok n d0 x d t row)|cbn; by intros ->|].
    intros x' d' Hs Hx'. apply runs_ret.
    apply fmap_Some in Hd as ([t' rs] & Hd & Ht'). cbn in Ht'. subst t'.
    assert (d' = set_rows (tbl_Name t) t (delete (row_pk t row) rs) d) as ->.
    { unfold delete_row_spec in Hs. rewrite Hd in Hs. by injection Hs as <-. }
    cbn [delete_rows_spec]. rewrite Hs. cbn [mbind option_bind].
    eapply runs_mono; [eapply (IH x' _ (count + 1)); [done|unfold set_rows; by rewrite lookup_insert_eq|done]|..|done].
    intros x2 c (d2 & Hs2 & Hx2 & ->). exists d2. split; [done|]. split; [done|]. cbn. lia.
Qed.

Lemma runs_delete x d name cond (Q : T → ResultSet → Prop) (F : Prop) :
  sees n d0 x d → name ≠ [] →
  ((∀ c rows d', denote d (table_source name cond) = Ok (c, rows) → delete_rows_spec name rows d ≠ Some d') → F) →
  (∀ x' d' r c, d !! name = Some r → denote d (table_source name cond) = Ok (c, chosen_rows r cond) →
     delete_rows_spec name (chosen_rows r cond) d = Some d' →
     sees n d0 x' d' → Q x' (DeleteResult (Z.of_nat (length (chosen_rows r cond))))) →
  runs (Execute (DeleteExecutor name (table_source name cond))) x Q F.
Proof.
  intros Hx Hne HF HQ. cbn [Execute]. unfold DeleteExecutor_Execute.
  apply runs_bind. eapply runs_load_table; [done|done| |].
  { intros Hnone. apply HF. intros c rows d' Hd. by destruct (denote_source_none _ _ cond Hnone _ Hd). }
  intros x1 r Hr Hx1. pose proof (sees_wf n d0 x d Hx _ _ Hr) as Hwf. pose proof (wf_table_name _ _ Hwf) as Hname.
  apply runs_bind. eapply runs_source; [done|done|done| |].
  { intros err Herr. apply HF. congruence. }
  intros x2 c Hden Hx2. apply runs_bind. unfold runs at 1. cbn [slift as_rows]. apply runs_bind.
  eapply runs_mono; [apply (runs_delete_rows (rel_schema r) (chosen_rows r cond) x2 d 0)|..].
  - apply (wf_table _ _ Hwf). - done. - by rewrite Hname, Hr. - by eapply chosen_table_rows.
  - intros x' count (d' & Hs & Hx' & ->). rewrite Hname in Hs. apply runs_ret. by eapply HQ.
  - intros Hnone. rewrite Hname in Hnone. apply HF. intros c' rows d' Hd.
    rewrite Hden in Hd. injection Hd as <- <-. by rewrite Hnone.
Qed.

Lemma update_row_schema name old row d d' :
  update_row_spec name old row d = Some d' →
  ∃ t rows rows', d !! name = Some (mkRelation t rows) ∧ d' = set_rows name t rows' d.
Proof.
  unfold update_row_spec. destruct (d !! name) as [[t rows]|]; [|done].
  case_decide; [|done]. destruct (value_eqb _ _); [intros [= <-]; eauto|].
  destruct (rows !! _); [done|]. intros [= <-]. eauto.
Qed.

Lemma runs_update_rows t l f rows x d count :
  table_ok t → (∀ row, table_row t row → rfoldl assign row l = Ok (f row)) →
  (∀ row, table_row t row → row_encodable (f row) ∧ length (f row) = length (Columns t)) →
  sees n d0 x d → rel_schema <$> d !! tbl_Name t = Some t → Forall (table_row t) rows →
  runs (sfoldl (update_row t l) count rows) x
    (λ x' c, ∃ d', update_rows_spec (tbl_Name t) f rows d = Some d' ∧ sees n d0 x' d' ∧
      c = count + Z.of_nat (length rows))
    (update_rows_spec (tbl_Name t) f rows d = None).
Proof.
  intros Ht Hl Hf. revert x d count. induction rows as [|row rows IH]; intros x d count Hx Hd Hrows; cbn [sfoldl].
  - apply runs_ret. exists d. split; [done|]. split; [done|]. cbn. lia.
  - apply Forall_cons in Hrows as [Hrow Hrows]. pose proof Hrow as [Hok Henc].
    apply runs_bind. unfold update_row at 1. destruct (row_primary_ok t row Ht Hok) as [Hpk _].
    apply runs_bind, runs_lift; [by eapply sees_alive|by rewrite Hpk|by rewrite Hpk|]. intros pk Hpk'%rwrap_Ok.
    rewrite Hpk in Hpk'. injection Hpk' as <-.
    apply runs_bind, runs_lift; [by eapply sees_alive|by rewrite Hl|by rewrite Hl|]. intros row' Hrow'.
    rewrite Hl in Hrow' by done. injection Hrow' as <-. destruct (Hf row Hrow) as [Henc' Hlen].
    apply runs_bind, runs_wrap.
    eapply runs_does; [by apply (update_row_ok n d0 x d t row)|cbn; by intros ->|].
    intros x' d' Hs Hx'. apply runs_ret.
    destruct (update_row_schema _ _ _ _ _ Hs) as (t' & rs & rs' & Hd' & ->).
    rewrite Hd' in Hd. cbn in Hd. injection Hd as ->.
    cbn [update_rows_spec]. rewrite Hs. cbn [mbind option_bind].
    eapply runs_mono; [eapply (IH x' _ (count + 1)); [done|unfold set_rows; by rewrite lookup_insert_eq|done]|..|done].
    intros x2 c (d2 & Hs2 & Hx2 & ->). exists d2. split; [done|]. split; [done|]. cbn. lia.
Qed.

Lemma resolve_assignments t assignments :
  match rmapM (resolve_assignment t) (map_order assignments) with
  | Ok l => assignable t assignments ∧
      ∀ row, row_ok t row → rfoldl assign row l = Ok (assigned t assignments row)
  | Err _ => ¬ assignable t assignments
  | Panic _ => False
  end.
Proof.
  pose proof (resolve_order t assignments _ (map_order_perm assignments)) as Hres.
  destruct (rmapM _ _); [|done..]. destruct Hres as [? Hl]. split; [done|].
  intros row Hok%row_ok_length. by apply Hl.
Qed.

Lemma runs_update x d name cond assignments (Q : T → ResultSet → Prop) (F : Prop) :
  sees n d0 x d → name ≠ [] → map_Forall (λ _ e, literal_ok e) assignments →
  ((∀ r c rows d', d !! name = Some r → assignable (rel_schema r) assignments →
      denote d (table_source name cond) = Ok (c, rows) →
      update_rows_spec name (assigned (rel_schema r) assignments) rows d ≠ Some d') → F) →
  (∀ x' d' r c, d !! name = Some r → assignable (rel_schema r) assignments →
     denote d (table_source name cond) = Ok (c, chosen_rows r cond) →
     update_rows_spec name (assigned (rel_schema r) assignments) (chosen_rows r cond) d = Some d' →
     sees n d0 x' d' → Q x' (UpdateResult (Z.of_nat (length (chosen_rows r cond))))) →
  runs (Execute (UpdateExecutor name (table_source name cond) assignments)) x Q F.
Proof.
  intros Hx Hne Hlit HF HQ. cbn [Execute]. unfold UpdateExecutor_Execute.
  apply runs_bind. eapply runs_load_table; [done|done| |].
  { intros Hnone. apply HF. intros r c rows d' Hr. congruence. }
  intros x1 r Hr Hx1. pose proof (sees_wf n d0 x d Hx _ _ Hr) as Hwf. pose proof (wf_table_name _ _ Hwf) as Hname.
  pose proof (resolve_assignments (rel_schema r) assignments) as Hres. apply runs_bind.
  unfold runs at 1, slift. destruct (rmapM _ _) as [l|err|w]; [|split; [by eapply sees_alive|]|done].
  2:{ intros _. apply HF. intros r' c rows d' Hr' Hall. by simplify_eq. }
  destruct Hres as [Hall Hl]. apply runs_bind. eapply runs_source; [done|done|done| |].
  { intros err Herr. apply HF. congruence. }
  intros x2 c Hden Hx2. apply runs_bind. unfold runs at 1. cbn [slift as_rows]. apply runs_bind.
  eapply runs_mono; [apply (runs_update_rows (rel_schema r) l (assigned (rel_schema r) assignments)
    (chosen_rows r cond) x2 d 0)|..].
  - apply (wf_table _ _ Hwf).
  - intros row [Hok _]. by apply Hl.
  - intros row [Hok Henc]. split; [by apply assigned_encodable|].
    rewrite length_assigned. by apply row_ok_length.
  - done.
  - by rewrite Hname, Hr.
  - by eapply chosen_table_rows.
  - intros x' count (d' & Hs & Hx' & ->). rewrite Hname in Hs. apply runs_ret. by eapply HQ.
  - intros Hnone. rewrite Hname in Hnone. apply HF. intros r' c' rows d' Hr' _ Hd.
    rewrite Hden in Hd. rewrite Hr in Hr'. injection Hd as <- <-. injection Hr' as <-. by rewrite Hnone.
Qed.

End runs.
