(* ===== verification/Effects.v ===== *)
(** * The effects of INSERT, UPDATE and DELETE in closed form *)

From S2P Require Import Prelude Bytes Engine Types Lexer Ast Schema Planner Sort Expr Transaction Executor RowsSpec OrderSpec Predicates InsertSpec Keys Json Relation ExecutorSafe ExecutorWrites.

Lemma relation_eta r : mkRelation (rel_schema r) (rel_rows r) = r.
Proof. by destruct r. Qed.

(** INSERT adds the rows, whose keys are new and distinct *)
Lemma create_rows_effect name t rows rs d d' :
  d !! name = Some (mkRelation t rs) → create_rows_spec name rows d = Some d' →
  Forall (row_ok t) rows ∧ NoDup (map (row_pk t) rows) ∧
  (∀ row, row ∈ rows → rs !! row_pk t row = None) ∧
  d' = set_rows name t (list_to_map (map (λ row, (row_pk t row, row)) rows) ∪ rs) d.
Proof.
  revert rs d. induction rows as [|row rows IH]; intros rs d Hd Hs; cbn [create_rows_spec map] in *.
  - injection Hs as <-. split; [constructor|]. split; [constructor|]. split; [set_solver|].
    cbn. rewrite (left_id_L ∅ (∪)). unfold set_rows. by rewrite insert_id.
  - destruct (create_row_spec name row d) as [d1|] eqn:Hc; [|done]. cbn in Hs.
    unfold create_row_spec in Hc. rewrite Hd in Hc. case_decide as Hok; [|done].
    destruct (rs !! row_pk t row) eqn:Hnone; [done|]. injection Hc as <-.
    destruct (IH (<[row_pk t row := row]> rs) _ (lookup_insert_eq _ _ _) Hs) as (Hoks & Hnd & Hnew & ->).
    assert (row_pk t row ∉ map (row_pk t) rows) as Hnin.
    { intros (row' & Heq & Hin)%list_elem_of_fmap. specialize (Hnew _ Hin).
      rewrite <-Heq, lookup_insert_eq in Hnew. done. }
    split; [by constructor|]. split; [by constructor|]. split.
    + intros row' [->|Hin]%elem_of_cons; [done|]. specialize (Hnew _ Hin).
      by apply lookup_insert_None in Hnew as [? _].
    + unfold set_rows. rewrite insert_insert_eq. f_equal. f_equal. cbn.
      rewrite <-insert_union_r; [by rewrite insert_union_l|].
      apply not_elem_of_list_to_map_1. by rewrite <-list_fmap_compose.
Qed.

(** and it succeeds on such rows *)
Lemma create_rows_succeeds name t rows rs d :
  d !! name = Some (mkRelation t rs) → Forall (row_ok t) rows → NoDup (map (row_pk t) rows) →
  (∀ row, row ∈ rows → rs !! row_pk t row = None) →
  create_rows_spec name rows d =
    Some (set_rows name t (list_to_map (map (λ row, (row_pk t row, row)) rows) ∪ rs) d).
Proof.
  intros Hd Hok Hnd Hnew.
  destruct (create_rows_spec name rows d) as [d'|] eqn:Hs.
  { by destruct (create_rows_effect _ _ _ _ _ _ Hd Hs) as (_ & _ & _ & ->). }
  exfalso. revert rs d Hd Hnew Hs. induction rows as [|row rows IH]; intros rs d Hd Hnew Hs; [done|].
  cbn [create_rows_spec map] in *. apply Forall_cons in Hok as [Hrow Hok]. apply NoDup_cons in Hnd as [Hnin Hnd].
  unfold create_row_spec in Hs. rewrite Hd, decide_True, Hnew in Hs by (done || set_solver).
  cbn [mbind option_bind] in Hs.
  eapply (IH Hok Hnd (<[row_pk t row := row]> rs)); [|  |exact Hs]; [by unfold set_rows; rewrite lookup_insert_eq|].
  intros row' Hin. rewrite lookup_insert_ne by (intros Heq; apply Hnin, list_elem_of_fmap; eauto).
  apply Hnew. set_solver.
Qed.

Lemma insert_closed name columns values d d' :
  (∃ rel rows, d !! name = Some rel ∧ Forall2 (row_of (rel_schema rel) columns) values rows ∧
     create_rows_spec name rows d = Some d') ↔
  ∃ t rs rows, d !! name = Some (mkRelation t rs) ∧ Forall2 (row_of t columns) values rows ∧
    Forall (row_ok t) rows ∧ NoDup (map (row_pk t) rows) ∧ (∀ row, row ∈ rows → rs !! row_pk t row = None) ∧
    d' = set_rows name t (list_to_map (map (λ row, (row_pk t row, row)) rows) ∪ rs) d.
Proof.
  split.
  - intros ([t rs] & rows & Hd & Hrows & Hs). exists t, rs, rows.
    by destruct (create_rows_effect _ _ _ _ _ _ Hd Hs) as (? & ? & ? & ->).
  - intros (t & rs & rows & Hd & Hrows & Hok & Hnd & Hnew & ->). exists (mkRelation t rs), rows.
    split; [done|]. split; [done|]. by apply create_rows_succeeds.
Qed.

(** DELETE keeps the rows that were not chosen *)
Lemma delete_rows_effect name t rows rs d d' :
  d !! name = Some (mkRelation t rs) → delete_rows_spec name rows d = Some d' →
  d' = set_rows name t (filter (λ p, p.1 ∉ map (row_pk t) rows) rs) d.
Proof.
  revert rs d. induction rows as [|row rows IH]; intros rs d Hd Hs; cbn [delete_rows_spec map] in *.
  - injection Hs as <-. unfold set_rows. rewrite map_filter_id; [by rewrite insert_id|]. set_solver.
  - unfold delete_row_spec in Hs. rewrite Hd in Hs. cbn in Hs.
    rewrite (IH _ _ (lookup_insert_eq _ _ _) Hs). unfold set_rows. rewrite insert_insert_eq.
    do 2 f_equal. apply map_eq. intros k. rewrite !map_lookup_filter, lookup_delete. case_decide as Hk.
    + subst k. cbn. destruct (rs !! _); cbn; [|done]. rewrite option_guard_False; [done|]. set_solver.
    + destruct (rs !! k); cbn; [|done]. apply option_guard_iff. cbn. rewrite not_elem_of_cons. naive_solver.
Qed.

Lemma chosen_rows_pk name r cond k row :
  relation_wf name r → rel_rows r !! k = Some row →
  k ∈ map (row_pk (rel_schema r)) (chosen_rows r cond) ↔ chosen (rel_schema r) cond row = true.
Proof.
  intros Hr Hk. destruct (wf_rows _ _ Hr _ _ Hk) as (_ & _ & <-).
  change (map ?f ?l) with (f <$> l). rewrite list_elem_of_fmap. unfold chosen_rows. split.
  - intros (row' & Heq & [Hc Hin]%list_elem_of_filter).
    destruct (stored_rows _ _ _ Hr Hin) as (_ & _ & Hrow'). congruence.
  - intros Hc. exists row. split; [done|]. apply list_elem_of_filter. split; [done|].
    apply elem_of_relation_rows. eauto.
Qed.

Lemma delete_chosen_effect name r cond d d' :
  db_wf d → d !! name = Some r → delete_rows_spec name (chosen_rows r cond) d = Some d' →
  d' = set_rows name (rel_schema r) (filter (λ p, chosen (rel_schema r) cond p.2 = false) (rel_rows r)) d.
Proof.
  intros Hwf Hd Hs. rewrite <-(relation_eta r) in Hd. rewrite (delete_rows_effect _ _ _ _ _ _ Hd Hs).
  do 2 f_equal. apply map_filter_ext. intros k row Hk. cbn. rewrite relation_eta in Hd.
  rewrite (chosen_rows_pk name) by (try done; by apply Hwf). by rewrite not_true_iff_false.
Qed.

(** UPDATE that keeps primary keys rewrites the chosen rows *)
Lemma update_rows_effect name t f rows rs d d' :
  d !! name = Some (mkRelation t rs) → update_rows_spec name f rows d = Some d' →
  (∀ row, row ∈ rows → row_primary t (f row) = row_primary t row ∧
     value_eqb (row_primary t row) (row_primary t row) = true) →
  d' = set_rows name t (foldl (λ m row, <[row_pk t row := f row]> m) rs rows) d.
Proof.
  revert rs d. induction rows as [|row rows IH]; intros rs d Hd Hs Hpk; cbn [update_rows_spec foldl] in *.
  - injection Hs as <-. unfold set_rows. by rewrite insert_id.
  - destruct (Hpk row) as [Heq Hrefl]; [set_solver|].
    unfold update_row_spec at 1 in Hs. rewrite Hd in Hs. case_decide; [|done].
    rewrite Heq, Hrefl in Hs. cbn in Hs. unfold row_pk at 1 in Hs. rewrite Heq in Hs.
    rewrite (IH _ _ (lookup_insert_eq _ _ _) Hs) by set_solver.
    unfold set_rows. by rewrite insert_insert_eq.
Qed.

(** an UPDATE that assigns no primary key keeps the primary keys *)
Definition keeps_keys (t : Table) (assignments : gmap bytes Expression) : Prop :=
  Forall (λ c, PrimaryKey c = true → assignments !! Name c = None) (Columns t).

Lemma row_primary_assigned t assignments row :
  table_ok t → row_ok t row → keeps_keys t assignments →
  row_primary t (assigned t assignments row) = row_primary t row.
Proof.
  intros Ht Hok%row_ok_length Hk. destruct Ht as (_ & _ & pre & pk & post & Hcs & Hpk & _ & Hpre & _).
  unfold row_primary, PrimaryKeyValue. rewrite length_assigned.
  rewrite !decide_False by (by intros ?). rewrite Hcs, !primary_key_loop_spec by done.
  unfold rindex, assigned. rewrite list_lookup_imap. cbn [Nat.add].
  destruct (row !! length pre) as [v|]; cbn; [|done].
  assert (Columns t !! length pre = Some pk) as Hl.
  { rewrite Hcs, lookup_app_r, Nat.sub_diag by done. done. }
  rewrite Hl. rewrite (proj1 (Forall_lookup _ _) Hk _ _ Hl Hpk). by case_decide.
Qed.

Lemma value_eqb_refl v : value_wf v → value_eqb v v = true.
Proof.
  intros Hv. assert (∃ t, of_type t v) as [t Ht].
  { unfold of_type. unfold value_wf in Hv. destruct (Kind v) eqn:Hk; try done;
      unfold Value_DataType; rewrite Hk; [exists Boolean|exists Boolean|exists Integer|exists Float|exists String]; auto. }
  destruct (value_eqb_equiv t) as (Hrefl & _). by apply Hrefl.
Qed.

Lemma foldl_insert_rows (t : Table) (f : Row → Row) (rows : list Row) (rs : gmap bytes Row) (k : bytes) :
  NoDup (map (row_pk t) rows) →
  foldl (λ m row, <[row_pk t row := f row]> m) rs rows !! k =
    match list_find (λ row, row_pk t row = k) rows with Some (_, row) => Some (f row) | None => rs !! k end.
Proof.
  revert rs. induction rows as [|row rows IH]; intros rs Hnd; [done|]. cbn [foldl map list_find].
  apply NoDup_cons in Hnd as [Hnin Hnd]. rewrite IH by done. case_decide as Hk.
  - subst k. destruct (list_find _ rows) as [[i row']|] eqn:Hf; [|apply lookup_insert_eq].
    apply list_find_Some in Hf as (Hi & Heq & _). exfalso. apply Hnin. rewrite <-Heq.
    apply list_elem_of_fmap. exists row'. split; [done|]. by eapply list_elem_of_lookup_2.
  - destruct (list_find _ rows) as [[i row']|]; cbn; [done|]. by rewrite lookup_insert_ne.
Qed.

Lemma NoDup_map_filter {A B} (f : A → B) (P : A → Prop) `{∀ a, Decision (P a)} l :
  NoDup (map f l) → NoDup (map f (filter P l)).
Proof.
  induction l as [|a l IH]; [done|]. cbn [map]. intros [Hnin Hnd]%NoDup_cons. rewrite filter_cons.
  case_decide; [|by apply IH]. cbn [map]. apply NoDup_cons. split; [|by apply IH].
  intros (b & Heq & [_ Hb]%list_elem_of_filter)%list_elem_of_fmap. apply Hnin, list_elem_of_fmap. eauto.
Qed.

Lemma NoDup_relation_rows name r :
  relation_wf name r → NoDup (map (row_pk (rel_schema r)) (relation_rows r)).
Proof.
  intros Hr. unfold relation_rows. change (map ?f ?l) with (f <$> l). rewrite <-list_fmap_compose.
  assert (∀ p, p ∈ sorted_entries (rel_rows r) → (row_pk (rel_schema r) ∘ snd) p = p.1) as Hpk.
  { intros [k row] Hin%elem_of_sorted_entries. by destruct (wf_rows _ _ Hr _ _ Hin) as (_ & _ & <-). }
  rewrite (list_fmap_ext _ fst) by (intros i p Hi; apply Hpk; by eapply list_elem_of_lookup_2).
  unfold sorted_entries. rewrite merge_sort_Permutation. apply NoDup_fst_map_to_list.
Qed.

Lemma update_chosen_effect name r cond assignments d d' :
  db_wf d → d !! name = Some r → keeps_keys (rel_schema r) assignments →
  update_rows_spec name (assigned (rel_schema r) assignments) (chosen_rows r cond) d = Some d' →
  d' = set_rows name (rel_schema r)
    ((λ row, if chosen (rel_schema r) cond row then assigned (rel_schema r) assignments row else row)
      <$> rel_rows r) d.
Proof.
  intros Hwf Hd Hk Hs. pose proof (Hwf _ _ Hd) as Hr. pose proof Hd as Hd'. rewrite <-(relation_eta r) in Hd'.
  rewrite (update_rows_effect _ _ _ _ _ _ _ Hd' Hs).
  2:{ intros row [_ Hin]%list_elem_of_filter. destruct (stored_rows _ _ _ Hr Hin) as (Hok & Henc & _).
      split; [apply row_primary_assigned; [apply Hr|done|done]|]. apply value_eqb_refl.
      by apply (row_primary_encodable _ _ (wf_table _ _ Hr) Hok Henc). }
  f_equal. apply map_eq. intros k. rewrite foldl_insert_rows, lookup_fmap.
  2:{ by apply NoDup_map_filter, (NoDup_relation_rows name). }
  destruct (list_find _ _) as [[i row]|] eqn:Hf.
  - apply list_find_Some in Hf as (Hi & <- & _).
    assert (row ∈ chosen_rows r cond) as [Hc Hin]%list_elem_of_filter by by eapply list_elem_of_lookup_2.
    destruct (stored_rows _ _ _ Hr Hin) as (_ & _ & ->). cbn. by rewrite Hc.
  - apply list_find_None in Hf. destruct (rel_rows r !! k) as [row|] eqn:Hrow; cbn; [|done].
    destruct (chosen (rel_schema r) cond row) eqn:Hc; [|done]. exfalso.
    destruct (wf_rows _ _ Hr _ _ Hrow) as (_ & _ & Hpk).
    apply (proj1 (Forall_forall _ _) Hf row); [|done]. apply list_elem_of_filter. split; [done|].
    apply elem_of_relation_rows. eauto.
Qed.

(** ** When UPDATE and DELETE succeed *)

(** the condition has a meaning in every row of the table *)
Definition meaningful (r : relation) (cond : option Expression) : Prop :=
  match cond with
  | None => True
  | Some p => Forall (λ row, ∃ v, means (map Name (Columns (rel_schema r))) row p v) (relation_rows r)
  end.

Lemma denote_source_meaningful d name cond r :
  relation_wf name r → d !! name = Some r →
  match denote d (table_source name cond) with Ok _ => meaningful r cond | _ => ¬ meaningful r cond end.
Proof.
  intros Hr Hd. destruct cond as [p|]; cbn; unfold scan_of; rewrite Hd; [|done]. cbn.
  assert (rectangular (map Name (Columns (rel_schema r))) (relation_rows r)) as Hrect.
  { apply Forall_forall. intros row Hin. rewrite length_map. apply row_ok_length.
    by destruct (stored_rows _ _ _ Hr Hin). }
  pose proof (filter_rows_selects p _ _ Hrect) as Hf. destruct (filter_rows p _ _) as [out|err|]; cbn; [by destruct Hf| |done].
  intros Hall. apply Exists_exists in Hf as (row & Hin & Hno).
  destruct (proj1 (Forall_forall _ _) Hall row Hin) as [v Hv]. by destruct (Hno v).
Qed.

Lemma denote_source_ok d name cond r :
  relation_wf name r → d !! name = Some r → meaningful r cond →
  ∃ c, denote d (table_source name cond) = Ok (c, chosen_rows r cond).
Proof.
  intros Hr Hd Hm. pose proof (denote_source_meaningful d name cond r Hr Hd) as Hden.
  destruct (denote d (table_source name cond)) as [[c rows]|err|] eqn:E; [|done..].
  exists c. by rewrite (denote_source _ _ _ _ _ _ Hd E).
Qed.

Lemma delete_rows_succeeds name rows d :
  is_Some (d !! name) → is_Some (delete_rows_spec name rows d).
Proof.
  revert d. induction rows as [|row rows IH]; intros d [[t rs] Hd]; [by eexists|].
  cbn [delete_rows_spec]. unfold delete_row_spec. rewrite Hd. cbn. apply IH.
  unfold set_rows. by rewrite lookup_insert_eq.
Qed.

Lemma update_rows_succeeds name t f rows rs d :
  d !! name = Some (mkRelation t rs) →
  (∀ row, row ∈ rows → row_ok t (f row) ∧ value_eqb (row_primary t row) (row_primary t (f row)) = true) →
  is_Some (update_rows_spec name f rows d).
Proof.
  revert rs d. induction rows as [|row rows IH]; intros rs d Hd Hrows; [by eexists|].
  cbn [update_rows_spec]. destruct (Hrows row) as [Hok Hpk]; [set_solver|].
  unfold update_row_spec. rewrite Hd, decide_True, Hpk by done. cbn.
  eapply IH; [unfold set_rows; by rewrite lookup_insert_eq|set_solver].
Qed.

(** an assignment that keeps the primary keys succeeds on rows it leaves fitting *)
Lemma update_chosen_succeeds name r cond assignments d :
  relation_wf name r → d !! name = Some r → keeps_keys (rel_schema r) assignments →
  (∀ row, row ∈ chosen_rows r cond → row_ok (rel_schema r) (assigned (rel_schema r) assignments row)) →
  is_Some (update_rows_spec name (assigned (rel_schema r) assignments) (chosen_rows r cond) d).
Proof.
  intros Hr Hd Hk Hok. eapply update_rows_succeeds; [by rewrite relation_eta|].
  intros row Hin. split; [by apply Hok|]. apply list_elem_of_filter in Hin as [_ Hin].
  destruct (stored_rows _ _ _ Hr Hin) as (Hrow & Henc & _). pose proof (wf_table _ _ Hr) as Ht.
  rewrite (row_primary_assigned _ _ _ Ht Hrow Hk). apply value_eqb_refl.
  by apply (row_primary_encodable _ _ Ht Hrow Henc).
Qed.
