(* ===== verification/Statements.v ===== *)
(** * From the text of a statement to a plan the executor can run

    [executor_ok]: the plans the executor's theorems are about.  Every
    statement of valid UTF-8 text that parses and plans gives such a plan. *)

From S2P Require Import Prelude Bytes Types Floats Lexer LexerProps Ast Parser ParserProps ParserRoundtrip ParserShape Schema Planner Transaction Executor RowsSpec Json Relation ExecutorSafe ExecutorWrites.

Definition executor_ok (e : Executor) : Prop :=
  match e with
  | CreateTableExecutor t => name_ok (tbl_Name t) ∧ table_encodable t
  | InsertExecutor name _ values => name ≠ [] ∧ name_ok name ∧ Forall (Forall literal_ok) values
  | UpdateExecutor name source assignments =>
      name ≠ [] ∧ map_Forall (λ _ e, literal_ok e) assignments ∧
      ∃ cond, source = table_source name cond
  | DeleteExecutor name source => name ≠ [] ∧ ∃ cond, source = table_source name cond
  | e => query_ok e
  end.

(** ** Text *)

Lemma utf8_lead_high b n lo hi : utf8_lead b = Some (n, lo, hi) → in_bytes lo hi x27 = false.
Proof. unfold utf8_lead. repeat case_match; intros; simplify_eq; done. Qed.

(** text cut at an ASCII byte *)
Lemma utf8_from_app n lo hi a b :
  in_bytes lo hi x27 = false →
  utf8_from n lo hi (a ++ x27 :: b) = utf8_from n lo hi a && valid_utf8 b.
Proof.
  revert n lo hi. induction a as [|c a IH]; intros n lo hi Hlo; destruct n as [|n]; cbn [app utf8_from].
  - done.
  - by rewrite Hlo.
  - destruct (utf8_lead c) as [[[n lo'] hi']|] eqn:E; [|done]. apply IH. by eapply utf8_lead_high.
  - rewrite IH by done. by rewrite andb_assoc.
Qed.

Lemma quoted_utf8 input s : valid_utf8 input = true → quoted input s → valid_utf8 s = true.
Proof.
  intros H (before & after & ->). unfold valid_utf8 in H. rewrite utf8_from_app in H by done.
  apply andb_true_iff in H as [_ H]. unfold valid_utf8 in H. rewrite utf8_from_app in H by done.
  by apply andb_true_iff in H as [H _].
Qed.

Lemma part_ascii b : isIdentifierPart b = true → in_bytes x00 x7f b = true ∧ b ≠ x00.
Proof.
  intros Hb.
  pose proof (forall_bytes (λ c, implb (isIdentifierPart c) (in_bytes x00 x7f c && negb (bool_decide (c = x00))))
    eq_refl b) as Hi. cbn beta in Hi.
  rewrite Hb in Hi. apply andb_true_iff in Hi as [? ?%negb_true_iff%bool_decide_eq_false]. done.
Qed.

Lemma ident_ok_name name :
  ident_ok name → name ≠ [] ∧ name_ok name ∧ valid_utf8 name = true.
Proof.
  intros ((b & rest & -> & _) & Hall & _). split; [done|].
  assert (Forall (λ b, in_bytes x00 x7f b = true ∧ b ≠ x00) (b :: rest)) as H.
  { eapply Forall_impl; [exact Hall|]. intros c [Hc _]. by apply part_ascii. }
  clear Hall. split.
  - intros Hin. apply (proj1 (Forall_forall _ _) H) in Hin as [_ Hin]. done.
  - unfold valid_utf8. induction H as [|c l [Hc _] _ IH]; [done|]. cbn. unfold utf8_lead. by rewrite Hc.
Qed.

(** ** Literals *)

Lemma literal_encodable input e :
  valid_utf8 input = true → literal (Hstr := quoted input) e → literal_ok e.
Proof.
  intros Hutf [Hleaf Hstr] v Hv. destruct e as [|b|z|f|s| | |]; cbn in Hv; try done;
    injection Hv as <-; unfold value_encodable; cbn in *; try done.
  - split; [|done]. split; [done|]. unfold in_int64, min_int64. unfold max_int64 in *. lia.
  - destruct f as [[]|[]| |[]]; done.
  - split; [done|]. split; [done|]. by eapply quoted_utf8.
Qed.

(** ** Plans *)

Lemma Build_table_source name cond : Executor.Build (filtered_scan name cond) = Ok (table_source name cond).
Proof. by destruct cond. Qed.

(** planning ends, without a panic *)
Lemma buildFromItem_no_panic item : no_panic (buildFromItem item).
Proof.
  induction item as [|l IHl r IHr j p]; cbn; [done|]. apply no_panic_bind; [by destruct j, p|].
  intros _ _. case_decide;
    (apply no_panic_bind; [by apply no_panic_wrap|]; intros ? _; apply no_panic_bind; [by apply no_panic_wrap|done]).
Qed.

Lemma add_optional_no_panic {A} (o : option A) f node :
  (∀ a n, no_panic (f a n)) → no_panic (add_optional o f node).
Proof. destruct o; cbn; auto. Qed.

Lemma row_count_no_panic a b c e : no_panic (row_count a b c e).
Proof.
  unfold row_count. apply no_panic_bind; [apply no_panic_wrap, ValueFromExpression_no_panic|].
  intros v _. by repeat case_match.
Qed.

Lemma check_item_no_panic g col flags item : no_panic (check_item g col flags item).
Proof. destruct flags. unfold check_item. by repeat case_match. Qed.

Lemma buildSelect_no_panic s : no_panic (buildSelect s).
Proof.
  unfold buildSelect. apply no_panic_bind; [apply no_panic_wrap, buildFromItem_no_panic|]. intros ? _.
  apply no_panic_bind; [by apply add_optional_no_panic|]. intros ? _.
  apply no_panic_bind; [destruct (sel_GroupBy s) as [[]|]; done|]. intros ? _.
  apply no_panic_bind; [apply (rfoldl_no_panic (λ _, True)); [done|]; intros; split; [apply check_item_no_panic|done]|].
  intros [agg non] _. destruct (negb _ && agg && non); [done|].
  assert (∀ a b c (f : Node → Z → Node) (e : Expression) node,
    no_panic (let? n := row_count a b c e in Ok (f node n))) as Hcount.
  { intros. by apply no_panic_bind; [apply row_count_no_panic|]. }
  apply no_panic_bind; [by apply add_optional_no_panic|]. intros ? _.
  apply no_panic_bind; [by apply add_optional_no_panic; intros; apply (Hcount _ _ _ OffsetNode)|]. intros ? _.
  by apply no_panic_bind; [apply add_optional_no_panic; intros; apply (Hcount _ _ _ LimitNode)|].
Qed.

Lemma columnFromDefinition_no_panic c : no_panic (columnFromDefinition c).
Proof.
  unfold columnFromDefinition. apply no_panic_bind; [|done]. destruct (cd_DefaultValue c); [|done].
  by apply no_panic_bind; [apply no_panic_wrap, ValueFromExpression_no_panic|].
Qed.

Lemma Planner_Build_no_panic s : no_panic (Planner.Build s).
Proof.
  destruct s as [s|s|s|s|s]; cbn [Planner.Build]; try done.
  - apply no_panic_bind; [|done]. apply no_panic_wrap. unfold tableFromCreateStatement.
    apply no_panic_bind; [|done]. apply rmapM_no_panic, Forall_forall. intros c _.
    apply columnFromDefinition_no_panic.
  - apply buildSelect_no_panic.
Qed.

(** every plan has an executor *)
Lemma Build_total node : ∃ e, Executor.Build node = Ok e.
Proof.
  induction node; cbn [Executor.Build]; try (by eexists);
    repeat match goal with H : ∃ e, _ = _ |- _ => destruct H as [? ->] end; cbn; by eexists.
Qed.

Fixpoint query_node (node : Node) : Prop :=
  match node with
  | ScanNode name => name ≠ []
  | FilterNode source _ | OrderNode source _ | ProjectionNode source _ => query_node source
  | OffsetNode source n | LimitNode source n => query_node source ∧ 0 ≤ n
  | AggregateNode source items groupBy =>
      query_node source ∧ Forall (item_ok groupBy) items ∧ group_ok groupBy
  | NestedLoopJoinNode l r _ _ => query_node l ∧ query_node r
  | _ => False
  end.

Lemma Build_query node e : query_node node → Executor.Build node = Ok e → query_ok e.
Proof.
  revert e. induction node; cbn [query_node Executor.Build]; intros e Hq H; try done; inv_ok; cbn; try done;
    destruct_and?; eauto.
Qed.

Lemma buildFromItem_query item node : from_names item → buildFromItem item = Ok node → query_node node.
Proof.
  revert node. induction item as [name|l IHl r IHr j p]; intros node Hn H; cbn [buildFromItem from_names] in *.
  - injection H as <-. by apply ident_ok_name.
  - destruct Hn as [Hl Hr]. inv_ok. case_decide; inv_ok; cbn; split; auto.
Qed.

Definition is_function (item : SelectItem) : Prop :=
  match si_Expression item with FunctionExpression _ => True | _ => False end.

Lemma check_items (grouped : bool) col flags items a n :
  rfoldl (check_item grouped col) flags items = Ok (a, n) →
  (n = false → flags.2 = false ∧ Forall is_function items) ∧
  (grouped = true → Forall (item_ok (Some (ColumnReference col))) items).
Proof.
  revert flags. induction items as [|item items IH]; intros [a0 n0] H; cbn [rfoldl] in H; inv_ok.
  - split; [by intros ->|constructor].
  - destruct (IH _ H0) as [Hn Hg]. unfold check_item in H. split.
    + intros Hn0. destruct (Hn Hn0) as [Hx Hf]. unfold is_function.
      split; [|constructor; [|done]]; destruct (si_Expression item) eqn:E; try done;
        repeat (case_match; try done); inv_ok; done.
    + intros ->. constructor; [|by apply Hg]. unfold item_ok.
      by destruct (si_Expression item).
Qed.

Lemma row_count_nonneg a b c e n : row_count a b c e = Ok n → 0 ≤ n.
Proof.
  unfold row_count. intros H. inv_ok. repeat case_match; try done. inv_ok.
  match goal with H : _ || _ = false |- _ => apply orb_false_iff in H as [_ H] end. lia.
Qed.

Lemma add_optional_keeps {A} (P : Node → Prop) (o : option A) f node node' :
  add_optional o f node = Ok node' → P node → (∀ a n n', P n → f a n = Ok n' → P n') → P node'.
Proof. destruct o; cbn; [eauto|by intros [= <-]]. Qed.

(** the checks of the select items make an aggregation well-formed *)
Lemma aggregate_items s col a n :
  group_column (sel_GroupBy s) = Ok col →
  let grouped := match sel_GroupBy s with Some _ => true | None => false end in
  rfoldl (check_item grouped col) (false, false) (sel_SelectItems s) = Ok (a, n) →
  negb grouped && a && n = false → a || grouped = true →
  Forall (item_ok (sel_GroupBy s)) (sel_SelectItems s) ∧ group_ok (sel_GroupBy s).
Proof.
  intros Hcol grouped H Hmix Hagg. destruct (check_items _ _ _ _ _ _ H) as [Hf Hg].
  destruct (sel_GroupBy s) as [e|]; cbn in grouped; subst grouped.
  - destruct e; try done. injection Hcol as <-. split; [by apply Hg|done].
  - split; [|done]. rewrite orb_false_r in Hagg. subst a. cbn in Hmix.
    eapply Forall_impl; [by apply Hf|]. intros item Hi. unfold is_function, item_ok in *.
    by destruct (si_Expression item).
Qed.

Lemma buildSelect_query s node : from_names (sel_From s) → buildSelect s = Ok node → query_node node.
Proof.
  intros Hn H. unfold buildSelect in H.
  apply rbind_Ok in H as (x & Hx & H). apply rwrap_Ok, buildFromItem_query in Hx; [|done].
  apply rbind_Ok in H as (x1 & Hx1 & H).
  eapply (add_optional_keeps query_node) in Hx1; [|done|by intros ? ? ? ? [= <-]].
  apply rbind_Ok in H as (col & Hcol & H). apply rbind_Ok in H as ([a n] & Hitems & H).
  destruct (negb _ && a && n) eqn:Hmix; [done|].
  pose proof (aggregate_items s col a n Hcol Hitems Hmix) as Hagg. cbn zeta in Hagg.
  apply rbind_Ok in H as (x2 & Hx2 & H).
  eapply (add_optional_keeps query_node) in Hx2;
    [|destruct (a || _); [by destruct (Hagg eq_refl)|done]|by intros ? ? ? ? [= <-]].
  apply rbind_Ok in H as (x3 & Hx3 & H).
  eapply (add_optional_keeps query_node) in Hx3;
    [|by case_decide|by intros ? ? ? ? Hf; inv_ok; split; [|by eapply row_count_nonneg]].
  apply rbind_Ok in H as (x4 & Hx4 & H).
  eapply (add_optional_keeps query_node) in Hx4;
    [|done|by intros ? ? ? ? Hf; inv_ok; split; [|by eapply row_count_nonneg]].
  injection H as <-. unfold projected. by destruct (bool_decide _ && _); cbn.
Qed.

(** ** Every plan of a statement of the grammar *)

Lemma columnFromDefinition_encodable input ast c :
  valid_utf8 input = true → column_shape (Hstr := quoted input) ast →
  columnFromDefinition ast = Ok c → column_encodable c.
Proof.
  intros Hutf [Hname Hdef] H. unfold columnFromDefinition in H. inv_ok. split; cbn; [by apply ident_ok_name|].
  intros v ->. destruct (cd_DefaultValue ast) as [e|]; inv_ok.
  - by eapply literal_encodable.
  - case_match; inv_ok; by simplify_eq.
Qed.

Lemma Build_grammatical input s node e :
  valid_utf8 input = true → grammatical (Hstr := quoted input) s →
  Planner.Build s = Ok node → Executor.Build node = Ok e → executor_ok e.
Proof.
  intros Hutf Hs Hp He.
  assert (∀ x, literal (Hstr := quoted input) x → literal_ok x) as Hlit.
  { intros x. by apply literal_encodable. }
  destruct s as [s|s|s|s|s]; cbn [Planner.Build grammatical] in *.
  - unfold tableFromCreateStatement in Hp. inv_ok. cbn in He. inv_ok. destruct Hs as [Hname Hcols].
    destruct (ident_ok_name _ Hname) as (_ & ? & ?). cbn. split; [done|]. split; [done|]. cbn.
    match goal with H : Forall2 _ _ _ |- _ => rename H into Hall | H : rmapM _ _ = _ |- _ => apply rmapM_Ok in H; rename H into Hall end.
    clear -Hutf Hcols Hall. induction Hall as [|ast c asts cs Hc _ IH]; [constructor|].
    apply Forall_cons in Hcols as [Hast Hcols]. constructor; [|by apply IH].
    by eapply columnFromDefinition_encodable.
  - inv_ok. cbn in He. inv_ok. destruct Hs as [Hname Hvals].
    destruct (ident_ok_name _ Hname) as (? & ? & ?). cbn. split; [done|]. split; [done|].
    eapply Forall_impl; [exact Hvals|]. intros row Hrow. by eapply Forall_impl.
  - apply buildSelect_query in Hp; [|done]. pose proof (Build_query _ _ Hp He) as Hq. by destruct e.
  - inv_ok. unfold buildUpdate, buildDelete in He. cbn [Executor.Build] in He. rewrite Build_table_source in He. cbn in He. inv_ok.
    destruct Hs as [Hname Hvals]. cbn. split; [by apply ident_ok_name|]. split; [|by eexists].
    eapply map_Forall_impl; [exact Hvals|]. auto.
  - inv_ok. unfold buildUpdate, buildDelete in He. cbn [Executor.Build] in He. rewrite Build_table_source in He. cbn in He. inv_ok.
    cbn. split; [by apply ident_ok_name|]. by eexists.
Qed.

(** what a statement of valid UTF-8 text gives the session *)
Lemma prepared_ok input s node e :
  valid_utf8 input = true → Parse input = Ok s → Planner.Build s = Ok node →
  Executor.Build node = Ok e → executor_ok e.
Proof. intros Hutf [_ Hs]%Parse_well_formed. by apply (Build_grammatical input). Qed.
