(* ===== verification/Kv.v ===== *)
(** * SQL transactions on the MVCC store ([engine/kv.go]) *)

From S2P Require Import Prelude Bytes Engine MvccKey Mvcc Types Schema Transaction Keys Json.

Definition ErrTableExists : error := Errorf "engine: table already exists".
Definition ErrInvalidTable : error := Errorf "engine: invalid table".

(** one iteration of the loop of [validateRow] *)
Definition validate_value (_ : unit) (p : Schema.Column * Value) : result unit :=
  let '(column, value) := p in
  if decide (Kind value = ValueNull) then
    if Nullable column then Ok () else Err (Errorf "engine: column %q cannot be NULL")
  else
    match Value_DataType value with
    | None => Err (Errorf "engine: invalid value kind %d for column %q")
    | Some actualType =>
        if decide (actualType ≠ ColDataType column)
        then Err (Errorf "engine: column %q type mismatch: want %d, got %d") else Ok ()
    end.

Definition validateRow (table : Table) (row : Row) : result unit :=
  if decide (length row ≠ length (Columns table))
  then Err (Errorf "engine: row length mismatch: got %d, columns %d")
  else rfoldl validate_value () (zip (Columns table) row).

(** the methods of [storage.MVCCTransaction], on a transaction of type [X]
    together with the store it points to *)
Class MVCCTransaction (X : Type) := {
  kvGet : bytes → ST X slice;
  kvScanPrefix : bytes → ST X (list Entry);
  kvSet : bytes → bytes → ST X unit;
  kvDelete : bytes → ST X unit;
  kvCommit : ST X unit;
  kvRollback : ST X unit;
}.

(** the transaction of the MVCC layer on an engine *)
Record KVTransaction (E : Type) := mkKVTransaction { kv_engine : E; kv_txn : transactionState }.
Arguments mkKVTransaction {E} kv_engine kv_txn.
Arguments kv_engine {E} k.
Arguments kv_txn {E} k.

Section mvcc.
Context {E : Type} `{!Engine E}.
Abbreviation KVT := (KVTransaction E).

(** an operation of the MVCC transaction *)
Definition on_txn {A} (m : transactionState → ST E A) : ST KVT A := λ t,
  let '(e, r) := m (kv_txn t) (kv_engine t) in (mkKVTransaction e (kv_txn t), r).

#[export] Instance mvcc_transaction : MVCCTransaction KVT := {
  kvGet key := sread (λ t, Mvcc.Get (kv_txn t) key (kv_engine t));
  kvScanPrefix prefix := sread (λ t, Mvcc.ScanPrefix (kv_txn t) prefix (kv_engine t));
  kvSet key value := on_txn (λ t, Mvcc.Set_ t key value);
  kvDelete key := on_txn (λ t, Mvcc.Delete t key);
  kvCommit := on_txn Mvcc.Commit;
  kvRollback := on_txn Mvcc.Rollback;
}.

Definition kvBegin : E → E * result KVT := λ e,
  match Mvcc.Begin e with
  | (e, Ok t) => (e, Ok (mkKVTransaction e t))
  | (e, Err err) => (e, Err err)
  | (e, Panic p) => (e, Panic p)
  end.

(** [KVEngine.Begin] *)
#[export] Instance kv_sql_engine : SQLEngine E KVT := {
  dbBegin := kvBegin;
  txnDB := kv_engine;
}.

End mvcc.

Section kv.
Context {X : Type} `{!MVCCTransaction X} `{!Json}.

Definition GetTable (tableName : bytes) : ST X (option Table) :=
  let! key := slift (tableKey tableName) in
  let! encoded := kvGet key in
  match encoded with
  | None => sret None
  | Some encoded =>
      let! table := slift (rwrap "engine: decoding table %q: %w" (unmarshal_table encoded)) in
      sret (Some table)
  end.

Definition CreateRow (tableName : bytes) (row : Row) : ST X unit :=
  let! table := swrap "engine: loading table %q: %w" (GetTable tableName) in
  match table with
  | None => sthrow (Errorf "engine: table %q does not exist")
  | Some table =>
      slift (validateRow table row) ;;!
      let! primaryKey := slift (PrimaryKeyValue table row) in
      let! key := slift (rowKey tableName primaryKey) in
      let! existing := swrap "engine: checking primary key for table %q: %w" (kvGet key) in
      match existing with
      | Some _ => sthrow (Errorf "engine: duplicate primary key in table %q")
      | None =>
          let! encoded := slift (rwrap "engine: encoding row for table %q: %w" (marshal_row row)) in
          kvSet key encoded
      end
  end.

(** the values are compared as structs *)
Definition UpdateRow (table : Table) (oldPrimaryKey : Value) (row : Row) : ST X unit :=
  slift (validateRow table row) ;;!
  let! newPrimaryKey := slift (PrimaryKeyValue table row) in
  let! newKey := slift (rowKey (tbl_Name table) newPrimaryKey) in
  (if negb (value_eqb oldPrimaryKey newPrimaryKey) then
     let! oldKey := slift (rowKey (tbl_Name table) oldPrimaryKey) in
     let! existing := swrap "engine: checking updated primary key: %w" (kvGet newKey) in
     match existing with
     | Some _ => sthrow (Errorf "engine: duplicate primary key in table %q")
     | None => swrap "engine: deleting old row key: %w" (kvDelete oldKey)
     end
   else sret ()) ;;!
  let! encoded := slift (rwrap "engine: encoding updated row for table %q: %w" (marshal_row row)) in
  kvSet newKey encoded.

Definition DeleteRow (table : Table) (primaryKey : Value) : ST X unit :=
  let! key := slift (rowKey (tbl_Name table) primaryKey) in
  swrap "engine: deleting row from table %q: %w" (kvDelete key).

Definition decode_entry (table : Table) (e : Entry) : result Row :=
  let? row := rwrap "engine: decoding row %d from table %q: %w" (unmarshal_row (sbytes (Engine.Value e))) in
  if decide (length row ≠ length (Columns table))
  then Err (Errorf "engine: stored row %d has %d values, want %d") else Ok row.

Definition ScanTable (table : Table) : ST X (list Row) :=
  let! prefix := slift (rowPrefixKey (tbl_Name table)) in
  let! entries := swrap "engine: scanning rows for table %q: %w" (kvScanPrefix prefix) in
  slift (rmapM (decode_entry table) entries).

Definition CreateTable (table : Table) : ST X unit :=
  match Validate table with
  | Err _ => sthrow (Wrapf "%w: %v" ErrInvalidTable)
  | Panic p => slift (Panic p)
  | Ok _ =>
      let! existing := GetTable (tbl_Name table) in
      match existing with
      | Some _ => sthrow (Wrapf "%w: %s" ErrTableExists)
      | None =>
          let! key := slift (tableKey (tbl_Name table)) in
          let! encoded := slift (rwrap "engine: encoding table %q: %w" (marshal_table table)) in
          kvSet key encoded
      end
  end.

#[export] Instance kv_transaction : Transaction X := {
  txnCommit := kvCommit;
  txnRollback := kvRollback;
  txnCreateRow := CreateRow;
  txnUpdateRow := UpdateRow;
  txnDeleteRow := DeleteRow;
  txnScanTable := ScanTable;
  txnCreateTable := CreateTable;
  txnGetTable := GetTable;
}.

End kv.
