(* ===== verification/KvRefine.v ===== *)
(** * A store of byte strings keeps the promise of [Relation.v]

    [KvLaws] is what [engine/kv.go] needs of the transactions below it: each
    sees a map of byte strings.  The tables and rows it encodes there behave
    as the abstract database. *)

From stdpp Require Import fin_map_dom.
From S2P Require Import Prelude Bytes Engine MvccKey Mvcc.
From S2P Require Import Types Schema Transaction Keys Json Relation Kv.

(** [stored n D m]: [m] is what is committed in [D].  [views n db x m]: the
    transaction [x], begun on [db], sees [m].  [doomed n db x]: an operation of
    [x] failed. *)
Class KvLaws (D X : Type) `{!MVCCTransaction X} `{!SQLEngine D X} := {
  stored : regime → D → gmap bytes bytes → Prop;
  views : regime → gmap bytes bytes → X → gmap bytes bytes → Prop;
  doomed : regime → gmap bytes bytes → X → Prop;
  views_doomed n db x m : views n db x m → doomed n db x;
  stored_weaken n D m : stored (more n) D m → stored n D m;
  kv_begin_ok n D db :
    stored (more n) D db →
    match dbBegin D with
    | (_, Ok x) => views n db x db
    | (D', Err _) => stored n D' db ∧ ¬ calm n
    | (_, Panic _) => False
    end;
  kv_get_ok n db x m k :
    views n db x m → reads (calm n) (λ x, views n db x m) (doomed n db) (kvGet k x) (Ok (m !! k));
  kv_scan_ok n db x m prefix :
    views n db x m →
    ∃ es, map entry_pair es = prefixed prefix m ∧
      reads (calm n) (λ x, views n db x m) (doomed n db) (kvScanPrefix prefix x) (Ok es);
  kv_set_ok n db x m k b :
    views n db x m →
    match kvSet k b x with
    | (x', Ok _) => views n db x' (<[k := b]> m)
    | (x', Err _) => doomed n db x' ∧ ¬ calm n
    | (_, Panic _) => False
    end;
  kv_delete_ok n db x m k :
    views n db x m →
    match kvDelete k x with
    | (x', Ok _) => views n db x' (delete k m)
    | (x', Err _) => doomed n db x' ∧ ¬ calm n
    | (_, Panic _) => False
    end;
  kv_commit_ok n db x m : views n db x m → ended (calm n) (λ x, stored n (txnDB x)) (kvCommit x) m db;
  kv_rollback_ok n db x : doomed n db x → ended (calm n) (λ x, stored n (txnDB x)) (kvRollback x) db db;
}.

Section kv.
Context {D X : Type} `{KvLaws D X} `{!Json} `{!JsonLaws}.
Implicit Types (x : X) (m db : gmap bytes bytes) (d : reldb).

(** ** The encoding of the database *)

Record encodes m d : Prop := {
  enc_table name :
    option_Forall2 (λ b r, unmarshal_table b = Ok (rel_schema r)) (m !! (x01 :: name)) (d !! name);
  enc_row name k :
    name_ok name →
    option_Forall2 (λ b row, unmarshal_row b = Ok row)
      (m !! (row_prefix name ++ k)) (d !! name ≫= λ r, rel_rows r !! k);
}.

Lemma encodes_empty : encodes ∅ ∅.
Proof. split; intros; rewrite !lookup_empty; constructor. Qed.

Lemma get_table_spec n db x m d name :
  views n db x m → encodes m d → name ≠ [] →
  reads (calm n) (λ x, views n db x m) (doomed n db) (GetTable name x) (Ok (rel_schema <$> d !! name)).
Proof.
  intros Hx He Hname. unfold GetTable. rewrite tableKey_ok by done. unfold sbind at 1, slift at 1.
  pose proof (kv_get_ok n db x m (x01 :: name) Hx) as Hg.
  eapply (reads_bind _ _ _ _ _ (λ _, Ok (rel_schema <$> d !! name))) in Hg; [exact Hg|].
  intros x' o [= <-] Hx'. destruct (enc_table _ _ He name) as [b r Hb|]; [|by left].
  left. unfold sbind, slift. by rewrite Hb.
Qed.

(** a change of one row *)
Lemma encodes_rows m m' d name t rows rows' k :
  encodes m d → d !! name = Some (mkRelation t rows) → name_ok name →
  (∀ j, j ≠ row_prefix name ++ k → m' !! j = m !! j) →
  (∀ j, j ≠ k → rows' !! j = rows !! j) →
  option_Forall2 (λ b row, unmarshal_row b = Ok row) (m' !! (row_prefix name ++ k)) (rows' !! k) →
  encodes m' (set_rows name t rows' d).
Proof.
  intros He Hd Hname Hm Hrows Hk. unfold set_rows. split.
  - intros name'. rewrite Hm by (unfold row_prefix; done). rewrite lookup_insert.
    pose proof (enc_table _ _ He name') as Ht. case_decide as Heq; [|done].
    subst name'. rewrite Hd in Ht. inversion Ht; subst. by constructor.
  - intros name' j Hname'. rewrite lookup_insert. case_decide as Heq.
    + subst name'. cbn. destruct (decide (j = k)) as [->|Hne]; [done|].
      rewrite Hm, Hrows by (try done; intros [_ ->]%row_prefix_inj; done).
      pose proof (enc_row _ _ He name j Hname) as Hr. by rewrite Hd in Hr.
    + rewrite Hm by (intros [-> _]%row_prefix_inj; done). by apply He.
Qed.

Lemma encodes_new_table m d b t :
  encodes m d → d !! tbl_Name t = None → unmarshal_table b = Ok t →
  encodes (<[x01 :: tbl_Name t := b]> m) (set_rows (tbl_Name t) t ∅ d).
Proof.
  intros He Hd Hb. unfold set_rows. split.
  - intros name. destruct (decide (tbl_Name t = name)) as [<-|Hne].
    + rewrite !lookup_insert_eq. by constructor.
    + rewrite !lookup_insert_ne by congruence. apply He.
  - intros name k Hname. rewrite lookup_insert_ne by (unfold row_prefix; done). rewrite lookup_insert.
    pose proof (enc_row _ _ He name k Hname) as Hr. case_decide as Heq; [|done].
    subst name. rewrite Hd in Hr. cbn in *. rewrite lookup_empty. done.
Qed.

(** ** Rows *)

Lemma validate_value_spec c v u :
  validate_value () (c, v) = Ok u ↔ value_fits c v.
Proof.
  destruct u. unfold validate_value, value_fits. case_decide as Hk.
  - assert (Value_DataType v = None) as Hv by by unfold Value_DataType; rewrite Hk.
    rewrite Hv. destruct (Nullable c); naive_solver.
  - destruct (Value_DataType v) as [ty|]; [case_decide|]; naive_solver.
Qed.

Lemma validateRow_spec t row : validateRow t row = Ok () ↔ row_ok t row.
Proof.
  unfold validateRow, row_ok. case_decide as Hl.
  { split; [done|]. intros H'%Forall2_length. congruence. }
  revert row Hl.
  induction (Columns t) as [|c cs IH]; intros [|v row] Hl; try done; cbn.
  rewrite rbind_Ok. setoid_rewrite validate_value_spec. rewrite Forall2_cons, <-IH by (cbn in Hl; lia).
  split; [by intros ([] & ? & ?)|]. intros [? ?]. by exists ().
Qed.

Lemma validateRow_no_panic t row : no_panic (validateRow t row).
Proof.
  unfold validateRow. case_decide; [done|]. generalize (zip (Columns t) row).
  induction l as [|[c v] l IH]; cbn; [done|]. apply no_panic_bind; [|by intros []].
  unfold validate_value. repeat case_decide; repeat case_match; done.
Qed.

Lemma validateRow_cases t row :
  (validateRow t row = Ok () ∧ row_ok t row) ∨ (∃ e, validateRow t row = Err e) ∧ ¬ row_ok t row.
Proof.
  pose proof (validateRow_no_panic t row). rewrite <-validateRow_spec.
  destruct (validateRow t row) as [[]|e|]; [by left|right; split; [by eexists|done]|done].
Qed.

(** the rows of a relation as records of the store *)
Lemma scan_prefix_rows m d name r :
  encodes m d → db_wf d → d !! name = Some r →
  ∃ f, prefixed (row_prefix name) m =
         map (λ p, (row_prefix name ++ p.1, f p.1)) (sorted_entries (rel_rows r)) ∧
       ∀ k row, rel_rows r !! k = Some row → unmarshal_row (f k) = Ok row.
Proof.
  intros He Hwf Hd. pose proof (wf_name _ _ (Hwf _ _ Hd)) as Hname.
  exists (λ k, default [] (m !! (row_prefix name ++ k))).
  assert (∀ k, option_Forall2 (λ b row, unmarshal_row b = Ok row)
    (m !! (row_prefix name ++ k)) (rel_rows r !! k)) as Hrow.
  { intros k. pose proof (enc_row _ _ He name k Hname) as Hr. by rewrite Hd in Hr. }
  split; [|intros k row Hk; specialize (Hrow k); rewrite Hk in Hrow;
    destruct (m !! _) as [b|]; by inversion Hrow].
  apply (sorted_ext key_lt); [apply prefixed_sorted| |].
  - eapply (StronglySorted_fmap _ key_lt); [|apply sorted_entries_sorted].
    intros p q Hpq. unfold key_lt in *. cbn. by apply blt_app_l.
  - intros [j b]. rewrite elem_of_prefixed.
    change (map ?g ?l) with (g <$> l). rewrite list_elem_of_fmap. split.
    + intros [Hj [k ->]]. specialize (Hrow k). rewrite Hj in Hrow.
      destruct (rel_rows r !! k) as [row|] eqn:Hk; [|by inversion Hrow].
      exists (k, row). cbn [fst]. rewrite Hj. split; [done|]. by apply elem_of_sorted_entries.
    + intros ([k row] & [-> ->]%pair_equal_spec & Hk%elem_of_sorted_entries). specialize (Hrow k). cbn [fst].
      rewrite Hk in Hrow. destruct (m !! (row_prefix name ++ k)) as [b|] eqn:Hj; [|by inversion Hrow].
      split; [done|]. by eexists.
Qed.

Lemma scan_table_spec n db x m d t r :
  views n db x m → encodes m d → db_wf d → d !! tbl_Name t = Some r → rel_schema r = t →
  reads (calm n) (λ x, views n db x m) (doomed n db) (ScanTable t x) (Ok (relation_rows r)).
Proof.
  intros Hx He Hwf Hd Ht. pose proof (Hwf _ _ Hd) as Hr.
  assert (tbl_Name t ≠ []) as Hname by (rewrite <-Ht; apply (wf_table _ _ Hr)).
  unfold ScanTable. rewrite rowPrefixKey_ok by done. unfold sbind at 1, slift at 1.
  destruct (kv_scan_ok n db x m (row_prefix (tbl_Name t)) Hx) as (es & Hes & Hscan).
  apply (reads_wrap _ _ _ "engine: scanning rows for table %q: %w") in Hscan.
  eapply (reads_bind _ _ _ _ _ (λ _, Ok (relation_rows r))) in Hscan; [exact Hscan|]. clear Hscan.
  intros x' es' [= <-] Hx'. left. split; [|done]. unfold slift. cbn [snd].
  destruct (scan_prefix_rows m d _ r He Hwf Hd) as (f & Hf & Hrows). rewrite Hf in Hes.
  apply rmapM_Ok. unfold relation_rows. clear Hf.
  assert (∀ k row, (k, row) ∈ sorted_entries (rel_rows r) → rel_rows r !! k = Some row) as Hin
    by (intros; by apply elem_of_sorted_entries).
  revert es Hes Hin. induction (sorted_entries (rel_rows r)) as [|[k row] l IH];
    intros [|en es] Hes Hin; try done; cbn.
  injection Hes as Hk Hv Hes. constructor; [|apply IH; [done|set_solver]].
  assert (rel_rows r !! k = Some row) as Hrow by (apply Hin; set_solver).
  unfold decode_entry. rewrite Hv, (Hrows k row Hrow). cbn.
  destruct (wf_rows _ _ Hr _ _ Hrow) as (Hok & _). rewrite Ht in Hok.
  rewrite decide_False; [done|]. apply row_ok_length in Hok. tauto.
Qed.

(** ** The operations *)

Definition kv_stores (n : regime) (D0 : D) (d : reldb) : Prop :=
  ∃ db, stored n D0 db ∧ encodes db d ∧ db_wf d.

Definition kv_sees (n : regime) (d0 : reldb) x (d : reldb) : Prop :=
  ∃ db m, views n db x m ∧ encodes db d0 ∧ db_wf d0 ∧ encodes m d ∧ db_wf d.

Definition kv_alive (n : regime) (d0 : reldb) x : Prop :=
  ∃ db, doomed n db x ∧ encodes db d0 ∧ db_wf d0.

Lemma kv_sees_alive n d0 x d : kv_sees n d0 x d → kv_alive n d0 x.
Proof. intros (db & m & Hx%views_doomed & ? & ? & _). by exists db. Qed.

Lemma set_does n db d0 x m k b d :
  views n db x m → encodes db d0 → db_wf d0 → encodes (<[k := b]> m) d → db_wf d →
  does (calm n) (kv_sees n d0) (kv_alive n d0) (kvSet k b x) (Some d).
Proof.
  intros Hx He0 Hw0 He Hw. pose proof (kv_set_ok _ _ _ _ k b Hx) as Hs.
  destruct (kvSet k b x) as [x' [u|e|w]]; cbn; [| |done].
  2:{ destruct Hs as [? ?]. split; [by exists db|done]. }
  exists d. split; [done|]. by exists db, (<[k := b]> m).
Qed.

Lemma delete_does n db d0 x m k d :
  views n db x m → encodes db d0 → db_wf d0 → encodes (delete k m) d → db_wf d →
  does (calm n) (kv_sees n d0) (kv_alive n d0) (kvDelete k x) (Some d).
Proof.
  intros Hx He0 Hw0 He Hw. pose proof (kv_delete_ok _ _ _ _ k Hx) as Hs.
  destruct (kvDelete k x) as [x' [u|e|w]]; cbn; [| |done].
  2:{ destruct Hs as [? ?]. split; [by exists db|done]. }
  exists d. split; [done|]. by exists db, (delete k m).
Qed.

(** a read before a change *)
Lemma does_read {A} (m : ST X A) f x n db d0 v spec (a : A) :
  reads (calm n) (λ x, views n db x v) (doomed n db) (m x) (Ok a) → encodes db d0 → db_wf d0 →
  (∀ x', views n db x' v → does (calm n) (kv_sees n d0) (kv_alive n d0) (f a x') spec) →
  does (calm n) (kv_sees n d0) (kv_alive n d0) (sbind m f x) spec.
Proof.
  intros [[Hr Hx]|(err & Hr & Ha & Hc)] He Hw Hf; unfold sbind; destruct (m x) as [x' r]; cbn [fst snd] in *; subst r;
    [by apply Hf|]. split; [by exists db|done].
Qed.

Lemma does_read_wrap {A} msg (m : ST X A) f x n db d0 v spec (a : A) :
  reads (calm n) (λ x, views n db x v) (doomed n db) (m x) (Ok a) → encodes db d0 → db_wf d0 →
  (∀ x', views n db x' v → does (calm n) (kv_sees n d0) (kv_alive n d0) (f a x') spec) →
  does (calm n) (kv_sees n d0) (kv_alive n d0) (sbind (swrap msg m) f x) spec.
Proof. intros Hr%(reads_wrap _ _ _ msg). by apply does_read. Qed.

Lemma does_wrap msg calm' sees' alive' (out : X * result unit) spec :
  does calm' sees' alive' out spec → does calm' sees' alive' (out.1, rwrap msg out.2) spec.
Proof. by destruct out as [x []]. Qed.

Lemma encodes_put m d name t rows k b row :
  encodes m d → d !! name = Some (mkRelation t rows) → name_ok name →
  unmarshal_row b = Ok row →
  encodes (<[row_prefix name ++ k := b]> m) (set_rows name t (<[k := row]> rows) d).
Proof.
  intros He Hd Hname Hb. eapply (encodes_rows m _ d name t rows _ k); try done.
  - intros j Hj. by rewrite lookup_insert_ne.
  - intros j Hj. by rewrite lookup_insert_ne.
  - rewrite !lookup_insert_eq. by constructor.
Qed.

Lemma encodes_delete m d name t rows k :
  encodes m d → d !! name = Some (mkRelation t rows) → name_ok name →
  encodes (delete (row_prefix name ++ k) m) (set_rows name t (delete k rows) d).
Proof.
  intros He Hd Hname. eapply (encodes_rows m _ d name t rows _ k); try done.
  - intros j Hj. by rewrite lookup_delete_ne.
  - intros j Hj. by rewrite lookup_delete_ne.
  - rewrite !lookup_delete_eq. constructor.
Qed.

Lemma db_wf_set d name t rows rows' :
  db_wf d → d !! name = Some (mkRelation t rows) →
  map_Forall (stored_ok t) rows' → db_wf (set_rows name t rows' d).
Proof.
  intros Hwf Hd Hrows. apply map_Forall_insert_2; [|done].
  destruct (Hwf _ _ Hd). by split.
Qed.

Lemma db_wf_rows d name t rows :
  db_wf d → d !! name = Some (mkRelation t rows) → map_Forall (stored_ok t) rows.
Proof. intros Hwf Hd. apply (wf_rows _ _ (Hwf _ _ Hd)). Qed.

Lemma table_name_nonempty d name t rows :
  db_wf d → d !! name = Some (mkRelation t rows) → name ≠ [] ∧ table_ok t ∧ tbl_Name t = name.
Proof. intros Hwf Hd. destruct (Hwf _ _ Hd) as [Ht <- _ _ _]. by split; [apply Ht|]. Qed.

Lemma row_key_ok t row name :
  table_ok t → row_ok t row → row_encodable row → name ≠ [] →
  rowKey name (row_primary t row) = Ok (row_prefix name ++ row_pk t row).
Proof.
  intros Ht Hr He Hn. apply rowKey_ok; [done|].
  by destruct (row_primary_encodable t row Ht Hr He) as [? _].
Qed.

Lemma row_at m d name t rows row :
  encodes m d → d !! name = Some (mkRelation t rows) → name_ok name →
  m !! (row_prefix name ++ row_pk t row) = None ↔ rows !! row_pk t row = None.
Proof.
  intros He Hd Hname. pose proof (enc_row _ _ He name (row_pk t row) Hname) as Hr. rewrite Hd in Hr.
  cbn [mbind option_bind rel_rows] in Hr. split; intros Hnone; rewrite Hnone in Hr; inversion Hr; done.
Qed.

Lemma create_row_does n d0 x d name row :
  kv_sees n d0 x d → name_ok name → row_encodable row →
  does (calm n) (kv_sees n d0) (kv_alive n d0) (CreateRow name row x) (create_row_spec name row d).
Proof.
  intros (db & m & Hx & He0 & Hw0 & He & Hw) Hname Hrow.
  assert (∀ x, views n db x m → kv_alive n d0 x) as Halive by (intros ? ?%views_doomed; by exists db).
  unfold CreateRow, create_row_spec. destruct (decide (name = [])) as [->|Hne].
  { unfold sbind, swrap, GetTable. cbn. split; [by apply Halive|]. intros _.
    destruct (d !! []) as [[t rows]|] eqn:Hd; [|done].
    by destruct (table_name_nonempty _ _ _ _ Hw Hd) as [? _]. }
  eapply does_read_wrap; [by apply get_table_spec|done|done|]. clear x Hx. intros x Hx.
  destruct (d !! name) as [[t rows]|] eqn:Hd; [|by split; [apply Halive|]].
  cbn [fmap option_fmap option_map rel_schema].
  destruct (table_name_nonempty _ _ _ _ Hw Hd) as (_ & Ht & _).
  unfold sbind at 1, slift at 1.
  destruct (validateRow_cases t row) as [[-> Hok]|[[err ->] Hbad]];
    [|split; [by apply Halive|]; intros _; by rewrite decide_False].
  unfold sbind at 1, slift at 1. rewrite (proj1 (row_primary_ok t row Ht Hok)).
  unfold sbind at 1, slift at 1. rewrite row_key_ok by done. rewrite decide_True by done.
  pose proof (row_at m d name t rows row He Hd Hname) as Hat.
  eapply does_read_wrap; [by apply kv_get_ok|done|done|]. clear x Hx. intros x Hx.
  destruct (m !! _) as [b|] eqn:Hm;
    [split; [by apply Halive|]; intros _; by destruct (rows !! _) eqn:E'; [|apply proj2 in Hat; discriminate Hat]|].
  rewrite (proj1 Hat eq_refl).
  unfold sbind at 1, slift. destruct (unmarshal_marshal_row row Hrow) as (b & -> & Hb). cbn [rwrap].
  apply (set_does n db d0 x m); try done.
  - by apply encodes_put.
  - eapply db_wf_set; [done..|]. apply map_Forall_insert_2; [|by eapply db_wf_rows]. done.
Qed.

Lemma create_table_does n d0 x d t :
  kv_sees n d0 x d → name_ok (tbl_Name t) → table_encodable t →
  does (calm n) (kv_sees n d0) (kv_alive n d0) (CreateTable t x) (create_table_spec t d).
Proof.
  intros (db & m & Hx & He0 & Hw0 & He & Hw) Hname Henc.
  assert (∀ x, views n db x m → kv_alive n d0 x) as Halive by (intros ? ?%views_doomed; by exists db).
  unfold CreateTable, create_table_spec.
  destruct (Validate t) as [[]|err|w] eqn:Hv; [|split; [by apply Halive|]; intros _; by rewrite decide_False|].
  - pose proof (proj1 (Validate_spec t) Hv) as Ht. rewrite decide_True by done.
    assert (tbl_Name t ≠ []) as Hne by apply Ht.
    eapply does_read; [by apply get_table_spec|done|done|]. clear x Hx. intros x Hx.
    destruct (d !! tbl_Name t) as [r|] eqn:Hd; [by split; [apply Halive|]|]. cbn [fmap option_fmap option_map].
    unfold sbind at 1, slift at 1. rewrite tableKey_ok by done.
    unfold sbind at 1, slift. destruct (unmarshal_marshal_table t Henc) as (b & -> & Hb). cbn [rwrap].
    apply (set_does n db d0 x m); try done.
    + by apply encodes_new_table.
    + apply map_Forall_insert_2; [|done]. by split.
  - exfalso. by pose proof (Validate_no_panic t) as Hn; rewrite Hv in Hn.
Qed.

Lemma delete_row_does n d0 x d t row :
  kv_sees n d0 x d → rel_schema <$> d !! tbl_Name t = Some t →
  row_ok t row → row_encodable row →
  does (calm n) (kv_sees n d0) (kv_alive n d0) (DeleteRow t (row_primary t row) x)
    (delete_row_spec (tbl_Name t) row d).
Proof.
  intros (db & m & Hx & He0 & Hw0 & He & Hw) Hd Hok Hrow.
  apply fmap_Some in Hd as ([t' rows] & Hd & Ht'). cbn in Ht'. subst t'.
  destruct (table_name_nonempty _ _ _ _ Hw Hd) as (Hne & Ht & _).
  pose proof (wf_name _ _ (Hw _ _ Hd)) as Hname.
  unfold DeleteRow, delete_row_spec. rewrite Hd.
  unfold sbind, slift. rewrite row_key_ok by done.
  assert (does (calm n) (kv_sees n d0) (kv_alive n d0) (kvDelete (row_prefix (tbl_Name t) ++ row_pk t row) x)
    (Some (set_rows (tbl_Name t) t (delete (row_pk t row) rows) d))) as Hdo.
  { apply (delete_does n db d0 x m); try done; [by apply encodes_delete|].
    eapply db_wf_set; [done..|]. apply map_Forall_delete. by eapply db_wf_rows. }
  apply (does_wrap "engine: deleting row from table %q: %w") in Hdo. unfold swrap.
  by destruct (kvDelete _ x).
Qed.

Lemma set_rows_twice name t rows rows' d :
  set_rows name t rows' (set_rows name t rows d) = set_rows name t rows' d.
Proof. unfold set_rows. by rewrite insert_insert_eq. Qed.

Lemma update_row_does n d0 x d t old row :
  kv_sees n d0 x d → rel_schema <$> d !! tbl_Name t = Some t →
  row_ok t old → row_encodable old → row_encodable row →
  does (calm n) (kv_sees n d0) (kv_alive n d0) (UpdateRow t (row_primary t old) row x)
    (update_row_spec (tbl_Name t) old row d).
Proof.
  intros (db & m & Hx & He0 & Hw0 & He & Hw) Hd Hold Heold Hrow.
  assert (∀ x, views n db x m → kv_alive n d0 x) as Halive by (intros ? ?%views_doomed; by exists db).
  apply fmap_Some in Hd as ([t' rows] & Hd & Ht'). cbn in Ht'. subst t'.
  destruct (table_name_nonempty _ _ _ _ Hw Hd) as (Hne & Ht & _).
  pose proof (wf_name _ _ (Hw _ _ Hd)) as Hname.
  pose proof (db_wf_rows _ _ _ _ Hw Hd) as Hrows.
  unfold UpdateRow, update_row_spec. rewrite Hd. unfold sbind at 1, slift at 1.
  destruct (validateRow_cases t row) as [[-> Hok]|[[err ->] Hbad]];
    [|split; [by apply Halive|]; intros _; by rewrite decide_False].
  rewrite decide_True by done.
  unfold sbind at 1, slift at 1. rewrite (proj1 (row_primary_ok t row Ht Hok)).
  unfold sbind at 1, slift at 1. rewrite row_key_ok by done.
  destruct (unmarshal_marshal_row row Hrow) as (b & Hb & Hub). rewrite Hb.
  destruct (value_eqb _ _) eqn:Heq; cbn [negb].
  - unfold sbind, sret, slift. cbn [rwrap]. apply (set_does n db d0 x m); try done.
    + by apply encodes_put.
    + eapply db_wf_set; [done..|]. by apply map_Forall_insert_2.
  - pose proof (row_at m d (tbl_Name t) t rows row He Hd Hname) as Hat.
    rewrite sbind_assoc. unfold sbind at 1, slift at 1. rewrite row_key_ok by done. rewrite sbind_assoc.
    eapply does_read_wrap; [by apply kv_get_ok|done|done|]. clear x Hx. intros x Hx.
    destruct (m !! _) as [b'|] eqn:Hm;
      [split; [by apply Halive|]; intros _; by destruct (rows !! _) eqn:E'; [|apply proj2 in Hat; discriminate Hat]|].
    rewrite (proj1 Hat eq_refl).
    pose proof (kv_delete_ok _ _ _ _ (row_prefix (tbl_Name t) ++ row_pk t old) Hx) as Hdel.
    unfold sbind at 1, swrap at 1. destruct (kvDelete _ x) as [x' [[]|e|w]]; cbn [rwrap]; [| |done].
    2:{ destruct Hdel as [? ?]. split; [by exists db|done]. }
    unfold sbind, slift. cbn [rwrap].
    rewrite <-(set_rows_twice _ _ (delete (row_pk t old) rows)).
    apply (set_does n db d0 x' (delete (row_prefix (tbl_Name t) ++ row_pk t old) m)); try done.
    + eapply encodes_put; [by apply encodes_delete|apply lookup_insert_eq|done|done].
    + rewrite set_rows_twice. eapply db_wf_set; [done..|].
      apply map_Forall_insert_2; [done|]. by apply map_Forall_delete.
Qed.

#[export] Program Instance kv_relational : Relational D X := {
  holds := kv_stores;
  sees := kv_sees;
  alive := kv_alive;
}.
Next Obligation. by intros n d0 x d (db & m & _ & _ & _ & _ & ?). Qed.
Next Obligation. apply kv_sees_alive. Qed.
Next Obligation. intros n D0 d (db & Hh%stored_weaken & ? & ?). by exists db. Qed.
Next Obligation.
  intros n D0 d (db & Hh & He & Hw). pose proof (kv_begin_ok _ _ _ Hh) as Hb.
  destruct (dbBegin D0) as [D' [x|err|p]]; [by exists db, db| |done]. destruct Hb as [? ?]. split; [by exists db|done].
Qed.
Next Obligation.
  intros n d0 x d (db & m & Hx & He0 & Hw0 & He & Hw). pose proof (kv_commit_ok _ _ _ _ Hx) as Hc.
  unfold ended in *. change (txnCommit x) with (kvCommit x).
  destruct (kvCommit x) as [x' [u|err|p]]; [by exists m| |done]. destruct Hc as [? ?]. split; [by exists db|done].
Qed.
Next Obligation.
  intros n d0 x (db & Hx & He & Hw). pose proof (kv_rollback_ok _ _ _ Hx) as Hc.
  unfold ended in *. change (txnRollback x) with (kvRollback x).
  destruct (kvRollback x) as [x' [u|err|p]]; [by exists db| |done]. destruct Hc as [? ?]. split; [by exists db|done].
Qed.
Next Obligation.
  intros n d0 x d name (db & m & Hx & He0 & Hw0 & He & Hw) Hn.
  eapply reads_mono; [by eapply get_table_spec|..]; [intros x' Hx'; by exists db, m|intros x' Hx'; by exists db].
Qed.
Next Obligation.
  intros n d0 x d t r (db & m & Hx & He0 & Hw0 & He & Hw) Hd Ht.
  eapply reads_mono; [by eapply scan_table_spec|..]; [intros x' Hx'; by exists db, m|intros x' Hx'; by exists db].
Qed.
Next Obligation. intros n d0 x d t. apply create_table_does. Qed.
Next Obligation. intros n d0 x d name row. apply create_row_does. Qed.
Next Obligation. intros n d0 x d t old row Hs Hd Ho He Hr _. by apply update_row_does. Qed.
Next Obligation. intros n d0 x d t row. apply delete_row_does. Qed.

End kv.
