(* ===== verification/KvMvcc.v ===== *)
(** * The MVCC store behind the SQL engine

    The transactions of [Mvcc.v] on a lawful engine are a store of byte strings
    as [KvRefine.v] needs it, and what a database holds is a matter of the
    contents of its engine. *)

From stdpp Require Import fin_map_dom.
From S2P Require Import Prelude Bytes Engine MvccKey Mvcc MvccSpec MvccRefine MvccOps MvccReads.
From S2P Require Import Types Schema Transaction Keys Json Relation Kv KvRefine.

Section kv.
Context {E : Type} `{EngineLaws E}.
Implicit Types (x : KVTransaction E) (m db : gmap bytes bytes) (d : reldb).

(** no version is hidden from the transaction *)
Definition alone (s : mstate) (t : transactionState) : Prop :=
  active s = {[ts_version t]} ∧ activeVersions t = ∅ ∧ next s = ts_version t + 1.

Definition boundless : Prop := ∀ k v, fits k v.

(** the transaction, begun on the committed map [db], sees [m] *)
Definition kv_inv (n : regime) db x m : Prop :=
  ∃ s, Rep (kv_engine x) s ∧ txn_ok s (kv_txn x) ∧ next s + Z.of_nat (room n) ≤ max_uint64 ∧
       (calm n → alone s (kv_txn x) ∧ boundless ∧ steady (kv_engine x)) ∧
       committed s = db ∧ txn_view s (kv_txn x) = m ∧
       ∀ k, versions s !! (k, ts_version (kv_txn x)) = None → m !! k = db !! k.

Definition kv_holds (n : regime) (e : E) db : Prop :=
  ∃ s, Rep e s ∧ next s + Z.of_nat (room n) ≤ max_uint64 ∧
       (calm n → active s = ∅ ∧ boundless ∧ steady e) ∧ committed s = db.

Lemma alone_no_conflict s t k : wf s → alone s t → ¬ conflict s t k.
Proof.
  intros Hwf (_ & Ha & Hn) (v & Hv & Hvis). apply isVisible_false in Hvis as [Hin|Hlt]; [set_solver|].
  pose proof (wf_versions _ Hwf _ _ Hv). lia.
Qed.

(** a failed operation left what was committed *)
Lemma harmless_holds n e s k :
  harmless s k e → next s + k + Z.of_nat (room n) ≤ max_uint64 → ¬ calm n → kv_holds n e (committed s).
Proof. intros (s' & HR & Hc & Hn) Hroom Hno. exists s'. split; [done|]. split; [lia|]. split; [done|done]. Qed.

Lemma kvBegin_ok n e db :
  kv_holds (more n) e db →
  match kvBegin e with
  | (_, Ok x) => kv_inv n db x db
  | (e', Err _) => kv_holds n e' db ∧ ¬ calm n
  | (_, Panic _) => False
  end.
Proof.
  intros (s & HR & Hn & Hcalm & <-). cbn [room calm more] in Hn, Hcalm.
  destruct (Begin_performs e s HR) as [Hst Hout]; [lia|]. unfold kvBegin.
  destruct (Begin e) as [e' [t|err|p]]; [| |done]; cbn [fst] in Hst.
  - destruct Hout as [-> HR']. exists (aBegin s).1. pose proof (Rep_wf _ _ HR) as Hwf. cbn [kv_engine kv_txn].
    split; [done|]. split; [apply aBegin_wf; [done|lia]|].
    split; [change (next (aBegin s).1) with (next s + 1); lia|].
    split; [intros (Ha & ? & ?)%Hcalm; split; [|by auto]; unfold alone; cbn; by rewrite Ha, (right_id_L ∅ (∪))|].
    split; [by apply aBegin_committed|].
    split; [by apply aBegin_view|done].
  - destruct Hout as [Hno Hh]. assert (¬ calm n) by tauto. split; [|done].
    eapply harmless_holds; [done|lia|done].
Qed.

Lemma kvGet_ok n db x m k : kv_inv n db x m → kvGet k x = (x, Ok (m !! k)).
Proof.
  intros (s & HR & Ht & _ & _ & _ & <- & _). cbn. unfold sread. by rewrite (Get_ok _ s).
Qed.

Lemma kvScanPrefix_ok n db x m p :
  kv_inv n db x m → ∃ es, map entry_pair es = prefixed p m ∧ kvScanPrefix p x = (x, Ok es).
Proof.
  intros (s & HR & Ht & _ & _ & _ & <- & _). cbn. unfold sread.
  destruct (ScanPrefix_ok _ s (kv_txn x) p HR Ht) as (es & -> & Hes & _). by exists es.
Qed.

Lemma kvWrite_ok n db x m k v :
  kv_inv n db x m →
  let out := on_txn (λ t, write t k (sbytes v) (bool_decide (v = None))) x in
  match out.2 with
  | Ok _ => kv_inv n db out.1 (match v with Some b => <[k := b]> m | None => delete k m end)
  | Err _ => kv_inv n db out.1 m ∧ ¬ calm n
  | Panic _ => False
  end.
Proof.
  intros (s & HR & Ht & Hn & Hcalm & Hdb & Hm & Hk). cbn zeta. unfold on_txn.
  assert ((if bool_decide (v = None) then None else Some (sbytes v)) = v) as Hv by by destruct v.
  assert (∀ e', Rep e' s ∨ Rep e' (aMark s (kv_txn x) k) → (steady (kv_engine x) → steady e') →
    kv_inv n db (mkKVTransaction e' (kv_txn x)) m)
    as Hsame.
  { intros e' HR' Hst.
    assert (calm n → alone s (kv_txn x) ∧ boundless ∧ steady e') as Hcalm' by (intros (? & ? & ?)%Hcalm; auto).
    destruct HR' as [HR'|HR']; eexists; (split; [exact HR'|]); [done|]. cbn [kv_txn].
    split; [by apply aMark_ok|]. done. }
  destruct (check_conflict_ok _ s (kv_txn x) k HR Ht) as [[Hc _]|[Hc _]].
  - rewrite (write_conflict _ s) by done. cbn. split; [apply Hsame; [by left|done]|].
    intros [Ha _]%Hcalm. by apply (alone_no_conflict s (kv_txn x) k (Rep_wf _ _ HR) Ha).
  - destruct (decide (fits (encode (transactionWriteKey (ts_version (kv_txn x)) k)) None ∧
      fits (encode (versionedKey k (ts_version (kv_txn x)))) (Some (enc_val v)))) as [[Hf1 Hf2]|Hf].
    + destruct (write_performs _ s (kv_txn x) k (sbytes v) (bool_decide (v = None)) HR Ht Hc)
        as [Hst Hout]; [done|by rewrite Hv|]. rewrite Hv in Hout.
      destruct (write _ k _ _ (kv_engine x)) as [e1 [u|err|p]]; [| |done]; cbn [fst snd] in *.
      2:{ destruct Hout as [Hno HR1]. split; [by apply Hsame|]. intros (_ & _ & ?)%Hcalm. done. }
      eexists. split; [exact Hout|]. cbn [kv_txn].
      split; [by apply aWrite_ok|]. split; [done|].
      split; [intros (? & ? & ?)%Hcalm; auto|].
      split; [by rewrite aWrite_committed|]. split; [by rewrite aWrite_view_self, Hm|].
      intros k'. cbn. rewrite lookup_insert. case_decide as Heq; [done|]. intros Hnone.
      assert (k ≠ k') by congruence. rewrite <-Hk by done. destruct v; by simplify_map_eq.
    + destruct (write_big _ s (kv_txn x) k (sbytes v) (bool_decide (v = None)) HR Ht Hc)
        as (e1 & msg & err & He1 & HR1 & Hst); [by rewrite Hv|].
      rewrite He1. cbn. split; [by apply Hsame|]. intros (_ & Hfits & _)%Hcalm. by apply Hf.
Qed.

Lemma kvSet_ok n db x m k b :
  kv_inv n db x m →
  match kvSet k b x with
  | (x', Ok _) => kv_inv n db x' (<[k := b]> m)
  | (x', Err _) => kv_inv n db x' m ∧ ¬ calm n
  | (_, Panic _) => False
  end.
Proof.
  intros Hx. pose proof (kvWrite_ok n db x m k (Some b) Hx) as Hw.
  change (kvSet k b) with (on_txn (λ t, Mvcc.Set_ t k b)). unfold Mvcc.Set_. cbn in Hw. by destruct (on_txn _ x) as [x' []].
Qed.

Lemma kvDelete_ok n db x m k :
  kv_inv n db x m →
  match kvDelete k x with
  | (x', Ok _) => kv_inv n db x' (delete k m)
  | (x', Err _) => kv_inv n db x' m ∧ ¬ calm n
  | (_, Panic _) => False
  end.
Proof.
  intros Hx. pose proof (kvWrite_ok n db x m k None Hx) as Hw.
  change (kvDelete k) with (on_txn (λ t, Mvcc.Delete t k)). unfold Mvcc.Delete. cbn in Hw. by destruct (on_txn _ x) as [x' []].
Qed.

(** the end of a transaction *)
Lemma kvCommit_ok n db x m :
  kv_inv n db x m →
  match kvCommit x with
  | (x', Ok _) => kv_holds n (kv_engine x') m
  | (x', Err _) => kv_holds n (kv_engine x') db ∧ ¬ calm n
  | (_, Panic _) => False
  end.
Proof.
  intros (s & HR & Ht & Hn & Hcalm & Hdb & Hm & Hk). change kvCommit with (on_txn Mvcc.Commit). unfold on_txn.
  destruct (Commit_performs _ s _ HR Ht) as [Hst Hout].
  destruct (Mvcc.Commit (kv_txn x) (kv_engine x)) as [e' [u|err|p]]; [| |done]; cbn [fst kv_engine] in *.
  - exists (aCommit s (kv_txn x)). split; [done|]. split; [done|].
    split; [intros ([Ha _] & ? & ?)%Hcalm; split; [cbn; set_solver|auto]|].
    apply map_eq. intros k. rewrite aCommit_committed by (done || apply HR).
    case_decide as Hd; [by rewrite Hm|]. rewrite Hdb. symmetry. apply Hk.
    destruct (versions s !! _) eqn:E'; [|done]. destruct Hd. by eexists.
  - destruct Hout as [Hno Hh]. assert (¬ calm n) by (intros (_ & _ & ?)%Hcalm; done). split; [|done].
    rewrite <-Hdb. eapply harmless_holds; [done|lia|done].
Qed.

Lemma kvRollback_ok n db x m :
  kv_inv n db x m →
  match kvRollback x with
  | (x', Ok _) => kv_holds n (kv_engine x') db
  | (x', Err _) => kv_holds n (kv_engine x') db ∧ ¬ calm n
  | (_, Panic _) => False
  end.
Proof.
  intros (s & HR & Ht & Hn & Hcalm & Hdb & Hm & Hk). change kvRollback with (on_txn Mvcc.Rollback). unfold on_txn.
  destruct (Rollback_performs _ s _ HR Ht) as [Hst Hout].
  destruct (Mvcc.Rollback (kv_txn x) (kv_engine x)) as [e' [u|err|p]]; [| |done]; cbn [fst kv_engine] in *.
  - exists (aRollback s (kv_txn x)). split; [done|]. split; [done|].
    split; [intros ([Ha _] & ? & ?)%Hcalm; split; [cbn; set_solver|auto]|].
    by rewrite aRollback_committed by (done || apply HR).
  - destruct Hout as [Hno Hh]. assert (¬ calm n) by (intros (_ & _ & ?)%Hcalm; done). split; [|done].
    rewrite <-Hdb. eapply harmless_holds; [done|lia|done].
Qed.

#[export] Program Instance mvcc_laws : KvLaws E (KVTransaction E) := {
  stored := kv_holds;
  views := kv_inv;
  doomed n db x := ∃ m, kv_inv n db x m;
}.
Next Obligation. intros n db x m Hx. by exists m. Qed.
Next Obligation.
  intros n e db (s & HR & Hn & Hc & Hdb). exists s. cbn [room more calm] in *.
  split; [done|]. split; [lia|done].
Qed.
Next Obligation. intros n e db. apply kvBegin_ok. Qed.
Next Obligation. intros n db x m k Hx. left. by rewrite (kvGet_ok _ _ _ _ _ Hx). Qed.
Next Obligation.
  intros n db x m p Hx. destruct (kvScanPrefix_ok _ _ _ _ p Hx) as (es & Hes & Heq).
  exists es. split; [done|]. left. by rewrite Heq.
Qed.
Next Obligation.
  intros n db x m k b Hx. pose proof (kvSet_ok n db x m k b Hx) as Hs.
  destruct (kvSet k b x) as [x' []]; [done| |done]. destruct Hs as [? ?]. split; [by exists m|done].
Qed.
Next Obligation.
  intros n db x m k Hx. pose proof (kvDelete_ok n db x m k Hx) as Hs.
  destruct (kvDelete k x) as [x' []]; [done| |done]. destruct Hs as [? ?]. split; [by exists m|done].
Qed.
Next Obligation. intros n db x m Hx. apply kvCommit_ok, Hx. Qed.
Next Obligation. intros n db x [m Hx]. by eapply kvRollback_ok. Qed.

Context `{!Json} `{!JsonLaws}.

(** an empty engine holds the empty database *)
Lemma kv_holds_empty n e :
  usable e → contents e = ∅ → 1 + Z.of_nat (room n) ≤ max_uint64 → (calm n → boundless ∧ steady e) → holds n e ∅.
Proof.
  intros Hu Hc Hn Hb. exists ∅. split; [|split; [apply encodes_empty|apply map_Forall_empty]].
  exists empty_mstate. split; [|split; [done|split; [by intros ?%Hb|]]].
  - split; [done|rewrite Hc; apply rep_empty|apply wf_empty].
  - apply map_eq. intros k. unfold committed. rewrite lookup_view. done.
Qed.

(** what a database holds depends on the contents of its engine only *)
Definition map_holds (r : nat) (m : gmap bytes bytes) (d : reldb) : Prop :=
  ∃ s, rep m s ∧ wf s ∧ next s + Z.of_nat r ≤ max_uint64 ∧ encodes (committed s) d ∧ db_wf d.

Lemma map_holds_empty r : 1 + Z.of_nat r ≤ max_uint64 → map_holds r ∅ ∅.
Proof.
  intros Hr. exists empty_mstate. split; [apply rep_empty|]. split; [apply wf_empty|]. split; [done|].
  split; [|apply map_Forall_empty]. assert (committed empty_mstate = ∅) as ->; [|apply encodes_empty].
  apply map_eq. intros k. unfold committed. rewrite lookup_view. done.
Qed.

Lemma holds_map r (e : E) d : holds (mkRegime r False) e d ↔ usable e ∧ map_holds r (contents e) d.
Proof.
  split.
  - intros (db & (s & [Hu Hrep Hwf] & Hn & _ & <-) & He & Hw). split; [done|]. by exists s.
  - intros [Hu (s & Hrep & Hwf & Hn & He & Hw)]. exists (committed s). split; [|done]. by exists s.
Qed.

End kv.
