(* ===== verification/Session.v ===== *)
(** * Sessions ([engine/engine.go]) *)

From S2P Require Import Prelude Bytes Types Ast Parser Planner Transaction Executor.

Section session.
Context {D T : Type} `{!Transaction T} `{!SQLEngine D T} `{!MapOrder}.

(** parsing, planning and building the executor touch no database *)
Definition prepare (sql : bytes) : result Executor :=
  let? stmt := rwrap "engine: parsing SQL: %w" (Parse sql) in
  let? plan := rwrap "engine: building plan: %w" (Planner.Build stmt) in
  rwrap "engine: building executor: %w" (Executor.Build plan).

(** the end of the transaction: commit, or roll back and report the error *)
Definition finish (t : T) (outcome : result ResultSet) : T * result ResultSet :=
  match outcome with
  | Err err =>
      match txnRollback t with
      | (t, Ok _) => (t, Err (Wrapf "engine: executing statement: %w" err))
      | (t, Err rollbackErr) =>
          (t, Err (Joined (Wrapf "engine: executing statement: %w" err)
                          (Wrapf "engine: rolling back transaction: %w" rollbackErr)))
      | (t, Panic p) => (t, Panic p)
      end
  | Ok resultSet =>
      (swrap "engine: committing transaction: %w" txnCommit ;;! sret resultSet) t
  | Panic p => (t, Panic p)
  end.

Definition Session_Execute (sql : bytes) : ST D ResultSet := λ d,
  match prepare sql with
  | Err err => (d, Err err)
  | Panic p => (d, Panic p)
  | Ok exec =>
      match dbBegin d with
      | (d, Err err) => (d, Err (Wrapf "engine: beginning transaction: %w" err))
      | (d, Panic p) => (d, Panic p)
      | (_, Ok t) =>
          let '(t, outcome) := Execute exec t in
          let '(t, r) := finish t outcome in
          (txnDB t, r)
      end
  end.

End session.
