(* ===== verification/Execute.v ===== *)
(** * What a statement does

    [effect e d r d']: the plan [e], run on the database [d], returns [r] and
    leaves [d'].  A session runs each statement in a transaction of its own:
    it has its whole effect or none. *)

From S2P Require Import Prelude Bytes Types Lexer LexerProps Ast Parser ParserProps ParserShape Schema Planner Transaction Executor RowsSpec InsertSpec Json Relation ExecutorSafe ExecutorWrites Statements Session.

Definition effect (e : Executor) (d : reldb) (r : ResultSet) (d' : reldb) : Prop :=
  match e with
  | CreateTableExecutor t =>
      r = CreateTableResult (tbl_Name t) ∧ create_table_spec t d = Some d'
  | InsertExecutor name columns values =>
      r = InsertResult (Z.of_nat (length values)) ∧
      ∃ rel rows, d !! name = Some rel ∧ Forall2 (row_of (rel_schema rel) columns) values rows ∧
        create_rows_spec name rows d = Some d'
  | UpdateExecutor name source assignments =>
      ∃ rel columns rows, d !! name = Some rel ∧ denote d source = Ok (columns, rows) ∧
        r = UpdateResult (Z.of_nat (length rows)) ∧ assignable (rel_schema rel) assignments ∧
        update_rows_spec name (assigned (rel_schema rel) assignments) rows d = Some d'
  | DeleteExecutor name source =>
      ∃ columns rows, denote d source = Ok (columns, rows) ∧
        r = DeleteResult (Z.of_nat (length rows)) ∧ delete_rows_spec name rows d = Some d'
  | e => d' = d ∧ ∃ columns rows, denote d e = Ok (columns, rows) ∧ r = RowsResult columns rows
  end.

Lemma prepare_no_panic sql : no_panic (prepare sql).
Proof.
  unfold prepare. apply no_panic_bind; [apply no_panic_wrap, Parse_no_panic|]. intros s _.
  apply no_panic_bind; [apply no_panic_wrap, Planner_Build_no_panic|]. intros node _.
  apply no_panic_wrap. by destruct (Build_total node) as [e ->].
Qed.

Section execute.
Context {D T : Type} `{Relational D T} `{!MapOrder}.

(** the plan has no effect on the database *)
Definition undefined (e : Executor) (d : reldb) : Prop := ∀ r d', ¬ effect e d r d'.

Lemma runs_query_effect n d0 x d e :
  sees n d0 x d → query_ok e →
  runs n d0 (Execute e) x (λ x' r, ∃ d', (d' = d ∧ ∃ columns rows, denote d e = Ok (columns, rows) ∧
    r = RowsResult columns rows) ∧ sees n d0 x' d')
    (∀ r d', ¬ (d' = d ∧ ∃ columns rows, denote d e = Ok (columns, rows) ∧ r = RowsResult columns rows)).
Proof.
  intros Hx He. eapply runs_query; [done|done| |].
  - intros err Herr r d' (_ & c & rows & Hd & _). congruence.
  - intros x' c rows Hd Hx'. eauto 10.
Qed.

Lemma runs_effect n d0 x d e :
  sees n d0 x d → executor_ok e →
  runs n d0 (Execute e) x (λ x' r, ∃ d', effect e d r d' ∧ sees n d0 x' d') (undefined e d).
Proof.
  intros Hx He. unfold undefined.
  destruct e as [t|name columns values| | | | | | | | |name src assignments|name src];
    try (by apply runs_query_effect); cbn [executor_ok effect] in *.
  - destruct He as [Hn Ht]. eapply runs_create_table; [done..| |].
    + intros Hnone r d' [_ Hs]. congruence.
    + eauto.
  - destruct He as (Hne & Hn & Hv). eapply runs_insert; [done..| |].
    + intros Hno r d' (_ & rel & rows & ? & ? & ?). by eapply Hno.
    + intros. eauto 10.
  - destruct He as (Hne & Hl & cond & ->). eapply runs_update; [done..| |].
    + intros Hno r d' (rel & c & rows & ? & ? & _ & ? & ?). by eapply Hno.
    + intros. eauto 20.
  - destruct He as (Hne & cond & ->). eapply runs_delete; [done..| |].
    + intros Hno r d' (c & rows & ? & _ & ?). by eapply Hno.
    + intros. eauto 10.
Qed.

(** what holds after every successful run *)
Lemma runs_then {A} n d0 (m : ST T A) x (Q Q' : T → A → Prop) F :
  runs n d0 m x Q F → (∀ x' a, Q x' a → Q' x' a) →
  match m x with
  | (x', Ok a) => Q' x' a
  | (x', Err _) => alive n d0 x'
  | (_, Panic _) => False
  end.
Proof. unfold runs. destruct (m x) as [x' [a|err|p]]; [auto|by intros [? _]|done]. Qed.

(** the transaction of a statement: all of its effect or none *)
Lemma finish_ok n d0 x e d :
  runs n d0 (Execute e) x (λ x' r, ∃ d', effect e d r d' ∧ sees n d0 x' d') (undefined e d) →
  let '(x1, outcome) := Execute e x in
  match finish x1 outcome with
  | (x', Ok r) => ∃ d', effect e d r d' ∧ holds n (txnDB x') d'
  | (x', Err _) => holds n (txnDB x') d0 ∧ (calm n → undefined e d)
  | (_, Panic _) => False
  end.
Proof.
  unfold runs. destruct (Execute e x) as [x1 [r|err|p]]; [|intros [Ha ?]|done].
  - intros (d' & He & Hx'). pose proof (commit_ok n d0 x1 d' Hx') as Hc. unfold ended in Hc.
    cbn. unfold sbind, swrap. destruct (txnCommit x1) as [x' [u|err|p]]; cbn; [by eauto| |done]. naive_solver.
  - pose proof (rollback_ok n d0 x1 Ha) as Hr. unfold ended in Hr. cbn.
    destruct (txnRollback x1) as [x' [u|e'|p]]; [done| |done]. naive_solver.
Qed.

(** the text is a statement the session can run, and what it has to do *)
Definition statement_effect (sql : bytes) (d : reldb) (r : ResultSet) (d' : reldb) : Prop :=
  ∃ e, prepare sql = Ok e ∧ effect e d r d'.

Lemma Session_ok n D0 d sql :
  holds (more n) D0 d → valid_utf8 sql = true →
  match Session_Execute sql D0 with
  | (D', Ok r) => ∃ d', statement_effect sql d r d' ∧ holds n D' d'
  | (D', Err _) => holds n D' d ∧ (calm n → ∀ r d', ¬ statement_effect sql d r d')
  | (_, Panic _) => False
  end.
Proof.
  intros Hh Hutf. unfold Session_Execute, statement_effect.
  destruct (prepare sql) as [e|err|p] eqn:Hp.
  - assert (executor_ok e) as He.
    { unfold prepare in Hp. inv_ok. by eapply prepared_ok. }
    pose proof (begin_ok n D0 d Hh) as Hx. destruct (dbBegin D0) as [D' [x|err|p]]; [| |done].
    2:{ destruct Hx as [? Hno]. split; [done|]. intros Hc. by destruct Hno. }
    pose proof (finish_ok n d x e d (runs_effect n d x d e Hx He)) as Hf.
    destruct (Execute e x) as [x1 outcome]. destruct (finish x1 outcome) as [x' [r|err|p]]; [| |done].
    + destruct Hf as (d' & ? & ?). eauto.
    + destruct Hf as [? Hno]. split; [done|]. intros Hc r d' (e' & [= <-] & He'). by eapply Hno.
  - split; [by apply holds_weaken|]. by intros _ r d' (e & [=] & _).
  - pose proof (prepare_no_panic sql) as Hn. by rewrite Hp in Hn.
Qed.

End execute.
