(* ===== verification/Recorded.v ===== *)
(** * What one statement does in a concurrent run

    A statement is run on a recording of its own operations: each call it makes
    of its transaction must be the next event of the recording, and is answered
    as recorded.  [performs sql evs r]: the statement, answered like this, makes
    exactly the calls of [evs] and returns [r].  A recording whose reads are
    answered from one snapshot and the transaction's own writes shows the
    statement as having run alone on that snapshot. *)

From S2P Require Import Prelude Bytes Engine MvccKey Mvcc MvccSpec Snapshot.
From S2P Require Import Types Schema Transaction Executor Json Relation ExecutorSafe ExecutorWrites Statements Kv KvRefine Session Execute.

(** a call of the code that is not answered yet *)
Inductive request :=
  | AskBegin
  | AskGet (t : transactionState) (k : bytes)
  | AskScan (t : transactionState) (prefix : bytes)
  | AskWrite (t : transactionState) (k : bytes) (x : slice)
  | AskCommit (t : transactionState)
  | AskRollback (t : transactionState).

(** what is left of a recording: events; or, once they are used up, the call
    the code makes next; or nothing, when the code makes another call than the
    recorded one *)
Inductive tape :=
  | Tape (rest : list event)
  | Asked (q : request)
  | Off.

Record player := mkPlayer { own : transactionState; ahead : tape }.

(** the event is an answer to the request *)
Definition is_answer (q : request) (ev : event) : Prop :=
  match q, ev with
  | AskBegin, EvBegin _ => True
  | AskGet t k, EvGet t' k' _ => t' = t ∧ k' = k
  | AskScan t p, EvScan t' p' _ => t' = t ∧ p' = p
  | AskWrite t k x, EvWrite t' k' x' _ => t' = t ∧ k' = k ∧ x' = x
  | AskCommit t, EvCommit t' _ | AskRollback t, EvRollback t' _ => t' = t
  | _, _ => False
  end.
#[export] Instance is_answer_dec q ev : Decision (is_answer q ev).
Proof. destruct q, ev; cbn; apply _. Defined.

(** the call [q], answered by the next event; [result_of] is the answer in it *)
Definition not_recorded : error := Errorf "not recorded".
Definition play {A} (q : transactionState → request) (result_of : event → result A) : ST player A := λ x,
  match ahead x with
  | Tape (ev :: rest) =>
      if decide (is_answer (q (own x)) ev) then (mkPlayer (own x) (Tape rest), result_of ev)
      else (mkPlayer (own x) Off, Err not_recorded)
  | Tape [] => (mkPlayer (own x) (Asked (q (own x))), Err not_recorded)
  | _ => (x, Err not_recorded)
  end.

Definition slice_of (ev : event) : result slice := match ev with EvGet _ _ r => r | _ => Err not_recorded end.
Definition entries_of (ev : event) : result (list Entry) := match ev with EvScan _ _ r => r | _ => Err not_recorded end.
Definition done_of (ev : event) : result unit :=
  match ev with EvWrite _ _ _ r | EvCommit _ r | EvRollback _ r => r | _ => Err not_recorded end.

#[export] Instance recorded_transaction : MVCCTransaction player := {
  kvGet k := play (λ t, AskGet t k) slice_of;
  kvScanPrefix p := play (λ t, AskScan t p) entries_of;
  kvSet k v := play (λ t, AskWrite t k (Some v)) done_of;
  kvDelete k := play (λ t, AskWrite t k None) done_of;
  kvCommit := play AskCommit done_of;
  kvRollback := play AskRollback done_of;
}.

#[export] Instance recorded_engine : SQLEngine tape player := {
  dbBegin tp :=
    match tp with
    | Tape (EvBegin t :: rest) => (Tape rest, Ok (mkPlayer t (Tape rest)))
    | Tape [] => (Asked AskBegin, Err not_recorded)
    | Tape _ => (Off, Err not_recorded)
    | tp => (tp, Err not_recorded)
    end;
  txnDB := ahead;
}.

(** the statement has made exactly these calls and returned [r] *)
Definition performs `{!Json} `{!MapOrder} (sql : bytes) (evs : list event) (r : result ResultSet) : Prop :=
  Session_Execute (T := player) sql (Tape evs) = (Tape [], r).

(** the statement has made exactly these calls and now makes the call [q] *)
Definition asks `{!Json} `{!MapOrder} (sql : bytes) (evs : list event) (q : request) : Prop :=
  (Session_Execute (T := player) sql (Tape evs)).1 = Asked q.

(** ** Recordings of an isolated transaction *)

(** the map the transaction began on and the one it sees, after an event *)
Definition write1 (k : bytes) (x : slice) (m : gmap bytes bytes) : gmap bytes bytes :=
  match x with Some v => <[k := v]> m | None => delete k m end.

Definition track (s : gmap bytes bytes * gmap bytes bytes) (ev : event) : gmap bytes bytes * gmap bytes bytes :=
  match ev with
  | EvWrite _ k x (Ok _) => (s.1, write1 k x s.2)
  | EvCommit _ _ => (s.2, s.2)
  | EvRollback _ _ => (s.1, s.1)
  | _ => s
  end.

(** the answers are those of a transaction alone on its maps; only a write fails *)
Definition isolated1 (s : gmap bytes bytes * gmap bytes bytes) (ev : event) : Prop :=
  match ev with
  | EvGet _ k r => r = Ok (s.2 !! k)
  | EvScan _ p r => ∃ es, r = Ok es ∧ map entry_pair es = prefixed p s.2
  | EvWrite _ _ _ r => no_panic r
  | EvCommit _ r | EvRollback _ r => r = Ok ()
  | EvBegin _ | EvCrash => True
  end.

Fixpoint isolated (s : gmap bytes bytes * gmap bytes bytes) (evs : list event) : Prop :=
  match evs with
  | [] => True
  | ev :: evs => isolated1 s ev ∧ isolated (track s ev) evs
  end.

Lemma isolated_app s evs evs' : isolated s (evs ++ evs') ↔ isolated s evs ∧ isolated (foldl track s evs) evs'.
Proof. revert s. induction evs as [|ev evs IH]; intros s; cbn; [tauto|]. rewrite IH. tauto. Qed.

Class Recording := {
  record_start : gmap bytes bytes;
  record_events : list event;
  record_isolated : isolated (record_start, record_start) record_events;
}.

Section laws.
Context `{!Recording}.
Implicit Types (x : player) (m db : gmap bytes bytes).

(** after the events before [rest], the transaction began on [db] and sees [m] *)
Definition at_point (rest : list event) db m : Prop :=
  ∃ past, record_events = past ++ rest ∧ foldl track (record_start, record_start) past = (db, m).

Lemma at_point_next ev rest db m :
  at_point (ev :: rest) db m →
  isolated1 (db, m) ev ∧ at_point rest (track (db, m) ev).1 (track (db, m) ev).2.
Proof.
  intros (past & Heq & Ht). pose proof record_isolated as Hi. rewrite Heq, isolated_app, Ht in Hi.
  split; [apply Hi|]. exists (past ++ [ev]). split; [by rewrite <-app_assoc|].
  rewrite foldl_app, Ht. cbn. by destruct (track _ _).
Qed.

Definition tape_stored (n : regime) (tp : tape) m : Prop := ¬ calm n ∧ ∀ rest, tp = Tape rest → at_point rest m m.
Definition player_views (n : regime) db x m : Prop := ¬ calm n ∧ ∃ rest, ahead x = Tape rest ∧ at_point rest db m.
Definition player_doomed (n : regime) db x : Prop :=
  ¬ calm n ∧ ∀ rest, ahead x = Tape rest → ∃ m, at_point rest db m.

(** a call is answered as recorded, or the recording is left *)
Lemma play_cases {A} q (result_of : event → result A) n db x m :
  player_views n db x m →
  let out := play q result_of x in
  (∃ tp, out = (mkPlayer (own x) tp, Err not_recorded) ∧ player_doomed n db out.1 ∧ (∀ rest, tp ≠ Tape rest)) ∨
  ∃ ev rest, is_answer (q (own x)) ev ∧ out = (mkPlayer (own x) (Tape rest), result_of ev) ∧
    isolated1 (db, m) ev ∧ at_point rest (track (db, m) ev).1 (track (db, m) ev).2.
Proof.
  intros (Hc & rest & Hr & Hat). unfold play. rewrite Hr. cbn zeta. destruct rest as [|ev rest].
  - left. eexists. by split.
  - destruct (decide (is_answer (q (own x)) ev)) as [Ha|Ha].
    + right. exists ev, rest. split; [done|]. split; [done|]. by apply at_point_next.
    + left. exists Off. by split.
Qed.

Lemma play_write_ok n db x m k v :
  player_views n db x m →
  match play (λ t, AskWrite t k v) done_of x with
  | (x', Ok _) => player_views n db x' (write1 k v m)
  | (x', Err _) => player_doomed n db x' ∧ ¬ calm n
  | (_, Panic _) => False
  end.
Proof.
  intros Hx. pose proof Hx as [Hc _].
  destruct (play_cases (λ t, AskWrite t k v) done_of n db x m Hx)
    as [(tp & -> & Hd & _)|(ev & rest & Ha & -> & Hi & Hat)]; [by split|].
  destruct ev as [|t' k' x' r| | | | |]; cbn in Ha; try done. destruct Ha as (_ & -> & ->). cbn in Hi, Hat |- *.
  destruct r as [u|err|p]; [| |done].
  - split; [done|]. by exists rest.
  - split; [|done]. split; [done|]. intros ? [= <-]. by exists m.
Qed.

#[export] Program Instance recorded_laws : KvLaws tape player := {
  stored := tape_stored;
  views := player_views;
  doomed := player_doomed;
}.
Next Obligation.
  intros n db x m (Hc & rest & Hr & Hat). split; [done|]. intros ? Hr'. rewrite Hr in Hr'. injection Hr' as <-. by exists m.
Qed.
Next Obligation. done. Qed.
Next Obligation.
  intros n tp db [Hc Htp]. cbn.
  assert (∀ tp, (∀ rest, tp ≠ Tape rest) → tape_stored n tp db ∧ ¬ calm n) as Hnone.
  { intros tp' Htp'. split; [split; [done|]|done]. intros rest Hr. by destruct (Htp' rest). }
  destruct tp as [[|[t| | | | | |] rest]|q|]; cbn; try (by apply Hnone).
  split; [done|]. exists rest. split; [done|]. by destruct (at_point_next _ _ _ _ (Htp _ eq_refl)).
Qed.
Next Obligation.
  intros n db x m k Hx. pose proof Hx as [Hc _]. cbn [kvGet recorded_transaction].
  destruct (play_cases (λ t, AskGet t k) slice_of n db x m Hx) as [(tp & -> & Hd & _)|(ev & rest & Ha & -> & Hi & Hat)];
    [right; by eexists|left].
  destruct ev; cbn in Ha; try done. destruct Ha as [_ ->]. split; [exact Hi|]. split; [done|]. by exists rest.
Qed.
Next Obligation.
  intros n db x m prefix Hx. pose proof Hx as [Hc _]. cbn [kvScanPrefix recorded_transaction].
  destruct (play_cases (λ t, AskScan t prefix) entries_of n db x m Hx)
    as [(tp & -> & Hd & _)|(ev & rest & Ha & -> & Hi & Hat)].
  - exists (map (λ p, mkEntry p.1 (Some p.2)) (prefixed prefix m)). split; [|right; by eexists].
    rewrite map_map. rewrite <-(map_id (prefixed prefix m)) at 2. apply map_ext. by intros [].
  - destruct ev; cbn in Ha; try done. destruct Ha as [_ ->]. destruct Hi as (es & Hr & Hes). exists es. split; [done|].
    left. split; [exact Hr|]. split; [done|]. by exists rest.
Qed.
Next Obligation. intros n db x m k b. apply (play_write_ok n db x m k (Some b)). Qed.
Next Obligation. intros n db x m k. apply (play_write_ok n db x m k None). Qed.
Next Obligation.
  intros n db x m Hx. pose proof Hx as [Hc _]. cbn [kvCommit recorded_transaction].
  destruct (play_cases AskCommit done_of n db x m Hx) as [(tp & -> & Hd & Htp)|(ev & rest & Ha & -> & Hi & Hat)]; cbn.
  - split; [|done]. split; [done|]. intros rest ->. by destruct (Htp rest).
  - destruct ev; cbn in Ha; try done. cbn in Hi, Hat |- *. subst r. split; [done|]. by intros ? [= <-].
Qed.
Next Obligation.
  intros n db x [Hc Hx]. cbn [kvRollback recorded_transaction]. destruct (ahead x) as [rest|q|] eqn:Hr.
  - destruct (Hx rest eq_refl) as [m Hat]. assert (player_views n db x m) as Hv by (split; [done|]; by exists rest).
    destruct (play_cases AskRollback done_of n db x m Hv) as [(tp & -> & Hd & Htp)|(ev & rest' & Ha & -> & Hi & Hat')]; cbn.
    + split; [|done]. split; [done|]. intros rest' ->. by destruct (Htp rest').
    + destruct ev; cbn in Ha; try done. cbn in Hi, Hat' |- *. subst r. split; [done|]. by intros ? [= <-].
  - unfold play. rewrite Hr. cbn. rewrite Hr. split; [split; [done|by intros ? [=]]|done].
  - unfold play. rewrite Hr. cbn. rewrite Hr. split; [split; [done|by intros ? [=]]|done].
Qed.

End laws.

(** ** Answering one more call

    [goes_on m]: [m] uses up some of a recording and ends; or it needs one more
    answer and, given it, goes on until it ends or needs the next; or it makes
    another call than the recorded one.  [resumes m]: it also makes finitely
    many calls, whatever they are answered.  All code that touches the
    transaction only by its calls is like this. *)

(** answered call by call, the code stops asking; [g]: what is left of a recording *)
Inductive stops (g : list event → tape) (evs : list event) : Prop :=
  stops_intro : (∀ q ev, g evs = Asked q → is_answer q ev → stops g (evs ++ [ev])) → stops g evs.

Lemma stops_done g evs : (∀ q, g evs ≠ Asked q) → stops g evs.
Proof. intros Hg. constructor. intros q ev Hq. by destruct (Hg q). Qed.

Lemma stops_shift g g' used rest : (∀ rest, g (used ++ rest) = g' rest) → stops g' rest → stops g (used ++ rest).
Proof.
  intros Hg. induction 1 as [rest _ IH]. constructor. intros q ev Hq Ha. rewrite Hg in Hq. rewrite <-app_assoc. by eapply IH.
Qed.

(** so no sequence of answers keeps it asking *)
Lemma stops_stream g (answer : nat → event) :
  stops g [] → ∃ n, ∀ q, g (map answer (seq 0 n)) = Asked q → ¬ is_answer q (answer n).
Proof.
  assert (∀ evs, stops g evs → ∀ n, evs = map answer (seq 0 n) →
    ∃ n, ∀ q, g (map answer (seq 0 n)) = Asked q → ¬ is_answer q (answer n)) as Hall; [|intros Hg; by apply (Hall [] Hg 0%nat)].
  induction 1 as [evs _ IH]. intros n ->.
  destruct (g (map answer (seq 0 n))) as [rest|q|] eqn:Hq; [exists n; by rewrite Hq| |exists n; by rewrite Hq].
  destruct (decide (is_answer q (answer n))) as [Ha|Ha]; [|exists n; rewrite Hq; by intros ? [= <-]].
  apply (IH q (answer n) eq_refl Ha (S n)). by rewrite seq_S, map_app.
Qed.

Definition tape_after {A} (m : ST player A) (t : transactionState) (evs : list event) : tape := ahead (m (mkPlayer t (Tape evs))).1.

Definition completes {A} (m : ST player A) (t : transactionState) (used : list event) (r : result A) : Prop :=
  ∀ more, m (mkPlayer t (Tape (used ++ more))) = (mkPlayer t (Tape more), r).

(** the code waits for the answer to [q] *)
Definition waits {A} (m : ST player A) (t : transactionState) (evs : list event) (q : request) : Prop :=
  ∃ err, m (mkPlayer t (Tape evs)) = (mkPlayer t (Asked q), Err err).

(** the calls of an executor: those that do not begin or end the transaction *)
Definition in_txn (t : transactionState) (q : request) : Prop :=
  match q with AskGet t' _ | AskScan t' _ | AskWrite t' _ _ => t' = t | _ => False end.

Definition goes_on {A} (m : ST player A) : Prop := ∀ t evs,
  (∃ used rest r, evs = used ++ rest ∧ completes m t used r) ∨
  (∃ q, waits m t evs q ∧ in_txn t q ∧
     ∀ ev, is_answer q ev → (∃ r, completes m t (evs ++ [ev]) r) ∨ ∃ q', waits m t (evs ++ [ev]) q') ∨
  (evs ≠ [] ∧ ∃ err, m (mkPlayer t (Tape evs)) = (mkPlayer t Off, Err err)).

Definition ends {A} (m : ST player A) : Prop := ∀ t evs, stops (tape_after m t) evs.
Definition resumes {A} (m : ST player A) : Prop := goes_on m ∧ ends m.

Lemma completes_bind {A B} (m : ST player A) (f : A → ST player B) t used used' a r :
  completes m t used (Ok a) → completes (f a) t used' r → completes (sbind m f) t (used ++ used') r.
Proof. intros Hm Hf more. unfold sbind. rewrite <-app_assoc, Hm. apply Hf. Qed.

Lemma completes_fails {A B} (m : ST player A) (f : A → ST player B) t used r :
  completes m t used r → (∀ a, r ≠ Ok a) → ∃ r', completes (sbind m f) t used r'.
Proof.
  intros Hm Hr. destruct r as [a|err|p]; [by destruct (Hr a)|exists (Err err)|exists (Panic p)];
    intros more; unfold sbind; by rewrite Hm.
Qed.

Lemma completes_tape {A} (m : ST player A) t used rest r :
  completes m t used r → m (mkPlayer t (Tape (used ++ rest))) = (mkPlayer t (Tape rest), r).
Proof. intros Hm. apply Hm. Qed.

Lemma waits_bind {A B} (m : ST player A) (f : A → ST player B) t evs q : waits m t evs q → waits (sbind m f) t evs q.
Proof. intros [err Hm]. exists err. unfold sbind. by rewrite Hm. Qed.

Lemma goes_on_ret {A} (r : result A) : goes_on (slift r).
Proof. intros t evs. left. by exists [], evs, r. Qed.

Lemma goes_on_bind {A B} (m : ST player A) (f : A → ST player B) :
  goes_on m → (∀ a, goes_on (f a)) → goes_on (sbind m f).
Proof.
  intros Hm Hf t evs. destruct (Hm t evs) as [(used & rest & r & -> & Hr)|[(q & Hq & Hb & Hev)|(Hne & err & He)]].
  - destruct r as [a|err|p].
    2-3: left; edestruct (completes_fails m f) as [r' Hr']; [exact Hr|done|]; by exists used, rest, r'.
    destruct (Hf a t rest) as [(used' & rest' & r & -> & Hr')|[(q & Hq & Hb & Hev)|(Hne & err & He)]].
    + left. exists (used ++ used'), rest', r. split; [by rewrite app_assoc|]. by eapply completes_bind.
    + right; left. exists q. split; [|split; [done|]].
      * destruct Hq as [err Hq]. exists err. unfold sbind. by rewrite Hr.
      * intros ev Ha. rewrite <-app_assoc. destruct (Hev ev Ha) as [[r Hr']|[q' [err Hq']]].
        -- left. exists r. by eapply completes_bind.
        -- right. exists q', err. unfold sbind. by rewrite Hr.
    + right; right. split; [by destruct used|]. exists err. unfold sbind. by rewrite Hr.
  - right; left. exists q. split; [by apply waits_bind|]. split; [done|]. intros ev Ha.
    destruct (Hev ev Ha) as [[r Hr]|[q' Hq']]; [|right; exists q'; by apply waits_bind].
    destruct r as [a|err|p]; [|left; by eapply completes_fails..].
    destruct (Hf a t []) as [(used & rest & r & Hnil & Hr')|[(q' & [err Hq'] & _)|(Hne & _)]]; [| |done].
    + symmetry in Hnil. apply app_nil in Hnil as [-> ->]. left. exists r.
      rewrite <-(app_nil_r (evs ++ [ev])). by eapply completes_bind.
    + right. exists q', err. unfold sbind. rewrite <-(app_nil_r (evs ++ [ev])). by rewrite Hr.
  - right; right. split; [done|]. exists err. unfold sbind. by rewrite He.
Qed.

Lemma goes_on_wrap {A} msg (m : ST player A) : goes_on m → goes_on (swrap msg m).
Proof.
  intros Hm t evs. unfold completes, waits, swrap.
  destruct (Hm t evs) as [(used & rest & r & -> & Hr)|[(q & [err Hq] & Hb & Hev)|(Hne & err & He)]].
  - left. exists used, rest, (rwrap msg r). split; [done|]. intros more. by rewrite Hr.
  - right; left. exists q. split; [exists (Wrapf msg err); by rewrite Hq|]. split; [done|].
    intros ev Ha. destruct (Hev ev Ha) as [[r Hr]|[q' [err' Hq']]]; [left|right].
    + exists (rwrap msg r). intros more. by rewrite Hr.
    + exists q', (Wrapf msg err'). by rewrite Hq'.
  - right; right. split; [done|]. exists (Wrapf msg err). by rewrite He.
Qed.

Lemma goes_on_play {A} (q : transactionState → request) (result_of : event → result A) :
  (∀ t, in_txn t (q t)) → goes_on (play q result_of).
Proof.
  intros Hq t evs. unfold completes, waits, play. destruct evs as [|ev rest]; cbn.
  - right; left. exists (q t). split; [by eexists|]. split; [apply Hq|]. intros ev Ha. left.
    exists (result_of ev). intros more. by rewrite decide_True.
  - destruct (decide (is_answer (q t) ev)) as [Ha|Ha].
    + left. exists [ev], rest, (result_of ev). split; [done|]. intros more. cbn. by rewrite decide_True.
    + right; right. split; [done|]. by eexists.
Qed.

Lemma ends_bind {A B} (m : ST player A) (f : A → ST player B) :
  goes_on m → ends m → (∀ a, ends (f a)) → ends (sbind m f).
Proof.
  intros Hgo Hm Hf t evs. induction (Hm t evs) as [evs _ IH].
  destruct (Hgo t evs) as [(used & rest & r & -> & Hr)|[(q & [err Hq] & _)|(_ & err & He)]].
  - destruct r as [a|err|p].
    + apply (stops_shift _ (tape_after (f a) t)); [|apply Hf]. intros rest'. unfold tape_after, sbind. by rewrite Hr.
    + apply stops_done. intros q. unfold tape_after, sbind. by rewrite Hr.
    + apply stops_done. intros q. unfold tape_after, sbind. by rewrite Hr.
  - constructor. intros q' ev Hq'. apply IH. unfold tape_after, sbind in *. by rewrite Hq in Hq' |- *.
  - apply stops_done. intros q. unfold tape_after, sbind. by rewrite He.
Qed.

Lemma ends_wrap {A} msg (m : ST player A) : ends m → ends (swrap msg m).
Proof.
  intros Hm t evs. apply (stops_shift _ (tape_after m t) []); [|apply Hm]. intros rest. unfold tape_after, swrap. cbn.
  by destruct (m _).
Qed.

Lemma ends_play {A} (q : transactionState → request) (result_of : event → result A) : ends (play q result_of).
Proof.
  intros t evs. unfold tape_after, play. cbn.
  assert (∀ ev rest, stops (λ evs, ahead (match evs with
    | [] => (mkPlayer t (Asked (q t)), Err not_recorded)
    | ev :: rest => if decide (is_answer (q t) ev) then (mkPlayer t (Tape rest), result_of ev) else (mkPlayer t Off, Err not_recorded)
    end).1) (ev :: rest)) as Hcons by (intros ev rest; apply stops_done; intros q'; by case_decide).
  destruct evs as [|ev rest]; [|apply Hcons]. constructor. intros q' ev _ _. apply Hcons.
Qed.

Lemma resumes_ret {A} (r : result A) : resumes (slift r).
Proof. split; [apply goes_on_ret|]. intros t evs. by apply stops_done. Qed.

Lemma resumes_bind {A B} (m : ST player A) (f : A → ST player B) :
  resumes m → (∀ a, resumes (f a)) → resumes (sbind m f).
Proof. intros [Hm Hm'] Hf. split; [apply goes_on_bind; [done|apply Hf]|apply ends_bind; [done..|apply Hf]]. Qed.

Lemma resumes_wrap {A} msg (m : ST player A) : resumes m → resumes (swrap msg m).
Proof. intros [Hm Hm']. split; [by apply goes_on_wrap|by apply ends_wrap]. Qed.

Lemma resumes_play {A} (q : transactionState → request) (result_of : event → result A) :
  (∀ t, in_txn t (q t)) → resumes (play q result_of).
Proof. intros Hq. split; [by apply goes_on_play|apply ends_play]. Qed.

Lemma resumes_foldl {A B} (f : B → A → ST player B) b l : (∀ b a, resumes (f b a)) → resumes (sfoldl f b l).
Proof. intros Hf. revert b. induction l as [|a l IH]; intros b; [apply (resumes_ret (Ok b))|]. by apply resumes_bind. Qed.


Section executor.
Context `{!Json} `{!MapOrder}.

(** code built from calls *)
Ltac resume :=
  repeat match goal with
  | |- resumes (sbind _ _) => apply resumes_bind
  | |- resumes (swrap _ _) => apply resumes_wrap
  | |- resumes (slift _) => apply resumes_ret
  | |- resumes (sret ?a) => apply (resumes_ret (Ok a))
  | |- resumes (sthrow ?e) => apply (resumes_ret (Err e))
  | |- resumes (sfoldl _ _ _) => apply resumes_foldl
  | |- resumes (play _ _) => by apply resumes_play
  | |- resumes (match ?x with _ => _ end) => destruct x
  | |- resumes (if ?x then _ else _) => destruct x
  | |- ∀ _, _ => intro
  | H : resumes ?m |- resumes ?m => exact H
  end.

Lemma resumes_GetTable name : resumes (GetTable (X := player) name).
Proof. unfold GetTable. cbn [kvGet recorded_transaction]. resume. Qed.

Lemma resumes_ScanTable t : resumes (ScanTable (X := player) t).
Proof. unfold ScanTable. cbn [kvScanPrefix recorded_transaction]. resume. Qed.

Lemma resumes_CreateTable t : resumes (CreateTable (X := player) t).
Proof.
  unfold CreateTable. pose proof (resumes_GetTable (tbl_Name t)). cbn [kvSet recorded_transaction]. resume.
Qed.

Lemma resumes_CreateRow name row : resumes (CreateRow (X := player) name row).
Proof.
  unfold CreateRow. pose proof (resumes_GetTable name). cbn [kvGet kvSet recorded_transaction]. resume.
Qed.

Lemma resumes_UpdateRow t old row : resumes (UpdateRow (X := player) t old row).
Proof. unfold UpdateRow. cbn [kvGet kvSet kvDelete recorded_transaction]. resume. Qed.

Lemma resumes_DeleteRow t pk : resumes (DeleteRow (X := player) t pk).
Proof. unfold DeleteRow. cbn [kvDelete recorded_transaction]. resume. Qed.

Lemma resumes_load_table name : resumes (load_table (T := player) name).
Proof. unfold load_table. pose proof (resumes_GetTable name). cbn [txnGetTable kv_transaction]. resume. Qed.

Lemma resumes_on_rows msg (m : ST player ResultSet) f : resumes m → resumes (on_rows msg m f).
Proof. intros Hm. unfold on_rows. resume. Qed.

Lemma resumes_Execute e : resumes (Execute (T := player) e).
Proof.
  induction e as [t|name columns values|name|e IH p|e IH o|e IH k|e IH k|e IH items|e IH items g|l IHl r IHr p o
    |name e IH assignments|name e IH]; cbn [Execute]; try (by apply resumes_on_rows).
  - unfold CreateTableExecutor_Execute. pose proof (resumes_CreateTable t). cbn [txnCreateTable kv_transaction]. resume.
  - unfold InsertExecutor_Execute, insert_row. pose proof (resumes_load_table name).
    assert (∀ row, resumes (txnCreateRow (T := player) name row)) by apply resumes_CreateRow. resume. auto.
  - unfold ScanExecutor_Execute. pose proof (resumes_load_table name).
    assert (∀ t, resumes (txnScanTable (T := player) t)) by apply resumes_ScanTable. resume. auto.
  - unfold NestedLoopJoinExecutor_Execute. resume.
  - unfold UpdateExecutor_Execute, update_row. pose proof (resumes_load_table name).
    assert (∀ t old row, resumes (txnUpdateRow (T := player) t old row)) by apply resumes_UpdateRow. resume. auto.
  - unfold DeleteExecutor_Execute, delete_row. pose proof (resumes_load_table name).
    assert (∀ t pk, resumes (txnDeleteRow (T := player) t pk)) by apply resumes_DeleteRow. resume. auto.
Qed.

End executor.

(** ** The calls of a statement *)

Definition request_txn (q : request) : option transactionState :=
  match q with
  | AskBegin => None
  | AskGet t _ | AskScan t _ | AskWrite t _ _ | AskCommit t | AskRollback t => Some t
  end.

(** the events that end a transaction *)
Definition is_end (ev : event) : bool := match ev with EvCommit _ _ | EvRollback _ _ => true | _ => false end.

(** how a statement ends *)
Definition ending (r : result ResultSet) (evs : list event) : Prop :=
  match r with
  | Ok _ => ∃ t r', last evs = Some (EvCommit t r')
  | Err _ => evs = [] ∨ ∃ t r', last evs = Some (EvRollback t r') ∨ last evs = Some (EvCommit t r') ∧ r' ≠ Ok ()
  | Panic _ => True
  end.

Definition is_panic {A} (r : result A) : Prop := match r with Panic _ => True | _ => False end.
#[export] Instance is_panic_dec {A} (r : result A) : Decision (is_panic r).
Proof. destruct r; cbn; apply _. Defined.

Lemma no_panic_spec {A} (r : result A) : no_panic r ↔ ¬ is_panic r.
Proof. destruct r; cbn; tauto. Qed.

Section session.
Context `{!Json} `{!MapOrder}.

(** the transaction of a statement *)
Definition transact (e : Executor) (x : player) : player * result ResultSet :=
  let '(x, outcome) := Execute e x in finish x outcome.

Lemma Session_Execute_transact sql evs e :
  prepare sql = Ok e →
  Session_Execute (T := player) sql (Tape evs) =
    match evs with
    | [] => (Asked AskBegin, Err (Wrapf "engine: beginning transaction: %w" not_recorded))
    | EvBegin t :: rest => let '(x, r) := transact e (mkPlayer t (Tape rest)) in (ahead x, r)
    | _ => (Off, Err (Wrapf "engine: beginning transaction: %w" not_recorded))
    end.
Proof.
  intros Hp. unfold Session_Execute. rewrite Hp. destruct evs as [|[t| | | | | |] rest]; try done. cbn.
  unfold transact. destruct (Execute e _) as [x outcome]. by destruct (finish x outcome).
Qed.

(** after the last call of the executor comes the commit, or the rollback *)
Lemma finish_cases t rest outcome :
  let '(x, r) := finish (mkPlayer t (Tape rest)) outcome in
  (∃ p, outcome = Panic p ∧ ahead x = Tape rest ∧ r = Panic p) ∨
  ∃ q, q = match outcome with Ok _ => AskCommit t | _ => AskRollback t end ∧
    match rest with
    | [] => ahead x = Asked q
    | ev :: rest =>
        if decide (is_answer q ev)
        then ahead x = Tape rest ∧ match r with Ok _ => is_Some (match outcome with Ok a => Some a | _ => None end)
                                 | Err _ => ∀ a, outcome = Ok a → done_of ev ≠ Ok ()
                                 | Panic _ => True end
        else ahead x = Off
    end.
Proof.
  destruct outcome as [a|err|p]; cbn [finish].
  - unfold sbind, swrap. cbn [txnCommit kv_transaction kvCommit recorded_transaction]. unfold play. cbn [own ahead].
    destruct rest as [|ev rest]; [right; by eexists|]. case_decide; [|right; by eexists; split; [|rewrite decide_False]].
    destruct (done_of ev) as [u|err|p] eqn:Hd; cbn; right; eexists; (split; [done|]); rewrite decide_True by done;
      (split; [done|]); [by eexists|congruence|done].
  - cbn [txnRollback kv_transaction kvRollback recorded_transaction]. unfold play. cbn [own ahead].
    destruct rest as [|ev rest]; [right; by eexists|]. case_decide; [|right; by eexists; split; [|rewrite decide_False]].
    destruct (done_of ev) as [u|err'|p] eqn:Hd; right; eexists; (split; [done|]); rewrite decide_True by done; by split.
  - left. by exists p.
Qed.

Lemma finish_frozen t a outcome :
  (∀ rest, a ≠ Tape rest) → ahead (finish (mkPlayer t a) outcome).1 = a.
Proof.
  intros Ha. assert (∀ q (f : event → result unit), play q f (mkPlayer t a) = (mkPlayer t a, Err not_recorded)) as Hp.
  { intros q f. unfold play. cbn. destruct a; [by destruct (Ha rest)|done..]. }
  destruct outcome as [a'|err|p]; cbn [finish]; [unfold sbind, swrap| |done];
    cbn [txnCommit txnRollback kv_transaction kvCommit kvRollback recorded_transaction]; by rewrite Hp.
Qed.

(** the call that ends a transaction, answered *)
Lemma finish_answer t outcome ev :
  ¬ is_panic outcome → is_answer (match outcome with Ok _ => AskCommit t | _ => AskRollback t end) ev →
  ∃ r, ∀ more, finish (mkPlayer t (Tape (ev :: more))) outcome = (mkPlayer t (Tape more), r).
Proof.
  intros Hp Ha. destruct outcome as [a|err|p]; [| |by destruct Hp]; cbn [finish];
    [unfold sbind, swrap|]; cbn [txnCommit txnRollback kv_transaction kvCommit kvRollback recorded_transaction];
    unfold play; cbn [own ahead]; destruct (done_of ev) eqn:Hd; eexists; intros more; by rewrite decide_True.
Qed.

Lemma finish_asks t outcome :
  ¬ is_panic outcome →
  ahead (finish (mkPlayer t (Tape [])) outcome).1 = Asked (match outcome with Ok _ => AskCommit t | _ => AskRollback t end).
Proof. intros Hp. by destruct outcome; [..|destruct Hp]. Qed.

(** what became of a run on a recording: it used up a part of it and ended, it
    waits for an answer, or it left the recording *)
Definition progress {S A} (end_ : S → tape) (f : list event → S * A) (evs : list event) : Prop :=
  (∃ used rest r, evs = used ++ rest ∧ ∀ more, end_ (f (used ++ more)).1 = Tape more ∧ (f (used ++ more)).2 = r) ∨
  (∃ q, end_ (f evs).1 = Asked q ∧
     ∀ ev, is_answer q ev →
       (∃ r, ∀ more, end_ (f (evs ++ ev :: more)).1 = Tape more ∧ (f (evs ++ ev :: more)).2 = r) ∨
       ∃ q', end_ (f (evs ++ [ev])).1 = Asked q') ∨
  end_ (f evs).1 = Off.

Lemma transact_progress e t evs : progress ahead (λ evs, transact e (mkPlayer t (Tape evs))) evs.
Proof.
  unfold progress, transact.
  destruct (proj1 (resumes_Execute e) t evs) as [(used & rest & r & -> & Hr)|[(q & [err Hq] & _ & Hev)|(_ & err & He)]].
  - destruct (decide (is_panic r)) as [Hp|Hp].
    { left. exists used, rest, r. split; [done|]. intros more. rewrite (Hr more). by destruct r. }
    destruct rest as [|ev rest].
    + right; left. eexists. rewrite (Hr []). split; [by apply finish_asks|]. intros ev Ha. left.
      destruct (finish_answer t r ev Hp Ha) as [r' Hf]. exists r'. intros more.
      rewrite app_nil_r, (Hr (ev :: more)), Hf. done.
    + rewrite (Hr (ev :: rest)). destruct (decide (is_answer (match r with Ok _ => AskCommit t | _ => AskRollback t end) ev)) as [Ha|Ha].
      * left. destruct (finish_answer t r ev Hp Ha) as [r' Hf]. exists (used ++ [ev]), rest, r'.
        split; [by rewrite <-app_assoc|]. intros more. rewrite <-app_assoc. cbn [app]. by rewrite (Hr (ev :: more)), Hf.
      * right; right. pose proof (finish_cases t (ev :: rest) r) as Hf. destruct (finish _ r) as [x r']. cbn [fst].
        destruct Hf as [(p & -> & _)|(q & -> & Hf)]; [by destruct Hp|]. by rewrite decide_False in Hf.
  - right; left. exists q. rewrite Hq, finish_frozen by done. split; [done|]. intros ev Ha.
    destruct (Hev ev Ha) as [[r Hr]|[q' [err' Hq']]].
    + destruct (decide (is_panic r)) as [Hp|Hp]; [left|right].
      * exists r. intros more. specialize (Hr more). rewrite <-app_assoc in Hr. cbn in Hr. rewrite Hr. by destruct r.
      * eexists. specialize (Hr []). rewrite app_nil_r in Hr. rewrite Hr. by apply finish_asks.
    + right. exists q'. rewrite Hq'. by rewrite finish_frozen.
  - right; right. rewrite He. by rewrite finish_frozen.
Qed.

(** the calls of a transaction concern it; the one that ends it is the last *)
Lemma transact_asks e t rest q :
  ahead (transact e (mkPlayer t (Tape rest))).1 = Asked q →
  request_txn q = Some t ∧
  ∀ ev, is_answer q ev → is_end ev = true → ahead (transact e (mkPlayer t (Tape (rest ++ [ev])))).1 = Tape [].
Proof.
  unfold transact. destruct (proj1 (resumes_Execute e) t rest) as [(used & rest' & r & -> & Hr)|[(q' & [err Hq] & Hin & _)|(_ & err & He)]].
  - rewrite (Hr rest'). destruct (decide (is_panic r)) as [Hp|Hp]; [by destruct r|].
    pose proof (finish_cases t rest' r) as Hf. destruct (finish _ r) as [x r']. cbn [fst].
    destruct Hf as [(p & -> & _)|(q0 & Hq0 & Hf)]; [by destruct Hp|]. destruct rest' as [|ev rest'].
    + rewrite Hf. intros [= <-]. split; [subst q0; by destruct r|]. intros ev Ha Hev.
      rewrite app_nil_r, (Hr [ev]). pose proof (finish_cases t [ev] r) as Hf'. destruct (finish _ r) as [x2 r2]. cbn [fst].
      destruct Hf' as [(p & -> & _)|(q1 & Hq1 & Hf')]; [by destruct Hp|].
      rewrite decide_True in Hf' by (subst q0 q1; done). tauto.
    + case_decide; [destruct Hf as [-> _]|rewrite Hf]; done.
  - rewrite Hq. rewrite finish_frozen by done. intros [= <-]. split; [by destruct q'; cbn in *; subst|].
    intros ev Ha Hev. by destruct q', ev.
  - rewrite He. by rewrite finish_frozen.
Qed.

(** a statement makes finitely many calls, whatever they are answered *)
Lemma finish_stops t outcome evs : stops (λ evs, ahead (finish (mkPlayer t (Tape evs)) outcome).1) evs.
Proof.
  assert (∀ ev rest, stops (λ evs, ahead (finish (mkPlayer t (Tape evs)) outcome).1) (ev :: rest)) as Hcons.
  { intros ev rest. apply stops_done. intros q. pose proof (finish_cases t (ev :: rest) outcome) as Hf.
    destruct (finish _ outcome) as [x r]. cbn [fst]. destruct Hf as [(p & _ & -> & _)|(q' & _ & Hf)]; [done|].
    case_decide; [by destruct Hf as [-> _]|by rewrite Hf]. }
  destruct evs as [|ev rest]; [|apply Hcons]. constructor. intros q ev _ _. apply Hcons.
Qed.

Lemma transact_stops e t evs : stops (λ evs, ahead (transact e (mkPlayer t (Tape evs))).1) evs.
Proof.
  unfold transact. induction (proj2 (resumes_Execute e) t evs) as [evs _ IH].
  destruct (proj1 (resumes_Execute e) t evs) as [(used & rest & r & -> & Hr)|[(q & [err Hq] & _)|(_ & err & He)]].
  - apply (stops_shift _ (λ evs, ahead (finish (mkPlayer t (Tape evs)) r).1)); [|apply finish_stops]. intros rest'. by rewrite Hr.
  - constructor. intros q' ev. rewrite Hq, finish_frozen by done. intros [= <-]. apply IH. unfold tape_after. by rewrite Hq.
  - apply stops_done. intros q. by rewrite He, finish_frozen.
Qed.

Lemma session_stops sql evs : stops (λ evs, (Session_Execute (T := player) sql (Tape evs)).1) evs.
Proof.
  destruct (prepare sql) as [e|err|p] eqn:Hp; [|apply stops_done; intros q; unfold Session_Execute; by rewrite Hp..].
  assert (∀ ev rest, stops (λ evs, (Session_Execute (T := player) sql (Tape evs)).1) (ev :: rest)) as Hcons.
  { intros ev rest. destruct ev as [t| | | | | |];
      [|apply stops_done; intros q; by rewrite (Session_Execute_transact _ _ _ Hp)..].
    apply (stops_shift _ (λ evs, ahead (transact e (mkPlayer t (Tape evs))).1) [EvBegin t]); [|apply transact_stops].
    intros rest'. rewrite (Session_Execute_transact _ _ _ Hp). cbn. by destruct (transact e _). }
  destruct evs as [|ev rest]; [|apply Hcons]. constructor. intros q ev _ _. apply Hcons.
Qed.

Lemma transact_ends e t rest x r :
  transact e (mkPlayer t (Tape rest)) = (x, r) → ahead x = Tape [] → ending r (EvBegin t :: rest).
Proof.
  unfold transact. intros Hx Ha.
  destruct (proj1 (resumes_Execute e) t rest) as [(used & rest' & r0 & -> & Hr)|[(q' & [err Hq] & _)|(_ & err & He)]].
  - rewrite (Hr rest') in Hx. pose proof (finish_cases t rest' r0) as Hf. rewrite Hx in Hf.
    destruct Hf as [(p & _ & _ & ->)|(q & Hq & Hf)]; [done|]. destruct rest' as [|ev rest']; [congruence|].
    case_decide as Hans; [|congruence]. destruct Hf as [Hrest Hres]. rewrite Ha in Hrest. injection Hrest as <-.
    rewrite app_comm_cons. unfold ending. rewrite last_snoc.
    destruct r as [res|err|p]; [| |done]; destruct r0 as [a|err0|p0]; subst q; destruct ev; cbn in Hans; try done;
      try (by destruct Hres); eauto 10.
  - rewrite Hq in Hx. pose proof (finish_frozen t (Asked q') (Err err)) as Hf. rewrite Hx in Hf. cbn in Hf.
    by rewrite Hf in Ha.
  - rewrite He in Hx. pose proof (finish_frozen t Off (Err err)) as Hf. rewrite Hx in Hf. cbn in Hf.
    by rewrite Hf in Ha.
Qed.

(** a statement begins its transaction first, and every other call concerns it;
    with the answer to the call that ends it, it is done *)
Lemma session_asks sql past q :
  asks sql past q →
  (past = [] ∧ q = AskBegin) ∨
  ∃ t rest, past = EvBegin t :: rest ∧ request_txn q = Some t ∧
    ∀ ev, is_answer q ev → is_end ev = true → ∃ r, performs sql (past ++ [ev]) r.
Proof.
  unfold asks, performs. intros Hq. destruct (prepare sql) as [e|err|p] eqn:Hp;
    [|unfold Session_Execute in Hq; by rewrite Hp in Hq..].
  rewrite (Session_Execute_transact _ _ _ Hp) in Hq.
  destruct past as [|[t| | | | | |] rest]; cbn [fst] in Hq; try done; [injection Hq as <-; by left|].
  right. exists t, rest. split; [done|]. pose proof (transact_asks e t rest q) as Hask.
  destruct (transact e _) as [x r]. cbn [fst] in *. destruct (Hask Hq) as [Ht Hend]. split; [done|].
  intros ev Ha Hev. specialize (Hend ev Ha Hev). rewrite (Session_Execute_transact _ _ _ Hp). cbn [app].
  destruct (transact e _) as [x' r']. cbn [fst] in Hend. exists r'. by rewrite Hend.
Qed.

Lemma session_progress sql evs : progress id (λ evs, Session_Execute (T := player) sql (Tape evs)) evs.
Proof.
  destruct (prepare sql) as [e|err|p] eqn:Hp;
    [|left; exists [], evs; eexists; (split; [done|]); intros more; unfold Session_Execute; rewrite Hp; cbn; by split ..].
  unfold progress. setoid_rewrite (Session_Execute_transact _ _ _ Hp).
  destruct evs as [|[t| | | | | |] rest]; cbn [app fst id]; try (by right; right).
  - right; left. exists AskBegin. split; [done|]. intros [t| | | | | |] Ha; try done.
    destruct (transact_progress e t []) as [(used & rest & r & Heq & Hr)|[(q & Hq & _)|Hoff]].
    + symmetry in Heq. apply app_nil in Heq as [-> _]. left. exists r. intros more. destruct (Hr more) as [He Hr'].
      cbn in He, Hr'. by destruct (transact e _).
    + right. exists q. by destruct (transact e _).
    + exfalso. destruct (proj1 (resumes_Execute e) t []) as [(used & rest & r & Heq & Hr)|[(q & [err Hq] & _)|(Hne & _)]]; [| |done].
      * symmetry in Heq. apply app_nil in Heq as [-> ->]. specialize (Hr []). cbn in Hr, Hoff. unfold transact in Hoff.
        rewrite Hr in Hoff. by destruct r.
      * unfold transact in Hoff. by rewrite Hq, finish_frozen in Hoff.
  - destruct (transact_progress e t rest) as [(used & rest' & r & -> & Hr)|[(q & Hq & Hev)|Hoff]].
    + left. exists (EvBegin t :: used), rest', r. split; [done|]. intros more. destruct (Hr more) as [He Hr'].
      cbn [app]. by destruct (transact e _).
    + right; left. exists q. split; [by destruct (transact e _)|]. intros ev Ha.
      destruct (Hev ev Ha) as [[r Hr]|[q' Hq']]; [left|right].
      * exists r. intros more. destruct (Hr more) as [He Hr'].
        by destruct (transact e (mkPlayer t (Tape (rest ++ ev :: more)))).
      * exists q'. by destruct (transact e (mkPlayer t (Tape (rest ++ [ev])))).
    + right; right. by destruct (transact e _).
Qed.

Lemma performs_ends sql evs r : performs sql evs r → ending r evs.
Proof.
  unfold performs. intros Hr. destruct (prepare sql) as [e|err|p] eqn:Hp;
    [|unfold Session_Execute in Hr; rewrite Hp in Hr; injection Hr as -> <-; cbn; auto..].
  rewrite (Session_Execute_transact _ _ _ Hp) in Hr. destruct evs as [|[t| | | | | |] rest]; try done.
  destruct (transact e _) as [x r'] eqn:Hx. injection Hr as Ha ->. by eapply transact_ends.
Qed.

(** the same in the terms of [performs] and [asks] *)
Lemma performs_more sql used r more :
  performs sql used r → Session_Execute (T := player) sql (Tape (used ++ more)) = (Tape more, r).
Proof.
  unfold performs. intros Hp. destruct (session_progress sql used) as [(used' & rest & r' & -> & Hr)|[(q & Hq & _)|Hoff]].
  - destruct (Hr rest) as [He Hr']. rewrite Hp in He, Hr'. cbn in He, Hr'. injection He as <-.
    rewrite app_nil_r. destruct (Hr more) as [He Hr'']. unfold id in He.
    rewrite (surjective_pairing (Session_Execute sql (Tape (used' ++ more)))). congruence.
  - unfold id in Hq. by rewrite Hp in Hq.
  - unfold id in Hoff. by rewrite Hp in Hoff.
Qed.

Lemma session_cases sql evs :
  (∃ used rest r, evs = used ++ rest ∧ performs sql used r) ∨
  (∃ q, asks sql evs q ∧
     ∀ ev, is_answer q ev → (∃ r, performs sql (evs ++ [ev]) r) ∨ ∃ q', asks sql (evs ++ [ev]) q') ∨
  (Session_Execute (T := player) sql (Tape evs)).1 = Off.
Proof.
  unfold asks, performs. destruct (session_progress sql evs) as [(used & rest & r & -> & Hr)|[(q & Hq & Hev)|Hoff]].
  - left. exists used, rest, r. split; [done|]. destruct (Hr []) as [He Hr']. rewrite app_nil_r in He, Hr'.
    rewrite (surjective_pairing (Session_Execute sql _)). unfold id in He. congruence.
  - right; left. exists q. split; [done|]. intros ev Ha. destruct (Hev ev Ha) as [[r Hr]|[q' Hq']]; [left|right].
    + exists r. destruct (Hr []) as [He Hr']. rewrite (surjective_pairing (Session_Execute sql _)). unfold id in He. congruence.
    + by exists q'.
  - by right; right.
Qed.

(** ** A statement on an isolated recording *)

Context `{!JsonLaws}.
Implicit Types (m db : gmap bytes bytes) (d : reldb).

(** writes may fail at any time *)
Definition disturbed : regime := mkRegime 0 False.

(** the statement has its effect on the database of the snapshot *)
Lemma performs_effect m d sql evs r :
  isolated (m, m) evs → encodes m d → db_wf d → valid_utf8 sql = true → performs sql evs r →
  match r with
  | Ok res => ∃ d', statement_effect sql d res d' ∧ encodes (foldl track (m, m) evs).2 d' ∧ db_wf d'
  | Err _ => True
  | Panic _ => False
  end.
Proof.
  intros Hi He Hw Hutf Hp.
  pose ({| record_start := m; record_events := evs; record_isolated := Hi |} : Recording) as R.
  assert (holds (more disturbed) (Tape evs) d) as Hh.
  { exists m. split; [|done]. split; [by intros []|]. intros rest [= <-]. by exists []. }
  pose proof (Session_ok disturbed (Tape evs) d sql Hh Hutf) as Hs. unfold performs in Hp. rewrite Hp in Hs.
  destruct r as [res|err|p]; [|done..]. destruct Hs as (d' & Heff & db & [_ Hst] & Hed & Hwd).
  exists d'. split; [done|]. destruct (Hst [] eq_refl) as (past & Hev & Ht).
  rewrite app_nil_r in Hev. cbn in Hev, Ht. subst past. by rewrite Ht.
Qed.

End session.
