(* ===== verification/Rebase.v ===== *)
(** * Committing on a database that has changed

    A transaction begun on [d0] has made [d1] of it, and meanwhile others have
    committed [d].  [rebase d0 d1 d] is [d] with the transaction's changes;
    [compatible] says that nobody else changed what it changed. *)

From S2P Require Import Prelude Bytes Engine MvccKey Mvcc Snapshot Types Schema Transaction Executor Keys Json Relation ExecutorSafe ExecutorWrites Kv KvRefine Session Execute.

(** the new entry where it differs from the old one, else the current one *)
Definition merge3 {A} `{EqDecision A} (old new cur : gmap bytes A) : gmap bytes A :=
  merge (λ n oc, let '(o, c) := default (None, None) oc in if decide (n = o) then c else n) new
    (merge (λ o c, Some (o, c)) old cur).

Lemma lookup_merge3 {A} `{EqDecision A} (old new cur : gmap bytes A) k :
  merge3 old new cur !! k = if decide (new !! k = old !! k) then cur !! k else new !! k.
Proof.
  unfold merge3. rewrite lookup_merge. unfold diag_None. rewrite lookup_merge. unfold diag_None.
  by destruct (new !! k), (old !! k), (cur !! k); cbn; repeat case_decide.
Qed.

Definition rows_of (r : option relation) : gmap bytes Row := from_option rel_rows ∅ r.

Definition rebase (d0 d1 d : reldb) : reldb :=
  merge (λ n oc, let '(o, c) := default (None, None) oc in
    match n, c with
    | Some r1, Some r => Some (mkRelation (rel_schema r) (merge3 (rows_of o) (rel_rows r1) (rel_rows r)))
    | Some r1, None => Some r1
    | None, _ => c
    end) d1 (merge (λ o c, Some (o, c)) d0 d).

Lemma lookup_rebase d0 d1 d name :
  rebase d0 d1 d !! name =
    match d1 !! name, d !! name with
    | Some r1, Some r =>
        Some (mkRelation (rel_schema r) (merge3 (rows_of (d0 !! name)) (rel_rows r1) (rel_rows r)))
    | Some r1, None => Some r1
    | None, c => c
    end.
Proof.
  unfold rebase. rewrite lookup_merge. unfold diag_None. rewrite lookup_merge. unfold diag_None.
  by destruct (d1 !! name), (d0 !! name), (d !! name).
Qed.

(** the cells of a database: the schema of a table, the row of a key *)
Definition table_at (d : reldb) (name : bytes) : option Table := rel_schema <$> d !! name.
Definition row_in (d : reldb) (name k : bytes) : option Row := d !! name ≫= λ r, rel_rows r !! k.

(** what one changed, the other left as it was *)
Definition compatible (d0 d1 d : reldb) : Prop :=
  (∀ name, table_at d1 name ≠ table_at d0 name → table_at d name = table_at d0 name) ∧
  (∀ name k, row_in d1 name k ≠ row_in d0 name k → row_in d name k = row_in d0 name k).

(** tables stay, with their schema *)
Definition grows (d d' : reldb) : Prop := ∀ name t, table_at d name = Some t → table_at d' name = Some t.

#[export] Instance grows_preorder : PreOrder grows.
Proof. split; [by intros d name t|]. intros d1 d2 d3 H1 H2 name t Ht. by apply H2, H1. Qed.

(** ** Statements keep the tables *)

Lemma table_at_set_rows name t rows rows' d name' :
  d !! name = Some (mkRelation t rows) → table_at (set_rows name t rows' d) name' = table_at d name'.
Proof.
  intros Hd. unfold table_at, set_rows. destruct (decide (name = name')) as [<-|Hne].
  - by rewrite lookup_insert_eq, Hd.
  - by rewrite lookup_insert_ne.
Qed.

Lemma grows_set_rows name t rows rows' d :
  d !! name = Some (mkRelation t rows) → grows d (set_rows name t rows' d).
Proof. intros Hd name' t' Ht. by rewrite (table_at_set_rows _ _ _ _ _ _ Hd). Qed.

Lemma grows_create_rows name rows d d' : create_rows_spec name rows d = Some d' → grows d d'.
Proof.
  revert d. induction rows as [|row rows IH]; intros d; cbn; [by intros [= <-]|].
  destruct (create_row_spec name row d) as [d1|] eqn:E; cbn; [|done]. intros Hd.
  destruct (create_row_schema _ _ _ _ E) as (t & rs & rs' & Hdn & ->).
  etransitivity; [by eapply grows_set_rows|by apply IH].
Qed.

Lemma grows_update_rows name f rows d d' : update_rows_spec name f rows d = Some d' → grows d d'.
Proof.
  revert d. induction rows as [|row rows IH]; intros d; cbn; [by intros [= <-]|].
  destruct (update_row_spec name row (f row) d) as [d1|] eqn:E; cbn; [|done]. intros Hd.
  destruct (update_row_schema _ _ _ _ _ E) as (t & rs & rs' & Hdn & ->).
  etransitivity; [by eapply grows_set_rows|by apply IH].
Qed.

Lemma grows_delete_rows name rows d d' : delete_rows_spec name rows d = Some d' → grows d d'.
Proof.
  revert d. induction rows as [|row rows IH]; intros d; cbn; [by intros [= <-]|].
  unfold delete_row_spec at 1. destruct (d !! name) as [[t rs]|] eqn:Hdn; cbn; [|done]. intros Hd.
  etransitivity; [by eapply grows_set_rows|by apply IH].
Qed.

Lemma grows_effect e d r d' : effect e d r d' → grows d d'.
Proof.
  destruct e; cbn [effect]; try (by intros [-> _]).
  - intros [_ Hs]. unfold create_table_spec in Hs. case_decide; [|done].
    destruct (d !! tbl_Name schema) eqn:Hd; [done|]. injection Hs as <-. intros name t Ht.
    unfold table_at, set_rows in *. rewrite lookup_insert_ne; [done|]. intros <-. by rewrite Hd in Ht.
  - intros [_ (rel & rows & _ & _ & Hs)]. by eapply grows_create_rows.
  - intros (rel & c & rows & _ & _ & _ & _ & Hs). by eapply grows_update_rows.
  - intros (c & rows & _ & _ & Hs). by eapply grows_delete_rows.
Qed.

(** ** The cells of a rebased database *)

Section cells.
Context (d0 d1 d : reldb).
Context (Hgrow : grows d0 d) (Hgrow1 : grows d0 d1).

Lemma table_none d' name : table_at d' name = None ↔ d' !! name = None.
Proof. apply fmap_None. Qed.

Lemma row_in_none d' name k : table_at d' name = None → row_in d' name k = None.
Proof. intros Hn%table_none. unfold row_in. by rewrite Hn. Qed.

Lemma table_at_rebase name (mine : bool) :
  (if mine then table_at d name = table_at d0 name else table_at d1 name = table_at d0 name) →
  table_at (rebase d0 d1 d) name = if mine then table_at d1 name else table_at d name.
Proof.
  specialize (Hgrow name). specialize (Hgrow1 name). unfold table_at in *. rewrite lookup_rebase.
  destruct mine; destruct (d1 !! name) as [r1|], (d !! name) as [r|], (d0 !! name) as [r0|]; cbn in *;
    naive_solver.
Qed.

Lemma row_in_rebase name k (mine : bool) :
  (if mine then row_in d name k = row_in d0 name k else row_in d1 name k = row_in d0 name k) →
  row_in (rebase d0 d1 d) name k = if mine then row_in d1 name k else row_in d name k.
Proof.
  specialize (Hgrow name). specialize (Hgrow1 name). unfold table_at, row_in in *. rewrite lookup_rebase.
  destruct (d1 !! name) as [r1|], (d !! name) as [r|], (d0 !! name) as [r0|]; destruct mine; cbn in *; intros Hk;
    rewrite ?lookup_merge3, ?lookup_empty; try case_decide; try congruence; naive_solver.
Qed.

Lemma same_schema name r1 r :
  compatible d0 d1 d → d1 !! name = Some r1 → d !! name = Some r → rel_schema r1 = rel_schema r.
Proof.
  intros [Hc _] Hr1 Hr. specialize (Hc name). specialize (Hgrow name). specialize (Hgrow1 name).
  unfold table_at in *. rewrite Hr1, Hr in *. cbn in *.
  destruct (decide (Some (rel_schema r1) = rel_schema <$> d0 !! name)) as [Heq|Hne].
  - symmetry in Heq. specialize (Hgrow _ Heq). congruence.
  - specialize (Hc Hne). symmetry in Hc. specialize (Hgrow1 _ Hc). congruence.
Qed.

Lemma grows_rebase : grows d (rebase d0 d1 d).
Proof.
  intros name t Ht. unfold table_at in *. rewrite lookup_rebase.
  destruct (d1 !! name), (d !! name); done.
Qed.

Lemma rebase_wf : compatible d0 d1 d → db_wf d1 → db_wf d → db_wf (rebase d0 d1 d).
Proof.
  intros Hc Hw1 Hw name rel Hrel. rewrite lookup_rebase in Hrel.
  destruct (d1 !! name) as [r1|] eqn:Hr1, (d !! name) as [r|] eqn:Hr; simplify_eq;
    [|by apply (Hw1 name)|by apply (Hw name)].
  pose proof (same_schema name r1 r Hc Hr1 Hr) as Hs. pose proof (Hw1 _ _ Hr1) as H1. pose proof (Hw _ _ Hr) as H2.
  split; cbn; try apply H2. intros k row Hrow. rewrite lookup_merge3 in Hrow. case_decide.
  - by apply (wf_rows _ _ H2).
  - rewrite <-Hs. by apply (wf_rows _ _ H1).
Qed.

End cells.

(** ** The store of a rebased database *)

Section store.
Context `{!Json} `{!JsonLaws}.
Implicit Types (m : gmap bytes bytes) (d : reldb).

Lemma encodes_table m d name :
  encodes m d → option_Forall2 (λ b t, unmarshal_table b = Ok t) (m !! (x01 :: name)) (table_at d name).
Proof. intros He. unfold table_at. destruct (enc_table _ _ He name); by constructor. Qed.

Lemma encodes_row_in m d name k :
  encodes m d → name_ok name →
  option_Forall2 (λ b row, unmarshal_row b = Ok row) (m !! (row_prefix name ++ k)) (row_in d name k).
Proof. intros He. apply (enc_row _ _ He). Qed.

Lemma option_Forall2_functional {A B} (f : A → result B) (o : option A) (x y : option B) :
  option_Forall2 (λ a b, f a = Ok b) o x → option_Forall2 (λ a b, f a = Ok b) o y → x = y.
Proof. intros Hx Hy. inversion Hx; subst; inversion Hy; subst; congruence. Qed.

(** the same entry is the same cell *)
Lemma same_table m m' d d' name :
  encodes m d → encodes m' d' → m !! (x01 :: name) = m' !! (x01 :: name) → table_at d name = table_at d' name.
Proof.
  intros He He' Hm. eapply option_Forall2_functional; [by apply encodes_table|]. rewrite Hm. by apply encodes_table.
Qed.

Lemma same_row m m' d d' name k :
  encodes m d → encodes m' d' → db_wf d → db_wf d' →
  m !! (row_prefix name ++ k) = m' !! (row_prefix name ++ k) → row_in d name k = row_in d' name k.
Proof.
  intros He He' Hw Hw' Hm. destruct (decide (x00 ∈ name)) as [Hbad|Hok].
  - assert (∀ d, db_wf d → row_in d name k = None) as Hnone; [|by rewrite !Hnone].
    intros d2 Hw2. apply row_in_none, table_none. destruct (d2 !! name) eqn:E; [|done].
    by destruct (wf_name _ _ (Hw2 _ _ E)).
  - eapply option_Forall2_functional; [by apply encodes_row_in|]. rewrite Hm. by apply encodes_row_in.
Qed.

Lemma lookup_apply_cases w m k :
  (k ∈ dom w ∧ ∀ m', apply_writes w m !! k = apply_writes w m' !! k) ∨
  (k ∉ dom w ∧ ∀ m', apply_writes w m' !! k = m' !! k).
Proof.
  destruct (w !! k) as [x|] eqn:Hk; [left|right].
  - split; [by apply elem_of_dom|]. intros m'. by rewrite !lookup_apply_writes, Hk.
  - split; [by apply not_elem_of_dom|]. intros m'. by rewrite lookup_apply_writes, Hk.
Qed.

(** a transaction whose writes nobody else wrote *)
Lemma encodes_rebase m0 w m d0 d1 d :
  encodes m0 d0 → encodes (apply_writes w m0) d1 → encodes m d → db_wf d0 → db_wf d1 → db_wf d →
  grows d0 d → grows d0 d1 → (∀ k, k ∈ dom w → m !! k = m0 !! k) →
  compatible d0 d1 d ∧ encodes (apply_writes w m) (rebase d0 d1 d) ∧ db_wf (rebase d0 d1 d).
Proof.
  intros He0 He1 He Hw0 Hw1 Hw Hg Hg1 Hm.
  assert (compatible d0 d1 d) as Hc.
  { split.
    - intros name Hne. destruct (lookup_apply_cases w m0 (x01 :: name)) as [[Hin _]|[_ Hout]].
      + eapply same_table; [done|done|by apply Hm].
      + destruct Hne. eapply same_table; [done|done|by apply Hout].
    - intros name k Hne. destruct (lookup_apply_cases w m0 (row_prefix name ++ k)) as [[Hin _]|[_ Hout]].
      + eapply same_row; [done..|by apply Hm].
      + destruct Hne. eapply same_row; [done..|by apply Hout]. }
  split; [done|]. split; [|by apply rebase_wf]. split.
  - intros name. change (rel_schema <$> ?d !! ?n) with (table_at d n).
    assert (option_Forall2 (λ b t, unmarshal_table b = Ok t) (apply_writes w m !! (x01 :: name))
      (table_at (rebase d0 d1 d) name)) as Ht.
    { destruct (lookup_apply_cases w m (x01 :: name)) as [[Hin Hout]|[Hin Hout]].
      - rewrite (table_at_rebase d0 d1 d Hg Hg1 name true), (Hout m0); [by apply encodes_table|].
        eapply same_table; [done|done|by apply Hm].
      - rewrite (table_at_rebase d0 d1 d Hg Hg1 name false), Hout; [by apply encodes_table|].
        eapply same_table; [done|done|by apply Hout]. }
    unfold table_at in Ht. revert Ht. destruct (apply_writes w m !! _), (rebase d0 d1 d !! name); cbn;
      intros Ht; inversion Ht; subst; by constructor.
  - intros name k Hname. change (?o ≫= _) with (row_in (rebase d0 d1 d) name k).
    destruct (lookup_apply_cases w m (row_prefix name ++ k)) as [[Hin Hout]|[Hin Hout]].
    + rewrite (row_in_rebase d0 d1 d Hg Hg1 name k true), (Hout m0); [by apply encodes_row_in|].
      eapply same_row; [done..|by apply Hm].
    + rewrite (row_in_rebase d0 d1 d Hg Hg1 name k false), Hout; [by apply encodes_row_in|].
      eapply same_row; [done..|by apply Hout].
Qed.

End store.
