(* ===== verification/Concurrent.v ===== *)
(** * Statements that run at the same time

    Every connection of the server has a session of its own on the one engine,
    so the operations of their transactions interleave.  [sql_step] is what the
    database does then, statement by statement: each one works on the database
    as it was when it began, and takes effect at once when it commits, on
    whatever the database is by then, provided nobody changed what it changes.
    Every run of the MVCC layer in which the transactions are those of
    statements is a run of this machine. *)

From stdpp Require Import fin_sets fin_map_dom.
From S2P Require Import Prelude Bytes Engine MvccKey Mvcc MvccSpec MvccRefine MvccOps MvccReads Snapshot MvccSystem.
From S2P Require Import Types Schema Transaction Executor Json Relation Kv KvRefine KvMvcc Session Execute Recorded Rebase.

(** ** The machine *)

Record sdb := mkSdb { sd_db : reldb; sd_snaps : gmap version reldb }.

Inductive sql_event :=
  | SqlBegin (v : version)
  | SqlCommit (v : version) (sql : bytes) (r : result ResultSet)
  | SqlAbort (v : version) (sql : bytes) (r : result ResultSet)
  | SqlCrash.

Inductive sql_step (s : sdb) : sql_event → sdb → Prop :=
  | sql_begin v :
      sd_snaps s !! v = None → sql_step s (SqlBegin v) (mkSdb (sd_db s) (<[v := sd_db s]> (sd_snaps s)))
  | sql_commit v sql r d0 d1 :
      sd_snaps s !! v = Some d0 → statement_effect sql d0 r d1 → compatible d0 d1 (sd_db s) →
      sql_step s (SqlCommit v sql (Ok r)) (mkSdb (rebase d0 d1 (sd_db s)) (delete v (sd_snaps s)))
  | sql_abort v sql err d0 :
      sd_snaps s !! v = Some d0 →
      sql_step s (SqlAbort v sql (Err err)) (mkSdb (sd_db s) (delete v (sd_snaps s)))
  | sql_crash : sql_step s SqlCrash (mkSdb (sd_db s) ∅).

Inductive sql_run : sdb → list sql_event → sdb → Prop :=
  | sql_run_nil s : sql_run s [] s
  | sql_run_snoc s evs s1 ev s2 : sql_run s evs s1 → sql_step s1 ev s2 → sql_run s (evs ++ [ev]) s2.

Lemma sql_run_app s evs s1 evs' s2 : sql_run s evs s1 → sql_run s1 evs' s2 → sql_run s (evs ++ evs') s2.
Proof.
  intros H1 H2. induction H2 as [s1|s1 evs' s2 ev s3 _ IH Hs]; [by rewrite app_nil_r|].
  rewrite app_assoc. econstructor; [by apply IH|done].
Qed.

(** ** The transactions of a run *)

Definition event_version (ev : event) : option version :=
  match ev with
  | EvBegin t | EvWrite t _ _ _ | EvGet t _ _ | EvScan t _ _ | EvCommit t _ | EvRollback t _ => Some (ts_version t)
  | EvCrash => None
  end.

(** the operations of one transaction *)
Definition of_txn (v : version) (evs : list event) : list event := filter (λ ev, event_version ev = Some v) evs.

Definition ended_txn (ev : event) : option version :=
  match ev with EvCommit t _ | EvRollback t _ => Some (ts_version t) | _ => None end.

Section statements.
Context `{!Json} `{!MapOrder}.
Context (stmt : version → bytes) (outcome : version → result ResultSet).

(** the transaction [v], once it has ended, was the run of the statement [stmt v] with [outcome v] *)
Definition statements_run (evs : list event) : Prop :=
  ∀ before ev after v, evs = before ++ ev :: after → ended_txn ev = Some v →
    valid_utf8 (stmt v) = true ∧ performs (stmt v) (of_txn v (before ++ [ev])) (outcome v).

(** what a run is, statement by statement *)
Definition sql_event_of (ev : event) : option sql_event :=
  match ev with
  | EvBegin t => Some (SqlBegin (ts_version t))
  | EvCommit t _ => Some (SqlCommit (ts_version t) (stmt (ts_version t)) (outcome (ts_version t)))
  | EvRollback t _ => Some (SqlAbort (ts_version t) (stmt (ts_version t)) (outcome (ts_version t)))
  | EvCrash => Some SqlCrash
  | _ => None
  end.

End statements.

(** versions are used once *)
Definition fresh_begins (evs : list event) : Prop :=
  ∀ before t after, evs = before ++ EvBegin t :: after → of_txn (ts_version t) before = [].

Lemma of_txn_snoc v evs ev :
  of_txn v (evs ++ [ev]) = if decide (event_version ev = Some v) then of_txn v evs ++ [ev] else of_txn v evs.
Proof. unfold of_txn. rewrite filter_app. cbn. case_decide; [done|]. by rewrite app_nil_r. Qed.

(** ** Transactions of the snapshot machine *)

(** what another transaction committed is in [dirty], and nobody shares a write *)
Definition si_ok (p : si) : Prop :=
  (∀ v st, txns p !! v = Some st →
     dom (wset st) ## dirty st ∧ ∀ k, k ∉ dirty st → db p !! k = snap st !! k) ∧
  (∀ u v su sv, u ≠ v → txns p !! u = Some su → txns p !! v = Some sv → dom (wset su) ## dom (wset sv)).

Section machine.
Context (P : transactionState → bytes → slice → Prop).

Lemma si_ok_step p ev p' : si_ok p → si_step P p ev p' → si_ok p'.
Proof.
  intros [Hok Hdis] Hs. destruct Hs as [t Hn|t st k x Ht Hb Hf| | | | |t st Ht|t st Ht|ks Hks]; try done; split; cbn.
  - intros v st [[<- <-]|[Hne Hv]]%lookup_insert_Some; [split; [|done]; cbn; set_solver|exact (Hok _ _ Hv)].
  - intros u v su sv Hne [[<- <-]|[_ Hu]]%lookup_insert_Some [[<- <-]|[_ Hv]]%lookup_insert_Some;
      [done|cbn; set_solver|cbn; set_solver|exact (Hdis _ _ _ _ Hne Hu Hv)].
  - intros v st' [[<- <-]|[Hne Hv]]%lookup_insert_Some; [cbn|exact (Hok _ _ Hv)].
    destruct (Hok _ _ Ht) as [Hd Hk]. split; [|done]. rewrite dom_insert. unfold blocked in Hb. set_solver.
  - assert (∀ v sv, v ≠ ts_version t → txns p !! v = Some sv → dom (<[k:=x]> (wset st)) ## dom (wset sv)) as Hnew.
    { intros v sv Hne Hv. rewrite dom_insert. apply disjoint_union_l. split; [|by apply (Hdis (ts_version t) v)].
      apply disjoint_singleton_l. intros Hk. apply Hb. right. left. by exists v, sv. }
    intros u v su sv Hne [[<- <-]|[Hu' Hu]]%lookup_insert_Some [[<- <-]|[Hv' Hv]]%lookup_insert_Some;
      [done|by apply (Hnew v)|symmetry; by apply (Hnew u)|exact (Hdis _ _ _ _ Hne Hu Hv)].
  - intros v st'. rewrite lookup_fmap, fmap_Some. intros (sv & [Hne Hv]%lookup_delete_Some & ->).
    destruct (Hok _ _ Hv) as [Hd Hk]. cbn. split.
    + apply disjoint_union_r. split; [by apply (Hdis v (ts_version t))|done].
    + intros j Hj. rewrite lookup_apply_writes. destruct (wset st !! j) eqn:E; [|apply Hk; set_solver].
      destruct Hj. apply elem_of_union. left. apply elem_of_dom. by eexists.
  - intros u v su sv Hne. rewrite !lookup_fmap, !fmap_Some.
    intros (su' & [_ Hu]%lookup_delete_Some & ->) (sv' & [_ Hv]%lookup_delete_Some & ->). cbn. exact (Hdis _ _ _ _ Hne Hu Hv).
  - intros v st' [_ Hv]%lookup_delete_Some. exact (Hok _ _ Hv).
  - intros u v su sv Hne [_ Hu]%lookup_delete_Some [_ Hv]%lookup_delete_Some. exact (Hdis _ _ _ _ Hne Hu Hv).
Qed.

(** the operations of a transaction are those of one alone on its snapshot *)
Definition recorded_txn (evs : list event) v (st : sitxn) : Prop :=
  isolated (snap st, snap st) (of_txn v evs) ∧
  foldl track (snap st, snap st) (of_txn v evs) = (snap st, local st).

Lemma recorded_next evs v st st' ev :
  recorded_txn evs v st → snap st' = snap st → event_version ev = Some v →
  isolated1 (snap st, local st) ev → track (snap st, local st) ev = (snap st', local st') →
  recorded_txn (evs ++ [ev]) v st'.
Proof.
  intros [Hi Ht] Hsn Hev Hi1 Ht1. unfold recorded_txn. rewrite of_txn_snoc, decide_True by done.
  rewrite Hsn, isolated_app, foldl_app, Ht. split; [|cbn; by rewrite Ht1, Hsn]. split; [done|]. by split.
Qed.

Lemma recorded_other evs v st st' ev :
  recorded_txn evs v st → snap st' = snap st → local st' = local st → event_version ev ≠ Some v →
  recorded_txn (evs ++ [ev]) v st'.
Proof.
  intros Hr Hsn Hl Hev. unfold recorded_txn. rewrite of_txn_snoc, decide_False, Hsn, Hl by done. exact Hr.
Qed.

Lemma recorded_step evs p ev p' :
  (∀ v st, txns p !! v = Some st → recorded_txn evs v st) → fresh_begins (evs ++ [ev]) → si_step P p ev p' →
  ∀ v st, txns p' !! v = Some st → recorded_txn (evs ++ [ev]) v st.
Proof.
  intros Hr Hfresh Hs. destruct Hs as [t Hn|t st0 k x Ht Hb Hf|t st0 k x Ht Hb|t st0 k x msg err Ht Hb Hf
    |t st0 k Ht|t st0 prefix es Ht Hes|t st0 Ht|t st0 Ht|ks Hks]; cbn; intros v st Hv.
  - apply lookup_insert_Some in Hv as [[<- <-]|[Hne Hv]].
    + pose proof (Hfresh evs t [] eq_refl) as Hnil. unfold recorded_txn. rewrite of_txn_snoc, decide_True, Hnil by done.
      cbn. split; [done|]. unfold local. cbn. by rewrite apply_writes_empty.
    + eapply recorded_other; [by apply Hr|done|done|]. cbn. congruence.
  - apply lookup_insert_Some in Hv as [[<- <-]|[Hne Hv]].
    + eapply recorded_next; [by apply Hr|done|done|done|]. cbn. f_equal. unfold local. cbn.
      rewrite apply_writes_insert. by destruct x.
    + eapply recorded_other; [by apply Hr|done|done|]. cbn. congruence.
  - destruct (decide (ts_version t = v)) as [<-|Hne].
    + rewrite Ht in Hv. injection Hv as <-. by eapply recorded_next; [apply Hr|..].
    + eapply recorded_other; [by apply Hr|done|done|]. cbn. congruence.
  - destruct (decide (ts_version t = v)) as [<-|Hne].
    + rewrite Ht in Hv. injection Hv as <-. by eapply recorded_next; [apply Hr|..].
    + eapply recorded_other; [by apply Hr|done|done|]. cbn. congruence.
  - destruct (decide (ts_version t = v)) as [<-|Hne].
    + rewrite Ht in Hv. injection Hv as <-. by eapply recorded_next; [apply Hr|..].
    + eapply recorded_other; [by apply Hr|done|done|]. cbn. congruence.
  - destruct (decide (ts_version t = v)) as [<-|Hne].
    + rewrite Ht in Hv. injection Hv as <-. eapply recorded_next; [by apply Hr|done|done| |done]. cbn. by exists es.
    + eapply recorded_other; [by apply Hr|done|done|]. cbn. congruence.
  - rewrite lookup_fmap, fmap_Some in Hv. destruct Hv as (sv & [Hne Hv]%lookup_delete_Some & ->).
    eapply recorded_other; [by apply Hr|done|done|]. cbn. congruence.
  - apply lookup_delete_Some in Hv as [Hne Hv]. eapply recorded_other; [by apply Hr|done|done|]. cbn. congruence.
  - by rewrite lookup_empty in Hv.
Qed.

(** the whole recording of a transaction that commits *)
Lemma recorded_commit evs p t st :
  recorded_txn evs (ts_version t) st → txns p !! ts_version t = Some st →
  isolated (snap st, snap st) (of_txn (ts_version t) (evs ++ [EvCommit t (Ok ())])) ∧
  foldl track (snap st, snap st) (of_txn (ts_version t) (evs ++ [EvCommit t (Ok ())])) = (local st, local st).
Proof.
  intros [Hi Ht] Hst. rewrite of_txn_snoc, decide_True by done. rewrite isolated_app, foldl_app, Ht. by repeat split.
Qed.

Lemma recorded_rollback evs p t st :
  recorded_txn evs (ts_version t) st → txns p !! ts_version t = Some st →
  isolated (snap st, snap st) (of_txn (ts_version t) (evs ++ [EvRollback t (Ok ())])).
Proof.
  intros [Hi Ht] Hst. rewrite of_txn_snoc, decide_True by done. rewrite isolated_app, Ht. by repeat split.
Qed.

End machine.

(** ** Every run is a run of statements *)

Section refinement.
Context (P : transactionState → bytes → slice → Prop) `{!Json} `{!JsonLaws} `{!MapOrder}.
Context (stmt : version → bytes) (outcome : version → result ResultSet).
Abbreviation runs_of := (statements_run stmt outcome).
Abbreviation sql_of := (sql_event_of stmt outcome).

Record represents (p : si) (s : sdb) : Prop := {
  rp_db : encodes (db p) (sd_db s);
  rp_wf : db_wf (sd_db s);
  rp_snaps v : option_Forall2 (λ st d0, encodes (snap st) d0 ∧ db_wf d0 ∧ grows d0 (sd_db s))
                 (txns p !! v) (sd_snaps s !! v);
}.

Lemma represents_txn p s v st :
  represents p s → txns p !! v = Some st →
  ∃ d0, sd_snaps s !! v = Some d0 ∧ encodes (snap st) d0 ∧ db_wf d0 ∧ grows d0 (sd_db s).
Proof. intros Hr Hv. pose proof (rp_snaps _ _ Hr v) as Hsn. rewrite Hv in Hsn. inversion Hsn; subst. eauto. Qed.

Lemma represents_none p s v : represents p s → txns p !! v = None → sd_snaps s !! v = None.
Proof. intros Hr Hv. pose proof (rp_snaps _ _ Hr v) as Hsn. rewrite Hv in Hsn. by inversion Hsn. Qed.

Lemma commit_refines evs p s t st :
  represents p s → si_ok p → recorded_txn evs (ts_version t) st → runs_of (evs ++ [EvCommit t (Ok ())]) →
  txns p !! ts_version t = Some st →
  ∃ s', represents (mkSi (apply_writes (wset st) (db p))
           (set_dirty (dom (wset st)) <$> delete (ts_version t) (txns p)) (orphans p)) s' ∧
    sql_step s (SqlCommit (ts_version t) (stmt (ts_version t)) (outcome (ts_version t))) s'.
Proof.
  intros Hr Hok Hrec Hruns Hst. destruct (represents_txn _ _ _ _ Hr Hst) as (d0 & Hd0 & He0 & Hw0 & Hg).
  destruct (recorded_commit _ _ _ _ Hrec Hst) as [Hiso Htrack].
  destruct (Hruns evs _ [] (ts_version t) eq_refl eq_refl) as [Hutf Hperf].
  pose proof (performs_effect (snap st) d0 _ _ _ Hiso He0 Hw0 Hutf Hperf) as Heff.
  pose proof (performs_ends _ _ _ Hperf) as Hend. rewrite of_txn_snoc, decide_True in Hend by done.
  destruct (outcome (ts_version t)) as [r|err|pa]; [| |done].
  2:{ unfold ending in Hend. rewrite last_snoc in Hend. destruct Hend as [[]%app_nil|(? & ? & [[=]|[[= _ <-] ?]])]; done. }
  destruct Heff as (d1 & Heff & He1 & Hw1). rewrite Htrack in He1. cbn [snd] in He1.
  assert (grows d0 d1) as Hg1 by (destruct Heff as (e & _ & He); by eapply grows_effect).
  destruct Hok as [Hown _]. destruct (Hown _ _ Hst) as [Hdis Hsame].
  destruct (encodes_rebase (snap st) (wset st) (db p) d0 d1 (sd_db s)) as (Hc & He & Hw);
    try done; [apply Hr|apply Hr|intros k Hk; apply Hsame; set_solver|].
  eexists. split; [|by eapply sql_commit]. split; cbn; [done|done|]. intros v.
  rewrite lookup_fmap. destruct (decide (v = ts_version t)) as [->|Hne].
  - rewrite !lookup_delete_eq. constructor.
  - rewrite !lookup_delete_ne by done. destruct (rp_snaps _ _ Hr v) as [st' d' (? & ? & ?)|]; constructor.
    split; [done|]. split; [done|]. etransitivity; [done|]. by apply grows_rebase.
Qed.

Lemma rollback_refines evs p s t st :
  represents p s → recorded_txn evs (ts_version t) st → runs_of (evs ++ [EvRollback t (Ok ())]) →
  txns p !! ts_version t = Some st →
  ∃ s', represents (mkSi (db p) (delete (ts_version t) (txns p)) (orphans p)) s' ∧
    sql_step s (SqlAbort (ts_version t) (stmt (ts_version t)) (outcome (ts_version t))) s'.
Proof.
  intros Hr Hrec Hruns Hst. destruct (represents_txn _ _ _ _ Hr Hst) as (d0 & Hd0 & He0 & Hw0 & Hg).
  pose proof (recorded_rollback _ _ _ _ Hrec Hst) as Hiso.
  destruct (Hruns evs _ [] (ts_version t) eq_refl eq_refl) as [Hutf Hperf].
  pose proof (performs_effect (snap st) d0 _ _ _ Hiso He0 Hw0 Hutf Hperf) as Heff.
  pose proof (performs_ends _ _ _ Hperf) as Hend. rewrite of_txn_snoc, decide_True in Hend by done.
  destruct (outcome (ts_version t)) as [r|err|pa]; [| |done].
  { destruct Hend as (? & ? & Hend). by rewrite last_snoc in Hend. }
  eexists. split; [|by eapply sql_abort]. split; cbn; [apply Hr|apply Hr|]. intros v.
  destruct (decide (v = ts_version t)) as [->|Hne].
  - rewrite !lookup_delete_eq. constructor.
  - rewrite !lookup_delete_ne by done. apply Hr.
Qed.

Lemma step_refines evs p ev p' s :
  represents p s → si_ok p → (∀ v st, txns p !! v = Some st → recorded_txn evs v st) →
  runs_of (evs ++ [ev]) → si_step P p ev p' →
  ∃ s', represents p' s' ∧ match sql_of ev with Some x => sql_step s x s' | None => s' = s end.
Proof.
  intros Hr Hok Hrec Hruns Hs. destruct Hs as [t Hn|t st k x Ht Hb Hf|t st k x Ht Hb|t st k x msg err Ht Hb Hf
    |t st k Ht|t st prefix es Ht Hes|t st Ht|t st Ht|ks Hks]; cbn [sql_event_of]; try (by exists s).
  - eexists. split; [|apply sql_begin; by eapply represents_none]. split; cbn; [apply Hr|apply Hr|]. intros v.
    destruct (decide (v = ts_version t)) as [->|Hne].
    + rewrite !lookup_insert_eq. constructor. by split; [apply Hr|split; [apply Hr|]].
    + rewrite !lookup_insert_ne by done. apply Hr.
  - exists s. split; [|done]. split; cbn; [apply Hr|apply Hr|]. intros v.
    destruct (decide (v = ts_version t)) as [->|Hne].
    + rewrite lookup_insert_eq. pose proof (rp_snaps _ _ Hr (ts_version t)) as Hsn. rewrite Ht in Hsn.
      inversion Hsn; subst. by constructor.
    + rewrite lookup_insert_ne by done. apply Hr.
  - by eapply commit_refines; [..|by apply Hrec| |].
  - by eapply rollback_refines; [..|by apply Hrec| |].
  - eexists. split; [|apply sql_crash]. split; cbn; [apply Hr|apply Hr|]. intros v. rewrite !lookup_empty. constructor.
Qed.

Lemma runs_of_prefix evs ev : runs_of (evs ++ [ev]) → runs_of evs.
Proof. intros Hr before e after v -> Hv. apply (Hr before e (after ++ [ev])); [by rewrite <-app_assoc|done]. Qed.

Lemma fresh_begins_prefix evs ev : fresh_begins (evs ++ [ev]) → fresh_begins evs.
Proof. intros Hr before t after ->. apply (Hr before t (after ++ [ev])). by rewrite <-app_assoc. Qed.

(** the operations of [v] are those of a transaction alone on some database *)
Definition alone_in (evs : list event) (v : version) : Prop :=
  ∃ m d, isolated (m, m) (of_txn v evs) ∧ encodes m d ∧ db_wf d.

Lemma alone_in_step evs p ev p' s s' :
  represents p s → represents p' s' → (∀ v st, txns p !! v = Some st → recorded_txn evs v st) →
  (∀ v st, txns p' !! v = Some st → recorded_txn (evs ++ [ev]) v st) → si_step P p ev p' →
  (∀ v, alone_in evs v) → ∀ v, alone_in (evs ++ [ev]) v.
Proof.
  intros Hr Hr' Hrec Hrec' Hs Hal v. destruct (txns p' !! v) as [st|] eqn:Hv.
  { destruct (represents_txn _ _ _ _ Hr' Hv) as (d & _ & He & Hw & _). exists (snap st), d. by destruct (Hrec' v st Hv). }
  destruct (decide (event_version ev = Some v)) as [Hev|Hev].
  2:{ destruct (Hal v) as (m & d & ?). exists m, d. by rewrite of_txn_snoc, decide_False. }
  destruct Hs as [t Hn|t st k x Ht Hb Hf|t st k x Ht Hb|t st k x msg err Ht Hb Hf
    |t st k Ht|t st prefix es Ht Hes|t st Ht|t st Ht|ks Hks]; cbn in Hev, Hv; try injection Hev as <-;
    try (rewrite ?lookup_insert_eq in Hv; congruence); try done;
    destruct (represents_txn _ _ _ _ Hr Ht) as (d & _ & He & Hw & _); exists (snap st), d; (split; [|done]).
  - by eapply recorded_commit; [apply Hrec|].
  - by eapply recorded_rollback; [apply Hrec|].
Qed.

Lemma run_refines p0 s0 evs p :
  represents p0 s0 → txns p0 = ∅ → si_run P p0 evs p → fresh_begins evs → runs_of evs →
  ∃ s, sql_run s0 (omap sql_of evs) s ∧ represents p s ∧ ∀ v, alone_in evs v.
Proof.
  intros Hrep0 Hnone Hrun Hf Hr.
  assert (∃ s, sql_run s0 (omap sql_of evs) s ∧ represents p s ∧ (∀ v, alone_in evs v) ∧ si_ok p ∧
    ∀ v st, txns p !! v = Some st → recorded_txn evs v st) as (s & ? & ? & ? & _); [|by exists s].
  induction Hrun as [p0|p0 evs p1 ev p2 _ IH Hs].
  - exists s0. split; [constructor|]. split; [done|]. split; [|split; [split; rewrite Hnone|rewrite Hnone]].
    + intros v. exists ∅, ∅. split; [done|]. split; [apply encodes_empty|apply map_Forall_empty].
    + intros v st. by rewrite lookup_empty.
    + intros u v su sv _. by rewrite lookup_empty.
    + intros v st. by rewrite lookup_empty.
  - destruct (IH Hrep0 Hnone (fresh_begins_prefix _ _ Hf) (runs_of_prefix _ _ Hr)) as (s & Hsql & Hrep & Hal & Hok & Hrec).
    destruct (step_refines _ _ _ _ _ Hrep Hok Hrec Hr Hs) as (s' & Hrep' & Hstep).
    pose proof (recorded_step _ _ _ _ _ Hrec Hf Hs) as Hrec'.
    exists s'. split; [|split; [done|split; [exact (alone_in_step _ _ _ _ _ _ Hrep Hrep' Hrec Hrec' Hs Hal)|split; [by eapply si_ok_step|done]]]].
    rewrite omap_app. cbn. destruct (sql_of ev) as [x|]; cbn.
    + by econstructor.
    + rewrite app_nil_r. by subst s'.
Qed.

End refinement.

Lemma app_snoc_cases {A} (l before after : list A) x y :
  l ++ [x] = before ++ y :: after →
  (after = [] ∧ l = before ∧ x = y) ∨ ∃ after', after = after' ++ [x] ∧ l = before ++ y :: after'.
Proof.
  destruct after as [|z after] using rev_ind; intros Heq; [left|right].
  - by apply app_inj_tail in Heq as [-> ->].
  - rewrite app_comm_cons, app_assoc in Heq. apply app_inj_tail in Heq as [-> ->]. by exists after.
Qed.

Lemma of_txn_nil v evs : Forall (λ ev, event_version ev ≠ Some v) evs → of_txn v evs = [].
Proof. induction 1 as [|ev evs Hev _ IH]; [done|]. unfold of_txn. rewrite filter_cons. by rewrite decide_False. Qed.

(** ** The MVCC code *)

Section system.
Context {E : Type} `{EngineLaws E} `{!Json} `{!JsonLaws} `{!MapOrder}.

Lemma event_below s (c : sys (E := E)) p ev c' v :
  sim s c p → sys_step c ev c' → event_version ev = Some v →
  v < next s + match ev with EvBegin _ => 1 | _ => 0 end ∧ (∀ t, ev = EvBegin t → v = next s).
Proof.
  intros Hs Hstep Hv. pose proof (Rep_wf _ _ (sim_rep _ _ _ Hs)) as Hwf.
  assert (∀ t, t ∈ sys_open c → ts_version t < next s) as Hopen.
  { intros t Ht. by apply (wf_active _ Hwf), (ok_active _ _ (sim_ok _ _ _ Hs t Ht)). }
  destruct Hstep as [e e' ts t HB Hlt| | | | | | |]; cbn in Hv; try injection Hv as <-; try done;
    try (split; [|done]; rewrite Z.add_0_r; by apply Hopen).
  rewrite (Begin_version _ _ _ _ (sim_rep _ _ _ Hs) HB). split; [lia|done].
Qed.

(** versions are used once *)
Lemma run_fresh_begins s0 (c0 : sys (E := E)) p0 evs c :
  sim s0 c0 p0 → sys_run c0 evs c →
  ∃ s p, si_run too_big p0 evs p ∧ sim s c p ∧ next s = next s0 + begins evs ∧ fresh_begins evs.
Proof.
  intros Hs0 Hrun.
  assert (∃ s p, si_run too_big p0 evs p ∧ sim s c p ∧ next s = next s0 + begins evs ∧ fresh_begins evs ∧
    Forall (λ ev, ∀ v, event_version ev = Some v → v < next s) evs) as (s & p & ? & ? & ? & ? & _); [|by exists s, p].
  induction Hrun as [c|c evs c1 ev c2 _ IH Hstep].
  - exists s0, p0. split; [constructor|]. split; [done|].
    split; [unfold begins; cbn; lia|]. split; [|constructor]. by intros [|] ? ? [=].
  - destruct (IH Hs0) as (s & p & Hr & Hs & Hn & Hfr & Hall).
    destruct (step_sim _ _ _ _ _ Hs Hstep) as (s2 & p2 & Hst & Hs2 & Hn2).
    exists s2, p2. split; [by econstructor|]. split; [done|]. split; [|split].
    + rewrite Hn2, Hn. unfold begins. rewrite filter_app, length_app.
      destruct ev; cbn [is_begin filter list_filter]; rewrite ?decide_True, ?decide_False by done; cbn [length]; lia.
    + intros before t after Heq. destruct (app_snoc_cases _ _ _ _ _ Heq) as [(-> & -> & ->)|(after' & -> & ->)].
      * apply of_txn_nil, (Forall_impl _ _ _ Hall). intros ev' Hev' Hv.
        specialize (Hev' _ Hv). destruct (event_below _ _ _ _ _ _ Hs Hstep eq_refl) as [_ Heqv].
        rewrite (Heqv t eq_refl) in Hev'. lia.
      * by eapply Hfr.
    + apply Forall_app. split.
      * eapply Forall_impl; [exact Hall|]. intros ev' Hev' v Hv. specialize (Hev' v Hv). rewrite Hn2. destruct ev; lia.
      * repeat constructor. intros v Hv. destruct (event_below _ _ _ _ _ _ Hs Hstep Hv) as [Hlt _].
        rewrite Hn2. destruct ev; lia.
Qed.

(** a database at rest holds [d] and has no open transaction; the keys of those
    that were open in a crash are locked *)
Definition at_rest (left : nat) (c : sys (E := E)) (d : reldb) : Prop :=
  steady (sys_engine c) ∧ sys_open c = [] ∧ holds (mkRegime left False) (sys_engine c) d.

Lemma fresh_at_rest left (c : sys (E := E)) : fresh c → 1 + Z.of_nat left ≤ max_uint64 → at_rest left c ∅.
Proof. intros (Hu & Hst & Hc & Ho) Hl. split; [done|]. split; [done|]. by apply kv_holds_empty; [..|intros []]. Qed.

Lemma at_rest_sim left c d :
  at_rest left c d →
  ∃ s p, sim s c p ∧ next s + Z.of_nat left ≤ max_uint64 ∧ represents p (mkSdb d ∅) ∧ txns p = ∅.
Proof.
  intros (Hst & Ho & db & (s & HR & Hn & _ & <-) & He & Hw). cbn [room] in Hn.
  set (locked := set_map fst (dom (filter (λ kx, kx.1.2 ∈ active s) (versions s))) : gset bytes).
  exists s, (mkSi (committed s) ∅ locked). split; [|split; [done|split; [|done]]].
  - split; rewrite ?Ho; cbn; try set_solver; try done. intros k. subst locked. rewrite elem_of_map. split.
    + intros ([k' v] & -> & [x [Hx Ha]%map_lookup_filter_Some]%elem_of_dom). exists v. cbn in *.
      split; [done|]. split; [by eexists|]. by intros t Ht%elem_of_nil.
    + intros (v & Ha & [x Hx] & _). exists (k, v). split; [done|]. apply elem_of_dom. exists x.
      by apply map_lookup_filter_Some.
  - split; cbn; [done|done|]. intros v. rewrite !lookup_empty. constructor.
Qed.

(** a running system whose statements have made [s] of the database, with room
    for [left] more transactions *)
Definition live (left : nat) (c : sys (E := E)) (s : sdb) : Prop :=
  ∃ ms p, sim ms c p ∧ next ms + Z.of_nat left ≤ max_uint64 ∧ represents p s.

Lemma live_holds left c s : live left c s → holds (mkRegime left False) (sys_engine c) (sd_db s).
Proof.
  intros (ms & p & Hsim & Hn & Hrep). exists (db p). split; [|by split; apply Hrep]. exists ms.
  split; [apply Hsim|]. split; [done|]. split; [by intros []|apply Hsim].
Qed.

End system.
