(* ===== verification/Sessions.v ===== *)
(** * Sessions that run at the same time

    [conc_run]: sessions on one engine, each of which runs one statement and
    makes its calls one at a time, in any order between the sessions.  What a
    session calls next is what the code of [Session_Execute] calls, given the
    answers it had so far.  A connection that sends several statements is
    several sessions here, one after the other. *)

From stdpp Require Import fin_sets fin_map_dom functions.
From S2P Require Import Prelude Bytes Engine MvccKey Mvcc MvccSpec MvccRefine MvccOps MvccReads Snapshot MvccSystem.
From S2P Require Import Types Schema Transaction Executor Json Relation Kv KvRefine KvMvcc Session Execute Recorded Rebase Concurrent.

(** the calls made so far, each with the session that made it, by its name in
    [K]; a crash has none *)
Abbreviation calls_log K := (list (option K * event)).

Definition calls_of `{EqDecision K} (i : K) (l : calls_log K) : list event := (filter (λ p, p.1 = Some i) l).*2.

Lemma calls_of_snoc `{EqDecision K} (i : K) l p :
  calls_of i (l ++ [p]) = if decide (p.1 = Some i) then calls_of i l ++ [p.2] else calls_of i l.
Proof.
  unfold calls_of. rewrite filter_app, fmap_app. cbn. case_decide; [done|]. by rewrite app_nil_r.
Qed.

Section sessions.
Context {E : Type} `{EngineLaws E} `{!Json} `{!MapOrder} `{EqDecision K} (sqls : K → bytes).
Abbreviation system := (sys (E := E)).

Inductive conc_run (c0 : system) : calls_log K → system → Prop :=
  | conc_nil : conc_run c0 [] c0
  | conc_call l c i q ev c' :
      conc_run c0 l c → asks (sqls i) (calls_of i l) q → is_answer q ev → sys_step c ev c' →
      conc_run c0 (l ++ [(Some i, ev)]) c'
  | conc_crash l c c' :
      conc_run c0 l c → sys_step c EvCrash c' → conc_run c0 (l ++ [(None, EvCrash)]) c'.

Lemma conc_run_sys c0 l c : conc_run c0 l c → sys_run c0 l.*2 c.
Proof. induction 1; [constructor|..]; rewrite fmap_app; by econstructor. Qed.

(** the calls of a session are the operations of its transaction, and none
    follows the one that ends it *)
Record owns (stmt : version → bytes) (outcome : version → result ResultSet) (l : calls_log K) : Prop := {
  owns_calls i :
    calls_of i l = [] ∨ ∃ t rest, calls_of i l = EvBegin t :: rest ∧
      of_txn (ts_version t) l.*2 = calls_of i l ∧ stmt (ts_version t) = sqls i;
  owns_once i j t r t' r' :
    calls_of i l = EvBegin t :: r → calls_of j l = EvBegin t' :: r' → ts_version t = ts_version t' → i = j;
  owns_ended i ev : ev ∈ calls_of i l → is_end ev = true → ∃ r, performs (sqls i) (calls_of i l) r;
  owns_runs : statements_run stmt outcome l.*2;
}.

Lemma is_end_version ev v : ended_txn ev = Some v → is_end ev = true ∧ event_version ev = Some v.
Proof. destruct ev; naive_solver. Qed.

Lemma asks_performs sql evs q r : asks sql evs q → ¬ performs sql evs r.
Proof. unfold asks, performs. intros Ha Hp. by rewrite Hp in Ha. Qed.

Lemma answer_version q ev t : is_answer q ev → request_txn q = Some t → event_version ev = Some (ts_version t).
Proof. destruct q, ev; cbn; try done; intros Ha [= <-]; destruct_and?; by subst. Qed.

Lemma answer_begin q ev : is_answer q ev → (∃ t, ev = EvBegin t) ↔ q = AskBegin.
Proof. destruct q, ev; cbn; naive_solver. Qed.

(** a run stays one of statements when an operation is added that ends nothing *)
Lemma statements_run_snoc stmt outcome evs ev :
  statements_run stmt outcome evs → ended_txn ev = None → statements_run stmt outcome (evs ++ [ev]).
Proof.
  intros Hr Hn before ev' after v Heq Hv.
  destruct (app_snoc_cases _ _ _ _ _ Heq) as [(-> & -> & ->)|(after' & -> & ->)]; [congruence|].
  by eapply Hr.
Qed.

Lemma statements_run_ext stmt outcome stmt' outcome' evs :
  statements_run stmt outcome evs →
  (∀ ev v, ev ∈ evs → ended_txn ev = Some v → stmt' v = stmt v ∧ outcome' v = outcome v) →
  statements_run stmt' outcome' evs.
Proof.
  intros Hr Hx before ev after v Heq Hv. destruct (Hx ev v) as [-> ->]; [rewrite Heq; set_solver|done|].
  by eapply Hr.
Qed.

Lemma of_txn_elem v evs ev : ev ∈ of_txn v evs ↔ event_version ev = Some v ∧ ev ∈ evs.
Proof. unfold of_txn. by rewrite list_elem_of_filter. Qed.

Lemma owns_crash stmt outcome l : owns stmt outcome l → owns stmt outcome (l ++ [(None, EvCrash)]).
Proof.
  intros [Hc Ho He Hr].
  assert (∀ i, calls_of i (l ++ [(None, EvCrash)]) = calls_of i l) as Hcalls by (intros; by rewrite calls_of_snoc).
  split.
  - intros i. rewrite Hcalls, fmap_app. cbn. setoid_rewrite of_txn_snoc. cbn. apply Hc.
  - intros i j t r t' r'. rewrite !Hcalls. apply Ho.
  - intros i ev. rewrite Hcalls. apply He.
  - rewrite fmap_app. by apply statements_run_snoc.
Qed.

(** a session that begins its transaction *)
Lemma owns_begin stmt outcome l i t :
  owns stmt outcome l → calls_of i l = [] → of_txn (ts_version t) l.*2 = [] → 
  owns (<[ts_version t := sqls i]> stmt) outcome (l ++ [(Some i, EvBegin t)]).
Proof.
  intros [Hc Ho He Hr] Hi Hnil.
  assert (∀ ev, ev ∈ l.*2 → event_version ev ≠ Some (ts_version t)) as Hnew.
  { intros ev Hin Hv. assert (ev ∈ of_txn (ts_version t) l.*2) as Hin' by by apply of_txn_elem.
    rewrite Hnil in Hin'. by apply not_elem_of_nil in Hin'. }
  assert (∀ j t' rest, calls_of j l = EvBegin t' :: rest → ts_version t' ≠ ts_version t) as Hne.
  { intros j t' rest Hj Heq. destruct (Hc j) as [Hj'|(t2 & rest2 & Hj' & Hof & _)]; [congruence|].
    rewrite Hj' in Hj. injection Hj as -> ->. rewrite Heq, Hnil, Hj' in Hof. done. }
  assert (∀ j, calls_of j (l ++ [(Some i, EvBegin t)]) = if decide (j = i) then [EvBegin t] else calls_of j l) as Hcalls.
  { intros j. rewrite calls_of_snoc. cbn. destruct (decide (j = i)) as [->|Hj].
    - rewrite decide_True by done. by rewrite Hi.
    - rewrite decide_False; [done|congruence]. }
  split.
  - intros j. rewrite Hcalls, fmap_app. cbn. setoid_rewrite of_txn_snoc. cbn. case_decide as Hj; [right|].
    + subst j. exists t, []. rewrite decide_True, Hnil, fn_lookup_insert by done. done.
    + destruct (Hc j) as [Hj'|(t' & rest & Hj' & Hof & Hst)]; [by left|right]. exists t', rest.
      specialize (Hne _ _ _ Hj'). rewrite decide_False, fn_lookup_insert_ne by congruence. done.
  - intros a b ta ra tb rb. rewrite !Hcalls. repeat case_decide; subst; try done.
    + intros [= <- <-] Hb Heq. by destruct (Hne _ _ _ Hb).
    + intros Ha [= <- <-] Heq. by destruct (Hne _ _ _ Ha).
    + apply Ho.
  - intros j ev. rewrite Hcalls. case_decide; [|apply He]. by intros ->%list_elem_of_singleton.
  - rewrite fmap_app. apply statements_run_snoc; [|done]. eapply statements_run_ext; [exact Hr|].
    intros ev v Hin [_ Hv]%is_end_version. split; [|done]. apply fn_lookup_insert_ne. intros <-. by apply (Hnew ev).
Qed.

(** a session that goes on *)
Lemma owns_next stmt outcome l i q ev t rest :
  owns stmt outcome l → valid_utf8 (sqls i) = true → asks (sqls i) (calls_of i l) q → is_answer q ev →
  calls_of i l = EvBegin t :: rest → request_txn q = Some t →
  (is_end ev = true → ∃ r, performs (sqls i) (calls_of i l ++ [ev]) r) →
  ∃ outcome', owns stmt outcome' (l ++ [(Some i, ev)]).
Proof.
  intros [Hc Ho He Hr] Hutf Hask Ha Hi Hq Hend. pose proof (answer_version _ _ _ Ha Hq) as Hv.
  destruct (Hc i) as [Hi'|(t' & rest' & Hi' & Hof & Hst)]; [congruence|].
  rewrite Hi in Hi'. injection Hi' as <- <-.
  assert (∀ ev', ev' ∈ calls_of i l → is_end ev' = true → False) as Hgoing.
  { intros ev' Hin Hev'. destruct (He i ev' Hin Hev') as [r Hp]. by eapply asks_performs. }
  assert (∀ j, calls_of j (l ++ [(Some i, ev)]) = if decide (j = i) then calls_of i l ++ [ev] else calls_of j l) as Hcalls.
  { intros j. rewrite calls_of_snoc. cbn. destruct (decide (j = i)) as [->|Hj].
    - by rewrite decide_True.
    - rewrite decide_False; [done|congruence]. }
  assert (∃ outcome', statements_run stmt outcome' (l ++ [(Some i, ev)]).*2) as [outcome' Hruns].
  { rewrite fmap_app. cbn. destruct (ended_txn ev) as [v|] eqn:Hended; [|exists outcome; by apply statements_run_snoc].
    pose proof (is_end_version _ _ Hended) as [Hev Hv']. rewrite Hv in Hv'. injection Hv' as <-.
    destruct (Hend Hev) as [r Hp]. exists (<[ts_version t := r]> outcome).
    assert (statements_run stmt (<[ts_version t := r]> outcome) l.*2) as Hr'.
    { eapply statements_run_ext; [exact Hr|]. intros ev' v Hin [Hev' Hv']%is_end_version. split; [done|].
      apply fn_lookup_insert_ne. intros <-. apply (Hgoing ev'); [|done]. rewrite <-Hof. by apply of_txn_elem. }
    intros before ev' after v Heq Hv'. destruct (app_snoc_cases _ _ _ _ _ Heq) as [(-> & <- & <-)|(after' & -> & Hl)];
      [|by eapply Hr'].
    rewrite Hended in Hv'. injection Hv' as <-.
    rewrite of_txn_snoc, decide_True, Hof, Hst, fn_lookup_insert by done. done. }
  exists outcome'. split; [| | |done].
  - intros j. rewrite Hcalls, fmap_app. cbn. setoid_rewrite of_txn_snoc. rewrite Hv. case_decide as Hj; [right|].
    + subst j. exists t, (rest ++ [ev]). rewrite decide_True by done. rewrite Hof, Hi. done.
    + destruct (Hc j) as [Hj'|(t' & rest' & Hj' & Hof' & Hst')]; [by left|right]. exists t', rest'.
      rewrite decide_False; [done|]. intros [= Heq]. apply Hj. by eapply Ho.
  - assert (∀ j t' r, calls_of j (l ++ [(Some i, ev)]) = EvBegin t' :: r → ∃ r', calls_of j l = EvBegin t' :: r') as Hhead.
    { intros j t' r. rewrite Hcalls. case_decide as Hj; [|by exists r]. rewrite Hi, Hj. cbn. intros [= <- _]. by exists rest. }
    intros a b ta ra tb rb [ra' Hra]%Hhead [rb' Hrb]%Hhead. by eapply Ho.
  - intros j ev' Hin Hev'. rewrite Hcalls in Hin |- *. case_decide; subst; [|by eapply He].
    apply elem_of_app in Hin as [Hin|Hin%list_elem_of_singleton]; [by destruct (Hgoing ev')|subst ev'; by apply Hend].
Qed.

Lemma fresh_begins_last evs t : fresh_begins (evs ++ [EvBegin t]) → of_txn (ts_version t) evs = [].
Proof. intros Hf. by apply (Hf evs t []). Qed.

(** every run of the sessions is one of statements *)
Lemma conc_run_owns s0 c0 p0 l c :
  sim s0 c0 p0 → (∀ i, valid_utf8 (sqls i) = true) → conc_run c0 l c → ∃ stmt outcome, owns stmt outcome l.
Proof.
  intros Hf Hutf. induction 1 as [|l c i q ev c' Hrun IH Hask Ha Hstep|l c c' Hrun IH Hstep].
  - exists (λ _, []), (λ _, Err not_recorded). split; [by left|done|set_solver|by intros [] ? ? ? [=]].
  - destruct IH as (stmt & outcome & Ho).
    destruct (session_asks _ _ _ Hask) as [[Hi ->]|(t & rest & Hi & Hq & Hend)].
    + destruct (proj2 (answer_begin _ ev Ha) eq_refl) as [t ->].
      eexists _, outcome. apply owns_begin; [done..|]. apply fresh_begins_last.
      assert (sys_run c0 (l ++ [(Some i, EvBegin t)]).*2 c') as Hsys.
      { apply conc_run_sys. by eapply conc_call. }
      destruct (run_fresh_begins _ _ _ _ _ Hf Hsys) as (s & p & _ & _ & _ & Hfr). by rewrite fmap_app in Hfr.
    + destruct (owns_next stmt outcome l i q ev t rest) as [outcome' Ho']; try done; [|by eauto].
      intros Hev. by apply Hend.
  - destruct IH as (stmt & outcome & Ho). eexists _, _. by apply owns_crash.
Qed.

(** ** What a session returns *)

Lemma performs_inj sql evs r r' : performs sql evs r → performs sql evs r' → r = r'.
Proof. unfold performs. congruence. Qed.

(** a session that has returned made the call that ends its transaction last *)
Lemma performs_last sql t rest r :
  performs sql (EvBegin t :: rest) r → ¬ is_panic r → ∃ past ev, EvBegin t :: rest = past ++ [ev] ∧ is_end ev = true.
Proof.
  intros Hp Hr. apply performs_ends in Hp.
  assert (∃ ev, last (EvBegin t :: rest) = Some ev ∧ is_end ev = true) as (ev & Hl & Hev).
  { destruct r as [res|err|pa]; cbn [ending] in Hp; [|destruct Hp as [[=]|(t' & r' & [Hp|[Hp _]])]|by destruct Hr];
      [destruct Hp as (t' & r' & Hp)|..]; by eexists. }
  apply last_Some in Hl as [past Hl]. by exists past, ev.
Qed.

(** the last operation of a transaction, in the run *)
Lemma of_txn_last v evs past ev :
  of_txn v evs = past ++ [ev] → ∃ before after, evs = before ++ ev :: after ∧ of_txn v (before ++ [ev]) = past ++ [ev].
Proof.
  induction evs as [|ev' evs IH] using rev_ind; [by intros []%app_cons_not_nil|]. rewrite of_txn_snoc.
  case_decide as Hv; intros Heq.
  - apply app_inj_tail in Heq as [Hp ->]. exists evs, []. split; [done|]. by rewrite of_txn_snoc, decide_True, Hp.
  - destruct (IH Heq) as (before & after & -> & Hof). exists before, (after ++ [ev']). by rewrite <-app_assoc.
Qed.

Lemma owns_outcome stmt outcome l i t rest r :
  owns stmt outcome l → calls_of i l = EvBegin t :: rest → performs (sqls i) (calls_of i l) r → no_panic r →
  outcome (ts_version t) = r.
Proof.
  intros [Hc Ho He Hr] Hi Hp Hnp. apply no_panic_spec in Hnp.
  destruct (Hc i) as [Hi'|(t' & rest' & Hi' & Hof & Hst)]; [congruence|].
  rewrite Hi in Hi'. injection Hi' as <- <-. rewrite Hi in Hp, Hof.
  destruct (performs_last _ _ _ _ Hp Hnp) as (past & ev & Heq & Hev). rewrite Heq in Hof.
  destruct (of_txn_last _ _ _ _ Hof) as (before & after & Hl & Hb).
  assert (event_version ev = Some (ts_version t)) as Hv.
  { eapply proj1, of_txn_elem. rewrite Hof. by apply elem_of_app; right; apply list_elem_of_singleton. }
  destruct (Hr before ev after (ts_version t) Hl) as [_ Hp'].
  { by destruct ev. }
  rewrite Hb, Hst, <-Heq in Hp'. by eapply performs_inj.
Qed.

Lemma owns_stmt stmt outcome l i t rest :
  owns stmt outcome l → calls_of i l = EvBegin t :: rest → stmt (ts_version t) = sqls i.
Proof.
  intros [Hc _ _ _] Hi. destruct (Hc i) as [Hi'|(t' & rest' & Hi' & _ & Hst)]; [congruence|].
  rewrite Hi in Hi'. by injection Hi' as <- _.
Qed.

Lemma calls_of_elem i ev (l : calls_log K) : ev ∈ calls_of i l ↔ (Some i, ev) ∈ l.
Proof.
  unfold calls_of. rewrite list_elem_of_fmap. setoid_rewrite list_elem_of_filter. split.
  - intros ([o ev'] & -> & Ho & Hin). cbn in Ho. by subst o.
  - intros Hin. by exists (Some i, ev).
Qed.

(** a transaction is that of a session *)
Lemma owns_begun c0 c stmt outcome l t :
  conc_run c0 l c → owns stmt outcome l → EvBegin t ∈ l.*2 → ∃ i, calls_of i l ≠ [] ∧ stmt (ts_version t) = sqls i.
Proof.
  intros Hrun Ho ([o ev] & Heq & Hin)%list_elem_of_fmap. cbn in Heq. subst ev.
  assert (∃ i, o = Some i) as [i ->].
  { clear Ho. induction Hrun as [|l c i q ev' c' _ IH _ _ _|l c c' _ IH _]; [by apply elem_of_nil in Hin|..];
      apply elem_of_app in Hin as [Hin|Hin%list_elem_of_singleton]; [by apply IH| |by apply IH|done].
    injection Hin as -> _. by exists i. }
  exists i. apply calls_of_elem in Hin.
  destruct (owns_calls _ _ _ Ho i) as [Hi|(t' & rest & Hi & Hof & Hst)]; [rewrite Hi in Hin; by apply elem_of_nil in Hin|].
  split; [by rewrite Hi|]. rewrite <-Hof in Hin. apply of_txn_elem in Hin as [[= Hv] _]. by rewrite Hv.
Qed.

(** ** Every run of sessions is one of the machine of statements *)

Context `{!JsonLaws}.

(** no session panics *)
Lemma owns_no_panic stmt outcome l i r :
  owns stmt outcome l → (∀ v, alone_in l.*2 v) → valid_utf8 (sqls i) = true → performs (sqls i) (calls_of i l) r →
  no_panic r.
Proof.
  intros [Hc _ _ _] Hal Hutf Hp.
  assert (∃ m d, isolated (m, m) (calls_of i l) ∧ encodes m d ∧ db_wf d) as (m & d & Hi & He & Hw).
  { destruct (Hc i) as [->|(t & rest & -> & <- & _)]; [|apply Hal].
    exists ∅, ∅. split; [done|]. split; [apply encodes_empty|apply map_Forall_empty]. }
  pose proof (performs_effect m d _ _ _ Hi He Hw Hutf Hp) as Hr. by destruct r.
Qed.

(** the events of a statement that has returned: it was refused before it began
    a transaction, or its transaction ended accordingly *)
Inductive answered (sql : bytes) : result ResultSet → list sql_event → Prop :=
  | answered_commit v res : answered sql (Ok res) [SqlBegin v; SqlCommit v sql (Ok res)]
  | answered_abort v err : answered sql (Err err) [SqlBegin v; SqlAbort v sql (Err err)]
  | answered_refused err : prepare sql = Err err → answered sql (Err err) [].

Lemma performs_nothing sql r : performs sql [] r → no_panic r → ∃ err, r = Err err ∧ prepare sql = Err err.
Proof.
  unfold performs, Session_Execute. destruct (prepare sql) as [e|err|p]; [done| |]; intros [= <-]; [by exists err|done].
Qed.

Lemma owns_answered stmt outcome l i r :
  owns stmt outcome l → (∀ v, alone_in l.*2 v) → valid_utf8 (sqls i) = true → performs (sqls i) (calls_of i l) r →
  ∃ es, answered (sqls i) r es ∧ es `sublist_of` omap (sql_event_of stmt outcome) (calls_of i l).
Proof.
  intros Ho Hal Hutf Hp. pose proof (owns_no_panic _ _ _ _ _ Ho Hal Hutf Hp) as Hnp.
  destruct (owns_calls _ _ _ Ho i) as [Hi|(t & rest & Hi & Hof & Hst)].
  { rewrite Hi in Hp |- *. destruct (performs_nothing _ _ Hp Hnp) as (err & -> & He). exists []. by split; [constructor|]. }
  pose proof (owns_outcome _ _ _ _ _ _ _ Ho Hi Hp Hnp) as Hout. apply no_panic_spec in Hnp.
  destruct (Hal (ts_version t)) as (m & d & Hiso & _). rewrite Hof in Hiso. rewrite Hi in Hp, Hof, Hiso |- *.
  destruct (performs_last _ _ _ _ Hp Hnp) as (past & ev & Heq & Hev).
  assert (event_version ev = Some (ts_version t)) as Hv.
  { eapply proj1, of_txn_elem. rewrite Hof, Heq. by apply elem_of_app; right; apply list_elem_of_singleton. }
  apply performs_ends in Hp. rewrite Heq in Hp, Hiso. apply isolated_app in Hiso as [_ [Hlast _]].
  unfold ending in Hp. rewrite last_snoc in Hp.
  destruct past as [|ev0 past]; cbn in Heq; injection Heq as <- ->; [done|]. cbn [omap list_omap sql_event_of].
  rewrite omap_app. destruct r as [res|err|p]; [| |done].
  - destruct Hp as (t' & r' & [= ->]). injection Hv as Hv. exists [SqlBegin (ts_version t); SqlCommit (ts_version t) (sqls i) (Ok res)].
    split; [constructor|]. cbn. rewrite Hv, Hst, Hout. apply sublist_skip. by apply sublist_inserts_l.
  - destruct Hp as [[=]|(t' & r' & [[= ->]|[[= ->] Hr']])]; [|by destruct Hr'].
    injection Hv as Hv. exists [SqlBegin (ts_version t); SqlAbort (ts_version t) (sqls i) (Err err)].
    split; [constructor|]. cbn. rewrite Hv, Hst, Hout. apply sublist_skip. by apply sublist_inserts_l.
Qed.

Lemma sessions_refine c0 d0 l c room left :
  at_rest room c0 d0 → conc_run c0 l c → (∀ i, valid_utf8 (sqls i) = true) →
  begins l.*2 + Z.of_nat left ≤ Z.of_nat room →
  ∃ stmt outcome s,
    owns stmt outcome l ∧ sql_run (mkSdb d0 ∅) (omap (sql_event_of stmt outcome) l.*2) s ∧ live left c s ∧
    ∀ i r, performs (sqls i) (calls_of i l) r →
      no_panic r ∧ ∃ es, answered (sqls i) r es ∧ es `sublist_of` omap (sql_event_of stmt outcome) (calls_of i l).
Proof.
  intros Hrest Hrun Hutf Hroom. destruct (at_rest_sim _ _ _ Hrest) as (s0 & p0 & Hs0 & Hn0 & Hrep0 & Hnone).
  destruct (conc_run_owns _ _ _ _ _ Hs0 Hutf Hrun) as (stmt & outcome & Ho).
  destruct (run_fresh_begins _ _ _ _ _ Hs0 (conc_run_sys _ _ _ Hrun)) as (ms & p & Hsi & Hsim & Hn & Hfr).
  destruct (run_refines _ stmt outcome _ _ _ _ Hrep0 Hnone Hsi Hfr (owns_runs _ _ _ Ho)) as (s & Hsql & Hrep & Hal).
  exists stmt, outcome, s. split; [done|]. split; [done|].
  split; [|intros i r Hp; split; [by eapply owns_no_panic|by apply owns_answered]].
  exists ms, p. split; [done|]. split; [lia|done].
Qed.

(** ** The calls of a session can be made *)

Lemma open_step c ev c' t :
  sys_step c ev c' → t ∈ sys_open c → ev ≠ EvCrash → (∀ r, ev ≠ EvCommit t r ∧ ev ≠ EvRollback t r) → t ∈ sys_open c'.
Proof.
  intros Hs Ht Hc He. destruct Hs as [| | | | |e e' ts u r Hu|e e' ts u r Hu|]; cbn in *; try done; [by apply list_elem_of_further|..];
    apply list_elem_of_filter; (split; [|done]); intros ->; by destruct (He r).
Qed.

(** a transaction that was begun and not ended is open *)
Lemma open_run c0 evs c t :
  sys_run c0 evs c → EvBegin t ∈ evs → EvCrash ∉ evs → (∀ ev, ev ∈ evs → event_version ev = Some (ts_version t) → is_end ev = false) →
  t ∈ sys_open c.
Proof.
  induction 1 as [c|c evs c1 ev c2 _ IH Hs]; [by intros ?%elem_of_nil|]. intros Hin Hc He.
  assert (EvCrash ∉ evs ∧ ev ≠ EvCrash) as [Hc' Hne] by set_solver.
  apply elem_of_app in Hin as [Hin|<-%list_elem_of_singleton]; [|by inversion Hs; subst; apply list_elem_of_here].
  apply (open_step _ _ _ _ Hs); [|done|].
  - apply IH; [done..|]. intros ev' Hin'. apply He. set_solver.
  - assert (event_version ev = Some (ts_version t) → is_end ev = false) as Hlast by (apply He; set_solver).
    intros r. split; intros ->; by discriminate (Hlast eq_refl).
Qed.

Lemma asks_open stmt outcome c0 l c i q t :
  owns stmt outcome l → conc_run c0 l c → EvCrash ∉ l.*2 → asks (sqls i) (calls_of i l) q → request_txn q = Some t →
  t ∈ sys_open c.
Proof.
  intros Ho Hrun Hc Hask Hq. destruct (session_asks _ _ _ Hask) as [[_ ->]|(t' & rest & Hi & Hq' & _)]; [done|].
  rewrite Hq in Hq'. injection Hq' as <-.
  destruct (owns_calls _ _ _ Ho i) as [Hi'|(t' & rest' & Hi' & Hof & _)]; [congruence|].
  rewrite Hi in Hi'. injection Hi' as <- <-. apply conc_run_sys in Hrun. eapply open_run; [exact Hrun| |done|].
  - eapply of_txn_elem. rewrite Hof, Hi. apply list_elem_of_here.
  - intros ev Hin Hv. destruct (is_end ev) eqn:Hev; [|done].
    assert (ev ∈ calls_of i l) as Hin' by (rewrite <-Hof; by apply of_txn_elem).
    destruct (owns_ended _ _ _ Ho i ev Hin' Hev) as [r Hp]. by destruct (asks_performs _ _ _ r Hask).
Qed.

(** a call of an open transaction has an answer; a transaction can begin while
    there is room for it *)
Lemma answers left c s q :
  live (S left) c s → (∀ t, request_txn q = Some t → t ∈ sys_open c) → ∃ ev c', is_answer q ev ∧ sys_step c ev c'.
Proof.
  intros (ms & p & Hsim & Hn & _) Ht. destruct c as [e ts]. destruct q as [|t k|t pre|t k [v|]|t|t]; cbn in Ht.
  - destruct (Begin_ok e ms) as (e' & Hb & _); [apply Hsim|apply Hsim|lia|].
    eexists (EvBegin _), _. split; [done|]. apply step_begin; [exact Hb|]. cbn. lia.
  - eexists (EvGet t k _), _. split; [done|]. by apply step_get; [apply Ht|].
  - eexists (EvScan t pre _), _. split; [done|]. by apply step_scan; [apply Ht|].
  - destruct (Mvcc.Set_ t k v e) as [e' r] eqn:Hw. exists (EvWrite t k (Some v) r), (mkSys e' ts).
    split; [done|]. apply step_set; [by apply Ht|done].
  - destruct (Mvcc.Delete t k e) as [e' r] eqn:Hw. exists (EvWrite t k None r), (mkSys e' ts).
    split; [done|]. apply step_delete; [by apply Ht|done].
  - destruct (Commit t e) as [e' r] eqn:Hw. eexists (EvCommit t r), _. split; [done|]. apply step_commit; [by apply Ht|done].
  - destruct (Rollback t e) as [e' r] eqn:Hw. eexists (EvRollback t r), _. split; [done|]. apply step_rollback; [by apply Ht|done].
Qed.

(** ** A call cut short

    What a call does to the engine, without its answer.  A call that fails, as
    one does during which the process dies, leaves the database as it is. *)

Definition attempt (q : request) : ST E unit :=
  match q with
  | AskBegin => let! _ := Begin in sret ()
  | AskGet _ _ | AskScan _ _ => sret ()
  | AskWrite t k (Some v) => Mvcc.Set_ t k v
  | AskWrite t k None => Mvcc.Delete t k
  | AskCommit t => Commit t
  | AskRollback t => Rollback t
  end.

Lemma attempt_harmless e s q :
  Rep e s → (∀ t, request_txn q = Some t → txn_ok s t) → next s < max_uint64 →
  match attempt q e with (e', Err _) => harmless s 1 e' | (_, Panic _) => False | _ => True end.
Proof.
  intros HR Ht Hn.
  assert (∀ e', harmless s 0 e' → harmless s 1 e') as Hless.
  { intros e' (s' & ? & ? & ?). exists s'. split; [done|]. split; [done|lia]. }
  assert (∀ (m : ST E unit) Q, MvccOps.performs e (m e) Q (harmless s 0) →
    match m e with (e', Err _) => harmless s 1 e' | (_, Panic _) => False | _ => True end) as Hperf.
  { intros m Q [_ Hout]. destruct (m e) as [e' [u|err|p]]; [done| |done]. destruct Hout as [_ Hout]. by apply Hless. }
  assert (∀ t k v deleted, txn_ok s t →
    match write t k v deleted e with (e', Err _) => harmless s 1 e' | (_, Panic _) => False | _ => True end) as Hwrite.
  { intros t k v deleted Htk. pose proof (write_harmless e s t k v deleted HR Htk) as Hw.
    destruct (write _ _ _ _ e) as [e' []]; [done|by apply Hless|done]. }
  destruct q as [|t k|t p|t k [v|]|t|t]; cbn [attempt]; [|done|done|by apply Hwrite, Ht|by apply Hwrite, Ht|..].
  - destruct (Begin_performs e s HR Hn) as [_ Hout]. unfold sbind.
    destruct (Begin e) as [e' [t|err|p]]; [done|by destruct Hout|done].
  - eapply Hperf, Commit_performs; [done|by apply Ht].
  - eapply Hperf, Rollback_performs; [done|by apply Ht].
Qed.

(** [e1]: the engine of a running system, in a process that may now die *)
Lemma attempt_fails left c s q e1 e' err :
  live (S left) c s → usable e1 → contents e1 = contents (sys_engine c) →
  (∀ t, request_txn q = Some t → t ∈ sys_open c) → attempt q e1 = (e', Err err) →
  holds (mkRegime left False) e' (sd_db s).
Proof.
  intros (ms & p & Hsim & Hn & Hrep) Hu Hc Ht He.
  assert (Rep e1 ms) as HR by (eapply kept_Rep; [apply Hsim|by split]).
  pose proof (attempt_harmless e1 ms q HR) as Hh. rewrite He in Hh. cbn in Hh.
  exists (committed ms). split.
  - eapply harmless_holds; [apply Hh|cbn; lia|by intros []]; [intros t Hq; by apply (sim_ok _ _ _ Hsim), Ht|lia].
  - rewrite (sim_db _ _ _ Hsim). split; apply Hrep.
Qed.

(** ** An executable scheduler

    [conc_exec] lets the sessions named by a list make their next call, one
    after the other; a session that cannot is skipped, [None] is a crash. *)

Definition perform (q : request) (c : system) : option (event * system) :=
  let '(mkSys e ts) := c in
  let on t (f : event * system) := if decide (t ∈ ts) then Some f else None in
  match q with
  | AskBegin =>
      match Begin e with
      | (e', Ok t) => if decide (ts_version t < max_uint64) then Some (EvBegin t, mkSys e' (t :: ts)) else None
      | _ => None
      end
  | AskGet t k => on t (EvGet t k (Get t k e), c)
  | AskScan t prefix => on t (EvScan t prefix (ScanPrefix t prefix e), c)
  | AskWrite t k (Some v) => let '(e', r) := Set_ t k v e in on t (EvWrite t k (Some v) r, mkSys e' ts)
  | AskWrite t k None => let '(e', r) := Delete t k e in on t (EvWrite t k None r, mkSys e' ts)
  | AskCommit t => let '(e', r) := Commit t e in on t (EvCommit t r, mkSys e' (filter (λ u, u ≠ t) ts))
  | AskRollback t => let '(e', r) := Rollback t e in on t (EvRollback t r, mkSys e' (filter (λ u, u ≠ t) ts))
  end.

Lemma perform_sound q c ev c' : perform q c = Some (ev, c') → is_answer q ev ∧ sys_step c ev c'.
Proof.
  destruct c as [e ts]. unfold perform. intros Ha.
  destruct q as [|t k|t p|t k [v|]|t|t]; repeat (case_match; simplify_eq); cbn; (split; [by eauto|]);
    by constructor.
Qed.

Definition conc_exec1 (o : option K) (p : calls_log K * system) : calls_log K * system :=
  let '(l, c) := p in
  match o with
  | None => (l ++ [(None, EvCrash)], mkSys (sys_engine c) [])
  | Some i =>
      match (Session_Execute (T := player) (sqls i) (Tape (calls_of i l))).1 with
      | Asked q => match perform q c with Some (ev, c') => (l ++ [(Some i, ev)], c') | None => p end
      | _ => p
      end
  end.

Definition conc_exec (os : list (option K)) (c : system) : calls_log K * system := foldl (λ p o, conc_exec1 o p) ([], c) os.

Lemma conc_exec_sound os c : conc_run c (conc_exec os c).1 (conc_exec os c).2.
Proof.
  unfold conc_exec. induction os as [|o os IH] using rev_ind; [constructor|]. rewrite foldl_snoc.
  destruct (foldl _ _ os) as [l c1]. cbn [fst snd] in IH. unfold conc_exec1. destruct o as [i|].
  - destruct (Session_Execute _ _) as [[rest|q|] r] eqn:Hq; cbn [fst]; try done.
    destruct (perform q c1) as [[ev c2]|] eqn:Ha; cbn [fst snd]; [|done].
    apply perform_sound in Ha as [Ha Hs]. eapply conc_call; [done| |done|done]. unfold asks. by rewrite Hq.
  - cbn. destruct c1. eapply conc_crash; [done|constructor].
Qed.

End sessions.
