(* ===== verification/ConcurrentProps.v ===== *)
(** * What sessions that run at the same time guarantee *)

From stdpp Require Import fin_sets fin_map_dom.
From S2P Require Import Prelude Bytes Engine Memory MvccKey Mvcc MvccSpec MvccRefine MvccOps MvccReads Snapshot MvccSystem.
From S2P Require Import Types Schema Transaction Executor Json Relation Kv KvRefine KvMvcc Session Execute Recorded Rebase Concurrent Sessions.

(** C3: statements that run at the same time are isolated.  Sessions on one
    engine that holds [d0] run a statement each, with their calls interleaved in
    any order and with crashes in between.  Every such run is a run of the
    machine [sql_step] from [d0]: each statement works on the database
    as it was when it began, one that returns a result takes effect at once
    when it commits, on whatever the database is by then, where nobody has
    changed what it changes, and one that returns an error has no effect.  What
    the engine holds at the end is what the machine ends in. *)
Theorem concurrent_sessions {E} `{EngineLaws E} `{!Json} `{!JsonLaws} `{!MapOrder} (sqls : nat → bytes) c0 d0 l c room left :
  at_rest room c0 d0 → conc_run sqls c0 l c → (∀ i, valid_utf8 (sqls i) = true) →
  begins l.*2 + Z.of_nat left ≤ Z.of_nat room →
  ∃ stmt outcome s,
    sql_run (mkSdb d0 ∅) (omap (sql_event_of stmt outcome) l.*2) s ∧
    holds (mkRegime left False) (sys_engine c) (sd_db s) ∧
    ∀ i t rest, calls_of i l = EvBegin t :: rest →
      stmt (ts_version t) = sqls i ∧
      ∀ r, performs (sqls i) (calls_of i l) r → no_panic r ∧ outcome (ts_version t) = r.
Proof.
  intros Hf Hrun Hutf Hroom.
  destruct (sessions_refine _ _ _ _ _ _ _ Hf Hrun Hutf Hroom) as (stmt & outcome & s & Ho & Hsql & Hh & Hnp).
  exists stmt, outcome, s. split; [done|]. split; [by apply live_holds|]. intros i t rest Hi. split; [by eapply owns_stmt|].
  intros r Hp. destruct (Hnp _ _ Hp) as [? _]. split; [done|]. by eapply owns_outcome.
Qed.

(** ** A concrete run

    A table is made; then two sessions insert the same primary key while a
    third reads. *)

Module ConcurrentWitness.

#[export] Existing Instance bit_codec.
#[export] Existing Instance bit_codec_laws.
#[export] Existing Instance canonical_order.

Definition sqls (i : nat) : bytes :=
  match i with
  | 0%nat => str "CREATE TABLE t (id INT PRIMARY KEY, name STRING);"
  | 1%nat => str "INSERT INTO t VALUES (1, 'a');"
  | 2%nat => str "INSERT INTO t VALUES (1, 'b');"
  | _ => str "SELECT id, name FROM t;"
  end.

Definition order : list (option nat) :=
  Some <$> replicate 5 0%nat ++ [1; 2; 3; 1; 2; 1; 2; 1; 2; 1; 2; 1; 2; 3; 3; 3; 3]%nat.

Definition run : calls_log nat * sys (E := MemoryEngine) := conc_exec sqls order (mkSys NewMemoryEngine []).

Definition returned (i : nat) : tape * result ResultSet := Session_Execute (T := player) (sqls i) (Tape (calls_of i run.1)).

End ConcurrentWitness.
Import ConcurrentWitness.

Lemma valid_sqls i : valid_utf8 (sqls i) = true.
Proof. destruct i as [|[|[|i]]]; vm_compute; reflexivity. Qed.

Definition taken : error :=
  Wrapf "engine: executing statement: %w" (Wrapf "executor: inserting row %d: %w" ErrWriteConflict).

Lemma concurrent_sessions_witness :
  ∃ s,
    sql_run (mkSdb ∅ ∅)
      [ SqlBegin 1; SqlCommit 1 (sqls 0) (Ok (CreateTableResult (str "t")));
        SqlBegin 2; SqlBegin 3; SqlBegin 4;
        SqlCommit 2 (sqls 1) (Ok (InsertResult 1));
        SqlAbort 3 (sqls 2) (Err taken);
        SqlCommit 4 (sqls 3) (Ok (RowsResult [str "id"; str "name"] [])) ] s ∧
    holds (mkRegime 5 False) (sys_engine run.2) (sd_db s).
Proof.
  destruct (concurrent_sessions sqls (mkSys NewMemoryEngine []) ∅ run.1 run.2 9 5)
    as (stmt & outcome & s & Hrun & Hh & Hout);
    [by apply fresh_at_rest|apply conc_exec_sound|exact valid_sqls|vm_compute; discriminate|].
  exists s. split; [|exact Hh].
  assert (∀ i t rest r, calls_of i run.1 = EvBegin t :: rest → returned i = (Tape [], r) →
    stmt (ts_version t) = sqls i ∧ outcome (ts_version t) = r) as Hv.
  { intros i t rest r Hi Hr. destruct (Hout i t rest Hi) as [Hs Ho]. split; [exact Hs|]. by apply (Ho r Hr). }
  destruct (Hv 0%nat (mkTransactionState 1 ∅) (tail (calls_of 0%nat run.1)) (Ok (CreateTableResult (str "t"))))
    as [S0 O0]; [vm_compute; reflexivity..|].
  destruct (Hv 1%nat (mkTransactionState 2 ∅) (tail (calls_of 1%nat run.1)) (Ok (InsertResult 1)))
    as [S1 O1]; [vm_compute; reflexivity..|].
  destruct (Hv 2%nat (mkTransactionState 3 {[2]}) (tail (calls_of 2%nat run.1)) (Err taken))
    as [S2 O2]; [vm_compute; reflexivity..|].
  destruct (Hv 3%nat (mkTransactionState 4 {[2; 3]}) (tail (calls_of 3%nat run.1)) (Ok (RowsResult [str "id"; str "name"] [])))
    as [S3 O3]; [vm_compute; reflexivity..|].
  cbn [ts_version] in *. rewrite <-S0, <-S1, <-S2, <-S3, <-O0, <-O1, <-O2, <-O3.
  assert (omap (sql_event_of stmt outcome) run.1.*2 =
    [ SqlBegin 1; SqlCommit 1 (stmt 1) (outcome 1); SqlBegin 2; SqlBegin 3; SqlBegin 4;
      SqlCommit 2 (stmt 2) (outcome 2); SqlAbort 3 (stmt 3) (outcome 3); SqlCommit 4 (stmt 4) (outcome 4) ]) as Heq
    by (vm_compute; reflexivity).
  rewrite Heq in Hrun. exact Hrun.
Defined.
