(* ===== verification/Result.v ===== *)
(** * The text of a result ([executor/result.go], [Value.String])

    With the conversions of [strconv] it uses. *)

From S2P Require Import Prelude Bytes Types Lexer Ast Schema Planner Sort Expr Transaction Executor.

(** ** [strconv.FormatInt(i, 10)] *)

Definition digit (n : Z) : byte := Z_byte (48 + n).

Fixpoint decimal (fuel : nat) (n : Z) : bytes :=
  match fuel with
  | O => []
  | S fuel => if n <? 10 then [digit n] else decimal fuel (n / 10) ++ [digit (n mod 10)]
  end.

(** as many steps as the number has binary digits *)
Definition FormatUint (n : Z) : bytes := decimal (S (Z.to_nat (Z.log2 n))) n.
Definition FormatInt (i : Z) : bytes := if i <? 0 then str "-" ++ FormatUint (- i) else FormatUint i.

(** ** [strconv.FormatFloat(f, 'g', -1, 64)] *)

(** the float nearest to [n * 10^e] *)
Definition scaled_float (n e : Z) : float64 :=
  if 0 <=? e then decimal_float (n * 10 ^ e) 0 else decimal_float n (Z.to_nat (- e)).

(** [m * 2^e] and [10^k] as fractions: the comparison of [m * 2^e] with [n * 10^k / 2] *)
Definition compare_half (m e n k : Z) : comparison :=
  (2 * m * 2 ^ Z.max 0 e * 10 ^ Z.max 0 (- k)) ?= (n * 10 ^ Z.max 0 k * 2 ^ Z.max 0 (- e)).

(** the largest [n] with [n * 10^k <= m * 2^e] *)
Definition floor_scaled (m e k : Z) : Z :=
  (m * 2 ^ Z.max 0 e * 10 ^ Z.max 0 (- k)) / (10 ^ Z.max 0 k * 2 ^ Z.max 0 (- e)).

(** the number of digits before the decimal point of [m * 2^e], or minus the
    number of zeros after it; 1233/4096 is nearly the logarithm of 2 *)
Definition decimal_point (m e : Z) : Z :=
  let low := ((Z.log2 m + e) * 1233) / 4096 - 1 in
  low + Z.of_nat (length (FormatUint (floor_scaled m e low))).

(** the shortest decimal [n * 10^k] that is read back as the float, the nearest
    one if there are two *)
Fixpoint shortest (fuel : nat) (m : positive) (e : Z) (digits : nat) : Z * Z :=
  let k := decimal_point (Zpos m) e - Z.of_nat digits in
  let low := floor_scaled (Zpos m) e k in
  let nearest :=
    match compare_half (Zpos m) e (2 * low + 1) k with
    | Lt => low
    | Gt => low + 1
    | Eq => if Z.even low then low else low + 1
    end in
  let other := if nearest =? low then low + 1 else low in
  let reads n := bool_decide (scaled_float n k = S754_finite false m e) in
  match fuel with
  | O => (nearest, k)
  | S fuel =>
      if reads nearest then (nearest, k)
      else if reads other then (other, k)
      else shortest fuel m e (S digits)
  end.

(** the digits without the zeros at the end *)
Definition trim_zeros (ds : bytes) : bytes :=
  rev ((fix go (ds : bytes) := match ds with x30 :: ds => go ds | ds => ds end) (rev ds)).

Definition exponent_text (exp : Z) : bytes :=
  (if exp <? 0 then str "-" else str "+") ++
  (if Z.abs exp <? 10 then str "0" else []) ++ FormatUint (Z.abs exp).

(** the formats [%e] and [%f] of the digits [ds] with the point after [dp] of them *)
Definition format_e (ds : bytes) (dp : Z) : bytes :=
  match ds with
  | [] => str "0e+00"
  | d :: [] => d :: str "e" ++ exponent_text (dp - 1)
  | d :: ds => d :: str "." ++ ds ++ str "e" ++ exponent_text (dp - 1)
  end.

Definition format_f (ds : bytes) (dp : Z) : bytes :=
  let whole := Z.to_nat dp in
  (if 0 <? dp then take whole ds ++ replicate (whole - length ds) x30 else str "0") ++
  (if Z.of_nat (length ds) - dp <=? 0 then []
   else str "." ++ replicate (Z.to_nat (- dp)) x30 ++ drop whole ds).

(** an exponent takes over below 10^-4 and from 10^6 on *)
Definition format_g (ds : bytes) (dp : Z) : bytes :=
  let exp := dp - 1 in
  if (exp <? -4) || (exp >=? 6) then format_e ds dp else format_f ds dp.

(** 17 digits are always enough *)
Definition FormatFloat (f : float64) : bytes :=
  match f with
  | S754_nan => str "NaN"
  | S754_infinity neg => if neg : bool then str "-Inf" else str "+Inf"
  | S754_zero neg => (if neg : bool then str "-" else []) ++ format_g [] 0
  | S754_finite neg m e =>
      let '(n, k) := shortest 17 m e 1 in
      let ds := FormatUint n in
      (if neg : bool then str "-" else []) ++ format_g (trim_zeros ds) (k + Z.of_nat (length ds))
  end.

(** ** Values and results *)

Definition FormatBool (b : bool) : bytes := if b then str "true" else str "false".

Definition Value_String (v : Value) : bytes :=
  match Kind v with
  | ValueNull => str "NULL"
  | ValueBoolean => FormatBool (vBoolean v)
  | ValueInteger => FormatInt (vInteger v)
  | ValueFloat => FormatFloat (vFloat v)
  | ValueString => vStr v
  | ValueInvalid kind => str "<invalid value kind " ++ FormatInt kind ++ str ">"
  end.

(** [strings.Join] *)
Fixpoint strings_Join (parts : list bytes) (sep : bytes) : bytes :=
  match parts with
  | [] => []
  | [s] => s
  | s :: parts => s ++ sep ++ strings_Join parts sep
  end.

Definition row_line (row : Row) : bytes := strings_Join (map Value_String row) (str " | ").

Definition result_lines (columns : list bytes) (rows : list Row) : list bytes :=
  strings_Join columns (str " | ") :: map row_line rows ++
  [str "(" ++ FormatInt (Z.of_nat (length rows)) ++ str " rows)"].

Definition FormatResult (result : ResultSet) : bytes :=
  match result with
  | CreateTableResult name => str "CREATE TABLE " ++ name
  | InsertResult count => str "INSERT " ++ FormatInt count ++ str " rows"
  | UpdateResult count => str "UPDATE " ++ FormatInt count ++ str " rows"
  | DeleteResult count => str "DELETE " ++ FormatInt count ++ str " rows"
  | RowsResult columns rows => strings_Join (result_lines columns rows) [x0a]
  end.
