(* ===== verification/Server.v ===== *)
(** * One connection of the server ([cmd/spacedb-server/main.go])

    [handleConnection] reads lines of SQL, runs each in the connection's
    session and writes the result back.  The stream of the peer is the bytes
    it sends before its end, and an error or none; a write may fail. *)

From S2P Require Import Prelude Bytes Types Lexer Transaction Executor Session Result.

(** the text of an error, [err.Error()]: this development keeps of an error
    the formats, not the arguments *)
Class ErrorTexts := Error : error → bytes.

(** ** [strings.TrimSpace] *)

(** white space, in UTF-8 *)
Definition spaces : list bytes :=
  [[x09]; [x0a]; [x0b]; [x0c]; [x0d]; [x20]; [xc2; x85]; [xc2; xa0]; [xe1; x9a; x80]] ++
  map (λ b, [xe2; x80; b]) [x80; x81; x82; x83; x84; x85; x86; x87; x88; x89; x8a; xa8; xa9; xaf] ++
  [[xe2; x81; x9f]; [xe3; x80; x80]].

(** the text without a prefix of the list *)
Fixpoint strip_one (prefixes : list bytes) (s : bytes) : option bytes :=
  match prefixes with
  | [] => None
  | p :: prefixes => if decide (take (length p) s = p) then Some (drop (length p) s) else strip_one prefixes s
  end.

Fixpoint strip (fuel : nat) (prefixes : list bytes) (s : bytes) : bytes :=
  match fuel with
  | O => s
  | S fuel => match strip_one prefixes s with Some s => strip fuel prefixes s | None => s end
  end.

(** each step takes a byte or more *)
Definition TrimLeft (s : bytes) : bytes := strip (length s) spaces s.
Definition TrimRight (s : bytes) : bytes := rev (strip (length s) (map (@rev byte) spaces) (rev s)).
Definition TrimSpace (s : bytes) : bytes := TrimRight (TrimLeft s).

(** ** [bufio.Scanner] on lines *)

Definition maxRequestSize : nat := 1024 * 1024.
Definition ErrTooLong : error := Errorf "bufio.Scanner: token too long".

Definition dropCR (line : bytes) : bytes :=
  match rev line with x0d :: rest => rev rest | _ => line end.

(** the tokens of a stream and the error after the last; a line that does not
    fit the buffer with its end is too long, and at its end the stream need not
    have a newline *)
Fixpoint scan_lines (fuel : nat) (data : bytes) (read_end : option error) : list bytes * option error :=
  match fuel with
  | O => ([], read_end)
  | S fuel =>
      match IndexByte data x0a with
      | Some i =>
          if decide (maxRequestSize ≤ i)%nat then ([], Some ErrTooLong)
          else
            let '(lines, err) := scan_lines fuel (drop (S i) data) read_end in
            (dropCR (take i data) :: lines, err)
      | None =>
          if decide (maxRequestSize ≤ length data)%nat then ([], Some ErrTooLong)
          else (match data with [] => [] | _ => [dropCR data] end, read_end)
      end
  end.

(** ** The connection *)

Record Conn := mkConn {
  received : bytes;
  read_end : option error;
  sent : bytes;
  writes : nat;
  write_faults : nat → option nat;
}.

(** [conn.Write]: all of the data, or a part and an error *)
Definition conn_write (data : bytes) : ST Conn unit := λ c,
  let put data := mkConn (received c) (read_end c) (sent c ++ data) (S (writes c)) (write_faults c) in
  match write_faults c (writes c) with
  | None => (put data, Ok ())
  | Some n => (put (take n data), Err (Errorf "write error"))
  end.

(** [bufio.Writer.WriteString] on an empty buffer: what does not fit is written,
    the rest stays in the buffer *)
Definition writer_size : nat := 4096.
Fixpoint write_string (fuel : nat) (data : bytes) : ST Conn bytes :=
  match fuel with
  | O => sret data
  | S fuel =>
      if decide (length data ≤ writer_size)%nat then sret data
      else conn_write (take writer_size data) ;;! write_string fuel (drop writer_size data)
  end.

Definition write_flush (buffered : bytes) : ST Conn unit :=
  if decide (buffered = []) then sret () else conn_write buffered.

(** a session's database and its connection *)
Record Handler (D : Type) := mkHandler { handler_db : D; handler_conn : Conn }.
Arguments mkHandler {D} handler_db handler_conn.
Arguments handler_db {D} h.
Arguments handler_conn {D} h.

Section server.
Context {D T : Type} `{!Transaction T} `{!SQLEngine D T} `{!MapOrder} `{!ErrorTexts}.

Definition on_db {A} (m : ST D A) : ST (Handler D) A := λ h,
  let '(d, r) := m (handler_db h) in (mkHandler d (handler_conn h), r).
Definition on_conn {A} (m : ST Conn A) : ST (Handler D) A := λ h,
  let '(c, r) := m (handler_conn h) in (mkHandler (handler_db h) c, r).

(** the text of a reply *)
Definition response (outcome : result ResultSet) : result bytes :=
  match outcome with
  | Err err => Ok (str "ERROR: " ++ Error err)
  | Ok r => Ok (FormatResult r)
  | Panic p => Panic p
  end.

Definition send (text : bytes) : ST (Handler D) unit :=
  let line := text ++ [x0a] in
  let! buffered := swrap "server: writing response: %w" (on_conn (write_string (length line) line)) in
  swrap "server: flushing response: %w" (on_conn (write_flush buffered)).

(** one turn of the loop; what is logged is not modelled *)
Definition answer (sql : bytes) : ST (Handler D) unit :=
  let! outcome := sattempt (on_db (Session_Execute sql)) in
  let! text := slift (response outcome) in
  send text.

Definition handle_line (line : bytes) : ST (Handler D) unit :=
  let sql := TrimSpace line in
  if decide (sql = []) then sret () else answer sql.

(** [cancelled]: the server's context was cancelled while the handler ran *)
Definition handleConnection (cancelled : bool) : ST (Handler D) unit := λ h,
  let data := received (handler_conn h) in
  let '(lines, err) := scan_lines (S (length data)) data (read_end (handler_conn h)) in
  (siter handle_line lines ;;!
   match err with
   | Some err => if cancelled then sret () else sthrow (Wrapf "server: reading request: %w" err)
   | None => sret ()
   end) h.

End server.
