(* ===== verification/Replies.v ===== *)
(** * The requests and replies of a connection

    The statements in the stream of a peer, the text they are answered with,
    and what writing it does. *)

From S2P Require Import Prelude Bytes Types Lexer Transaction Executor Session Result Server.

(** the statements in the stream of a peer, and how reading it ends *)
Definition scanned (c : Conn) : list bytes * option error :=
  scan_lines (S (length (received c))) (received c) (read_end c).
Definition statements_in (lines : list bytes) : list bytes :=
  filter (λ sql, sql ≠ []) (map TrimSpace lines).
Definition requests (c : Conn) : list bytes := statements_in (scanned c).1.

Section replies.
Context `{!ErrorTexts}.

(** the line a result is answered with *)
Definition reply (outcome : result ResultSet) : bytes :=
  match response outcome with Ok text => text ++ [x0a] | _ => [] end.
Definition replies (rs : list (result ResultSet)) : bytes := concat (map reply rs).

End replies.

(** ** Writing *)

Definition can_fail (c : Conn) : Prop := ∃ i, write_faults c i ≠ None.

(** a write appends the data, or a part of it *)
Definition appends (c : Conn) (data : bytes) (out : Conn * result unit) : Prop :=
  write_faults out.1 = write_faults c ∧ ∃ part, sent out.1 = sent c ++ part ∧
    match out.2 with
    | Ok _ => part = data
    | Err _ => part `prefix_of` data ∧ can_fail c
    | Panic _ => False
    end.

Lemma conn_write_appends data c : appends c data (conn_write data c).
Proof.
  unfold appends, conn_write. destruct (write_faults c (writes c)) as [n|] eqn:E; cbn; (split; [done|]).
  - exists (take n data). split; [done|]. split; [apply prefix_take|]. exists (writes c). by rewrite E.
  - by exists data.
Qed.

Lemma appends_then data1 data2 c c1 out :
  appends c data1 (c1, Ok ()) → appends c1 data2 out → appends c (data1 ++ data2) out.
Proof.
  intros (Hf1 & p1 & Hs1 & Hp1) (Hf2 & p2 & Hs2 & Hp2). cbn in *. subst p1. split; [congruence|].
  exists (data1 ++ p2). split; [by rewrite Hs2, Hs1, app_assoc|]. destruct out.2; [by subst| |done].
  destruct Hp2 as [Hp [i Hi]]. split; [by apply prefix_app|]. exists i. by rewrite <-Hf1.
Qed.

Lemma write_string_appends fuel data c :
  match write_string fuel data c with
  | (c', Ok buffered) => ∃ written, data = written ++ buffered ∧ appends c written (c', Ok ())
  | (c', Err err) => appends c data (c', Err err)
  | (_, Panic _) => False
  end.
Proof.
  assert (∀ c, appends c [] (c, Ok ())) as Hnil by (intros; split; [done|]; exists []; by rewrite app_nil_r).
  revert data c. induction fuel as [|fuel IH]; intros data c; cbn; [by exists []|].
  destruct (decide (length data ≤ writer_size)%nat); [by exists []|].
  unfold sbind. pose proof (conn_write_appends (take writer_size data) c) as Hw.
  destruct (conn_write _ c) as [c1 [[]|err|p]].
  - specialize (IH (drop writer_size data) c1). destruct (write_string fuel _ c1) as [c' [buffered|err|p]]; [| |done].
    + destruct IH as (written & Hd & Ha). exists (take writer_size data ++ written).
      split; [by rewrite <-app_assoc, <-Hd, take_drop|]. by eapply appends_then.
    + rewrite <-(take_drop writer_size data) at 1. by eapply appends_then.
  - destruct Hw as (Hf & part & Hs & Hp & Hc). split; [done|]. exists part. split; [done|]. split; [|done].
    etransitivity; [exact Hp|]. apply prefix_take.
  - by destruct Hw as (_ & ? & _ & []).
Qed.

(** the fuel is enough: what is left fits the buffer *)
Lemma write_string_fits fuel data c c' buffered :
  (length data ≤ fuel)%nat → write_string fuel data c = (c', Ok buffered) → (length buffered ≤ writer_size)%nat.
Proof.
  assert (0 < writer_size)%nat as Hpos by (apply Nat.ltb_lt; by vm_compute).
  revert data c. induction fuel as [|fuel IH]; intros data c Hl Hw; cbn in Hw.
  - injection Hw as _ <-. lia.
  - destruct (decide (length data ≤ writer_size)%nat); [by injection Hw as _ <-|].
    unfold sbind in Hw. destruct (conn_write _ c) as [c1 [[]|err|p]]; [|done..].
    eapply IH; [|exact Hw]. rewrite length_drop. lia.
Qed.

(** sending a reply does not touch the database *)
Lemma send_appends {D} text (h : Handler D) :
  let '(h', r) := send text h in
  handler_db h' = handler_db h ∧ appends (handler_conn h) (text ++ [x0a]) (handler_conn h', r).
Proof.
  destruct h as [D0 c]. unfold send, sbind, swrap, on_conn. cbn.
  pose proof (write_string_appends (length (text ++ [x0a])) (text ++ [x0a]) c) as Hw.
  destruct (write_string _ _ c) as [c1 [buffered|err|p]]; cbn; [|by split|done].
  destruct Hw as (written & -> & Hw).
  assert (appends c1 buffered (write_flush buffered c1)) as Hflush.
  { unfold write_flush. case_decide; [subst|apply conn_write_appends]. split; [done|]. exists []. by rewrite app_nil_r. }
  pose proof (appends_then _ _ _ _ _ Hw Hflush) as Hall. destruct (write_flush buffered c1) as [c2 [[]|err|p]]; by split.
Qed.

(** a statement is answered with its reply *)
Lemma answer_replies {D T} `{!Transaction T} `{!SQLEngine D T} `{!MapOrder} `{!ErrorTexts} sql (h : Handler D) D' r0 :
  Session_Execute sql (handler_db h) = (D', r0) →
  match r0 with
  | Panic p => answer sql h = (mkHandler D' (handler_conn h), Panic p)
  | _ =>
      let '(h', r) := answer sql h in
      handler_db h' = D' ∧ appends (handler_conn h) (reply r0) (handler_conn h', r)
  end.
Proof.
  destruct h as [D0 c]. unfold answer, sbind, sattempt, on_db, slift. cbn [handler_db handler_conn]. intros ->.
  destruct r0 as [r|err|p]; [| |done]; cbn [response]; apply send_appends.
Qed.

(** blank lines are passed over *)
Lemma lines_statements {D T} `{!Transaction T} `{!SQLEngine D T} `{!MapOrder} `{!ErrorTexts} lines (h : Handler D) :
  siter handle_line lines h = siter answer (statements_in lines) h.
Proof.
  revert h. induction lines as [|line lines IH]; intros h; [done|]. unfold statements_in. cbn [map siter].
  rewrite filter_cons. unfold sbind at 1, handle_line at 1. case_decide as He.
  - rewrite decide_False by tauto. cbn. apply IH.
  - rewrite decide_True by done. cbn [siter]. unfold sbind at 1. destruct (answer _ h) as [h' [[]|err|p]]; [|done..]. apply IH.
Qed.
