(* ===== verification/Connections.v ===== *)
(** * Connections that run at the same time ([cmd/spacedb-server/main.go])

    The accept loop starts a handler for every connection, and the handlers
    run at the same time on the one engine: [serve_run], call by call.  Each
    statement of each connection is a session in the sense of [Sessions.v], so
    a run of the server is a run of sessions. *)

From stdpp Require Import fin_sets fin_map_dom.
From S2P Require Import Prelude Bytes Engine MvccKey Mvcc MvccSpec MvccRefine MvccOps MvccReads Snapshot MvccSystem.
From S2P Require Import Types Schema Transaction Executor Json Relation Kv KvRefine KvMvcc Session Execute Recorded Rebase Concurrent Sessions.
From S2P Require Import Lexer Result Server Replies.

(** ** A handler on a recording of its calls *)

Section handler.
Context `{!Json} `{!MapOrder} `{!ErrorTexts}.
Implicit Types (h : Handler tape) (evs : list event).

Definition used_up (tp : tape) : Prop := ∀ rest, tp ≠ Tape rest.

Lemma session_frozen sql tp : used_up tp → (Session_Execute (T := player) sql tp).1 = tp.
Proof. intros Htp. unfold Session_Execute. destruct (prepare sql) as [e| |]; [|done..]. by destruct tp as [rest| |]; [destruct (Htp rest)|..]. Qed.

Lemma answer_db sql h : handler_db (answer (T := player) sql h).1 = (Session_Execute (T := player) sql (handler_db h)).1.
Proof.
  destruct (Session_Execute sql (handler_db h)) as [tp' r0] eqn:Hr. pose proof (answer_replies _ _ _ _ Hr) as Ha.
  destruct r0 as [r|err|p]; [..|by rewrite Ha]; destruct (answer sql h) as [h' r']; by destruct Ha.
Qed.

Lemma statements_frozen sqls h :
  used_up (handler_db h) → handler_db (siter (answer (T := player)) sqls h).1 = handler_db h.
Proof.
  revert h. induction sqls as [|sql sqls IH]; intros h Hh; [done|]. cbn [siter]. unfold sbind.
  pose proof (answer_db sql h) as Ha. rewrite session_frozen in Ha by done.
  destruct (answer _ h) as [h' [[]|err|p]]; cbn [fst] in Ha; [|done..]. rewrite <-Ha in Hh |- *. by apply IH.
Qed.

(** a call that is not answered, or a wrong one, is where the handler stays *)
Lemma statements_stuck sql sqls tp c :
  used_up (Session_Execute (T := player) sql tp).1 →
  handler_db (siter (answer (T := player)) (sql :: sqls) (mkHandler tp c)).1 = (Session_Execute (T := player) sql tp).1.
Proof.
  pose proof (answer_db sql (mkHandler tp c)) as Ha. cbn [handler_db siter] in *. unfold sbind. rewrite <-Ha.
  destruct (answer _ _) as [h [[]|err|p]]; [|done..]. apply statements_frozen.
Qed.

(** the calls each statement made, as far as the recording goes *)
Fixpoint segments (sqls : list bytes) (evs : list event) : list (list event) :=
  match sqls with
  | [] => []
  | sql :: sqls =>
      match (Session_Execute (T := player) sql (Tape evs)).1 with
      | Tape rest => take (length evs - length rest) evs :: segments sqls rest
      | _ => [evs]
      end
  end.

Definition segment (sqls : list bytes) (evs : list event) (j : nat) : list event := default [] (segments sqls evs !! j).

Lemma segment_out sqls evs j : sqls !! j = None → segment sqls evs j = [].
Proof.
  revert evs j. induction sqls as [|sql sqls IH]; intros evs j Hj; [done|]. destruct j as [|j]; [done|].
  unfold segment in *. cbn in *. destruct (Session_Execute _ _).1; [by apply IH|done..].
Qed.

Lemma segments_cons sql sqls used rest r :
  performs sql used r → segments (sql :: sqls) (used ++ rest) = used :: segments sqls rest.
Proof.
  intros Hp. cbn. rewrite (performs_more _ _ _ _ Hp). cbn. rewrite length_app.
  replace (length used + length rest - length rest)%nat with (length used) by lia. by rewrite take_app_length.
Qed.

Lemma segment_cons sql sqls used rest r j :
  performs sql used r →
  segment (sql :: sqls) (used ++ rest) j = match j with O => used | S j => segment sqls rest j end.
Proof. intros Hp. unfold segment. rewrite (segments_cons _ _ _ _ _ Hp). by destruct j. Qed.

Lemma segment_asks sql sqls evs q j :
  asks sql evs q → segment (sql :: sqls) evs j = match j with O => evs | _ => [] end.
Proof. unfold asks, segment. intros Hq. cbn. rewrite Hq. by destruct j as [|[|]]. Qed.

Lemma segment_nil sqls j : segment sqls [] j = [].
Proof.
  revert j. induction sqls as [|sql sqls IH]; intros j; [done|].
  destruct (session_cases sql []) as [(used & rest & r & Heq & Hp)|[(q & Hq & _)|Hoff]].
  - symmetry in Heq. apply app_nil in Heq as [-> ->]. pose proof (segment_cons sql sqls [] [] r j Hp) as Hj. cbn [app] in Hj. rewrite Hj. by destruct j.
  - rewrite (segment_asks _ _ _ _ _ Hq). by destruct j.
  - unfold segment. cbn. rewrite Hoff. by destruct j as [|[|]].
Qed.

(** a call of the handler is one of the statement it has come to *)
Lemma statements_ask sqls evs c q :
  handler_db (siter (answer (T := player)) sqls (mkHandler (Tape evs) c)).1 = Asked q →
  ∃ k sql, sqls !! k = Some sql ∧ asks sql (segment sqls evs k) q ∧
    ∀ ev, is_answer q ev → ∀ j,
      segment sqls (evs ++ [ev]) j = if decide (j = k) then segment sqls evs j ++ [ev] else segment sqls evs j.
Proof.
  revert evs c. induction sqls as [|sql sqls IH]; intros evs c Hq; [done|].
  destruct (session_cases sql evs) as [(used & rest & r & -> & Hp)|[(q0 & Hq0 & Hev)|Hoff]].
  - cbn [siter] in Hq. unfold sbind in Hq. pose proof (answer_db sql (mkHandler (Tape (used ++ rest)) c)) as Ha.
    cbn [handler_db] in Ha. rewrite (performs_more _ _ _ _ Hp) in Ha. destruct (answer _ _) as [[tp c'] [[]|err|p]]; cbn in Ha, Hq; subst tp; try done.
    destruct (IH _ _ Hq) as (k & sql' & Hk & Hask & Hseg). exists (S k), sql'. split; [done|].
    rewrite (segment_cons _ _ _ _ _ _ Hp). split; [done|]. intros ev Hans j.
    rewrite <-app_assoc, !(segment_cons _ _ _ _ _ _ Hp). destruct j as [|j]; [by rewrite decide_False|].
    rewrite (Hseg ev Hans). destruct (decide (j = k)) as [->|Hne]; [by rewrite decide_True|by rewrite decide_False by congruence].
  - rewrite statements_stuck, Hq0 in Hq by (by rewrite Hq0). injection Hq as ->.
    exists 0%nat, sql. split; [done|]. rewrite (segment_asks _ _ _ _ _ Hq0). split; [done|]. intros ev Hans j.
    rewrite (segment_asks _ _ _ _ _ Hq0). destruct (Hev ev Hans) as [[r Hp]|[q' Hq']].
    + pose proof (segment_cons _ sqls _ [] _ j Hp) as Hj. rewrite app_nil_r in Hj. rewrite Hj.
      destruct j; [done|]. apply segment_nil.
    + rewrite (segment_asks _ _ _ _ _ Hq'). by destruct j.
  - by rewrite statements_stuck, Hoff in Hq by (by rewrite Hoff).
Qed.

(** the recording is used up, or the code makes the next call *)
Definition on_track (tp : tape) : Prop := tp = Tape [] ∨ ∃ q, tp = Asked q.

Lemma session_starts sql : on_track (Session_Execute (T := player) sql (Tape [])).1.
Proof.
  destruct (prepare sql) as [e|err|p] eqn:Hp; [|unfold Session_Execute; rewrite Hp; by left..].
  rewrite (Session_Execute_transact _ _ _ Hp). right. by eexists.
Qed.

(** what is sent does not depend on the recording *)
Lemma answer_same sql c r0 :
  ∃ c' r, ∀ tp tp', Session_Execute (T := player) sql tp = (tp', r0) →
    answer (T := player) sql (mkHandler tp c) = (mkHandler tp' c', r).
Proof.
  unfold answer, send, sbind, swrap, sattempt, on_db, on_conn, slift. cbn [handler_db handler_conn].
  destruct (response r0) as [text|err|p] eqn:Hr; [|by destruct r0..|].
  - destruct (write_string (length (text ++ [x0a])) (text ++ [x0a]) c) as [c1 [buffered|err|p]] eqn:Hw.
    + destruct (write_flush buffered c1) as [c2 r] eqn:Hf. exists c2, (rwrap "server: flushing response: %w" r).
      intros tp tp' ->. destruct r0 as [r0|err|p]; [| |done]; rewrite Hr; cbn [handler_conn handler_db]; rewrite Hw; cbn [rwrap handler_conn handler_db]; by rewrite Hf.
    + eexists c1, _. intros tp tp' ->. destruct r0 as [r0|err'|p']; [| |done]; rewrite Hr; cbn [handler_conn handler_db]; by rewrite Hw.
    + eexists c1, _. intros tp tp' ->. destruct r0 as [r0|err'|p']; [| |done]; rewrite Hr; cbn [handler_conn handler_db]; by rewrite Hw.
  - destruct r0 as [r|err|pa]; [done..|]. exists c, (Panic pa). by intros tp tp' ->.
Qed.

Lemma statements_start sqls c : on_track (handler_db (siter (answer (T := player)) sqls (mkHandler (Tape []) c)).1).
Proof.
  revert c. induction sqls as [|sql sqls IH]; intros c; [by left|].
  destruct (session_starts sql) as [Hs|[q Hq]].
  - destruct (Session_Execute sql (Tape [])) as [tp r0] eqn:Hr. cbn in Hs. subst tp.
    destruct (answer_same sql c r0) as (c' & r & Ha). cbn [siter]. unfold sbind. rewrite (Ha _ _ Hr).
    destruct r as [[]|err|p]; [apply IH|by left..].
  - right. exists q. rewrite statements_stuck; [done|]. by rewrite Hq.
Qed.

(** a handler goes on when its call is answered *)
Lemma statements_track sqls evs c q ev :
  handler_db (siter (answer (T := player)) sqls (mkHandler (Tape evs) c)).1 = Asked q → is_answer q ev →
  on_track (handler_db (siter (answer (T := player)) sqls (mkHandler (Tape (evs ++ [ev])) c)).1).
Proof.
  revert evs c. induction sqls as [|sql sqls IH]; intros evs c Hq Hev; [done|].
  destruct (session_cases sql evs) as [(used & rest & r0 & -> & Hp)|[(q0 & Hq0 & Hnext)|Hoff]].
  - destruct (answer_same sql c r0) as (c' & r & Ha). rewrite <-app_assoc. cbn [siter] in *. unfold sbind in *.
    rewrite (Ha _ _ (performs_more _ _ _ rest Hp)) in Hq. rewrite (Ha _ _ (performs_more _ _ _ (rest ++ [ev]) Hp)).
    destruct r as [[]|err|p]; [by eapply IH|done..].
  - rewrite statements_stuck, Hq0 in Hq by (by rewrite Hq0). injection Hq as ->.
    destruct (Hnext ev Hev) as [[r0 Hp]|[q' Hq']].
    + destruct (answer_same sql c r0) as (c' & r & Ha). cbn [siter]. unfold sbind. rewrite (Ha _ _ Hp).
      destruct r as [[]|err|p]; [apply statements_start|by left..].
    + right. exists q'. by rewrite statements_stuck, Hq' by (by rewrite Hq').
  - by rewrite statements_stuck, Hoff in Hq by (by rewrite Hoff).
Qed.

(** a handler makes finitely many calls, whatever they are answered *)
Lemma statements_stops sqls c evs :
  stops (λ evs, handler_db (siter (answer (T := player)) sqls (mkHandler (Tape evs) c)).1) evs.
Proof.
  revert c evs. induction sqls as [|sql sqls IHs]; intros c evs; [by apply stops_done|].
  induction (session_stops sql evs) as [evs _ IH].
  destruct (session_cases sql evs) as [(used & rest & r0 & -> & Hp)|[(q0 & Hq0 & _)|Hoff]].
  - destruct (answer_same sql c r0) as (c' & r & Ha).
    assert (∀ rest, siter (answer (T := player)) (sql :: sqls) (mkHandler (Tape (used ++ rest)) c) =
      match r with Ok _ => siter (answer (T := player)) sqls (mkHandler (Tape rest) c')
      | Err e => (mkHandler (Tape rest) c', Err e) | Panic p => (mkHandler (Tape rest) c', Panic p) end) as Heq.
    { intros rest'. cbn [siter]. unfold sbind. rewrite (Ha _ _ (performs_more _ _ _ rest' Hp)). by destruct r as [[]| |]. }
    destruct r as [u|err|p]; [|apply stops_done; intros q; by rewrite Heq..].
    eapply stops_shift; [|apply (IHs c')]. intros rest'. by rewrite Heq.
  - constructor. intros q ev. rewrite statements_stuck, Hq0 by (by rewrite Hq0). intros [= <-]. by apply IH.
  - apply stops_done. intros q. by rewrite statements_stuck, Hoff by (by rewrite Hoff).
Qed.

(** a statement, the calls it made, and its result *)
Record exchange := mkExchange { ex_sql : bytes; ex_calls : list event; ex_result : result ResultSet }.
Definition exchanged (x : exchange) : Prop := performs (ex_sql x) (ex_calls x) (ex_result x).

(** the exchanges of a handler that has ended with [r] *)
Definition handled (sqls : list bytes) (evs : list event) (c c' : Conn) (r : result unit) (xs : list exchange) : Prop :=
  Forall exchanged xs ∧ (∀ j, segment sqls evs j = from_option ex_calls [] (xs !! j)) ∧ evs = concat (map ex_calls xs) ∧
  write_faults c' = write_faults c ∧
  ∃ skipped part,
    sqls = map ex_sql xs ++ skipped ∧ sent c' = sent c ++ part ∧
    match r with
    | Ok _ => skipped = [] ∧ part = replies (map ex_result xs)
    | Err _ => can_fail c ∧ ∃ xs' x cut, xs = xs' ++ [x] ∧ part = replies (map ex_result xs') ++ cut ∧ cut `prefix_of` reply (ex_result x)
    | Panic _ => ∃ x, x ∈ xs ∧ ¬ no_panic (ex_result x)
    end.

Lemma handled_one sql sqls evs r0 c c' r cut :
  performs sql evs r0 → write_faults c' = write_faults c → sent c' = sent c ++ cut →
  match r with Ok _ => False | Err _ => can_fail c ∧ cut `prefix_of` reply r0 | Panic _ => ¬ no_panic r0 end →
  handled (sql :: sqls) evs c c' r [mkExchange sql evs r0].
Proof.
  intros Hp Hf Hs Hr. split; [by constructor|]. split.
  { intros j. pose proof (segment_cons sql sqls evs [] r0 j Hp) as Hj. rewrite app_nil_r in Hj. rewrite Hj.
    destruct j; [done|]. apply segment_nil. }
  split; [cbn; by rewrite app_nil_r|]. split; [done|]. exists sqls, cut. split; [done|]. split; [done|].
  destruct r as [u|err|p]; [done| |].
  - destruct Hr as [Hc Hcut]. split; [done|]. by exists [], (mkExchange sql evs r0), cut.
  - exists (mkExchange sql evs r0). split; [apply list_elem_of_here|done].
Qed.

Lemma handled_cons sql sqls used rest r0 c c1 c' r xs :
  performs sql used r0 → appends c (reply r0) (c1, Ok ()) → handled sqls rest c1 c' r xs →
  handled (sql :: sqls) (used ++ rest) c c' r (mkExchange sql used r0 :: xs).
Proof.
  intros Hp (Hf & part1 & Hs1 & ->) (Hxs & Hseg & -> & Hf' & skipped & part & -> & Hs & Hr). cbn in Hf, Hs1.
  split; [by constructor|]. split; [intros [|j]; by rewrite (segment_cons _ _ _ _ _ _ Hp)|]. split; [done|].
  split; [congruence|]. exists skipped, (reply r0 ++ part). split; [done|].
  split; [by rewrite Hs, Hs1, app_assoc|]. destruct r as [u|err|p].
  - by destruct Hr as [-> ->].
  - destruct Hr as ([i Hi] & xs' & x & cut & -> & -> & Hcut). split; [exists i; congruence|].
    exists (mkExchange sql used r0 :: xs'), x, cut. split; [done|]. split; [|done]. unfold replies. cbn. by rewrite app_assoc.
  - destruct Hr as (x & Hx & Hnp). exists x. split; [by apply list_elem_of_further|done].
Qed.

Lemma statements_end sqls evs c h r :
  siter (answer (T := player)) sqls (mkHandler (Tape evs) c) = (h, r) → handler_db h = Tape [] →
  ∃ xs, handled sqls evs c (handler_conn h) r xs.
Proof.
  revert evs c. induction sqls as [|sql sqls IH]; intros evs c Hh Hdb; cbn [siter] in Hh.
  { injection Hh as <- <-. injection Hdb as ->. exists []. split; [constructor|]. split; [done|]. split; [done|].
    split; [done|]. exists [], []. split; [done|]. split; [by rewrite app_nil_r|done]. }
  assert (used_up (Session_Execute (T := player) sql (Tape evs)).1 → False) as Hstuck.
  { intros Hu. pose proof (statements_stuck sql sqls _ c Hu) as Hf. cbn [siter] in Hf. rewrite Hh in Hf.
    cbn in Hf. destruct (Hu []). congruence. }
  unfold sbind in Hh.
  destruct (session_cases sql evs) as [(used & rest & r0 & -> & Hp)|[(q0 & Hq0 & _)|Hoff]].
  2:{ destruct Hstuck. unfold asks in Hq0. rewrite Hq0. by intros ?. }
  2:{ destruct Hstuck. rewrite Hoff. by intros ?. }
  clear Hstuck. pose proof (answer_replies sql (mkHandler (Tape (used ++ rest)) c) _ _ (performs_more _ _ _ rest Hp)) as Ha.
  cbn [handler_conn] in Ha. destruct (decide (is_panic r0)) as [Hpa|Hnp].
  { destruct r0 as [r0|err|pa]; [done..|]. rewrite Ha in Hh. injection Hh as <- <-. injection Hdb as ->.
    rewrite app_nil_r in *. eexists. apply (handled_one sql sqls used (Panic pa) c c _ []); [done|done|by rewrite app_nil_r|by intros []]. }
  assert (let '(h', r) := answer sql (mkHandler (Tape (used ++ rest)) c) in
    handler_db h' = Tape rest ∧ appends c (reply r0) (handler_conn h', r)) as Ha' by (by destruct r0; [..|destruct Hnp]).
  clear Ha. destruct (answer _ _) as [[tp c1] [[]|err|p]]; destruct Ha' as [Htp Hap]; cbn in Htp, Hap, Hh; subst tp.
  - destruct (IH _ _ Hh Hdb) as (xs & Hxs). eexists. by eapply handled_cons.
  - injection Hh as <- <-. injection Hdb as ->. rewrite app_nil_r in *. destruct Hap as (Hf & part & Hs & Hcut & Hc).
    eexists. by apply (handled_one sql sqls used r0 c c1 _ part).
  - by destruct Hap as (_ & part & _ & []).
Qed.

End handler.

(** ** The server *)

(** where the accept loop is *)
Inductive loop := Accepting | Waiting | Returned (r : result unit).

(** [running]: the connections accepted and not closed; [ended]: what was sent
    on the closed ones, and how their handlers ended *)
Record Serving (K : Type) `{Countable K} := mkServing {
  serve_loop : loop;
  serve_cancelled : bool;
  running : gset K;
  ended : gmap K (Conn * result unit);
}.
Arguments mkServing {K _ _} serve_loop serve_cancelled running ended.
Arguments serve_loop {K _ _} s.
Arguments serve_cancelled {K _ _} s.
Arguments running {K _ _} s.
Arguments ended {K _ _} s.

Section server.
Context {E : Type} `{EngineLaws E} `{!Json} `{!MapOrder} `{!ErrorTexts} `{Countable K} (peers : K → Conn).
Abbreviation system := (sys (E := E)).
Implicit Types (S : Serving K) (l : calls_log K) (c : system).

(** the handler of a connection, as far as its calls go *)
Definition handle (cancelled : bool) (i : K) (evs : list event) : Handler tape * result unit :=
  handleConnection (T := player) cancelled (mkHandler (Tape evs) (peers i)).

(** [Serve], the handlers it starts, and the context that ends it *)
Inductive serve_step : calls_log K → Serving K → system → calls_log K → Serving K → system → Prop :=
  | serve_accept l cancelled run done c i :
      i ∉ run → done !! i = None →
      serve_step l (mkServing Accepting cancelled run done) c l (mkServing Accepting cancelled ({[i]} ∪ run) done) c
  | serve_cancel l lp cancelled run done c :
      serve_step l (mkServing lp cancelled run done) c l (mkServing lp true run done) c
  | serve_closed l run done c :
      serve_step l (mkServing Accepting true run done) c l (mkServing Waiting true run done) c
  | serve_fail l run done c err :
      serve_step l (mkServing Accepting false run done) c
                 l (mkServing (Returned (Err (Wrapf "server: accepting connection: %w" err))) false run done) c
  | serve_wait l cancelled done c :
      serve_step l (mkServing Waiting cancelled ∅ done) c l (mkServing (Returned (Ok ())) cancelled ∅ done) c
  | serve_call l S c i q ev c' :
      i ∈ running S → handler_db (handle (serve_cancelled S) i (calls_of i l)).1 = Asked q →
      is_answer q ev → sys_step c ev c' →
      serve_step l S c (l ++ [(Some i, ev)]) S c'
  | serve_end l lp cancelled run done c i h r :
      i ∈ run → handle cancelled i (calls_of i l) = (h, r) → handler_db h = Tape [] →
      serve_step l (mkServing lp cancelled run done) c
                 l (mkServing lp cancelled (run ∖ {[i]}) (<[i := (handler_conn h, r)]> done)) c.

Inductive serve_run (c0 : system) : calls_log K → Serving K → system → Prop :=
  | serve_start : serve_run c0 [] (mkServing Accepting false ∅ ∅) c0
  | serve_next l S c l' S' c' : serve_run c0 l S c → serve_step l S c l' S' c' → serve_run c0 l' S' c'.

(** ** Its handlers *)

(** the error a handler ends with, when it has answered everything *)
Definition read_result (cancelled : bool) (i : K) : result unit :=
  match (scanned (peers i)).2 with
  | Some err => if cancelled then Ok () else Err (Wrapf "server: reading request: %w" err)
  | None => Ok ()
  end.

Lemma handle_statements cancelled i evs :
  handle cancelled i evs =
    let '(h, r) := siter (answer (T := player)) (requests (peers i)) (mkHandler (Tape evs) (peers i)) in
    (h, match r with Ok _ => read_result cancelled i | r => r end).
Proof.
  unfold handle, handleConnection, requests, read_result. cbn [handler_conn]. fold (scanned (peers i)).
  destruct (scanned (peers i)) as [lines err]. cbn [fst snd]. unfold sbind. rewrite lines_statements.
  destruct (siter _ _ _) as [h [[]|err'|p]]; [|done..]. by destruct err, cancelled.
Qed.

Lemma handle_end cancelled i evs h r :
  handle cancelled i evs = (h, r) → handler_db h = Tape [] →
  ∃ xs r0, handled (requests (peers i)) evs (peers i) (handler_conn h) r0 xs ∧
    r = match r0 with Ok _ => read_result cancelled i | r0 => r0 end.
Proof.
  rewrite handle_statements. destruct (siter _ _ _) as [h0 r0] eqn:Hh. intros [= <- <-] Hdb.
  destruct (statements_end _ _ _ _ _ Hh Hdb) as (xs & Hxs). by exists xs, r0.
Qed.

(** the statement a session of the server runs *)
Definition statement_at (ij : K * nat) : bytes := default [] (requests (peers ij.1) !! ij.2).

Lemma statement_utf8 :
  (∀ i, Forall (λ sql, valid_utf8 sql = true) (requests (peers i))) → ∀ ij, valid_utf8 (statement_at ij) = true.
Proof.
  intros Hutf [i j]. unfold statement_at. cbn. destruct (requests (peers i) !! j) as [sql|] eqn:Hsql; [|done].
  exact (proj1 (Forall_lookup _ _) (Hutf i) j sql Hsql).
Qed.

(** a run of the server is a run of the sessions of its connections *)
Lemma serve_sessions c0 l S c :
  serve_run c0 l S c →
  ∃ m, conc_run statement_at c0 m c ∧ m.*2 = l.*2 ∧
    ∀ i j, calls_of (i, j) m = segment (requests (peers i)) (calls_of i l) j.
Proof.
  induction 1 as [|l S c l' S' c' _ (m & Hrun & Hm & Hseg) Hstep].
  { exists []. split; [constructor|]. split; [done|]. intros i j. by rewrite segment_nil. }
  destruct Hstep as [| | | | |l S c i q ev c' _ Hask Ha Hs|]; try (by exists m).
  rewrite handle_statements in Hask.
  destruct (siter _ _ _) as [h r] eqn:Hh. cbn [fst] in Hask.
  destruct (statements_ask (requests (peers i)) (calls_of i l) (peers i) q) as (k & sql & Hk & Hsql & Hext); [by rewrite Hh|].
  exists (m ++ [(Some (i, k), ev)]). split; [|split].
  - eapply conc_call; [done| |done|done]. rewrite Hseg. unfold statement_at. cbn. by rewrite Hk.
  - by rewrite !fmap_app, Hm.
  - intros i' j. rewrite !calls_of_snoc. cbn [fst snd]. destruct (decide (i' = i)) as [->|Hne].
    + rewrite (decide_True (P := Some i = Some i)) by done. rewrite (Hext ev Ha), Hseg.
      destruct (decide (j = k)) as [->|Hj]; [by rewrite decide_True|by rewrite decide_False by congruence].
    + rewrite !decide_False by congruence. by rewrite Hseg.
Qed.

(** so it is a run of the machine of statements *)
Lemma serve_refines `{!JsonLaws} c0 d0 l S c room left :
  at_rest room c0 d0 → serve_run c0 l S c →
  (∀ i, Forall (λ sql, valid_utf8 sql = true) (requests (peers i))) → begins l.*2 + Z.of_nat left ≤ Z.of_nat room →
  ∃ m stmt outcome s,
    m.*2 = l.*2 ∧ (∀ i j, calls_of (i, j) m = segment (requests (peers i)) (calls_of i l) j) ∧
    sql_run (mkSdb d0 ∅) (omap (sql_event_of stmt outcome) l.*2) s ∧ live left c s ∧
    (∀ t, EvBegin t ∈ l.*2 → ∃ i, stmt (ts_version t) ∈ requests (peers i)) ∧
    ∀ ij r, performs (statement_at ij) (calls_of ij m) r →
      no_panic r ∧ ∃ es, answered (statement_at ij) r es ∧ es `sublist_of` omap (sql_event_of stmt outcome) (calls_of ij m).
Proof.
  intros Hf Hrun Hutf Hroom. destruct (serve_sessions _ _ _ _ Hrun) as (m & Hm & Hml & Hseg). rewrite <-Hml in Hroom |- *.
  destruct (sessions_refine _ _ _ _ _ _ _ Hf Hm (statement_utf8 Hutf) Hroom) as (stmt & outcome & s & Ho & Hsql & Hh & Hans).
  exists m, stmt, outcome, s. split; [done|]. split; [done|]. split; [done|]. split; [done|]. split; [|done].
  intros t Ht. destruct (owns_begun _ _ _ _ _ _ _ Hm Ho Ht) as ([i j] & Hne & ->). exists i.
  unfold statement_at. cbn. destruct (requests (peers i) !! j) as [sql|] eqn:Hj; [by eapply list_elem_of_lookup_2|].
  destruct Hne. by rewrite Hseg, segment_out.
Qed.

(** what is known of the loop and of the connections that were closed *)
Record serve_inv l S : Prop := {
  inv_disjoint i : i ∈ running S → ended S !! i = None;
  inv_ended i conn r : ended S !! i = Some (conn, r) →
    ∃ cancelled h, handle cancelled i (calls_of i l) = (h, r) ∧ handler_db h = Tape [] ∧ handler_conn h = conn ∧
      (cancelled = true → serve_cancelled S = true);
  inv_waiting : serve_loop S = Waiting → serve_cancelled S = true;
  inv_returned : serve_loop S = Returned (Ok ()) → serve_cancelled S = true ∧ running S = ∅;
}.

Lemma serve_run_inv c0 l S c : serve_run c0 l S c → serve_inv l S.
Proof.
  induction 1 as [|l S c l' S' c' _ [Hd He Hw Hr] Hstep].
  { by split; cbn. }
  destruct Hstep as [l cancelled run done c i Hi Hdone|l lp cancelled run done c|l run done c|l run done c err
    |l cancelled done c|l S c i q ev c' Hi Hask Ha Hs|l lp cancelled run done c i h r Hi Hh Hdb]; cbn in *.
  - split; cbn; try done. intros j [->%elem_of_singleton|Hj]%elem_of_union; [done|by apply Hd].
  - split; cbn; try done; [|by intros [_ ?]%Hr].
    intros j conn r Hj. destruct (He j conn r Hj) as (b & h & ? & ? & ? & _). by exists b, h.
  - by split.
  - by split.
  - split; cbn; try done. intros _. by rewrite Hw.
  - split; [done| |done|done]. intros j conn r Hj. destruct (He j conn r Hj) as (b & h & Hh & ?).
    exists b, h. rewrite calls_of_snoc, decide_False; [done|]. cbn. intros [= ->]. by rewrite Hd in Hj.
  - split; cbn; [..|done|].
    + intros j [Hj Hne]%elem_of_difference. rewrite lookup_insert_ne by set_solver. by apply Hd.
    + intros j conn r'. rewrite lookup_insert_Some. intros [[<- [= <- <-]]|[Hne Hj]]; [by exists cancelled, h|by apply He].
    + intros [-> ->]%Hr. done.
Qed.

(** ** An executable scheduler *)

Inductive command :=
  | DoAccept (i : K)
  | DoCancel
  | DoClosed
  | DoFail (err : error)
  | DoWait
  | DoCall (i : K)
  | DoEnd (i : K).

Definition serve_exec1 (p : calls_log K * Serving K * system) (o : command) : calls_log K * Serving K * system :=
  let '(l, serving, c) := p in
  let '(mkServing lp cancelled run done) := serving in
  match o with
  | DoAccept i =>
      match lp, decide (i ∉ run ∧ done !! i = None) with
      | Accepting, left _ => (l, mkServing Accepting cancelled ({[i]} ∪ run) done, c)
      | _, _ => p
      end
  | DoCancel => (l, mkServing lp true run done, c)
  | DoClosed => match lp, cancelled with Accepting, true => (l, mkServing Waiting true run done, c) | _, _ => p end
  | DoFail err =>
      match lp, cancelled with
      | Accepting, false => (l, mkServing (Returned (Err (Wrapf "server: accepting connection: %w" err))) false run done, c)
      | _, _ => p
      end
  | DoWait =>
      match lp, decide (run = ∅) with
      | Waiting, left _ => (l, mkServing (Returned (Ok ())) cancelled ∅ done, c)
      | _, _ => p
      end
  | DoCall i =>
      if decide (i ∈ run) then
        match handler_db (handle cancelled i (calls_of i l)).1 with
        | Asked q => match perform q c with Some (ev, c') => (l ++ [(Some i, ev)], serving, c') | None => p end
        | _ => p
        end
      else p
  | DoEnd i =>
      if decide (i ∈ run) then
        let '(h, r) := handle cancelled i (calls_of i l) in
        match handler_db h with
        | Tape [] => (l, mkServing lp cancelled (run ∖ {[i]}) (<[i := (handler_conn h, r)]> done), c)
        | _ => p
        end
      else p
  end.

Definition serve_exec (os : list command) (c : system) : calls_log K * Serving K * system :=
  foldl serve_exec1 ([], mkServing Accepting false ∅ ∅, c) os.

Lemma serve_exec1_sound l S c o :
  serve_exec1 (l, S, c) o = (l, S, c) ∨
  let '(l', S', c') := serve_exec1 (l, S, c) o in serve_step l S c l' S' c'.
Proof.
  destruct S as [lp cancelled run done], o as [i| | |err| |i|i]; unfold serve_exec1.
  - destruct lp; [|by left..]. destruct (decide _) as [[]|]; [right; by constructor|by left].
  - right. constructor.
  - destruct lp; [|by left..]. destruct cancelled; [right; constructor|by left].
  - destruct lp; [|by left..]. destruct cancelled; [by left|right; constructor].
  - destruct lp; [by left| |by left]. destruct (decide _) as [->|]; [right; constructor|by left].
  - destruct (decide _) as [Hi|]; [|by left]. destruct (handler_db _) as [rest|q|] eqn:Hq; [by left| |by left].
    destruct (perform q c) as [[ev c']|] eqn:Ha; [|by left]. right.
    apply perform_sound in Ha as [Ha Hs]. by eapply serve_call.
  - destruct (decide _) as [Hi|]; [|by left]. destruct (handle _ _ _) as [h r] eqn:Hh.
    destruct (handler_db h) as [[|]|q|] eqn:Hq; [|by left..]. right. by apply serve_end.
Qed.

Lemma serve_exec_sound os c : serve_run c (serve_exec os c).1.1 (serve_exec os c).1.2 (serve_exec os c).2.
Proof.
  unfold serve_exec. induction os as [|o os IH] using rev_ind; [constructor|]. rewrite foldl_snoc.
  destruct (foldl _ _ os) as [[l S] c1]. destruct (serve_exec1_sound l S c1 o) as [->|Hs]; [done|].
  destruct (serve_exec1 _ o) as [[l' S'] c']. by econstructor.
Qed.

End server.
