(* ===== verification/Shutdown.v ===== *)
(** * A server always goes on, and stops when it is asked to

    In every state the server can reach, a connection that is open has ended or
    makes its next call, and it makes finitely many calls; so a server whose
    context is cancelled can return. *)

From stdpp Require Import fin_sets fin_map_dom relations.
From S2P Require Import Prelude Bytes Engine MvccKey Mvcc MvccSpec MvccRefine MvccOps MvccReads Snapshot MvccSystem.
From S2P Require Import Types Schema Transaction Executor Json Relation Kv KvRefine KvMvcc Session Execute Recorded Rebase Concurrent Sessions.
From S2P Require Import Lexer Result Server Replies Connections.

Section server.
Context {E : Type} `{EngineLaws E} `{!Json} `{!JsonLaws} `{!MapOrder} `{!ErrorTexts} `{Countable K} (peers : K → Conn).
Abbreviation system := (sys (E := E)).
Abbreviation handle := (handle peers).
Abbreviation serve_step := (serve_step peers).
Abbreviation serve_run := (serve_run peers).
Implicit Types (S : Serving K) (l : calls_log K) (c : system).

(** ** No handler is stuck *)

Lemma handle_db cancelled i evs :
  handler_db (handle cancelled i evs).1 =
    handler_db (siter (answer (T := player)) (requests (peers i)) (mkHandler (Tape evs) (peers i))).1.
Proof. rewrite handle_statements. by destruct (siter _ _ _). Qed.

Lemma serve_on_track c0 l S c cancelled i :
  serve_run c0 l S c → on_track (handler_db (handle cancelled i (calls_of i l)).1).
Proof.
  rewrite handle_db. induction 1 as [|l S c l' S' c' _ IH Hstep]; [apply statements_start|].
  destruct Hstep as [| | | | |l S c j q ev c' Hj Hask Ha Hs|]; try done. rewrite calls_of_snoc. cbn [fst snd].
  case_decide as Hi; [|done]. injection Hi as ->. rewrite handle_db in Hask. by eapply statements_track.
Qed.

Lemma serve_no_crash c0 l S c : serve_run c0 l S c → EvCrash ∉ l.*2.
Proof.
  induction 1 as [|l S c l' S' c' _ IH Hstep]; [apply not_elem_of_nil|].
  destruct Hstep as [| | | | |l S c j q ev c' Hj Hask Ha Hs|]; try done. rewrite fmap_app. cbn.
  intros [?|<-%list_elem_of_singleton]%elem_of_app; [done|]. by destruct q.
Qed.

(** the transaction a handler calls is open *)
Lemma serve_open room d0 c0 l S c cancelled i q t :
  at_rest room c0 d0 → serve_run c0 l S c → (∀ i, Forall (λ sql, valid_utf8 sql = true) (requests (peers i))) →
  handler_db (handle cancelled i (calls_of i l)).1 = Asked q → request_txn q = Some t → t ∈ sys_open c.
Proof.
  intros Hrest Hrun Hutf Hask Hq. destruct (at_rest_sim _ _ _ Hrest) as (s0 & p0 & Hs0 & _).
  destruct (serve_sessions _ _ _ _ _ Hrun) as (m & Hm & Hml & Hseg).
  destruct (conc_run_owns _ _ _ _ _ _ Hs0 (statement_utf8 peers Hutf) Hm) as (stmt & outcome & Ho).
  rewrite handle_db in Hask. destruct (siter _ _ _) as [h r] eqn:Hh. cbn [fst] in Hask.
  destruct (statements_ask (requests (peers i)) (calls_of i l) (peers i) q) as (k & sql & Hk & Hsql & _); [by rewrite Hh|].
  apply (asks_open _ _ _ _ _ _ (i, k) q t Ho Hm); [|rewrite Hseg; unfold statement_at; cbn; by rewrite Hk|done].
  rewrite Hml. by eapply serve_no_crash.
Qed.

(** a connection that was accepted, and not closed, is closed or makes its next call *)
Lemma serve_goes_on room d0 c0 l S c i :
  at_rest room c0 d0 → serve_run c0 l S c → (∀ i, Forall (λ sql, valid_utf8 sql = true) (requests (peers i))) →
  begins l.*2 < Z.of_nat room → i ∈ running S →
  (∃ conn r, serve_step l S c
     l (mkServing (serve_loop S) (serve_cancelled S) (running S ∖ {[i]}) (<[i := (conn, r)]> (ended S))) c) ∨
  ∃ q ev c', handler_db (handle (serve_cancelled S) i (calls_of i l)).1 = Asked q ∧ is_answer q ev ∧
    serve_step l S c (l ++ [(Some i, ev)]) S c'.
Proof.
  intros Hrest Hrun Hutf Hroom Hi. destruct (serve_on_track _ _ _ _ (serve_cancelled S) i Hrun) as [Hend|[q Hq]].
  - left. destruct (handle _ i _) as [h r] eqn:Hh. cbn in Hend. exists (handler_conn h), r.
    destruct S as [lp cancelled run done]. cbn in *. by apply serve_end.
  - right. destruct (serve_refines peers _ _ _ _ _ room 1 Hrest Hrun Hutf) as (_ & stmt & outcome & s & _ & _ & _ & Hlive & _); [lia|].
    destruct (answers 0 c s q Hlive) as (ev & c' & Ha & Hs); [intros t; by eapply serve_open|].
    exists q, ev, c'. split; [done|]. split; [done|]. by eapply serve_call.
Qed.

(** the state of a run; what it may become *)
Definition serve_state : Type := calls_log K * Serving K * system.
Definition serve_moves (x y : serve_state) : Prop := serve_step x.1.1 x.1.2 x.2 y.1.1 y.1.2 y.2.

Lemma serve_run_moves c0 x y : serve_run c0 x.1.1 x.1.2 x.2 → rtc serve_moves x y → serve_run c0 y.1.1 y.1.2 y.2.
Proof. intros Hx Hxy. induction Hxy as [x|x y z Hs _ IH]; [done|]. apply IH. by eapply serve_next. Qed.

(** one connection at a time can be served to its end, while transactions can begin *)
Lemma serve_closes room d0 c0 l S c i :
  at_rest room c0 d0 → serve_run c0 l S c → (∀ i, Forall (λ sql, valid_utf8 sql = true) (requests (peers i))) →
  i ∈ running S →
  ∃ l' S' c', rtc serve_moves (l, S, c) (l', S', c') ∧
    (Z.of_nat room ≤ begins l'.*2 ∨
     ∃ end_, S' = mkServing (serve_loop S) (serve_cancelled S) (running S ∖ {[i]}) (<[i := end_]> (ended S))).
Proof.
  intros Hrest Hrun Hutf Hi.
  assert (stops (λ evs, handler_db (handle (serve_cancelled S) i evs).1) (calls_of i l)) as Hstops.
  { eapply (stops_shift _ _ []); [|apply statements_stops]. intros evs. apply handle_db. }
  remember (calls_of i l) as evs eqn:Hevs. revert l c Hevs Hrun. induction Hstops as [evs _ IH]. intros l c -> Hrun.
  destruct (decide (Z.of_nat room ≤ begins l.*2)) as [Hno|Hroom]; [exists l, S, c; by split; [|left]|].
  destruct (serve_goes_on room d0 c0 l S c i) as [(conn & r & Hs)|(q & ev & c' & Hq & Ha & Hs)]; try done; [lia|..].
  - eexists l, _, c. split; [apply rtc_once; exact Hs|right]. by eexists.
  - destruct (IH q ev Hq Ha (l ++ [(Some i, ev)]) c') as (l' & S' & c2 & Hsteps & Hend).
    + by rewrite calls_of_snoc, decide_True.
    + by eapply serve_next.
    + exists l', S', c2. split; [|done]. by eapply (rtc_l _ _ (l ++ [(Some i, ev)], S, c')).
Qed.

Lemma serve_closes_all room d0 c0 l S c :
  at_rest room c0 d0 → serve_run c0 l S c → (∀ i, Forall (λ sql, valid_utf8 sql = true) (requests (peers i))) →
  ∃ l' S' c', rtc serve_moves (l, S, c) (l', S', c') ∧
    (Z.of_nat room ≤ begins l'.*2 ∨
     serve_loop S' = serve_loop S ∧ serve_cancelled S' = serve_cancelled S ∧ running S' = ∅).
Proof.
  intros Hrest Hrun Hutf. remember (size (running S)) as n eqn:Hn. revert l S c Hn Hrun.
  induction n as [|n IH]; intros l S c Hn Hrun.
  - exists l, S, c. split; [done|right]. split; [done|]. split; [done|]. apply leibniz_equiv, size_empty_inv. lia.
  - destruct (size_pos_elem_of (running S)) as [i Hi]; [change (0 < size (running S))%nat; lia|].
    destruct (serve_closes room d0 c0 l S c i Hrest Hrun Hutf Hi) as (l1 & S1 & c1 & Hs1 & [Hno|[end_ ->]]).
    { exists l1, S1, c1. split; [done|by left]. }
    pose proof (serve_run_moves c0 (l, S, c) _ Hrun Hs1) as Hrun1. cbn [fst snd] in Hrun1.
    assert (n = size (running S ∖ {[i]})) as Hn1.
    { rewrite size_difference, size_singleton by set_solver. change (Datatypes.S n = size (running S)) in Hn. lia. }
    destruct (IH l1 (mkServing _ _ _ _) c1 Hn1 Hrun1) as (l2 & S2 & c2 & Hs2 & Hend).
    exists l2, S2, c2. split; [by etransitivity|done].
Qed.

(** a server that is stopped returns when its handlers have ended *)
Lemma serve_stops room d0 c0 l S c :
  at_rest room c0 d0 → serve_run c0 l S c → (∀ i, Forall (λ sql, valid_utf8 sql = true) (requests (peers i))) →
  (∀ r, serve_loop S ≠ Returned r) →
  ∃ l' S' c', rtc serve_moves (l, S, c) (l', S', c') ∧
    (Z.of_nat room ≤ begins l'.*2 ∨ serve_loop S' = Returned (Ok ()) ∧ running S' = ∅).
Proof.
  intros Hrest Hrun Hutf Hloop.
  assert (rtc serve_moves (l, S, c) (l, mkServing Waiting true (running S) (ended S), c)) as Hcancel.
  { destruct S as [lp cancelled run done]. apply (rtc_l _ _ (l, mkServing lp true run done, c)); [exact (serve_cancel peers l lp cancelled run done c)|].
    destruct lp as [| |r]; [|done|by destruct (Hloop r)]. apply rtc_once. exact (serve_closed peers l run done c). }
  pose proof (serve_run_moves c0 (l, S, c) _ Hrun Hcancel) as Hrun'. cbn [fst snd] in Hrun'.
  destruct (serve_closes_all room d0 c0 l _ c Hrest Hrun' Hutf) as (l1 & [lp cancelled run done] & c1 & Hs & [Hno|(Hlp & _ & Hnil)]).
  - eexists l1, _, c1. split; [by etransitivity|by left].
  - cbn in Hlp, Hnil. subst lp run. exists l1, (mkServing (Returned (Ok ())) cancelled ∅ done), c1. split; [|by right].
    etransitivity; [exact Hcancel|]. eapply rtc_r; [exact Hs|exact (serve_wait peers l1 cancelled done c1)].
Qed.

End server.
