(* ===== verification/ConnectionProps.v ===== *)
(** * What the server guarantees to connections that overlap *)

From stdpp Require Import fin_sets fin_map_dom.
From S2P Require Import Prelude Bytes Engine Memory MvccKey Mvcc MvccSpec MvccRefine MvccOps MvccReads Snapshot MvccSystem.
From S2P Require Import Types Schema Transaction Executor Json Relation Kv KvRefine KvMvcc Session Execute Recorded Rebase Concurrent Sessions.
From S2P Require Import Lexer Result Server Replies Connections Shutdown.

Section exchanges.
Context `{!Json} `{!MapOrder}.

(** the events of the exchanges of one connection, in order *)
Lemma exchanges_answered (of_event : event → option sql_event) (xs : list exchange) :
  (∀ x, x ∈ xs → ∃ es, answered (ex_sql x) (ex_result x) es ∧ es `sublist_of` omap of_event (ex_calls x)) →
  ∃ ess, Forall3 answered (map ex_sql xs) (map ex_result xs) ess ∧
    concat ess `sublist_of` omap of_event (concat (map ex_calls xs)).
Proof.
  induction xs as [|x xs IH]; intros Hx; [exists []; by split; [constructor|]|].
  destruct (Hx x (list_elem_of_here _ _)) as (es & Ha & Hs).
  destruct IH as (ess & Has & Hss); [intros y Hy; by apply Hx, list_elem_of_further|].
  exists (es :: ess). split; [by constructor|]. cbn. rewrite omap_app. by apply sublist_app.
Qed.

Lemma omap_sublist {A B} (f : A → option B) l k : l `sublist_of` k → omap f l `sublist_of` omap f k.
Proof. induction 1; cbn; [done| |]; destruct (f x); try done; by constructor. Qed.

Lemma calls_of_sublist `{EqDecision K} (i : K) (l : calls_log K) : calls_of i l `sublist_of` l.*2.
Proof.
  unfold calls_of. induction l as [|p l IH]; [constructor|]. rewrite filter_cons. case_decide; cbn; by constructor.
Qed.

End exchanges.

(** C4: the server, started on an engine that holds [d0].  Connections are
    accepted at any time, and their handlers run at the same time on that
    engine, their calls interleaved in any order.  The run is one of the machine
    of statements [sql_step] from [d0]: every transaction
    is that of a statement some connection sent, it works on the database as it
    was when it began and commits at once or not at all, and what the engine
    holds is what the machine ends in.  A connection that has ended answered
    its statements in order, each with one reply, and the transaction of each
    came after that of the one before: it was refused without one, or committed
    with the result it was answered with, or was rolled back with the error it
    was answered with.  [Serve] returns without an error only after its context
    was cancelled and every handler has ended. *)
Theorem server_serves {E} `{EngineLaws E} `{!Json} `{!JsonLaws} `{!MapOrder} `{!ErrorTexts} `{Countable K}
    (peers : K → Conn) c0 d0 l serving c room left :
  at_rest room c0 d0 → serve_run peers c0 l serving c →
  (∀ i, Forall (λ sql, valid_utf8 sql = true) (requests (peers i))) →
  begins l.*2 + Z.of_nat left ≤ Z.of_nat room →
  (serve_loop serving = Returned (Ok ()) → serve_cancelled serving = true ∧ running serving = ∅) ∧
  ∃ stmt outcome s,
    sql_run (mkSdb d0 ∅) (omap (sql_event_of stmt outcome) l.*2) s ∧
    holds (mkRegime left False) (sys_engine c) (sd_db s) ∧
    (∀ t, EvBegin t ∈ l.*2 → ∃ i, stmt (ts_version t) ∈ requests (peers i)) ∧
    ∀ i conn r, ended serving !! i = Some (conn, r) →
      ∃ run skipped rs ess,
        requests (peers i) = run ++ skipped ∧
        Forall3 answered run rs ess ∧ concat ess `sublist_of` omap (sql_event_of stmt outcome) l.*2 ∧
        ((skipped = [] ∧ sent conn = sent (peers i) ++ replies rs ∧
          ∃ cancelled, (cancelled = true → serve_cancelled serving = true) ∧ r = read_result peers cancelled i) ∨
         (can_fail (peers i) ∧ ∃ err rs' r' cut, r = Err err ∧ rs = rs' ++ [r'] ∧
          sent conn = sent (peers i) ++ replies rs' ++ cut ∧ cut `prefix_of` reply r')).
Proof.
  intros Hf Hrun Hutf Hroom. destruct (serve_run_inv _ _ _ _ _ Hrun) as [_ Hended _ Hret]. split; [done|].
  destruct (serve_refines _ _ _ _ _ _ _ _ Hf Hrun Hutf Hroom) as (m & stmt & outcome & s & Hml & Hseg & Hsql & Hh & Hst & Hans).
  exists stmt, outcome, s. split; [done|]. split; [by apply live_holds|]. split; [done|].
  intros i conn r Hi. destruct (Hended i conn r Hi) as (cancelled & h & Hhandle & Hdb & <- & Hcan).
  destruct (handle_end _ _ _ _ _ _ Hhandle Hdb) as (xs & r0 & (Hxs & Hs & Hevs & _ & skipped & part & Hreq & Hsent & Hr) & ->).
  assert (∀ x, x ∈ xs → no_panic (ex_result x) ∧
    ∃ es, answered (ex_sql x) (ex_result x) es ∧ es `sublist_of` omap (sql_event_of stmt outcome) (ex_calls x)) as Hx.
  { intros x [j Hj]%list_elem_of_lookup. assert (statement_at peers (i, j) = ex_sql x) as Hsq.
    { unfold statement_at. cbn. rewrite Hreq, lookup_app_l by (rewrite length_map; by eapply lookup_lt_Some).
      change (map ex_sql xs) with (ex_sql <$> xs). by rewrite list_lookup_fmap, Hj. }
    assert (calls_of (i, j) m = ex_calls x) as Hcalls by (by rewrite Hseg, Hs, Hj).
    rewrite <-Hsq, <-Hcalls. apply Hans. rewrite Hsq, Hcalls. exact (proj1 (Forall_lookup _ _) Hxs j x Hj). }
  destruct (exchanges_answered (sql_event_of stmt outcome) xs) as (ess & Hess & Hsub); [intros x Hin; by apply Hx|].
  exists (map ex_sql xs), skipped, (map ex_result xs), ess. split; [done|]. split; [done|]. split.
  { etransitivity; [exact Hsub|]. rewrite <-Hevs. apply omap_sublist, calls_of_sublist. }
  destruct r0 as [u|err|p].
  - left. destruct Hr as [-> ->]. split; [done|]. split; [done|]. by exists cancelled.
  - right. destruct Hr as (Hc & xs' & x & cut & -> & -> & Hcut). split; [done|].
    exists err, (map ex_result xs'), (ex_result x), cut. by rewrite map_app.
  - destruct Hr as (x & Hin & Hnp). by destruct Hnp, (Hx x Hin).
Qed.

(** C6: the server always goes on, and stops when it is asked to.  While it has
    version numbers for new transactions, an open connection is closed or makes
    its next call in every state the server can reach: no handler waits for
    another.  A handler makes finitely many calls, whatever they are answered,
    and [Serve], unless it has returned, can be cancelled and then returns
    without an error, with every connection closed, or runs out of version
    numbers on the way. *)
Theorem server_stops {E} `{EngineLaws E} `{!Json} `{!JsonLaws} `{!MapOrder} `{!ErrorTexts} `{Countable K}
    (peers : K → Conn) c0 d0 l serving c room :
  at_rest room c0 d0 → serve_run peers c0 l serving c →
  (∀ i, Forall (λ sql, valid_utf8 sql = true) (requests (peers i))) →
  (∀ i, i ∈ running serving → begins l.*2 < Z.of_nat room →
     ∃ l' serving' c', serve_step peers l serving c l' serving' c' ∧
       (i ∉ running serving' ∨ calls_of i l' ≠ calls_of i l)) ∧
  (∀ cancelled i (answer : nat → event), ∃ n, ∀ q,
     handler_db (handle peers cancelled i (map answer (seq 0 n))).1 = Asked q → ¬ is_answer q (answer n)) ∧
  ((∀ r, serve_loop serving ≠ Returned r) →
     ∃ l' serving' c', rtc (serve_moves peers) (l, serving, c) (l', serving', c') ∧
       (Z.of_nat room ≤ begins l'.*2 ∨ serve_loop serving' = Returned (Ok ()) ∧ running serving' = ∅)).
Proof.
  intros Hrest Hrun Hutf. split; [|split].
  - intros i Hi Hroom. destruct (serve_goes_on peers room d0 c0 l serving c i Hrest Hrun Hutf Hroom Hi)
      as [(conn & r & Hs)|(q & ev & c' & _ & _ & Hs)]; eexists _, _, _; (split; [exact Hs|]); [left; cbn; set_solver|right].
    rewrite calls_of_snoc, decide_True by done. cbn. intros Heq. apply (f_equal length) in Heq. rewrite length_app in Heq. cbn in Heq. lia.
  - intros cancelled i answer. apply (stops_stream (λ evs, handler_db (handle peers cancelled i evs).1)). eapply (stops_shift _ _ []); [|apply statements_stops].
    intros evs. apply handle_db.
  - by eapply serve_stops.
Qed.

(** ** A concrete server

    One client makes a table and inserts a row; another, at the same time,
    inserts the same row and reads the table.  Then the server is stopped. *)

Module ServerWitness.

#[export] Existing Instance bit_codec.
#[export] Existing Instance bit_codec_laws.
#[export] Existing Instance canonical_order.
#[export] Instance text_of_errors : ErrorTexts := λ _, str "(text)".

Definition client (lines : list string) : Conn := mkConn (concat (map (λ l, str l ++ [x0a]) lines)) None [] 0 (λ _, None).

Definition peers (i : nat) : Conn :=
  match i with
  | 0%nat => client ["CREATE TABLE t (id INT PRIMARY KEY, name STRING);"; "INSERT INTO t VALUES (1, 'a');"]%string
  | 1%nat => client ["INSERT INTO t VALUES (1, 'b');"; "SELECT id, name FROM t;"]%string
  | _ => client []
  end.

Definition calls (ns : list nat) : list command := map DoCall ns.

Definition schedule : list command :=
  DoAccept 0%nat :: calls (replicate 5 0%nat) ++ DoAccept 1%nat ::
  calls [0; 1; 0; 1; 0; 1; 0; 1; 0; 1; 1; 1; 1; 1; 1]%nat ++ [DoEnd 0%nat; DoCancel; DoClosed; DoEnd 1%nat; DoWait].

Definition run : calls_log nat * Serving nat * sys (E := MemoryEngine) := serve_exec peers schedule (mkSys NewMemoryEngine []).

End ServerWitness.
Import ServerWitness.

Definition second : Conn := default (peers 1) (fst <$> ended run.1.2 !! 1%nat).

Lemma peers_utf8 i : Forall (λ sql, valid_utf8 sql = true) (requests (peers i)).
Proof.
  destruct i as [|[|i]].
  - assert (requests (peers 0) = map str ["CREATE TABLE t (id INT PRIMARY KEY, name STRING);"; "INSERT INTO t VALUES (1, 'a');"]%string)
      as -> by (vm_compute; reflexivity).
    repeat apply List.Forall_cons; try constructor; vm_compute; reflexivity.
  - assert (requests (peers 1) = map str ["INSERT INTO t VALUES (1, 'b');"; "SELECT id, name FROM t;"]%string)
      as -> by (vm_compute; reflexivity).
    repeat apply List.Forall_cons; try constructor; vm_compute; reflexivity.
  - assert (requests (peers (S (S i))) = []) as -> by (vm_compute; reflexivity). constructor.
Qed.

Lemma server_serves_witness :
  running run.1.2 = ∅ ∧
  ∃ evs s rs ess,
    sql_run (mkSdb ∅ ∅) evs s ∧ holds (mkRegime 5 False) (sys_engine run.2) (sd_db s) ∧
    Forall3 answered (requests (peers 1)) rs ess ∧ concat ess `sublist_of` evs ∧
    sent second = replies rs ∧
    sent second = concat (map (λ l, str l ++ [x0a]) ["ERROR: (text)"; "id | name"; "1 | a"; "(1 rows)"]%string).
Proof.
  assert (serve_run peers (mkSys NewMemoryEngine []) run.1.1 run.1.2 run.2) as Hrun.
  { unfold run. exact (serve_exec_sound peers schedule (mkSys NewMemoryEngine [])). }
  destruct (server_serves peers (mkSys NewMemoryEngine []) ∅ run.1.1 run.1.2 run.2 9 5) as (Hret & stmt & outcome & s & Hsql & Hh & _ & Hconn);
    [by apply fresh_at_rest|exact Hrun|exact peers_utf8|vm_compute; discriminate|].
  split; [by apply Hret; vm_compute|].
  destruct (Hconn 1%nat second (Ok ())) as (ran & skipped & rs & ess & Hreq & Hans & Hsub & Hr); [vm_compute; reflexivity|].
  destruct Hr as [(-> & Hsent & _)|([n Hn] & _)]; [|by destruct Hn]. rewrite app_nil_r in Hreq. rewrite <-Hreq in Hans.
  eexists _, s, rs, ess. split; [exact Hsql|]. split; [exact Hh|]. split; [exact Hans|]. split; [exact Hsub|].
  split; [exact Hsent|]. vm_compute. reflexivity.
Defined.

(** the server is asked to stop after the first client's table was made *)
Definition halfway : calls_log nat * Serving nat * sys (E := MemoryEngine) :=
  serve_exec peers (DoAccept 0%nat :: calls (replicate 5 0%nat)) (mkSys NewMemoryEngine []).

Lemma server_stops_witness :
  ∃ l' serving' c', rtc (serve_moves peers) halfway (l', serving', c') ∧
    (9 ≤ begins l'.*2 ∨ serve_loop serving' = Returned (Ok ()) ∧ running serving' = ∅).
Proof.
  assert (serve_run peers (mkSys NewMemoryEngine []) halfway.1.1 halfway.1.2 halfway.2) as Hrun.
  { unfold halfway. exact (serve_exec_sound peers _ (mkSys NewMemoryEngine [])). }
  destruct (server_stops peers (mkSys NewMemoryEngine []) ∅ halfway.1.1 halfway.1.2 halfway.2 9) as (_ & _ & Hstop);
    [by apply fresh_at_rest|exact Hrun|exact peers_utf8|].
  destruct Hstop as (l' & serving' & c' & Hs & Hend); [intros r; vm_compute; discriminate|].
  exists l', serving', c'. split; [exact Hs|exact Hend].
Defined.

(** a failed [Accept] ends the server while a transaction is open *)
Definition abandoned : calls_log nat * Serving nat * sys (E := MemoryEngine) :=
  serve_exec peers [DoAccept 0%nat; DoCall 0%nat; DoFail (Errorf "too many open files")] (mkSys NewMemoryEngine []).

Lemma accept_error_abandons :
  serve_loop abandoned.1.2 = Returned (Err (Wrapf "server: accepting connection: %w" (Errorf "too many open files"))) ∧
  running abandoned.1.2 = {[0%nat]} ∧ length (sys_open abandoned.2) = 1%nat.
Proof. vm_compute. done. Qed.
