(* ===== verification/Scripts.v ===== *)
(** * Scripts of statements

    A session run on many statements, and the history of the abstract database
    under them. *)

From S2P Require Import Prelude Bytes Engine Memory MvccKey Mvcc Types Lexer LexerProps Ast Parser ParserProps ParserShape Schema Planner Transaction Executor RowsSpec InsertSpec Json Relation ExecutorSafe ExecutorWrites Effects Statements Kv KvRefine KvMvcc Session Execute.

Section script.
Context {D T : Type} `{!Transaction T} `{!SQLEngine D T} `{!MapOrder}.

(** the statements of a client, one after the other *)
Fixpoint run_statements (sqls : list bytes) (D0 : D) : D * list (result ResultSet) :=
  match sqls with
  | [] => (D0, [])
  | sql :: sqls =>
      let '(D1, r) := Session_Execute sql D0 in
      let '(D2, rs) := run_statements sqls D1 in
      (D2, r :: rs)
  end.

End script.

(** the abstract database under a script of statements: each one takes effect,
    or fails without a trace; if [strict], it fails only if it has no effect *)
Inductive history (strict : Prop) : list bytes → reldb → list (result ResultSet) → reldb → Prop :=
  | history_nil d : history strict [] d [] d
  | history_effect sql sqls d r d1 rs d2 :
      statement_effect sql d r d1 → history strict sqls d1 rs d2 →
      history strict (sql :: sqls) d (Ok r :: rs) d2
  | history_error sql sqls d err rs d2 :
      (strict → ∀ r d', ¬ statement_effect sql d r d') → history strict sqls d rs d2 →
      history strict (sql :: sqls) d (Err err :: rs) d2.

Fixpoint room_for (l : nat) (n : regime) : regime :=
  match l with O => n | S l => more (room_for l n) end.

Lemma calm_room_for l n : calm (room_for l n) = calm n.
Proof. induction l; done. Qed.

Lemma room_room_for l n : room (room_for l n) = (l + room n)%nat.
Proof. induction l as [|l IH]; [done|]. cbn. by rewrite IH. Qed.

Lemma history_app strict sqls1 d0 rs1 d1 sqls2 rs2 d2 :
  history strict sqls1 d0 rs1 d1 → history strict sqls2 d1 rs2 d2 →
  history strict (sqls1 ++ sqls2) d0 (rs1 ++ rs2) d2.
Proof. induction 1; [done|intros; by econstructor; eauto..]. Qed.

Lemma length_run_statements {D T} `{!Transaction T} `{!SQLEngine D T} `{!MapOrder} sqls (D0 : D) :
  length (run_statements sqls D0).2 = length sqls.
Proof.
  revert D0. induction sqls as [|sql sqls IH]; intros D0; [done|]. cbn. destruct (Session_Execute sql D0) as [D1 r].
  specialize (IH D1). destruct (run_statements sqls D1). cbn in *. by rewrite IH.
Qed.

Lemma run_statements_history {D T} `{Relational D T} `{!MapOrder} n sqls D0 d :
  holds (room_for (length sqls) n) D0 d → Forall (λ sql, valid_utf8 sql = true) sqls →
  ∃ d', history (calm n) sqls d (run_statements sqls D0).2 d' ∧ holds n (run_statements sqls D0).1 d'.
Proof.
  revert D0 d. induction sqls as [|sql sqls IH]; intros D0 d Hh Hutf; cbn.
  - exists d. split; [constructor|done].
  - apply Forall_cons in Hutf as [Hsql Hutf].
    pose proof (Session_ok (room_for (length sqls) n) D0 d sql Hh Hsql) as Hs.
    destruct (Session_Execute sql D0) as [D1 [r|err|p]]; [| |done].
    + destruct Hs as (d1 & He & Hh1). destruct (IH D1 d1 Hh1 Hutf) as (d' & Hd & Hh').
      destruct (run_statements sqls D1) as [D2 rs]. exists d'. split; [by econstructor|done].
    + destruct Hs as [Hh1 Hno]. destruct (IH D1 d Hh1 Hutf) as (d' & Hd & Hh').
      destruct (run_statements sqls D1) as [D2 rs]. exists d'. split; [|done].
      constructor; [|done]. intros Hc. apply Hno. by rewrite calm_room_for.
Qed.
