(* ===== verification/Samples.v ===== *)
(** * A small table

    The table, rows and database the theorems are tried on. *)

From S2P Require Import Prelude Bytes Engine Memory MvccKey Mvcc Types Lexer Ast Schema Planner Transaction Executor RowsSpec OrderSpec InsertSpec Keys Json Relation ExecutorSafe ExecutorWrites Effects Kv KvRefine KvMvcc.

#[export] Existing Instance bit_codec.
#[export] Existing Instance bit_codec_laws.
#[export] Existing Instance canonical_order.

Definition column (name : string) (t : DataType) (pk : bool) : Schema.Column :=
  Schema.mkColumn (str name) t (negb pk) None pk.
Definition t : Table := mkTable (str "t") [column "id" Integer true; column "name" String false].
Definition columns : list bytes := [str "id"; str "name"].
Definition row (i : Z) (name : string) : Row := [IntegerValue i; StringValue (str name)].
Definition rows : list Row := [row 2 "b"; row 1 "a"; row 3 "b"; [IntegerValue 4; NullValue]].
Definition update : bytes := str "UPDATE t SET name = 'c' WHERE id > 1;".
Definition by_name : list OrderBy := [mkOrderBy (str "name") OrderDescending].

Lemma typed_row i name : in_int64 i → typed [Integer; String] (row i name).
Proof. intros Hi. repeat apply List.Forall2_cons; [| |constructor]; by split; [right|]. Qed.

Lemma rows_typed : Forall (typed [Integer; String]) rows.
Proof.
  repeat (apply Forall_cons; split); [by apply typed_row..| |constructor].
  repeat apply List.Forall2_cons; [by split; [right|]|by split; [left|]|constructor].
Qed.

Lemma names_keyed : Forall (keyed String 1) rows.
Proof.
  eapply Forall_impl; [exact rows_typed|]. intros r Hr.
  destruct (typed_lookup _ _ 1 Hr) as (t & v & [= <-] & Hv & Ht); [cbn; lia|]. by exists v.
Qed.

(** the database with this table and its first three rows *)
Definition three : list Row := [row 2 "b"; row 1 "a"; row 3 "b"].
Definition stored : gmap bytes Row := list_to_map (map (λ r, (row_pk t r, r)) three).
Definition db : reldb := {[ str "t" := mkRelation t stored ]}.

Lemma row_fits i name : row_ok t (row i name).
Proof. by repeat apply List.Forall2_cons; [right|right|constructor]. Qed.

Lemma row_is_encodable i name : in_int64 i → valid_utf8 (str name) = true → row_encodable (row i name).
Proof. intros Hi Hu. repeat apply List.Forall_cons; [by repeat split; try apply Hi..|constructor]. Qed.

Lemma t_ok : table_ok t.
Proof. by apply Validate_spec. Qed.

Lemma t_encodable : table_encodable t.
Proof. by repeat constructor. Qed.

Lemma t_name_ok : name_ok (str "t").
Proof. unfold name_ok. cbn. set_solver. Qed.

Lemma db_is_wf : db_wf db.
Proof.
  apply map_Forall_singleton. split; [apply t_ok|done|apply t_name_ok|apply t_encodable|].
  intros k r Hr%elem_of_list_to_map_2. cbn in Hr.
  repeat (apply elem_of_cons in Hr as [[= -> ->]|Hr]); [..|by apply elem_of_nil in Hr];
    (split; [apply row_fits|split; [by apply row_is_encodable|done]]).
Qed.

Lemma db_created : create_rows_spec (str "t") three (set_rows (str "t") t ∅ ∅) = Some db.
Proof. reflexivity. Qed.

(** a transaction that sees the database *)
Lemma sees_empty : ∃ x : KVTransaction MemoryEngine, sees (mkRegime 0 True) ∅ x ∅.
Proof.
  pose proof (begin_ok (mkRegime 0 True) NewMemoryEngine ∅ ltac:(by apply kv_holds_empty)) as Hx.
  destruct (dbBegin NewMemoryEngine) as [D' [x|err|p]]; [by exists x|by destruct Hx as [_ []]|done].
Qed.

Lemma create_rows_run n d0 (x : KVTransaction MemoryEngine) d d' rows :
  calm n → sees n d0 x d → Forall row_encodable rows → create_rows_spec (str "t") rows d = Some d' →
  ∃ x' : KVTransaction MemoryEngine, sees n d0 x' d'.
Proof.
  intros Hc. revert x d. induction rows as [|r rows IH]; intros x d Hx Hrows Hs; cbn [create_rows_spec] in Hs.
  - injection Hs as <-. by exists x.
  - apply Forall_cons in Hrows as [Hr Hrows].
    pose proof (create_row_ok n d0 x d (str "t") r Hx t_name_ok Hr) as Hcr.
    destruct (create_row_spec (str "t") r d) as [d1|] eqn:Hd1; [|done]. cbn in Hs.
    destruct (txnCreateRow (str "t") r x) as [x1 [[]|err|p]]; [|by destruct Hcr as [_ Hf]; specialize (Hf Hc)|done].
    destruct Hcr as (d2 & [= <-] & Hx1). by eapply IH.
Qed.

Lemma sees_db : ∃ x : KVTransaction MemoryEngine, sees (mkRegime 0 True) ∅ x db.
Proof.
  destruct sees_empty as [x Hx].
  pose proof (create_table_ok (mkRegime 0 True) ∅ x ∅ t Hx t_name_ok t_encodable) as Hc.
  assert (create_table_spec t ∅ = Some (set_rows (str "t") t ∅ ∅)) as Hs.
  { unfold create_table_spec. rewrite decide_True by done. by rewrite lookup_empty. }
  rewrite Hs in Hc.
  destruct (txnCreateTable t x) as [x1 [[]|err|p]]; [|by destruct Hc as [_ Hf]; specialize (Hf I)|done].
  destruct Hc as (d1 & Hd1 & Hx1). apply (inj Some) in Hd1. subst d1.
  eapply (create_rows_run _ _ x1); [exact I|exact Hx1| |exact db_created].
  repeat (apply List.Forall_cons; [by apply row_is_encodable|]). constructor.
Qed.
