(* ===== verification/SessionProps.v ===== *)
(** * What a session guarantees *)

From S2P Require Import Prelude Bytes Engine Memory MvccKey Mvcc Types Lexer LexerProps Ast Parser ParserProps ParserShape Schema Planner Transaction Executor RowsSpec InsertSpec Json Relation ExecutorSafe ExecutorWrites Effects Statements Kv KvRefine KvMvcc Session Execute Scripts.

(** C2: a statement is a transaction.  Run on a database that holds [d], it
    never panics; it either returns a result and the database then holds all of
    the statement's effect on [d], or returns an error and the database still
    holds [d].  When no other transaction is active and the storage refuses no
    record, it returns an error only if the statement has no effect on [d]: it
    does not parse or plan, a table or column is missing, a row does not fit
    its table, or a primary key is taken. *)
Theorem session_transactional {D T} `{Relational D T} `{!MapOrder} n D0 d sql :
  holds (more n) D0 d → valid_utf8 sql = true →
  match Session_Execute sql D0 with
  | (D', Ok r) => ∃ d', statement_effect sql d r d' ∧ holds n D' d'
  | (D', Err _) => holds n D' d ∧ (calm n → ∀ r d', ¬ statement_effect sql d r d')
  | (_, Panic _) => False
  end.
Proof. apply Session_ok. Qed.

(** From an empty store, any script of statements behaves like the
    abstract database: the results and the final contents are those of running
    the effects one after the other, failed statements leaving no trace; no
    statement panics.  It holds for the SQL engine over any lawful storage
    engine that refuses no record and does not fail, and for any iteration order of Go's maps. *)
Theorem session_script {E} `{EngineLaws E} `{!Json} `{!JsonLaws} `{!MapOrder} (e : E) sqls n :
  usable e → steady e → contents e = ∅ → 1 + Z.of_nat (length sqls + n) ≤ max_uint64 → (∀ k v, fits k v) →
  Forall (λ sql, valid_utf8 sql = true) sqls →
  ∃ d, history True sqls ∅ (run_statements sqls e).2 d ∧ holds (mkRegime n True) (run_statements sqls e).1 d.
Proof.
  intros Hu Hst Hc Hn Hfits Hutf. apply (run_statements_history (mkRegime n True)); [|done].
  apply kv_holds_empty; [done|done|by rewrite room_room_for|done].
Qed.

(** ** A concrete database *)

Module SessionWitness.

#[export] Existing Instance bit_codec.
#[export] Existing Instance bit_codec_laws.
#[export] Existing Instance canonical_order.

Definition create : bytes := str "CREATE TABLE t (id INT PRIMARY KEY, name STRING DEFAULT 'x');".
Definition script : list bytes :=
  [ create;
    str "INSERT INTO t VALUES (2, 'b'), (1, 'a');";
    str "INSERT INTO t (id) VALUES (1);";
    str "INSERT INTO t (id) VALUES (3);";
    str "UPDATE t SET name = 'c' WHERE id > 1;";
    str "DELETE FROM t WHERE id = 2;";
    str "SELECT id, name FROM t ORDER BY id DESC;" ].

Definition final : MemoryEngine * list (result ResultSet) := run_statements script NewMemoryEngine.

End SessionWitness.
Import SessionWitness.

Lemma empty_holds n : 1 + Z.of_nat n ≤ max_uint64 → holds (mkRegime n True) NewMemoryEngine ∅.
Proof. intros Hn. by apply kv_holds_empty. Qed.

Lemma session_transactional_witness :
  ∃ D' d', Session_Execute create NewMemoryEngine = (D', Ok (CreateTableResult (str "t"))) ∧
    statement_effect create ∅ (CreateTableResult (str "t")) d' ∧ holds (mkRegime 1 True) D' d'.
Proof.
  pose proof (session_transactional (mkRegime 1 True) NewMemoryEngine ∅ create
    (empty_holds 2 ltac:(done)) ltac:(vm_compute; reflexivity)) as H.
  assert ((Session_Execute create NewMemoryEngine).2 = Ok (CreateTableResult (str "t"))) as Hr
    by (vm_compute; reflexivity).
  destruct (Session_Execute create NewMemoryEngine) as [D' r]. cbn in Hr. subst r.
  destruct H as (d' & ? & ?). by exists D', d'.
Defined.

Lemma session_script_witness :
  ∃ d, history True script ∅ final.2 d ∧ holds (mkRegime 3 True) final.1 d ∧
    last final.2 = Some (Ok (RowsResult [str "id"; str "name"]
      [[IntegerValue 3; StringValue (str "c")]; [IntegerValue 1; StringValue (str "a")]])).
Proof.
  destruct (session_script NewMemoryEngine script 3) as (d & Hh & Hd);
    [done|done|done|done|done|repeat constructor; vm_compute; reflexivity|].
  exists d. split; [done|]. split; [done|]. vm_compute. reflexivity.
Defined.
