(* ===== verification/QueryProps.v ===== *)
(** * What a query computes *)

From S2P Require Import Prelude Bytes Engine Memory MvccKey Mvcc Types Lexer LexerProps Ast Parser ParserProps ParserShape Schema Planner Sort Expr Transaction Executor RowsSpec OrderSpec Predicates InsertSpec Keys Json Relation ExecutorSafe ExecutorWrites Effects Statements Kv KvRefine KvMvcc Samples.

(** C8: a query only reads: it returns what its plan denotes on the database
    the transaction sees, errors included, and the transaction sees the same
    database after it, unless the store below fails a read, which it does not
    when it is calm; it never panics, and every row it returns has one value
    per column. *)
Theorem query_denotes {D T} `{Relational D T} `{!MapOrder} n d0 (x : T) d e :
  sees n d0 x d → query_ok e →
  reads (calm n) (λ x, sees n d0 x d) (alive n d0) (Execute e x) (rmap rows_result (denote d e)) ∧
  no_panic (denote d e) ∧
  ∀ columns rows, denote d e = Ok (columns, rows) → rectangular columns rows.
Proof.
  intros Hx He. destruct (denote_safe d e (sees_wf n d0 x d Hx) He) as [Hn Hr].
  split; [by apply (execute_query n d0)|]. split; [done|]. intros c rows. apply (Hr (c, rows)).
Qed.

(** C25: parsing never panics, on any text, nor does planning what was parsed,
    and every plan has an executor; of a statement of UTF-8 text it is one the
    theorems on executors are about: non-empty table names, row counts that are
    not negative, aggregates over a column, literals the codec keeps, and
    UPDATE and DELETE over a scan of their own table. *)
Theorem plans_are_runnable sql :
  no_panic (Parse sql) ∧
  (∀ s, Parse sql = Ok s → no_panic (Planner.Build s) ∧
     ∀ node, Planner.Build s = Ok node →
       ∃ e, Executor.Build node = Ok e ∧ (valid_utf8 sql = true → executor_ok e)) ∧
  (∀ node, ∃ e, Executor.Build node = Ok e).
Proof.
  split; [apply Parse_no_panic|]. split; [|apply Build_total]. intros s Hs.
  split; [apply Planner_Build_no_panic|]. intros node Hb.
  destruct (Build_total node) as [e He]. exists e. split; [done|]. intros Hutf. by eapply prepared_ok.
Qed.

(** ** Expressions and filters *)

(** the order two values must have for a comparison to be true *)
Definition holds_between (k : OperationKind) (c : Z) : bool :=
  match k with
  | OperationEqual => c =? 0
  | OperationGreaterThan => 0 <? c
  | OperationLessThan => c <? 0
  end.

(** Comparisons are three-valued: with a NULL operand the result is NULL,
    which no filter accepts; between values of one type it is the order of the
    type. *)
Theorem comparison_three_valued t k v w :
  typed_value t v → typed_value t w →
  ∃ r, evaluateComparison k v w = Ok r ∧
    (if is_null v || is_null w then r = NullValue ∧ is_true r = false
     else r = BooleanValue (holds_between k (value_cmp v w))).
Proof.
  intros Hv Hw. unfold evaluateComparison.
  destruct (is_null v) eqn:Nv; [|destruct (is_null w) eqn:Nw]; cbn [orb].
  - apply is_null_kind in Nv. rewrite decide_True by auto. by eexists.
  - apply is_null_kind in Nw. rewrite decide_True by auto. by eexists.
  - rewrite decide_False by (intros [Hk|Hk]; apply is_null_kind in Hk; congruence).
    rewrite (typed_compare t) by done. cbn. eexists. split; [done|]. f_equal.
    destruct k; cbn; lia.
Qed.

(** C38: WHERE and HAVING keep, in order, exactly the rows in which the
    predicate means true, so neither those in which it is false nor those in
    which it is NULL, and they do so exactly if it has a meaning in every row:
    the first value of a name, with a comparison NULL when an operand is and
    the order of the values otherwise.  A predicate that is typed by the
    columns (numbers against numbers, other values against their own type)
    never fails on their rows, and none panics. *)
Theorem filter_keeps_satisfying p columns rows :
  rectangular columns rows →
  match filter_rows p columns rows with
  | Ok out => selects (accepts p columns) rows out ∧ Forall (λ row, ∃ v, means columns row p v) rows
  | Err _ => Exists (λ row, ∀ v, ¬ means columns row p v) rows
  | Panic _ => False
  end ∧
  ∀ tys t, Forall (typed tys) rows → expr_typed columns tys p t → ∃ out, filter_rows p columns rows = Ok out.
Proof.
  intros Hr. pose proof (filter_rows_selects p columns rows Hr) as Hf. split; [done|].
  intros tys t Hrows Hp. destruct (filter_rows p columns rows) as [out|err|]; [by exists out| |done].
  apply Exists_exists in Hf as (row & Hin & Hno). pose proof (proj1 (Forall_forall _ _) Hrows row Hin) as Hrow.
  destruct (typed_means columns tys p t row Hp) as (v & Hv & _); [|by destruct (Hno v)].
  eapply Forall2_impl; [exact Hrow|]. by intros ? ? [? _].
Qed.

(** ** Joins *)

(** C34: a nested-loop join is the concatenation, over the left rows in order,
    of the left row with each right row that matches it; an outer join gives a
    left row without a match once, with NULLs on the right.  It fails only if
    the predicate fails on a pair, and its rows have the columns of both
    sides. *)
Theorem join_combines p outer lc leftRows rc rightRows :
  rectangular lc leftRows → rectangular rc rightRows →
  match join_rows p outer lc leftRows rc rightRows with
  | Ok out =>
      out = concat (map (join_of p outer lc rc rightRows) leftRows) ∧ rectangular (lc ++ rc) out ∧
      (outer = true → ∀ a, a ∈ leftRows → ∃ b, a ++ b ∈ out)
  | Err err => ∃ a b, a ∈ leftRows ∧ b ∈ rightRows ∧ join_match p lc a rc b = Err err
  | Panic _ => False
  end.
Proof.
  intros Hl Hr. pose proof (join_rows_no_panic p outer lc leftRows rc rightRows Hl Hr) as Hn.
  destruct (join_rows _ _ _ _ _ _) as [out|err|w] eqn:Hj; [| |done].
  - pose proof (join_rows_Ok _ _ _ _ _ _ _ Hj) as Hout. split; [done|].
    split; [by eapply join_rows_rectangular|]. intros -> a Ha.
    assert (∃ row, row ∈ join_of p true lc rc rightRows a ∧ ∃ b, row = a ++ b) as (row & Hrow & b & ->).
    { unfold join_of. destruct (filter _ rightRows) as [|b bs].
      - eexists. split; [by left|]. by eexists.
      - exists (a ++ b). split; [by left|]. by eexists. }
    exists b. subst out. apply list_elem_of_In, in_concat.
    exists (join_of p true lc rc rightRows a). split; [|by apply list_elem_of_In].
    apply in_map. by apply list_elem_of_In.
  - unfold join_rows in Hj. apply rfoldl_Err in Hj as (rows & a & Ha & Hj).
    unfold join_left in Hj.
    destruct (rfoldl (join_step p lc a rc) (rows, false) rightRows) as [[rows' m]|err'|] eqn:Hi; [done| |done].
    cbn in Hj. injection Hj as ->. apply rfoldl_Err in Hi as ([rows' m] & b & Hb & Hi). exists a, b.
    split; [done|]. split; [done|]. unfold join_step in Hi.
    destruct (join_match p lc a rc b) as [m'|e|]; [by destruct m'|by injection Hi as ->|done].
Qed.

(** ** ORDER BY, LIMIT and OFFSET *)

(** C33: on the rows of typed columns ORDER BY returns the one stable sort: a
    permutation of the rows, ascending for the keys in turn (descending where
    it says so, NULL below every value), in which rows with equal keys stay in
    their order; it fails exactly if a key names no column. *)
Theorem order_by_stable_sort tys orders columns rows :
  length tys = length columns → Forall (typed tys) rows →
  match rmapM (order_key columns) orders with
  | Ok keys => ∃ out, order_rows orders columns rows = Ok out ∧ rows ≡ₚ out ∧
      StronglySorted (λ a b, row_cmp keys a b ≤ 0) out ∧
      (∀ a, typed tys a →
        filter (λ b, row_cmp keys a b = 0) out = filter (λ b, row_cmp keys a b = 0) rows) ∧
      ∀ out', stable_sort_of (typed tys) (row_cmp keys) rows out' → out' = out
  | _ => (∃ o, o ∈ orders ∧ ob_Column o ∉ columns) ∧ ∃ err, order_rows orders columns rows = Err err
  end.
Proof.
  intros Hlen Hrows. destruct (rmapM (order_key columns) orders) as [keys|err|p] eqn:Hk.
  - destruct (order_rows_typed tys orders columns keys rows Hlen Hrows Hk) as (out & Ho & Hs).
    exists out. split; [done|]. pose proof Hs as (Hsorted & Hperm & Hpeers).
    split; [done|]. split; [done|]. split; [done|]. intros out' Hs'.
    pose proof (order_key_lt _ _ _ Hk) as Hlt. rewrite <-Hlen in Hlt.
    destruct (row_cmp_preorder tys keys Hlt) as [Ha Ht].
    eapply (stable_sort_unique (compare_rows keys) (typed tys)); [..|exact Hs'|exact Hs]; try done.
    intros. by eapply compare_rows_typed.
  - unfold order_rows. rewrite Hk. cbn. split; [|by eexists].
    apply rmapM_Err in Hk as (o & Ho & He). exists o. split; [done|]. unfold order_key in He.
    destruct (slices_Index columns (ob_Column o)) eqn:Hi; [done|]. by apply slices_Index_None.
  - exfalso. assert (no_panic (rmapM (order_key columns) orders)) as Hn; [|by rewrite Hk in Hn].
    apply rmapM_no_panic, Forall_forall. intros o _. unfold order_key. by destruct (slices_Index _ _).
Qed.

(** OFFSET [m] then LIMIT [n] is the window of at most [n] rows that
    starts after the first [m]; a count beyond the end is no error. *)
Lemma limit_offset_window m n rows :
  0 ≤ m → 0 ≤ n →
  (let? rest := offset_rows m rows in limit_rows n rest) =
    Ok (take (Z.to_nat n) (drop (Z.to_nat m) rows)).
Proof. intros Hm Hn. rewrite offset_rows_Ok by done. cbn. by apply limit_rows_Ok. Qed.

(** ** Projection *)

(** C37: a projection gives every row the values of the select items, under
    their aliases or column names; it fails exactly if an item names a column
    that does not exist or is a function call or a comparison, whatever the
    rows are, also if there are none. *)
Theorem projection_values items columns rows :
  rectangular columns rows →
  match project_rows items columns rows with
  | Ok (names, out) =>
      Forall (λ item, ¬ unavailable columns item) items ∧
      names = map item_name items ∧
      Forall2 (λ row row', map Some row' = map (item_value columns row) items) rows out
  | Err _ => Exists (unavailable columns) items
  | Panic _ => False
  end.
Proof.
  intros Hr. pose proof (project_rows_no_panic items columns rows Hr) as Hn.
  pose proof (project_rows_available items columns rows) as Ha.
  destruct (project_rows items columns rows) as [[names out]|err|] eqn:Hp; [|done|done].
  split; [done|]. by apply project_rows_Ok in Hp.
Qed.

(** ** GROUP BY and the aggregate functions *)

(** C36: GROUP BY partitions the rows by the value of its column: one group per
    distinct value (NULLs together), in the order the values first appear in
    the rows, each the rows of that value in their order, under the value of
    the first of them; it never fails on the rows of a typed column. *)
Theorem group_by_partitions t idx rows :
  Forall (keyed t idx) rows →
  ∃ groups, group_rows idx rows = Ok groups ∧
    groups = map (λ v, (v, filter (has_value idx v) rows)) (first_seen (omap (.!! idx) rows)) ∧
    grouped idx rows groups ∧ concat groups.*2 ≡ₚ rows.
Proof.
  intros Hrows. destruct (group_rows_typed t idx rows Hrows) as (groups & Hg & Hspec).
  exists groups. split; [done|]. split; [by eapply group_rows_groups|].
  split; [done|]. by apply (group_rows_Permutation idx).
Qed.

(** C35: the aggregates of a typed column ignore NULLs: COUNT is the number of
    values, MIN and MAX an extreme one of them, SUM their binary64 sum in the
    order of the rows and AVG that sum over the count; of no value COUNT is 0
    and the others are NULL.  SUM and AVG of a column that is not numeric fail
    once it has a value. *)
Theorem aggregates_of_column t name columns idx rows :
  slices_Index columns name = Some idx → Forall (keyed t idx) rows →
  let vs := column_values idx rows in
  count_rows name columns rows = Ok (IntegerValue (Z.of_nat (length vs))) ∧
  (∀ minimum, ∃ v, calculateExtreme name columns rows minimum = Ok v ∧
     if decide (vs = []) then v = NullValue else is_extreme minimum vs v) ∧
  (if decide (vs = []) then sum_rows name columns rows = Ok NullValue ∧ avg_rows name columns rows = Ok NullValue
   else match t with
     | Integer | Float =>
         sum_rows name columns rows = Ok (FloatValue (float_sum vs)) ∧
         avg_rows name columns rows =
           Ok (FloatValue (float_div (float_sum vs) (float_of_int (Z.of_nat (length vs)))))
     | _ => ∃ err, sum_rows name columns rows = Err err ∧
              avg_rows name columns rows = Err (Wrapf "calculating AVG sum: %w" err)
     end).
Proof.
  intros Hidx Hrows vs. pose proof (keyed_has_column _ _ _ Hrows) as Hhas.
  split; [by apply count_rows_ok|]. split; [by intros; eapply calculateExtreme_ok|].
  assert (sum_rows name columns rows = Ok NullValue → avg_rows name columns rows = Ok NullValue) as Hnull.
  { intros Hs. unfold avg_rows. rewrite Hs. cbn [rwrap rbind]. by rewrite (count_rows_ok _ _ idx). }
  assert (∀ err, sum_rows name columns rows = Err err →
    avg_rows name columns rows = Err (Wrapf "calculating AVG sum: %w" err)) as Herr.
  { intros err Hs. unfold avg_rows. by rewrite Hs. }
  case_decide as Hvs.
  - assert (sum_rows name columns rows = Ok NullValue) as Hs; [|by split; [|apply Hnull]].
    unfold vs in Hvs. rewrite (sum_rows_fold _ _ idx) by done. by rewrite Hvs.
  - destruct t.
    1, 4: destruct (sum_rows_err _ _ _ _ _ Hidx Hrows (ltac:(tauto)) Hvs) as [err Hs]; exists err; auto.
    all: rewrite (sum_rows_ok _ _ _ idx rows Hidx Hrows), (avg_rows_ok _ _ _ idx rows Hidx Hrows) by tauto;
      fold vs; rewrite !decide_False by done; split; reflexivity.
Qed.

(** ** The theorems at concrete inputs *)

Lemma query_denotes_witness :
  ∃ (x : KVTransaction MemoryEngine) d, sees (mkRegime 0 True) ∅ x d ∧
    (Execute (ScanExecutor (str "t")) x).2 = Ok (RowsResult columns []).
Proof.
  destruct sees_empty as [x Hx].
  assert (table_encodable t) as Ht by (repeat constructor; done).
  pose proof (create_table_ok (mkRegime 0 True) ∅ x ∅ t Hx ltac:(unfold name_ok; cbn; set_solver) Ht) as Hc.
  destruct (txnCreateTable t x) as [x' [[]|err|]]; [|by destruct Hc as [_ Hc]; specialize (Hc I)|done].
  destruct Hc as (d & Hd & Hx'). exists x', d. split; [exact Hx'|].
  destruct (query_denotes (mkRegime 0 True) ∅ x' d (ScanExecutor (str "t")) Hx') as [Hr _]; [done|].
  destruct (reads_calm _ _ _ _ _ Hr I) as [-> _]. assert (denote d (ScanExecutor (str "t")) = Ok (columns, [])) as ->; [|done].
  cbn [denote]. unfold scan_of. unfold create_table_spec in Hd. rewrite decide_True in Hd by done.
  rewrite lookup_empty in Hd. apply (inj Some) in Hd. subst d. unfold set_rows.
  change (str "t") with (tbl_Name t). by rewrite lookup_insert_eq.
Defined.

Lemma plans_are_runnable_witness :
  ∃ s node e, Parse update = Ok s ∧ Planner.Build s = Ok node ∧ Executor.Build node = Ok e ∧ executor_ok e.
Proof.
  assert (match rbind (Parse update) Planner.Build with Ok _ => true | _ => false end = true) as Hn
    by (vm_compute; reflexivity).
  assert (∃ s node, Parse update = Ok s ∧ Planner.Build s = Ok node) as (s & node & Hs & Hb).
  { revert Hn. generalize (Parse update). intros [s| |]; cbn [rbind]; [|discriminate..].
    destruct (Planner.Build s) as [node| |] eqn:Hb; [|discriminate..]. intros _. by exists s, node. }
  assert (valid_utf8 update = true) as Hutf by (vm_compute; reflexivity).
  destruct (plans_are_runnable update) as (_ & H & _). destruct (H s Hs) as [_ H']. destruct (H' node Hb) as (e & He & Hok).
  exists s, node, e. exact (conj Hs (conj Hb (conj He (Hok Hutf)))).
Defined.

Lemma comparison_three_valued_witness :
  evaluateComparison OperationLessThan NullValue (IntegerValue 1) = Ok NullValue ∧
  evaluateComparison OperationLessThan (IntegerValue 0) (IntegerValue 1) = Ok (BooleanValue true).
Proof.
  assert (∀ i, in_int64 i → typed_value Integer (IntegerValue i)) as Hi by (intros; split; [by right|done]).
  destruct (comparison_three_valued Integer OperationLessThan NullValue (IntegerValue 1)) as (r & -> & -> & _);
    [by split; [left|]|by apply Hi|].
  destruct (comparison_three_valued Integer OperationLessThan (IntegerValue 0) (IntegerValue 1)) as (r' & -> & ->);
    [by apply Hi..|]. done.
Defined.

Lemma join_combines_witness :
  join_rows None true columns rows columns [] =
    Ok (map (λ r, r ++ [NullValue; NullValue]) rows) ∧
  rectangular (columns ++ columns) (map (λ r, r ++ [NullValue; NullValue]) rows).
Proof.
  pose proof (join_combines None true columns rows columns []) as H.
  destruct H as (_ & Hr & _); [by repeat constructor|constructor|]. by split.
Defined.

Lemma order_by_stable_sort_witness :
  order_rows by_name columns rows = Ok [row 2 "b"; row 3 "b"; row 1 "a"; [IntegerValue 4; NullValue]] ∧
  rows ≡ₚ [row 2 "b"; row 3 "b"; row 1 "a"; [IntegerValue 4; NullValue]].
Proof.
  destruct (order_by_stable_sort [Integer; String] by_name columns rows eq_refl rows_typed)
    as (out & Ho & Hp & _).
  assert (order_rows by_name columns rows = Ok [row 2 "b"; row 3 "b"; row 1 "a"; [IntegerValue 4; NullValue]]) as Hc
    by (vm_compute; reflexivity).
  split; [exact Hc|]. rewrite Hc in Ho. by injection Ho as <-.
Defined.

Lemma projection_values_witness :
  project_rows [mkSelectItem (ColumnReference (str "name")) (Some (str "n")); mkSelectItem (IntegerLiteral 7) None]
    columns [row 2 "b"] = Ok ([str "n"; str "?column?"], [[StringValue (str "b"); IntegerValue 7]]) ∧
  Forall2 (λ row row', map Some row' = map (item_value columns row)
      [mkSelectItem (ColumnReference (str "name")) (Some (str "n")); mkSelectItem (IntegerLiteral 7) None])
    [row 2 "b"] [[StringValue (str "b"); IntegerValue 7]].
Proof.
  pose proof (projection_values
    [mkSelectItem (ColumnReference (str "name")) (Some (str "n")); mkSelectItem (IntegerLiteral 7) None]
    columns [row 2 "b"]) as H.
  destruct H as (_ & _ & H); [by repeat constructor|]. by split.
Defined.

Lemma group_by_partitions_witness :
  group_rows 1 rows = Ok [(StringValue (str "b"), [row 2 "b"; row 3 "b"]); (StringValue (str "a"), [row 1 "a"]);
    (NullValue, [[IntegerValue 4; NullValue]])] ∧
  ∃ groups, group_rows 1 rows = Ok groups ∧ groups.*1 = first_seen (omap (.!! 1%nat) rows) ∧ grouped 1 rows groups.
Proof.
  destruct (group_by_partitions String 1 rows names_keyed) as (groups & Hg & Hkeys & Hs & _).
  split; [vm_compute; reflexivity|]. exists groups. split; [exact Hg|]. split; [|exact Hs].
  rewrite Hkeys, <-list_fmap_compose. apply list_fmap_id.
Defined.

Lemma filter_keeps_satisfying_witness :
  filter_rows (OperationExpression OperationEqual (ColumnReference (str "name")) (StringLiteral (str "b"))) columns rows =
    Ok [row 2 "b"; row 3 "b"] ∧
  selects (accepts (OperationExpression OperationEqual (ColumnReference (str "name")) (StringLiteral (str "b"))) columns)
    rows [row 2 "b"; row 3 "b"].
Proof.
  assert (filter_rows (OperationExpression OperationEqual (ColumnReference (str "name")) (StringLiteral (str "b")))
    columns rows = Ok [row 2 "b"; row 3 "b"]) as Hf by (vm_compute; reflexivity).
  destruct (filter_keeps_satisfying
    (OperationExpression OperationEqual (ColumnReference (str "name")) (StringLiteral (str "b"))) columns rows) as [H _];
    [by repeat constructor|].
  split; [exact Hf|]. rewrite Hf in H. by destruct H.
Defined.

Lemma aggregates_of_column_witness :
  count_rows (str "name") columns rows = Ok (IntegerValue 3) ∧
  ∃ err, sum_rows (str "name") columns rows = Err err.
Proof.
  destruct (aggregates_of_column String (str "name") columns 1 rows eq_refl names_keyed) as (Hc & _ & Hs).
  split; [exact Hc|]. rewrite decide_False in Hs by done. destruct Hs as (err & Hs & _). by exists err.
Defined.
