(* ===== verification/WriteProps.v ===== *)
(** * What INSERT, UPDATE and DELETE do, and how tables and rows are stored *)

From S2P Require Import Prelude Bytes Engine Memory MvccKey Mvcc Types Lexer Ast Parser Schema Planner Sort Expr Transaction Executor RowsSpec OrderSpec Predicates InsertSpec Keys Json Relation ExecutorSafe ExecutorWrites Effects Statements Kv KvRefine KvMvcc Execute Samples.

(** ** Statements that write *)

(** The row an INSERT builds: it succeeds exactly if there are no more
    values than columns (or the names are distinct columns of the table, one
    per value) and every column without a value has a default, and then every
    column holds the value given for it, or else its default. *)
Theorem insert_row_built t columnNames input full :
  NoDup (map Name (Columns t)) →
  makeInsertRow t columnNames input = Ok full ↔
  columns_given t columnNames input ∧
  length full = length (Columns t) ∧
  ∀ i c, Columns t !! i = Some c → ∃ v, full !! i = Some v ∧ insert_value columnNames input i c = Some v.
Proof. apply makeInsertRow_spec. Qed.

(** C26: INSERT succeeds with the effect of adding its rows, which fit the
    table and have new, distinct primary keys; every other row stays, and the
    rows are counted.  Otherwise it fails, and the transaction can be rolled
    back; in a calm store it fails only if there are no such rows. *)
Theorem insert_effect {D T} `{Relational D T} `{!MapOrder} n d0 (x : T) d name columns values :
  sees n d0 x d → executor_ok (InsertExecutor name columns values) →
  let adds t rs rows :=
    d !! name = Some (mkRelation t rs) ∧ Forall2 (row_of t columns) values rows ∧
    Forall (row_ok t) rows ∧ NoDup (map (row_pk t) rows) ∧ (∀ row, row ∈ rows → rs !! row_pk t row = None) in
  match Execute (InsertExecutor name columns values) x with
  | (x', Ok r) => r = InsertResult (Z.of_nat (length values)) ∧ ∃ t rs rows, adds t rs rows ∧
      sees n d0 x' (set_rows name t (list_to_map (map (λ row, (row_pk t row, row)) rows) ∪ rs) d)
  | (x', Err _) => alive n d0 x' ∧ (calm n → ∀ t rs rows, ¬ adds t rs rows)
  | (_, Panic _) => False
  end.
Proof.
  intros Hx He adds. eapply (runs_mono n d0); [by apply (runs_effect n d0 x d)|..].
  - intros x' r (d' & (-> & H') & Hx'). split; [done|].
    apply insert_closed in H' as (t & rs & rows & ? & ? & ? & ? & ? & ->). by exists t, rs, rows.
  - intros Hu t rs rows (? & ? & ? & ? & ?). eapply Hu. split; [done|]. apply insert_closed. by exists t, rs, rows.
Qed.

(** C27: UPDATE, when it assigns no primary key, replaces in every row its
    condition is true of the assigned columns, keeps the other rows, the
    primary keys and the rest of the database, and counts the rows changed.
    Otherwise it fails, and the transaction can be rolled back; in a calm store
    it fails only if the condition has no meaning in some row, the assignments
    do not resolve, or a row does not fit the table after them. *)
Theorem update_effect {D T} `{Relational D T} `{!MapOrder} n d0 (x : T) d name cond assignments rel :
  sees n d0 x d → executor_ok (UpdateExecutor name (table_source name cond) assignments) →
  d !! name = Some rel → keeps_keys (rel_schema rel) assignments →
  match Execute (UpdateExecutor name (table_source name cond) assignments) x with
  | (x', Ok r) =>
      r = UpdateResult (Z.of_nat (length (chosen_rows rel cond))) ∧
      meaningful rel cond ∧ assignable (rel_schema rel) assignments ∧
      sees n d0 x' (set_rows name (rel_schema rel)
        ((λ row, if chosen (rel_schema rel) cond row
                 then assigned (rel_schema rel) assignments row else row) <$> rel_rows rel) d)
  | (x', Err _) => alive n d0 x' ∧ (calm n →
      ¬ (meaningful rel cond ∧ assignable (rel_schema rel) assignments ∧
         ∀ row, row ∈ chosen_rows rel cond → row_ok (rel_schema rel) (assigned (rel_schema rel) assignments row)))
  | (_, Panic _) => False
  end.
Proof.
  intros Hx He Hd Hk. pose proof (sees_wf n d0 x d Hx) as Hwf. pose proof (Hwf _ _ Hd) as Hr.
  eapply (runs_mono n d0); [by apply (runs_effect n d0 x d)|..].
  - intros x' r (d' & (rel' & c & rows & Hd' & Hden & -> & Hass & Hs) & Hx'). rewrite Hd in Hd'. injection Hd' as <-.
    pose proof (denote_source_meaningful d name cond rel Hr Hd) as Hm. rewrite Hden in Hm.
    rewrite (denote_source d name cond rel c rows) in * by done.
    split; [done|]. split; [done|]. split; [done|]. by rewrite <-(update_chosen_effect name rel cond assignments d d').
  - intros Hno (Hm & Hass & Hrows). destruct (denote_source_ok d name cond rel Hr Hd Hm) as [c Hden].
    destruct (update_chosen_succeeds name rel cond assignments d Hr Hd Hk Hrows) as [d' Hs].
    eapply Hno. by exists rel, c, (chosen_rows rel cond).
Qed.

(** C28: DELETE removes exactly the rows its condition is true of, keeps the
    rest of the database, and counts the rows removed.  Otherwise it fails, and
    the transaction can be rolled back; in a calm store it fails only if the
    condition has no meaning in some row. *)
Theorem delete_effect {D T} `{Relational D T} `{!MapOrder} n d0 (x : T) d name cond rel :
  sees n d0 x d → executor_ok (DeleteExecutor name (table_source name cond)) → d !! name = Some rel →
  match Execute (DeleteExecutor name (table_source name cond)) x with
  | (x', Ok r) =>
      r = DeleteResult (Z.of_nat (length (chosen_rows rel cond))) ∧ meaningful rel cond ∧
      sees n d0 x' (set_rows name (rel_schema rel)
        (filter (λ p, chosen (rel_schema rel) cond p.2 = false) (rel_rows rel)) d)
  | (x', Err _) => alive n d0 x' ∧ (calm n → ¬ meaningful rel cond)
  | (_, Panic _) => False
  end.
Proof.
  intros Hx He Hd. pose proof (sees_wf n d0 x d Hx) as Hwf. pose proof (Hwf _ _ Hd) as Hr.
  eapply (runs_mono n d0); [by apply (runs_effect n d0 x d)|..].
  - intros x' r (d' & (c & rows & Hden & -> & Hs) & Hx').
    pose proof (denote_source_meaningful d name cond rel Hr Hd) as Hm. rewrite Hden in Hm.
    rewrite (denote_source d name cond rel c rows) in * by done.
    split; [done|]. split; [done|]. by rewrite <-(delete_chosen_effect name rel cond d d').
  - intros Hno Hm. destruct (denote_source_ok d name cond rel Hr Hd Hm) as [c Hden].
    destruct (delete_rows_succeeds name (chosen_rows rel cond) d) as [d' Hs]; [by rewrite Hd|].
    eapply Hno. by exists c, (chosen_rows rel cond).
Qed.

(** An UPDATE does not depend on the order in which Go iterates over the
    map of its assignments: whether they resolve, and the row they make of
    each row of the table, is the same in every order. *)
Theorem update_order_irrelevant t assignments order1 order2 :
  order1 ≡ₚ map_to_list assignments → order2 ≡ₚ map_to_list assignments →
  match rmapM (resolve_assignment t) order1, rmapM (resolve_assignment t) order2 with
  | Ok l1, Ok l2 => ∀ row, length row = length (Columns t) → ∃ row',
      rfoldl assign row l1 = Ok row' ∧ rfoldl assign row l2 = Ok row'
  | Err _, Err _ => True
  | _, _ => False
  end.
Proof.
  intros H1 H2. pose proof (resolve_order t assignments order1 H1) as R1.
  pose proof (resolve_order t assignments order2 H2) as R2.
  destruct (rmapM _ order1), (rmapM _ order2); try tauto.
  intros row Hrow. exists (assigned t assignments row). by split; [apply R1|apply R2].
Qed.

(** ** Keys and rows in the store *)

(** C31: the bytes of a primary key determine the value, and sort like the
    values of the column: scans return rows in the order of their keys. *)
Theorem primary_key_order t v w a b :
  typed_value t v → typed_value t w → encodePrimaryKey v = Ok a → encodePrimaryKey w = Ok b →
  (a = b ↔ v = w) ∧ (value_cmp v w < 0 → blt a b) ∧ (blt a b → value_cmp v w ≤ 0).
Proof.
  intros [Hv Wv] [Hw Ww]. rewrite !encodePrimaryKey_ok by done. intros [= <-] [= <-].
  split; [split; [by apply pk_bytes_inj|by intros ->]|]. unfold value_cmp.
  assert (lex (value_key v) (value_key w) = Lt → blt (pk_bytes v) (pk_bytes w)) as Hlt by by apply (pk_bytes_lt t).
  split; [by destruct (lex _ _)|]. intros Hb.
  destruct (lex (value_key v) (value_key w)) eqn:Hl; cbn; [lia|lia|]. exfalso.
  apply (blt_irrefl (pk_bytes v)). eapply blt_trans; [exact Hb|]. apply (pk_bytes_lt t); try done.
  by rewrite lex_antisym, Hl.
Qed.

(** C32: keys do not collide: a row key determines its table and primary key,
    no row key is a table key, and the prefix of a table's scan is a prefix of
    the keys of its own rows only. *)
Theorem stored_keys_distinct n n' v v' k k' kt p :
  name_ok n → name_ok n' → value_wf v → value_wf v' →
  rowKey n v = Ok k → rowKey n' v' = Ok k' → tableKey n' = Ok kt → rowPrefixKey n' = Ok p →
  (k = k' ↔ n = n' ∧ v = v') ∧ k ≠ kt ∧ (p `prefix_of` k ↔ n = n').
Proof.
  intros Hn Hn' Wv Wv' Hk Hk' Hkt Hp.
  unfold tableKey in Hkt. unfold rowPrefixKey in Hp. case_decide as Hne'; [done|].
  injection Hkt as <-. injection Hp as <-.
  destruct (decide (n = [])) as [->|Hne]; [done|].
  rewrite rowKey_ok in Hk, Hk' by done. injection Hk as <-. injection Hk' as <-.
  split; [|split; [done|]].
  - split; [|by intros [-> ->]]. intros [-> Hb]%row_prefix_inj; [|done..].
    split; [done|]. by apply pk_bytes_inj.
  - split; [|intros ->; by eexists]. intros [rest Hrest].
    by destruct (row_prefix_inj n n' (pk_bytes v) rest Hn Hn' Hrest).
Qed.

(** C40: [Validate] accepts exactly the tables with a name, valid columns and
    one primary key, which is not nullable; in such a table every row of the
    right length has a primary key, and it is the value of that column. *)
Theorem valid_tables t :
  (Validate t = Ok () ↔
    tbl_Name t ≠ [] ∧
    Forall (λ c, (PrimaryKey c = true → Nullable c = false) ∧
      ∀ v, Default c = Some v → of_type (ColDataType c) v ∨ Value_DataType v = None) (Columns t) ∧
    length (filter (λ c, PrimaryKey c = true) (Columns t)) = 1%nat) ∧
  (Validate t = Ok () → ∀ row, length row = length (Columns t) →
    ∃ i c v, Columns t !! i = Some c ∧ PrimaryKey c = true ∧ row !! i = Some v ∧ PrimaryKeyValue t row = Ok v).
Proof. split; [apply Validate_counts|]. intros Ht row Hrow. by apply Validate_primary_key. Qed.

(** C9: a transaction of the SQL engine over any lawful storage implements the
    abstract database it sees: tables are found and scanned in the order of
    their primary keys, where a calm store fails no read; each writing method
    either has the specified effect, or fails and the transaction can still be
    rolled back, and in a calm store it fails only where the specification does;
    committing publishes what it sees, rolling back what was there before, and
    a commit or rollback the storage makes fail half-way leaves what was there
    before. *)
Theorem kv_transaction_refines {E} `{EngineLaws E} `{!Json} `{!JsonLaws} n d0 (x : KVTransaction E) d :
  kv_sees n d0 x d →
  (∀ name, name ≠ [] →
     reads (calm n) (λ x, kv_sees n d0 x d) (kv_alive n d0) (GetTable name x) (Ok (rel_schema <$> d !! name))) ∧
  (∀ r, d !! tbl_Name (rel_schema r) = Some r →
     reads (calm n) (λ x, kv_sees n d0 x d) (kv_alive n d0) (ScanTable (rel_schema r) x) (Ok (relation_rows r))) ∧
  (∀ t, name_ok (tbl_Name t) → table_encodable t →
     does (calm n) (kv_sees n d0) (kv_alive n d0) (CreateTable t x) (create_table_spec t d)) ∧
  (∀ name row, name_ok name → row_encodable row →
     does (calm n) (kv_sees n d0) (kv_alive n d0) (CreateRow name row x) (create_row_spec name row d)) ∧
  (∀ t old row, rel_schema <$> d !! tbl_Name t = Some t → row_ok t old → row_encodable old → row_encodable row →
     does (calm n) (kv_sees n d0) (kv_alive n d0) (UpdateRow t (row_primary t old) row x)
       (update_row_spec (tbl_Name t) old row d)) ∧
  (∀ t row, rel_schema <$> d !! tbl_Name t = Some t → row_ok t row → row_encodable row →
     does (calm n) (kv_sees n d0) (kv_alive n d0) (DeleteRow t (row_primary t row) x)
       (delete_row_spec (tbl_Name t) row d)) ∧
  ended (calm n) (λ x, kv_stores n (kv_engine x)) (kvCommit x) d d0 ∧
  ended (calm n) (λ x, kv_stores n (kv_engine x)) (kvRollback x) d0 d0.
Proof.
  intros Hx.
  split; [intros name; by apply (get_table_ok (Relational := kv_relational))|].
  split; [intros r Hr; by apply (scan_table_ok (Relational := kv_relational))|].
  split; [intros; by apply create_table_does|].
  split; [intros; by apply create_row_does|].
  split; [intros; by apply update_row_does|].
  split; [intros; by apply delete_row_does|].
  split; [exact (commit_ok (Relational := kv_relational) n d0 x d Hx)|].
  exact (rollback_ok (Relational := kv_relational) n d0 x (sees_alive n d0 x d Hx)).
Qed.

(** C30: the codec of MVCC keys: every key the program builds is decoded to
    itself, every byte string that decodes is the encoding of its key, and
    versions of raw keys sort by raw key, then by version. *)
Theorem mvcc_keys_roundtrip k b :
  (key_wf k → decodeMvccKey (encode k) = Ok k) ∧
  (decodeMvccKey b = Ok k → key_wf k ∧ encode k = b) ∧
  no_panic (decodeMvccKey b) ∧
  (∀ raw raw' v v', in_uint64 v → in_uint64 v' →
     (blt (encode (versionedKey raw v)) (encode (versionedKey raw' v')) ↔
      blt raw raw' ∨ raw = raw' ∧ v < v')).
Proof.
  split; [apply decode_encode_key|]. split; [apply encode_decode_key|].
  split; [apply decodeMvccKey_no_panic_all|]. apply versionedKey_order.
Qed.

(** ** The theorems at concrete inputs *)

Lemma insert_row_built_witness :
  makeInsertRow t [str "name"; str "id"] [StringValue (str "z"); IntegerValue 5] = Ok (row 5 "z") ∧
  columns_given t [str "name"; str "id"] [StringValue (str "z"); IntegerValue 5].
Proof.
  assert (NoDup (map Name (Columns t))) as Hnd by (apply (bool_decide_unpack _); vm_compute; exact I).
  assert (makeInsertRow t [str "name"; str "id"] [StringValue (str "z"); IntegerValue 5] = Ok (row 5 "z")) as Hm
    by (vm_compute; reflexivity).
  split; [exact Hm|].
  by destruct (proj1 (insert_row_built t [str "name"; str "id"] [StringValue (str "z"); IntegerValue 5]
    (row 5 "z") Hnd) Hm) as [Hg _].
Defined.

Definition id_above (i : Z) : Expression :=
  OperationExpression OperationGreaterThan (ColumnReference (str "id")) (IntegerLiteral i).

Lemma db_t : db !! str "t" = Some (mkRelation t stored).
Proof. unfold db. apply lookup_singleton_eq. Qed.

Lemma insert_effect_witness :
  ∃ x x' : KVTransaction MemoryEngine, sees (mkRegime 0 True) ∅ x db ∧
    Execute (InsertExecutor (str "t") [] [[IntegerLiteral 7; StringLiteral (str "x")]]) x =
      (x', Ok (InsertResult 1)).
Proof.
  destruct sees_db as [x Hx].
  pose proof (insert_effect (mkRegime 0 True) ∅ x db (str "t") []
    [[IntegerLiteral 7; StringLiteral (str "x")]] Hx) as H.
  assert (executor_ok (InsertExecutor (str "t") [] [[IntegerLiteral 7; StringLiteral (str "x")]])) as He.
  { split; [done|]. split; [exact t_name_ok|]. apply List.Forall_cons; [|constructor].
    apply List.Forall_cons; [|apply List.Forall_cons; [|constructor]]; intros v [= <-]; done. }
  specialize (H He). cbn zeta in H.
  destruct (Execute _ x) as [x' [r|err|p]] eqn:Hrun; [| |destruct H].
  - exists x, x'. split; [exact Hx|]. rewrite Hrun. by destruct H as [-> _].
  - exfalso. destruct H as [_ H]. apply (H I t stored [row 7 "x"]).
    split; [exact db_t|]. split.
    { apply List.Forall2_cons; [|constructor]. eexists. split; [reflexivity|]. vm_compute. reflexivity. }
    split; [apply List.Forall_cons; [by apply row_fits|constructor]|].
    split; [apply (bool_decide_unpack _); vm_compute; exact I|].
    intros r ->%list_elem_of_singleton. vm_compute. reflexivity.
Defined.

Definition above_1 : Executor := table_source (str "t") (Some (id_above 1)).

Lemma above_1_meaningful : meaningful (mkRelation t stored) (Some (id_above 1)).
Proof.
  pose proof (denote_source_meaningful db (str "t") (Some (id_above 1)) _ (db_is_wf _ _ db_t) db_t) as H.
  assert (match denote db above_1 with Ok _ => true | _ => false end = true) as E by (vm_compute; reflexivity).
  unfold above_1 in E. by destruct (denote db _).
Qed.

Lemma update_effect_witness :
  let assignments := {[ str "name" := StringLiteral (str "x") ]} in
  ∃ x x' : KVTransaction MemoryEngine, sees (mkRegime 0 True) ∅ x db ∧
    Execute (UpdateExecutor (str "t") above_1 assignments) x = (x', Ok (UpdateResult 2)).
Proof.
  intros assignments. destruct sees_db as [x Hx].
  assert (executor_ok (UpdateExecutor (str "t") above_1 assignments)) as He.
  { split; [done|]. split; [|by eexists]. apply map_Forall_singleton. by intros v [= <-]. }
  pose proof (update_effect (mkRegime 0 True) ∅ x db (str "t") (Some (id_above 1)) assignments
    (mkRelation t stored) Hx He db_t ltac:(by repeat constructor)) as H.
  fold above_1 in H. destruct (Execute _ x) as [x' [r|err|p]] eqn:Hrun; [|exfalso|destruct H].
  - exists x, x'. split; [exact Hx|]. rewrite Hrun. destruct H as [-> _]. by vm_compute.
  - destruct H as [_ H]. destruct (H I). split; [exact above_1_meaningful|]. split.
    + intros column e [<- <-]%lookup_singleton_Some. split; by eexists.
    + apply Forall_forall. apply (bool_decide_unpack _). vm_compute. exact I.
Defined.

Lemma delete_effect_witness :
  ∃ (x x' : KVTransaction MemoryEngine) d', sees (mkRegime 0 True) ∅ x db ∧
    Execute (DeleteExecutor (str "t") above_1) x = (x', Ok (DeleteResult 2)) ∧ sees (mkRegime 0 True) ∅ x' d' ∧
    d' !! str "t" = Some (mkRelation t {[ row_pk t (row 1 "a") := row 1 "a" ]}).
Proof.
  destruct sees_db as [x Hx].
  pose proof (delete_effect (mkRegime 0 True) ∅ x db (str "t") (Some (id_above 1)) (mkRelation t stored) Hx) as H.
  specialize (H ltac:(split; [done|by eexists]) db_t). fold above_1 in H.
  destruct (Execute _ x) as [x' [r|err|p]] eqn:Hrun; [|destruct H as [_ H]; destruct (H I above_1_meaningful)|destruct H].
  destruct H as (-> & _ & Hx'). eexists x, x', _. split; [exact Hx|]. split; [rewrite Hrun; by vm_compute|].
  split; [exact Hx'|]. unfold set_rows. rewrite lookup_insert_eq.
  apply (f_equal (λ m, Some (mkRelation t m))), (bool_decide_unpack _). vm_compute. exact I.
Defined.

Lemma update_order_irrelevant_witness :
  let a := (str "name", StringLiteral (str "x")) in let b := (str "id", IntegerLiteral 9) in
  ∃ l1 l2, rmapM (resolve_assignment t) [a; b] = Ok l1 ∧ rmapM (resolve_assignment t) [b; a] = Ok l2 ∧
    l1 ≠ l2 ∧ rfoldl assign (row 1 "a") l1 = rfoldl assign (row 1 "a") l2.
Proof.
  intros a b. eexists _, _. split; [reflexivity|]. split; [reflexivity|]. split; [done|].
  pose proof (update_order_irrelevant t (list_to_map [a; b]) [a; b] [b; a]) as H. cbn [rmapM] in H.
  destruct (H ltac:(symmetry; apply map_to_list_to_map; apply (bool_decide_unpack _); vm_compute; exact I)
    ltac:(etrans; [apply perm_swap|]; symmetry; apply map_to_list_to_map; apply (bool_decide_unpack _); vm_compute; exact I)
    (row 1 "a") eq_refl) as (row' & H1 & H2).
  etrans; [exact H1|symmetry; exact H2].
Defined.

Lemma primary_key_order_witness :
  blt (x02 :: be_put 8 (2 ^ 63 - 1)) (x02 :: be_put 8 (2 ^ 63 + 1)).
Proof.
  assert (∀ i, in_int64 i → typed_value Integer (IntegerValue i)) as Hi by (intros; split; [by right|done]).
  destruct (primary_key_order Integer (IntegerValue (-1)) (IntegerValue 1)
    (x02 :: be_put 8 (2 ^ 63 - 1)) (x02 :: be_put 8 (2 ^ 63 + 1))) as (_ & H & _);
    [by apply Hi|by apply Hi|reflexivity|reflexivity|].
  by apply H.
Defined.

Lemma stored_keys_distinct_witness :
  x02 :: str "t" ++ [x00; x04; x61] ≠ x01 :: str "tt" ∧
  ¬ (x02 :: str "tt" ++ [x00]) `prefix_of` (x02 :: str "t" ++ [x00; x04; x61]).
Proof.
  assert (name_ok (str "tt")) as Htt by (unfold name_ok; cbn; set_solver).
  destruct (stored_keys_distinct (str "t") (str "tt") (StringValue [x61]) NullValue
    (x02 :: str "t" ++ [x00; x04; x61]) (x02 :: str "tt" ++ [x00; x00]) (x01 :: str "tt")
    (x02 :: str "tt" ++ [x00]) t_name_ok Htt) as (_ & H & Hp); [done..|].
  split; [exact H|]. by rewrite Hp.
Defined.

Lemma kv_transaction_refines_witness :
  ∃ (x : KVTransaction MemoryEngine), kv_sees (mkRegime 0 True) ∅ x ∅ ∧
    (GetTable (str "t") x).2 = Ok None ∧
    ended True (λ x, kv_stores (mkRegime 0 True) (kv_engine x)) (kvCommit x) ∅ ∅.
Proof.
  destruct sees_empty as [x Hx].
  destruct (kv_transaction_refines (mkRegime 0 True) ∅ x ∅ Hx) as (Hg & _ & _ & _ & _ & _ & Hc & _).
  exists x. split; [exact Hx|]. split; [|exact Hc].
  by destruct (reads_calm _ _ _ _ _ (Hg (str "t") ltac:(done)) I) as [-> _].
Defined.
