(* ===== verification/Btree.v ===== *)
(** * The ordered index ([github.com/google/btree])

    The disk engine keeps its index in the library's [BTreeG].  [BTree] lists
    the methods the engine calls, [BTreeLaws] their documented behaviour on the
    ascending list of the items; the iterators are the lists of items they
    visit while the callback returns true. *)

From S2P Require Import Prelude Bytes.

(** [NewG]: an empty tree ordered by [less] *)
Class BTree (A : Type) := {
  BTreeG : Type;
  NewG : (A → A → bool) → BTreeG;
  ReplaceOrInsert : A → BTreeG → BTreeG;
  btGet : A → BTreeG → option A;
  btDelete : A → BTreeG → BTreeG;
  Ascend : BTreeG → list A;
  AscendRange : A → A → BTreeG → list A;
  AscendGreaterOrEqual : A → BTreeG → list A;
  AscendLessThan : A → BTreeG → list A;
  DescendLessOrEqual : A → BTreeG → list A;
  Descend : BTreeG → list A;
}.
Arguments BTreeG A {_}.

(** equal for the library: neither is less *)
Definition same {A} (less : A → A → bool) (a b : A) : bool := negb (less a b) && negb (less b a).

Class BTreeLaws {A} (less : A → A → bool) `{!BTree A} := {
  btree_wf : BTreeG A → Prop;
  Ascend_sorted t : btree_wf t → StronglySorted (λ a b, less a b = true) (Ascend t);
  NewG_wf : btree_wf (NewG less);
  Ascend_NewG : Ascend (NewG less) = [];
  ReplaceOrInsert_wf x t : btree_wf t → btree_wf (ReplaceOrInsert x t);
  elem_of_ReplaceOrInsert x t a :
    btree_wf t → a ∈ Ascend (ReplaceOrInsert x t) ↔ a = x ∨ (a ∈ Ascend t ∧ same less x a = false);
  btDelete_wf x t : btree_wf t → btree_wf (btDelete x t);
  elem_of_btDelete x t a : btree_wf t → a ∈ Ascend (btDelete x t) ↔ a ∈ Ascend t ∧ same less x a = false;
  btGet_spec x t a : btree_wf t → btGet x t = Some a ↔ a ∈ Ascend t ∧ same less x a = true;
  AscendRange_spec a b t :
    btree_wf t → AscendRange a b t = filter (λ x, negb (less x a) && less x b = true) (Ascend t);
  AscendGreaterOrEqual_spec a t :
    btree_wf t → AscendGreaterOrEqual a t = filter (λ x, negb (less x a) = true) (Ascend t);
  AscendLessThan_spec b t : btree_wf t → AscendLessThan b t = filter (λ x, less x b = true) (Ascend t);
  DescendLessOrEqual_spec b t :
    btree_wf t → DescendLessOrEqual b t = rev (filter (λ x, negb (less b x) = true) (Ascend t));
  Descend_spec t : btree_wf t → Descend t = rev (Ascend t);
}.

(** an iterator: the callback stops it by returning false *)
Fixpoint iterate {A S} (f : S → A → S * bool) (s : S) (items : list A) : S :=
  match items with
  | [] => s
  | a :: items => let '(s, continue) := f s a in if (continue : bool) then iterate f s items else s
  end.

(** ** A sorted list is such a tree *)

Definition list_insert {A} (less : A → A → bool) (x : A) (t : list A) : list A :=
  filter (λ a, less a x = true) t ++ x :: filter (λ a, less x a = true) t.

Definition list_btree A : BTree A := {|
  BTreeG := (A → A → bool) * list A;
  NewG less := (less, []);
  ReplaceOrInsert x t := (t.1, list_insert t.1 x t.2);
  btGet x t := head (filter (λ a, same t.1 x a = true) t.2);
  btDelete x t := (t.1, filter (λ a, same t.1 x a = false) t.2);
  Ascend t := t.2;
  AscendRange a b t := filter (λ x, negb (t.1 x a) && t.1 x b = true) t.2;
  AscendGreaterOrEqual a t := filter (λ x, negb (t.1 x a) = true) t.2;
  AscendLessThan b t := filter (λ x, t.1 x b = true) t.2;
  DescendLessOrEqual b t := rev (filter (λ x, negb (t.1 b x) = true) t.2);
  Descend t := rev t.2;
|}.

Section sorted_list.
Context {A : Type} (less : A → A → bool).
Hypothesis less_trans : ∀ a b c, less a b = true → less b c = true → less a c = true.
Hypothesis less_same_trans : ∀ a b c, same less a b = true → less b c = true → less a c = true.

Lemma sorted_filter (P : A → Prop) `{∀ a, Decision (P a)} t :
  StronglySorted (λ a b, less a b = true) t → StronglySorted (λ a b, less a b = true) (filter P t).
Proof.
  induction 1 as [|a t Ht IH Ha]; [constructor|]. rewrite filter_cons. case_decide; [|done].
  constructor; [done|]. apply Forall_forall. intros b [_ Hb]%list_elem_of_filter.
  by apply (proj1 (Forall_forall _ _) Ha).
Qed.

Lemma list_insert_sorted x t :
  StronglySorted (λ a b, less a b = true) t → StronglySorted (λ a b, less a b = true) (list_insert less x t).
Proof.
  intros Ht. unfold list_insert. apply StronglySorted_app_2.
  - intros a b [Ha _]%list_elem_of_filter [->|[Hb _]%list_elem_of_filter]%elem_of_cons; [done|].
    by eapply less_trans.
  - by apply sorted_filter.
  - constructor; [by apply sorted_filter|]. apply Forall_forall. by intros b [? _]%list_elem_of_filter.
Qed.

Lemma sorted_head_unique x t a :
  StronglySorted (λ a b, less a b = true) t → a ∈ t → same less x a = true →
  head (filter (λ a, same less x a = true) t) = Some a.
Proof.
  induction 1 as [|b t Ht IH Hb]; [by intros ?%elem_of_nil|]. intros [->|Ha]%elem_of_cons Hx; rewrite filter_cons.
  - by rewrite decide_True.
  - case_decide as Hxb; [|by apply IH]. exfalso.
    pose proof (proj1 (Forall_forall _ _) Hb a Ha) as Hba. cbn in Hba.
    pose proof (less_same_trans x b a Hxb Hba) as H. unfold same in Hx. by rewrite H in Hx.
Qed.

Lemma list_btree_laws : @BTreeLaws A less (list_btree A).
Proof.
  refine {| btree_wf := λ t : @BTreeG A (list_btree A), t.1 = less ∧ StronglySorted (λ a b, less a b = true) t.2 |}.
  all: cbn [Ascend list_btree BTreeG NewG ReplaceOrInsert btDelete btGet AscendRange AscendGreaterOrEqual
    AscendLessThan DescendLessOrEqual Descend fst snd].
  all: try (by intros); try (by intros *; destruct t as [l t]; intros [-> _]).
  - by intros t [_ ?].
  - split; [done|constructor].
  - intros x [l t] [-> Ht]. split; [done|]. by apply list_insert_sorted.
  - intros x [l t] a [-> _]. cbn [fst snd]. unfold list_insert.
    rewrite elem_of_app, elem_of_cons, !list_elem_of_filter. unfold same. split.
    + intros [[H ?]|[->|[H ?]]]; [right|by left|right]; rewrite H; cbn; by rewrite ?andb_false_r.
    + intros [->|[Ha Hs]]; [by right; left|]. destruct (less a x) eqn:E1, (less x a) eqn:E2; auto.
  - intros x [l t] [-> Ht]. split; [done|]. by apply sorted_filter.
  - intros x [l t] a [-> _]. cbn [fst snd]. rewrite list_elem_of_filter. tauto.
  - intros x [l t] a [-> Ht]. cbn [fst snd]. split.
    + intros H. destruct (filter _ t) as [|b k] eqn:Hf; [done|]. injection H as ->.
      assert (a ∈ filter (λ a, same less x a = true) t) as Ha by (rewrite Hf; set_solver).
      by apply list_elem_of_filter in Ha as [? ?].
    + intros [? ?]. by apply sorted_head_unique.
Qed.

End sorted_list.
