(* ===== verification/Os.v ===== *)
(** * Files

    What the disk engine uses of Go's package [os], and of the lock files of
    [github.com/gofrs/flock].  The files of a directory are a map from paths to
    contents.  A call that changes it may fail: [faults] says, for the [i]-th
    such call of the process, whether it succeeds ([None]) or fails, and how
    many bytes a failing write leaves in the file ([Some n], but never all of
    them: that write succeeds).  A crash during the [i]-th call is a process
    all of whose calls from the [i]-th on fail, and leave nothing after it.
    Reading does not fail, but for the end of the file and closed files. *)

From S2P Require Import Prelude Bytes.

(** lock files: third-party code, with a state of its own; its methods return
    a value or an error *)
Class Flock := {
  FlockState : Type;
  TryLockContext : bytes → FlockState → FlockState * (error + bool);
  Unlock : bytes → FlockState → FlockState * (error + unit);
}.

Definition returned {A} (r : error + A) : result A := match r with inl e => Err e | inr a => Ok a end.

(** the name [os.CreateTemp] picks for a temporary file beside [path] *)
Class TempNames := {
  temp_path : bytes → gmap bytes bytes → bytes;
  temp_fresh path files : files !! temp_path path files = None;
  temp_other path files : temp_path path files ≠ path ∧ temp_path path files ++ str ".old" ≠ path;
}.

Record World `{Flock} := mkWorld {
  files : gmap bytes bytes;
  calls : nat;
  faults : nat → option nat;
  locks : FlockState;
}.
#[global] Arguments mkWorld {_} files calls faults locks.

(** [*os.File]: its path, and whether it was closed *)
Record File := mkFile { fname : bytes; closed : bool }.

Definition ErrNotExist : error := Errorf "file does not exist".
Definition ErrClosed : error := Errorf "file already closed".
Definition ErrEOF : error := Errorf "EOF".

Section os.
Context `{Flock}.

(** a call that changes files: what it does, and what it does when it fails *)
Definition syscall {A} (act : gmap bytes bytes → gmap bytes bytes * result A)
    (failing : nat → gmap bytes bytes → gmap bytes bytes) : ST World A := λ w,
  match faults w (calls w) with
  | None =>
      let '(fs, r) := act (files w) in
      (mkWorld fs (S (calls w)) (faults w) (locks w), r)
  | Some n =>
      (mkWorld (failing n (files w)) (S (calls w)) (faults w) (locks w), Err (Errorf "input/output error"))
  end.

Definition untouched (_ : nat) (fs : gmap bytes bytes) : gmap bytes bytes := fs.

(** [os.OpenFile] with [O_CREATE|O_APPEND|O_RDWR] *)
Definition os_OpenFile (name : bytes) : ST World File :=
  syscall (λ fs, (match fs !! name with Some _ => fs | None => <[name := []]> fs end, Ok (mkFile name false)))
    untouched.

(** one [write] at the end of a file: a log is opened with [O_APPEND], and the
    code seeks to the end before it writes *)
Definition append_file (name data : bytes) (fs : gmap bytes bytes) : gmap bytes bytes :=
  alter (λ contents, contents ++ data) name fs.

(** a failing write leaves less than all of the bytes *)
Definition proper (n : nat) (data : bytes) : nat := Nat.min n (pred (length data)).

Definition os_Write (f : File) (data : bytes) : ST World unit :=
  if closed f then sthrow ErrClosed
  else syscall (λ fs, (append_file (fname f) data fs, Ok ()))
         (λ n, append_file (fname f) (take (proper n data) data)).

Definition os_Sync (f : File) : ST World unit :=
  if closed f then sthrow ErrClosed else syscall (λ fs, (fs, Ok ())) untouched.

Definition os_Close (f : File) : ST World unit :=
  if closed f then sthrow ErrClosed else syscall (λ fs, (fs, Ok ())) untouched.

Definition os_Rename (old new : bytes) : ST World unit :=
  syscall (λ fs, match fs !! old with
    | Some contents => (<[new := contents]> (delete old fs), Ok ())
    | None => (fs, Err ErrNotExist)
    end) untouched.

Definition os_Remove (name : bytes) : ST World unit :=
  syscall (λ fs, match fs !! name with
    | Some _ => (delete name fs, Ok ())
    | None => (fs, Err ErrNotExist)
    end) untouched.

Definition os_CreateTemp `{TempNames} (path : bytes) : ST World File :=
  syscall (λ fs, (<[temp_path path fs := []]> fs, Ok (mkFile (temp_path path fs) false))) untouched.

(** the contents of an open file *)
Definition file_contents (f : File) (w : World) : result bytes :=
  if closed f then Err ErrClosed
  else match files w !! fname f with Some contents => Ok contents | None => Err ErrNotExist end.

(** the size of a file: [Seek] to the end, or [Stat] *)
Definition os_Size (f : File) (w : World) : result Z :=
  let? contents := file_contents f w in Ok (Z.of_nat (length contents)).

(** [ReadAt]: all of the [n] bytes at [offset], or an error *)
Definition os_ReadAt (f : File) (n offset : Z) (w : World) : result bytes :=
  let? contents := file_contents f w in
  let data := take (Z.to_nat n) (drop (Z.to_nat offset) contents) in
  if decide (length data < Z.to_nat n)%nat then Err ErrEOF else Ok data.

End os.

(** [errors.Join]; a nil error is success *)
Definition errors_Join (a b : result unit) : result unit :=
  match a, b with
  | Panic p, _ => Panic p
  | _, Panic p => Panic p
  | Ok _, r => r
  | Err e, Ok _ => Err e
  | Err e1, Err e2 => Err (Joined e1 e2)
  end.

(** [defer f()], whose result is ignored *)
Definition sdefer {S A} (f : ST S unit) (m : ST S A) : ST S A := λ s,
  let '(s, r) := m s in ((f s).1, r).
