(* ===== verification/Disk.v ===== *)
(** * The disk engine ([storage/disk_log.go], [storage/disk.go])

    An append-only log of records and an index of the live ones.  The methods
    hold the engine's lock from beginning to end, so each is one step; a scan
    takes one step for its snapshot of the index and one for each record it
    reads. *)

From S2P Require Import Prelude Bytes Types Engine Btree Os.

(** ** The log *)

Definition diskLogHeaderSize : Z := 8.
Definition diskLogTombstoneSize : Z := -1.
Definition maxDiskLogValueSize : Z := 2 ^ 31 - 1.
Definition maxDiskLogEntrySize : Z := 2 ^ 32 - 1.

Definition uint32 (z : Z) : Z := z mod 2 ^ 32.
Definition int32 (z : Z) : Z := (z + 2 ^ 31) mod 2 ^ 32 - 2 ^ 31.

Record diskLog := mkDiskLog { file : File }.
Record diskLogPosition := mkPosition { EntryOffset : Z; EntrySize : Z }.

#[export] Instance diskLogPosition_eq_dec : EqDecision diskLogPosition.
Proof. solve_decision. Defined.

Section log.
Context `{Flock}.

Definition newDisLog (name : bytes) : ST World diskLog :=
  let! f := swrap "storage: opening disk log %q: %w" (os_OpenFile name) in
  sret (mkDiskLog f).

(** the buffer of the writer has the size of the entry, so its bytes reach the
    file in one write, when it is flushed *)
Definition writeEntry (d : diskLog) (key value : bytes) (deleted : bool) : ST World diskLogPosition :=
  if Z.of_nat (length value) >? maxDiskLogValueSize
  then sthrow (Errorf "storage: value is too large: %d bytes")
  else
    let valueSize := if deleted then diskLogTombstoneSize else int32 (Z.of_nat (length value)) in
    let storedValueSize := if deleted then 0 else Z.of_nat (length value) in
    let entrySize := diskLogHeaderSize + Z.of_nat (length key) + storedValueSize in
    if entrySize >? maxDiskLogEntrySize
    then sthrow (Errorf "storage: log entry is too large: %d bytes")
    else
      let! entryOffset := swrap "storage: seeking to end of disk log: %w" (sread (os_Size (file d))) in
      let header := be_put 4 (uint32 (Z.of_nat (length key))) ++ be_put 4 (uint32 valueSize) in
      let buffered := header ++ key ++ (if deleted then [] else value) in
      swrap "storage: flushing disk log entry: %w" (os_Write (file d) buffered) ;;!
      sret (mkPosition entryOffset (uint32 entrySize)).

Definition readValue (d : diskLog) (offset size : Z) (w : World) : result bytes :=
  rwrap "storage: reading %d bytes at offset %d: %w" (os_ReadAt (file d) size offset w).

Definition readEntry (d : diskLog) (offset : Z) (w : World) : result (bytes * Z) :=
  let? header := rwrap "storage: reading log header at offset %d: %w"
                   (os_ReadAt (file d) diskLogHeaderSize offset w) in
  let keySize := be_get (take 4 header) in
  let valueSize := int32 (be_get (drop 4 header)) in
  let? key := rwrap "storage: reading log key at offset %d: %w"
                (os_ReadAt (file d) keySize (offset + diskLogHeaderSize) w) in
  Ok (key, valueSize).

End log.

(** ** The engine *)

Definition ErrDiskEngineClosed : error := Errorf "storage: disk engine closed".

Record diskItem := mkItem { key : bytes; logPosition : diskLogPosition }.

Definition lessDiskItem (a b : diskItem) : bool :=
  match bytes_compare (key a) (key b) with Lt => true | _ => false end.

(** a search key: an item without a position *)
Definition search (k : bytes) : diskItem := mkItem k (mkPosition 0 0).

(** a nil keydir, log or lock is [None]; the lock is named by its path *)
Record DiskEngine `{BTree diskItem} := mkDiskEngine {
  keydir : option (BTreeG diskItem);
  log : option diskLog;
  fileLock : option bytes;
}.
#[global] Arguments mkDiskEngine {_} keydir log fileLock.

(** an engine and the files it runs on *)
Record DiskState `{Flock} `{BTree diskItem} := mkDisk { engine : DiskEngine; world : World }.
#[global] Arguments mkDisk {_ _} engine world.

Section engine.
Context `{Flock} `{BTree diskItem}.

Definition on_world {A} (m : ST World A) : ST DiskState A := λ d,
  let '(w, r) := m (world d) in (mkDisk (engine d) w, r).

Definition modify (f : DiskEngine → DiskEngine) : ST DiskState unit := λ d,
  (mkDisk (f (engine d)) (world d), Ok ()).

Definition set_keydir (kd : BTreeG diskItem) (e : DiskEngine) : DiskEngine :=
  mkDiskEngine (Some kd) (log e) (fileLock e).
Definition set_log (l : diskLog) (e : DiskEngine) : DiskEngine :=
  mkDiskEngine (keydir e) (Some l) (fileLock e).

(** the log of an open engine *)
Definition ensureOpen (d : DiskState) : result diskLog :=
  match log (engine d) with None => Err ErrDiskEngineClosed | Some l => Ok l end.

Definition the_keydir (d : DiskState) : result (BTreeG diskItem) := rderef (keydir (engine d)).

Definition readLogValue (l : diskLog) (position : diskLogPosition) (w : World) : result bytes :=
  let? (key, valueSize) := readEntry l (EntryOffset position) w in
  if valueSize <? 0 then Err (Errorf "storage: invalid indexed value size %d at offset %d")
  else
    let entrySize := diskLogHeaderSize + Z.of_nat (length key) + valueSize in
    if negb (entrySize =? EntrySize position)
    then Err (Errorf "storage: entry size mismatch at offset %d: index %d, log %d")
    else
      let valueOffset := EntryOffset position + diskLogHeaderSize + Z.of_nat (length key) in
      readValue l valueOffset (uint32 valueSize) w.

End engine.

Module Disk.
Section methods.
Context `{Flock} `{BTree diskItem}.

Definition Set_ (k : bytes) (value : slice) : ST DiskState unit :=
  let! l := sread ensureOpen in
  let! position := swrap "storage: setting key %q: %w" (on_world (writeEntry l k (sbytes value) false)) in
  let! kd := sread the_keydir in
  modify (set_keydir (ReplaceOrInsert (mkItem k position) kd)).

Definition Get (k : bytes) (d : DiskState) : result slice :=
  let? l := ensureOpen d in
  let? kd := the_keydir d in
  match btGet (search k) kd with
  | None => Ok None
  | Some item =>
      let? value := rwrap "storage: getting key %q: %w" (readLogValue l (logPosition item) (world d)) in
      Ok (Some value)
  end.

Definition Delete (k : bytes) : ST DiskState unit :=
  let! l := sread ensureOpen in
  swrap "storage: deleting key %q: %w" (on_world (writeEntry l k [] true)) ;;!
  let! kd := sread the_keydir in
  modify (set_keydir (btDelete (search k) kd)).

(** ** Scans *)

(** the callback of a forward scan *)
Definition appendItem (items : list diskItem) (item : diskItem) : list diskItem * bool :=
  (items ++ [item], true).

Definition appendReverseItem (start end_ : slice) (items : list diskItem) (item : diskItem)
    : list diskItem * bool :=
  if match end_ with Some e => bool_decide (bytes_compare (key item) e ≠ Lt) | None => false end
  then (items, true)
  else if match start with Some s => bool_decide (bytes_compare (key item) s = Lt) | None => false end
  then (items, false)
  else appendItem items item.

Definition snapshotRange (start end_ : slice) (reverse : bool) (d : DiskState) : result (list diskItem) :=
  let? _ := ensureOpen d in
  if match start, end_ with Some s, Some e => bool_decide (bytes_compare s e ≠ Lt) | _, _ => false end
  then Ok []
  else
    let? kd := the_keydir d in
    if negb reverse then
      let visited :=
        match start, end_ with
        | Some s, Some e => AscendRange (search s) (search e) kd
        | Some s, None => AscendGreaterOrEqual (search s) kd
        | None, Some e => AscendLessThan (search e) kd
        | None, None => Ascend kd
        end in
      Ok (iterate appendItem [] visited)
    else
      let visited :=
        match end_ with
        | Some e => DescendLessOrEqual (search e) kd
        | None => Descend kd
        end in
      Ok (iterate (appendReverseItem start end_) [] visited).

Definition readScanItem (item : diskItem) (d : DiskState) : result Entry :=
  let? l := ensureOpen d in
  let? value := rwrap "storage: reading scanned key %q: %w" (readLogValue l (logPosition item) (world d)) in
  Ok (mkEntry (key item) (Some value)).

(** the loop over the snapshot stops at the first error *)
Fixpoint scan_items (items : list diskItem) (d : DiskState) : Seq2 :=
  match items with
  | [] => []
  | item :: items =>
      match readScanItem item d with
      | Ok entry => Ok entry :: scan_items items d
      | r => [r]
      end
  end.

Definition scan (start end_ : slice) (reverse : bool) (d : DiskState) : Seq2 :=
  match snapshotRange start end_ reverse d with
  | Ok items => scan_items items d
  | Err err => [Err err]
  | Panic p => [Panic p]
  end.

Definition Scan (start end_ : slice) (d : DiskState) : Seq2 := scan start end_ false d.
Definition ScanReverse (start end_ : slice) (d : DiskState) : Seq2 := scan start end_ true d.
Definition ScanPrefix (prefix : bytes) (d : DiskState) : Seq2 := Scan (Some prefix) (prefixEnd prefix) d.
Definition ScanPrefixReverse (prefix : bytes) (d : DiskState) : Seq2 := ScanReverse (Some prefix) (prefixEnd prefix) d.

End methods.
End Disk.

#[export] Instance disk_engine `{Flock} `{BTree diskItem} : Engine DiskState := {
  engSet := Disk.Set_;
  engGet := Disk.Get;
  engDelete := Disk.Delete;
  engScan := Disk.Scan;
  engScanReverse := Disk.ScanReverse;
  engScanPrefix := Disk.ScanPrefix;
  engScanPrefixReverse := Disk.ScanPrefixReverse;
}.

(** ** Opening and closing *)

Section opening.
Context `{Flock} `{BTree diskItem}.

Definition on_locks {A} (m : FlockState → FlockState * (error + A)) : ST World A := λ w,
  let '(l, r) := m (locks w) in (mkWorld (files w) (calls w) (faults w) l, returned r).

(** the loop of [rebuildKeydir] over the records of the log *)
Fixpoint rebuild_loop (fuel : nat) (l : diskLog) (w : World) (fileSize offset : Z) : ST (BTreeG diskItem) unit :=
  if negb (offset <? fileSize) then sret ()
  else
    match fuel with
    | O => slift (Panic Diverges)
    | S fuel =>
        let! (key, valueSize) := slift (rwrap "storage: reading log record at offset %d: %w" (readEntry l offset w)) in
        let! storedValueSize :=
          if valueSize =? diskLogTombstoneSize then sret 0
          else if valueSize >=? 0 then sret valueSize
          else sthrow (Errorf "storage: invalid value size %d at offset %d") in
        let entrySize := diskLogHeaderSize + Z.of_nat (length key) + storedValueSize in
        if (entrySize >? maxDiskLogEntrySize) || (entrySize >? fileSize - offset)
        then sthrow (Errorf "storage: invalid log entry size %d at offset %d")
        else
          (λ kd,
             (if valueSize =? diskLogTombstoneSize then btDelete (search key) kd
              else ReplaceOrInsert (mkItem key (mkPosition offset (uint32 entrySize))) kd, Ok ())) ;;!
          rebuild_loop fuel l w fileSize (offset + entrySize)
    end.

(** every record has a header, so a loop over [n] bytes takes at most [n] steps *)
Definition rebuildKeydir : ST DiskState unit :=
  let! l := sread ensureOpen in
  let! fileSize := swrap "storage: reading disk log metadata: %w" (sread (λ d, os_Size (file l) (world d))) in
  let! kd := sread the_keydir in
  λ d,
    let '(kd, r) := rebuild_loop (Z.to_nat fileSize) l (world d) fileSize 0 kd in
    (mkDisk (set_keydir kd (engine d)) (world d), r).

Definition close_log (l : diskLog) : ST World unit := os_Close (file l).

Definition NewDiskEngine (name : bytes) : ST World DiskEngine :=
  let lock := name ++ str ".lock" in
  let! locked := swrap "storage: locking %q: %w" (on_locks (TryLockContext lock)) in
  if negb (locked : bool) then sthrow (Errorf "storage: %q is locked by another process")
  else
    let! opened := sattempt (newDisLog name) in
    match opened with
    | Err err => sattempt (on_locks (Unlock lock)) ;;! sthrow err
    | Panic p => slift (Panic p)
    | Ok l => λ w,
        match rebuildKeydir (mkDisk (mkDiskEngine (Some (NewG lessDiskItem)) (Some l) (Some lock)) w) with
        | (d, Ok _) => (world d, Ok (engine d))
        | (d, Err err) =>
            (sattempt (close_log l) ;;!
             sattempt (on_locks (Unlock lock)) ;;!
             sthrow (Wrapf "storage: rebuilding keydir from %q: %w" err)) (world d)
        | (d, Panic p) => (world d, Panic p)
        end
    end.

(** a closed file stays in [log] until the caller replaces it *)
Definition close_engine_log : ST DiskState unit :=
  let! l := sread ensureOpen in
  modify (set_log (mkDiskLog (mkFile (fname (file l)) true))) ;;!
  on_world (close_log l).

Definition Close : ST DiskState unit := λ d,
  match log (engine d) with
  | None => (d, Ok ())
  | Some l =>
      (let! err := sattempt (on_world (close_log l)) in
       let! lock := sread (λ d, rderef (fileLock (engine d))) in
       modify (λ e, mkDiskEngine None None (fileLock e)) ;;!
       let! unlockErr := sattempt (on_world (on_locks (Unlock lock))) in
       modify (λ e, mkDiskEngine (keydir e) (log e) None) ;;!
       slift (errors_Join err unlockErr)) d
  end.

(** ** Compaction *)

(** copy the live records, in the order of their keys *)
Definition rewrite_item (l tempLog : diskLog) (newKeydir : BTreeG diskItem) (item : diskItem)
    : ST DiskState (BTreeG diskItem) :=
  let! value := swrap "storage: reading key %q: %w" (sread (λ d, readLogValue l (logPosition item) (world d))) in
  let! position := swrap "storage: rewriting key %q: %w" (on_world (writeEntry tempLog (key item) value false)) in
  sret (ReplaceOrInsert (mkItem (key item) position) newKeydir).

(** open the log again, for the engine to go on with *)
Definition reopen (originalPath : bytes) : ST DiskState unit :=
  let! reopened := on_world (newDisLog originalPath) in
  modify (set_log reopened).

Definition restoreOriginal (originalPath backupPath : bytes) : ST DiskState unit :=
  let! removeErr := sattempt (on_world (os_Remove originalPath)) in
  let removeErr :=
    match removeErr with
    | Err err => if errors_is ErrNotExist err then Ok () else Err err
    | r => r
    end in
  let! renameErr := sattempt (on_world (os_Rename backupPath originalPath)) in
  match renameErr with
  | Ok _ =>
      let! reopenErr := sattempt (reopen originalPath) in
      slift (errors_Join removeErr reopenErr)
  | _ => slift (errors_Join removeErr renameErr)
  end.

(** the replacement of the log by the file [tempPath], already written *)
Definition install (originalPath tempPath : bytes) (newKeydir : BTreeG diskItem) : ST DiskState unit :=
  let backupPath := tempPath ++ str ".old" in
  swrap "storage: closing original log before compaction: %w" close_engine_log ;;!
  let! renamed := sattempt (on_world (os_Rename originalPath backupPath)) in
  match renamed with
  | Ok _ =>
      let! installed := sattempt (on_world (os_Rename tempPath originalPath)) in
      match installed with
      | Ok _ =>
          let! replacement := sattempt (on_world (newDisLog originalPath)) in
          match replacement with
          | Ok replacement =>
              modify (λ e, set_keydir newKeydir (set_log replacement e)) ;;!
              swrap "storage: removing compact backup: %w" (on_world (os_Remove backupPath))
          | Err err =>
              let! restored := sattempt (restoreOriginal originalPath backupPath) in
              slift (errors_Join (Err (Wrapf "storage: reopening compact log: %w" err)) restored)
          | Panic p => slift (Panic p)
          end
      | Err err =>
          let! restored := sattempt (restoreOriginal originalPath backupPath) in
          slift (errors_Join (Err (Wrapf "storage: installing compact log: %w" err)) restored)
      | Panic p => slift (Panic p)
      end
  | Err err =>
      let! reopenErr := sattempt (reopen originalPath) in
      slift (errors_Join (Err (Wrapf "storage: backing up original log: %w" err)) reopenErr)
  | Panic p => slift (Panic p)
  end.

(** the deferred [Close] of the temporary file changes no file *)
Definition compact `{TempNames} : ST DiskState unit :=
  let! l := sread ensureOpen in
  let originalPath := fname (file l) in
  let! tempFile := swrap "storage: creating compact log: %w" (on_world (os_CreateTemp originalPath)) in
  let tempPath := fname tempFile in
  sdefer (on_world (os_Remove tempPath))
    (let tempLog := mkDiskLog tempFile in
     let! kd := sread the_keydir in
     let! newKeydir := sfoldl (rewrite_item l tempLog) (NewG lessDiskItem) (Ascend kd) in
     swrap "storage: syncing compact log: %w" (on_world (os_Sync tempFile)) ;;!
     swrap "storage: closing compact log: %w" (on_world (os_Close tempFile)) ;;!
     install originalPath tempPath newKeydir).

Definition NewDiskEngineCompact `{TempNames} (name : bytes) : ST World DiskEngine := λ w,
  match NewDiskEngine name w with
  | (w, Ok e) =>
      match compact (mkDisk e w) with
      | (d, Ok _) => (world d, Ok (engine d))
      | (d, Err err) =>
          match sattempt Close d with
          | (d, Ok closed) => (world d, let? _ := errors_Join (Err err) closed in Ok (engine d))
          | (d, Err e) => (world d, Err e)
          | (d, Panic p) => (world d, Panic p)
          end
      | (d, Panic p) => (world d, Panic p)
      end
  | r => r
  end.

End opening.
