(* ===== verification/DiskLog.v ===== *)
(** * The records of the log

    The bytes of a record, and that writing appends them and reading gives them
    back, wherever the record is in the file. *)

From S2P Require Import Prelude Bytes Types Engine Btree Os Disk.

(** the size in a record's header: -1 for a deleted key *)
Definition value_size (v : slice) : Z := match v with Some v => Z.of_nat (length v) | None => -1 end.

Definition encodeEntry (k : bytes) (v : slice) : bytes :=
  be_put 4 (Z.of_nat (length k)) ++ be_put 4 (value_size v) ++ k ++ sbytes v.

(** the records the log accepts *)
Definition entry_fits (k : bytes) (v : slice) : Prop :=
  Z.of_nat (length (sbytes v)) ≤ 2 ^ 31 - 1 ∧ 8 + Z.of_nat (length k) + Z.of_nat (length (sbytes v)) ≤ 2 ^ 32 - 1.
#[export] Instance entry_fits_dec k v : Decision (entry_fits k v).
Proof. unfold entry_fits. apply _. Defined.

Lemma length_encodeEntry k v : length (encodeEntry k v) = (8 + length k + length (sbytes v))%nat.
Proof. unfold encodeEntry. rewrite !length_app, !length_be_put. lia. Qed.

Lemma be_put_mod4 z : be_put 4 (z mod 2 ^ 32) = be_put 4 z.
Proof. apply (be_put_mod 4 4). lia. Qed.

Lemma be_get_put4 z : be_get (be_put 4 z) = z mod 2 ^ 32.
Proof. apply (be_get_put 4). Qed.

Lemma int32_small z : - 2 ^ 31 ≤ z < 2 ^ 31 → int32 z = z.
Proof. intros Hz. unfold int32. rewrite Z.mod_small; lia. Qed.

Lemma int32_mod z : int32 (z mod 2 ^ 32) = int32 z.
Proof. unfold int32. by rewrite Zplus_mod_idemp_l. Qed.

Lemma value_size_range v : Z.of_nat (length (sbytes v)) ≤ 2 ^ 31 - 1 → - 2 ^ 31 ≤ value_size v < 2 ^ 31.
Proof. destruct v; cbn; lia. Qed.

Section log.
Context `{Flock}.
Implicit Types (w : World) (l : diskLog).

(** a world after a write *)
Definition appended (name data : bytes) w : World :=
  mkWorld (append_file name data (files w)) (S (calls w)) (faults w) (locks w).

Lemma file_contents_app f w data contents :
  file_contents f w = Ok contents → file_contents f (appended (fname f) data w) = Ok (contents ++ data).
Proof.
  unfold file_contents, appended, append_file. cbn. destruct (closed f); [done|].
  rewrite lookup_alter_eq. destruct (files w !! fname f); [|done]. by intros [= ->].
Qed.

Lemma ReadAt_eq f w contents n off :
  file_contents f w = Ok contents →
  os_ReadAt f n off w =
    let data := take (Z.to_nat n) (drop (Z.to_nat off) contents) in
    if decide (length data < Z.to_nat n)%nat then Err ErrEOF else Ok data.
Proof. intros Hf. unfold os_ReadAt. by rewrite Hf. Qed.

Lemma ReadAt_app f w pre data post n off :
  file_contents f w = Ok (pre ++ data ++ post) → n = Z.of_nat (length data) → off = Z.of_nat (length pre) →
  os_ReadAt f n off w = Ok data.
Proof.
  intros Hf -> ->. unfold os_ReadAt. rewrite Hf. cbn [rbind]. rewrite !Nat2Z.id, drop_app_length, take_app_length.
  rewrite decide_False by lia. done.
Qed.

(** [writeEntry] appends the record, or fails: when it does not fit, before it
    writes anything, else possibly after writing a part of it *)
Definition write_outcome l (k : bytes) (v : slice) (contents : bytes) w (out : World * result diskLogPosition) : Prop :=
  if decide (entry_fits k v) then
    match faults w (calls w) with
    | None => out = (appended (fname (file l)) (encodeEntry k v) w,
        Ok (mkPosition (Z.of_nat (length contents)) (Z.of_nat (length (encodeEntry k v)))))
    | Some n => ∃ err, out = (appended (fname (file l)) (take (proper n (encodeEntry k v)) (encodeEntry k v)) w, Err err)
    end
  else ∃ err, out = (w, Err err).

Lemma writeEntry_spec l k v w contents :
  file_contents (file l) w = Ok contents →
  write_outcome l k v contents w (writeEntry l k (sbytes v) (bool_decide (v = None)) w).
Proof.
  intros Hf. unfold write_outcome, writeEntry.
  unfold entry_fits, maxDiskLogValueSize, maxDiskLogEntrySize, diskLogHeaderSize.
  destruct (Z.gtb_spec (Z.of_nat (length (sbytes v))) (2 ^ 31 - 1)) as [Hv|Hv].
  { rewrite decide_False by lia. by eexists. }
  assert ((if bool_decide (v = None) then 0 else Z.of_nat (length (sbytes v))) = Z.of_nat (length (sbytes v))) as ->
    by by destruct v.
  assert ((if bool_decide (v = None) then [] else sbytes v) = sbytes v) as -> by by destruct v.
  assert ((if bool_decide (v = None) then diskLogTombstoneSize else int32 (Z.of_nat (length (sbytes v)))) =
    value_size v) as ->.
  { destruct v; cbn in *; [|done]. rewrite int32_small; lia. }
  destruct (Z.gtb_spec (8 + Z.of_nat (length k) + Z.of_nat (length (sbytes v))) (2 ^ 32 - 1)) as [He|He].
  { rewrite decide_False by lia. by eexists. }
  rewrite decide_True by lia. unfold os_Size.
  assert (closed (file l) = false) as Hc by (unfold file_contents in Hf; by destruct (closed (file l))).
  assert ((be_put 4 (uint32 (Z.of_nat (length k))) ++ be_put 4 (uint32 (value_size v))) ++ k ++ sbytes v =
    encodeEntry k v) as ->.
  { unfold encodeEntry, uint32. by rewrite !be_put_mod4, <-app_assoc. }
  unfold os_Write. rewrite Hc. unfold syscall, sbind, swrap, sread. rewrite Hf. cbn [rbind rwrap].
  destruct (faults w (calls w)) as [n|]; cbn [rwrap].
  - by eexists.
  - unfold sret, appended. rewrite length_encodeEntry. unfold uint32.
    rewrite Z.mod_small by lia. do 3 f_equal. lia.
Qed.

(** [readEntry] gives back the key and the value's size *)
Lemma readEntry_spec l w pre k v post off :
  file_contents (file l) w = Ok (pre ++ encodeEntry k v ++ post) → entry_fits k v → off = Z.of_nat (length pre) →
  readEntry l off w = Ok (k, value_size v).
Proof.
  intros Hf [Hv Hk] ->. unfold readEntry, diskLogHeaderSize.
  assert (file_contents (file l) w = Ok (pre ++ (be_put 4 (Z.of_nat (length k)) ++ be_put 4 (value_size v)) ++
    (k ++ sbytes v ++ post))) as Hf1 by (rewrite Hf; unfold encodeEntry; by rewrite <-!app_assoc).
  rewrite (ReadAt_app _ _ _ _ _ _ _ Hf1) by (rewrite ?length_app, ?length_be_put; done). cbn [rwrap rbind].
  assert (length (be_put 4 (Z.of_nat (length k))) = 4%nat) as H4 by apply length_be_put.
  rewrite take_app_length' by done. rewrite drop_app_length' by done. rewrite !be_get_put4, int32_mod.
  rewrite Z.mod_small by lia. rewrite int32_small by by apply value_size_range.
  assert (file_contents (file l) w = Ok ((pre ++ be_put 4 (Z.of_nat (length k)) ++ be_put 4 (value_size v)) ++
    k ++ (sbytes v ++ post))) as Hf2 by (rewrite Hf1; by rewrite <-!app_assoc).
  rewrite (ReadAt_app _ _ _ _ _ _ _ Hf2); [done|done|]. rewrite !length_app, !length_be_put. lia.
Qed.

(** a record of a key with a value *)
Definition stored (contents : bytes) (pos : diskLogPosition) (k v : bytes) : Prop :=
  entry_fits k (Some v) ∧ EntrySize pos = Z.of_nat (length (encodeEntry k (Some v))) ∧
  ∃ pre post, contents = pre ++ encodeEntry k (Some v) ++ post ∧ EntryOffset pos = Z.of_nat (length pre).

Lemma stored_app contents data pos k v : stored contents pos k v → stored (contents ++ data) pos k v.
Proof.
  intros (Hf & Hs & pre & post & -> & Ho). split; [done|]. split; [done|]. exists pre, (post ++ data).
  by rewrite <-!app_assoc.
Qed.

Lemma stored_new contents k v :
  entry_fits k (Some v) →
  stored (contents ++ encodeEntry k (Some v))
    (mkPosition (Z.of_nat (length contents)) (Z.of_nat (length (encodeEntry k (Some v))))) k v.
Proof. intros Hf. split; [done|]. split; [done|]. exists contents, []. by rewrite app_nil_r. Qed.

Lemma readLogValue_spec l w contents pos k v :
  file_contents (file l) w = Ok contents → stored contents pos k v → readLogValue l pos w = Ok v.
Proof.
  intros Hf (Hfit & Hs & pre & post & -> & Ho). unfold readLogValue.
  rewrite (readEntry_spec l w pre k (Some v) post) by done. cbn [rbind value_size].
  destruct Hfit as [Hv Hk]. change (sbytes (Some v)) with v in *.
  destruct (Z.ltb_spec (Z.of_nat (length v)) 0); [lia|]. unfold diskLogHeaderSize.
  rewrite Hs, length_encodeEntry. change (sbytes (Some v)) with v.
  destruct (Z.eqb_spec (8 + Z.of_nat (length k) + Z.of_nat (length v)) (Z.of_nat (8 + length k + length v))); [|lia].
  cbn [negb]. unfold readValue.
  assert (file_contents (file l) w = Ok ((pre ++ be_put 4 (Z.of_nat (length k)) ++
    be_put 4 (value_size (Some v)) ++ k) ++ v ++ post)) as Hf2.
  { rewrite Hf. unfold encodeEntry. change (sbytes (Some v)) with v. by rewrite <-!app_assoc. }
  rewrite (ReadAt_app _ _ _ _ _ _ _ Hf2); [done|unfold uint32; rewrite Z.mod_small; lia|].
  rewrite !length_app, !length_be_put. lia.
Qed.

(** the records of a log do not mix with what follows them *)
Lemma readEntry_torn l w pre k v n off :
  entry_fits k v → (n < length (encodeEntry k v))%nat →
  file_contents (file l) w = Ok (pre ++ take n (encodeEntry k v)) → off = Z.of_nat (length pre) →
  (∃ err, readEntry l off w = Err err) ∨ readEntry l off w = Ok (k, value_size v).
Proof.
  intros [Hv Hk] Hn Hf ->. unfold readEntry, diskLogHeaderSize.
  rewrite (ReadAt_eq _ _ _ 8 _ Hf), Nat2Z.id, drop_app_length. cbv zeta.
  case_decide as H8; [left; by eexists|]. cbn [rwrap rbind].
  rewrite !length_take, length_encodeEntry in H8. rewrite length_encodeEntry in Hn.
  assert (take (Z.to_nat 8) (take n (encodeEntry k v)) = be_put 4 (Z.of_nat (length k)) ++ be_put 4 (value_size v)) as ->.
  { rewrite take_take, Nat.min_l by lia. unfold encodeEntry. rewrite app_assoc. apply take_app_length'.
    by rewrite length_app, !length_be_put. }
  assert (length (be_put 4 (Z.of_nat (length k))) = 4%nat) as H4 by apply length_be_put.
  rewrite take_app_length' by done. rewrite drop_app_length' by done. rewrite !be_get_put4, int32_mod.
  rewrite Z.mod_small by lia. rewrite int32_small by by apply value_size_range.
  rewrite (ReadAt_eq _ _ _ _ _ Hf). cbv zeta. case_decide as Hl; [left; by eexists|]. right. cbn [rwrap rbind].
  do 2 f_equal. rewrite Nat2Z.id in *.
  replace (Z.to_nat (Z.of_nat (length pre) + 8)) with (length pre + 8)%nat in * by lia.
  rewrite drop_app_add in *. rewrite length_take, length_drop, length_take, length_encodeEntry in Hl.
  rewrite skipn_firstn_comm, take_take, Nat.min_l by lia. unfold encodeEntry.
  rewrite app_assoc, drop_app_length' by (by rewrite length_app, !length_be_put). by apply take_app_length.
Qed.

End log.
