(* ===== verification/DiskRefine.v ===== *)
(** * The disk engine is a map from keys to values

    [indexes kd contents m]: the index points, for exactly the keys of [m], at
    their values in the file.  Files only grow, so an index stays right
    whatever is appended, even a record that was written in part. *)

From S2P Require Import Prelude Bytes Types Engine Btree Os Disk DiskLog.

(** ** The order of the items *)

Lemma lessDiskItem_blt a b : lessDiskItem a b = true ↔ blt (key a) (key b).
Proof. unfold lessDiskItem, blt. by destruct (bytes_compare _ _). Qed.

Lemma less_bool a b : lessDiskItem a b = bool_decide (blt (key a) (key b)).
Proof. apply eq_true_iff_eq. by rewrite lessDiskItem_blt, bool_decide_eq_true. Qed.

Lemma same_key a b : same lessDiskItem a b = bool_decide (key a = key b).
Proof.
  apply eq_true_iff_eq. unfold same, lessDiskItem.
  rewrite bool_decide_eq_true, <-bytes_compare_eq, (bytes_compare_antisym (key a) (key b)).
  by destruct (bytes_compare (key a) (key b)).
Qed.

(** ** Sorted lists, backwards *)

Lemma filter_rev {A} (P : A → Prop) `{∀ a, Decision (P a)} (l : list A) : filter P (rev l) = rev (filter P l).
Proof.
  induction l as [|a l IH]; [done|]. cbn [rev]. rewrite filter_app, IH, !filter_cons, filter_nil.
  case_decide; cbn; [done|by rewrite app_nil_r].
Qed.

Lemma StronglySorted_impl {A} (R S : A → A → Prop) (l : list A) :
  (∀ a b, R a b → S a b) → StronglySorted R l → StronglySorted S l.
Proof. intros HRS. induction 1; constructor; [done|]. by eapply Forall_impl; [|by apply HRS]. Qed.

Lemma StronglySorted_rev {A} (R : A → A → Prop) (l : list A) :
  StronglySorted R l → StronglySorted (flip R) (rev l).
Proof.
  induction 1 as [|a l _ IH Ha]; [constructor|]. cbn. apply StronglySorted_app_2; [|done|repeat constructor].
  intros x y Hx ->%list_elem_of_singleton. apply (proj1 (Forall_forall _ _) Ha).
  by rewrite <-Permutation_rev in Hx.
Qed.

(** the list-based tree orders these items *)
Lemma list_disk_btree_laws : @BTreeLaws _ lessDiskItem (list_btree diskItem).
Proof.
  apply list_btree_laws.
  - intros a b c. rewrite !lessDiskItem_blt. apply blt_trans.
  - intros a b c. rewrite same_key, !lessDiskItem_blt, bool_decide_eq_true. by intros ->.
Qed.

Section refine.
Context `{Flock} `{BTree diskItem} `{!BTreeLaws lessDiskItem}.
Implicit Types (d : DiskState) (m : gmap bytes bytes) (contents : bytes) (kd : BTreeG diskItem).

(** ** The index *)

Record indexes kd contents m : Prop := {
  idx_wf : btree_wf (less := lessDiskItem) kd;
  idx_item item : item ∈ Ascend kd → ∃ v, m !! key item = Some v ∧ stored contents (logPosition item) (key item) v;
  idx_key k v : m !! k = Some v → ∃ item, item ∈ Ascend kd ∧ key item = k;
}.

Lemma indexes_empty contents : indexes (NewG lessDiskItem) contents ∅.
Proof.
  split; [apply NewG_wf| |done]. intros item. rewrite Ascend_NewG. by intros ?%elem_of_nil.
Qed.

Lemma indexes_app kd contents data m : indexes kd contents m → indexes kd (contents ++ data) m.
Proof.
  intros Hi. split; [apply Hi| |apply Hi]. intros item Hin.
  destruct (idx_item _ _ _ Hi item Hin) as (v & Hv & Hs). exists v. split; [done|]. by apply stored_app.
Qed.

Lemma indexes_insert kd contents m k v pos :
  indexes kd contents m → stored contents pos k v →
  indexes (ReplaceOrInsert (mkItem k pos) kd) contents (<[k := v]> m).
Proof.
  intros [Hwf Hitem Hkey] Hs. split; [by apply (ReplaceOrInsert_wf (less := lessDiskItem))|..].
  - intros item [->|[Hin Hne]]%(elem_of_ReplaceOrInsert (less := lessDiskItem)); [|..|done].
    + exists v. cbn. by rewrite lookup_insert_eq.
    + rewrite same_key in Hne. apply bool_decide_eq_false in Hne. cbn in Hne.
      rewrite lookup_insert_ne by done. by apply Hitem.
  - intros k' v' Hk'. setoid_rewrite (elem_of_ReplaceOrInsert (less := lessDiskItem)); [|done].
    apply lookup_insert_Some in Hk' as [[<- _]|[Hne Hk']]; [exists (mkItem k pos); auto|].
    destruct (Hkey _ _ Hk') as (item & Hin & <-). exists item. split; [right|done]. split; [done|].
    rewrite same_key. by apply bool_decide_eq_false.
Qed.

Lemma indexes_delete kd contents m k :
  indexes kd contents m → indexes (btDelete (search k) kd) contents (delete k m).
Proof.
  intros [Hwf Hitem Hkey]. split; [by apply (btDelete_wf (less := lessDiskItem))|..].
  - intros item [Hin Hne]%(elem_of_btDelete (less := lessDiskItem)); [|done].
    rewrite same_key in Hne. apply bool_decide_eq_false in Hne. cbn in Hne.
    rewrite lookup_delete_ne by done. by apply Hitem.
  - intros k' v' [Hne Hk']%lookup_delete_Some. destruct (Hkey _ _ Hk') as (item & Hin & <-).
    exists item. split; [|done]. apply (elem_of_btDelete (less := lessDiskItem)); [done|]. split; [done|].
    rewrite same_key. by apply bool_decide_eq_false.
Qed.

Lemma indexes_get kd contents m k :
  indexes kd contents m →
  match btGet (search k) kd with
  | Some item => ∃ v, m !! k = Some v ∧ stored contents (logPosition item) k v
  | None => m !! k = None
  end.
Proof.
  intros [Hwf Hitem Hkey]. destruct (btGet (search k) kd) as [item|] eqn:Hg.
  - apply (btGet_spec (less := lessDiskItem)) in Hg as [Hin Hs]; [|done].
    rewrite same_key in Hs. apply bool_decide_eq_true in Hs. cbn in Hs. subst k. by apply Hitem.
  - destruct (m !! k) as [v|] eqn:Hv; [|done]. destruct (Hkey _ _ Hv) as (item & Hin & <-).
    assert (btGet (search (key item)) kd = Some item) as Hg'; [|congruence].
    apply (btGet_spec (less := lessDiskItem)); [done|]. split; [done|]. rewrite same_key. by apply bool_decide_eq_true.
Qed.

(** the items in order are the records of the map in order *)
Definition item_record m (item : diskItem) : bytes * bytes := (key item, default [] (m !! key item)).

Lemma indexes_records kd contents m :
  indexes kd contents m → map (item_record m) (Ascend kd) = sorted_entries m.
Proof.
  intros [Hwf Hitem Hkey]. apply (sorted_ext key_lt); [|apply sorted_entries_sorted|].
  - apply (StronglySorted_fmap (item_record m) (λ a b, lessDiskItem a b = true)).
    + intros a b Hab%lessDiskItem_blt. done.
    + by apply Ascend_sorted.
  - intros [k v]. rewrite elem_of_sorted_entries. change (map ?f ?l) with (f <$> l). rewrite list_elem_of_fmap. split.
    + intros (item & [= -> ->] & Hin). destruct (Hitem _ Hin) as (v & -> & _). done.
    + intros Hk. destruct (Hkey _ _ Hk) as (item & Hin & <-). exists item. unfold item_record. by rewrite Hk.
Qed.

(** ** Open engines *)

Definition disk_rep d (l : diskLog) kd contents m : Prop :=
  log (engine d) = Some l ∧ keydir (engine d) = Some kd ∧
  file_contents (file l) (world d) = Ok contents ∧ indexes kd contents m.

(** the engine is open and holds [m] *)
Definition disk_holds d m : Prop := ∃ l kd contents, disk_rep d l kd contents m.

(** what the engine answers, key by key *)
Definition disk_contents d : gmap bytes bytes :=
  match log (engine d), keydir (engine d) with
  | Some l, Some kd =>
      list_to_map (omap (λ item,
        match readLogValue l (logPosition item) (world d) with
        | Ok v => Some (key item, v)
        | _ => None
        end) (Ascend kd))
  | _, _ => ∅
  end.

Lemma read_item d l kd contents m item :
  disk_rep d l kd contents m → item ∈ Ascend kd →
  ∃ v, m !! key item = Some v ∧ readLogValue l (logPosition item) (world d) = Ok v.
Proof.
  intros (_ & _ & Hf & Hi) Hin. destruct (idx_item _ _ _ Hi _ Hin) as (v & Hv & Hs). exists v.
  split; [done|]. by eapply readLogValue_spec.
Qed.

Lemma disk_contents_holds d m : disk_holds d m → disk_contents d = m.
Proof.
  intros (l & kd & contents & Hrep). pose proof Hrep as (Hl & Hk & _ & Hi). unfold disk_contents. rewrite Hl, Hk.
  assert (∀ its, (∀ it, it ∈ its → it ∈ Ascend kd) →
    omap (λ item, match readLogValue l (logPosition item) (world d) with Ok v => Some (key item, v) | _ => None end) its
    = map (item_record m) its) as Hmap.
  { induction its as [|it its IH]; intros Hin; [done|]. cbn.
    destruct (read_item _ _ _ _ _ it Hrep ltac:(apply Hin; set_solver)) as (v & Hv & ->).
    unfold item_record at 1. rewrite Hv. cbn. f_equal. apply IH. set_solver. }
  rewrite Hmap by done. rewrite (indexes_records _ _ _ Hi). unfold sorted_entries.
  rewrite (list_to_map_proper _ (map_to_list m)); [apply list_to_map_to_list| |by rewrite merge_sort_Permutation].
  rewrite merge_sort_Permutation. apply NoDup_fst_map_to_list.
Qed.

(** an operation on the files of an engine *)
Lemma on_world_write d l k v contents :
  file_contents (file l) (world d) = Ok contents →
  ∃ out, on_world (writeEntry l k (sbytes v) (bool_decide (v = None))) d = (mkDisk (engine d) out.1, out.2) ∧
    write_outcome l k v contents (world d) out.
Proof.
  intros Hf. pose proof (writeEntry_spec l k v (world d) contents Hf) as Hw. unfold on_world.
  destruct (writeEntry _ _ _ _ _) as [w r]. by exists (w, r).
Qed.

(** what holds after a write that failed *)
Lemma failed_write d l kd contents m k v (w : World) err :
  disk_rep d l kd contents m → write_outcome l k v contents (world d) (w, Err err) →
  disk_holds (mkDisk (engine d) w) m.
Proof.
  intros (Hl & Hk & Hf & Hi) Hw. exists l, kd. unfold write_outcome in Hw. case_decide.
  - destruct (faults _ _) as [n|]; [|done]. destruct Hw as (e & [= -> ->]).
    exists (contents ++ take (proper n (encodeEntry k v)) (encodeEntry k v)). split; [done|]. split; [done|].
    split; [by apply file_contents_app|by apply indexes_app].
  - destruct Hw as (e & [= -> ->]). exists contents. by split.
Qed.

Lemma written d l kd contents m k v (w : World) pos :
  disk_rep d l kd contents m → write_outcome l k v contents (world d) (w, Ok pos) →
  entry_fits k v ∧ faults (world d) (calls (world d)) = None ∧
  w = appended (fname (file l)) (encodeEntry k v) (world d) ∧
  pos = mkPosition (Z.of_nat (length contents)) (Z.of_nat (length (encodeEntry k v))) ∧
  file_contents (file l) w = Ok (contents ++ encodeEntry k v) ∧ indexes kd (contents ++ encodeEntry k v) m.
Proof.
  intros (Hl & Hk & Hf & Hi) Hw. unfold write_outcome in Hw. case_decide as Hfit; [|by destruct Hw].
  destruct (faults _ _) as [n|]; [by destruct Hw|]. injection Hw as -> ->. split; [done|]. split; [done|].
  split; [done|]. split; [done|]. split; [by apply file_contents_app|by apply indexes_app].
Qed.

Lemma write_outcome_no_panic l k v contents (w w' : World) p : ¬ write_outcome l k v contents w (w', Panic p).
Proof.
  unfold write_outcome. case_decide; [|by intros [? ?]]. destruct (faults _ _); [by intros [? ?]|done].
Qed.

(** the writing methods: the effect on the map, or an error and none *)
Lemma Set_outcome d m k v :
  disk_holds d m →
  match Disk.Set_ k v d with
  | (d', Ok _) => disk_holds d' (<[k := sbytes v]> m)
  | (d', Err _) => disk_holds d' m
  | (_, Panic _) => False
  end.
Proof.
  intros (l & kd & contents & Hrep). pose proof Hrep as (Hl & Hk & Hf & Hi).
  unfold Disk.Set_, sbind, swrap, sread, ensureOpen. rewrite Hl.
  destruct (on_world_write d l k (Some (sbytes v)) contents Hf) as ([w r] & Hw & Hout).
  rewrite bool_decide_eq_false_2 in Hw by done. change (sbytes (Some (sbytes v))) with (sbytes v) in Hw. rewrite Hw.
  destruct r as [pos|err|p]; cbn [fst snd rwrap]; [|by eapply failed_write|by eapply write_outcome_no_panic].
  destruct (written _ _ _ _ _ _ _ _ _ Hrep Hout) as (Hfit & _ & -> & -> & Hf' & Hi').
  unfold the_keydir. cbn [engine]. rewrite Hk. cbn. eexists l, _, _. split; [done|]. split; [done|].
  split; [exact Hf'|]. apply indexes_insert; [done|]. by apply stored_new.
Qed.

Lemma Delete_outcome d m k :
  disk_holds d m →
  match Disk.Delete k d with
  | (d', Ok _) => disk_holds d' (delete k m)
  | (d', Err _) => disk_holds d' m
  | (_, Panic _) => False
  end.
Proof.
  intros (l & kd & contents & Hrep). pose proof Hrep as (Hl & Hk & Hf & Hi).
  unfold Disk.Delete, sbind, swrap, sread, ensureOpen. rewrite Hl.
  destruct (on_world_write d l k None contents Hf) as ([w r] & Hw & Hout).
  rewrite bool_decide_eq_true_2 in Hw by done. change (sbytes None) with (@nil byte) in Hw. rewrite Hw.
  destruct r as [pos|err|p]; cbn [fst snd rwrap]; [|by eapply failed_write|by eapply write_outcome_no_panic].
  destruct (written _ _ _ _ _ _ _ _ _ Hrep Hout) as (Hfit & _ & -> & -> & Hf' & Hi').
  unfold the_keydir. cbn [engine]. rewrite Hk. cbn. eexists l, _, _. split; [done|]. split; [done|].
  split; [exact Hf'|]. by apply indexes_delete.
Qed.

(** they succeed when the record fits and the write does not fail *)
Definition write_runs (out : DiskState * result unit) d k (v : slice) : Prop :=
  if decide (entry_fits k v) then
    faults (world out.1) = faults (world d) ∧ (faults (world d) (calls (world d)) = None → out.2 = Ok ())
  else out.1 = d ∧ ∃ err, out.2 = Err err.

(** a write fails because its record is too large or because the system fails *)
Lemma write_error d d' k (v : slice) err :
  write_runs (d', Err err) d k v → ¬ entry_fits k v ∨ faults (world d) (calls (world d)) ≠ None.
Proof.
  unfold write_runs. case_decide; [|by left]. intros [_ Hok]. right. intros Hf. by specialize (Hok Hf).
Qed.

Lemma Set_runs d m k v : disk_holds d m → write_runs (Disk.Set_ k v d) d k (Some (sbytes v)).
Proof.
  intros (l & kd & contents & Hl & Hk & Hf & _). unfold write_runs, Disk.Set_, sbind, swrap, sread, ensureOpen. rewrite Hl.
  destruct (on_world_write d l k (Some (sbytes v)) contents Hf) as ([w r] & Hw & Hout).
  rewrite bool_decide_eq_false_2 in Hw by done. change (sbytes (Some (sbytes v))) with (sbytes v) in Hw. rewrite Hw.
  unfold write_outcome in Hout. case_decide; [destruct (faults _ _)|]; destruct_and?.
  - destruct Hout as (err & [= -> ->]). by cbn.
  - injection Hout as -> ->. cbn [fst snd rwrap]. unfold the_keydir. cbn [engine]. rewrite Hk. by cbn.
  - destruct Hout as (err & [= -> ->]). cbn. split; [by destruct d|by eexists].
Qed.

Lemma Delete_runs d m k : disk_holds d m → write_runs (Disk.Delete k d) d k None.
Proof.
  intros (l & kd & contents & Hl & Hk & Hf & _). unfold write_runs, Disk.Delete, sbind, swrap, sread, ensureOpen. rewrite Hl.
  destruct (on_world_write d l k None contents Hf) as ([w r] & Hw & Hout).
  rewrite bool_decide_eq_true_2 in Hw by done. change (sbytes None) with (@nil byte) in Hw. rewrite Hw.
  unfold write_outcome in Hout. case_decide; [destruct (faults _ _)|]; destruct_and?.
  - destruct Hout as (err & [= -> ->]). by cbn.
  - injection Hout as -> ->. cbn [fst snd rwrap]. unfold the_keydir. cbn [engine]. rewrite Hk. by cbn.
  - destruct Hout as (err & [= -> ->]). cbn. split; [by destruct d|by eexists].
Qed.

Lemma Get_holds d m k : disk_holds d m → Disk.Get k d = Ok (m !! k).
Proof.
  intros (l & kd & contents & Hl & Hk & Hf & Hi). unfold Disk.Get, ensureOpen, the_keydir. rewrite Hl, Hk.
  cbn [rbind rderef]. pose proof (indexes_get _ _ _ k Hi) as Hg. destruct (btGet (search k) kd) as [item|]; [|by rewrite Hg].
  destruct Hg as (v & -> & Hs). by rewrite (readLogValue_spec _ _ _ _ _ _ Hf Hs).
Qed.

(** ** Scans *)

Lemma iterate_append items acc : iterate Disk.appendItem acc items = acc ++ items.
Proof.
  revert acc. induction items as [|item items IH]; intros acc; cbn; [by rewrite app_nil_r|].
  by rewrite IH, <-app_assoc.
Qed.

(** a reverse scan skips the keys from [end] on and stops below [start] *)
Lemma iterate_reverse s t items acc :
  StronglySorted (λ a b, blt (key b) (key a)) items →
  iterate (Disk.appendReverseItem s t) acc items = acc ++ filter (λ item, in_range s t (key item) = true) items.
Proof.
  intros Hs. revert acc. induction Hs as [|item items Hs IH Hle]; intros acc; cbn [iterate];
    [by rewrite filter_nil, app_nil_r|].
  unfold Disk.appendReverseItem at 1. rewrite filter_cons.
  set (above := match t with Some e => bool_decide (bytes_compare (key item) e ≠ Lt) | None => false end).
  set (below := match s with Some b => bool_decide (bytes_compare (key item) b = Lt) | None => false end).
  assert (in_range s t (key item) = negb below && negb above) as Hr.
  { unfold in_range, above, below. f_equal; [destruct s|destruct t]; try done; rewrite <-bool_decide_not;
      apply bool_decide_ext; [symmetry; apply not_blt|]. split; [by intros Hlt Hn|apply (dec_stable (P := blt _ _))]. }
  destruct above eqn:Ha; [|destruct below eqn:Hb].
  - rewrite decide_False by (by rewrite Hr, andb_false_r). apply IH.
  - rewrite decide_False by (by rewrite Hr). unfold below in Hb. destruct s as [b|]; [|done].
    apply bool_decide_eq_true in Hb. change (blt (key item) b) in Hb.
    assert (filter (λ it, in_range (Some b) t (key it) = true) items = []) as ->; [|by rewrite app_nil_r].
    apply elem_of_nil_inv. intros it [Hin Hit]%list_elem_of_filter. unfold in_range in Hin.
    apply andb_true_iff in Hin as [Hin%bool_decide_eq_true _].
    pose proof (proj1 (Forall_forall _ _) Hle it Hit) as Hlt. cbn in Hlt.
    apply (blt_irrefl b), (ble_blt_trans _ (key it)); [done|by eapply blt_trans].
  - rewrite decide_True by (by rewrite Hr). unfold Disk.appendItem. by rewrite IH, <-app_assoc.
Qed.

(** the snapshot of a scan: the items in range, in its direction *)
Definition in_scan (s t : slice) kd : list diskItem :=
  filter (λ item, in_range s t (key item) = true) (Ascend kd).

Lemma snapshot_items d s t r kd l :
  log (engine d) = Some l → keydir (engine d) = Some kd → btree_wf (less := lessDiskItem) kd →
  Disk.snapshotRange s t r d = Ok (if r then rev (in_scan s t kd) else in_scan s t kd).
Proof.
  intros Hl Hk Hwf. unfold Disk.snapshotRange, ensureOpen, the_keydir. rewrite Hl, Hk. cbn [rbind rderef].
  destruct (match s, t with Some b, Some e => bool_decide (bytes_compare b e ≠ Lt) | _, _ => false end) eqn:Hempty.
  { destruct s as [b|]; [|done]. destruct t as [e|]; [|done]. apply bool_decide_eq_true in Hempty.
    assert (in_scan (Some b) (Some e) kd = []) as ->; [|by destruct r].
    apply elem_of_nil_inv. intros it [Hin _]%list_elem_of_filter. unfold in_range in Hin.
    apply andb_true_iff in Hin as [H1%bool_decide_eq_true H2%bool_decide_eq_true].
    apply Hempty. by apply (ble_blt_trans _ (key it)). }
  destruct r; cbn [negb].
  - rewrite iterate_reverse.
    2:{ destruct t as [e|]; [rewrite (DescendLessOrEqual_spec (less := lessDiskItem)) by done|
        rewrite (Descend_spec (less := lessDiskItem)) by done]; apply (StronglySorted_rev (λ a b, blt (key a) (key b)));
        [apply StronglySorted_filter|]; (eapply StronglySorted_impl; [|by apply Ascend_sorted]);
        by intros ? ? ?%lessDiskItem_blt. }
    cbn [app]. f_equal. destruct t as [e|].
    + rewrite (DescendLessOrEqual_spec (less := lessDiskItem)), filter_rev by done. f_equal.
      rewrite list_filter_filter. apply list_filter_iff. intros it. rewrite less_bool, negb_true_iff, bool_decide_eq_false. cbn [key search].
      split; [tauto|]. intros Hin. split; [done|]. unfold in_range in Hin.
      apply andb_true_iff in Hin as [_ Hin%bool_decide_eq_true]. intros Hlt.
      by apply (blt_irrefl e), (blt_trans _ (key it)).
    + by rewrite (Descend_spec (less := lessDiskItem)), filter_rev by done.
  - rewrite iterate_append. cbn [app]. f_equal. unfold in_scan, in_range.
    destruct s as [b|], t as [e|].
    + rewrite (AscendRange_spec (less := lessDiskItem)) by done. apply list_filter_iff. intros it.
      rewrite !less_bool, !andb_true_iff, negb_true_iff, bool_decide_eq_false, !bool_decide_eq_true. cbn [key search].
      by rewrite not_blt.
    + rewrite (AscendGreaterOrEqual_spec (less := lessDiskItem)) by done. apply list_filter_iff. intros it.
      rewrite less_bool, andb_true_r, negb_true_iff, bool_decide_eq_false, bool_decide_eq_true. cbn [key search].
      by rewrite not_blt.
    + rewrite (AscendLessThan_spec (less := lessDiskItem)) by done. apply list_filter_iff. intros it.
      rewrite less_bool, bool_decide_eq_true. cbn [key search andb]. by rewrite bool_decide_eq_true.
    + symmetry. cbn. induction (Ascend kd) as [|it its IH]; [done|]. rewrite filter_cons, decide_True by done. by rewrite IH.
Qed.

(** the records read from a snapshot *)
Lemma scan_items_ok d l kd contents m its :
  disk_rep d l kd contents m → (∀ it, it ∈ its → it ∈ Ascend kd) →
  Disk.scan_items its d = map Ok (map (λ it, mkEntry (key it) (m !! key it)) its).
Proof.
  intros Hrep. induction its as [|it its IH]; intros Hin; [done|]. cbn [Disk.scan_items map].
  destruct (read_item _ _ _ _ _ it Hrep ltac:(apply Hin; set_solver)) as (v & Hv & Hr).
  unfold Disk.readScanItem at 1, ensureOpen. destruct Hrep as (-> & _). cbn [rbind]. rewrite Hr. cbn [rwrap rbind].
  rewrite Hv. f_equal. apply IH. set_solver.
Qed.

Lemma scan_records m s t kd contents :
  indexes kd contents m →
  map entry_pair (map (λ it, mkEntry (key it) (m !! key it)) (in_scan s t kd)) = range s t m.
Proof.
  intros Hi. unfold range. rewrite <-(indexes_records _ _ _ Hi). unfold in_scan. rewrite map_map.
  induction (Ascend kd) as [|it its IH]; [done|]. cbn [map]. rewrite !filter_cons.
  change ((item_record m it).1) with (key it). rewrite <-IH.
  by destruct (in_range s t (key it)).
Qed.

Lemma scan_yields d m s t r :
  disk_holds d m → yields (Disk.scan s t r d) (if r then rev (range s t m) else range s t m).
Proof.
  intros (l & kd & contents & Hrep). pose proof Hrep as (Hl & Hk & _ & Hi). unfold Disk.scan.
  rewrite (snapshot_items d s t r kd l) by (done || apply Hi).
  eexists. split; [eapply (scan_items_ok _ _ _ _ m)|].
  - done.
  - intros it Hin. assert (it ∈ in_scan s t kd) as [_ ?]%list_elem_of_filter; [|done].
    destruct r; [|done]. by rewrite <-Permutation_rev in Hin.
  - rewrite <-(scan_records m s t kd contents) by done. destruct r; [|done]. by rewrite !map_rev.
Qed.

(** ** Closing *)

(** a closed engine answers every method with its error, and a second [Close]
    with nil, leaving everything as it is *)
Definition answers_closed (d : DiskState) : Prop :=
  (∀ k, Disk.Get k d = Err ErrDiskEngineClosed) ∧
  (∀ s t, Disk.Scan s t d = [Err ErrDiskEngineClosed] ∧ Disk.ScanReverse s t d = [Err ErrDiskEngineClosed]) ∧
  (∀ p, Disk.ScanPrefix p d = [Err ErrDiskEngineClosed] ∧ Disk.ScanPrefixReverse p d = [Err ErrDiskEngineClosed]) ∧
  (∀ k v, Disk.Set_ k v d = (d, Err ErrDiskEngineClosed)) ∧
  (∀ k, Disk.Delete k d = (d, Err ErrDiskEngineClosed)) ∧
  Close d = (d, Ok ()).

Lemma closed_errors d : log (engine d) = None → answers_closed d.
Proof.
  intros Hl. unfold answers_closed, Disk.Get, Disk.ScanPrefix, Disk.ScanPrefixReverse, Disk.Scan, Disk.ScanReverse,
    Disk.scan, Disk.snapshotRange, Disk.Set_, Disk.Delete, Close, ensureOpen, sbind, sread.
  repeat split; intros; by rewrite Hl.
Qed.

Lemma on_world_engine {A} (m : ST World A) d : engine (on_world m d).1 = engine d.
Proof. unfold on_world. by destruct (m (world d)). Qed.

(** closing an engine that holds its lock leaves it closed, whatever fails *)
Lemma Close_closes d : is_Some (fileLock (engine d)) → log (engine (Close d).1) = None.
Proof.
  intros [lock Hlock]. unfold Close. destruct (log (engine d)) as [l|] eqn:Hl; [|done].
  assert (∀ r1 d1, engine d1 = engine d →
    log (engine ((let! lock := sread (λ d, rderef (fileLock (engine d))) in
       modify (λ e, mkDiskEngine None None (fileLock e)) ;;!
       let! unlockErr := sattempt (on_world (on_locks (Unlock lock))) in
       modify (λ e, mkDiskEngine (keydir e) (log e) None) ;;!
       slift (errors_Join r1 unlockErr)) d1).1) = None) as Hrest.
  { intros r1 d1 He. unfold sbind, sread, modify, sattempt, on_world, on_locks, slift. rewrite He, Hlock. cbn.
    by destruct (Unlock lock _) as [lk [e|[]]]. }
  unfold sbind at 1, sattempt at 1. pose proof (on_world_engine (close_log l) d) as He.
  assert (∀ p, (on_world (close_log l) d).2 ≠ Panic p) as Hp.
  { intros p. unfold on_world, close_log, os_Close, syscall. destruct (closed (file l)); [done|].
    by destruct (faults _ _). }
  destruct (on_world (close_log l) d) as [d1 [u|err|p]]; [by apply Hrest..|]. by destruct (Hp p).
Qed.

(** ** Scans and writes that interleave *)

(** writes between two records of a scan *)
Inductive write := WriteSet (k : bytes) (v : slice) | WriteDelete (k : bytes).

Definition run_write d (o : write) : DiskState :=
  match o with WriteSet k v => (Disk.Set_ k v d).1 | WriteDelete k => (Disk.Delete k d).1 end.
Definition run_writes (ws : list write) d : DiskState := foldl run_write d ws.

Fixpoint interleaved_items (items : list diskItem) (wss : list (list write)) d : Seq2 :=
  match items with
  | [] => []
  | item :: items =>
      match Disk.readScanItem item d with
      | Ok entry => Ok entry :: interleaved_items items (tail wss) (run_writes (hd [] wss) d)
      | r => [r]
      end
  end.

(** a scan; after its [i]-th record the writes [wss !! i] happen *)
Definition interleaved_scan (s t : slice) (r : bool) (wss : list (list write)) d : Seq2 :=
  match Disk.snapshotRange s t r d with
  | Ok items => interleaved_items items wss d
  | Err err => [Err err]
  | Panic p => [Panic p]
  end.

(** the log of an engine that wrote more *)
Definition extends l contents d : Prop :=
  log (engine d) = Some l ∧ ∃ data, file_contents (file l) (world d) = Ok (contents ++ data).

Lemma write_outcome_extends l k v contents (w : World) out :
  file_contents (file l) w = Ok contents → write_outcome l k v contents w out →
  ∃ data, file_contents (file l) out.1 = Ok (contents ++ data).
Proof.
  intros Hf Hout. unfold write_outcome in Hout. case_decide; [destruct (faults _ _) as [n|]|].
  - destruct Hout as (err & ->). eexists. by apply file_contents_app.
  - rewrite Hout. eexists. by apply file_contents_app.
  - destruct Hout as (err & ->). exists []. by rewrite app_nil_r.
Qed.

Lemma run_write_extends d l contents o : extends l contents d → extends l contents (run_write d o).
Proof.
  intros [Hl [data Hf]].
  assert (∀ k v (f : DiskEngine → diskLogPosition → DiskEngine),
    (∀ e pos, log (f e pos) = log e) → ∀ w r,
    write_outcome l k v (contents ++ data) (world d) (w, r) →
    extends l contents (mkDisk (engine d) w) ∧ ∀ pos, extends l contents (mkDisk (f (engine d) pos) w)) as Hw.
  { intros k v f Hlog w r Hout. destruct (write_outcome_extends _ _ _ _ _ _ Hf Hout) as [more Hm].
    split; [|intros pos]; (split; [by cbn; rewrite ?Hlog|]); exists (data ++ more); by rewrite app_assoc. }
  destruct o as [k v|k]; cbn; [unfold Disk.Set_|unfold Disk.Delete]; unfold sbind, swrap, sread, ensureOpen; rewrite Hl.
  - destruct (on_world_write d l k (Some (sbytes v)) _ Hf) as ([w r] & Hr & Hout).
    rewrite bool_decide_eq_false_2 in Hr by done. change (sbytes (Some (sbytes v))) with (sbytes v) in Hr. rewrite Hr.
    unfold the_keydir. destruct (Hw k (Some (sbytes v)) (λ e pos, match keydir e with
      | Some kd => set_keydir (ReplaceOrInsert (mkItem k pos) kd) e | None => e end)
      ltac:(intros e ?; cbn; by destruct (keydir e)) w r Hout) as [H1 H2].
    destruct r as [pos|err|p]; cbn; [|done..]. specialize (H2 pos). by destruct (keydir (engine d)).
  - destruct (on_world_write d l k None _ Hf) as ([w r] & Hr & Hout).
    rewrite bool_decide_eq_true_2 in Hr by done. change (sbytes None) with (@nil byte) in Hr. rewrite Hr.
    unfold the_keydir. destruct (Hw k None (λ e _, match keydir e with
      | Some kd => set_keydir (btDelete (search k) kd) e | None => e end)
      ltac:(intros e ?; cbn; by destruct (keydir e)) w r Hout) as [H1 H2].
    destruct r as [pos|err|p]; cbn; [|done..]. specialize (H2 pos). by destruct (keydir (engine d)).
Qed.

Lemma run_writes_extends ws d l contents : extends l contents d → extends l contents (run_writes ws d).
Proof.
  unfold run_writes. revert d. induction ws as [|o ws IH]; intros d Hd; [done|]. by apply IH, run_write_extends.
Qed.

Lemma interleaved_items_ok l kd contents m d items wss :
  indexes kd contents m → extends l contents d → (∀ it, it ∈ items → it ∈ Ascend kd) →
  interleaved_items items wss d = map Ok (map (λ it, mkEntry (key it) (m !! key it)) items).
Proof.
  intros Hi. revert wss d. induction items as [|it items IH]; intros wss d Hd Hin; [done|]. cbn [interleaved_items map].
  pose proof Hd as [Hl [data Hf]].
  destruct (idx_item _ _ _ Hi it ltac:(apply Hin; set_solver)) as (v & Hv & Hs%(stored_app _ data)).
  unfold Disk.readScanItem, ensureOpen. rewrite Hl. cbn [rbind].
  rewrite (readLogValue_spec _ _ _ _ _ _ Hf Hs). cbn [rwrap rbind]. rewrite Hv. f_equal.
  apply IH; [by apply run_writes_extends|]. intros it' ?. apply Hin. set_solver.
Qed.

End refine.
