(* ===== verification/DiskOpen.v ===== *)
(** * Opening a log again

    A log holds the records written to it, in order; opening it replays them.
    [torn] is what a write that was interrupted leaves at the end. *)

From S2P Require Import Prelude Bytes Types Engine Btree Os Disk DiskLog DiskRefine.

Abbreviation record := (bytes * slice)%type.

Definition log_bytes (es : list record) : bytes := concat (map (λ e, encodeEntry e.1 e.2) es).
Definition records_fit (es : list record) : Prop := Forall (λ e, entry_fits e.1 e.2) es.

(** the map after the records *)
Definition apply_record (m : gmap bytes bytes) (e : record) : gmap bytes bytes :=
  match e.2 with Some v => <[e.1 := v]> m | None => delete e.1 m end.
Definition replay (es : list record) : gmap bytes bytes := foldl apply_record ∅ es.

(** a part of a record, not empty and not complete *)
Definition torn_record (torn : bytes) : Prop :=
  ∃ k v n, entry_fits k v ∧ (0 < n < length (encodeEntry k v))%nat ∧ torn = take n (encodeEntry k v).

Lemma log_bytes_snoc es e : log_bytes (es ++ [e]) = log_bytes es ++ encodeEntry e.1 e.2.
Proof. unfold log_bytes. rewrite map_app, concat_app. cbn. by rewrite app_nil_r. Qed.

Lemma replay_snoc es e : replay (es ++ [e]) = apply_record (replay es) e.
Proof. unfold replay. by rewrite foldl_app. Qed.

Lemma records_fit_snoc es e : records_fit es → entry_fits e.1 e.2 → records_fit (es ++ [e]).
Proof. intros Hes He. apply Forall_app. split; [done|]. by apply List.Forall_cons. Qed.

Lemma length_log_bytes es : (length es ≤ length (log_bytes es))%nat.
Proof.
  unfold log_bytes. induction es as [|e es IH]; [done|]. cbn. rewrite length_app, length_encodeEntry. lia.
Qed.

Lemma tombstone_size (v : slice) :
  Z.of_nat (length (sbytes v)) ≤ 2 ^ 31 - 1 →
  (value_size v =? diskLogTombstoneSize) = bool_decide (v = None) ∧
  (v ≠ None → value_size v = Z.of_nat (length (sbytes v)) ∧ (value_size v >=? 0) = true).
Proof.
  unfold value_size, diskLogTombstoneSize. intros _. destruct v as [b|]; split; try done.
  - rewrite bool_decide_eq_false_2 by done. apply Z.eqb_neq. lia.
  - intros _. split; [done|]. apply Z.geb_le. lia.
Qed.

Section opening.
Context `{Flock} `{BTree diskItem} `{!BTreeLaws lessDiskItem}.

(** one step of the loop *)
Lemma rebuild_step fuel l (w : World) pre k v post kd :
  file_contents (file l) w = Ok (pre ++ encodeEntry k v ++ post) → entry_fits k v →
  let size := Z.of_nat (length (pre ++ encodeEntry k v ++ post)) in
  rebuild_loop (S fuel) l w size (Z.of_nat (length pre)) kd =
  rebuild_loop fuel l w size (Z.of_nat (length (pre ++ encodeEntry k v)))
    (match v with
     | Some _ => ReplaceOrInsert (mkItem k (mkPosition (Z.of_nat (length pre)) (Z.of_nat (length (encodeEntry k v))))) kd
     | None => btDelete (search k) kd
     end).
Proof.
  intros Hf Hfit size. cbn [rebuild_loop]. unfold size.
  rewrite !length_app. pose proof (length_encodeEntry k v) as Hlen.
  destruct (Z.ltb_spec (Z.of_nat (length pre)) (Z.of_nat (length pre + (length (encodeEntry k v) + length post)))) as [_|?];
    [|lia]. cbn [negb].
  unfold sbind, slift. rewrite (readEntry_spec l w pre k v post) by done. cbn [rwrap].
  pose proof (tombstone_size v (proj1 Hfit)) as [Hts Hsz].
  assert ((if value_size v =? diskLogTombstoneSize then sret 0
           else if value_size v >=? 0 then sret (value_size v)
           else sthrow (Errorf "storage: invalid value size %d at offset %d")) kd =
    (kd, Ok (Z.of_nat (length (sbytes v))))) as ->.
  { rewrite Hts. destruct v as [b|]; [|done]. rewrite bool_decide_eq_false_2 by done.
    destruct (Hsz ltac:(done)) as [-> Hge]. by rewrite Hge. }
  unfold diskLogHeaderSize, maxDiskLogEntrySize. destruct Hfit as [Hv Hk].
  assert (8 + Z.of_nat (length k) + Z.of_nat (length (sbytes v)) = Z.of_nat (length (encodeEntry k v))) as -> by lia.
  destruct (Z.gtb_spec (Z.of_nat (length (encodeEntry k v))) (2 ^ 32 - 1)); [lia|].
  destruct (Z.gtb_spec (Z.of_nat (length (encodeEntry k v)))
    (Z.of_nat (length pre + (length (encodeEntry k v) + length post)) - Z.of_nat (length pre))); [lia|].
  cbn [orb]. rewrite <-Nat2Z.inj_add. rewrite Hts. unfold uint32. rewrite Z.mod_small by lia.
  by destruct v.
Qed.

Lemma indexes_step kd pre k v post m :
  entry_fits k v → indexes kd (pre ++ encodeEntry k v ++ post) m →
  indexes (match v with
     | Some _ => ReplaceOrInsert (mkItem k (mkPosition (Z.of_nat (length pre)) (Z.of_nat (length (encodeEntry k v))))) kd
     | None => btDelete (search k) kd
     end) (pre ++ encodeEntry k v ++ post) (apply_record m (k, v)).
Proof.
  intros Hfit Hi. destruct v as [b|]; cbn; [|by apply indexes_delete].
  apply indexes_insert; [done|]. split; [done|]. split; [done|]. by exists pre, post.
Qed.

(** the loop replays the records *)
Lemma rebuild_records es l (w : World) pre post fuel kd m :
  file_contents (file l) w = Ok (pre ++ log_bytes es ++ post) → records_fit es →
  indexes kd (pre ++ log_bytes es ++ post) m →
  let size := Z.of_nat (length (pre ++ log_bytes es ++ post)) in
  ∃ kd', rebuild_loop (length es + fuel) l w size (Z.of_nat (length pre)) kd =
      rebuild_loop fuel l w size (Z.of_nat (length (pre ++ log_bytes es))) kd' ∧
    indexes kd' (pre ++ log_bytes es ++ post) (foldl apply_record m es).
Proof.
  intros Hf Hfit Hi. cbn zeta. revert pre kd m Hf Hi. induction Hfit as [|[k v] es He _ IH]; intros pre kd m Hf Hi.
  - exists kd. cbn. by rewrite app_nil_r.
  - assert (pre ++ log_bytes ((k, v) :: es) ++ post = pre ++ encodeEntry k v ++ log_bytes es ++ post) as Heq
      by (unfold log_bytes; cbn; by rewrite <-app_assoc).
    rewrite Heq in *. cbn [length Nat.add]. rewrite rebuild_step by done.
    destruct (IH (pre ++ encodeEntry k v)
      (match v with
       | Some _ => ReplaceOrInsert (mkItem k (mkPosition (Z.of_nat (length pre)) (Z.of_nat (length (encodeEntry k v))))) kd
       | None => btDelete (search k) kd
       end) (apply_record m (k, v))) as (kd' & Hr & Hi').
    + by rewrite <-app_assoc.
    + rewrite <-app_assoc. by apply indexes_step.
    + rewrite <-!app_assoc in Hr, Hi'. rewrite Hr. exists kd'. split; [|done].
      unfold log_bytes. cbn. by rewrite <-app_assoc.
Qed.

(** and stops at a torn one *)
Lemma rebuild_torn l (w : World) pre torn fuel kd :
  file_contents (file l) w = Ok (pre ++ torn) → torn_record torn →
  ∃ kd' err, rebuild_loop (S fuel) l w (Z.of_nat (length (pre ++ torn))) (Z.of_nat (length pre)) kd = (kd', Err err).
Proof.
  intros Hf (k & v & n & Hfit & Hn & ->). cbn [rebuild_loop]. rewrite length_app, length_take.
  destruct (Z.ltb_spec (Z.of_nat (length pre)) (Z.of_nat (length pre + n `min` length (encodeEntry k v)))); [|lia].
  cbn [negb]. unfold sbind, slift.
  destruct (readEntry_torn l w pre k v n (Z.of_nat (length pre)) Hfit (proj2 Hn) Hf eq_refl) as [(err & ->)| ->];
    cbn [rwrap]; [by eexists _, _|].
  pose proof (tombstone_size v (proj1 Hfit)) as [Hts Hsz]. pose proof (length_encodeEntry k v) as Hlen.
  assert ((if value_size v =? diskLogTombstoneSize then sret 0
           else if value_size v >=? 0 then sret (value_size v)
           else sthrow (Errorf "storage: invalid value size %d at offset %d")) kd =
    (kd, Ok (Z.of_nat (length (sbytes v))))) as ->.
  { rewrite Hts. destruct v as [b|]; [|done]. rewrite bool_decide_eq_false_2 by done.
    destruct (Hsz ltac:(done)) as [-> Hge]. by rewrite Hge. }
  unfold diskLogHeaderSize.
  destruct (Z.gtb_spec (8 + Z.of_nat (length k) + Z.of_nat (length (sbytes v)))
    (Z.of_nat (length pre + n `min` length (encodeEntry k v)) - Z.of_nat (length pre))); [|lia].
  rewrite orb_true_r. by eexists _, _.
Qed.

Lemma rebuild_done l (w : World) size fuel kd : rebuild_loop fuel l w size size kd = (kd, Ok ()).
Proof. destruct fuel; cbn; by rewrite Z.ltb_irrefl. Qed.

(** [rebuildKeydir] on a fresh engine *)
Lemma rebuildKeydir_spec l (w : World) lock es torn :
  file_contents (file l) w = Ok (log_bytes es ++ torn) → records_fit es →
  let d := mkDisk (mkDiskEngine (Some (NewG lessDiskItem)) (Some l) lock) w in
  (torn = [] → ∃ kd, rebuildKeydir d = (mkDisk (mkDiskEngine (Some kd) (Some l) lock) w, Ok ()) ∧
     indexes kd (log_bytes es) (replay es)) ∧
  (torn_record torn → ∃ d' err, rebuildKeydir d = (d', Err err) ∧ world d' = w).
Proof.
  intros Hf Hfit d. unfold rebuildKeydir, d, sbind, swrap, sread, ensureOpen, the_keydir, os_Size.
  cbn [engine log keydir world rderef rbind rwrap]. rewrite Hf. cbn [rbind rwrap]. rewrite Nat2Z.id.
  destruct (rebuild_records es l w [] torn (length (log_bytes es ++ torn) - length es) (NewG lessDiskItem) ∅ Hf Hfit
    (indexes_empty _)) as (kd & Hr & Hi). cbn [app] in Hr, Hi. change (Z.of_nat (length (@nil byte))) with 0 in Hr.
  pose proof (length_log_bytes es) as Hle.
  replace (length es + (length (log_bytes es ++ torn) - length es))%nat with (length (log_bytes es ++ torn)) in Hr
    by (rewrite length_app; lia).
  rewrite Hr. split.
  - intros ->. rewrite app_nil_r in *. rewrite rebuild_done. by exists kd.
  - intros Ht. assert (0 < length torn)%nat as Hpos.
    { destruct Ht as (k & v & n & _ & Hn & ->). rewrite length_take. lia. }
    destruct (length (log_bytes es ++ torn) - length es)%nat as [|fuel] eqn:Hfuel; [rewrite length_app in Hfuel; lia|].
    destruct (rebuild_torn l w (log_bytes es) torn fuel kd Hf Ht) as (kd' & err & ->). by eexists _, _.
Qed.

(** ** [NewDiskEngine] *)

(** a process that can lock the file and whose calls succeed *)
Definition fresh_process (name : bytes) (w : World) : Prop :=
  (∀ i, faults w i = None) ∧ (TryLockContext (name ++ str ".lock") (locks w)).2 = inr true.

(** the log at [name] opens and holds [m], or does not open *)
Definition opens_with (name : bytes) (fs : gmap bytes bytes) (m : gmap bytes bytes) : Prop :=
  ∀ w, files w = fs → fresh_process name w →
    ∃ w' e, NewDiskEngine name w = (w', Ok e) ∧ disk_holds (mkDisk e w') m.
Definition opens_not (name : bytes) (fs : gmap bytes bytes) : Prop :=
  ∀ w, files w = fs → fresh_process name w → ∃ w' err, NewDiskEngine name w = (w', Err err).

Lemma newDisLog_ok name (w : World) :
  faults w (calls w) = None →
  ∃ w', newDisLog name w = (w', Ok (mkDiskLog (mkFile name false))) ∧ faults w' = faults w ∧ calls w' = S (calls w) ∧
    files w' = (match files w !! name with Some _ => files w | None => <[name := []]> (files w) end) ∧
    file_contents (mkFile name false) w' = Ok (default [] (files w !! name)).
Proof.
  intros Hw. unfold newDisLog, sbind, swrap, os_OpenFile, syscall. rewrite Hw. cbn. eexists. split; [done|].
  split; [done|]. split; [done|]. split; [done|]. unfold file_contents. cbn. destruct (files w !! name) as [c|] eqn:E; [by rewrite E|].
  by rewrite lookup_insert_eq.
Qed.

(** up to the reading of the log *)
Lemma NewDiskEngine_open name (w : World) lk :
  TryLockContext (name ++ str ".lock") (locks w) = (lk, inr true) → faults w (calls w) = None →
  ∃ w1, files w1 = (match files w !! name with Some _ => files w | None => <[name := []]> (files w) end) ∧
    faults w1 = faults w ∧ calls w1 = S (calls w) ∧ file_contents (mkFile name false) w1 = Ok (default [] (files w !! name)) ∧
    NewDiskEngine name w =
      match rebuildKeydir (mkDisk (mkDiskEngine (Some (NewG lessDiskItem)) (Some (mkDiskLog (mkFile name false)))
          (Some (name ++ str ".lock"))) w1) with
      | (d, Ok _) => (world d, Ok (engine d))
      | (d, Err err) =>
          (sattempt (close_log (mkDiskLog (mkFile name false))) ;;!
           sattempt (on_locks (Unlock (name ++ str ".lock"))) ;;!
           sthrow (Wrapf "storage: rebuilding keydir from %q: %w" err)) (world d)
      | (d, Panic p) => (world d, Panic p)
      end.
Proof.
  intros Hl Hw. destruct (newDisLog_ok name (mkWorld (files w) (calls w) (faults w) lk) Hw)
    as (w1 & Hn & Hfaults & Hcalls & Hfiles & Hc). exists w1. split; [done|]. split; [done|]. split; [done|].
  split; [done|].
  unfold NewDiskEngine. unfold sbind at 1, swrap at 1, on_locks at 1. rewrite Hl. cbn [returned rwrap negb].
  unfold sbind at 1, sattempt at 1. by rewrite Hn.
Qed.

(** the way out of [NewDiskEngine] when the log cannot be read *)
Lemma abandoned_error {A} l lock err (w : World) :
  ∃ w' err', (sattempt (close_log l) ;;! sattempt (on_locks (Unlock lock)) ;;!
    @sthrow World A err) w = (w', Err err').
Proof.
  unfold sbind at 1, sattempt at 1, close_log, os_Close, sthrow, syscall.
  assert (∀ w1, ∃ w' err', (sattempt (on_locks (Unlock lock)) ;;! (λ s, (s, @Err A err))) w1 = (w', Err err')) as Hun.
  { intros w1. unfold sbind, sattempt, on_locks. destruct (Unlock lock (locks w1)) as [lk [e|[]]]; by eexists _, _. }
  destruct (closed (file l)); [apply Hun|]. destruct (faults w (calls w)); apply Hun.
Qed.

Definition opened_engine (name : bytes) (kd : BTreeG diskItem) : DiskEngine :=
  mkDiskEngine (Some kd) (Some (mkDiskLog (mkFile name false))) (Some (name ++ str ".lock")).

(** opening a log, whether its end is torn or not *)
Lemma NewDiskEngine_spec name (w : World) es torn lk :
  default [] (files w !! name) = log_bytes es ++ torn → records_fit es →
  TryLockContext (name ++ str ".lock") (locks w) = (lk, inr true) → faults w (calls w) = None →
  (torn = [] → ∃ w' kd, NewDiskEngine name w = (w', Ok (opened_engine name kd)) ∧
     file_contents (mkFile name false) w' = Ok (log_bytes es) ∧
     (∀ p, p ≠ name → files w' !! p = files w !! p) ∧ faults w' = faults w ∧ calls w' = S (calls w) ∧
     indexes kd (log_bytes es) (replay es)) ∧
  (torn_record torn → ∃ w' err, NewDiskEngine name w = (w', Err err)).
Proof.
  intros Hf Hfit Hl Hw. destruct (NewDiskEngine_open name w lk Hl Hw) as (w1 & Hfiles & Hfaults & Hcalls & Hc & ->).
  rewrite Hf in Hc.
  destruct (rebuildKeydir_spec (mkDiskLog (mkFile name false)) w1 (Some (name ++ str ".lock")) es torn Hc Hfit)
    as [Hok Herr]. split.
  - intros Ht. destruct (Hok Ht) as (kd & -> & Hi). exists w1, kd. split; [done|].
    subst torn. rewrite app_nil_r in *. split; [done|]. split; [|done].
    intros p Hp. rewrite Hfiles. destruct (files w !! name); [done|]. by rewrite lookup_insert_ne.
  - intros Ht. destruct (Herr Ht) as (d' & err & -> & _). by apply abandoned_error.
Qed.

(** ** Durability *)

(** the engine's log holds the records [es] and nothing else *)
Definition clean (d : DiskState) (es : list record) : Prop :=
  ∃ l kd, disk_rep d l kd (log_bytes es) (replay es) ∧ records_fit es.

Lemma opens_with_log name fs es :
  default [] (fs !! name) = log_bytes es → records_fit es → opens_with name fs (replay es).
Proof.
  intros Hf Hfit w <- [Hw Hl].
  destruct (TryLockContext (name ++ str ".lock") (locks w)) as [lk r] eqn:El. cbn in Hl. subst r.
  rewrite <-(app_nil_r (log_bytes es)) in Hf.
  destruct (NewDiskEngine_spec name w es [] lk Hf Hfit El (Hw _)) as [Hok _].
  destruct (Hok eq_refl) as (w' & kd & -> & Hc & _ & _ & _ & Hi). exists w', (opened_engine name kd).
  split; [done|]. by eexists _, kd, (log_bytes es).
Qed.

Lemma opens_not_torn name fs es torn :
  default [] (fs !! name) = log_bytes es ++ torn → records_fit es → torn_record torn → opens_not name fs.
Proof.
  intros Hf Hfit Ht w <- [Hw Hl].
  destruct (TryLockContext (name ++ str ".lock") (locks w)) as [lk r] eqn:El. cbn in Hl. subst r.
  by apply (NewDiskEngine_spec name w es torn lk).
Qed.

(** what a failed write leaves behind the log: nothing, or a part of the record *)
Definition leftover (tail : bytes) : Prop := tail = [] ∨ torn_record tail.

Lemma leftover_take k v n : entry_fits k v → leftover (take (proper n (encodeEntry k v)) (encodeEntry k v)).
Proof.
  intros Hfit. unfold proper. destruct (decide (n = 0)%nat) as [->|Hz]; [by left|]. right.
  exists k, v, (Nat.min n (pred (length (encodeEntry k v)))). split; [done|]. split; [|done].
  rewrite length_encodeEntry. lia.
Qed.

(** the log of [d] holds [es], and maybe a part of one more record *)
Definition interrupted (d : DiskState) (es : list record) : Prop :=
  records_fit es ∧ ∃ l tail, log (engine d) = Some l ∧
    file_contents (file l) (world d) = Ok (log_bytes es ++ tail) ∧ leftover tail.

Lemma clean_holds d es : clean d es → disk_holds d (replay es).
Proof. intros (l & kd & Hrep & _). by exists l, kd, (log_bytes es). Qed.

Lemma write_interrupted d l kd es k v (w : World) err :
  disk_rep d l kd (log_bytes es) (replay es) → records_fit es →
  write_outcome l k v (log_bytes es) (world d) (w, Err err) →
  disk_holds (mkDisk (engine d) w) (replay es) ∧ interrupted (mkDisk (engine d) w) es.
Proof.
  intros Hrep Hfit Hw. split; [by eapply failed_write|]. split; [done|].
  destruct Hrep as (Hl & _ & Hf & _). exists l. unfold write_outcome in Hw. case_decide as Hfits.
  - destruct (faults _ _) as [n|]; [|done]. destruct Hw as (e & [= -> ->]). eexists. split; [done|].
    split; [by apply file_contents_app|]. by apply leftover_take.
  - destruct Hw as (e & [= -> ->]). exists []. rewrite app_nil_r. split; [done|]. split; [done|by left].
Qed.

Lemma write_clean d l kd es k v (w : World) pos :
  disk_rep d l kd (log_bytes es) (replay es) → records_fit es →
  write_outcome l k v (log_bytes es) (world d) (w, Ok pos) →
  file_contents (file l) w = Ok (log_bytes (es ++ [(k, v)])) ∧ records_fit (es ++ [(k, v)]) ∧
  indexes (match v with Some _ => ReplaceOrInsert (mkItem k pos) kd | None => btDelete (search k) kd end)
    (log_bytes (es ++ [(k, v)])) (replay (es ++ [(k, v)])).
Proof.
  intros Hrep Hfits Hout. destruct (written _ _ _ _ _ _ _ _ _ Hrep Hout) as (Hfit & _ & _ & -> & Hf & Hi).
  rewrite log_bytes_snoc, replay_snoc. split; [done|]. split; [by apply records_fit_snoc|].
  pose proof (indexes_step kd (log_bytes es) k v [] (replay es) Hfit) as Hs. rewrite app_nil_r in Hs. by apply Hs.
Qed.

(** the writing methods on a clean log *)
Definition durable (out : DiskState * result unit) (es : list record) (e : record) : Prop :=
  match out with
  | (d, Ok _) => clean d (es ++ [e])
  | (d, Err _) => disk_holds d (replay es) ∧ interrupted d es
  | (_, Panic _) => False
  end.

Lemma Set_durable d es k v : clean d es → durable (Disk.Set_ k v d) es (k, Some (sbytes v)).
Proof.
  intros (l & kd & Hrep & Hfits). pose proof Hrep as (Hl & Hk & Hf & _).
  unfold durable, Disk.Set_, sbind, swrap, sread, ensureOpen. rewrite Hl.
  destruct (on_world_write d l k (Some (sbytes v)) _ Hf) as ([w r] & Hw & Hout).
  rewrite bool_decide_eq_false_2 in Hw by done. change (sbytes (Some (sbytes v))) with (sbytes v) in Hw. rewrite Hw.
  destruct r as [pos|err|p]; cbn [fst snd rwrap];
    [|by eapply write_interrupted|by eapply write_outcome_no_panic].
  destruct (write_clean _ _ _ _ _ _ _ _ Hrep Hfits Hout) as (Hf' & Hfits' & Hi).
  unfold the_keydir. cbn [engine]. rewrite Hk. cbn. by eexists l, _.
Qed.

Lemma Delete_durable d es k : clean d es → durable (Disk.Delete k d) es (k, None).
Proof.
  intros (l & kd & Hrep & Hfits). pose proof Hrep as (Hl & Hk & Hf & _).
  unfold durable, Disk.Delete, sbind, swrap, sread, ensureOpen. rewrite Hl.
  destruct (on_world_write d l k None _ Hf) as ([w r] & Hw & Hout).
  rewrite bool_decide_eq_true_2 in Hw by done. change (sbytes None) with (@nil byte) in Hw. rewrite Hw.
  destruct r as [pos|err|p]; cbn [fst snd rwrap];
    [|by eapply write_interrupted|by eapply write_outcome_no_panic].
  destruct (write_clean _ _ _ _ _ _ _ _ Hrep Hfits Hout) as (Hf' & Hfits' & Hi).
  unfold the_keydir. cbn [engine]. rewrite Hk. cbn. by eexists l, _.
Qed.

(** what a process that opens the log of [d] next finds *)
Definition next_finds (d : DiskState) (P : gmap bytes bytes → Prop) : Prop :=
  ∃ l, log (engine d) = Some l ∧ ∃ m, P m ∧ opens_with (fname (file l)) (files (world d)) m.
Definition next_refused (d : DiskState) : Prop :=
  ∃ l, log (engine d) = Some l ∧ opens_not (fname (file l)) (files (world d)).

Lemma file_contents_files f (w : World) contents :
  file_contents f w = Ok contents → default [] (files w !! fname f) = contents.
Proof. unfold file_contents. destruct (closed f); [done|]. destruct (files w !! fname f); [|done]. by intros [= ->]. Qed.

Lemma clean_next d es : clean d es → next_finds d (λ m, m = replay es).
Proof.
  intros (l & kd & (Hl & _ & Hf & _) & Hfits). exists l. split; [done|]. exists (replay es). split; [done|].
  apply opens_with_log; [|done]. by apply file_contents_files.
Qed.

Lemma interrupted_next d es : interrupted d es → next_finds d (λ m, m = replay es) ∨ next_refused d.
Proof.
  intros (Hfits & l & tail & Hl & Hf%file_contents_files & [->|Ht]).
  - left. exists l. split; [done|]. exists (replay es). split; [done|].
    rewrite app_nil_r in Hf. by apply opens_with_log.
  - right. exists l. split; [done|]. by eapply opens_not_torn.
Qed.

End opening.
