(* ===== verification/DiskLaws.v ===== *)
(** * The disk engine is a lawful storage engine

    In a process that may die at any call to the system, an engine that was
    opened on a log keeps the laws of [Engine.v]; whenever the process dies,
    the next one that opens the log finds the same contents, or refuses to open
    it because a record was cut short. *)

From S2P Require Import Prelude Bytes Types Engine Btree Os Disk DiskLog DiskRefine DiskOpen.

(** the path of the log *)
Class LogPath := log_path : bytes.

Section laws.
Context `{Flock} `{BTree diskItem} `{!BTreeLaws lessDiskItem} `{!LogPath}.
Implicit Types (d : DiskState) (m : gmap bytes bytes).

(** no call fails from now on *)
Definition reliable (w : World) : Prop := ∀ i, (calls w ≤ i)%nat → faults w i = None.

(** the process is dead: no call has an effect any more *)
Definition dead (w : World) : Prop := ∀ i, (calls w ≤ i)%nat → faults w i = Some 0%nat.

(** it dies during the call [k], or never *)
Definition dies_at (k : nat) (w : World) : Prop :=
  (calls w ≤ k)%nat ∧ (∀ i, (calls w ≤ i < k)%nat → faults w i = None) ∧ is_Some (faults w k) ∧
  ∀ i, (k < i)%nat → faults w i = Some 0%nat.
Definition crashes (w : World) : Prop := reliable w ∨ ∃ k, dies_at k w.

Lemma dead_crashes w : dead w → crashes w.
Proof.
  intros Hd. right. exists (calls w). split; [done|]. split; [lia|]. split; [rewrite Hd; [by eexists|done]|].
  intros i Hi. apply Hd. lia.
Qed.

(** one more call *)
Lemma next_call (w w' : World) :
  faults w' = faults w → calls w' = S (calls w) → crashes w →
  match faults w (calls w) with
  | None => crashes w' ∧ (reliable w → reliable w')
  | Some n => dead w' ∧ ¬ reliable w
  end.
Proof.
  intros Hf Hc [Hr|(k & Hk & Hbefore & Hat & Hafter)].
  - rewrite Hr by done. assert (reliable w') by (intros i Hi; rewrite Hf; apply Hr; lia). split; [by left|done].
  - destruct (decide (k = calls w)) as [->|Hne].
    + destruct Hat as [n Hn]. rewrite Hn. split; [intros i Hi; rewrite Hf; apply Hafter; lia|].
      intros Hr. by rewrite Hr in Hn.
    + rewrite Hbefore by lia. split; [|intros Hr; destruct Hat as [n Hn]; rewrite Hr in Hn by lia; done].
      right. exists k. unfold dies_at. rewrite Hf, Hc. split; [lia|]. split; [|done]. intros i Hi. apply Hbefore. lia.
Qed.

(** the engine writes the log at [log_path]: it holds the records [es], and
    maybe a part of the one during which the process died *)
Definition disk_log d l kd es tail : Prop :=
  fname (file l) = log_path ∧ records_fit es ∧ disk_rep d l kd (log_bytes es ++ tail) (replay es) ∧
  (tail = [] ∧ crashes (world d) ∨ torn_record tail ∧ dead (world d)).
Definition disk_usable d : Prop := ∃ l kd es tail, disk_log d l kd es tail.

Lemma disk_log_contents d l kd es tail : disk_log d l kd es tail → disk_contents d = replay es.
Proof. intros (_ & _ & Hrep & _). apply disk_contents_holds. by eexists _, _, _. Qed.

Lemma disk_usable_holds d : disk_usable d → disk_holds d (disk_contents d).
Proof.
  intros (l & kd & es & tail & Hd). rewrite (disk_log_contents _ _ _ _ _ Hd).
  destruct Hd as (_ & _ & Hrep & _). by eexists _, _, _.
Qed.

(** a write that fails leaves a usable engine with the same contents *)
Lemma log_write_fails d l kd es tail k v (w : World) err :
  disk_log d l kd es tail → write_outcome l k v (log_bytes es ++ tail) (world d) (w, Err err) →
  disk_usable (mkDisk (engine d) w) ∧ disk_contents (mkDisk (engine d) w) = disk_contents d ∧
  (reliable (world d) → reliable w) ∧ ¬ (reliable (world d) ∧ entry_fits k v).
Proof.
  intros Hd Hw. pose proof (disk_log_contents _ _ _ _ _ Hd) as ->. destruct Hd as (Hn & Hfits & Hrep & Htail).
  pose proof Hrep as (Hl & Hk & Hf & Hi). unfold write_outcome in Hw. case_decide as Hfit.
  - destruct (faults (world d) (calls (world d))) as [n|] eqn:Hfault; [|done]. destruct Hw as (e & [= -> ->]).
    set (part := take (proper n (encodeEntry k v)) (encodeEntry k v)).
    assert (crashes (world d)) as Hcr by (destruct Htail as [[_ ?]|[_ ?]]; [done|by apply dead_crashes]).
    pose proof (next_call (world d) (appended (fname (file l)) part (world d)) eq_refl eq_refl Hcr) as Hnext.
    rewrite Hfault in Hnext. destruct Hnext as [Hdead Hnr].
    assert (∃ tail', disk_log (mkDisk (engine d) (appended (fname (file l)) part (world d))) l kd es tail') as [tail' Hd'].
    { destruct Htail as [[-> _]|[Htorn Hdd]].
      - exists part. rewrite app_nil_r in *. split; [done|]. split; [done|]. split.
        + split; [done|]. split; [done|]. split; [by apply file_contents_app|by apply indexes_app].
        + pose proof (leftover_take k v n Hfit) as [Hnil|Ht]; [left; split; [exact Hnil|by apply dead_crashes]|by right].
      - exists tail. rewrite Hdd in Hfault by done. injection Hfault as <-.
        split; [done|]. split; [done|]. split; [|by right]. split; [done|]. split; [done|]. split; [|done].
        rewrite <-(app_nil_r (log_bytes es ++ tail)). by apply file_contents_app. }
    split; [by eexists _, _, _, _|]. split; [by eapply disk_log_contents|]. split; [done|tauto].
  - destruct Hw as (e & [= -> ->]). destruct d as [en w']. cbn [engine world] in *.
    assert (disk_log (mkDisk en w') l kd es tail) as Hd' by done.
    split; [by eexists _, _, _, _|]. split; [by eapply disk_log_contents|]. split; [done|tauto].
Qed.

(** one that succeeds adds its record *)
Lemma log_write_succeeds d l kd kd' es tail k v (w : World) pos :
  disk_log d l kd es tail → write_outcome l k v (log_bytes es ++ tail) (world d) (w, Ok pos) →
  kd' = match v with Some _ => ReplaceOrInsert (mkItem k pos) kd | None => btDelete (search k) kd end →
  let d' := mkDisk (set_keydir kd' (engine d)) w in
  disk_log d' l kd' (es ++ [(k, v)]) [] ∧ (reliable (world d) → reliable w) ∧ entry_fits k v.
Proof.
  intros (Hn & Hfits & Hrep & Htail) Hout ->. cbn zeta.
  destruct (written _ _ _ _ _ _ _ _ _ Hrep Hout) as (Hfit & Hfault & -> & -> & _).
  destruct Htail as [[-> Hcr]|[_ Hd]]; [|by rewrite Hd in Hfault]. rewrite app_nil_r in *.
  destruct (write_clean _ _ _ _ _ _ _ _ Hrep Hfits Hout) as (Hf' & Hfits' & Hi').
  pose proof (next_call (world d) (appended (fname (file l)) (encodeEntry k v) (world d)) eq_refl eq_refl Hcr) as Hnext.
  rewrite Hfault in Hnext. destruct Hnext as [Hcr' Hrel]. split; [|done]. destruct Hrep as (Hl & _).
  split; [done|]. split; [done|]. split; [|by left]. rewrite app_nil_r.
  split; [exact Hl|]. split; [reflexivity|]. split; [exact Hf'|exact Hi'].
Qed.

(** what a writing method does *)
Definition usable_write (out : DiskState * result unit) d k (v : slice) m' : Prop :=
  (reliable (world d) → reliable (world out.1)) ∧
  match out with
  | (d', Ok _) => disk_usable d' ∧ disk_contents d' = m' ∧ entry_fits k v
  | (d', Err _) => disk_usable d' ∧ disk_contents d' = disk_contents d ∧ ¬ (reliable (world d) ∧ entry_fits k v)
  | (_, Panic _) => False
  end.

Lemma Set_usable d k v :
  disk_usable d → usable_write (Disk.Set_ k v d) d k (Some (sbytes v)) (<[k := sbytes v]> (disk_contents d)).
Proof.
  intros (l & kd & es & tail & Hd). pose proof Hd as (_ & _ & (Hl & Hk & Hf & _) & _).
  unfold usable_write, Disk.Set_, sbind, swrap, sread, ensureOpen. rewrite Hl.
  destruct (on_world_write d l k (Some (sbytes v)) _ Hf) as ([w r] & Hw & Hout).
  rewrite bool_decide_eq_false_2 in Hw by done. change (sbytes (Some (sbytes v))) with (sbytes v) in Hw. rewrite Hw.
  destruct r as [pos|err|p]; cbn [fst snd rwrap]; [| |by apply write_outcome_no_panic in Hout].
  - unfold the_keydir. cbn [engine]. rewrite Hk. cbn [rderef modify fst world engine].
    destruct (log_write_succeeds d l kd _ es tail k _ w pos Hd Hout eq_refl) as (Hd' & Hrel & Hfit).
    split; [done|]. split; [by eexists _, _, _, _|]. split; [|done].
    rewrite (disk_log_contents _ _ _ _ _ Hd'), (disk_log_contents _ _ _ _ _ Hd). by rewrite replay_snoc.
  - destruct (log_write_fails d l kd es tail k _ w err Hd Hout) as (? & ? & ? & ?). done.
Qed.

Lemma Delete_usable d k :
  disk_usable d → usable_write (Disk.Delete k d) d k None (delete k (disk_contents d)).
Proof.
  intros (l & kd & es & tail & Hd). pose proof Hd as (_ & _ & (Hl & Hk & Hf & _) & _).
  unfold usable_write, Disk.Delete, sbind, swrap, sread, ensureOpen. rewrite Hl.
  destruct (on_world_write d l k None _ Hf) as ([w r] & Hw & Hout).
  rewrite bool_decide_eq_true_2 in Hw by done. change (sbytes None) with (@nil byte) in Hw. rewrite Hw.
  destruct r as [pos|err|p]; cbn [fst snd rwrap]; [| |by apply write_outcome_no_panic in Hout].
  - unfold the_keydir. cbn [engine]. rewrite Hk. cbn [rderef modify fst world engine].
    destruct (log_write_succeeds d l kd _ es tail k _ w pos Hd Hout eq_refl) as (Hd' & Hrel & Hfit).
    split; [done|]. split; [by eexists _, _, _, _|]. split; [|done].
    rewrite (disk_log_contents _ _ _ _ _ Hd'), (disk_log_contents _ _ _ _ _ Hd). by rewrite replay_snoc.
  - destruct (log_write_fails d l kd es tail k _ w err Hd Hout) as (? & ? & ? & ?). done.
Qed.

#[export] Program Instance disk_laws : EngineLaws DiskState := {
  contents := disk_contents;
  usable := disk_usable;
  steady d := reliable (world d);
  fits := entry_fits;
}.
Next Obligation. intros k v. unfold entry_fits. lia. Qed.
Next Obligation. intros k v k' v'. unfold entry_fits. lia. Qed.
Next Obligation.
  intros d k v (l & kd & contents & _ & _ & _ & Hi)%disk_usable_holds Hv.
  destruct (idx_key _ _ _ Hi _ _ Hv) as (item & Hin & <-).
  destruct (idx_item _ _ _ Hi _ Hin) as (v' & _ & [Hfit _]). unfold entry_fits in *.
  change (sbytes (Some v')) with v' in Hfit. cbn. lia.
Qed.
Next Obligation. intros d k v Hu. apply (Set_usable d k v Hu). Qed.
Next Obligation. intros d k Hu. apply (Delete_usable d k Hu). Qed.
Next Obligation.
  intros d k Hu%disk_usable_holds Hk. unfold engGet, disk_engine. by rewrite (Get_holds _ _ _ Hu), Hk.
Qed.
Next Obligation.
  intros d k v Hu%disk_usable_holds Hk _. unfold engGet, disk_engine. by rewrite (Get_holds _ _ _ Hu), Hk.
Qed.
Next Obligation. intros d s t Hu%disk_usable_holds. apply (scan_yields _ _ s t false Hu). Qed.
Next Obligation. intros d s t Hu%disk_usable_holds. apply (scan_yields _ _ s t true Hu). Qed.
Next Obligation. intros d p Hu%disk_usable_holds. rewrite <-range_prefixEnd. apply (scan_yields _ _ _ _ false Hu). Qed.
Next Obligation. intros d p Hu%disk_usable_holds. rewrite <-range_prefixEnd. apply (scan_yields _ _ _ _ true Hu). Qed.

(** ** The next process *)

Lemma opens_usable (w : World) es :
  default [] (files w !! log_path) = log_bytes es → records_fit es → crashes w → faults w (calls w) = None →
  (TryLockContext (log_path ++ str ".lock") (locks w)).2 = inr true →
  ∃ w' e, NewDiskEngine log_path w = (w', Ok e) ∧ usable (mkDisk e w') ∧ contents (mkDisk e w') = replay es ∧
    (reliable w → steady (mkDisk e w')).
Proof.
  intros Hf Hfit Hcr Hw Hl.
  destruct (TryLockContext (log_path ++ str ".lock") (locks w)) as [lk r] eqn:El. cbn in Hl. subst r.
  rewrite <-(app_nil_r (log_bytes es)) in Hf.
  destruct (NewDiskEngine_spec log_path w es [] lk Hf Hfit El Hw) as [Hok _].
  destruct (Hok eq_refl) as (w' & kd & Hrun & Hc & _ & Hfaults & Hcalls & Hi). exists w', (opened_engine log_path kd).
  pose proof (next_call w w' Hfaults Hcalls Hcr) as Hnext. rewrite Hw in Hnext. destruct Hnext as [Hcr' Hrel].
  assert (disk_log (mkDisk (opened_engine log_path kd) w') (mkDiskLog (mkFile log_path false)) kd es []) as Hd.
  { split; [done|]. split; [done|]. split; [|by left]. rewrite app_nil_r. by split. }
  split; [done|]. split; [by eexists _, _, _, _|]. split; [by eapply disk_log_contents|done].
Qed.

(** what one process leaves is what the next one finds, if it can open it; it
    can, unless the first one died in the middle of a record *)
Lemma restart d (w : World) :
  usable d → files w = files (world d) → crashes w → faults w (calls w) = None →
  (TryLockContext (log_path ++ str ".lock") (locks w)).2 = inr true →
  match NewDiskEngine log_path w with
  | (w', Ok e) => usable (mkDisk e w') ∧ contents (mkDisk e w') = contents d ∧ (reliable w → steady (mkDisk e w'))
  | (_, Err _) => dead (world d)
  | (_, Panic _) => False
  end.
Proof.
  intros (l & kd & es & tail & Hd) Hw Hcr Hok Hl. pose proof (disk_log_contents _ _ _ _ _ Hd) as Hm.
  pose proof Hd as (Hn & Hfit & (_ & _ & Hf & _) & Htail). apply file_contents_files in Hf. rewrite Hn, <-Hw in Hf.
  destruct Htail as [[-> _]|[Htorn Hdead]].
  - rewrite app_nil_r in Hf. destruct (opens_usable w es Hf Hfit Hcr Hok Hl) as (w' & e & -> & ? & Hm' & ?).
    split; [done|]. split; [|done]. rewrite Hm'. symmetry. exact Hm.
  - destruct (TryLockContext (log_path ++ str ".lock") (locks w)) as [lk r] eqn:El. cbn in Hl. subst r.
    destruct (NewDiskEngine_spec log_path w es tail lk Hf Hfit El Hok) as [_ Herr].
    destruct (Herr Htorn) as (w' & err & ->). done.
Qed.

End laws.
