(* ===== verification/DiskCompact.v ===== *)
(** * Compaction

    The live records are copied to a temporary file, which then replaces the
    log.  Whatever calls fail, the data stays in the log or in its backup. *)

From S2P Require Import Prelude Bytes Types Engine Btree Os Disk DiskLog DiskRefine DiskOpen.

(** ** What each call may do to the files *)

Section calls.
Context `{Flock}.
Implicit Types (w : World).

Lemma os_Rename_cases a b w :
  match os_Rename a b w with
  | (w', Ok _) => ∃ c, files w !! a = Some c ∧ files w' = <[b := c]> (delete a (files w))
  | (w', Err _) => files w' = files w
  | (_, Panic _) => False
  end.
Proof.
  unfold os_Rename, syscall, untouched. destruct (faults w (calls w)); [done|].
  destruct (files w !! a) as [c|]; [by exists c|done].
Qed.

Lemma os_Remove_cases a w :
  match os_Remove a w with
  | (w', Ok _) => files w' = delete a (files w)
  | (w', Err _) => files w' = files w
  | (_, Panic _) => False
  end.
Proof. unfold os_Remove, syscall, untouched. destruct (faults w (calls w)); [done|]. by destruct (files w !! a). Qed.

Lemma os_Sync_files f w : files (os_Sync f w).1 = files w ∧ no_panic (os_Sync f w).2.
Proof. unfold os_Sync, syscall, untouched. destruct (closed f); [done|]. by destruct (faults w (calls w)). Qed.

Lemma os_Close_files f w : files (os_Close f w).1 = files w ∧ no_panic (os_Close f w).2.
Proof. unfold os_Close, syscall, untouched. destruct (closed f); [done|]. by destruct (faults w (calls w)). Qed.

(** opening a file that exists *)
Lemma newDisLog_cases name w :
  is_Some (files w !! name) →
  files (newDisLog name w).1 = files w ∧
  ((∃ err, (newDisLog name w).2 = Err err) ∨ (newDisLog name w).2 = Ok (mkDiskLog (mkFile name false))).
Proof.
  intros [c Hc]. unfold newDisLog, sbind, swrap, os_OpenFile, syscall, untouched.
  destruct (faults w (calls w)); cbn; [split; [done|left; by eexists]|]. rewrite Hc. by split; [|right].
Qed.

End calls.

Section compact.
Context `{Flock} `{BTree diskItem} `{!BTreeLaws lessDiskItem}.
Implicit Types (d : DiskState) (fs : gmap bytes bytes).

(** the log at [path] holds [m] *)
Definition data_at fs (path : bytes) (m : gmap bytes bytes) : Prop :=
  ∃ es, fs !! path = Some (log_bytes es) ∧ records_fit es ∧ replay es = m.

(** the data is in the log, or in the backup and there is no log *)
Definition safe (name backup : bytes) (m : gmap bytes bytes) fs : Prop :=
  data_at fs name m ∨ (fs !! name = None ∧ data_at fs backup m).

Lemma data_at_opens fs path m : data_at fs path m → opens_with path fs m.
Proof. intros (es & Hf & Hfit & <-). apply opens_with_log; [by rewrite Hf|done]. Qed.

Lemma data_at_ne fs fs' path m : fs' !! path = fs !! path → data_at fs path m → data_at fs' path m.
Proof. intros Hp (es & Hf & ?). exists es. by rewrite Hp. Qed.

(** ** Reasoning on code that changes files

    [triple m P Q E]: from an engine and files with [P], whatever calls fail,
    [m] returns with [Q], or fails with [E]; it does not panic, and keeps the
    engine's lock. *)

Definition assertion : Type := DiskEngine → gmap bytes bytes → Prop.
Implicit Types (P Q F E : assertion).

Definition triple {A} (m : ST DiskState A) P (Q : A → assertion) E : Prop :=
  ∀ d, P (engine d) (files (world d)) →
    fileLock (engine (m d).1) = fileLock (engine d) ∧
    match m d with
    | (d', Ok a) => Q a (engine d') (files (world d'))
    | (d', Err _) => E (engine d') (files (world d'))
    | (_, Panic _) => False
    end.

Lemma t_bind {A B} (m : ST DiskState A) (f : A → ST DiskState B) P (R : A → assertion) (Q : B → assertion) E :
  triple m P R E → (∀ a, triple (f a) (R a) Q E) → triple (sbind m f) P Q E.
Proof.
  intros Hm Hf d Hd. destruct (Hm d Hd) as [Hl Hd']. unfold sbind.
  destruct (m d) as [d' [a|e|p]]; [|done..]. rewrite <-Hl. by apply Hf.
Qed.

Lemma t_mono {A} (m : ST DiskState A) (P P' : assertion) (Q Q' : A → assertion) (E E' : assertion) :
  triple m P' Q' E' → (∀ e fs, P e fs → P' e fs) → (∀ a e fs, Q' a e fs → Q a e fs) →
  (∀ e fs, E' e fs → E e fs) → triple m P Q E.
Proof.
  intros Hm HP HQ HE d Hd. destruct (Hm d (HP _ _ Hd)) as [Hl Hd']. split; [done|].
  destruct (m d) as [d' [a|e|p]]; auto.
Qed.

(** a fact that the precondition gives *)
Lemma t_pure {A} (φ : Prop) (m : ST DiskState A) P (Q : A → assertion) E :
  (∀ e fs, P e fs → φ) → (φ → triple m P Q E) → triple m P Q E.
Proof. intros Hφ Hm d Hd. apply Hm; eauto. Qed.

(** the caller goes on with the outcome *)
Lemma t_try {A B} (m : ST DiskState A) (f : result A → ST DiskState B) P (R : A → assertion) F (Q : B → assertion) E :
  triple m P R F → (∀ a, triple (f (Ok a)) (R a) Q E) → (∀ err, triple (f (Err err)) F Q E) →
  triple (sbind (sattempt m) f) P Q E.
Proof.
  intros Hm Hok Herr d Hd. destruct (Hm d Hd) as [Hl Hd']. unfold sbind, sattempt.
  destruct (m d) as [d' [a|e|p]]; [rewrite <-Hl; by apply Hok|rewrite <-Hl; by apply Herr|done].
Qed.

Lemma t_wrap {A} (msg : string) (m : ST DiskState A) P (Q : A → assertion) E : triple m P Q E → triple (swrap msg m) P Q E.
Proof. intros Hm d Hd. destruct (Hm d Hd) as [Hl Hd']. unfold swrap. by destruct (m d) as [d' [a|e|p]]. Qed.

Lemma t_lift {A} (r : result A) P (Q : A → assertion) E :
  match r with
  | Ok a => ∀ e fs, P e fs → Q a e fs
  | Err _ => ∀ e fs, P e fs → E e fs
  | Panic _ => ∀ e fs, ¬ P e fs
  end → triple (slift r) P Q E.
Proof. intros Hr d Hd. split; [done|]. unfold slift. destruct r; [by apply Hr..|by eapply Hr]. Qed.

(** a read that succeeds *)
Lemma t_read {A} (f : DiskState → result A) a P (Q : A → assertion) E :
  (∀ d, P (engine d) (files (world d)) → f d = Ok a ∧ Q a (engine d) (files (world d))) →
  triple (sread f) P Q E.
Proof. intros Hf d Hd. split; [done|]. unfold sread. by destruct (Hf d Hd) as [-> ?]. Qed.

(** an outcome that says nothing of the state *)
Lemma t_report {A} (r : result A) P Q : no_panic r → (∀ e fs, P e fs → Q e fs) → triple (slift r) P (λ _, Q) Q.
Proof. intros Hr HQ. apply t_lift. by destruct r. Qed.

(** an error, joined with the outcome of the clean-up *)
Lemma t_Join err r P (Q : unit → assertion) E :
  no_panic r → (∀ e fs, P e fs → E e fs) → triple (slift (errors_Join (Err err) r)) P Q E.
Proof. intros Hr HE. apply t_lift. by destruct r. Qed.

Lemma t_modify f P (Q : unit → assertion) E :
  (∀ e, fileLock (f e) = fileLock e) → (∀ e fs, P e fs → Q () (f e) fs) → triple (modify f) P Q E.
Proof. intros Hf HQ d Hd. split; [apply Hf|by apply HQ]. Qed.

Lemma t_world {A} (m : ST World A) P (Q : A → assertion) E :
  (∀ e w, P e (files w) →
    match m w with
    | (w', Ok a) => Q a e (files w')
    | (w', Err _) => E e (files w')
    | (_, Panic _) => False
    end) → triple (on_world m) P Q E.
Proof.
  intros Hm d Hd. specialize (Hm _ _ Hd). unfold on_world. by destruct (m (world d)) as [w [a|e|p]].
Qed.

Lemma t_rename a b P E :
  (∀ e fs, P e fs → E e fs) →
  triple (on_world (os_Rename a b)) P
    (λ _ e fs, ∃ fs0 c, P e fs0 ∧ fs0 !! a = Some c ∧ fs = <[b := c]> (delete a fs0)) E.
Proof.
  intros HE. apply t_world. intros e w Hd. pose proof (os_Rename_cases a b w) as Hr.
  destruct (os_Rename a b w) as [w' [u|err|p]]; [|rewrite Hr; by apply HE|done].
  destruct Hr as (c & Hc & Hw). by exists (files w), c.
Qed.

Lemma t_remove a P E :
  (∀ e fs, P e fs → E e fs) →
  triple (on_world (os_Remove a)) P (λ _ e fs, ∃ fs0, P e fs0 ∧ fs = delete a fs0) E.
Proof.
  intros HE. apply t_world. intros e w Hd. pose proof (os_Remove_cases a w) as Hr.
  destruct (os_Remove a w) as [w' [u|err|p]]; [|rewrite Hr; by apply HE|done]. by eexists.
Qed.

Lemma t_sync f P E : (∀ e fs, P e fs → E e fs) → triple (on_world (os_Sync f)) P (λ _, P) E.
Proof.
  intros HE. apply t_world. intros e w Hd. destruct (os_Sync_files f w) as [Hf Hn].
  destruct (os_Sync f w) as [w' [u|err|p]]; cbn in *; rewrite ?Hf; auto.
Qed.

Lemma t_close f P E : (∀ e fs, P e fs → E e fs) → triple (on_world (os_Close f)) P (λ _, P) E.
Proof.
  intros HE. apply t_world. intros e w Hd. destruct (os_Close_files f w) as [Hf Hn].
  destruct (os_Close f w) as [w' [u|err|p]]; cbn in *; rewrite ?Hf; auto.
Qed.

Lemma t_open name P E :
  (∀ e fs, P e fs → is_Some (fs !! name)) → (∀ e fs, P e fs → E e fs) →
  triple (on_world (newDisLog name)) P (λ l e fs, l = mkDiskLog (mkFile name false) ∧ P e fs) E.
Proof.
  intros Hex HE. apply t_world. intros e w Hd. destruct (newDisLog_cases name w (Hex _ _ Hd)) as [Hf Hr].
  destruct (newDisLog name w) as [w' r]. cbn [fst snd] in *.
  destruct Hr as [[err ->]| ->]; rewrite ?Hf; auto.
Qed.

Lemma t_create_temp `{TempNames} name P E :
  (∀ e fs, P e fs → E e fs) →
  triple (on_world (os_CreateTemp name)) P
    (λ f e fs, ∃ fs0, P e fs0 ∧ f = mkFile (temp_path name fs0) false ∧ fs = <[temp_path name fs0 := []]> fs0) E.
Proof.
  intros HE. apply t_world. intros e w Hd. unfold os_CreateTemp, syscall, untouched.
  destruct (faults w (calls w)); cbn; [auto|]. by exists (files w).
Qed.

(** [defer os.Remove(a)] *)
Lemma t_defer_remove {A} a (m : ST DiskState A) P (Q : A → assertion) E :
  triple m P Q E → (∀ b e fs, Q b e fs → Q b e (delete a fs)) → (∀ e fs, E e fs → E e (delete a fs)) →
  triple (sdefer (on_world (os_Remove a)) m) P Q E.
Proof.
  intros Hm HQ HE d Hd. destruct (Hm d Hd) as [Hl Hd']. unfold sdefer, on_world.
  destruct (m d) as [d' r]. pose proof (os_Remove_cases a (world d')) as Hr.
  destruct (os_Remove a (world d')) as [w [u|err|p]]; cbn in *; [| |done]; (split; [done|]);
    destruct r; try done; rewrite Hr; auto.
Qed.

Lemma Join_no_panic a b : no_panic a → no_panic b → no_panic (errors_Join a b).
Proof. by destruct a, b. Qed.

(** ** Putting the original log back *)

Section files.
Context (name backup : bytes) (m : gmap bytes bytes) (Hne : name ≠ backup).

Definition at_name : assertion := λ _ fs, data_at fs name m.
Definition is_safe : assertion := λ _ fs, safe name backup m fs.

Lemma data_exists fs : data_at fs name m → is_Some (fs !! name).
Proof. intros (es & -> & _). by eexists. Qed.

Lemma t_reopen P : (∀ e fs, P e fs → data_at fs name m) → triple (reopen name) P (λ _, at_name) at_name.
Proof.
  intros HP. unfold reopen. eapply t_bind.
  - apply (t_open name P at_name); [|done]. intros e fs Hfs. by apply data_exists, (HP e).
  - intros l. apply t_modify; [done|]. intros e fs [_ Hfs]. by apply HP in Hfs.
Qed.

Lemma rename_back fs c : data_at fs backup m → fs !! backup = Some c → data_at (<[name := c]> (delete backup fs)) name m.
Proof. intros (es & Hes & Hfit & Hm) Hc. exists es. rewrite lookup_insert_eq. split; [congruence|done]. Qed.

Lemma restoreOriginal_safe :
  triple (restoreOriginal name backup) (λ _ fs, data_at fs backup m ∧ (fs !! name = None ∨ data_at fs name m))
    (λ _, is_safe) is_safe.
Proof.
  unfold restoreOriginal. set (P := λ (_ : DiskEngine) fs, data_at fs backup m ∧ (fs !! name = None ∨ data_at fs name m)).
  assert (∀ removeErr, no_panic removeErr → triple
    (let! renameErr := sattempt (on_world (os_Rename backup name)) in
     match renameErr with
     | Ok _ => let! reopenErr := sattempt (reopen name) in slift (errors_Join removeErr reopenErr)
     | _ => slift (errors_Join removeErr renameErr)
     end) P (λ _, is_safe) is_safe) as Hrest.
  { intros removeErr Hn. eapply (t_try _ _ _ _ P); [by apply (t_rename backup name P)|intros []|intros err].
    - eapply (t_try _ _ _ (λ _, at_name) at_name).
      + apply t_reopen. intros e fs (fs0 & c & [Hb _] & Hc & ->). by apply rename_back.
      + intros []. apply t_report; [by apply Join_no_panic|]. by left.
      + intros err. apply t_report; [by apply Join_no_panic|]. by left.
    - apply t_report; [by apply Join_no_panic|]. intros e fs [Hb [Hn'|Hn']]; [by right|by left]. }
  eapply (t_try _ _ _ (λ _, P) P).
  - eapply t_mono; [apply (t_remove name P P); auto|done| |done].
    intros [] e fs (fs0 & [Hb _] & ->). split; [|left; apply lookup_delete_eq].
    eapply data_at_ne; [|done]. by rewrite lookup_delete_ne.
  - intros []. by apply Hrest.
  - intros err. apply Hrest. by destruct (errors_is ErrNotExist err).
Qed.

End files.

(** ** Copying the live records *)

(** the records of a map, each once, in the order of the keys *)
Definition live (m : gmap bytes bytes) : list record := map (λ p, (p.1, Some p.2)) (sorted_entries m).

Lemma replay_some (l : list (bytes * bytes)) m :
  NoDup l.*1 → foldl apply_record m (map (λ p, (p.1, Some p.2)) l) = list_to_map l ∪ m.
Proof.
  revert m. induction l as [|[k v] l IH]; intros m; cbn; [by rewrite (left_id_L ∅ (∪))|].
  intros [Hk Hl]%NoDup_cons. rewrite IH by done. unfold apply_record. cbn.
  rewrite <-insert_union_r by by apply not_elem_of_list_to_map_1. by rewrite insert_union_l.
Qed.

Lemma replay_live m : replay (live m) = m.
Proof.
  unfold replay, live. rewrite replay_some by apply NoDup_sorted_keys. rewrite (right_id_L ∅ (∪)).
  unfold sorted_entries. rewrite (list_to_map_proper _ (map_to_list m)); [apply list_to_map_to_list|
    |by rewrite merge_sort_Permutation]. rewrite merge_sort_Permutation. apply NoDup_fst_map_to_list.
Qed.

Section copy.
Context (name temp : bytes) (m : gmap bytes bytes) (es : list record) (kd0 : BTreeG diskItem).
Hypothesis temp_name : temp ≠ name.
Hypothesis es_fit : records_fit es.
Hypothesis es_m : replay es = m.
Hypothesis kd0_indexes : indexes kd0 (log_bytes es) m.

Definition the_log : diskLog := mkDiskLog (mkFile name false).
Definition copied (items : list diskItem) : list record := map (λ it, (key it, Some (default [] (m !! key it)))) items.

(** the engine on its log, and [items] copied so far *)
Definition copying (items : list diskItem) (nk : BTreeG diskItem) : assertion := λ e fs,
  log e = Some the_log ∧ keydir e = Some kd0 ∧ fs !! name = Some (log_bytes es) ∧
  fs !! temp = Some (log_bytes (copied items)) ∧ records_fit (copied items) ∧
  indexes nk (log_bytes (copied items)) (replay (copied items)).

Lemma copied_live : copied (Ascend kd0) = live m.
Proof.
  unfold copied, live. rewrite <-(indexes_records _ _ _ kd0_indexes), map_map. done.
Qed.

Lemma copying_at_name items nk e fs : copying items nk e fs → at_name name m e fs.
Proof. intros (_ & _ & Hn & _). by exists es. Qed.

Lemma open_contents fs path c (w : World) :
  files w = fs → fs !! path = Some c → file_contents (mkFile path false) w = Ok c.
Proof. intros <- Hc. unfold file_contents. cbn. by rewrite Hc. Qed.

Lemma append_other path data fs p : p ≠ path → append_file path data fs !! p = fs !! p.
Proof. intros Hp. unfold append_file. by rewrite lookup_alter_ne. Qed.

Lemma t_rewrite_item items nk it :
  it ∈ Ascend kd0 →
  triple (rewrite_item the_log (mkDiskLog (mkFile temp false)) nk it)
    (copying items nk) (copying (items ++ [it])) (at_name name m).
Proof.
  intros Hin. unfold rewrite_item. destruct (idx_item _ _ _ kd0_indexes it Hin) as (v & Hv & Hs).
  eapply (t_bind _ _ _ (λ a e fs, a = v ∧ copying items nk e fs)).
  { apply t_wrap, (t_read _ v). intros d (Hl & Hk & Hn & Hrest). split; [|done].
    eapply readLogValue_spec; [|exact Hs]. by eapply open_contents. }
  intros a. apply (t_pure (a = v)); [by intros ?? [-> _]|]. intros ->.
  eapply (t_bind _ _ _ (λ pos e fs, copying (items ++ [it]) (ReplaceOrInsert (mkItem (key it) pos) nk) e fs));
    [|intros pos; by apply t_lift].
  apply t_wrap, t_world. intros e w [_ (Hl & Hk & Hn & Ht & Hfit & Hi)].
  pose proof (writeEntry_spec (mkDiskLog (mkFile temp false)) (key it) (Some v) w
    (log_bytes (copied items)) ltac:(by eapply open_contents)) as Hw.
  rewrite bool_decide_eq_false_2 in Hw by done. change (sbytes (Some v)) with v in Hw.
  assert (entry_fits (key it) (Some v)) as Hf by apply Hs.
  unfold write_outcome in Hw. rewrite decide_True in Hw by done. cbn [file fname] in Hw.
  destruct (faults w (calls w)) as [n|].
  - destruct Hw as (err & ->). exists es. cbn. rewrite append_other by done. done.
  - rewrite Hw. unfold copying. cbn [files appended]. rewrite append_other by done.
    unfold copied. rewrite map_app. cbn [map]. fold (copied items). rewrite Hv. cbn [default].
    rewrite log_bytes_snoc, replay_snoc. cbn [fst snd].
    split; [done|]. split; [done|]. split; [done|]. unfold append_file. rewrite lookup_alter_eq, Ht. split; [done|].
    split; [by apply records_fit_snoc|]. cbn. apply indexes_insert; [by apply indexes_app|by apply stored_new].
Qed.

Lemma t_rewrite items items0 nk :
  (∀ it, it ∈ items → it ∈ Ascend kd0) →
  triple (sfoldl (rewrite_item the_log (mkDiskLog (mkFile temp false))) nk items)
    (copying items0 nk) (copying (items0 ++ items)) (at_name name m).
Proof.
  revert items0 nk. induction items as [|it items IH]; intros items0 nk Hin; cbn [sfoldl].
  - rewrite app_nil_r. by apply t_lift.
  - eapply t_bind; [apply t_rewrite_item; set_solver|]. intros nk'.
    specialize (IH (items0 ++ [it]) nk' ltac:(set_solver)). by rewrite <-app_assoc in IH.
Qed.

(** ** Replacing the log *)

Notation backup := (temp ++ str ".old").
Hypothesis backup_name : name ≠ backup.

Lemma backup_temp : temp ≠ backup.
Proof. intros Heq%(f_equal length). rewrite length_app in Heq. cbn in Heq. lia. Qed.

Definition installed : assertion := λ e fs,
  log e = Some the_log ∧ fs !! name = Some (log_bytes (live m)) ∧ records_fit (live m) ∧
  ∃ kd, keydir e = Some kd ∧ indexes kd (log_bytes (live m)) m.

(** both logs, wherever they are *)
Definition logs (orig new : bytes) : assertion := λ _ fs,
  fs !! orig = Some (log_bytes es) ∧ fs !! new = Some (log_bytes (live m)).

Lemma logs_at orig new e fs : logs orig new e fs → data_at fs orig m.
Proof. intros [Ho _]. by exists es. Qed.

Lemma logs_new orig new e fs : records_fit (live m) → logs orig new e fs → data_at fs new m.
Proof. intros Hfit [_ Hn]. exists (live m). by rewrite replay_live. Qed.

Lemma install_safe nk :
  records_fit (live m) → indexes nk (log_bytes (live m)) m →
  triple (install name temp nk) (λ e fs, log e = Some the_log ∧ logs name temp e fs)
    (λ _, installed) (is_safe name backup m).
Proof.
  intros Hfit Hnk. pose proof backup_temp as Hbt. unfold install.
  eapply (t_bind _ _ _ (λ _, logs name temp)).
  { apply t_wrap. unfold close_engine_log.
    eapply (t_bind _ _ _ (λ l e fs, logs name temp e fs));
      [apply (t_read _ the_log); intros d [Hl Hd]; unfold ensureOpen; by rewrite Hl|].
    intros l. eapply (t_bind _ _ _ (λ _, logs name temp)); [by apply t_modify|].
    intros []. apply t_close. intros e fs Hd. left. by eapply logs_at. }
  intros []. eapply (t_try _ _ _ (λ _ e fs, fs !! name = None ∧ logs backup temp e fs) (logs name temp)).
  { eapply t_mono; [by apply (t_rename name backup (logs name temp))|done| |done].
    intros [] e fs (fs0 & c & [Hn Ht] & Hc & ->). rewrite Hn in Hc. injection Hc as <-. unfold logs.
    rewrite lookup_insert_eq, !lookup_insert_ne, lookup_delete_eq, lookup_delete_ne by done. done. }
  - intros []. eapply (t_try _ _ _ (λ _, logs backup name) (λ e fs, fs !! name = None ∧ logs backup temp e fs)).
    { eapply t_mono; [apply (t_rename temp name (λ e fs, fs !! name = None ∧ logs backup temp e fs)
        (λ e fs, fs !! name = None ∧ logs backup temp e fs)); auto|done| |done].
      intros [] e fs (fs0 & c & (_ & Hb & Ht) & Hc & ->). rewrite Ht in Hc. injection Hc as <-. unfold logs.
      rewrite lookup_insert_eq, !lookup_insert_ne, lookup_delete_ne by done. done. }
    + intros []. eapply (t_try _ _ _ (λ l e fs, l = the_log ∧ logs backup name e fs) (logs backup name)).
      { apply t_open; [|done]. intros e fs [_ ->]. by eexists. }
      * intros l. eapply (t_bind _ _ _ (λ _ e fs, installed e fs ∧ logs backup name e fs)).
        -- apply t_modify; [done|]. intros e fs [-> [Hb Hn]]. split; [|done].
           split; [done|]. split; [done|]. split; [done|]. by exists nk.
        -- intros []. apply t_wrap. eapply t_mono; [apply (t_remove backup
             (λ e fs, installed e fs ∧ logs backup name e fs) (is_safe name backup m))|done| |done].
           ++ intros e fs [_ Hd]. left. by eapply logs_new.
           ++ intros [] e fs (fs0 & [(Hl & Hn & Hrest) _] & ->). split; [done|].
              rewrite lookup_delete_ne by done. done.
      * intros err. eapply (t_try _ _ _ (λ _, is_safe name backup m) (is_safe name backup m)).
        -- eapply t_mono; [by apply restoreOriginal_safe|..|done]; [|done].
           intros e fs Hd. split; [by eapply logs_at|right; by eapply logs_new].
        -- intros []. by apply t_Join.
        -- intros err'. by apply t_Join.
    + intros err. eapply (t_try _ _ _ (λ _, is_safe name backup m) (is_safe name backup m)).
      * eapply t_mono; [by apply restoreOriginal_safe|..|done]; [|done].
        intros e fs [Hn Hd]. split; [by eapply logs_at|by left].
      * intros []. by apply t_Join.
      * intros err'. by apply t_Join.
  - intros err. eapply (t_try _ _ _ (λ _, at_name name m) (at_name name m)).
    + apply t_reopen. intros e fs Hd. by eapply logs_at.
    + intros []. apply t_Join; [done|]. by left.
    + intros err'. apply t_Join; [done|]. by left.
Qed.

End copy.

(** ** The whole of it *)

Definition safe_somewhere (name : bytes) (m : gmap bytes bytes) : assertion := λ _ fs,
  ∃ backup, backup ≠ name ∧ safe name backup m fs.

Lemma compact_safe `{TempNames} name es kd m :
  records_fit es → replay es = m → indexes kd (log_bytes es) m →
  triple compact
    (λ e fs, log e = Some (the_log name) ∧ keydir e = Some kd ∧ fs !! name = Some (log_bytes es))
    (λ _, installed name m) (safe_somewhere name m).
Proof.
  intros Hfit Hes Hkd. set (P := λ e fs, _). unfold compact.
  assert (∀ e fs, P e fs → data_at fs name m) as Hdata by (intros e fs (_ & _ & Hn); by exists es).
  assert (∀ fs, data_at fs name m → ∃ backup, backup ≠ name ∧ safe name backup m fs) as Hany.
  { intros fs Hd. destruct (temp_other name fs) as [Ht _]. exists (temp_path name fs). split; [done|by left]. }
  eapply (t_bind _ _ _ (λ l e fs, l = the_log name ∧ P e fs)).
  { apply (t_read _ (the_log name)). intros d Hd. pose proof Hd as (Hl & _). unfold ensureOpen. by rewrite Hl. }
  intros l. apply (t_pure (l = the_log name)); [by intros ?? [-> _]|]. intros ->. cbn [file fname the_log].
  eapply t_bind.
  { apply t_wrap, (t_create_temp name _ (safe_somewhere name m)). intros e fs [_ Hd]. apply Hany. by eapply Hdata. }
  intros f. cbn beta.
  apply (t_pure (∃ temp, f = mkFile temp false ∧ temp ≠ name ∧ temp ++ str ".old" ≠ name)).
  { intros e fs (fs0 & _ & -> & _). eexists. split; [done|]. apply temp_other. }
  intros (temp & -> & Htemp & Hold). cbn [fname].
  eapply (t_mono _ _ (copying name temp m es kd [] (NewG lessDiskItem)) _ (λ _, installed name m) _
    (is_safe name (temp ++ str ".old") m)).
  - apply t_defer_remove; [| |].
    + eapply (t_bind _ _ _ (λ k e fs, k = kd ∧ copying name temp m es kd [] (NewG lessDiskItem) e fs)).
      { apply (t_read _ kd). intros d Hd. pose proof Hd as (_ & Hk & _). unfold the_keydir. by rewrite Hk. }
      intros k. apply (t_pure (k = kd)); [by intros ?? [-> _]|]. intros ->.
      eapply (t_bind _ _ _ (λ nk, copying name temp m es kd (Ascend kd) nk)).
      { eapply t_mono; [apply (t_rewrite name temp m es kd Htemp Hfit Hes Hkd (Ascend kd) []); done|..].
        - by intros e fs [_ ?].
        - done.
        - intros e fs Hd. by left. }
      intros nk.
      assert (∀ e fs, copying name temp m es kd (Ascend kd) nk e fs → is_safe name (temp ++ str ".old") m e fs) as Hsafe.
      { intros e fs Hd. left. by eapply (copying_at_name name temp m es kd). }
      eapply (t_bind _ _ _ (λ _, copying name temp m es kd (Ascend kd) nk)); [by apply t_wrap, t_sync|]. intros [].
      eapply (t_bind _ _ _ (λ _, copying name temp m es kd (Ascend kd) nk)); [by apply t_wrap, t_close|]. intros [].
      apply (t_pure (records_fit (live m) ∧ indexes nk (log_bytes (live m)) m)).
      { intros e fs (_ & _ & _ & _ & Hf & Hi). rewrite (copied_live m es kd Hkd) in *. by rewrite replay_live in Hi. }
      intros [Hf Hi]. eapply t_mono; [by apply (install_safe name temp m es Htemp Hfit Hes)|..|done]; [|done].
      intros e fs (Hl & _ & Hn & Ht & _). rewrite (copied_live m es kd Hkd) in Ht. done.
    + intros [] e fs (Hl & Hn & Hrest). split; [done|]. by rewrite lookup_delete_ne.
    + intros e fs Hd. pose proof (backup_temp temp) as Hbt. destruct Hd as [Hd|[Hn Hd]]; [left|right].
      * eapply data_at_ne; [|done]. by rewrite lookup_delete_ne.
      * rewrite lookup_delete_ne by done. split; [done|]. eapply data_at_ne; [|done]. by rewrite lookup_delete_ne.
  - intros e fs (fs0 & [_ (Hl & Hk & Hn)] & [= ->] & ->). unfold copying. cbn.
    rewrite lookup_insert_ne, lookup_insert_eq by done.
    split; [done|]. split; [done|]. split; [done|]. split; [done|]. split; [constructor|apply indexes_empty].
  - done.
  - intros e fs Hd. by exists (temp ++ str ".old").
Qed.

(** opening a log that exists, whatever calls fail *)
Lemma NewDiskEngine_cases name es (w : World) :
  files w !! name = Some (log_bytes es) → records_fit es →
  match NewDiskEngine name w with
  | (w', Ok e) => ∃ kd, e = opened_engine name kd ∧ files w' = files w ∧ indexes kd (log_bytes es) (replay es)
  | (w', Err _) => files w' = files w
  | (_, Panic _) => False
  end.
Proof.
  intros Hf Hfit. unfold NewDiskEngine. unfold sbind at 1, swrap at 1, on_locks at 1.
  destruct (TryLockContext _ (locks w)) as [lk [err|[]]]; cbn [returned rwrap negb]; [done| |done].
  unfold sbind at 1, sattempt at 1. set (w0 := mkWorld (files w) (calls w) (faults w) lk).
  destruct (newDisLog_cases name w0) as [Hf0 Hr]; [by exists (log_bytes es)|].
  destruct (newDisLog name w0) as [w1 r]. cbn [fst snd files w0] in Hf0, Hr. destruct Hr as [[err ->]| ->].
  - unfold sbind, sattempt, on_locks, sthrow. destruct (Unlock _ (locks w1)) as [lk' [e|[]]]; cbn; by rewrite Hf0.
  - assert (file_contents (mkFile name false) w1 = Ok (log_bytes es ++ [])) as Hc.
    { unfold file_contents. cbn. by rewrite Hf0, Hf, app_nil_r. }
    destruct (rebuildKeydir_spec (mkDiskLog (mkFile name false)) w1 (Some (name ++ str ".lock")) es [] Hc Hfit)
      as [Hok _]. destruct (Hok eq_refl) as (kd & -> & Hi). cbn. by exists kd.
Qed.

Lemma Close_files d :
  (is_Some (log (engine d)) → is_Some (fileLock (engine d))) →
  ∃ d' r, sattempt Close d = (d', Ok r) ∧ files (world d') = files (world d) ∧ no_panic r.
Proof.
  intros Hlock. unfold sattempt, Close. destruct (log (engine d)) as [l|]; [|by exists d, (Ok ())].
  destruct (Hlock ltac:(by eexists)) as [lock Hl]. unfold sbind at 1, sattempt at 1, on_world at 1, close_log.
  destruct (os_Close_files (file l) (world d)) as [Hf Hn]. destruct (os_Close (file l) (world d)) as [w r].
  cbn [fst snd] in *. destruct r as [[]|err|p]; [| |done].
  all: unfold sbind, sread, modify, sattempt, on_world, on_locks, slift; cbn [engine fileLock]; rewrite Hl; cbn;
    destruct (Unlock lock (locks w)) as [lk [e|[]]]; cbn; by eexists _, _.
Qed.

Lemma NewDiskEngineCompact_safe `{TempNames} name es (w : World) :
  files w !! name = Some (log_bytes es) → records_fit es →
  match NewDiskEngineCompact name w with
  | (w', Ok e) => installed name (replay es) e (files w')
  | (w', Err _) => ∃ backup, backup ≠ name ∧ safe name backup (replay es) (files w')
  | (_, Panic _) => False
  end.
Proof.
  intros Hf Hfit. unfold NewDiskEngineCompact. pose proof (NewDiskEngine_cases name es w Hf Hfit) as Hopen.
  assert (data_at (files w) name (replay es)) as Hdata by by exists es.
  destruct (NewDiskEngine name w) as [w1 [e|err|p]]; [| |done].
  2:{ rewrite Hopen. destruct (temp_other name (files w)) as [Ht _]. eexists. split; [exact Ht|by left]. }
  destruct Hopen as (kd & -> & Hf1 & Hi). rewrite <-Hf1 in Hf.
  destruct (compact_safe name es kd (replay es) Hfit eq_refl Hi (mkDisk (opened_engine name kd) w1)
    (conj eq_refl (conj eq_refl Hf))) as [Hlock Hc].
  destruct (compact _) as [d [[]|err|p]]; [done| |done]. cbn [fst] in Hlock.
  destruct (Close_files d) as (d' & r & -> & Hf' & Hn); [rewrite Hlock; by eexists|].
  destruct Hc as (backup & Hb & Hs). rewrite <-Hf' in Hs. destruct r; cbn; [by exists backup..|done].
Qed.

Lemma installed_clean name es e (w : World) :
  installed name (replay es) e (files w) → clean (mkDisk e w) (live (replay es)).
Proof.
  intros (Hl & Hf & Hfit & kd & Hk & Hi). exists (the_log name), kd. split; [|done]. split; [done|]. split; [done|].
  rewrite replay_live. split; [|done]. unfold file_contents. cbn. by rewrite Hf.
Qed.

End compact.
