(* ===== verification/DiskSamples.v ===== *)
(** * A disk to try the engine on

    A lock that is always free, a sorted list for the index, and temporary
    files whose names are longer than every other name. *)

From S2P Require Import Prelude Bytes Types Engine Btree Os Disk DiskLog DiskRefine DiskOpen DiskCompact.

#[export] Instance free_locks : Flock := {|
  FlockState := unit;
  TryLockContext _ s := (s, inr true);
  Unlock _ s := (s, inr tt);
|}.

#[export] Existing Instance list_btree | 100.
#[export] Existing Instance list_disk_btree_laws.

Definition names_length (fs : gmap bytes bytes) : nat := foldr (λ e n, length e.1 + n)%nat 0%nat (map_to_list fs).
Definition longer_path (path : bytes) (fs : gmap bytes bytes) : bytes :=
  path ++ str ".compact-" ++ replicate (names_length fs) Byte.x30.

Lemma names_length_lookup (fs : gmap bytes bytes) name c : fs !! name = Some c → (length name ≤ names_length fs)%nat.
Proof.
  intros Hn%elem_of_map_to_list. unfold names_length. induction (map_to_list fs) as [|e es IH]; [by apply elem_of_nil in Hn|].
  apply elem_of_cons in Hn as [<-|Hn]; cbn; [lia|]. specialize (IH Hn). lia.
Qed.

#[export] Program Instance longer_names : TempNames := {| temp_path := longer_path |}.
Next Obligation.
  intros path fs. destruct (fs !! longer_path path fs) as [c|] eqn:E; [|done].
  apply names_length_lookup in E. unfold longer_path in E. rewrite !length_app, length_replicate in E. cbn in E. lia.
Qed.
Next Obligation.
  intros path fs. split; intros Heq%(f_equal length); unfold longer_path in Heq; rewrite !length_app in Heq; cbn in Heq; lia.
Qed.

(** a log with two records, and a deleted one *)
Definition name : bytes := str "db".
Definition es : list record := [(str "a", Some (str "1")); (str "b", Some (str "2")); (str "a", None)].

(** a process on that log; its calls fail from the [n]-th on *)
Definition process (n : nat) : World :=
  mkWorld {[ name := log_bytes es ]} 0 (λ i, if decide (i < n)%nat then None else Some 0%nat) tt.
(** one whose calls succeed, but for the [n]-th *)
Definition process_but (n torn : nat) : World :=
  mkWorld {[ name := log_bytes es ]} 0 (λ i, if decide (i = n)%nat then Some torn else None) tt.

Lemma es_fit : records_fit es.
Proof. repeat (apply List.Forall_cons; [by split|]). constructor. Qed.

Definition opened (w : World) : DiskState :=
  match NewDiskEngine name w with
  | (w, Ok e) => mkDisk e w
  | (w, _) => mkDisk (mkDiskEngine None None None) w
  end.

Lemma opened_clean n torn : (0 < n)%nat → clean (opened (process_but n torn)) es.
Proof.
  intros Hn. unfold opened.
  destruct (NewDiskEngine_spec name (process_but n torn) es [] tt) as [Hok _].
  - cbn [process_but files]. rewrite app_nil_r. by rewrite lookup_singleton_eq.
  - exact es_fit.
  - done.
  - cbn. destruct n; [lia|done].
  - destruct (Hok eq_refl) as (w' & kd & -> & Hc & _ & _ & _ & Hi). eexists _, kd. split; [|exact es_fit].
    split; [done|]. split; [done|]. by split.
Qed.
