(* ===== verification/Durability.v ===== *)
(** * Databases on disk outlive their processes

    A process opens the log, runs a script of statements and ends, or dies
    during any of its calls to the system.  The next process opens what is
    left of the log, or refuses to.  The database is always the one the
    acknowledged statements made. *)

From S2P Require Import Prelude Bytes Types Engine Btree Os Disk DiskLog DiskRefine DiskOpen DiskLaws.
From S2P Require Import Schema Transaction Executor Json Relation Kv KvRefine KvMvcc Session Execute Scripts.

Section durability.
Context `{Flock} `{BTree diskItem} `{!BTreeLaws lessDiskItem} `{!LogPath}.
Context `{!Json} `{!JsonLaws} `{!MapOrder}.
Implicit Types (d : reldb).

(** a process: which of its calls fail, the locks it finds, its statements *)
Record process := mkProcess {
  process_faults : nat → option nat;
  process_locks : FlockState;
  process_script : list bytes;
}.

(** the files a process leaves, and the statements it ran with their results *)
Definition run_process (p : process) (fs : gmap bytes bytes) : gmap bytes bytes * list (bytes * result ResultSet) :=
  match NewDiskEngine log_path (mkWorld fs 0 (process_faults p) (process_locks p)) with
  | (w, Ok e) =>
      let '(D, rs) := run_statements (process_script p) (mkDisk e w) in
      (files (world D), zip (process_script p) rs)
  | (w, _) => (files w, [])
  end.

Fixpoint run_processes (ps : list process) (fs : gmap bytes bytes)
    : gmap bytes bytes * list (bytes * result ResultSet) :=
  match ps with
  | [] => (fs, [])
  | p :: ps =>
      let '(fs, ran) := run_process p fs in
      let '(fs, later) := run_processes ps fs in
      (fs, ran ++ later)
  end.

(** ** Opening whatever is there *)

Lemma unlocked_files {A} lock err (w : World) :
  ∃ w' err', (sattempt (on_locks (Unlock lock)) ;;! @sthrow World A err) w = (w', Err err') ∧ files w' = files w.
Proof.
  unfold sbind, sattempt, on_locks, sthrow. destruct (Unlock lock (locks w)) as [lk [e|[]]]; by eexists _, _.
Qed.

Lemma abandoned_files {A} l lock err (w : World) :
  ∃ w' err', (sattempt (close_log l) ;;! sattempt (on_locks (Unlock lock)) ;;! @sthrow World A err) w = (w', Err err') ∧
    files w' = files w.
Proof.
  unfold sbind at 1, sattempt at 1, close_log, os_Close. destruct (closed (file l)); [apply unlocked_files|].
  unfold syscall. destruct (faults w (calls w)); destruct (@unlocked_files A lock err
    (mkWorld (files w) (S (calls w)) (faults w) (locks w))) as (w' & err' & Hr & Hf); by exists w', err'.
Qed.

(** nothing keeps the process from opening the log *)
Definition unobstructed (w : World) : Prop :=
  faults w (calls w) = None ∧ (TryLockContext (log_path ++ str ".lock") (locks w)).2 = inr true.

Lemma NewDiskEngine_any (w : World) es tail :
  default [] (files w !! log_path) = log_bytes es ++ tail → leftover tail → records_fit es → crashes w →
  match NewDiskEngine log_path w with
  | (w', Ok e) => usable (mkDisk e w') ∧ contents (mkDisk e w') = replay es
  | (w', Err _) =>
      default [] (files w' !! log_path) = default [] (files w !! log_path) ∧ (unobstructed w → torn_record tail)
  | (_, Panic _) => False
  end.
Proof.
  intros Hf Htail Hfit Hcr. unfold unobstructed. destruct (TryLockContext (log_path ++ str ".lock") (locks w)) as [lk r] eqn:Hl.
  assert (r ≠ inr true → NewDiskEngine log_path w = (mkWorld (files w) (calls w) (faults w) lk,
    match r with inl e => Err (Wrapf "storage: locking %q: %w" e)
    | inr _ => Err (Errorf "storage: %q is locked by another process") end)) as Hlocked.
  { intros Hr. unfold NewDiskEngine, sbind at 1, swrap at 1, on_locks at 1. rewrite Hl. by destruct r as [e|[]]. }
  destruct r as [e|[]];
    [rewrite Hlocked by done; by split; [|intros [_ ?]]| |rewrite Hlocked by done; by split; [|intros [_ ?]]].
  clear Hlocked.
  destruct (faults w (calls w)) as [n|] eqn:Hfault.
  - unfold NewDiskEngine, sbind at 1, swrap at 1, on_locks at 1. rewrite Hl. cbn [returned rwrap negb].
    unfold sbind at 1, sattempt at 1, newDisLog, swrap, sbind at 1, os_OpenFile, syscall. cbn. rewrite Hfault. cbn.
    unfold untouched. destruct (@unlocked_files DiskEngine (log_path ++ str ".lock")
      (Wrapf "storage: opening disk log %q: %w" (Errorf "input/output error"))
      (mkWorld (files w) (S (calls w)) (faults w) lk)) as (w' & err' & Hr & Hw).
    cbn in *. rewrite Hr, Hw. by split; [|intros [? _]].
  - destruct Htail as [->|Htorn].
    + rewrite app_nil_r in Hf. destruct (opens_usable w es Hf Hfit Hcr Hfault) as (w' & e & -> & ? & ? & _);
        [by rewrite Hl|done].
    + destruct (NewDiskEngine_open log_path w lk Hl Hfault) as (w1 & Hfiles & _ & _ & Hc & ->). rewrite Hf in Hc.
      destruct (rebuildKeydir_spec (mkDiskLog (mkFile log_path false)) w1 (Some (log_path ++ str ".lock")) es tail Hc Hfit)
        as [_ Herr]. destruct (Herr Htorn) as (d' & err & -> & ->).
      destruct (@abandoned_files DiskEngine (mkDiskLog (mkFile log_path false)) (log_path ++ str ".lock")
        (Wrapf "storage: rebuilding keydir from %q: %w" err) w1) as (w' & err' & -> & ->).
      split; [|done]. rewrite Hfiles. destruct (files w !! log_path) as [c|] eqn:E; [by rewrite E|]. by rewrite lookup_insert_eq.
Qed.

(** ** The database in the files *)

Definition files_hold (r : nat) (fs : gmap bytes bytes) d : Prop :=
  ∃ es tail, default [] (fs !! log_path) = log_bytes es ++ tail ∧ leftover tail ∧ records_fit es ∧
    map_holds r (replay es) d.

Lemma usable_files_hold r (D : DiskState) d : holds (mkRegime r False) D d → files_hold r (files (world D)) d.
Proof.
  intros [(l & kd & es & tail & Hd) Hm]%holds_map. exists es, tail. cbn [contents] in Hm.
  change (contents D) with (disk_contents D) in Hm. rewrite (disk_log_contents _ _ _ _ _ Hd) in Hm.
  destruct Hd as (Hn & Hfit & (_ & _ & Hf & _) & Htail). apply file_contents_files in Hf. rewrite Hn in Hf.
  split; [done|]. split; [|done]. destruct Htail as [[-> _]|[? _]]; [by left|by right].
Qed.

(** a process that may die at any call, with statements the codec can keep *)
Definition mortal (p : process) : Prop :=
  (∀ fs, crashes (mkWorld fs 0 (process_faults p) (process_locks p))) ∧
  Forall (λ sql, valid_utf8 sql = true) (process_script p).

Lemma map_holds_less r r' m d : (r ≤ r')%nat → map_holds r' m d → map_holds r m d.
Proof. intros Hr (s & ? & ? & ? & ?). exists s. split; [done|]. split; [done|]. split; [lia|done]. Qed.

Lemma zip_fst_snd {A B} (l : list A) (k : list B) : length k = length l → (zip l k).*1 = l ∧ (zip l k).*2 = k.
Proof. intros Hlen. split; [apply fst_zip; lia|apply snd_zip; lia]. Qed.

Lemma run_process_holds r p fs d :
  files_hold (length (process_script p) + r) fs d → mortal p →
  let '(fs', ran) := run_process p fs in
  ∃ d', history False ran.*1 d ran.*2 d' ∧ files_hold r fs' d'.
Proof.
  intros (es & tail & Hf & Htail & Hfit & Hm) [Hcr Hutf]. unfold run_process.
  pose proof (NewDiskEngine_any (mkWorld fs 0 (process_faults p) (process_locks p)) es tail Hf Htail Hfit (Hcr fs)) as Ho.
  destruct (NewDiskEngine log_path _) as [w [e|err|pc]]; [| |done].
  - destruct Ho as [Hu Hc]. rewrite <-Hc in Hm.
    assert (holds (room_for (length (process_script p)) (mkRegime r False)) (mkDisk e w) d) as Hh.
    { assert (room_for (length (process_script p)) (mkRegime r False) =
        mkRegime (length (process_script p) + r) False) as ->; [|by apply holds_map].
      clear. induction (length (process_script p)) as [|k IH]; [done|]. cbn. by rewrite IH. }
    destruct (run_statements_history _ _ _ _ Hh Hutf) as (d' & Hhist & Hh').
    pose proof (length_run_statements (process_script p) (mkDisk e w)) as Hlen.
    destruct (run_statements _ _) as [D rs]. cbn [fst snd] in *. exists d'.
    destruct (zip_fst_snd (process_script p) rs Hlen) as [-> ->]. split; [exact Hhist|]. by apply usable_files_hold.
  - exists d. split; [constructor|]. exists es, tail. cbn [files] in Ho. destruct Ho as [-> _].
    split; [done|]. split; [done|]. split; [done|]. eapply map_holds_less; [|done]. lia.
Qed.

Definition statements (ps : list process) : nat := sum_list_with (λ p, length (process_script p)) ps.

Lemma run_processes_hold r ps fs d :
  files_hold (statements ps + r) fs d → Forall mortal ps →
  let '(fs', ran) := run_processes ps fs in
  ∃ d', history False ran.*1 d ran.*2 d' ∧ files_hold r fs' d'.
Proof.
  intros Hh Hps. revert fs d Hh. induction Hps as [|p ps Hp _ IH]; intros fs d Hh; cbn [run_processes].
  - exists d. split; [constructor|done].
  - assert (files_hold (length (process_script p) + (statements ps + r)) fs d) as Hh'.
    { unfold statements in Hh. cbn in Hh. by rewrite <-Nat.add_assoc in Hh. }
    pose proof (run_process_holds _ p fs d Hh' Hp) as Hrun. destruct (run_process p fs) as [fs1 ran].
    destruct Hrun as (d1 & Hd1 & Hh1). specialize (IH fs1 d1 Hh1). destruct (run_processes ps fs1) as [fs2 later].
    destruct IH as (d2 & Hd2 & Hh2). exists d2. rewrite !fmap_app. split; [by eapply history_app|done].
Qed.

(** the next process finds the database, or cannot open the log because a
    record at its end was cut short *)
Definition finds (fs : gmap bytes bytes) d : Prop :=
  ∀ w, files w = fs → crashes w →
    match NewDiskEngine log_path w with
    | (w', Ok e) => ∃ r, holds (mkRegime r False) (mkDisk e w') d
    | (_, Err _) => unobstructed w → ∃ es tail, default [] (fs !! log_path) = log_bytes es ++ tail ∧ torn_record tail
    | (_, Panic _) => False
    end.

Lemma files_hold_finds r fs d : files_hold r fs d → finds fs d.
Proof.
  intros (es & tail & Hf & Htail & Hfit & Hm) w <- Hcr. pose proof (NewDiskEngine_any w es tail Hf Htail Hfit Hcr) as Ho.
  destruct (NewDiskEngine log_path w) as [w' [e|err|p]]; [| |done].
  - destruct Ho as [Hu Hc]. exists r. apply holds_map. split; [done|]. by rewrite Hc.
  - intros Hw. exists es, tail. split; [done|]. by apply Ho.
Qed.

End durability.
