(* ===== verification/ServerProcess.v ===== *)
(** * The process of the server ([run] in [cmd/spacedb-server/main.go])

    The process opens the log, listens, serves, and closes the log.  The
    directory it creates for the log, the listener and the signals are not
    modelled: that they fail is a premise of the steps where they do.  The
    process may be killed at any time, also in the middle of a call. *)

From S2P Require Import Prelude Bytes Types Engine Btree Os Disk DiskLog DiskRefine DiskOpen DiskLaws MvccKey Mvcc MvccSpec Snapshot MvccSystem.
From S2P Require Import Schema Transaction Executor Json Relation Kv KvRefine KvMvcc Session Execute Recorded Concurrent Sessions Server Replies Connections Shutdown Scripts Durability.

Section process.
Context `{Flock} `{BTree diskItem} `{!LogPath} `{!Json} `{!MapOrder} `{!ErrorTexts} `{Countable K}.
Context (peers : K → Conn).
Abbreviation system := (sys (E := DiskState)).

(** the process dies in the [k]-th of its next calls to the system; of what that
    one writes it leaves [n] bytes *)
Definition die_after (k n : nat) (w : World) : World :=
  mkWorld (files w) (calls w)
    (λ i, if decide (i < calls w + k)%nat then faults w i else Some (if decide (i = calls w + k)%nat then n else 0%nat)) (locks w).

Definition dying_disk (k n : nat) (D : DiskState) : DiskState := mkDisk (engine D) (die_after k n (world D)).

(** the calls of the handlers, the world the process leaves and how [run] ends;
    a killed process has no end *)
Inductive server_process (w : World) : calls_log K → World → option (result unit) → Prop :=
  | process_no_directory err :
      server_process w [] w (Some (Err (Wrapf "server: creating database directory: %w" err)))
  | process_not_opened w' err :
      NewDiskEngine log_path w = (w', Err err) →
      server_process w [] w' (Some (Err (Wrapf "server: opening database: %w" err)))
  | process_not_listening w' e err d r :
      NewDiskEngine log_path w = (w', Ok e) → Close (mkDisk e w') = (d, r) →
      server_process w [] (world d) (Some (errors_Join (Err (Wrapf "server: listening on %s: %w" err)) r))
  | process_served w' e l serving c served d r :
      NewDiskEngine log_path w = (w', Ok e) → serve_run peers (mkSys (mkDisk e w') []) l serving c →
      serve_loop serving = Returned served → Close (sys_engine c) = (d, r) →
      server_process w l (world d) (Some (errors_Join served r))
  | process_killed w' e l serving c :
      NewDiskEngine log_path w = (w', Ok e) → serve_run peers (mkSys (mkDisk e w') []) l serving c →
      server_process w l (world (sys_engine c)) None
  | process_killed_opening k n w' r :
      NewDiskEngine log_path (die_after k n w) = (w', r) → server_process w [] w' None
  | process_killed_inside w' e l serving c i q k n d err :
      NewDiskEngine log_path w = (w', Ok e) → serve_run peers (mkSys (mkDisk e w') []) l serving c →
      handler_db (handle peers (serve_cancelled serving) i (calls_of i l)).1 = Asked q →
      attempt q (dying_disk k n (sys_engine c)) = (d, Err err) →
      server_process w l (world d) None
  | process_killed_closing w' e l serving c k n d r :
      NewDiskEngine log_path w = (w', Ok e) → serve_run peers (mkSys (mkDisk e w') []) l serving c →
      Close (dying_disk k n (sys_engine c)) = (d, r) →
      server_process w l (world d) None.

Lemma close_log_files l (w : World) : files (close_log l w).1 = files w.
Proof. unfold close_log, os_Close, syscall, sthrow. destruct (closed (file l)); [done|]. by destruct (faults w (calls w)). Qed.

Lemma Close_same_files d : files (world (Close d).1) = files (world d).
Proof.
  unfold Close. destruct (log (engine d)) as [l|]; [|done].
  unfold sbind, sattempt, on_world, sread, modify, slift, on_locks. pose proof (close_log_files l (world d)) as Hf.
  destruct (close_log l (world d)) as [w [u|err|p]]; cbn in *; [| |done];
    (destruct (rderef (fileLock (engine d))) as [lock| |]; cbn; [|done..];
     destruct (Unlock lock (locks w)) as [lk [err'|u']]; done).
Qed.

Context `{!BTreeLaws lessDiskItem} `{!JsonLaws}.

Lemma die_after_crashes k n (w : World) : reliable w → crashes (die_after k n w).
Proof.
  intros Hr. right. exists (calls w + k)%nat. split; [cbn; lia|]. unfold die_after. cbn. split; [|split].
  - intros i Hi. rewrite decide_True by lia. apply Hr. lia.
  - rewrite decide_False by lia. by eexists.
  - intros i Hi. rewrite !decide_False by lia. done.
Qed.

Lemma dying_disk_usable k n (D : DiskState) :
  usable D → steady D → usable (dying_disk k n D) ∧ contents (dying_disk k n D) = contents D.
Proof.
  intros (l & kd & es & tail & Hd) Hst. pose proof Hd as (Hn & Hfit & Hrep & Htail).
  assert (tail = []) as ->.
  { destruct Htail as [[? _]|[_ Hdead]]; [done|]. pose proof (Hdead _ (le_n _)) as Hf. by rewrite (Hst _ (le_n _)) in Hf. }
  assert (disk_log (dying_disk k n D) l kd es []) as Hd'.
  { split; [done|]. split; [done|]. split; [exact Hrep|]. left. split; [done|]. by apply die_after_crashes. }
  split; [by exists l, kd, es, []|].
  change (disk_contents (dying_disk k n D) = disk_contents D).
  by rewrite (disk_log_contents _ _ _ _ _ Hd'), (disk_log_contents _ _ _ _ _ Hd).
Qed.

(** a log opened in a process whose calls do not fail is a database at rest *)
Lemma opened_at_rest room fs d (w : World) w' e :
  files_hold room fs d → files w = fs → reliable w → NewDiskEngine log_path w = (w', Ok e) →
  at_rest room (mkSys (mkDisk e w') []) d.
Proof.
  intros (es & tail & Hf & Htail & Hfit & Hm) <- Hrel Hopen.
  destruct (TryLockContext (log_path ++ str ".lock") (locks w)) as [lk r] eqn:Hl.
  destruct (decide (r = inr true)) as [->|Hr].
  2:{ unfold NewDiskEngine, sbind at 1, swrap at 1, on_locks at 1 in Hopen. rewrite Hl in Hopen. by destruct r as [|[]]. }
  destruct Htail as [->|Htorn].
  - rewrite app_nil_r in Hf. destruct (opens_usable w es Hf Hfit (or_introl Hrel)) as (w1 & e1 & Heq & Hu & Hc & Hst);
      [by apply Hrel|by rewrite Hl|]. rewrite Hopen in Heq. injection Heq as <- <-.
    split; [by apply Hst|]. split; [done|]. apply holds_map. split; [done|]. cbn [sys_engine]. by rewrite Hc.
  - destruct (NewDiskEngine_spec log_path w es tail lk Hf Hfit Hl (Hrel _ (le_n _))) as [_ Herr].
    destruct (Herr Htorn) as (w1 & err & Heq). congruence.
Qed.

(** whatever becomes of the opening, the log stays as it is *)
Lemma opening_leaves r fs d (w w' : World) e :
  files_hold r fs d → files w = fs → crashes w → NewDiskEngine log_path w = (w', e) → files_hold r (files w') d.
Proof.
  intros (es & tail & Hf & Htail & Hfit & Hm) <- Hcr Hopen.
  pose proof (NewDiskEngine_any w es tail Hf Htail Hfit Hcr) as Ho. rewrite Hopen in Ho. destruct e as [e|err|p]; [| |done].
  - destruct Ho as [Hu Hc]. apply (usable_files_hold r (mkDisk e w')), holds_map. split; [done|]. by rewrite Hc.
  - destruct Ho as [Ho _]. exists es, tail. by rewrite Ho.
Qed.

(** what a run of the server leaves, when it is over or killed *)
Lemma serving_leaves l (w w1 : World) e serving c room left fs d0 :
  files_hold room fs d0 → files w = fs → reliable w → NewDiskEngine log_path w = (w1, Ok e) →
  serve_run peers (mkSys (mkDisk e w1) []) l serving c →
  (∀ i, Forall (λ sql, valid_utf8 sql = true) (requests (peers i))) → begins l.*2 + Z.of_nat left < Z.of_nat room →
  ∃ stmt outcome s,
    sql_run (mkSdb d0 ∅) (omap (sql_event_of stmt outcome) l.*2) s ∧
    (∀ t, EvBegin t ∈ l.*2 → ∃ i, stmt (ts_version t) ∈ requests (peers i)) ∧
    files_hold left (files (world (sys_engine c))) (sd_db s) ∧
    ∀ i q k n d err, handler_db (handle peers (serve_cancelled serving) i (calls_of i l)).1 = Asked q →
      attempt q (dying_disk k n (sys_engine c)) = (d, Err err) → files_hold left (files (world d)) (sd_db s).
Proof.
  intros Hfs Hw Hrel Hopen Hrun Hutf Hroom. pose proof (opened_at_rest room fs d0 w w1 e Hfs Hw Hrel Hopen) as Hrest.
  destruct (serve_refines peers _ _ _ _ _ room (S left) Hrest Hrun Hutf) as (_ & stmt & outcome & s & _ & _ & Hsql & Hlive & Hst & _); [lia|].
  exists stmt, outcome, s. split; [done|]. split; [done|]. split.
  - apply usable_files_hold, live_holds. destruct Hlive as (ms & p & Hsim & Hn & Hrep). exists ms, p. split; [done|]. split; [lia|done].
  - intros i q k n d err Hask Hcut.
    assert (usable (sys_engine c) ∧ steady (sys_engine c)) as [Hu Hsteady]
      by (destruct Hlive as (ms & p & Hsim & _); split; apply Hsim).
    destruct (dying_disk_usable k n _ Hu Hsteady) as [Hu' Hc']. apply usable_files_hold.
    eapply attempt_fails; [exact Hlive|exact Hu'|exact Hc'| |exact Hcut].
    intros t. by eapply serve_open.
Qed.

(** the log a server process leaves holds what its statements made of it *)
Lemma process_leaves l (w w' : World) r room left fs d0 :
  files_hold room fs d0 → files w = fs → reliable w → server_process w l w' r →
  (∀ i, Forall (λ sql, valid_utf8 sql = true) (requests (peers i))) → begins l.*2 + Z.of_nat left < Z.of_nat room →
  ∃ stmt outcome s,
    sql_run (mkSdb d0 ∅) (omap (sql_event_of stmt outcome) l.*2) s ∧
    (∀ t, EvBegin t ∈ l.*2 → ∃ i, stmt (ts_version t) ∈ requests (peers i)) ∧
    files_hold left (files w') (sd_db s).
Proof.
  intros Hfs Hw Hrel Hproc Hutf Hroom.
  assert (files_hold left fs d0) as Hless.
  { destruct Hfs as (es & tail & ? & ? & ? & Hm). exists es, tail. split; [done|]. split; [done|]. split; [done|].
    eapply map_holds_less; [|done]. unfold begins in Hroom. lia. }
  assert (∀ w', l = [] → files_hold left (files w') d0 → ∃ stmt outcome s,
    sql_run (mkSdb d0 ∅) (omap (sql_event_of stmt outcome) l.*2) s ∧
    (∀ t, EvBegin t ∈ l.*2 → ∃ i, stmt (ts_version t) ∈ requests (peers i)) ∧ files_hold left (files w') (sd_db s)) as Hnone.
  { intros w1 -> Hh. exists (λ _, []), (λ _, Err not_recorded), (mkSdb d0 ∅). split; [constructor|]. split; [|done].
    by intros t ?%elem_of_nil. }
  assert (∀ w1 e serving c, NewDiskEngine log_path w = (w1, Ok e) → serve_run peers (mkSys (mkDisk e w1) []) l serving c →
    files w' = files (world (sys_engine c)) ∨
    (∃ i q k n d err, handler_db (handle peers (serve_cancelled serving) i (calls_of i l)).1 = Asked q ∧
       attempt q (dying_disk k n (sys_engine c)) = (d, Err err) ∧ w' = world d) →
    ∃ stmt outcome s,
      sql_run (mkSdb d0 ∅) (omap (sql_event_of stmt outcome) l.*2) s ∧
      (∀ t, EvBegin t ∈ l.*2 → ∃ i, stmt (ts_version t) ∈ requests (peers i)) ∧ files_hold left (files w') (sd_db s)) as Hserved.
  { intros w1 e serving c Hopen Hrun Hend.
    destruct (serving_leaves _ _ _ _ _ _ _ _ _ _ Hfs Hw Hrel Hopen Hrun Hutf Hroom) as (stmt & outcome & s & ? & ? & Hh & Hcut).
    exists stmt, outcome, s. split; [done|]. split; [done|].
    destruct Hend as [->|(i & q & k & n & d & err & Hq & Hd & ->)]; [done|by eapply Hcut]. }
  assert (∀ (D d : DiskState) r, Close D = (d, r) → files (world d) = files (world D)) as Hclosed.
  { intros D d r0 Hcl. pose proof (Close_same_files D) as Hf. by rewrite Hcl in Hf. }
  destruct Hproc as [err|w1 err Hopen|w1 e err d r Hopen Hclose|w1 e l serving c served d r Hopen Hrun Hret Hclose|w1 e l serving c Hopen Hrun
    |k n w1 r Hopen|w1 e l serving c i q k n d err Hopen Hrun Hask Hcut|w1 e l serving c k n d r Hopen Hrun Hclose].
  - apply Hnone; [done|]. by rewrite Hw.
  - apply Hnone; [done|]. apply (opening_leaves left fs d0 w w1 (Err err)); [done..|by left|done].
  - apply Hnone; [done|]. rewrite (Hclosed _ _ _ Hclose). apply (opening_leaves left fs d0 w w1 (Ok e)); [done..|by left|done].
  - eapply Hserved; [done..|left]. exact (Hclosed _ _ _ Hclose).
  - eapply Hserved; [done..|by left].
  - apply Hnone; [done|]. apply (opening_leaves left fs d0 (die_after k n w) w1 r); [done..|by apply die_after_crashes|done].
  - eapply Hserved; [done..|right]. by exists i, q, k, n, d, err.
  - eapply Hserved; [done..|left]. exact (Hclosed _ _ _ Hclose).
Qed.

End process.

(** ** A server that is started again and again *)

Section lives.
Context `{Flock} `{BTree diskItem} `{!LogPath} `{!Json} `{!MapOrder} `{!ErrorTexts} `{Countable K}.

(** a process of the server: its clients, its calls and how it ends *)
Record life := mkLife { life_peers : K → Conn; life_log : calls_log K; life_end : option (result unit) }.

(** processes that find the files the one before left *)
Inductive server_lives : gmap bytes bytes → list life → gmap bytes bytes → Prop :=
  | lives_none fs : server_lives fs [] fs
  | lives_next w x w' xs fs :
      reliable w → server_process (life_peers x) w (life_log x) w' (life_end x) → server_lives (files w') xs fs →
      server_lives (files w) (x :: xs) fs.

(** the statements of a process, as a run of their machine *)
Definition life_events (x : life) (evs : list sql_event) : Prop :=
  ∃ stmt outcome, evs = omap (sql_event_of stmt outcome) (life_log x).*2 ∧
    ∀ t, EvBegin t ∈ (life_log x).*2 → ∃ i, stmt (ts_version t) ∈ requests (life_peers x i).

(** the version numbers the processes need *)
Definition life_room (xs : list life) : Z := foldr (λ x n, begins (life_log x).*2 + 1 + n) 0 xs.

Lemma life_room_cons x xs : life_room (x :: xs) = begins (life_log x).*2 + 1 + life_room xs.
Proof. done. Qed.

Lemma life_room_nonneg xs : 0 ≤ life_room xs.
Proof. induction xs as [|x xs IH]; [done|]. rewrite life_room_cons. unfold begins. lia. Qed.

Context `{!BTreeLaws lessDiskItem} `{!JsonLaws}.

(** between two processes the machine loses its open transactions *)
Lemma lives_leave fs xs fs' room left d0 :
  files_hold room fs d0 → server_lives fs xs fs' →
  Forall (λ x, ∀ i, Forall (λ sql, valid_utf8 sql = true) (requests (life_peers x i))) xs →
  life_room xs + Z.of_nat left ≤ Z.of_nat room →
  ∃ evss s, Forall2 life_events xs evss ∧
    sql_run (mkSdb d0 ∅) (concat (map (λ evs, evs ++ [SqlCrash]) evss)) s ∧ files_hold left fs' (sd_db s).
Proof.
  intros Hfs Hlives. revert room d0 Hfs. induction Hlives as [fs|w x w' xs fs Hrel Hproc _ IH]; intros room d0 Hfs Hutf Hroom.
  - exists [], (mkSdb d0 ∅). split; [constructor|]. split; [constructor|]. cbn in *.
    destruct Hfs as (es & tail & ? & ? & ? & Hm). exists es, tail. split; [done|]. split; [done|]. split; [done|].
    eapply map_holds_less; [|exact Hm]. lia.
  - apply Forall_cons in Hutf as [Hx Hutf]. rewrite life_room_cons in Hroom. pose proof (life_room_nonneg xs) as Hnn.
    destruct (process_leaves (life_peers x) (life_log x) w w' (life_end x) room (Z.to_nat (life_room xs + Z.of_nat left)) _ d0
      Hfs eq_refl Hrel Hproc Hx) as (stmt & outcome & s & Hsql & Hst & Hh); [lia|].
    destruct (IH _ _ Hh Hutf) as (evss & s' & Hevs & Hrun & Hh'); [lia|].
    eexists (_ :: evss), s'. split; [by constructor; [exists stmt, outcome|]|]. split; [|done]. cbn. rewrite <-app_assoc.
    eapply sql_run_app; [exact Hsql|]. eapply sql_run_app; [|exact Hrun].
    apply (sql_run_snoc _ [] s); [constructor|apply sql_crash].
Qed.

End lives.
Arguments life K : clear implicits.
