(* ===== verification/DurabilityProps.v ===== *)
(** * What a database on disk guarantees *)

From S2P Require Import Prelude Bytes Types Engine Btree Os Disk DiskLog DiskRefine DiskOpen DiskLaws DiskSamples Durability.
From S2P Require Import MvccKey Mvcc MvccSpec Snapshot MvccSystem Schema Transaction Executor Json Relation Kv KvRefine KvMvcc Session Execute Scripts Samples.
From S2P Require Import Recorded Concurrent Sessions Result Server Replies Connections ConnectionProps ServerProcess.

(** C1: a database on disk is the one its acknowledged statements made.
    Processes that open the log one after the other each run a script of
    statements, and each may die during any of its calls to the system.  All
    results together are a history of the database: every statement that
    returned a result has had its whole effect, every other one has had none,
    also when the process died in the middle of its commit.  The next process
    finds that database, unless a record was cut short and it refuses to open
    the log. *)
Theorem database_outlives_processes `{Flock} `{BTree diskItem} `{!BTreeLaws lessDiskItem} `{!LogPath}
    `{!Json} `{!JsonLaws} `{!MapOrder} ps fs :
  fs !! log_path = None → Forall mortal ps → 1 + Z.of_nat (statements ps) ≤ max_uint64 →
  let '(fs', ran) := run_processes ps fs in
  ∃ d, history False ran.*1 ∅ ran.*2 d ∧ finds fs' d.
Proof.
  intros Hf Hps Hn. assert (files_hold (statements ps + 0) fs ∅) as Hh.
  { exists [], []. rewrite Hf. split; [done|]. split; [by left|]. split; [constructor|].
    apply map_holds_empty. by rewrite Nat.add_0_r. }
  pose proof (run_processes_hold 0 ps fs ∅ Hh Hps) as Hrun. destruct (run_processes ps fs) as [fs' ran].
  destruct Hrun as (d & Hd & Hh'). exists d. split; [done|]. by eapply files_hold_finds.
Qed.

(** C5: the process of the server, started any number of times.  Each opens the
    log, serves connections that overlap, and closes the log; it may fail to
    start, stop with or without an error, or be killed at any moment, also while
    it opens or closes the log or in the middle of a call to the storage.  Begun
    on a log that holds [d0], the processes leave a log that holds [d0] changed
    by a run of the machine of statements, each of which some connection sent:
    what was committed is there, also after a kill, and nothing else.  The next
    process finds it. *)
Theorem server_process_durable `{Flock} `{BTree diskItem} `{!BTreeLaws lessDiskItem} `{!LogPath}
    `{!Json} `{!JsonLaws} `{!MapOrder} `{!ErrorTexts} `{Countable K} fs (xs : list (life K)) fs' room left d0 :
  files_hold room fs d0 → server_lives fs xs fs' →
  Forall (λ x, ∀ i, Forall (λ sql, valid_utf8 sql = true) (requests (life_peers x i))) xs →
  life_room xs + Z.of_nat left ≤ Z.of_nat room →
  ∃ evss s,
    Forall2 life_events xs evss ∧
    sql_run (mkSdb d0 ∅) (concat (map (λ evs, evs ++ [SqlCrash]) evss)) s ∧
    files_hold left fs' (sd_db s) ∧ finds fs' (sd_db s).
Proof.
  intros Hfs Hlives Hutf Hroom.
  destruct (lives_leave fs xs fs' room left d0 Hfs Hlives Hutf Hroom) as (evss & s & ? & ? & Hh).
  exists evss, s. split; [done|]. split; [done|]. split; [done|]. by eapply files_hold_finds.
Qed.

(** ** A process that dies while it inserts a row, and one that reads the table *)

#[local] Instance sample_path : LogPath := name.

Definition create : bytes := str "CREATE TABLE t (id INT PRIMARY KEY, name STRING DEFAULT 'x');".
Definition insert (i : string) : bytes := str "INSERT INTO t (id) VALUES (" ++ str i ++ str ");".

(** it dies during its [k]-th call *)
Definition dying (k : nat) (script : list bytes) : process :=
  mkProcess (λ i, if decide (i < k)%nat then None else Some 0%nat) tt script.
Definition lives : list process :=
  [dying 13 [create; insert "2"; insert "3"]; mkProcess (λ _, None) tt [str "SELECT id FROM t;"]].

Lemma lives_mortal : Forall mortal lives.
Proof.
  apply List.Forall_cons; [|apply List.Forall_cons; [|constructor]]; split.
  - intros fs. right. exists 13%nat. split; [cbn; lia|]. cbn. split; [|split; [by eexists|]].
    + intros i Hi. by rewrite decide_True by lia.
    + intros i Hi. by rewrite decide_False by lia.
  - repeat apply List.Forall_cons; try (vm_compute; reflexivity). constructor.
  - intros fs. by left.
  - repeat apply List.Forall_cons; try (vm_compute; reflexivity). constructor.
Qed.

(** the second insertion was lost, the first was not *)
Lemma lives_results :
  map (λ p, match p.2 with Ok r => Some r | _ => None end) (run_processes lives ∅).2 =
    [Some (CreateTableResult (str "t")); Some (InsertResult 1); None; Some (RowsResult [str "id"] [[IntegerValue 2]])].
Proof. vm_compute. reflexivity. Qed.

Lemma database_outlives_processes_witness :
  ∃ d, history False (run_processes lives ∅).2.*1 ∅ (run_processes lives ∅).2.*2 d ∧ finds (run_processes lives ∅).1 d.
Proof.
  pose proof (database_outlives_processes lives ∅ (lookup_empty _) lives_mortal ltac:(done)) as Hd.
  destruct (run_processes lives ∅) as [fs ran]. exact Hd.
Defined.

(** ** A server that is started on no log, and is killed while it commits the
    first client's row; one that is started on what is left, and is stopped *)

#[local] Existing Instance ServerWitness.text_of_errors.

Definition power_on : World := mkWorld ∅ 0 (λ _, None) tt.
Definition boot (w : World) : World * result DiskEngine := NewDiskEngine log_path w.
Definition booted (w : World) : sys (E := DiskState) :=
  mkSys (mkDisk (match (boot w).2 with Ok e => e | _ => mkDiskEngine None None None end) (boot w).1) [].

(** the write set is gone from the log, the mark of the transaction is not *)
Definition inserting : calls_log nat * Serving nat * sys (E := DiskState) :=
  serve_exec ServerWitness.peers (DoAccept 0%nat :: ServerWitness.calls (replicate 9 0%nat)) (booted power_on).
Definition the_call : request :=
  match handler_db (handle ServerWitness.peers false 0%nat (calls_of 0%nat inserting.1.1)).1 with Asked q => q | _ => AskBegin end.
Definition killed : DiskState * result unit := attempt the_call (dying_disk 1 0 (sys_engine inserting.2)).
Definition the_error : error := match killed.2 with Err e => e | _ => not_recorded end.

Lemma killed_process :
  the_call = AskCommit (mkTransactionState 2 ∅) ∧
  server_process ServerWitness.peers power_on inserting.1.1 (world killed.1) None.
Proof.
  assert (NewDiskEngine log_path power_on = ((boot power_on).1, Ok (engine (sys_engine (booted power_on))))) as Hb
    by (vm_compute; reflexivity).
  assert (serve_run ServerWitness.peers (booted power_on) inserting.1.1 inserting.1.2 inserting.2) as Hr.
  { unfold inserting. apply serve_exec_sound. }
  assert (handler_db (handle ServerWitness.peers (serve_cancelled inserting.1.2) 0%nat (calls_of 0%nat inserting.1.1)).1 =
    Asked the_call) as Hq by (vm_compute; reflexivity).
  assert (attempt the_call (dying_disk 1 0 (sys_engine inserting.2)) = (killed.1, Err the_error)) as Hk by (vm_compute; reflexivity).
  split; [vm_compute; reflexivity|].
  exact (process_killed_inside ServerWitness.peers power_on _ _ _ _ _ 0%nat the_call 1 0 _ the_error Hb Hr Hq Hk).
Qed.

(** the next client finds the table, without the row *)
Definition reader (i : nat) : Conn :=
  match i with 0%nat => ServerWitness.client ["SELECT id, name FROM t;"]%string | _ => ServerWitness.client [] end.
Definition restarted : World := mkWorld (files (world killed.1)) 0 (λ _, None) tt.
Definition reading : calls_log nat * Serving nat * sys (E := DiskState) :=
  serve_exec reader (DoAccept 0%nat :: ServerWitness.calls (replicate 4 0%nat) ++ [DoEnd 0%nat; DoCancel; DoClosed; DoWait]) (booted restarted).
Definition shutdown : DiskState * result unit := Close (sys_engine reading.2).

Lemma reading_process : server_process reader restarted reading.1.1 (world shutdown.1) (Some (Ok ())).
Proof.
  assert (NewDiskEngine log_path restarted = ((boot restarted).1, Ok (engine (sys_engine (booted restarted))))) as Hb
    by (vm_compute; reflexivity).
  assert (Close (sys_engine reading.2) = (shutdown.1, Ok ())) as Hs by (vm_compute; reflexivity).
  assert (serve_loop reading.1.2 = Returned (Ok ())) as Hl by (vm_compute; reflexivity).
  assert (serve_run reader (booted restarted) reading.1.1 reading.1.2 reading.2) as Hr.
  { unfold reading. apply serve_exec_sound. }
  exact (process_served reader restarted _ _ _ _ _ _ _ _ Hb Hr Hl Hs).
Qed.

Lemma reading_finds_no_row :
  fst <$> ended reading.1.2 !! 0%nat =
    Some (mkConn (received (reader 0)) None (concat (map (λ l, str l ++ [x0a]) ["id | name"; "(0 rows)"]%string)) 1 (λ _, None)).
Proof. vm_compute. reflexivity. Qed.

Definition two_lives : list (life nat) :=
  [mkLife ServerWitness.peers inserting.1.1 None; mkLife reader reading.1.1 (Some (Ok ()))].

Lemma two_lives_run : server_lives (files power_on) two_lives (files (world shutdown.1)).
Proof.
  eapply lives_next; [done|exact (proj2 killed_process)|].
  apply (lives_next restarted _ (world shutdown.1)); [done|exact reading_process|constructor].
Qed.

Lemma reader_utf8 i : Forall (λ sql, valid_utf8 sql = true) (requests (reader i)).
Proof.
  destruct i as [|i].
  - assert (requests (reader 0) = [str "SELECT id, name FROM t;"]) as -> by (vm_compute; reflexivity).
    repeat apply List.Forall_cons; try constructor; vm_compute; reflexivity.
  - assert (requests (reader (S i)) = []) as -> by (vm_compute; reflexivity). constructor.
Qed.

Lemma server_process_durable_witness :
  ∃ evss s, Forall2 life_events two_lives evss ∧
    sql_run (mkSdb ∅ ∅) (concat (map (λ evs, evs ++ [SqlCrash]) evss)) s ∧ finds (files (world shutdown.1)) (sd_db s).
Proof.
  destruct (server_process_durable (files power_on) two_lives (files (world shutdown.1)) 10 5 ∅)
    as (evss & s & Hevs & Hsql & _ & Hf); [|exact two_lives_run| |vm_compute; discriminate|].
  - exists [], []. split; [done|]. split; [by left|]. split; [constructor|]. by apply map_holds_empty.
  - apply List.Forall_cons; [exact peers_utf8|]. apply List.Forall_cons; [exact reader_utf8|constructor].
  - exists evss, s. split; [exact Hevs|]. split; [exact Hsql|exact Hf].
Defined.
