(* ===== verification/DiskProps.v ===== *)
(** * What the disk engine guarantees *)

From S2P Require Import Prelude Bytes Types Engine Btree Os Disk DiskLog DiskRefine DiskOpen DiskCompact DiskSamples.

Section props.
Context `{Flock} `{BTree diskItem} `{!BTreeLaws lessDiskItem}.

(** C10: an open disk engine is a map from keys to values, whatever calls to
    the system fail: [Get] returns the value of a key or nil, a scan the
    records in range in key order or backwards, and [Set] and [Delete] update
    the map or return an error and leave it as it was, also when they could
    write only a part of their record; a record of an admissible size is
    written unless the write itself fails.  Closing an engine that holds its
    lock closes it whatever calls fail: every method then returns its error
    and changes nothing, but for a second [Close], which returns nil. *)
Theorem disk_engine_is_a_map d m :
  disk_holds d m →
  (∀ k, Disk.Get k d = Ok (m !! k)) ∧
  (∀ s t, yields (Disk.Scan s t d) (range s t m) ∧ yields (Disk.ScanReverse s t d) (rev (range s t m))) ∧
  (∀ p, yields (Disk.ScanPrefix p d) (prefixed p m) ∧ yields (Disk.ScanPrefixReverse p d) (rev (prefixed p m))) ∧
  (∀ k v, match Disk.Set_ k v d with
   | (d', Ok _) => disk_holds d' (<[k := sbytes v]> m)
   | (d', Err _) => disk_holds d' m ∧ (¬ entry_fits k v ∨ faults (world d) (calls (world d)) ≠ None)
   | (_, Panic _) => False
   end) ∧
  (∀ k, match Disk.Delete k d with
   | (d', Ok _) => disk_holds d' (delete k m)
   | (d', Err _) => disk_holds d' m ∧ (¬ entry_fits k None ∨ faults (world d) (calls (world d)) ≠ None)
   | (_, Panic _) => False
   end) ∧
  (is_Some (fileLock (engine d)) → answers_closed (Close d).1).
Proof.
  intros Hd. split; [intros; by apply Get_holds|].
  split; [intros s t; split; [by apply (scan_yields d m s t false)|by apply (scan_yields d m s t true)]|].
  split; [intros p; rewrite <-range_prefixEnd; split;
    [by apply (scan_yields d m _ _ false)|by apply (scan_yields d m _ _ true)]|].
  split; [|split].
  - intros k v. pose proof (Set_outcome d m k v Hd) as Ho. pose proof (Set_runs d m k v Hd) as Hr.
    destruct (Disk.Set_ k v d) as [d' [u|err|p]]; [done| |done]. split; [done|]. by eapply write_error.
  - intros k. pose proof (Delete_outcome d m k Hd) as Ho. pose proof (Delete_runs d m k Hd) as Hr.
    destruct (Disk.Delete k d) as [d' [u|err|p]]; [done| |done]. split; [done|]. by eapply write_error.
  - intros Hl. apply closed_errors. by apply Close_closes.
Qed.

(** C11: what [Set] and [Delete] report is what the next process finds: after
    a success it opens the log with the new map; after a failed write, which
    may have left any part of its record, it opens it with the old or the new
    map, or refuses to open it — it never finds anything else. *)
Theorem writes_are_durable d es k v :
  clean d es →
  match Disk.Set_ k v d with
  | (d', Ok _) => clean d' (es ++ [(k, Some (sbytes v))]) ∧ next_finds d' (λ m, m = <[k := sbytes v]> (replay es))
  | (d', Err _) => next_finds d' (λ m, m = replay es) ∨ next_refused d'
  | (_, Panic _) => False
  end ∧
  match Disk.Delete k d with
  | (d', Ok _) => clean d' (es ++ [(k, None)]) ∧ next_finds d' (λ m, m = delete k (replay es))
  | (d', Err _) => next_finds d' (λ m, m = replay es) ∨ next_refused d'
  | (_, Panic _) => False
  end.
Proof.
  intros Hc. pose proof (Set_durable d es k v Hc) as Hs. pose proof (Delete_durable d es k Hc) as Hd.
  split; [destruct (Disk.Set_ k v d) as [d' [u|err|p]]|destruct (Disk.Delete k d) as [d' [u|err|p]]];
    cbn in *; try done.
  - split; [done|]. apply clean_next in Hs. by rewrite replay_snoc in Hs.
  - destruct Hs as [_ Hi]. by eapply interrupted_next.
  - split; [done|]. apply clean_next in Hd. by rewrite replay_snoc in Hd.
  - destruct Hd as [_ Hi]. by eapply interrupted_next.
Qed.

(** C12: compaction never loses data.  Opening a log with compaction gives an
    engine with the same map, whose log holds each live record once, in key
    order; or it fails, and then, whatever calls failed, the map is still in
    the log, or there is no log and the map is in the backup. *)
Theorem compaction_keeps_data `{TempNames} name es (w : World) :
  files w !! name = Some (log_bytes es) → records_fit es →
  match NewDiskEngineCompact name w with
  | (w', Ok e) => clean (mkDisk e w') (live (replay es)) ∧ replay (live (replay es)) = replay es
  | (w', Err _) => ∃ backup, backup ≠ name ∧
      (data_at (files w') name (replay es) ∨
       (files w' !! name = None ∧ data_at (files w') backup (replay es)))
  | (_, Panic _) => False
  end.
Proof.
  intros Hf Hfit. pose proof (NewDiskEngineCompact_safe name es w Hf Hfit) as Hs.
  destruct (NewDiskEngineCompact name w) as [w' [e|err|p]]; [|done|done].
  split; [by eapply installed_clean|apply replay_live].
Qed.

(** C29: a scan is a snapshot: the records it yields are those of the moment it
    began, whatever is written between two of them. *)
Theorem scan_is_a_snapshot d m s t r wss :
  disk_holds d m → interleaved_scan s t r wss d = Disk.scan s t r d.
Proof.
  intros (l & kd & contents & Hrep). pose proof Hrep as (Hl & Hk & _ & Hi). unfold interleaved_scan, Disk.scan.
  rewrite (snapshot_items d s t r kd l) by (done || apply Hi).
  assert (∀ it, it ∈ (if r then rev (in_scan s t kd) else in_scan s t kd) → it ∈ Ascend kd) as Hin.
  { intros it Hit. assert (it ∈ in_scan s t kd) as [_ ?]%list_elem_of_filter; [|done].
    destruct r; [|done]. by rewrite <-Permutation_rev in Hit. }
  rewrite (scan_items_ok d l kd contents m) by done. apply (interleaved_items_ok l kd contents m); [done| |done].
  split; [done|]. exists []. rewrite app_nil_r. apply Hrep.
Qed.

End props.

(** ** Witnesses: the sample log, opened in a process in which a later call fails *)

Lemma disk_engine_is_a_map_witness :
  disk_holds (opened (process_but 1 3)) (replay es) ∧
  Disk.Get (str "b") (opened (process_but 1 3)) = Ok (replay es !! str "b") ∧
  match Disk.Set_ (str "c") None (opened (process_but 1 3)) with
  | (d', Err _) => disk_holds d' (replay es)
  | _ => False
  end.
Proof.
  pose proof (clean_holds _ _ (opened_clean 1 3 ltac:(lia))) as Hd.
  pose proof (disk_engine_is_a_map _ _ Hd) as (Hget & _ & _ & Hset & _).
  split; [exact Hd|]. split; [exact (Hget (str "b"))|]. specialize (Hset (str "c") None).
  destruct (Disk.Set_ (str "c") None (opened (process_but 1 3))) as [d' r] eqn:Hrun.
  destruct r as [u|err|p]; [exfalso|by apply Hset|destruct Hset].
  apply (f_equal (λ out : DiskState * result unit, match out.2 with Ok _ => true | _ => false end)) in Hrun.
  vm_compute in Hrun. discriminate.
Defined.

Lemma writes_are_durable_witness :
  clean (opened (process_but 1 3)) es ∧
  match Disk.Set_ (str "c") None (opened (process_but 1 3)) with
  | (d', Err _) => next_finds d' (λ m, m = replay es) ∨ next_refused d'
  | _ => False
  end.
Proof.
  pose proof (opened_clean 1 3 ltac:(lia)) as Hc. split; [exact Hc|].
  destruct (writes_are_durable _ _ (str "c") None Hc) as [Hset _].
  destruct (Disk.Set_ (str "c") None (opened (process_but 1 3))) as [d' r] eqn:Hrun.
  destruct r as [u|err|p]; [exfalso|exact Hset|destruct Hset].
  apply (f_equal (λ out : DiskState * result unit, match out.2 with Ok _ => true | _ => false end)) in Hrun.
  vm_compute in Hrun. discriminate.
Defined.

Lemma compaction_keeps_data_witness :
  records_fit es ∧ clean
    (match NewDiskEngineCompact name (process 20) with
     | (w, Ok e) => mkDisk e w
     | (w, _) => mkDisk (mkDiskEngine None None None) w
     end) [(str "b", Some (str "2"))].
Proof.
  split; [exact es_fit|].
  assert (files (process 20) !! name = Some (log_bytes es)) as Hf by apply lookup_singleton_eq.
  pose proof (compaction_keeps_data name es (process 20) Hf es_fit) as Hc.
  destruct (NewDiskEngineCompact name (process 20)) as [w r] eqn:Hrun.
  destruct r as [e|err|p]; [|exfalso|destruct Hc].
  - destruct Hc as [Hc _]. exact Hc.
  - apply (f_equal (λ out : World * result DiskEngine, match out.2 with Ok _ => true | _ => false end)) in Hrun.
    vm_compute in Hrun. discriminate.
Defined.

Lemma scan_is_a_snapshot_witness :
  disk_holds (opened (process 20)) (replay es) ∧
  interleaved_scan None None false [[WriteDelete (str "b"); WriteSet (str "z") None]] (opened (process_but 20 0)) =
    Disk.scan None None false (opened (process_but 20 0)).
Proof.
  pose proof (clean_holds _ _ (opened_clean 20 0 ltac:(lia))) as Hd.
  split; [exact Hd|]. exact (scan_is_a_snapshot _ _ None None false _ Hd).
Defined.

(** ** What an interruption can do *)

(** a write cut short leaves a log that does not open again *)
Lemma torn_write_locks_out : opens_not name (files (world (Disk.Set_ (str "c") None (opened (process_but 1 3))).1)).
Proof.
  apply (opens_not_torn name _ es (take 3 (encodeEntry (str "c") (Some [])))).
  - vm_compute. reflexivity.
  - exact es_fit.
  - exists (str "c"), (Some []), 3%nat. split; [by split|]. split; [vm_compute; lia|done].
Qed.

(** and when the process lives on, what it acknowledges afterwards goes behind
    the part of a record: it reads it back, and the next process cannot *)
Lemma torn_write_loses_later_ones :
  let torn := (Disk.Set_ (str "c") None (opened (process_but 1 3))).1 in
  let '(d, r) := Disk.Set_ (str "d") (Some (str "4")) torn in
  r = Ok () ∧ Disk.Get (str "d") d = Ok (Some (str "4")) ∧
  match (NewDiskEngine name (mkWorld (files (world d)) 0 (λ _, None) tt)).2 with Err _ => True | _ => False end.
Proof. vm_compute. done. Qed.

(** a process that dies in compaction between the two renames leaves no log,
    and the next one opens an empty database beside the backup *)
Lemma compaction_crash_window :
  let fs := files (NewDiskEngineCompact name (process 7)).1 in
  fs !! name = None ∧ opens_with name fs ∅.
Proof.
  assert (files (NewDiskEngineCompact name (process 7)).1 !! name = None) as Hn by (vm_compute; reflexivity).
  split; [exact Hn|]. apply (opens_with_log name _ []); [by rewrite Hn|constructor].
Qed.
