(* ===== verification/ServerProps.v ===== *)
(** * What a connection of the server guarantees *)

From S2P Require Import Prelude Bytes Types Engine Memory MvccKey Mvcc Lexer Schema Transaction Executor Json Relation Kv KvRefine KvMvcc Session Execute Scripts Result Samples Server Replies.

(** ** Answering *)

Section serving.
Context {D T : Type} `{Relational D T} `{!MapOrder} `{!ErrorTexts}.

(** what a handler has done for the statements [sqls] *)
Definition served (n : regime) (sqls : list bytes) (h : Handler D) (d : reldb) (h' : Handler D) (r : result unit) : Prop :=
  write_faults (handler_conn h') = write_faults (handler_conn h) ∧
  ∃ run skipped rs d' part,
    sqls = run ++ skipped ∧ history (calm n) run d rs d' ∧ holds n (handler_db h') d' ∧
    sent (handler_conn h') = sent (handler_conn h) ++ part ∧
    match r with
    | Ok _ => skipped = [] ∧ part = replies rs
    | Err _ => can_fail (handler_conn h) ∧ ∃ rs' r' cut, rs = rs' ++ [r'] ∧ part = replies rs' ++ cut ∧ cut `prefix_of` reply r'
    | Panic _ => False
    end.

Lemma holds_room k n (D0 : D) d : holds (room_for k n) D0 d → holds n D0 d.
Proof. induction k as [|k IH]; [done|]. intros ?%holds_weaken. by apply IH. Qed.

(** one statement *)
Lemma answer_ok n sql (h : Handler D) d :
  holds (more n) (handler_db h) d → valid_utf8 sql = true →
  let '(h', r) := answer sql h in
  write_faults (handler_conn h') = write_faults (handler_conn h) ∧
  ∃ r0 d', history (calm n) [sql] d [r0] d' ∧ holds n (handler_db h') d' ∧
    appends (handler_conn h) (reply r0) (handler_conn h', r).
Proof.
  intros Hh Hutf. pose proof (Session_ok n (handler_db h) d sql Hh Hutf) as Hs.
  destruct (Session_Execute sql (handler_db h)) as [D1 r0] eqn:Hr. pose proof (answer_replies _ _ _ _ Hr) as Ha.
  destruct r0 as [r|err|p]; [| |done]; destruct (answer sql h) as [h' r']; destruct Ha as [-> Ha]; (split; [apply Ha|]).
  - destruct Hs as (d' & He & Hh'). exists (Ok r), d'. split; [by econstructor; [|constructor]|]. by split.
  - destruct Hs as [Hh' Hno]. exists (Err err), d. split; [by econstructor; [|constructor]|]. by split.
Qed.

Lemma statements_served n sqls (h : Handler D) d :
  holds (room_for (length sqls) n) (handler_db h) d → Forall (λ sql, valid_utf8 sql = true) sqls →
  let '(h', r) := siter answer sqls h in served n sqls h d h' r.
Proof.
  revert h d. induction sqls as [|sql sqls IH]; intros h d Hh Hutf; cbn [siter].
  { split; [done|]. exists [], [], [], d, [].
    split; [done|]. split; [constructor|]. split; [done|]. by rewrite app_nil_r. }
  unfold sbind at 1. apply Forall_cons in Hutf as [Hsql Hutf]. cbn [length room_for] in Hh.
  pose proof (answer_ok _ _ h d Hh Hsql) as Ha. rewrite calm_room_for in Ha.
  destruct (answer _ h) as [h1 [[]|err|p]].
  - destruct Ha as (Hf & r0 & d1 & Hhist & Hh1 & _ & part & Hs & ->). specialize (IH h1 d1 Hh1 Hutf).
    destruct (siter answer sqls h1) as [h' r].
    destruct IH as (Hf' & run & skipped & rs & d' & part & Hrun & Hhist' & Hh' & Hs' & Hr).
    split; [congruence|]. exists (sql :: run), skipped, (r0 :: rs), d', (reply r0 ++ part). cbn in Hs.
    split; [by rewrite Hrun|]. split; [exact (history_app _ _ _ _ _ _ _ _ Hhist Hhist')|]. split; [done|].
    split; [by rewrite Hs', Hs, app_assoc|].
    destruct r as [u|err|p]; [by destruct Hr as [-> ->]| |done].
    destruct Hr as (Hc & rs' & r' & cut & -> & -> & Hcut). split; [unfold can_fail; by rewrite <-Hf|].
    exists (r0 :: rs'), r', cut. split; [done|]. split; [|done]. unfold replies. cbn. by rewrite app_assoc.
  - destruct Ha as (Hf & r0 & d1 & Hhist & Hh1 & _ & part & Hs & Hp & Hc). split; [done|].
    exists [sql], sqls, [r0], d1, part. split; [done|]. split; [done|]. split; [by eapply holds_room|].
    split; [done|]. split; [done|]. exists [], r0, part. by split.
  - by destruct Ha as (_ & r0 & d1 & _ & _ & _ & part & _ & []).
Qed.

End serving.

(** ** The lines of a stream *)

Lemma IndexByte_line line b rest : b ∉ line → IndexByte (line ++ b :: rest) b = Some (length line).
Proof.
  induction line as [|x line IH]; intros Hb; cbn.
  - by rewrite decide_True.
  - apply not_elem_of_cons in Hb as [Hx Hb]. rewrite decide_False by done. by rewrite IH.
Qed.

#[local] Opaque maxRequestSize.

Lemma maxRequestSize_positive : (0 < maxRequestSize)%nat.
Proof. apply Nat.ltb_lt. vm_compute. reflexivity. Qed.

(** lines that fit are scanned one by one, without their ends *)
Lemma scan_lines_joined fuel lines err :
  Forall (λ line, x0a ∉ line ∧ (length line < maxRequestSize)%nat) lines →
  (length lines < fuel)%nat →
  scan_lines fuel (concat (map (λ line, line ++ [x0a]) lines)) err = (map dropCR lines, err).
Proof.
  revert fuel. induction lines as [|line lines IH]; intros [|fuel] Hl Hf; try (cbn in Hf; lia).
  - cbn. rewrite decide_False; [done|]. pose proof maxRequestSize_positive. lia.
  - apply Forall_cons in Hl as [[Hno Hlen] Hl]. cbn [map concat scan_lines].
    rewrite <-app_assoc. cbn [app]. rewrite IndexByte_line by done. rewrite decide_False by lia.
    rewrite drop_app_ge by lia. replace (S (length line) - length line)%nat with 1%nat by lia. cbn [drop].
    rewrite IH by (done || (cbn in Hf; lia)). by rewrite take_app_length.
Qed.

(** ** The connection *)

(** the handler of one connection, as a lemma *)
Lemma connection_ok {D T} `{Relational D T} `{!MapOrder} `{!ErrorTexts} n cancelled (D0 : D) c d :
  holds (room_for (length (requests c)) n) D0 d → Forall (λ sql, valid_utf8 sql = true) (requests c) →
  let '(h', r) := handleConnection cancelled (mkHandler D0 c) in
  ∃ run skipped rs d',
    requests c = run ++ skipped ∧ history (calm n) run d rs d' ∧ holds n (handler_db h') d' ∧
    ((skipped = [] ∧ sent (handler_conn h') = sent c ++ replies rs ∧
      r = match (scanned c).2 with
          | Some err => if cancelled then Ok () else Err (Wrapf "server: reading request: %w" err)
          | None => Ok ()
          end) ∨
     (can_fail c ∧ ∃ err rs' r' cut, r = Err err ∧ rs = rs' ++ [r'] ∧
      sent (handler_conn h') = sent c ++ replies rs' ++ cut ∧ cut `prefix_of` reply r')).
Proof.
  intros Hh Hutf. unfold handleConnection, requests in *. cbn [handler_conn]. fold (scanned c).
  destruct (scanned c) as [lines end_err]. cbn [fst snd] in *. unfold sbind. rewrite lines_statements.
  pose proof (statements_served n _ (mkHandler D0 c) d Hh Hutf) as Hs.
  destruct (siter answer _ (mkHandler D0 c)) as [h' [[]|err|p]];
    destruct Hs as (_ & run & skipped & rs & d' & part & Hrun & Hhist & Hh' & Hsent & Hr); cbn in Hr, Hsent; [| |done].
  - destruct Hr as [-> ->]. destruct end_err as [err|]; [destruct cancelled|]; exists run, [], rs, d';
      (split; [done|]); (split; [done|]); (split; [done|]); by left.
  - destruct Hr as (Hc & rs' & r' & cut & -> & -> & Hcut). exists run, skipped, (rs' ++ [r']), d'.
    split; [done|]. split; [done|]. split; [done|]. right. split; [done|]. by exists err, rs', r', cut.
Qed.

(** C13: a connection answers every statement, in order.
    Each non-blank line of the stream is one statement; their results are a
    history of the database and each is written back as one reply, the text of
    the result or of its error.  Failed statements do not end the connection
    and nothing panics.  The handler ends after the last line, with an error
    only if a line was too long or reading failed and it was not cancelled, or
    earlier if a write failed: then every earlier reply was sent whole. *)
Theorem connection_serves {D T} `{Relational D T} `{!MapOrder} `{!ErrorTexts} n cancelled (D0 : D) c d :
  holds (room_for (length (requests c)) n) D0 d → Forall (λ sql, valid_utf8 sql = true) (requests c) →
  let '(h', r) := handleConnection cancelled (mkHandler D0 c) in
  ∃ run skipped rs d',
    requests c = run ++ skipped ∧ history (calm n) run d rs d' ∧ holds n (handler_db h') d' ∧
    ((skipped = [] ∧ sent (handler_conn h') = sent c ++ replies rs ∧
      r = match (scanned c).2 with
          | Some err => if cancelled then Ok () else Err (Wrapf "server: reading request: %w" err)
          | None => Ok ()
          end) ∨
     (can_fail c ∧ ∃ err rs' r' cut, r = Err err ∧ rs = rs' ++ [r'] ∧
      sent (handler_conn h') = sent c ++ replies rs' ++ cut ∧ cut `prefix_of` reply r')).
Proof. apply connection_ok. Qed.

(** ** A conversation *)

Definition text_of_errors : ErrorTexts := λ _, str "(text)".

Definition talk : list string :=
  ["CREATE TABLE t (id INT PRIMARY KEY, name STRING);"; " insert into T (id, name) values (2, 'b'), (1, 'a') ;";
   ""; "SELECT x FROM t;"; "SELECT name, id FROM t;"]%string.
Definition crlf : bytes := [x0d; x0a].
Definition peer : Conn := mkConn (concat (map (λ l, str l ++ crlf) talk)) None [] 0 (λ _, None).

Definition conversation := handleConnection (T := KVTransaction MemoryEngine) (H0 := text_of_errors) false (mkHandler NewMemoryEngine peer).

Lemma conversation_sent :
  sent (handler_conn conversation.1) =
    concat (map (λ l, str l ++ [x0a])
      ["CREATE TABLE t"; "INSERT 2 rows"; "ERROR: (text)"; "name | id"; "a | 1"; "b | 2"; "(2 rows)"]%string).
Proof. vm_compute. reflexivity. Qed.

Lemma peer_requests :
  requests peer = map str ["CREATE TABLE t (id INT PRIMARY KEY, name STRING);";
    "insert into T (id, name) values (2, 'b'), (1, 'a') ;"; "SELECT x FROM t;"; "SELECT name, id FROM t;"]%string.
Proof. vm_compute. reflexivity. Qed.

Lemma peer_never_fails : ¬ can_fail peer.
Proof. by intros [i Hi]. Qed.

Lemma connection_serves_witness :
  ∃ rs d', history True (requests peer) ∅ rs d' ∧ holds (mkRegime 0 True) (handler_db conversation.1) d' ∧
    sent (handler_conn conversation.1) = replies (H := text_of_errors) rs ∧ conversation.2 = Ok ().
Proof.
  assert (holds (room_for (length (requests peer)) (mkRegime 0 True)) NewMemoryEngine ∅) as Hh.
  { rewrite peer_requests. by apply kv_holds_empty. }
  assert (Forall (λ sql, valid_utf8 sql = true) (requests peer)) as Hutf.
  { rewrite peer_requests. repeat apply List.Forall_cons; try constructor; vm_compute; reflexivity. }
  pose proof (connection_serves (mkRegime 0 True) (H1 := text_of_errors) false NewMemoryEngine peer ∅ Hh Hutf) as Hs.
  unfold conversation. destruct (handleConnection _ _) as [h' r].
  destruct Hs as (run & skipped & rs & d' & Hrun & Hhist & Hh' & Hr).
  destruct Hr as [(-> & Hsent & Hr)|[Hc _]]; [|by destruct (peer_never_fails Hc)].
  rewrite app_nil_r in Hrun. rewrite Hrun. exists rs, d'. split; [done|]. split; [done|]. split; [exact Hsent|].
  rewrite Hr. assert ((scanned peer).2 = None) as -> by (vm_compute; reflexivity). done.
Defined.
