(* ===== verification/Tokens.v ===== *)
(** * Tokens in error texts ([lexer/token.go]) *)

From S2P Require Import Prelude Bytes Types Lexer Result.

Definition Kind_String (k : TokenKind) : bytes :=
  match k with
  | EndOfInput => str "end of input"
  | KeywordKind => str "keyword"
  | Identifier => str "identifier"
  | TString => str "string literal"
  | Number => str "number literal"
  | OpenParen => str "'('"
  | CloseParen => str "')'"
  | Comma => str "','"
  | Semicolon => str "';'"
  | Asterisk => str "'*'"
  | Plus => str "'+'"
  | Minus => str "'-'"
  | Slash => str "'/'"
  | Equal => str "'='"
  | GreaterThan => str "'>'"
  | LessThan => str "'<'"
  end.

Definition DescribePosition (offset : nat) : bytes := str "offset " ++ FormatInt (Z.of_nat offset).

(** [Token.Value] under the verbs [%v] and [%s] of [fmt] *)
Definition value_v (v : token_value) : bytes :=
  match v with
  | NoValue => str "<nil>"
  | StrValue s => s
  | IntValue z => FormatInt z
  | FltValue f => FormatFloat f
  end.

Definition value_s (v : token_value) : bytes :=
  match v with
  | StrValue s => s
  | NoValue => str "%!s(<nil>)"
  | IntValue z => str "%!s(int64=" ++ FormatInt z ++ str ")"
  | FltValue f => str "%!s(float64=" ++ FormatFloat f ++ str ")"
  end.

Definition DescribeToken (token : Token) : bytes :=
  match tok_kind token with
  | KeywordKind => str "keyword '" ++ tok_keyword token ++ str "'"
  | Identifier | TString => Kind_String (tok_kind token) ++ str " '" ++ value_s (tok_value token) ++ str "'"
  | Number => str "number literal " ++ value_v (tok_value token)
  | kind => Kind_String kind
  end.

(** no two kinds share a name *)
Lemma Kind_String_inj k k' : Kind_String k = Kind_String k' → k = k'.
Proof. destruct k, k'; done. Qed.

(** the text of a token without a value is that of its kind *)
Lemma DescribeToken_symbol token :
  tok_kind token ∉ [KeywordKind; Identifier; TString; Number] → DescribeToken token = Kind_String (tok_kind token).
Proof. unfold DescribeToken. destruct (tok_kind token); try done; intros Hk; destruct Hk; set_solver. Qed.

Example described :
  map DescribeToken [mkToken KeywordKind (str "FROM") NoValue 0; mkToken TString [] (StrValue (str "a b")) 0;
    mkToken Number [] (IntValue (-7)) 0; mkToken Semicolon [] NoValue 0] =
  map str ["keyword 'FROM'"; "string literal 'a b'"; "number literal -7"; "';'"]%string.
Proof. vm_compute. reflexivity. Qed.
