(* ===== verification/Client.v ===== *)
(** * The client ([cmd/spacedb-client/main.go])

    It copies its input to the connection and what comes back to its output,
    at the same time, until both ends are closed.  The two directions do not
    depend on each other in the client: [answers] are the bytes the server
    sends back, whatever they depend on. *)

From S2P Require Import Prelude Bytes Types Os Lexer Schema Transaction Executor Json Relation Session Execute Scripts Result Server Replies ServerProps.

(** a source: its bytes, and how reading them ends *)
Record Source := mkSource { source_bytes : bytes; source_end : option error }.

(** a sink: after how many bytes writing fails, and with which error *)
Definition Sink : Type := option (nat * error).

(** [io.Copy]: what reaches the sink, and the first error *)
Definition io_Copy (dst : Sink) (src : Source) : bytes * result unit :=
  match dst with
  | Some (n, err) =>
      if decide (n < length (source_bytes src))%nat then (take n (source_bytes src), Err err)
      else (source_bytes src, match source_end src with Some err => Err err | None => Ok () end)
  | None => (source_bytes src, match source_end src with Some err => Err err | None => Ok () end)
  end.

(** what a client finds: whether it can connect, its terminal and the connection *)
Record Terminal := mkTerminal {
  dial : result unit;
  stdin : Source;
  stdout : Sink;
  uplink : Sink;
  close_write : result unit;
}.

(** [run]: what it sends, what it prints, and its error; [answers] is what the
    server sends back *)
Definition client_run (t : Terminal) (answers : bytes → Source) : bytes * bytes * result unit :=
  match dial t with
  | Ok _ =>
      let '(requested, requestErr) := io_Copy (uplink t) (stdin t) in
      let '(printed, responseErr) := io_Copy (stdout t) (answers requested) in
      (requested, printed,
       errors_Join (rwrap "client: sending request: %w" requestErr)
         (errors_Join (rwrap "client: closing request stream: %w" (close_write t))
            (rwrap "client: reading response: %w" responseErr)))
  | r => ([], [], rwrap "client: connecting to %s: %w" r)
  end.

(** nothing fails on the client's side *)
Definition sound (t : Terminal) : Prop :=
  dial t = Ok () ∧ source_end (stdin t) = None ∧ stdout t = None ∧ uplink t = None ∧ close_write t = Ok ().

Lemma client_copies t answers :
  sound t → source_end (answers (source_bytes (stdin t))) = None →
  client_run t answers = (source_bytes (stdin t), source_bytes (answers (source_bytes (stdin t))), Ok ()).
Proof. intros (Hd & Hi & Ho & Hu & Hc) Ha. unfold client_run, io_Copy. by rewrite Hd, Hu, Ho, Hi, Ha, Hc. Qed.

(** ** A client and the server *)

Section conversation.
Context {D T : Type} `{Relational D T} `{!MapOrder} `{!ErrorTexts}.

(** the server's end of the connection, when the client has sent [requested] *)
Definition accepted (requested : bytes) : Conn := mkConn requested None [] 0 (λ _, None).

(** what the server sends on a database *)
Definition server_answers (D0 : D) (requested : bytes) : Source :=
  mkSource (sent (handler_conn (handleConnection false (mkHandler D0 (accepted requested))).1)) None.

(** the user sees the reply to each statement typed, in order, and the database
    is what the statements made of it *)
Lemma terminal_conversation n t (D0 : D) d :
  sound t → let typed := source_bytes (stdin t) in let sqls := requests (accepted typed) in
  holds (room_for (length sqls) n) D0 d → Forall (λ sql, valid_utf8 sql = true) sqls →
  ∃ rs d',
    client_run t (server_answers D0) = (typed, replies rs, Ok ()) ∧ history (calm n) sqls d rs d' ∧
    holds n (handler_db (handleConnection false (mkHandler D0 (accepted typed))).1) d'.
Proof.
  intros Ht typed sqls Hh Hutf. rewrite client_copies by done. unfold server_answers. fold typed.
  pose proof (connection_ok n false D0 (accepted typed) d Hh Hutf) as Hs.
  destruct (handleConnection false _) as [h' r]. destruct Hs as (run & skipped & rs & d' & Hreq & Hhist & Hh' & Hr).
  destruct Hr as [(-> & Hsent & _)|([i Hi] & _)]; [|by destruct Hi]. rewrite app_nil_r in Hreq.
  exists rs, d'. cbn [fst source_bytes]. unfold sqls. rewrite Hreq. by rewrite Hsent.
Qed.

End conversation.
