(* ===== verification/Findings.v ===== *)
(** * What modelling showed

    Small programs on which the code does something else than it means to.
    Others are theorems of [MvccProps] and [DiskProps]. *)

From S2P Require Import Prelude Bytes Types Lexer Engine Memory MvccKey Mvcc Ast Schema Transaction Executor Json Relation Kv KvRefine KvMvcc Session Scripts Samples.

(** [Table.Validate] accepts a table whose two columns have the same name;
    [ColumnIndex] then never finds the second *)
Definition twins : Table := mkTable (str "t") [column "id" Integer true; column "id" String false].

Lemma twins_are_valid : Validate twins = Ok () ∧ ColumnIndex twins (str "id") = Ok 0%nat.
Proof. split; vm_compute; reflexivity. Qed.

(** a [SELECT *] with a [GROUP BY] is accepted and its rows have no values *)
Definition grouped_star : list bytes :=
  [str "CREATE TABLE t (id INT PRIMARY KEY, name STRING);"; str "INSERT INTO t VALUES (1, 'a'), (2, 'b');";
   str "SELECT * FROM t GROUP BY id;"].

Lemma grouped_star_is_empty :
  last (run_statements (T := KVTransaction MemoryEngine) grouped_star NewMemoryEngine).2 = Some (Ok (RowsResult [] [[]; []])).
Proof. vm_compute. reflexivity. Qed.

(** integers above 2^53 are compared with floats by rounding them: equality is
    not transitive *)
Definition two_53 : Z := 9007199254740992.
Definition float_of (n : Z) : Types.Value := FloatValue (decimal_float n 0).

Lemma rounded_comparison_is_not_transitive :
  Compare (IntegerValue (two_53 + 1)) (float_of two_53) = Ok 0 ∧
  Compare (float_of two_53) (IntegerValue two_53) = Ok 0 ∧
  Compare (IntegerValue (two_53 + 1)) (IntegerValue two_53) = Ok 1.
Proof. split; [|split]; vm_compute; reflexivity. Qed.
